(* ===== verification/_CoqProject ===== *)
-Q . S2P
Prelude.v
Utils.v
Locks.v
LocksProofs.v
Thread.v
ThreadProofs.v
StackAllocator.v
StackAllocatorProofs.v
Timer.v
TimerProofs.v
TimerTheorems.v
Fiber.v
FiberProofs.v
Scheduler.v
SchedulerProofs.v
Worker.v
WorkerProofs.v
Shutdown.v
ShutdownProofs.v
Sync.v
SyncProofs.v
Condition.v
ConditionProofs.v
IOManager.v
IOManagerProofs.v
IOManagerTheorems.v
FdManager.v
FdManagerProofs.v
Hook.v
HookProofs.v
HookService.v
HookCalls.v
HookCallsProofs.v
Blocking.v
BlockingProofs.v
IOLifecycle.v
File.v
FileProofs.v
Net.v
NetProofs.v
NetServer.v
NetConnect.v
Codec.v
CodecProofs.v
RpcClient.v
RpcClientProofs.v
RpcReader.v
RpcServer.v
RpcServerProofs.v
RpcCalls.v
RpcStop.v
RpcStub.v
