(* ===== verification/Prelude.v ===== *)
(** * Pulsar: a verification development

    Pulsar (src/) is a C++ runtime for stackful coroutines: fibers on pooled stacks,
    a work-stealing scheduler, timers, an epoll-driven I/O manager, hooked system
    calls, fiber synchronisation, TCP connections and servers, and an RPC layer over
    Protocol Buffers.  This development models its core as executable definitions and
    proves the properties that make the components correct, together with the places
    where the code does not do what it means to.

    ** How the parts fit together

    A fiber takes its stack from an allocator.  Workers of the scheduler take fibers
    and callbacks from their queues, or steal them, and resume them.  The I/O manager
    is a scheduler and a timer manager: its idle loop waits in epoll and turns ready
    events and expired timers into tasks.  The hooks, the synchronisation objects,
    connections and remote calls suspend a fiber and rely on somebody scheduling it
    again exactly once: much of what is proved is that nobody is lost or resumed
    twice, whatever the interleaving of threads, timers and cancellations.

    ** Files

    - [Prelude]: machine integers, the state and error monad [M] with its outcomes
      (a value, an exception, or an assertion failure or undefined behaviour), list,
      map and relation lemmas, tactics and hint databases.
    - [Utils] (include/pulsar/utils.hpp and the start-up of src/hook.cpp): back traces
      and the table of the original functions.
    - [Locks], [LocksProofs] (include/pulsar/mutex.hpp): the locks over pthreads, the
      guard templates over any lock with [GuardLaws], the thread semaphore.
    - [Thread], [ThreadProofs] (src/thread.cpp): thread objects, their pthreads and
      thread-local names, from construction to join or destruction.
    - [StackAllocator], [StackAllocatorProofs] (src/stack_allocator.cpp): raw
      allocation with guard pages, [Direct], [Pooled] and the lock regions of the
      pool as the steps of [pool_step].  The class [AllocatorLaws] is what a fiber
      relies on (stacks of blocks handed out do not overlap, every block can be given
      back); both allocators are proved to satisfy it.
    - [Timer], [TimerProofs], [TimerTheorems] (src/timer.cpp): the four wheels and the
      overflow tree over a store of shared timer objects.
    - [Fiber], [FiberProofs] (src/fiber.cpp): life cycle, switches, exceptions across
      switches and stack ownership, for any allocator with [AllocatorLaws].
    - [Scheduler], [SchedulerProofs] (src/scheduler.cpp, queues and stealing);
      [Worker], [WorkerProofs] (the run loop and the callback-fiber cache);
      [Shutdown], [ShutdownProofs] (run, idle, stopping and stop, interleaved queue by
      queue, with submissions from outside at any time).
    - [Sync], [SyncProofs], [Condition], [ConditionProofs] (src/sync.cpp): wait queue,
      hand-off mutex, semaphore, condition variable.
    - [IOManager], [IOManagerProofs], [IOManagerTheorems] (src/iomanager.cpp):
      contexts of descriptors, registration, deletion and cancellation of events,
      the idle loop, with a log of the calls of epoll_ctl.
    - [FdManager], [FdManagerProofs] (src/fd_manager.cpp and the configuration hooks
      of src/hook.cpp): over the class [Kernel] with [KernelLaws], of which a small
      kernel is an instance.
    - [Hook], [HookProofs] (src/hook.cpp, do_io): against the class [EventService];
      [HookService] proves that the I/O manager implements it.  [HookCalls],
      [HookCallsProofs]: connect and the sleeps as state machines, the calls behind
      do_io, the dispatch of fcntl, ioctl and setsockopt, close.
    - [Blocking], [BlockingProofs] (BlockingThreadPool and asyncBlocking);
      [IOLifecycle] (the pool's threads from construction to stop, construction and
      destruction of the I/O manager).
    - [File], [FileProofs] (include/pulsar/file.hpp): asynchronous file calls and the
      owning handle as programs that suspend at their blocking call, several of them
      in progress at a time, over descriptors that other code uses too and a pool that
      may refuse the call.
    - [Net], [NetProofs], [NetServer], [NetConnect] (src/net.cpp): reads, writes and
      waits of connections; the server; Connect and the listening socket.
    - [Codec], [CodecProofs] (src/rpc.cpp): the wire format.  [HeaderFormat] with
      [HeaderLaws] is the generated protobuf code.
    - [RpcClient], [RpcClientProofs], [RpcServer], [RpcServerProofs] (src/rpc.cpp):
      controller, channel, executor and provider.  [RpcReader]: connections and
      readers of a multiplexed channel, with reconnection.  [RpcCalls]: the whole loop
      of the provider on a connection, and calls from the stub to the service and back.
      [RpcStop]: the provider's Stop.  [RpcStub]: CallMethod around the exchange, with
      the controller, the closure and the slots.

    ** How state and steps correspond to the code

    A class is a record with the source's data members; a method is a function on it
    of the same name.  Objects the code shares (timers, descriptor contexts, waiters,
    calls) live in stores and are reached through addresses.  Code under a lock, and
    each atomic operation, is one function; where threads interleave, a step relation
    has one constructor per such function, the control point of a thread is a
    component of the state, and resumptions that are in the scheduler are counted.
    Ghost fields (logs of frames, started or completed tasks) are named as such where
    they are declared.  Unsigned integers are [Z] with the wrap-around written out.
    What the operating system or client code answers is an argument: whether
    allocation or epoll_ctl succeeds, what recv returns, what a callback does.

    ** What the theorems show

    - Conservation: no task is lost or duplicated in the scheduler; everything a
      client registered with the I/O manager is registered, queued, taken or given
      back; stacks are cached, held or released; semaphore units (modulo 2^64),
      counters of the blocking pool and, for services that run their closure at most
      once and do not throw afterwards, of the provider are exact; descriptors of
      files and sockets are closed exactly once and buffered bytes given back on every
      path.
    - Exactly-once resumption: mutex and semaphore waiters, hooked calls, waits of
      connections, blocking calls, multiplexed and served RPC calls.  The wake-ups of
      the synchronisation objects are proved for fibers under an I/O manager; without
      one a grant of the mutex can be lost, which is proved too.
    - Exclusion: the locks and their guards, the fiber mutex, readers of a channel.
    - Life cycles: fibers, threads, file handles, the scheduler's stop, the pool's stop,
      the provider's stop and the I/O manager's destruction.
    - Functional behaviour: timers fire when due and not before, whole-buffer reads
      and writes, varints and frames round trip, a request reaches the method it names
      and the response comes back to its caller, in order.
    - Equivalence: a file call through the pool and inline agree, but for the errno of
      a call that sets none.
    - Refinement: the allocators keep the contract fibers use; the kernel's interest
      set mirrors the contexts; the I/O manager implements the hooks' interface; the
      executor is a bounded first-in first-out queue.
    - Bounds: request sizes and buffered bytes, delays, connection limits.
    - Errors: reachable states in which the code misbehaves, each with its run (stale
      epoll reports, forgotten deadlines, stray resumptions after a failed send, a
      resumption that a write's wait takes from its call, frames behind a fragment, a
      counter that wraps, a sweep that ends the calls of a new connection, a nested
      guard that drops the lock, and others).

    ** Bounds and fuel

    Loops run on fuel that is shown to be enough: [smear_loop] doubles its shift up to
    64; a trim needs at most one round per cached block; a varint has at most five
    bytes; [ReadExact] makes at least one byte of progress per round; expiry passes
    recurse over the slots and the tree.  Calls that depend on the kernel follow a
    script of its answers and are still in progress when the script ends.  Request ids
    are assumed not to wrap (fewer than 2^64 - 1 calls on one channel).

    ** Not modelled

    - Singletons and deleted copies (language idioms without operations of their
      own), declarations and accessors that return a member, and the examples,
      benchmarks and tests, which only use the library.
    - Boost.Context, epoll, sockets, dlsym, __cxa_demangle and generated protobuf code
      are outside the repository: they are parameters, scripts or interfaces with stated laws.
    - Some interference between components: while a hooked call is suspended nobody
      else deletes or cancels its registration (a hooked close of the same
      descriptor), the flag that [Timer::cancel] exchanges before it takes the lock
      changes together with the wheels, and a fiber makes one blocking call in
      [Blocking].
    - Data races in the sense of the C++ memory model: atomics and lock regions are
      sequentially consistent steps. *)

From stdpp Require Import base list gmap strings relations.
From stdpp Require Export base list gmap strings relations.

(** ** Machine integers

    Unsigned C++ integers are elements of [Z]; the wrap-around of a [w]-bit
    operation is written out with [wrap w].  [size_t] and [uint64_t] are both
    64 bits wide on the platform the repository supports (Linux x86_64). *)

Declare Scope pulsar_scope.
Delimit Scope pulsar_scope with pulsar.
Open Scope Z_scope.

Definition wrap (w z : Z) : Z := z mod 2 ^ w.
Definition u8 (z : Z) : Z := wrap 8 z.
Definition u32 (z : Z) : Z := wrap 32 z.
Definition u64 (z : Z) : Z := wrap 64 z.

(** Two's complement reading of the low [w] bits. *)
Definition swrap (w z : Z) : Z := (z + 2 ^ (w - 1)) mod 2 ^ w - 2 ^ (w - 1).
Definition i32 (z : Z) : Z := swrap 32 z.

Definition UINT64_MAX : Z := 2 ^ 64 - 1.
Definition SIZE_MAX : Z := UINT64_MAX.
Definition INVALID_SIZE : Z := SIZE_MAX.

Lemma wrap_range w z : 0 <= w -> 0 <= wrap w z < 2 ^ w.
Proof. intros. apply Z.mod_pos_bound. lia. Qed.

Lemma wrap_small w z : 0 <= z < 2 ^ w -> wrap w z = z.
Proof. intros. by apply Z.mod_small. Qed.

Lemma u64_range z : 0 <= u64 z < 2 ^ 64.
Proof. apply wrap_range. lia. Qed.

Lemma u64_small z : 0 <= z < 2 ^ 64 -> u64 z = z.
Proof. apply wrap_small. Qed.

Lemma u32_range z : 0 <= u32 z < 2 ^ 32.
Proof. apply wrap_range. lia. Qed.

Lemma u32_small z : 0 <= z < 2 ^ 32 -> u32 z = z.
Proof. apply wrap_small. Qed.

Lemma i32_small z : - 2 ^ 31 <= z < 2 ^ 31 -> i32 z = z.
Proof. intros. unfold i32, swrap. simpl Z.sub. rewrite Z.mod_small; lia. Qed.

Lemma u64_add_l a b : u64 (u64 a + b) = u64 (a + b).
Proof. unfold u64, wrap. apply Zplus_mod_idemp_l. Qed.

Lemma u64_add_r a b : u64 (a + u64 b) = u64 (a + b).
Proof. unfold u64, wrap. apply Zplus_mod_idemp_r. Qed.

Lemma u64_sub_l a b : u64 (u64 a - b) = u64 (a - b).
Proof. unfold u64, wrap. apply Zminus_mod_idemp_l. Qed.

Lemma u64_sub_r a b : u64 (a - u64 b) = u64 (a - b).
Proof. unfold u64, wrap. apply Zminus_mod_idemp_r. Qed.

Lemma u64_idem a : u64 (u64 a) = u64 a.
Proof. unfold u64, wrap. apply Zmod_mod. Qed.

Create HintDb pulsar discriminated.
#[export] Hint Resolve u64_range u32_range : pulsar.
Create Rewrite HintDb u64_norm.
#[export] Hint Rewrite u64_add_l u64_add_r u64_sub_l u64_sub_r u64_idem : u64_norm.

(** ** Effects

    A C++ member function that mutates an object, can throw and can stop the
    process is a function in the monad [M S]: [S] is the state, an exception
    carries the state reached when it was thrown (the writes made before the
    throw stay), and [Crash] is the end of the process.  [Panic] is a failed
    [CondPanic] (an [assert]), [Terminate] a call of [std::terminate], and
    [Undefined] a step whose behaviour C++ leaves undefined. *)

Inductive crash : Type :=
| Panic (msg : string)
| Terminate
| Undefined (what : string).

Inductive exn : Type :=
| bad_alloc
| logic_error (msg : string)
| invalid_argument (msg : string)
| user_exception (tag : Z).

Inductive outcome (S A : Type) : Type :=
| Ret (a : A) (s : S)
| Throw (e : exn) (s : S)
| Crash (why : crash).
Arguments Ret {S A} a s.
Arguments Throw {S A} e s.
Arguments Crash {S A} why.

#[export] Instance crash_eq_dec : EqDecision crash.
Proof. solve_decision. Defined.
#[export] Instance exn_eq_dec : EqDecision exn.
Proof. solve_decision. Defined.

Definition M (S A : Type) : Type := S -> outcome S A.

#[export] Instance M_ret S : MRet (M S) := fun A a s => Ret a s.
#[export] Instance M_bind S : MBind (M S) := fun A B k m s =>
  match m s with
  | Ret a s' => k a s'
  | Throw e s' => Throw e s'
  | Crash w => Crash w
  end.

Definition throw {S A} (e : exn) : M S A := fun s => Throw e s.
Definition stop {S A} (w : crash) : M S A := fun _ => Crash w.
Definition get {S} : M S S := fun s => Ret s s.
Definition gets {S A} (f : S -> A) : M S A := fun s => Ret (f s) s.
Definition modify {S} (f : S -> S) : M S unit := fun s => Ret tt (f s).

(** [try { m } catch (...) { h }] *)
Definition try_catch {S A} (m : M S A) (h : exn -> M S A) : M S A := fun s =>
  match m s with
  | Throw e s' => h e s'
  | o => o
  end.

(** Run a computation of a sub-object inside its owner. *)
Definition zoom {S T A} (pr : S -> T) (up : T -> S -> S) (m : M T A) : M S A := fun s =>
  match m (pr s) with
  | Ret a t => Ret a (up t s)
  | Throw e t => Throw e (up t s)
  | Crash w => Crash w
  end.

(** utils.hpp: [CondPanic].  The model is the build in which [assert] is
    active: a failed condition ends the process. *)
Definition CondPanic {S} (condition : bool) (err : string) : M S unit :=
  if condition then mret tt else stop (Panic err).

(** [m] returns normally from [s], in a state and with a value that satisfy
    [Q].  A total-correctness judgement: it excludes throws and crashes. *)
Definition returns {S A} (m : M S A) (s : S) (Q : A -> S -> Prop) : Prop :=
  match m s with
  | Ret a s' => Q a s'
  | _ => False
  end.

Lemma returns_bind {S A B} (m : M S A) (k : A -> M S B) s (Q : B -> S -> Prop) :
  returns (m ≫= k) s Q <-> returns m s (fun a s' => returns (k a) s' Q).
Proof. unfold returns, mbind, M_bind. by destruct (m s). Qed.

Lemma returns_mono {S A} (m : M S A) s (Q R : A -> S -> Prop) :
  returns m s Q -> (forall a s', Q a s' -> R a s') -> returns m s R.
Proof. unfold returns. destruct (m s); naive_solver. Qed.

(** Evaluating a sequence one step at a time. *)
Lemma bind_ret {S A B} (m : M S A) (k : A -> M S B) s a s' R :
  m s = Ret a s' -> k a s' = R -> (m ≫= k) s = R.
Proof. unfold mbind, M_bind. by intros ->. Qed.

Lemma bind_throw {S A B} (m : M S A) (k : A -> M S B) s e s' :
  m s = Throw e s' -> (m ≫= k) s = Throw e s'.
Proof. unfold mbind, M_bind. by intros ->. Qed.

Lemma bind_get {S B} (k : S -> M S B) s R : k s s = R -> (get ≫= k) s = R.
Proof. done. Qed.

Lemma bind_gets {S A B} (f : S -> A) (k : A -> M S B) s R : k (f s) s = R -> (gets f ≫= k) s = R.
Proof. done. Qed.

Lemma bind_modify {S B} f (k : unit -> M S B) s R : k tt (f s) = R -> (modify f ≫= k) s = R.
Proof. done. Qed.

Lemma bind_panic {S B} b msg (k : unit -> M S B) s R :
  b = true -> k tt s = R -> (CondPanic b msg ≫= k) s = R.
Proof. by intros ->. Qed.

Lemma bind_assoc {S A B C} (m : M S A) (k : A -> M S B) (l : B -> M S C) s R :
  (m ≫= (fun a => k a ≫= l)) s = R -> ((m ≫= k) ≫= l) s = R.
Proof. unfold mbind, M_bind. intros <-. by destruct (m s). Qed.

Lemma bind_seq {S A B C} (m : M S A) (k : A -> M S B) (l : B -> M S C) s b s' R :
  (m ≫= k) s = Ret b s' -> l b s' = R -> (m ≫= (fun a => k a ≫= l)) s = R.
Proof. unfold mbind, M_bind. destruct (m s); try done. by intros ->. Qed.

(** ** Lists: vectors and deques

    A [std::vector] or [std::deque] is a list; [push_back] appends. *)

Fixpoint unsnoc {A} (l : list A) : option (list A * A) :=
  match l with
  | [] => None
  | x :: l' =>
      match unsnoc l' with
      | None => Some ([], x)
      | Some (i, y) => Some (x :: i, y)
      end
  end.

Lemma unsnoc_Some {A} (l i : list A) x : unsnoc l = Some (i, x) <-> l = i ++ [x].
Proof.
  revert i x. induction l as [|y l IH]; intros i x; simpl.
  - split; [done|]. by destruct i.
  - destruct (unsnoc l) as [[j z]|] eqn:E.
    + destruct (IH j z) as [H1 _]. specialize (H1 eq_refl) as ->. split.
      * by intros [= <- <-].
      * intros H. apply (app_inj_tail (y :: j) i) in H as [<- <-]. done.
    + assert (l = []) as ->.
      { destruct l as [|a l]; [done|]. simpl in E. by repeat case_match. }
      split; [by intros [= <- <-]|].
      intros H. by apply (app_inj_tail [] i) in H as [<- <-].
Qed.

Lemma unsnoc_None {A} (l : list A) : unsnoc l = None <-> l = [].
Proof.
  split; [|by intros ->]. destruct l as [|x l]; [done|]. simpl. by repeat case_match.
Qed.

Lemma unsnoc_snoc {A} (l : list A) x : unsnoc (l ++ [x]) = Some (l, x).
Proof. by apply unsnoc_Some. Qed.

(** Sum of a measure over a list. *)
Definition zsum {A} (f : A -> Z) (l : list A) : Z := foldr (fun x n => f x + n) 0 l.

Lemma zsum_app {A} (f : A -> Z) l1 l2 : zsum f (l1 ++ l2) = zsum f l1 + zsum f l2.
Proof. induction l1 as [|x l IH]; simpl; lia. Qed.

Lemma zsum_cons {A} (f : A -> Z) x l : zsum f (x :: l) = f x + zsum f l.
Proof. done. Qed.

Lemma zsum_Permutation {A} (f : A -> Z) l1 l2 : l1 ≡ₚ l2 -> zsum f l1 = zsum f l2.
Proof. induction 1; simpl; lia. Qed.

#[export] Instance zsum_proper {A} (f : A -> Z) : Proper ((≡ₚ) ==> eq) (zsum f).
Proof. intros l1 l2. apply zsum_Permutation. Qed.

Lemma zsum_nonneg {A} (f : A -> Z) l :
  (forall x, x ∈ l -> 0 <= f x) -> 0 <= zsum f l.
Proof.
  induction l as [|x l IH]; simpl; intros H; [lia|].
  pose proof (H x ltac:(set_solver)). assert (0 <= zsum f l) by (apply IH; set_solver).
  lia.
Qed.

Lemma zsum_elem {A} (f : A -> Z) l x :
  (forall y, y ∈ l -> 0 <= f y) -> x ∈ l -> f x <= zsum f l.
Proof.
  intros Hf Hx. apply list_elem_of_split in Hx as (l1 & l2 & ->).
  rewrite zsum_app, zsum_cons.
  pose proof (zsum_nonneg f l1 ltac:(set_solver)).
  pose proof (zsum_nonneg f l2 ltac:(set_solver)). lia.
Qed.

#[global] Arguments zsum {A} f l : simpl never.

Create Rewrite HintDb zsum_norm.
#[export] Hint Rewrite @zsum_app @zsum_cons : zsum_norm.

(** What the values of a map contribute to a list, in some order. *)
Definition collect {K A B} `{Countable K} (f : A -> option B) (m : gmap K A) : list B :=
  omap (fun p => f p.2) (map_to_list m).

Section collect.
Context {K A B : Type} `{Countable K} (f : A -> option B).
Implicit Types (m : gmap K A) (k : K) (x : A).

Lemma collect_insert_new m k x :
  m !! k = None -> collect f (<[k := x]> m) ≡ₚ option_list (f x) ++ collect f m.
Proof.
  intros Hk. unfold collect. rewrite (map_to_list_insert m k x Hk). simpl. by destruct (f x).
Qed.

Lemma collect_delete m k x :
  m !! k = Some x -> collect f m ≡ₚ option_list (f x) ++ collect f (delete k m).
Proof.
  intros Hk. rewrite <- (insert_delete_id m k x Hk) at 1. by apply collect_insert_new, lookup_delete_eq.
Qed.

Lemma collect_insert m k x :
  collect f (<[k := x]> m) ≡ₚ option_list (f x) ++ collect f (delete k m).
Proof. rewrite <- (insert_delete_eq m k x). by apply collect_insert_new, lookup_delete_eq. Qed.

(** A change that leaves the contribution as it is. *)
Lemma collect_update m k x y :
  m !! k = Some x -> f x = f y -> collect f (<[k := y]> m) ≡ₚ collect f m.
Proof. intros Hk E. by rewrite collect_insert, (collect_delete m k x Hk), E. Qed.

Lemma collect_elem m b : b ∈ collect f m <-> exists k x, m !! k = Some x /\ f x = Some b.
Proof.
  unfold collect. rewrite list_elem_of_omap. split.
  - intros ([k x] & Hx & E). apply elem_of_map_to_list in Hx. eauto.
  - intros (k & x & Hx & E). exists (k, x). split; [by apply elem_of_map_to_list|done].
Qed.

Lemma collect_empty : collect f (∅ : gmap K A) = [].
Proof. unfold collect. by rewrite map_to_list_empty. Qed.

End collect.

(** ** Reachability *)

Lemma rtc_invariant {A} (R : A -> A -> Prop) (I : A -> Prop) :
  (forall x y, R x y -> I x -> I y) -> forall x y, rtc R x y -> I x -> I y.
Proof. intros Hstep x y. induction 1; eauto. Qed.

#[global] Arguments Z.shiftr : simpl never.
#[global] Arguments Z.shiftl : simpl never.
#[global] Arguments Z.land : simpl never.
#[global] Arguments Z.lor : simpl never.
#[global] Arguments Z.pow : simpl never.
#[global] Arguments Z.modulo : simpl never.

(** ** Tactics *)

(** Case on every match of the goal, or of a hypothesis, keeping equations. *)
Ltac cases := repeat (case_match; simplify_eq/=; try done).
Ltac case_in H := repeat (case_match; simplify_eq/=; try done).

(** Turn boolean tests of the code into propositions. *)
Ltac to_prop :=
  repeat match goal with
  | H : (_ && _) = true |- _ => apply andb_true_iff in H as [? ?]
  | H : (_ || _) = false |- _ => apply orb_false_iff in H as [? ?]
  | H : negb _ = true |- _ => apply negb_true_iff in H
  | H : negb _ = false |- _ => apply negb_false_iff in H
  | H : (_ =? _) = true |- _ => apply Z.eqb_eq in H
  | H : (_ =? _) = false |- _ => apply Z.eqb_neq in H
  | H : (_ <=? _) = true |- _ => apply Z.leb_le in H
  | H : (_ <=? _) = false |- _ => apply Z.leb_gt in H
  | H : (_ <? _) = true |- _ => apply Z.ltb_lt in H
  | H : (_ <? _) = false |- _ => apply Z.ltb_ge in H
  | H : (_ >=? _) = true |- _ => rewrite Z.geb_leb in H; apply Z.leb_le in H
  | H : (_ >=? _) = false |- _ => rewrite Z.geb_leb in H; apply Z.leb_gt in H
  | H : (_ >? _) = true |- _ => rewrite Z.gtb_ltb in H; apply Z.ltb_lt in H
  | H : (_ >? _) = false |- _ => rewrite Z.gtb_ltb in H; apply Z.ltb_ge in H
  end.

(** Unfold the monad so that a computation reduces on a known state. *)
Ltac run :=
  unfold mbind, M_bind, mret, M_ret, get, gets, modify, throw, stop, try_catch, zoom, CondPanic;
  simpl.
Ltac run_in H :=
  unfold mbind, M_bind, mret, M_ret, get, gets, modify, throw, stop, try_catch, zoom, CondPanic
    in H; simpl in H.
