(* ===== verification/Utils.v ===== *)
(** * Utilities (include/pulsar/utils.hpp) and the start-up of src/hook.cpp

    The names of a back trace, the memory it takes, its text, and the table of the
    original functions that is filled before [main]. *)

From S2P Require Import Prelude.

(** ** [demangle]

    A C string is the list of its characters without the terminating NUL.
    [__cxa_demangle] is a parameter: the readable name, or null. *)

Definition one_of (set : list Z) (a : Z) : bool := existsb (Z.eqb a) set.
Definition space : list Z := [32; 9; 10; 11; 12; 13].

(** The longest prefix on which [p] holds, with the rest. *)
Fixpoint span (p : Z -> bool) (l : list Z) : list Z * list Z :=
  match l with
  | [] => ([], [])
  | a :: l' => if p a then let '(x, y) := span p l' in (a :: x, y) else ([], l)
  end.

(** A conversion of sscanf: [%[^set]] takes a non-empty run of characters outside
    the set, at most [width] of them. *)
Definition scan_not (set : list Z) (width : option nat) (l : list Z) : option (list Z * list Z) :=
  let x := fst (span (fun a => negb (one_of set a)) l) in
  let x := match width with Some w => take w x | None => x end in
  if bool_decide (x = []) then None else Some (x, drop (length x) l).

(** ["%*[^(]%*[^_]%255[^)+]"] and ["%255s"]: what is stored, when one conversion
    is. *)
Definition scan_symbol (str : list Z) : option (list Z) :=
  '(_, l) ← scan_not [40] None str;
  '(_, l) ← scan_not [95] None l;
  fst <$> scan_not [41; 43] (Some 255%nat) l.
Definition scan_word (str : list Z) : option (list Z) :=
  fst <$> scan_not space (Some 255%nat) (snd (span (one_of space) str)).

(** sscanf stores the characters and a NUL at the front of the buffer. *)
Definition store (l buffer : list Z) : list Z := l ++ [0] ++ drop (S (length l)) buffer.

Section utils.
Context (cxa_demangle : list Z -> option (list Z)).

Definition demangle (str : list Z) : list Z :=
  let rt := replicate 256 0 in
  let found := scan_symbol str in
  let rt := match found with Some name => store name rt | None => rt end in
  match found ≫= cxa_demangle with
  | Some result => result
  | None =>
      match scan_word str with
      | Some word => store word rt
      | None => str
      end
  end.

(** ** Back traces

    [stack]: the symbolic names of the frames, innermost first; [symbols] is whether
    backtrace_symbols finds memory.  [blocks] counts the blocks on the heap. *)

Definition Backtrace (stack : list (list Z)) (symbols : bool) (bt : list (list Z)) (size skip : nat) (blocks : nat) :
    list (list Z) * nat :=
  let blocks := S blocks in                       (* array *)
  let frames := take size stack in
  if negb symbols then (bt, blocks)
  else
    let blocks := S blocks in                     (* strings *)
    let bt := bt ++ (demangle <$> drop skip frames) in
    (bt, pred (pred blocks)).

Definition BacktraceToString (stack : list (list Z)) (symbols : bool) (size skip : nat) (prefix : list Z) (blocks : nat) :
    list Z * nat :=
  let '(bt, blocks) := Backtrace stack symbols [] size skip blocks in
  (mjoin ((fun name => prefix ++ name ++ [10]) <$> bt), blocks).

(** ** Properties *)

Lemma scan_not_short set w l x rest : scan_not set (Some w) l = Some (x, rest) -> (length x <= w)%nat /\ x <> [].
Proof.
  unfold scan_not. case_bool_decide as E; [done|]. intros [= <- _]. split; [|done]. rewrite length_take. lia.
Qed.

Lemma scan_symbol_short str x : scan_symbol str = Some x -> (length x <= 255)%nat /\ x <> [].
Proof.
  unfold scan_symbol. destruct (scan_not [40] None str) as [[? l1]|]; [|done]. simpl.
  destruct (scan_not [95] None l1) as [[? l2]|]; [|done]. simpl.
  destruct (scan_not [41; 43] (Some 255%nat) l2) as [[y r]|] eqn:E; [|done]. intros [= <-]. by eapply scan_not_short.
Qed.

Lemma store_length l buffer : (S (length l) <= length buffer)%nat -> length (store l buffer) = length buffer.
Proof. intros Hl. unfold store. rewrite !length_app, length_drop. simpl. lia. Qed.

(** What [demangle] makes of a symbol.  A name that the C++ runtime can read
    is returned as it reads it.  For every other symbol with a character that is
    no white space the result is the whole buffer: the first word of the symbol,
    cut to 255 characters, a NUL, and what else the 256 characters hold, so it is
    no text that prints as that word. *)
Theorem demangle_pads_names str :
  match scan_symbol str ≫= cxa_demangle, scan_word str with
  | Some result, _ => demangle str = result
  | None, Some word =>
      length (demangle str) = 256%nat /\ exists rest, demangle str = word ++ 0 :: rest /\ (length word <= 255)%nat
  | None, None => demangle str = str
  end.
Proof.
  unfold demangle. destruct (scan_symbol str ≫= cxa_demangle) as [result|] eqn:E; [done|].
  destruct (scan_word str) as [word|] eqn:Ew; [|done].
  assert (length word <= 255)%nat as Hw.
  { unfold scan_word in Ew. destruct (scan_not space _ _) as [[x r]|] eqn:Es; [|done]. injection Ew as <-.
    by eapply scan_not_short. }
  set (buffer := match scan_symbol str with Some name => store name (replicate 256 0) | None => replicate 256 0 end).
  assert (length buffer = 256%nat) as Hb.
  { unfold buffer. destruct (scan_symbol str) as [name|] eqn:En; [|apply length_replicate].
    apply scan_symbol_short in En as [Hn _]. rewrite store_length; rewrite length_replicate; lia. }
  split; [rewrite store_length; lia|]. exists (drop (S (length word)) buffer). by split.
Qed.

(** A back trace gives its memory back only when it succeeds: its text then has
    one line per frame after the skipped ones, with the prefix and the name; when
    backtrace_symbols fails, the text is empty and the array stays allocated. *)
Theorem backtrace_leaks_on_failure stack symbols size skip prefix blocks :
  BacktraceToString stack symbols size skip prefix blocks =
  if symbols
  then (mjoin ((fun frame => prefix ++ demangle frame ++ [10]) <$> drop skip (take size stack)), blocks)
  else ([], S blocks).
Proof. unfold BacktraceToString, Backtrace. destruct symbols; simpl; [|done]. by rewrite <- list_fmap_compose. Qed.
End utils.

(** ** The table of the original functions

    [HOOK_FUN] lists the names; [dlsym] gives the next definition of a name.  The
    table maps a name to the value of [name_f]; all are null before. *)

Definition HOOK_FUN : list string :=
  ["sleep"; "usleep"; "nanosleep"; "socket"; "connect"; "accept"; "read"; "readv"; "recv"; "recvfrom"; "recvmsg";
   "write"; "writev"; "send"; "sendto"; "sendmsg"; "close"; "fcntl"; "ioctl"; "getsockopt"; "setsockopt"].

Record hooks := Hooks { is_inited : bool; originals : gmap string Z; s_connect_timeout : Z }.

Definition hooks_static : hooks := Hooks false ∅ UINT64_MAX.
Definition g_tcp_connect_timeout : Z := 5000.

Definition hook_init (dlsym : string -> Z) (h : hooks) : hooks :=
  if is_inited h then h
  else Hooks (is_inited h) (fold_left (fun t name => <[name := dlsym name]> t) HOOK_FUN (originals h)) (s_connect_timeout h).

Definition HOOKIniter (dlsym : string -> Z) (h : hooks) : hooks :=
  let h := hook_init dlsym h in Hooks (is_inited h) (originals h) g_tcp_connect_timeout.

Lemma fold_insert_lookup (f : string -> Z) l : forall (t : gmap string Z) name,
  fold_left (fun t name => <[name := f name]> t) l t !! name = if bool_decide (name ∈ l) then Some (f name) else t !! name.
Proof.
  induction l as [|x l IH]; intros t name; [by rewrite bool_decide_eq_false_2 by apply not_elem_of_nil|]. simpl. rewrite IH.
  destruct (decide (name ∈ l)) as [Hin|Hout].
  - rewrite !bool_decide_eq_true_2; [done|by right|done].
  - rewrite (bool_decide_eq_false_2 (name ∈ l)) by done. destruct (decide (name = x)) as [->|Hne].
    + rewrite bool_decide_eq_true_2 by left. by rewrite lookup_insert_eq.
    + rewrite bool_decide_eq_false_2 by (rewrite elem_of_cons; tauto). by rewrite lookup_insert_ne.
Qed.

(** Before [main] every hooked function has its original, namely what [dlsym]
    finds for it, and connections time out after 5 seconds.  The flag of
    [hook_init] is never set: another call looks every name up again. *)
Theorem hooks_have_originals dlsym dlsym' name :
  let h := HOOKIniter dlsym hooks_static in
  s_connect_timeout h = 5000 /\
  originals h !! name = (if bool_decide (name ∈ HOOK_FUN) then Some (dlsym name) else None) /\
  originals (hook_init dlsym' h) !! name = (if bool_decide (name ∈ HOOK_FUN) then Some (dlsym' name) else None).
Proof.
  split_and!; [done|by apply fold_insert_lookup|].
  change (originals (hook_init dlsym' (HOOKIniter dlsym hooks_static))) with
    (fold_left (fun t name => <[name := dlsym' name]> t) HOOK_FUN (originals (HOOKIniter dlsym hooks_static))).
  rewrite fold_insert_lookup. destruct (decide (name ∈ HOOK_FUN)) as [Hin|Hout].
  - by rewrite bool_decide_eq_true_2.
  - rewrite bool_decide_eq_false_2 by done. etrans; [apply fold_insert_lookup|]. by rewrite bool_decide_eq_false_2.
Qed.
