(* ===== verification/Locks.v ===== *)
(** * Thread locks, their scoped guards and the thread semaphore

    include/pulsar/mutex.hpp: [Semaphore], the guards [ScopedLockImpl],
    [ReadScopedLockImpl] and [WriteScopedLockImpl], [Spinlock], [ThreadMutex]
    and [RWMutex].

    The pthread objects are modelled with the behaviour POSIX gives the calls
    the header makes.  A call by a thread returns a code, blocks (it has no
    result in the present state of the lock) or is undefined; [Lockable] and
    [RWLockable] are what the guard templates need of their parameter. *)

From S2P Require Import Prelude.

Definition tid : Type := Z.

(** ** Calls that may block *)

Inductive pcall (S : Type) : Type :=
| Returns (rt : Z) (s : S)
| Blocks
| Undef (what : string).
Arguments Returns {S} rt s.
Arguments Blocks {S}.
Arguments Undef {S} what.

(** A member function that may block: [None] while it waits. *)
Definition BM (S A : Type) : Type := S -> option (outcome S A).

#[export] Instance BM_ret S : MRet (BM S) := fun A a s => Some (Ret a s).
#[export] Instance BM_bind S : MBind (BM S) := fun A B k m s =>
  match m s with
  | None => None
  | Some (Ret a s') => k a s'
  | Some (Throw e s') => Some (Throw e s')
  | Some (Crash w) => Some (Crash w)
  end.

(** [CondPanic(call == 0, err)]: the shape of every member of [Spinlock],
    [ThreadMutex] and [Semaphore]. *)
Definition checked {S} (err : string) (call : S -> pcall S) : BM S unit := fun s =>
  match call s with
  | Returns rt s' => Some (CondPanic (rt =? 0) err s')
  | Blocks => None
  | Undef w => Some (Crash (Undefined w))
  end.

(** A call whose code is dropped: the shape of the members of [RWMutex]. *)
Definition unchecked {S} (call : S -> pcall S) : BM S unit := fun s =>
  match call s with
  | Returns _ s' => Some (Ret tt s')
  | Blocks => None
  | Undef w => Some (Crash (Undefined w))
  end.

(** ** The pthread objects *)

Definition EINTR : Z := 4.
Definition EDEADLK : Z := 35.
Definition EOVERFLOW : Z := 75.

(** A spin lock or a mutex of the default type: the thread that holds it. *)
Definition pmutex : Type := option tid.

(** A second lock by the holder waits for itself. *)
Definition pthread_lock (t : tid) (m : pmutex) : pcall pmutex :=
  match m with
  | None => Returns 0 (Some t)
  | Some _ => Blocks
  end.

Definition pthread_unlock (t : tid) (m : pmutex) : pcall pmutex :=
  if decide (m = Some t) then Returns 0 None else Undef "unlock by a thread that is not the holder".

Definition pthread_destroy (m : pmutex) : pcall pmutex :=
  match m with
  | None => Returns 0 None
  | Some _ => Undef "destroy of a held lock"
  end.

(** A read-write lock: the threads that hold it for reading, one entry per
    read lock, and the one that holds it for writing. *)
Record prwlock := MkRW { readers : list tid; writer : option tid }.

Definition rdlock_p (t : tid) (l : prwlock) : pcall prwlock :=
  match writer l with
  | None => Returns 0 (MkRW (t :: readers l) None)
  | Some w => if decide (w = t) then Returns EDEADLK l else Blocks
  end.

Definition wrlock_p (t : tid) (l : prwlock) : pcall prwlock :=
  match writer l, readers l with
  | None, [] => Returns 0 (MkRW [] (Some t))
  | None, _ :: _ => Blocks
  | Some w, _ => if decide (w = t) then Returns EDEADLK l else Blocks
  end.

Fixpoint remove1 (t : tid) (l : list tid) : list tid :=
  match l with
  | [] => []
  | x :: l' => if decide (x = t) then l' else x :: remove1 t l'
  end.

Definition rwunlock_p (t : tid) (l : prwlock) : pcall prwlock :=
  if decide (writer l = Some t) then Returns 0 (MkRW (readers l) None)
  else if decide (t ∈ readers l) then Returns 0 (MkRW (remove1 t (readers l)) (writer l))
  else Undef "unlock of a read-write lock that the thread does not hold".

Definition rwdestroy_p (l : prwlock) : pcall prwlock :=
  match writer l, readers l with
  | None, [] => Returns 0 l
  | _, _ => Undef "destroy of a held lock"
  end.

(** ** What the guard templates need *)

Class Lockable (L : Type) := {
  lock : tid -> BM L unit;
  unlock : tid -> BM L unit }.

Class RWLockable (L : Type) := {
  rdlock : tid -> BM L unit;
  wrlock : tid -> BM L unit;
  rwunlock : tid -> BM L unit }.

(** ** [Spinlock], [ThreadMutex], [RWMutex] *)

Module Spinlock.

Record Spinlock := Mk { m_ : pmutex }.

Definition on_m (f : pmutex -> pcall pmutex) (l : Spinlock) : pcall Spinlock :=
  match f (m_ l) with
  | Returns rt m => Returns rt (Mk m)
  | Blocks => Blocks
  | Undef w => Undef w
  end.

(** The constructor; [rt] is the code of [pthread_spin_init]. *)
Definition ctor (rt : Z) : outcome Spinlock unit := CondPanic (rt =? 0) "spinlock init error" (Mk None).
Definition dtor : BM Spinlock unit := checked "spinlock destroy error" (on_m pthread_destroy).
Definition lock (t : tid) : BM Spinlock unit := checked "spinlock lock error" (on_m (pthread_lock t)).
Definition unlock (t : tid) : BM Spinlock unit :=
  checked "spinlock unlock error" (on_m (pthread_unlock t)).

End Spinlock.

Module ThreadMutex.

Record ThreadMutex := Mk { m_ : pmutex }.

Definition on_m (f : pmutex -> pcall pmutex) (l : ThreadMutex) : pcall ThreadMutex :=
  match f (m_ l) with
  | Returns rt m => Returns rt (Mk m)
  | Blocks => Blocks
  | Undef w => Undef w
  end.

(** The constructor; [rt] is the code of [pthread_mutex_init]. *)
Definition ctor (rt : Z) : outcome ThreadMutex unit := CondPanic (0 =? rt) "lock init success" (Mk None).
Definition lock (t : tid) : BM ThreadMutex unit := checked "lock error" (on_m (pthread_lock t)).
Definition unlock (t : tid) : BM ThreadMutex unit := checked "unlock error" (on_m (pthread_unlock t)).
Definition dtor : BM ThreadMutex unit := checked "destroy lock error" (on_m pthread_destroy).

End ThreadMutex.

Module RWMutex.

Record RWMutex := Mk { m_ : prwlock }.

Definition on_m (f : prwlock -> pcall prwlock) (l : RWMutex) : pcall RWMutex :=
  match f (m_ l) with
  | Returns rt m => Returns rt (Mk m)
  | Blocks => Blocks
  | Undef w => Undef w
  end.

Definition ctor : RWMutex := Mk (MkRW [] None).
Definition dtor : BM RWMutex unit := unchecked (on_m rwdestroy_p).
Definition rdlock (t : tid) : BM RWMutex unit := unchecked (on_m (rdlock_p t)).
Definition wrlock (t : tid) : BM RWMutex unit := unchecked (on_m (wrlock_p t)).
Definition unlock (t : tid) : BM RWMutex unit := unchecked (on_m (rwunlock_p t)).

End RWMutex.

#[export] Instance spin_lockable : Lockable Spinlock.Spinlock :=
  {| lock := Spinlock.lock; unlock := Spinlock.unlock |}.
#[export] Instance mutex_lockable : Lockable ThreadMutex.ThreadMutex :=
  {| lock := ThreadMutex.lock; unlock := ThreadMutex.unlock |}.
#[export] Instance rw_lockable : RWLockable RWMutex.RWMutex :=
  {| rdlock := RWMutex.rdlock; wrlock := RWMutex.wrlock; rwunlock := RWMutex.unlock |}.

(** ** The guards

    A guard is the flag [isLocked_] beside a reference to the lock; the
    operations run on the lock and give the new flag. *)

Module ScopedLockImpl.
Section guard.
Context {L : Type} `{Lockable L}.

Definition ctor (t : tid) : BM L bool := _ ← lock t; mret true.
Definition lock (isLocked_ : bool) (t : tid) : BM L bool :=
  if negb isLocked_ then (_ ← Locks.lock t; mret true) else mret isLocked_.
Definition unlock (isLocked_ : bool) (t : tid) : BM L bool :=
  if isLocked_ then (_ ← Locks.unlock t; mret false) else mret isLocked_.
Definition dtor (isLocked_ : bool) (t : tid) : BM L bool := unlock isLocked_ t.

End guard.
End ScopedLockImpl.

Module ReadScopedLockImpl.
Section guard.
Context {L : Type} `{RWLockable L}.

Definition ctor (t : tid) : BM L bool := _ ← rdlock t; mret true.
Definition lock (isLocked_ : bool) (t : tid) : BM L bool :=
  if negb isLocked_ then (_ ← rdlock t; mret true) else mret isLocked_.
Definition unlock (isLocked_ : bool) (t : tid) : BM L bool :=
  if isLocked_ then (_ ← rwunlock t; mret false) else mret isLocked_.
Definition dtor (isLocked_ : bool) (t : tid) : BM L bool := unlock isLocked_ t.

End guard.
End ReadScopedLockImpl.

Module WriteScopedLockImpl.
Section guard.
Context {L : Type} `{RWLockable L}.

Definition ctor (t : tid) : BM L bool := _ ← wrlock t; mret true.
Definition lock (isLocked_ : bool) (t : tid) : BM L bool :=
  if negb isLocked_ then (_ ← wrlock t; mret true) else mret isLocked_.
Definition unlock (isLocked_ : bool) (t : tid) : BM L bool :=
  if isLocked_ then (_ ← rwunlock t; mret false) else mret isLocked_.
Definition dtor (isLocked_ : bool) (t : tid) : BM L bool := unlock isLocked_ t.

End guard.
End WriteScopedLockImpl.

(** ** Threads that use one lock through guards

    [Exclusive] is [ScopedLockImpl] on a [Lockable] and [WriteScopedLockImpl]
    on an [RWLockable]; [Shared] is [ReadScopedLockImpl]. *)

Inductive kind : Type := Shared | Exclusive.
#[export] Instance kind_eq_dec : EqDecision kind.
Proof. solve_decision. Defined.

(** The four members of a guard template, by the kind of guard. *)
Class Guards (L : Type) := {
  kinds : kind -> bool;
  g_ctor : kind -> tid -> BM L bool;
  g_lock : kind -> bool -> tid -> BM L bool;
  g_unlock : kind -> bool -> tid -> BM L bool;
  g_dtor : kind -> bool -> tid -> BM L bool }.

#[export] Instance scoped_guards {L} `{Lockable L} : Guards L := {|
  kinds k := bool_decide (k = Exclusive);
  g_ctor _ := ScopedLockImpl.ctor;
  g_lock _ := ScopedLockImpl.lock;
  g_unlock _ := ScopedLockImpl.unlock;
  g_dtor _ := ScopedLockImpl.dtor |}.

#[export] Instance rw_guards {L} `{RWLockable L} : Guards L := {|
  kinds _ := true;
  g_ctor k := match k with Shared => ReadScopedLockImpl.ctor | Exclusive => WriteScopedLockImpl.ctor end;
  g_lock k := match k with Shared => ReadScopedLockImpl.lock | Exclusive => WriteScopedLockImpl.lock end;
  g_unlock k := match k with Shared => ReadScopedLockImpl.unlock | Exclusive => WriteScopedLockImpl.unlock end;
  g_dtor k := match k with Shared => ReadScopedLockImpl.dtor | Exclusive => WriteScopedLockImpl.dtor end |}.

(** A guard in some thread's scope. *)
Record guard := MkGuard { g_owner : tid; g_kind : kind; g_flag : bool }.

Record gsys (L : Type) := MkSys { the_lock : L; guards : gmap nat guard }.
Arguments MkSys {L} _ _.
Arguments the_lock {L} _.
Arguments guards {L} _.

(** One member call: the constructor of a new guard, [lock()], [unlock()], or
    the destructor at the end of its scope. *)
Inductive gact : Type :=
| Construct (g : nat) (t : tid) (k : kind)
| Lock (g : nat)
| Unlock (g : nat)
| Destroy (g : nat).

(** [None]: the call is not possible (no such guard) or waits. *)
Definition gcall {L} `{Guards L} (a : gact) (s : gsys L) : option (outcome (gsys L) unit) :=
  let on (r : option (outcome L bool)) (put : bool -> gmap nat guard) :=
    match r with
    | None => None
    | Some (Ret b l) => Some (Ret tt (MkSys l (put b)))
    | Some (Throw e l) => Some (Throw e (MkSys l (guards s)))
    | Some (Crash w) => Some (Crash w)
    end in
  match a with
  | Construct g t k =>
      if kinds k && bool_decide (guards s !! g = None)
      then on (g_ctor k t (the_lock s)) (fun b => <[g := MkGuard t k b]> (guards s)) else None
  | Lock g =>
      x ← guards s !! g;
      on (g_lock (g_kind x) (g_flag x) (g_owner x) (the_lock s))
         (fun b => <[g := MkGuard (g_owner x) (g_kind x) b]> (guards s))
  | Unlock g =>
      x ← guards s !! g;
      on (g_unlock (g_kind x) (g_flag x) (g_owner x) (the_lock s))
         (fun b => <[g := MkGuard (g_owner x) (g_kind x) b]> (guards s))
  | Destroy g =>
      x ← guards s !! g;
      on (g_dtor (g_kind x) (g_flag x) (g_owner x) (the_lock s)) (fun _ => delete g (guards s))
  end.

(** ** [Semaphore] *)

Module Semaphore.

Definition SEM_VALUE_MAX : Z := 2 ^ 31 - 1.

Record Semaphore := Mk { semaphore_ : Z }.

(** [rt] is the code of [sem_init]. *)
Definition ctor (rt : Z) (count : Z) : outcome Semaphore unit :=
  CondPanic (rt =? 0) "sem_init error" (Mk (u32 count)).

Definition dtor (rt : Z) : M Semaphore unit := CondPanic (rt =? 0) "sem_destroy error".

(** How one call of [sem_wait] ends: a signal handler interrupts it, another
    error, or it waits until the value is positive and takes a unit. *)
Inductive sem_end : Type := Interrupted | Failed (errno : Z) | TakesUnit.

Definition sem_wait (e : sem_end) (s : Semaphore) : option (Z * Z * Semaphore) :=
  match e with
  | Interrupted => Some (-1, EINTR, s)
  | Failed n => Some (-1, n, s)
  | TakesUnit => if 0 <? semaphore_ s then Some (0, 0, Mk (semaphore_ s - 1)) else None
  end.

(** [wait()]: [calls] are the ends of the successive [sem_wait] calls; [None]
    when the last of them still waits, or is interrupted and the next one has
    not ended. *)
Fixpoint wait (calls : list sem_end) (s : Semaphore) : option (outcome Semaphore unit) :=
  match calls with
  | [] => None
  | e :: calls' =>
      '(rt, errno, s') ← sem_wait e s;
      if (rt =? -1) && (errno =? EINTR) then wait calls' s'
      else Some (CondPanic (rt =? 0) "sem_wait error" s')
  end.

Definition sem_post (s : Semaphore) : Z * Semaphore :=
  if semaphore_ s =? SEM_VALUE_MAX then (-1, s) else (0, Mk (semaphore_ s + 1)).

Definition notify : M Semaphore unit := fun s =>
  let '(rt, s') := sem_post s in CondPanic (rt =? 0) "sem_post error" s'.

Definition signal : M Semaphore unit := notify.

End Semaphore.
