(* ===== verification/LocksProofs.v ===== *)
(** * Properties of the thread locks and their guards

    What a guard template needs to be sound is the interface [GuardLaws];
    [Spinlock], [ThreadMutex] and [RWMutex] discharge it, and the theorems on
    any number of threads and guards are proved once against it. *)

From S2P Require Import Prelude Locks.

(** ** The interface *)

(** A lock held by [h]: a writer is alone. *)
Definition compatible (h : list (tid * kind)) : Prop :=
  forall t, (t, Exclusive) ∈ h -> length h = 1%nat.

Definition conflicts (k k' : kind) : bool := bool_decide (k = Exclusive \/ k' = Exclusive).

Class GuardLaws (L : Type) `{Guards L} := {
  acquire : kind -> tid -> BM L unit;
  release : tid -> BM L unit;
  (** who holds the lock, one entry per acquisition *)
  held : L -> list (tid * kind);
  (** a use of the lock by the thread that the implementation supports *)
  careful : L -> tid -> Prop;
  ctor_acquires : forall k t, g_ctor k t = (_ ← acquire k t; mret true);
  lock_acquires : forall k b t, g_lock k b t = if b then mret true else (_ ← acquire k t; mret true);
  unlock_releases : forall k b t, g_unlock k b t = if b then (_ ← release t; mret false) else mret false;
  dtor_unlocks : forall k b t, g_dtor k b t = g_unlock k b t;
  acquire_holds : forall k t l r, kinds k = true -> careful l t -> compatible (held l) ->
    acquire k t l = Some r ->
    exists l', r = Ret tt l' /\ held l' ≡ₚ (t, k) :: held l /\ compatible (held l');
  acquire_waits : forall k t l, kinds k = true -> acquire k t l = None ->
    exists x, x ∈ held l /\ conflicts k x.2 = true;
  release_drops : forall k t l, compatible (held l) -> (t, k) ∈ held l ->
    exists l', release t l = Some (Ret tt l') /\ held l ≡ₚ (t, k) :: held l' }.

#[export] Instance compatible_proper : Proper ((≡ₚ) ==> iff) compatible.
Proof. intros h h' E. unfold compatible. setoid_rewrite E. done. Qed.

Lemma compatible_nil : compatible [].
Proof. intros t Ht. by apply not_elem_of_nil in Ht. Qed.

Lemma compatible_cons x h : compatible (x :: h) -> compatible h.
Proof.
  intros Hc t Ht. specialize (Hc t ltac:(set_solver)). simpl in Hc.
  destruct h; [by apply not_elem_of_nil in Ht|done].
Qed.

Lemma compatible_single x : compatible [x].
Proof. by intros t _. Qed.

(** ** Guards over one lock *)

Definition locked_entry (x : guard) : option (tid * kind) :=
  if g_flag x then Some (g_owner x, g_kind x) else None.

(** Owner and kind of every guard whose flag is set. *)
Abbreviation locked := (collect locked_entry).

Section guards.
Context {L : Type} `{GuardLaws L}.

(** The thread of the call uses the lock as its implementation supports. *)
Definition careful_act (a : gact) (s : gsys L) : Prop :=
  match a with
  | Construct _ t _ => careful (the_lock s) t
  | Lock g => forall x, guards s !! g = Some x -> g_flag x = false -> careful (the_lock s) (g_owner x)
  | _ => True
  end.

Definition gstep (s s' : gsys L) : Prop :=
  exists a, careful_act a s /\ gcall a s = Some (Ret tt s').

Definition guards_ok (s : gsys L) : Prop :=
  held (the_lock s) ≡ₚ locked (guards s) /\ compatible (held (the_lock s)) /\
  map_Forall (fun _ x => kinds (g_kind x) = true) (guards s).

Lemma locked_elem (m : gmap nat guard) h : h ∈ locked m <-> exists g x, m !! g = Some x /\ g_flag x = true /\ h = (g_owner x, g_kind x).
Proof.
  rewrite collect_elem. unfold locked_entry.
  split; intros (g & x & Hx & E); exists g, x; [destruct (g_flag x); naive_solver|].
  destruct E as [-> ->]. done.
Qed.

(** A flag set in the invariant stands for an acquisition of its owner. *)
Lemma flag_held s g x :
  guards_ok s -> guards s !! g = Some x -> g_flag x = true -> (g_owner x, g_kind x) ∈ held (the_lock s).
Proof. intros (Hh & _) Hx F. rewrite Hh. apply locked_elem. eauto. Qed.

Lemma releases s g x (m' : gmap nat guard) :
  guards_ok s -> guards s !! g = Some x -> g_flag x = true ->
  locked m' ≡ₚ locked (delete g (guards s)) ->
  map_Forall (fun _ x => kinds (g_kind x) = true) m' ->
  exists l', release (g_owner x) (the_lock s) = Some (Ret tt l') /\ guards_ok (MkSys l' m').
Proof.
  intros Hs Hx F Hm Hk. pose proof (flag_held s g x Hs Hx F) as Hin. destruct Hs as (Hh & Hc & _).
  destruct (release_drops _ _ _ Hc Hin) as (l' & E & Hp). exists l'. split; [done|].
  rewrite (collect_delete _ _ g x Hx) in Hh. unfold locked_entry in Hh. rewrite F in Hh. simpl in Hh.
  rewrite Hp in Hc, Hh. apply compatible_cons in Hc.
  split; [|by split]. simpl. rewrite Hm. by apply (inj (cons _)) in Hh.
Qed.

(** Outcome of a member call: it returns and keeps the invariant. *)
Definition keeps (o : option (outcome (gsys L) unit)) : Prop :=
  match o with
  | None => True
  | Some (Ret _ s') => guards_ok s'
  | Some _ => False
  end.

Lemma construct_keeps g t k s :
  guards_ok s -> careful (the_lock s) t -> keeps (gcall (Construct g t k) s).
Proof.
  intros (Hh & Hc & Hk) Hca. simpl. destruct (kinds k) eqn:K; [|done]. simpl.
  case_bool_decide as Hg; [|done]. rewrite ctor_acquires. unfold mbind, BM_bind.
  destruct (acquire k t (the_lock s)) as [r|] eqn:E; [|done].
  destruct (acquire_holds _ _ _ _ K Hca Hc E) as (l' & -> & Hp & Hc'). simpl.
  split; simpl; [|split; [done|by apply map_Forall_insert_2]].
  rewrite Hp, Hh. symmetry. by apply (collect_insert_new locked_entry (guards s) g (MkGuard t k true)).
Qed.

Lemma lock_keeps g s : guards_ok s -> careful_act (Lock g) s -> keeps (gcall (Lock g) s).
Proof.
  intros (Hh & Hc & Hk) Hca. simpl in *. destruct (guards s !! g) as [x|] eqn:Hx; [|done].
  simpl. rewrite lock_acquires. pose proof (Hk _ _ Hx) as Kx. simpl in Kx.
  rewrite (collect_delete _ _ g x Hx) in Hh. unfold locked_entry in Hh.
  destruct (g_flag x) eqn:F; simpl.
  - split; simpl; [|split; [done|by apply map_Forall_insert_2]].
    rewrite Hh. symmetry. by apply (collect_insert locked_entry (guards s) g (MkGuard (g_owner x) (g_kind x) true)).
  - unfold mbind, BM_bind. destruct (acquire _ _ _) as [r|] eqn:E; [|done].
    destruct (acquire_holds _ _ _ _ Kx (Hca _ eq_refl F) Hc E) as (l' & -> & Hp & Hc'). simpl.
    split; simpl; [|split; [done|by apply map_Forall_insert_2]].
    rewrite Hp, Hh. symmetry. by apply (collect_insert locked_entry (guards s) g (MkGuard (g_owner x) (g_kind x) true)).
Qed.

Lemma unlock_keeps g s : guards_ok s -> exists o, gcall (Unlock g) s = o /\ keeps o /\
  (is_Some (guards s !! g) -> is_Some o).
Proof.
  intros Hs. eexists. split; [done|]. simpl. destruct (guards s !! g) as [x|] eqn:Hx; simpl; [|by split; [|intros [? ?]]].
  rewrite unlock_releases. pose proof Hs as (_ & _ & Hk).
  assert (map_Forall (fun _ x => kinds (g_kind x) = true)
            (<[g := MkGuard (g_owner x) (g_kind x) false]> (guards s))) as Hk'
    by (apply map_Forall_insert_2; [exact (Hk _ _ Hx)|done]).
  pose proof (collect_insert locked_entry (guards s) g (MkGuard (g_owner x) (g_kind x) false)) as Hl.
  destruct (g_flag x) eqn:F; simpl.
  - destruct (releases s g x _ Hs Hx F Hl Hk') as (l' & E & Hok).
    unfold mbind, BM_bind. rewrite E. simpl. eauto.
  - split; [|eauto]. destruct Hs as (Hh & Hc & _). split; simpl; [|by split].
    rewrite Hh, (collect_delete _ _ g x Hx), Hl. unfold locked_entry. by rewrite F.
Qed.

Lemma destroy_keeps g s : guards_ok s -> exists o, gcall (Destroy g) s = o /\ keeps o /\
  (is_Some (guards s !! g) -> is_Some o).
Proof.
  intros Hs. eexists. split; [done|]. simpl. destruct (guards s !! g) as [x|] eqn:Hx; simpl; [|by split; [|intros [? ?]]].
  rewrite dtor_unlocks, unlock_releases. pose proof Hs as (_ & _ & Hk).
  assert (map_Forall (fun _ x => kinds (g_kind x) = true) (delete g (guards s))) as Hk'
    by by apply map_Forall_delete.
  destruct (g_flag x) eqn:F; simpl.
  - destruct (releases s g x _ Hs Hx F (reflexivity _) Hk') as (l' & E & Hok).
    unfold mbind, BM_bind. rewrite E. simpl. eauto.
  - split; [|eauto]. destruct Hs as (Hh & Hc & _). split; simpl; [|by split].
    rewrite Hh, (collect_delete _ _ g x Hx). unfold locked_entry. by rewrite F.
Qed.

Lemma gcall_keeps a s : guards_ok s -> careful_act a s -> keeps (gcall a s).
Proof.
  intros Hs Ha. destruct a as [g t k|g|g|g].
  - by apply construct_keeps.
  - by apply lock_keeps.
  - destruct (unlock_keeps g s Hs) as (o & -> & Hk & _). done.
  - destruct (destroy_keeps g s Hs) as (o & -> & Hk & _). done.
Qed.

Lemma guards_ok_reachable l s :
  held l = [] -> rtc gstep (MkSys l ∅) s -> guards_ok s.
Proof.
  intros Hl Hr. refine (rtc_invariant gstep guards_ok _ _ _ Hr _).
  - intros x y (a & Ha & E) Hx. pose proof (gcall_keeps a x Hx Ha) as Hk. by rewrite E in Hk.
  - split; simpl; [by rewrite Hl|]. split; [rewrite Hl; apply compatible_nil|done].
Qed.

(** A guard that waits waits for a guard in the way. *)
Lemma construct_waits g t k s :
  guards_ok s -> kinds k = true -> guards s !! g = None -> gcall (Construct g t k) s = None ->
  exists g' x, guards s !! g' = Some x /\ g_flag x = true /\ conflicts k (g_kind x) = true.
Proof.
  intros (Hh & _) K Hg. simpl. rewrite K, bool_decide_true by done. simpl.
  rewrite ctor_acquires. unfold mbind, BM_bind. destruct (acquire _ _ _) as [[]|] eqn:E; try done.
  intros _. destruct (acquire_waits _ _ _ K E) as (y & Hy & Hcf).
  rewrite Hh in Hy. apply locked_elem in Hy as (g' & x & Hx & F & ->). eauto.
Qed.

(** No guard holds the lock together with an exclusive one. *)
Lemma exclusive_alone s g g' x y :
  guards_ok s -> guards s !! g = Some x -> guards s !! g' = Some y ->
  g_flag x = true -> g_flag y = true -> g_kind x = Exclusive -> g = g'.
Proof.
  intros (Hh & Hc & _) Hx Hy Fx Fy Kx. destruct (decide (g = g')) as [|Hne]; [done|].
  rewrite Hh in Hc. specialize (Hc (g_owner x)). exfalso.
  assert (guards s !! g' = Some y -> delete g (guards s) !! g' = Some y) as Hd
    by by rewrite lookup_delete_ne.
  rewrite (collect_delete _ _ g x Hx), (collect_delete _ _ g' y (Hd Hy)) in Hc.
  unfold locked_entry in Hc. rewrite Fx, Fy, Kx in Hc. simpl in Hc.
  specialize (Hc ltac:(set_solver)). lia.
Qed.

End guards.

(** ** The locks of the header *)

Definition mutex_held (m : pmutex) : list (tid * kind) :=
  match m with
  | None => []
  | Some t => [(t, Exclusive)]
  end.

Definition rw_held (l : prwlock) : list (tid * kind) :=
  match writer l with
  | None => []
  | Some t => [(t, Exclusive)]
  end ++ ((fun t => (t, Shared)) <$> readers l).

Lemma remove1_perm t l : t ∈ l -> l ≡ₚ t :: remove1 t l.
Proof.
  induction l as [|x l IH]; intros Ht; [by apply not_elem_of_nil in Ht|]. simpl.
  case_decide as E; [by subst|]. apply elem_of_cons in Ht as [->|Ht]; [done|].
  rewrite (IH Ht) at 1. apply Permutation_swap.
Qed.

(** What [Spinlock] and [ThreadMutex] do with their pthread object. *)
Lemma pthread_lock_spec t m rt m' : pthread_lock t m = Returns rt m' -> rt = 0 /\ m = None /\ m' = Some t.
Proof. destruct m; naive_solver. Qed.

Lemma pthread_lock_blocks t m : pthread_lock t m = Blocks -> exists w, m = Some w.
Proof. destruct m; naive_solver. Qed.

Lemma pthread_unlock_holder t m k : (t, k) ∈ mutex_held m -> pthread_unlock t m = Returns 0 None /\ m = Some t /\ k = Exclusive.
Proof.
  destruct m as [w|]; simpl; [|by intros ?%not_elem_of_nil].
  intros E%list_elem_of_singleton. simplify_eq. unfold pthread_unlock. by rewrite decide_True.
Qed.

Ltac mutex_call E :=
  unfold Spinlock.lock, Spinlock.unlock, ThreadMutex.lock, ThreadMutex.unlock, checked,
    Spinlock.on_m, ThreadMutex.on_m in E; simpl in E.

#[export] Program Instance spin_laws : GuardLaws Spinlock.Spinlock := {|
  acquire _ := Spinlock.lock;
  release := Spinlock.unlock;
  held l := mutex_held (Spinlock.m_ l);
  careful _ _ := True |}.
Next Obligation. done. Qed.
Next Obligation. by destruct b. Qed.
Next Obligation. by destruct b. Qed.
Next Obligation. done. Qed.
Next Obligation.
  intros k t [m] r K%bool_decide_eq_true _ _ E. mutex_call E.
  destruct (pthread_lock t m) as [rt m'| |] eqn:P; [|done|by destruct m].
  apply pthread_lock_spec in P as (-> & -> & ->). simplify_eq. eexists. split_and!; [done|done|].
  apply compatible_single.
Qed.
Next Obligation.
  intros k t [m] K E. mutex_call E. destruct (pthread_lock t m) eqn:P; try done.
  apply pthread_lock_blocks in P as (w & ->). exists (w, Exclusive). split; [set_solver|].
  apply bool_decide_eq_true. auto.
Qed.
Next Obligation.
  intros k t [m] _ Hin. simpl in Hin. apply pthread_unlock_holder in Hin as (P & -> & ->). exists (Spinlock.Mk None). split; [|done].
  unfold Spinlock.unlock, checked, Spinlock.on_m. simpl Spinlock.m_. by rewrite P.
Qed.

#[export] Program Instance mutex_laws : GuardLaws ThreadMutex.ThreadMutex := {|
  acquire _ := ThreadMutex.lock;
  release := ThreadMutex.unlock;
  held l := mutex_held (ThreadMutex.m_ l);
  careful _ _ := True |}.
Next Obligation. done. Qed.
Next Obligation. by destruct b. Qed.
Next Obligation. by destruct b. Qed.
Next Obligation. done. Qed.
Next Obligation.
  intros k t [m] r K%bool_decide_eq_true _ _ E. mutex_call E.
  destruct (pthread_lock t m) as [rt m'| |] eqn:P; [|done|by destruct m].
  apply pthread_lock_spec in P as (-> & -> & ->). simplify_eq. eexists. split_and!; [done|done|].
  apply compatible_single.
Qed.
Next Obligation.
  intros k t [m] K E. mutex_call E. destruct (pthread_lock t m) eqn:P; try done.
  apply pthread_lock_blocks in P as (w & ->). exists (w, Exclusive). split; [set_solver|].
  apply bool_decide_eq_true. auto.
Qed.
Next Obligation.
  intros k t [m] _ Hin. simpl in Hin. apply pthread_unlock_holder in Hin as (P & -> & ->). exists (ThreadMutex.Mk None). split; [|done].
  unfold ThreadMutex.unlock, checked, ThreadMutex.on_m. simpl ThreadMutex.m_. by rewrite P.
Qed.

(** [RWMutex] drops the code of [rdlock] and [wrlock]; the guards are sound
    for a thread that does not hold the lock for writing already. *)
Definition rw_careful (l : RWMutex.RWMutex) (t : tid) : Prop := writer (RWMutex.m_ l) <> Some t.

Lemma rw_no_writer h rs : compatible ((h : list (tid * kind)) ++ ((fun t => (t, Shared)) <$> rs)) -> rs <> [] ->
  forall t, (t, Exclusive) ∉ h.
Proof.
  intros Hc Hr t Ht. specialize (Hc t ltac:(set_solver)). rewrite length_app, length_fmap in Hc.
  destruct rs; [done|]. destruct h; [by apply not_elem_of_nil in Ht|]. simpl in Hc. lia.
Qed.

Lemma shared_compatible rs : compatible ((fun t : tid => (t, Shared)) <$> rs).
Proof. intros t (x & [=] & _)%list_elem_of_fmap. Qed.

Definition rw_acq (k : kind) : tid -> BM RWMutex.RWMutex unit :=
  match k with
  | Shared => RWMutex.rdlock
  | Exclusive => RWMutex.wrlock
  end.

Lemma rw_acquire k t l r :
  writer (RWMutex.m_ l) <> Some t ->
  rw_acq k t l = Some r ->
  exists l', r = Ret tt l' /\ rw_held (RWMutex.m_ l') ≡ₚ (t, k) :: rw_held (RWMutex.m_ l) /\
    compatible (rw_held (RWMutex.m_ l')).
Proof.
  destruct l as [[rs w]]; simpl; intros Hca E.
  destruct k; unfold rw_acq, RWMutex.rdlock, RWMutex.wrlock, unchecked, RWMutex.on_m in E; simpl in E;
    unfold rdlock_p, wrlock_p in E; simpl in E;
    (destruct w as [w|]; [destruct (decide (w = t)); naive_solver|]).
  - simplify_eq. eexists. split_and!; [done|done|]. apply (shared_compatible (t :: rs)).
  - destruct rs; simplify_eq. eexists. split_and!; [done|done|]. apply compatible_single.
Qed.

Lemma rw_release k t l :
  compatible (rw_held l) -> (t, k) ∈ rw_held l ->
  exists l', rwunlock_p t l = Returns 0 l' /\ rw_held l ≡ₚ (t, k) :: rw_held l'.
Proof.
  destruct l as [rs w]. unfold rw_held, rwunlock_p. simpl. intros Hc Hin.
  apply elem_of_app in Hin. rewrite list_elem_of_fmap in Hin. destruct k.
  - assert (t ∈ rs) as Ht.
    { destruct Hin as [Hin|(x & [= ->] & Hx)]; [|done].
      destruct w; [apply list_elem_of_singleton in Hin|apply not_elem_of_nil in Hin]; done. }
    destruct w as [w|].
    + exfalso. apply (rw_no_writer [(w, Exclusive)] rs Hc) with (t := w); [|by constructor].
      intros ->. by apply not_elem_of_nil in Ht.
    + rewrite decide_False, decide_True by done. eexists. split; [done|]. simpl.
      by rewrite (remove1_perm t rs Ht) at 1.
  - assert (w = Some t) as ->.
    { destruct Hin as [Hin|(x & [=] & _)].
      destruct w; [apply list_elem_of_singleton in Hin|apply not_elem_of_nil in Hin]; naive_solver. }
    rewrite decide_True by done. by eexists.
Qed.

#[export] Program Instance rw_laws : GuardLaws RWMutex.RWMutex := {|
  acquire := rw_acq;
  release := RWMutex.unlock;
  held l := rw_held (RWMutex.m_ l);
  careful := rw_careful |}.
Next Obligation. by intros [] t. Qed.
Next Obligation. by intros [] [] t. Qed.
Next Obligation. by intros [] [] t. Qed.
Next Obligation. by intros [] b t. Qed.
Next Obligation. intros k t l r _ Hca _ E. exact (rw_acquire k t l r Hca E). Qed.
Next Obligation.
  intros k t [[rs [w|]]] _ E.
  - exists (w, Exclusive). split; [set_solver|]. apply bool_decide_eq_true. auto.
  - destruct k; [done|]. destruct rs as [|x rs]; [done|]. exists (x, Shared). split; [set_solver|done].
Qed.
Next Obligation.
  intros k t [l] Hc Hin. destruct (rw_release k t l Hc Hin) as (l' & E & Hp).
  exists (RWMutex.Mk l'). split; [|done].
  unfold RWMutex.unlock, unchecked, RWMutex.on_m. simpl RWMutex.m_. by rewrite E.
Qed.

(** ** Theorems *)

(** What the guards of a lock guarantee in a state [s]: the lock is held by
    exactly the guards whose flag is set, an exclusive one of them is alone; a
    member call that is careful returns or waits and never ends the process; a
    new guard waits only for a guard in the way; [unlock] and the destructor
    never wait; without guards the lock is free. *)
Definition guards_sound {L} `{GuardLaws L} (s : gsys L) : Prop :=
  (forall h, h ∈ held (the_lock s) <->
     exists g x, guards s !! g = Some x /\ g_flag x = true /\ h = (g_owner x, g_kind x)) /\
  (forall g g' x y, guards s !! g = Some x -> guards s !! g' = Some y ->
     g_flag x = true -> g_flag y = true -> g_kind x = Exclusive -> g = g') /\
  (forall a, careful_act a s -> gcall a s = None \/ exists s', gcall a s = Some (Ret tt s')) /\
  (forall g t k, kinds k = true -> guards s !! g = None -> gcall (Construct g t k) s = None ->
     exists g' x, guards s !! g' = Some x /\ g_flag x = true /\ conflicts k (g_kind x) = true) /\
  (forall g, is_Some (guards s !! g) -> is_Some (gcall (Unlock g) s) /\ is_Some (gcall (Destroy g) s)) /\
  (guards s = ∅ -> held (the_lock s) = []).

Lemma guards_ok_sound {L} `{GuardLaws L} (s : gsys L) : guards_ok s -> guards_sound s.
Proof.
  intros Hs. split_and!.
  - intros h. rewrite (proj1 Hs). apply locked_elem.
  - intros g g' x y. by apply exclusive_alone.
  - intros a Ha. pose proof (gcall_keeps a s Hs Ha) as Hk.
    destruct (gcall a s) as [[[] s'|e s'|w]|]; [right; by exists s'|done|done|by left].
  - intros g t k. by apply construct_waits.
  - intros g Hg. destruct (unlock_keeps g s Hs) as (o & -> & _ & Ho).
    destruct (destroy_keeps g s Hs) as (o' & -> & _ & Ho'). auto.
  - intros E. destruct Hs as (Hh & _). rewrite E in Hh. rewrite collect_empty in Hh. by apply Permutation_nil_r in Hh.
Qed.

(** Scoped guards on a [ThreadMutex] and on a [Spinlock]: whatever member
    calls any threads make on any guards, in any interleaving, the lock is held
    by exactly the guards whose [isLocked_] is set and at most one of them is;
    [unlock()] or the destructor never unlocks a lock that the thread does not
    hold, no [CondPanic] fires, a thread waits only for another guard, and once
    all guards are gone the lock is free. *)
Theorem scoped_locks_exclude (s : gsys ThreadMutex.ThreadMutex) (s' : gsys Spinlock.Spinlock) :
  rtc gstep (MkSys (ThreadMutex.Mk None) ∅) s -> rtc gstep (MkSys (Spinlock.Mk None) ∅) s' ->
  guards_sound s /\ guards_sound s'.
Proof. intros Hr Hr'. split; (eapply guards_ok_sound, guards_ok_reachable; [|eassumption]; done). Qed.

(** C21. Read and write guards on an [RWMutex]: as long as no thread takes a
    guard of a lock that it holds for writing, a write guard whose [isLocked_]
    is set excludes every other guard, read guards share, no unlock is
    undefined, and a guard waits only for a conflicting guard. *)
Theorem rw_guards_exclude (s : gsys RWMutex.RWMutex) :
  rtc gstep (MkSys RWMutex.ctor ∅) s -> guards_sound s.
Proof. intros Hr. eapply guards_ok_sound, guards_ok_reachable; [|eassumption]; done. Qed.

(** Member calls one after the other, as far as they return. *)
Fixpoint gcalls {L} `{Guards L} (acts : list gact) (s : gsys L) : option (gsys L) :=
  match acts with
  | [] => Some s
  | a :: acts' =>
      match gcall a s with
      | Some (Ret _ s') => gcalls acts' s'
      | _ => None
      end
  end.

Lemma gcalls_cons {L} `{Guards L} a acts (s s' : gsys L) r :
  gcall a s = Some (Ret tt s') -> gcalls acts s' = r -> gcalls (a :: acts) s = r.
Proof. simpl. by intros ->. Qed.

(** The condition is needed: [RWMutex] drops the code of
    [pthread_rwlock_rdlock].  A thread that takes a read guard inside its own
    write guard gets EDEADLK, the guard still records that it locked, and its
    destructor releases the write lock: another thread then holds the lock for
    writing while the first still believes it does. *)
Theorem nested_read_guard_releases_write_lock t t' :
  exists s,
    gcalls [Construct 0 t Exclusive; Construct 1 t Shared; Destroy 1; Construct 2 t' Exclusive]
      (MkSys RWMutex.ctor ∅) = Some s /\
    guards s !! 0%nat = Some (MkGuard t Exclusive true) /\
    guards s !! 2%nat = Some (MkGuard t' Exclusive true).
Proof.
  eexists. split.
  - eapply gcalls_cons; [reflexivity|].
    eapply gcalls_cons; [simpl; unfold ReadScopedLockImpl.ctor, mbind, BM_bind; simpl;
      unfold RWMutex.rdlock, unchecked, RWMutex.on_m, rdlock_p; simpl; by rewrite decide_True|].
    eapply gcalls_cons; [unfold gcall; cbn [guards]; rewrite lookup_insert_eq; simpl;
      unfold ReadScopedLockImpl.dtor, ReadScopedLockImpl.unlock, mbind, BM_bind; simpl; unfold RWMutex.unlock, unchecked, RWMutex.on_m, rwunlock_p; simpl; by rewrite decide_True|].
    eapply gcalls_cons; reflexivity.
  - by split.
Qed.

(** *** The semaphore *)

(** [Semaphore::wait] survives any number of interruptions: after them it
    takes exactly one unit when one is there, waits when there is none, and
    panics only on another error of [sem_wait]. *)
Theorem semaphore_wait_survives_signals n (e : Semaphore.sem_end) s :
  e <> Semaphore.Interrupted -> e <> Semaphore.Failed EINTR ->
  Semaphore.wait (replicate n Semaphore.Interrupted ++ [e]) s =
    match e with
    | Semaphore.TakesUnit =>
        if 0 <? Semaphore.semaphore_ s
        then Some (Ret tt (Semaphore.Mk (Semaphore.semaphore_ s - 1))) else None
    | _ => Some (Crash (Panic "sem_wait error"))
    end.
Proof.
  intros H1 H2. induction n as [|n IH]; [|exact IH].
  destruct e as [|m|]; [done| |]; simpl.
  - destruct (m =? EINTR) eqn:E; [|done]. apply Z.eqb_eq in E as ->. done.
  - by destruct (0 <? _).
Qed.

(** One completed call of a semaphore member. *)
Inductive sem_step : bool -> Semaphore.Semaphore -> Semaphore.Semaphore -> Prop :=
| sem_waited calls s s' : Semaphore.wait calls s = Some (Ret tt s') -> sem_step false s s'
| sem_notified s s' : Semaphore.notify s = Ret tt s' -> sem_step true s s'.

Inductive sem_run : list bool -> Semaphore.Semaphore -> Semaphore.Semaphore -> Prop :=
| sem_run_nil s : sem_run [] s s
| sem_run_cons b l s s' s'' : sem_step b s s' -> sem_run l s' s'' -> sem_run (b :: l) s s''.

Lemma wait_takes_one calls s s' :
  Semaphore.wait calls s = Some (Ret tt s') ->
  0 < Semaphore.semaphore_ s /\ Semaphore.semaphore_ s' = Semaphore.semaphore_ s - 1.
Proof.
  induction calls as [|e calls IH]; [done|]. simpl. destruct e as [|m|]; simpl; [done| |].
  - by destruct (m =? EINTR).
  - destruct (0 <? Semaphore.semaphore_ s) eqn:E; [|done]. simpl. intros [= <-]. to_prop. done.
Qed.

Definition notifications (l : list bool) : Z := Z.of_nat (length (filter (fun b => b = true) l)).
Definition completed_waits (l : list bool) : Z := Z.of_nat (length (filter (fun b => b = false) l)).

Lemma sem_run_counts l s0 s :
  0 <= Semaphore.semaphore_ s0 <= Semaphore.SEM_VALUE_MAX -> sem_run l s0 s ->
  Semaphore.semaphore_ s = Semaphore.semaphore_ s0 + notifications l - completed_waits l /\
  0 <= Semaphore.semaphore_ s <= Semaphore.SEM_VALUE_MAX.
Proof.
  intros Hn Hr. unfold notifications, completed_waits.
  induction Hr as [s|b l s s' s'' Hs Hr IH]; [simpl; lia|].
  enough (0 <= Semaphore.semaphore_ s' <= Semaphore.SEM_VALUE_MAX /\
          Semaphore.semaphore_ s' = Semaphore.semaphore_ s + if b then 1 else -1) as (Hr' & E).
  { specialize (IH Hr') as (-> & Hb). split; [|done]. rewrite E, !filter_cons.
    destruct b; simpl; lia. }
  destruct Hs as [calls s s' Hw|s s' Hp].
  - apply wait_takes_one in Hw. lia.
  - unfold Semaphore.notify, Semaphore.sem_post in Hp.
    destruct (Semaphore.semaphore_ s =? Semaphore.SEM_VALUE_MAX) eqn:E; [done|].
    injection Hp as <-. to_prop. simpl. lia.
Qed.

(** Over any completed calls of [wait] and [notify], by any threads, the
    semaphore's value is its initial count plus the notifications less the
    completed waits, and is between 0 and SEM_VALUE_MAX: no wait completes
    without a unit of its own. *)
Theorem semaphore_counts l n s :
  0 <= n <= Semaphore.SEM_VALUE_MAX ->
  sem_run l (Semaphore.Mk n) s ->
  Semaphore.semaphore_ s = n + notifications l - completed_waits l /\
  0 <= Semaphore.semaphore_ s <= Semaphore.SEM_VALUE_MAX.
Proof. intros Hn Hr. exact (sem_run_counts l (Semaphore.Mk n) s Hn Hr). Qed.

(** *** Witnesses *)

Lemma gstep_call {L} `{GuardLaws L} a (s s' : gsys L) :
  careful_act a s -> gcall a s = Some (Ret tt s') -> gstep s s'.
Proof. intros. by exists a. Qed.

Definition guarded_mutex : gsys ThreadMutex.ThreadMutex :=
  MkSys (ThreadMutex.Mk (Some 7)) {[0%nat := MkGuard 7 Exclusive true]}.
Definition guarded_spinlock : gsys Spinlock.Spinlock :=
  MkSys (Spinlock.Mk (Some 7)) {[0%nat := MkGuard 7 Exclusive true]}.

Lemma scoped_locks_exclude_witness : guards_sound guarded_mutex /\ guards_sound guarded_spinlock.
Proof.
  apply (scoped_locks_exclude guarded_mutex guarded_spinlock).
  - apply rtc_once, (gstep_call (Construct 0 7 Exclusive)); [exact I|reflexivity].
  - apply rtc_once, (gstep_call (Construct 0 7 Exclusive)); [exact I|reflexivity].
Defined.

Definition two_readers : gsys RWMutex.RWMutex :=
  MkSys (RWMutex.Mk (MkRW [8; 7] None))
    (<[1%nat := MkGuard 8 Shared true]> {[0%nat := MkGuard 7 Shared true]}).

Lemma rw_guards_exclude_witness : guards_sound two_readers.
Proof.
  apply (rw_guards_exclude two_readers).
  eapply rtc_l; [apply (gstep_call (Construct 0 7 Shared)); [discriminate|reflexivity]|].
  apply rtc_once, (gstep_call (Construct 1 8 Shared)); [discriminate|reflexivity].
Defined.

Lemma semaphore_wait_survives_signals_witness :
  Semaphore.wait [Semaphore.Interrupted; Semaphore.Interrupted; Semaphore.TakesUnit] (Semaphore.Mk 1) =
    Some (Ret tt (Semaphore.Mk 0)).
Proof. exact (semaphore_wait_survives_signals 2 Semaphore.TakesUnit (Semaphore.Mk 1) ltac:(done) ltac:(done)). Defined.

Lemma semaphore_counts_witness :
  Semaphore.semaphore_ (Semaphore.Mk 0) = 0 + notifications [true; false] - completed_waits [true; false] /\
  0 <= Semaphore.semaphore_ (Semaphore.Mk 0) <= Semaphore.SEM_VALUE_MAX.
Proof.
  apply (semaphore_counts [true; false] 0 (Semaphore.Mk 0)); [by vm_compute|].
  eapply sem_run_cons; [by apply (sem_notified (Semaphore.Mk 0) (Semaphore.Mk 1))|].
  eapply sem_run_cons; [|apply sem_run_nil].
  by apply (sem_waited [Semaphore.Interrupted; Semaphore.TakesUnit] (Semaphore.Mk 1) (Semaphore.Mk 0)).
Defined.
