(* ===== verification/Thread.v ===== *)
(** * Threads

    src/thread.cpp with include/pulsar/thread.hpp: a [Thread] object starts a
    pthread that reads its name and callback from the object, and is joined or,
    by the destructor, detached.

    The state is that of the process: the [Thread] objects by address, the
    pthreads, and the thread-local variables.  pthread_create, pthread_join and
    pthread_detach are modelled as POSIX describes them. *)

From S2P Require Import Prelude.

(** [id_] is not written by the constructor: [None] is an indeterminate value.
    [cb_] is a [std::function], [None] when empty. *)
Record Thread := MkThread {
  id_ : option Z;
  thread_ : Z;
  cb_ : option Z;
  name_ : string }.

(** A pthread: not yet run (with its argument), in the callback, or past the
    end of [run]; and whether it is detached. *)
Inductive progress : Type := Created (arg : nat) | Running (cb : Z) | Finished (cb : Z).
Record pthread := PThread { prog : progress; detached : bool }.

(** [cur_thread] and [cur_thread_name] of a thread. *)
Record tls := Tls { cur_thread : option nat; cur_thread_name : string }.

Definition UNKNOW : string := "UNKNOW".

(** [os_names]: the kernel's name of a thread.  [started] and [completed] are
    the callbacks entered and left so far. *)
Record process := Process {
  objects : gmap nat Thread;
  pthreads : gmap Z pthread;
  locals : gmap Z tls;
  os_names : gmap Z string;
  started : list Z;
  completed : list Z }.

Definition get_tls (t : Z) (s : process) : tls := default (Tls None UNKNOW) (locals s !! t).

Definition set_object (o : nat) (x : Thread) : M process unit :=
  modify (fun s => Process (<[o := x]> (objects s)) (pthreads s) (locals s) (os_names s) (started s) (completed s)).
Definition set_pthread (p : Z) (x : pthread) : M process unit :=
  modify (fun s => Process (objects s) (<[p := x]> (pthreads s)) (locals s) (os_names s) (started s) (completed s)).
Definition del_pthread (p : Z) : M process unit :=
  modify (fun s => Process (objects s) (delete p (pthreads s)) (locals s) (os_names s) (started s) (completed s)).
Definition set_tls (t : Z) (x : tls) : M process unit :=
  modify (fun s => Process (objects s) (pthreads s) (<[t := x]> (locals s)) (os_names s) (started s) (completed s)).
Definition set_os_name (t : Z) (n : string) : M process unit :=
  modify (fun s => Process (objects s) (pthreads s) (locals s) (<[t := n]> (os_names s)) (started s) (completed s)).
Definition del_object (o : nat) : M process unit :=
  modify (fun s => Process (delete o (objects s)) (pthreads s) (locals s) (os_names s) (started s) (completed s)).

(** An object that a member or a pointer reaches. *)
Definition object (o : nat) : M process Thread := fun s =>
  match objects s !! o with
  | Some x => Ret x s
  | None => Crash (Undefined "use of a destroyed Thread")
  end.

(** ** Members *)

(** The constructor at [o]; [created] is the handle that [pthread_create]
    stores, [None] when it fails (the object is then gone). *)
Definition Thread_ctor (o : nat) (cb : option Z) (name : string) (created : option Z) : M process unit :=
  let name' := if bool_decide (name = EmptyString) then UNKNOW else name in
  match created with
  | None => throw (logic_error "pthread_create")
  | Some p =>
      _ ← set_object o (MkThread None p cb name');
      set_pthread p (PThread (Created o) false)
  end.

(** [run] on the new thread [p] up to the call of the callback; [tid] is its
    kernel thread identifier.  An empty callback throws bad_function_call out of
    the thread. *)
Definition Thread_run (p : Z) (tid : Z) : M process unit :=
  pt ← gets (fun s => pthreads s !! p);
  match pt with
  | Some (PThread (Created arg) d) =>
      thread ← object arg;
      _ ← set_tls p (Tls (Some arg) (name_ thread));
      _ ← set_object arg (MkThread (Some tid) (thread_ thread) (cb_ thread) (name_ thread));
      _ ← set_os_name p (String.substring 0 15 (name_ thread));
      thread' ← object arg;
      _ ← set_object arg (MkThread (id_ thread') (thread_ thread') None (name_ thread'));
      match cb_ thread' with
      | None => stop Terminate
      | Some cb =>
          _ ← set_pthread p (PThread (Running cb) d);
          modify (fun s => Process (objects s) (pthreads s) (locals s) (os_names s) (started s ++ [cb]) (completed s))
      end
  | _ => stop (Undefined "Thread::run")
  end.

(** The callback returns and [run] with it; a detached thread is gone. *)
Definition run_returns (p : Z) : M process unit :=
  pt ← gets (fun s => pthreads s !! p);
  match pt with
  | Some (PThread (Running cb) d) =>
      _ ← modify (fun s => Process (objects s) (pthreads s) (locals s) (os_names s) (started s) (completed s ++ [cb]));
      if d : bool then del_pthread p else set_pthread p (PThread (Finished cb) false)
  | _ => stop (Undefined "Thread::run")
  end.

(** pthread_join: [None] while the thread runs; the code; a handle that is
    unknown or detached is undefined. *)
Definition pthread_join (p : Z) (s : process) : option (outcome process Z) :=
  match pthreads s !! p with
  | Some (PThread (Finished _) false) => Some ((_ ← del_pthread p; mret 0) s)
  | Some (PThread _ false) => None
  | _ => Some (Crash (Undefined "pthread_join"))
  end.

Definition pthread_detach (p : Z) : M process unit := fun s =>
  match pthreads s !! p with
  | Some (PThread (Finished _) false) => del_pthread p s
  | Some (PThread pr false) => set_pthread p (PThread pr true) s
  | _ => Crash (Undefined "pthread_detach")
  end.

(** [join()]: [None] while it waits. *)
Definition join (o : nat) (s : process) : option (outcome process unit) :=
  match object o s with
  | Ret x _ =>
      if negb (thread_ x =? 0) then
        match pthread_join (thread_ x) s with
        | None => None
        | Some (Ret rt s') =>
            if negb (rt =? 0) then Some (Throw (logic_error "pthread_join") s')
            else Some (set_object o (MkThread (id_ x) 0 (cb_ x) (name_ x)) s')
        | Some (Throw e s') => Some (Throw e s')
        | Some (Crash w) => Some (Crash w)
        end
      else Some (Ret tt s)
  | Throw e s' => Some (Throw e s')
  | Crash w => Some (Crash w)
  end.

Definition Thread_dtor (o : nat) : M process unit :=
  x ← object o;
  _ ← (if negb (thread_ x =? 0) then pthread_detach (thread_ x) else mret tt);
  del_object o.

Definition getId (o : nat) : M process (option Z) := x ← object o; mret (id_ x).
Definition getName (o : nat) : M process string := x ← object o; mret (name_ x).

(** The static members, on thread [t]. *)
Definition GetThis (t : Z) : M process (option nat) := gets (fun s => cur_thread (get_tls t s)).
Definition GetName (t : Z) : M process string := gets (fun s => cur_thread_name (get_tls t s)).
Definition SetName (t : Z) (name : string) : M process unit :=
  if bool_decide (name = EmptyString) then mret tt else
    l ← gets (get_tls t);
    _ ← match cur_thread l with
        | Some o => x ← object o; set_object o (MkThread (id_ x) (thread_ x) (cb_ x) name)
        | None => mret tt
        end;
    set_tls t (Tls (cur_thread l) name).
