(* ===== verification/ThreadProofs.v ===== *)
(** * Properties of threads

    Steps of any threads of the process interleave: constructions, the prologue
    of [run] on the new thread, the end of its callback, joins, destructions and
    renamings.  A [Thread] is used as its users do: it is destroyed after its
    thread has taken the callback (as after [join]). *)

From S2P Require Import Prelude Thread.

(** ** Steps *)

(** The pthread has taken what it needs from the object. *)
Definition taken (pt : option pthread) : Prop :=
  match pt with
  | Some (PThread (Created _) _) => False
  | _ => True
  end.

Definition may_destroy (o : nat) (s : process) : Prop :=
  forall x, objects s !! o = Some x -> taken (pthreads s !! thread_ x).

Definition may_rename (t : Z) (s : process) : Prop :=
  forall o, cur_thread (get_tls t s) = Some o -> is_Some (objects s !! o).

(** The second component lists the callbacks of the constructed threads. *)
Inductive thread_step : process * list Z -> process * list Z -> Prop :=
| ts_construct o cb name p s s' l :
    objects s !! o = None -> p <> 0 -> pthreads s !! p = None ->
    Thread_ctor o (Some cb) name (Some p) s = Ret tt s' ->
    thread_step (s, l) (s', cb :: l)
| ts_construct_fails o cb name s s' e l :
    Thread_ctor o cb name None s = Throw e s' -> thread_step (s, l) (s', l)
| ts_run p tid s s' l : Thread_run p tid s = Ret tt s' -> thread_step (s, l) (s', l)
| ts_return p s s' l : run_returns p s = Ret tt s' -> thread_step (s, l) (s', l)
| ts_join o s s' l : join o s = Some (Ret tt s') -> thread_step (s, l) (s', l)
| ts_destroy o s s' l :
    may_destroy o s -> Thread_dtor o s = Ret tt s' -> thread_step (s, l) (s', l)
| ts_rename t name s s' l :
    may_rename t s -> SetName t name s = Ret tt s' -> thread_step (s, l) (s', l).

(** ** Invariant *)

Definition running_cb (pt : pthread) : option Z :=
  match prog pt with
  | Running cb => Some cb
  | _ => None
  end.

(** What an object knows of its thread. *)
Definition object_ok (s : process) (o : nat) (x : Thread) : Prop :=
  name_ x <> EmptyString /\
  (thread_ x <> 0 -> exists pr, pthreads s !! thread_ x = Some (PThread pr false)) /\
  (is_Some (cb_ x) -> thread_ x <> 0 /\ pthreads s !! thread_ x = Some (PThread (Created o) false)).

Definition tinv (s : process) (l : list Z) : Prop :=
  map_Forall (object_ok s) (objects s) /\
  (forall o o' x y, objects s !! o = Some x -> objects s !! o' = Some y ->
     thread_ x = thread_ y -> thread_ x <> 0 -> o = o') /\
  (forall p arg d, pthreads s !! p = Some (PThread (Created arg) d) ->
     exists x, objects s !! arg = Some x /\ thread_ x = p /\ is_Some (cb_ x)) /\
  l ≡ₚ collect cb_ (objects s) ++ started s /\
  started s ≡ₚ collect running_cb (pthreads s) ++ completed s /\
  map_Forall (fun _ n => String.length n <= 15)%nat (os_names s).

Lemma length_substring n s : (String.length (String.substring 0 n s) <= n)%nat.
Proof. revert s. induction n as [|n IH]; intros [|a s]; simpl; [lia..|]. specialize (IH s). lia. Qed.

Lemma construct_tinv o cb name p s s' l :
  objects s !! o = None -> p <> 0 -> pthreads s !! p = None ->
  Thread_ctor o (Some cb) name (Some p) s = Ret tt s' -> tinv s l -> tinv s' (cb :: l).
Proof.
  intros Ho Hp Hn E (H1 & H2 & H3 & H4 & H5 & H6). unfold Thread_ctor in E. run_in E. injection E as <-.
  set (name' := if bool_decide _ then _ else _).
  assert (forall a x, objects s !! a = Some x -> thread_ x <> 0 -> thread_ x <> p) as Hfresh.
  { intros a x Hx Hne E. destruct (H1 a x Hx) as (_ & Hpt & _). destruct (Hpt Hne) as (pr & Epr).
    rewrite E, Hn in Epr. done. }
  split_and!; simpl.
  - apply map_Forall_insert_2.
    + split_and!; simpl; [unfold name'; by case_bool_decide| |]; intros _;
        rewrite lookup_insert_eq; [by eexists|done].
    + intros a x Hx. destruct (H1 a x Hx) as (Hname & Hpt & Hcb).
      split_and!; simpl; [done| |].
      * intros Hne. rewrite lookup_insert_ne; [auto|]. intros ->. by apply (Hfresh a x).
      * intros [c Hc]. destruct (Hcb (ex_intro _ c Hc)) as [Hne Ep]. split; [done|].
        rewrite lookup_insert_ne; [done|]. intros ->. by apply (Hfresh a x).
  - intros a b x y. rewrite !lookup_insert_Some.
    intros [[<- <-]|[Ha Hx]] [[<- <-]|[Hb Hy]]; simpl; [done| | |by apply H2]; intros E Hne.
    + exfalso. apply (Hfresh b y); congruence.
    + exfalso. by apply (Hfresh a x).
  - intros q arg d. rewrite lookup_insert_Some. intros [[<- [= <- <-]]|[Hq Eq]].
    + eexists. rewrite lookup_insert_eq. by split_and!.
    + destruct (H3 q arg d Eq) as (x & Hx & Et & Hc). exists x. split; [|done].
      rewrite lookup_insert_ne; [done|]. congruence.
  - rewrite collect_insert_new by done. simpl. by rewrite H4.
  - by rewrite collect_insert_new.
  - done.
Qed.

(** A change of the pthread [p] that no other object refers to. *)
Lemma object_ok_other s s' o x p :
  (forall q, q <> p -> pthreads s' !! q = pthreads s !! q) ->
  (thread_ x <> 0 -> thread_ x <> p) -> object_ok s o x -> object_ok s' o x.
Proof.
  intros Hq Hp (Hname & Hpt & Hcb). split_and!; [done| |].
  - intros Hne. rewrite Hq by auto. auto.
  - intros Hc. destruct (Hcb Hc) as [Hne E]. split; [done|]. by rewrite Hq by auto.
Qed.

(** The prologue of [run] finds its object and takes the callback. *)
Lemma Thread_run_spec p tid arg d s l :
  tinv s l -> pthreads s !! p = Some (PThread (Created arg) d) ->
  exists x c, objects s !! arg = Some x /\ thread_ x = p /\ cb_ x = Some c /\ d = false /\
    Thread_run p tid s = Ret tt (Process
      (<[arg := MkThread (Some tid) p None (name_ x)]> (objects s))
      (<[p := PThread (Running c) false]> (pthreads s))
      (<[p := Tls (Some arg) (name_ x)]> (locals s))
      (<[p := String.substring 0 15 (name_ x)]> (os_names s))
      (started s ++ [c]) (completed s)).
Proof.
  intros (H1 & _ & H3 & _) Hp. destruct (H3 _ _ _ Hp) as (x & Hx & Et & [c Hc]).
  exists x, c. destruct (H1 _ _ Hx) as (_ & _ & Hcb). destruct (Hcb (ex_intro _ c Hc)) as [Hne E].
  rewrite Et, Hp in E. injection E as ->. split_and!; [done..|].
  unfold Thread_run. eapply bind_gets. rewrite Hp. unfold object. run. rewrite Hx. simpl.
  rewrite lookup_insert_eq. simpl. rewrite Hc, Et, insert_insert_eq. done.
Qed.

Lemma Thread_run_Ret p tid s s' :
  Thread_run p tid s = Ret tt s' -> exists arg d, pthreads s !! p = Some (PThread (Created arg) d).
Proof.
  unfold Thread_run. run. destruct (pthreads s !! p) as [[[] d]|]; [eauto|done..].
Qed.

Lemma run_tinv p tid s s' l : Thread_run p tid s = Ret tt s' -> tinv s l -> tinv s' l.
Proof.
  intros E Hi. destruct (Thread_run_Ret _ _ _ _ E) as (arg & d & Hp).
  destruct (Thread_run_spec p tid arg d s l Hi Hp) as (x & c & Hx & Et & Hc & -> & E').
  rewrite E' in E. injection E as <-. destruct Hi as (H1 & H2 & H3 & H4 & H5 & H6).
  assert (p <> 0) as Hp0.
  { destruct (H1 _ _ Hx) as (_ & _ & Hcb). rewrite <- Et. apply Hcb. eauto. }
  split_and!; simpl.
  - intros a y. rewrite lookup_insert_Some. intros [[<- <-]|[Ha Hy]].
    + split_and!; simpl; [by apply (H1 _ _ Hx)| |by intros [? ?]]. intros _. rewrite lookup_insert_eq. eauto.
    + eapply object_ok_other; [|intros Hne|apply (H1 _ _ Hy)].
      * intros q Hq. simpl. by rewrite lookup_insert_ne.
      * intros E. apply Ha. symmetry. apply (H2 _ _ _ _ Hy Hx); congruence.
  - intros a b y z. rewrite !lookup_insert_Some.
    intros [[<- <-]|[Ha Hy]] [[<- <-]|[Hb Hz]]; simpl; intros E Hne; [done| | |by apply (H2 _ _ _ _ Hy Hz)].
    + apply (H2 _ _ _ _ Hx Hz); congruence.
    + apply (H2 _ _ _ _ Hy Hx); congruence.
  - intros q a d. rewrite lookup_insert_Some. intros [[_ [=]]|[Hq Eq]].
    destruct (H3 _ _ _ Eq) as (y & Hy & Ety & Hcy). exists y. split; [|done].
    rewrite lookup_insert_ne; [done|]. congruence.
  - rewrite H4, collect_insert, (collect_delete _ _ _ _ Hx), Hc. simpl. solve_Permutation.
  - rewrite H5, collect_insert, (collect_delete _ _ _ _ Hp). simpl. solve_Permutation.
  - apply map_Forall_insert_2; [apply length_substring|done].
Qed.

(** A pthread that leaves the callback, or goes. *)
Lemma update_tinv s s' l p pt :
  tinv s l -> pthreads s !! p = Some pt -> taken (Some pt) ->
  objects s' = objects s -> os_names s' = os_names s -> started s' = started s ->
  started s' ≡ₚ collect running_cb (pthreads s') ++ completed s' ->
  (pthreads s' = delete p (pthreads s) /\ detached pt = true \/
   exists pr, pthreads s' = <[p := PThread pr (detached pt)]> (pthreads s) /\ taken (Some (PThread pr true))) ->
  tinv s' l.
Proof.
  intros (H1 & H2 & H3 & H4 & H5 & H6) Hp Ht Eo En Es Hc Hpt.
  split_and!; [|by rewrite Eo| |by rewrite Eo, Es|done|by rewrite En].
  - rewrite Eo. intros a x Hx. destruct (H1 _ _ Hx) as (Hname & Hth & Hcb).
    assert (thread_ x = p -> cb_ x = None) as Hno.
    { intros E. destruct (cb_ x) as [c|]; [|done]. destruct (Hcb (ex_intro _ c eq_refl)) as [_ Ep].
      rewrite E, Hp in Ep. injection Ep as ->. done. }
    destruct (decide (thread_ x = p)) as [Etp|Htp].
    + split_and!; [done| |rewrite Hno by done; by intros [? ?]]. intros Hne.
      destruct (Hth Hne) as (pr & Ep). rewrite Etp, Hp in Ep. injection Ep as ->.
      destruct Hpt as [[_ Hd]|(pr' & -> & _)]; [done|]. rewrite Etp, lookup_insert_eq. eauto.
    + eapply (object_ok_other s s' a x p); [|done|done].
      intros q Hq. destruct Hpt as [[-> _]|(pr' & -> & _)]; by simplify_map_eq.
  - intros q arg d Hq. rewrite Eo. apply (H3 q arg d).
    destruct Hpt as [[E _]|(pr' & E & Ht')]; rewrite E in Hq.
    + by apply lookup_delete_Some in Hq as [_ ?].
    + apply lookup_insert_Some in Hq as [[_ [= -> _]]|[_ ?]]; done.
Qed.

Lemma return_tinv p s s' l : run_returns p s = Ret tt s' -> tinv s l -> tinv s' l.
Proof.
  intros E Hi. pose proof Hi as (_ & _ & _ & _ & H5 & _). unfold run_returns in E. run_in E.
  destruct (pthreads s !! p) as [[[|cb|] d]|] eqn:Hp; try done. simpl in E.
  assert (started s ≡ₚ collect running_cb (delete p (pthreads s)) ++ completed s ++ [cb]) as Hst.
  { rewrite H5, (collect_delete _ _ _ _ Hp). simpl. solve_Permutation. }
  destruct d; injection E as <-.
  - eapply (update_tinv s _ l p _ Hi Hp); simpl; [done..|]. by left.
  - eapply (update_tinv s _ l p _ Hi Hp); simpl; [done..| |].
    + by rewrite collect_insert.
    + right. by eexists.
Qed.

(** An object that gives up its thread [p], which goes or is detached: the
    object stays without a thread ([join]) or goes (the destructor). *)
Lemma give_up_tinv s l o x (m : gmap nat Thread) (ps : gmap Z pthread) ls :
  tinv s l -> objects s !! o = Some x -> taken (pthreads s !! thread_ x) ->
  (m = delete o (objects s) \/ m = <[o := MkThread (id_ x) 0 (cb_ x) (name_ x)]> (objects s)) ->
  (forall q, q <> thread_ x \/ thread_ x = 0 -> ps !! q = pthreads s !! q) ->
  (thread_ x <> 0 -> taken (ps !! thread_ x)) ->
  collect running_cb ps ≡ₚ collect running_cb (pthreads s) ->
  tinv (Process m ps ls (os_names s) (started s) (completed s)) l.
Proof.
  intros (H1 & H2 & H3 & H4 & H5 & H6) Hx Ht Hm Hps Htp Hr.
  assert (cb_ x = None) as Hc.
  { destruct (H1 _ _ Hx) as (_ & _ & Hcb). destruct (cb_ x) as [c|]; [|done].
    destruct (Hcb (ex_intro _ c eq_refl)) as [_ E]. by rewrite E in Ht. }
  assert (forall a y, m !! a = Some y ->
    a <> o /\ objects s !! a = Some y \/ a = o /\ y = MkThread (id_ x) 0 (cb_ x) (name_ x)) as Hlook.
  { intros a y Hy. destruct Hm as [->| ->].
    - apply lookup_delete_Some in Hy as [? ?]. left. by split.
    - apply lookup_insert_Some in Hy as [[<- <-]|[? ?]]; [by right|left; by split]. }
  split_and!; simpl.
  - intros a y Hy. apply Hlook in Hy as [[Ha Hy]|[-> ->]].
    + apply (object_ok_other s _ a y (thread_ x)); [|intros Hne E|by apply H1].
      * intros q Hq. apply Hps. by left.
      * apply Ha. by apply (H2 _ _ _ _ Hy Hx).
    + split_and!; simpl; [by apply (H1 _ _ Hx)|done|]. rewrite Hc. by intros [? ?].
  - intros a b y z Hy Hz. apply Hlook in Hy as [[Ha Hy]|[-> ->]]; [|done].
    apply Hlook in Hz as [[Hb Hz]|[-> ->]]; [|simpl; congruence]. by apply (H2 _ _ _ _ Hy Hz).
  - intros q arg d Hq. destruct (decide (q <> thread_ x \/ thread_ x = 0)) as [Hd|Hd].
    + rewrite (Hps q Hd) in Hq. destruct (H3 _ _ _ Hq) as (y & Hy & Ey & Hcy). exists y. split; [|done].
      assert (arg <> o) by (intros ->; rewrite Hx in Hy; injection Hy as ->; rewrite Hc in Hcy; by destruct Hcy).
      destruct Hm as [->| ->]; by simplify_map_eq.
    + assert (q = thread_ x /\ thread_ x <> 0) as [-> Hne] by (destruct (decide (q = thread_ x)); tauto).
      specialize (Htp Hne). by rewrite Hq in Htp.
  - assert (collect cb_ m ≡ₚ collect cb_ (objects s)) as ->; [|done].
    rewrite (collect_delete _ _ _ _ Hx), Hc. destruct Hm as [->| ->]; [done|].
    rewrite collect_insert. simpl. by rewrite Hc.
  - by rewrite Hr.
  - done.
Qed.

Lemma finished_running (ps : gmap Z pthread) p cb d :
  ps !! p = Some (PThread (Finished cb) d) -> collect running_cb (delete p ps) ≡ₚ collect running_cb ps.
Proof. intros Hp. by rewrite (collect_delete _ _ _ _ Hp). Qed.

Lemma join_tinv o s s' l : join o s = Some (Ret tt s') -> tinv s l -> tinv s' l.
Proof.
  intros E Hi. unfold join, object in E. destruct (objects s !! o) as [x|] eqn:Hx; [|done]. simpl in E.
  destruct (thread_ x =? 0) eqn:E0; simpl in E; to_prop; [by injection E as <-|].
  unfold pthread_join in E.
  destruct (pthreads s !! thread_ x) as [[[| |cb] []]|] eqn:Hp; simpl in E; try done. injection E as <-.
  apply (give_up_tinv s l o x); simpl; [done|done|by rewrite Hp|by right| | |].
  - intros q [Hq|Hq]; [|done]. by rewrite lookup_delete_ne.
  - intros _. by rewrite lookup_delete_eq.
  - by eapply finished_running.
Qed.

(** The destructor of an object whose thread has taken the callback. *)
Lemma Thread_dtor_spec o x s l :
  tinv s l -> objects s !! o = Some x -> may_destroy o s ->
  exists s', Thread_dtor o s = Ret tt s' /\ tinv s' l.
Proof.
  intros Hi Hx Hm. specialize (Hm x Hx). unfold Thread_dtor, object. run. rewrite Hx. simpl.
  destruct (thread_ x =? 0) eqn:E0; simpl; to_prop.
  - eexists. split; [reflexivity|].
    apply (give_up_tinv s l o x); [done|done|done|by left|done|done|done].
  - destruct Hi as (H1 & Hrest). destruct (H1 _ _ Hx) as (_ & Hpt & _). destruct (Hpt E0) as (pr & Hp).
    unfold pthread_detach. rewrite Hp in Hm |- *. destruct pr as [a|c|c]; [done| |];
      (eexists; split; [reflexivity|]); apply (give_up_tinv s l o x); simpl;
      [by split|done|by rewrite Hp|by left| | | |by split|done|by rewrite Hp|by left| | |].
    + intros q [Hq|Hq]; [|done]. by rewrite lookup_insert_ne.
    + intros _. by rewrite lookup_insert_eq.
    + by rewrite (collect_update _ _ _ _ _ Hp).
    + intros q [Hq|Hq]; [|done]. by rewrite lookup_delete_ne.
    + intros _. by rewrite lookup_delete_eq.
    + by eapply finished_running.
Qed.

Lemma rename_tinv t name s s' l :
  SetName t name s = Ret tt s' -> tinv s l -> tinv s' l.
Proof.
  unfold SetName. case_bool_decide as Hn; run; [by intros [= <-]|].
  destruct (cur_thread (get_tls t s)) as [o|]; [|intros [= <-] Hi; exact Hi].
  unfold object. destruct (objects s !! o) as [x|] eqn:Hx; [|done]. simpl.
  intros [= <-] (H1 & H2 & H3 & H4 & H5 & H6).
  assert (forall a y, <[o := MkThread (id_ x) (thread_ x) (cb_ x) name]> (objects s) !! a = Some y ->
    exists z, objects s !! a = Some z /\ thread_ y = thread_ z /\ cb_ y = cb_ z /\ name_ y <> EmptyString) as Hlook.
  { intros a y Hy. apply lookup_insert_Some in Hy as [[<- <-]|[Ha Hy]].
    - exists x. by split_and!.
    - exists y. split_and!; [done..|]. by apply (H1 _ _ Hy). }
  split_and!; simpl; try done.
  - intros a y Hy. destruct (Hlook a y Hy) as (z & Hz & E1 & E2 & Hne).
    destruct (H1 _ _ Hz) as (_ & Hpt & Hcb). split; [done|]. simpl. by rewrite E1, E2.
  - intros a b y y' Hy Hy' E Hne. destruct (Hlook a y Hy) as (z & Hz & E1 & _).
    destruct (Hlook b y' Hy') as (z' & Hz' & E1' & _). apply (H2 _ _ _ _ Hz Hz'); congruence.
  - intros q arg d Hq. destruct (H3 _ _ _ Hq) as (y & Hy & Ey & Hc).
    destruct (decide (arg = o)) as [->|Hne]; [|exists y; by simplify_map_eq].
    eexists. rewrite lookup_insert_eq. simplify_eq. by split_and!.
  - by rewrite (collect_update _ _ _ _ (MkThread (id_ x) (thread_ x) (cb_ x) name) Hx).
Qed.

Lemma thread_step_tinv x y : thread_step x y -> tinv x.1 x.2 -> tinv y.1 y.2.
Proof.
  intros [o cb name p s s' l Ho Hp Hn E|o cb name s s' e l E|p tid s s' l E|p s s' l E|o s s' l E|o s s' l Hm E|t name s s' l Hm E] Hi;
    simpl in *.
  - by eapply construct_tinv.
  - unfold Thread_ctor, throw in E. by injection E as _ <-.
  - by eapply run_tinv.
  - by eapply return_tinv.
  - by eapply join_tinv.
  - destruct (objects s !! o) as [th|] eqn:Hx.
    + destruct (Thread_dtor_spec o th s l Hi Hx Hm) as (s'' & E' & Hi'). congruence.
    + unfold Thread_dtor, object in E. run_in E. by rewrite Hx in E.
  - by eapply rename_tinv.
Qed.

Definition no_threads : process := Process ∅ ∅ ∅ ∅ [] [].

Lemma tinv_start : tinv no_threads [].
Proof. split_and!; simpl; rewrite ?collect_empty; try done. Qed.

Lemma thread_reachable_inv s l : rtc thread_step (no_threads, []) (s, l) -> tinv s l.
Proof.
  intros Hr. change (tinv (s, l).1 (s, l).2).
  exact (rtc_invariant _ (fun x => tinv x.1 x.2) thread_step_tinv _ _ Hr tinv_start).
Qed.

(** ** Theorems *)

(** C30. Threads are started and given back once.  In every state reached by
    constructing, running, joining, destroying and renaming threads, in any
    interleaving, where an object is destroyed only once its thread has taken
    the callback: every constructed callback is either still in its object, with
    a pthread about to run, or has been started exactly once, and a started one
    is running or completed; a new pthread finds its object alive; [join] never
    fails, and waits only while the thread has not finished; the destructor
    detaches only a thread that is neither joined nor detached; no name is empty
    and the name given to the kernel fits its 15 characters. *)
Theorem thread_lifecycle_safe s l :
  rtc thread_step (no_threads, []) (s, l) ->
  l ≡ₚ collect cb_ (objects s) ++ collect running_cb (pthreads s) ++ completed s /\
  (forall p tid arg d, pthreads s !! p = Some (PThread (Created arg) d) ->
     exists s', Thread_run p tid s = Ret tt s') /\
  (forall o x, objects s !! o = Some x ->
     (exists s', join o s = Some (Ret tt s')) \/
     (join o s = None /\ forall cb d, pthreads s !! thread_ x <> Some (PThread (Finished cb) d))) /\
  (forall o x, objects s !! o = Some x -> may_destroy o s -> exists s', Thread_dtor o s = Ret tt s') /\
  (forall o x, objects s !! o = Some x -> name_ x <> EmptyString) /\
  (forall p n, os_names s !! p = Some n -> (String.length n <= 15)%nat).
Proof.
  intros Hi%thread_reachable_inv. pose proof Hi as (H1 & H2 & H3 & H4 & H5 & H6). split_and!.
  - by rewrite H4, H5.
  - intros p tid arg d Hp. destruct (Thread_run_spec p tid arg d s l Hi Hp) as (x & c & _ & _ & _ & _ & E). eauto.
  - intros o x Hx. unfold join, object. rewrite Hx. simpl.
    destruct (thread_ x =? 0) eqn:E0; simpl; to_prop; [by eauto|].
    destruct (H1 _ _ Hx) as (_ & Hpt & _). destruct (Hpt E0) as (pr & Hp).
    unfold pthread_join. rewrite Hp. destruct pr; simpl; [by right|by right|]. left. eauto.
  - intros o x Hx Hm. destruct (Thread_dtor_spec o x s l Hi Hx Hm) as (s' & E & _). eauto.
  - intros o x Hx. by apply (H1 _ _ Hx).
  - intros p n. apply H6.
Qed.

(** The destructor does not wait for the new thread: when a [Thread] is
    destroyed before its thread has run, the thread is detached and then reads
    the destroyed object. *)
Theorem early_destruction_is_undefined o cb name p tid s :
  objects s !! o = None -> p <> 0 -> pthreads s !! p = None ->
  exists s1 s2,
    Thread_ctor o (Some cb) name (Some p) s = Ret tt s1 /\
    Thread_dtor o s1 = Ret tt s2 /\
    Thread_run p tid s2 = Crash (Undefined "use of a destroyed Thread").
Proof.
  intros Ho Hp Hn. apply Z.eqb_neq in Hp as Hp'. eexists. eexists. split_and!.
  - unfold Thread_ctor. run. reflexivity.
  - unfold Thread_dtor, object. run. rewrite lookup_insert_eq. simpl. rewrite Hp'. simpl.
    unfold pthread_detach. simpl. rewrite lookup_insert_eq. reflexivity.
  - unfold Thread_run, object. run. rewrite lookup_insert_eq. simpl. by rewrite lookup_delete_eq.
Qed.

(** *** Witnesses *)

Definition one_worker : process :=
  Process {[0%nat := MkThread (Some 77) 4096 None "io_0"]} {[4096 := PThread (Running 9) false]}
    {[4096 := Tls (Some 0%nat) "io_0"]} {[4096 := "io_0"]} [9] [].

Lemma one_worker_run : rtc thread_step (no_threads, []) (one_worker, [9]).
Proof.
  eapply rtc_l; [eapply (ts_construct 0 9 "io_0" 4096); try reflexivity; done|].
  apply rtc_once. apply (ts_run 4096 77). reflexivity.
Qed.

Lemma thread_lifecycle_safe_witness :
  [9] ≡ₚ collect cb_ (objects one_worker) ++ collect running_cb (pthreads one_worker) ++ completed one_worker /\
  join 0 one_worker = None.
Proof.
  destruct (thread_lifecycle_safe one_worker [9] one_worker_run) as (H1 & _ & H3 & _).
  split; [exact H1|]. destruct (H3 0%nat (MkThread (Some 77) 4096 None "io_0")) as [(s' & E)|[E _]];
    [reflexivity|vm_compute in E; discriminate E|exact E].
Defined.

Lemma early_destruction_is_undefined_witness :
  exists s1 s2,
    Thread_ctor 0 (Some 9) "io_0" (Some 4096) no_threads = Ret tt s1 /\
    Thread_dtor 0 s1 = Ret tt s2 /\
    Thread_run 4096 77 s2 = Crash (Undefined "use of a destroyed Thread").
Proof. apply (early_destruction_is_undefined 0 9 "io_0" 4096 77 no_threads); done. Defined.
