(* ===== verification/StackAllocator.v ===== *)
(** * Fiber stack allocators (src/stack_allocator.cpp, include/pulsar/stack_allocator.hpp)

    The raw allocation layer ([AllocateRaw], [FreeRaw]) over a model of the C
    heap, the pass-through [DirectStackAllocator] and the size-class cache
    [PooledStackAllocator].  Every critical section of the pool is a function
    of its own; the public operations compose them in the order the code runs
    them, and [pool_step] interleaves the sections of any number of threads. *)

From S2P Require Import Prelude.

(** ** The C heap and the build options the code depends on *)

(** [live]: the ranges (address, size) handed out and not yet returned.
    [answers]: what the operating system answers next; an exhausted list
    answers 0, so allocations fail and checks succeed. *)
Record heap := Heap { live : list (Z * Z); answers : list Z }.

Definition os_answer : M heap Z := fun h =>
  match answers h with
  | [] => Ret 0 h
  | a :: rest => Ret a (Heap (live h) rest)
  end.

Definition disjoint_range (r1 r2 : Z * Z) : bool :=
  (r1.1 + r1.2 <=? r2.1) || (r2.1 + r2.2 <=? r1.1).

(** The C library may return any address whose range is non-empty, lies in the
    address space and overlaps no live range; any other answer is a refusal. *)
Definition fits (a n : Z) (l : list (Z * Z)) : bool :=
  (0 <? a) && (0 <? n) && (a + n <? 2 ^ 64) && forallb (disjoint_range (a, n)) l.

(** [malloc], and [mmap] of an anonymous private mapping: 0 stands for the
    null pointer and for [MAP_FAILED]. *)
Definition os_alloc (n : Z) : M heap Z :=
  a ← os_answer;
  h ← get;
  if fits a n (live h)
  then modify (fun h => Heap ((a, n) :: live h) (answers h));; mret a
  else mret 0.

Fixpoint remove_range (p : Z * Z -> bool) (l : list (Z * Z)) : option (list (Z * Z)) :=
  match l with
  | [] => None
  | r :: l' => if p r then Some l' else cons r <$> remove_range p l'
  end.

Definition os_release (p : Z * Z -> bool) : M heap unit := fun h =>
  match remove_range p (live h) with
  | Some l => Ret tt (Heap l (answers h))
  | None => Crash (Undefined "release of memory that is not live")
  end.

(** [free(p)] identifies the block by its address, [munmap(p, n)] by both. *)
Definition os_free (a : Z) : M heap unit := os_release (fun r => r.1 =? a).
Definition os_munmap (a n : Z) : M heap unit := os_release (fun r => (r.1 =? a) && (r.2 =? n)).

(** [boost::context::stack_traits::minimum_size()], the guard-page build
    switch and [sysconf(_SC_PAGESIZE)] are properties of the platform. *)
Record platform := Platform {
  minimum_size : Z;
  guard_pages : bool;
  sysconf_pagesize : Z }.

(** ** Blocks *)

Inductive FiberStackBackend := MALLOC | MMAP.

Record FiberStackBlock := Block {
  allocation : Z;
  stackBase : Z;
  usableSize : Z;
  allocationSize : Z;
  backend : FiberStackBackend }.

#[export] Instance backend_eq_dec : EqDecision FiberStackBackend.
Proof. solve_decision. Defined.
#[export] Instance block_eq_dec : EqDecision FiberStackBlock.
Proof. solve_decision. Defined.

(** [clear] and the default constructor give the same empty block. *)
Definition clear : FiberStackBlock := Block 0 0 0 0 MALLOC.

(** [explicit operator bool] *)
Definition block_bool (b : FiberStackBlock) : bool := negb (allocation b =? 0).

Definition stackPointer (b : FiberStackBlock) : Z :=
  if stackBase b =? 0 then 0 else u64 (stackBase b + usableSize b).

(** Move construction: the new block and what is left of the source. *)
Definition move_construct (other : FiberStackBlock) : FiberStackBlock * FiberStackBlock :=
  (Block (allocation other) (stackBase other) (usableSize other) (allocationSize other)
     (backend other), clear).

(** Move assignment between distinct objects; [None] is [std::terminate]. *)
Definition move_assign (this other : FiberStackBlock) :
    option (FiberStackBlock * FiberStackBlock) :=
  if block_bool this then None
  else Some (Block (allocation other) (stackBase other) (usableSize other)
               (allocationSize other) (backend other), clear).

(** ** Size arithmetic; [None] is [throw std::bad_alloc()] *)

Definition from_option_throw {S A} (o : option A) : M S A :=
  match o with Some a => mret a | None => throw bad_alloc end.

Definition NormalizeMinimum (P : platform) (requestedSize : Z) : Z :=
  Z.max requestedSize (minimum_size P).

(** The loop [for (shift = 1; shift < 64; shift <<= 1) value |= value >> shift]. *)
Fixpoint smear_loop (fuel : nat) (shift value : Z) : Z :=
  match fuel with
  | O => value
  | S fuel' =>
      if shift <? 64
      then smear_loop fuel' (u64 (Z.shiftl shift 1)) (Z.lor value (Z.shiftr value shift))
      else value
  end.

Definition NextPowerOfTwo (value : Z) : option Z :=
  if value <=? 1 then Some 1
  else if value >? u64 (Z.shiftr SIZE_MAX 1 + 1) then None
  else
    let value := smear_loop 64 1 (u64 (value - 1)) in
    if value =? SIZE_MAX then None else Some (u64 (value + 1)).

Definition PageSize (P : platform) : option Z :=
  if sysconf_pagesize P <=? 0 then None else Some (u64 (sysconf_pagesize P)).

Definition AlignUp (value alignment : Z) : option Z :=
  if value >? u64 (SIZE_MAX - u64 (alignment - 1)) then None
  else Some (u64 (u64 (u64 (value + alignment) - 1) / alignment * alignment)).

Definition AllocateRaw (P : platform) (requestedSize : Z) : M heap FiberStackBlock :=
  let normalized := NormalizeMinimum P requestedSize in
  if guard_pages P then
    guardSize ← from_option_throw (PageSize P);
    usable ← from_option_throw (AlignUp normalized guardSize);
    if usable >? u64 (SIZE_MAX - guardSize) then throw bad_alloc
    else
      let allocSize := u64 (usable + guardSize) in
      a ← os_alloc allocSize;
      if a =? 0 then throw bad_alloc
      else
        rc ← os_answer;
        if negb (rc =? 0)
        then os_munmap a allocSize;; throw bad_alloc
        else mret (Block a (u64 (a + guardSize)) usable allocSize MMAP)
  else
    a ← os_alloc normalized;
    if a =? 0 then throw bad_alloc
    else mret (Block a a normalized normalized MALLOC).

(** [FreeRaw(block)]: frees the memory and leaves the argument cleared. *)
Definition FreeRaw (P : platform) (b : FiberStackBlock) : M heap FiberStackBlock :=
  if negb (block_bool b) then mret b
  else
    match backend b with
    | MMAP =>
        if guard_pages P
        then os_munmap (allocation b) (allocationSize b);; mret clear
        else stop Terminate
    | MALLOC => os_free (allocation b);; mret clear
    end.

(** [UpdatePeak]: the compare-exchange loop on the atomic [peak].  Each element
    of [failures] is one failed exchange: [None] a spurious failure, [Some v] a
    concurrent store of [v]; the exchange after the last one succeeds. *)
Fixpoint UpdatePeak (failures : list (option Z)) (peak observed value : Z) : Z :=
  if observed <? value then
    match failures with
    | [] => value
    | f :: rest => let now := default peak f in UpdatePeak rest now now value
    end
  else peak.

(** ** [FiberStackStats] and [StackPoolOptions] *)

Record FiberStackStats := Stats {
  acquireRequests : Z;
  cacheHits : Z;
  cacheMisses : Z;
  returns_ : Z;
  evictions : Z;
  passthroughAllocations : Z;
  systemAllocations : Z;
  systemFrees : Z;
  cachedBytes : Z;
  checkedOutBytes : Z;
  peakCheckedOutBytes : Z }.

Definition stats0 : FiberStackStats := Stats 0 0 0 0 0 0 0 0 0 0 0.

Definition bump (z : Z) : Z := u64 (z + 1).

Definition inc_acquireRequests (c : FiberStackStats) :=
  Stats (bump (acquireRequests c)) (cacheHits c) (cacheMisses c) (returns_ c) (evictions c)
    (passthroughAllocations c) (systemAllocations c) (systemFrees c) (cachedBytes c)
    (checkedOutBytes c) (peakCheckedOutBytes c).
Definition inc_cacheHits (c : FiberStackStats) :=
  Stats (acquireRequests c) (bump (cacheHits c)) (cacheMisses c) (returns_ c) (evictions c)
    (passthroughAllocations c) (systemAllocations c) (systemFrees c) (cachedBytes c)
    (checkedOutBytes c) (peakCheckedOutBytes c).
Definition inc_cacheMisses (c : FiberStackStats) :=
  Stats (acquireRequests c) (cacheHits c) (bump (cacheMisses c)) (returns_ c) (evictions c)
    (passthroughAllocations c) (systemAllocations c) (systemFrees c) (cachedBytes c)
    (checkedOutBytes c) (peakCheckedOutBytes c).
Definition inc_returns (c : FiberStackStats) :=
  Stats (acquireRequests c) (cacheHits c) (cacheMisses c) (bump (returns_ c)) (evictions c)
    (passthroughAllocations c) (systemAllocations c) (systemFrees c) (cachedBytes c)
    (checkedOutBytes c) (peakCheckedOutBytes c).
Definition inc_evictions (c : FiberStackStats) :=
  Stats (acquireRequests c) (cacheHits c) (cacheMisses c) (returns_ c) (bump (evictions c))
    (passthroughAllocations c) (systemAllocations c) (systemFrees c) (cachedBytes c)
    (checkedOutBytes c) (peakCheckedOutBytes c).
Definition inc_passthrough (c : FiberStackStats) :=
  Stats (acquireRequests c) (cacheHits c) (cacheMisses c) (returns_ c) (evictions c)
    (bump (passthroughAllocations c)) (systemAllocations c) (systemFrees c) (cachedBytes c)
    (checkedOutBytes c) (peakCheckedOutBytes c).
Definition inc_systemAllocations (c : FiberStackStats) :=
  Stats (acquireRequests c) (cacheHits c) (cacheMisses c) (returns_ c) (evictions c)
    (passthroughAllocations c) (bump (systemAllocations c)) (systemFrees c) (cachedBytes c)
    (checkedOutBytes c) (peakCheckedOutBytes c).
Definition inc_systemFrees (c : FiberStackStats) :=
  Stats (acquireRequests c) (cacheHits c) (cacheMisses c) (returns_ c) (evictions c)
    (passthroughAllocations c) (systemAllocations c) (bump (systemFrees c)) (cachedBytes c)
    (checkedOutBytes c) (peakCheckedOutBytes c).
Definition set_gauges (cached out peak : Z) (c : FiberStackStats) :=
  Stats (acquireRequests c) (cacheHits c) (cacheMisses c) (returns_ c) (evictions c)
    (passthroughAllocations c) (systemAllocations c) (systemFrees c) cached out peak.

Record StackPoolOptions := PoolOptions { maxCachedBytes : Z; maxPooledStackSize : Z }.

(** ** [DirectStackAllocator] *)

Module Direct.

(** [Impl] keeps the counters of [FiberStackStats] that apply to a
    pass-through allocator as atomics; the others stay 0. *)
Record impl := Impl { counters : FiberStackStats; mem : heap }.

Definition on_counters (f : FiberStackStats -> FiberStackStats) : M impl unit :=
  modify (fun s => Impl (f (counters s)) (mem s)).
Definition on_heap {A} (m : M heap A) : M impl A :=
  zoom mem (fun h s => Impl (counters s) h) m.

Definition init (h : heap) : impl := Impl stats0 h.

Definition acquire (P : platform) (failures : list (option Z)) (requestedSize : Z) :
    M impl FiberStackBlock :=
  on_counters inc_acquireRequests;;
  on_counters inc_cacheMisses;;
  on_counters inc_passthrough;;
  block ← on_heap (AllocateRaw P requestedSize);
  on_counters inc_systemAllocations;;
  c ← gets counters;
  let checkedOut := u64 (checkedOutBytes c + allocationSize block) in
  on_counters (set_gauges (cachedBytes c) checkedOut (peakCheckedOutBytes c));;
  on_counters (fun c => set_gauges (cachedBytes c) (checkedOutBytes c)
     (UpdatePeak failures (peakCheckedOutBytes c) (peakCheckedOutBytes c) checkedOut) c);;
  mret block.

Definition release (P : platform) (block : FiberStackBlock) : M impl unit :=
  if negb (block_bool block) then mret tt
  else
    on_counters inc_returns;;
    on_counters (fun c => set_gauges (cachedBytes c)
       (u64 (checkedOutBytes c - allocationSize block)) (peakCheckedOutBytes c) c);;
    on_heap (FreeRaw P block);;
    on_counters inc_systemFrees.

Definition trim (keepBytes : Z) : M impl unit := mret tt.

Definition stats : M impl FiberStackStats := gets counters.

Definition resetStats : M impl unit :=
  on_counters (fun c => set_gauges 0 (checkedOutBytes c) (checkedOutBytes c) stats0).

End Direct.

(** ** [PooledStackAllocator] *)

(** [std::map<size_t, std::vector<FiberStackBlock>>]: an association list whose
    keys increase. *)
Abbreviation freelists := (list (Z * list FiberStackBlock)).

Fixpoint fl_find (k : Z) (m : freelists) : option (list FiberStackBlock) :=
  match m with
  | [] => None
  | (k', v) :: m' => if k =? k' then Some v else fl_find k m'
  end.

(** [m\[k\]] as an lvalue: creates an empty vector, then updates in place. *)
Fixpoint fl_alter (k : Z) (f : list FiberStackBlock -> list FiberStackBlock) (m : freelists) :
    freelists :=
  match m with
  | [] => [(k, f [])]
  | (k', v) :: m' =>
      if k <? k' then (k, f []) :: m
      else if k =? k' then (k, f v) :: m'
      else (k', v) :: fl_alter k f m'
  end.

(** From [rbegin()], the first non-empty vector: its last block and the map
    without it. *)
Fixpoint fl_pop_largest (m : freelists) : option (FiberStackBlock * freelists) :=
  match m with
  | [] => None
  | (k, v) :: m' =>
      match fl_pop_largest m' with
      | Some (b, m'') => Some (b, (k, v) :: m'')
      | None =>
          match unsnoc v with
          | Some (v', b) => Some (b, (k, v') :: m')
          | None => None
          end
      end
  end.

Definition fl_blocks (m : freelists) : list FiberStackBlock := m ≫= snd.

Module Pooled.

Record impl := Impl {
  options : StackPoolOptions;
  freeLists : freelists;
  counters : FiberStackStats;
  failNextCacheInsert : bool;
  mem : heap }.

Definition set_counters (c : FiberStackStats) (s : impl) : impl :=
  Impl (options s) (freeLists s) c (failNextCacheInsert s) (mem s).
Definition set_freeLists (m : freelists) (s : impl) : impl :=
  Impl (options s) m (counters s) (failNextCacheInsert s) (mem s).
Definition set_fail (b : bool) (s : impl) : impl :=
  Impl (options s) (freeLists s) (counters s) b (mem s).
Definition set_mem (h : heap) (s : impl) : impl :=
  Impl (options s) (freeLists s) (counters s) (failNextCacheInsert s) h.

Definition on_counters (f : FiberStackStats -> FiberStackStats) : M impl unit :=
  modify (fun s => set_counters (f (counters s)) s).
Definition on_heap {A} (m : M heap A) : M impl A := zoom mem set_mem m.

Definition pooledSizeFor (P : platform) (requestedSize : Z) : option Z :=
  NextPowerOfTwo (NormalizeMinimum P requestedSize).

(** The constructor rounds the largest pooled size up to a size class. *)
Definition init (P : platform) (input : StackPoolOptions) (h : heap) : option impl :=
  if maxPooledStackSize input =? 0 then Some (Impl input [] stats0 false h)
  else
    m ← pooledSizeFor P (maxPooledStackSize input);
    Some (Impl (PoolOptions (maxCachedBytes input) m) [] stats0 false h).

Definition acquire_cacheable (o : StackPoolOptions) (pooledSize : Z) : bool :=
  negb (maxCachedBytes o =? 0) && negb (maxPooledStackSize o =? 0) &&
  (pooledSize <=? maxPooledStackSize o).

(** Move [allocationSize b] between the gauges and raise the peak. *)
Definition count_checkout (from_cache : bool) (b : FiberStackBlock) (c : FiberStackStats) :=
  let cached := if from_cache then u64 (cachedBytes c - allocationSize b) else cachedBytes c in
  let out := u64 (checkedOutBytes c + allocationSize b) in
  set_gauges cached out (Z.max (peakCheckedOutBytes c) out) c.

(** [acquire], first critical section: a cached block or a counted miss. *)
Definition acquire_lookup (pooledSize : Z) (cacheable : bool) : M impl (option FiberStackBlock) :=
  on_counters inc_acquireRequests;;
  s ← get;
  let hit :=
    if cacheable then
      v ← fl_find pooledSize (freeLists s);
      unsnoc v
    else None in
  match hit with
  | Some (v', block) =>
      modify (set_freeLists (fl_alter pooledSize (fun _ => v') (freeLists s)));;
      on_counters inc_cacheHits;;
      on_counters (count_checkout true block);;
      mret (Some block)
  | None =>
      on_counters inc_cacheMisses;;
      (if negb cacheable then on_counters inc_passthrough else mret tt);;
      mret None
  end.

(** [acquire], second critical section: count the system allocation. *)
Definition acquire_account (block : FiberStackBlock) : M impl unit :=
  on_counters inc_systemAllocations;;
  on_counters (count_checkout false block).

Definition acquire (P : platform) (requestedSize : Z) : M impl FiberStackBlock :=
  pooledSize ← from_option_throw (pooledSizeFor P requestedSize);
  o ← gets options;
  let cacheable := acquire_cacheable o pooledSize in
  found ← acquire_lookup pooledSize cacheable;
  match found with
  | Some block => mret block
  | None =>
      block ← on_heap (AllocateRaw P (if cacheable then pooledSize else requestedSize));
      acquire_account block;;
      mret block
  end.

Definition release_cacheable (s : impl) (classSize allocSize : Z) : bool :=
  let o := options s in
  let c := counters s in
  negb (maxCachedBytes o =? 0) && negb (classSize =? 0) &&
  (Z.land classSize (u64 (classSize - 1)) =? 0) &&
  (classSize <=? maxPooledStackSize o) &&
  (cachedBytes c <=? maxCachedBytes o) &&
  (allocSize <=? u64 (maxCachedBytes o - cachedBytes c)).

(** [freeLists\[classSize\].push_back(std::move(block))] with the test hook in
    front.  The answer 0 stands for a successful insertion; 1 for a failure to
    create the map node, anything else for a failure to grow the vector. *)
Definition cache_insert (block : FiberStackBlock) : M impl unit :=
  s ← get;
  if failNextCacheInsert s
  then modify (set_fail false);; throw bad_alloc
  else
    rc ← on_heap os_answer;
    if rc =? 1 then throw bad_alloc
    else if negb (rc =? 0)
    then modify (fun s => set_freeLists (fl_alter (usableSize block) id (freeLists s)) s);;
         throw bad_alloc
    else modify (fun s =>
           set_freeLists (fl_alter (usableSize block) (fun v => v ++ [block]) (freeLists s)) s).

(** [release], first critical section, up to the [checkedOutBytes] test. *)
Definition release_uncount (block : FiberStackBlock) : M impl unit :=
  let allocSize := allocationSize block in
  on_counters inc_returns;;
  c ← gets counters;
  if checkedOutBytes c >=? allocSize
  then on_counters (fun c => set_gauges (cachedBytes c) (u64 (checkedOutBytes c - allocSize))
                               (peakCheckedOutBytes c) c)
  else stop Terminate.

(** [release], first critical section, the caching attempt: whether it worked. *)
Definition release_cache (block : FiberStackBlock) : M impl bool :=
  let classSize := usableSize block in
  let allocSize := allocationSize block in
  s ← get;
  cached ← (if release_cacheable s classSize allocSize
            then try_catch
                   (cache_insert block;;
                    on_counters (fun c => set_gauges (u64 (cachedBytes c + allocSize))
                                   (checkedOutBytes c) (peakCheckedOutBytes c) c);;
                    mret true)
                   (fun _ => mret false)
            else mret false);
  (if negb cached then on_counters inc_evictions else mret tt);;
  mret cached.

Definition release_section (block : FiberStackBlock) : M impl bool :=
  release_uncount block;; release_cache block.

Definition release (P : platform) (block : FiberStackBlock) : M impl unit :=
  if negb (block_bool block) then mret tt
  else
    cached ← release_section block;
    if negb cached
    then on_heap (FreeRaw P block);; on_counters inc_systemFrees
    else mret tt.

(** [trim], the critical section of one round: the victim, or the loop exit. *)
Definition trim_pick (keepBytes : Z) : M impl (option FiberStackBlock) :=
  s ← get;
  if cachedBytes (counters s) <=? keepBytes then mret None
  else
    match fl_pop_largest (freeLists s) with
    | None => mret None
    | Some (victim, m) =>
        modify (set_freeLists m);;
        on_counters (fun c => set_gauges (u64 (cachedBytes c - allocationSize victim))
                       (checkedOutBytes c) (peakCheckedOutBytes c) c);;
        on_counters inc_evictions;;
        mret (Some victim)
    end.

Fixpoint trim_loop (P : platform) (fuel : nat) (keepBytes : Z) : M impl unit :=
  match fuel with
  | O => mret tt
  | S fuel' =>
      victim ← trim_pick keepBytes;
      match victim with
      | None => mret tt
      | Some b =>
          on_heap (FreeRaw P b);;
          on_counters inc_systemFrees;;
          trim_loop P fuel' keepBytes
      end
  end.

(** Each round removes a cached block, so their number bounds the rounds. *)
Definition trim (P : platform) (keepBytes : Z) : M impl unit :=
  s ← get;
  trim_loop P (S (length (fl_blocks (freeLists s)))) keepBytes.

Definition stats : M impl FiberStackStats := gets counters.

Definition resetStats : M impl unit :=
  on_counters (fun c =>
    set_gauges (cachedBytes c) (checkedOutBytes c) (checkedOutBytes c) stats0).

Definition failNextCacheInsertForTesting : M impl unit := modify (set_fail true).

(** The destructor empties the cache. *)
Definition destroy (P : platform) : M impl unit := trim P 0.

End Pooled.

(** ** The abstract allocator

    [class FiberStackAllocator]: the operations a fiber and a scheduler use.
    [beforeContextCreate] does nothing in the base class. *)
Record FiberStackAllocator (S : Type) := Allocator {
  sa_acquire : Z -> M S FiberStackBlock;
  sa_release : FiberStackBlock -> M S unit;
  sa_beforeContextCreate : FiberStackBlock -> M S unit;
  sa_trim : Z -> M S unit;
  sa_stats : M S FiberStackStats;
  sa_resetStats : M S unit }.
Arguments sa_acquire {S}.
Arguments sa_release {S}.
Arguments sa_beforeContextCreate {S}.
Arguments sa_trim {S}.
Arguments sa_stats {S}.
Arguments sa_resetStats {S}.

Definition DirectStackAllocator (P : platform) : FiberStackAllocator Direct.impl :=
  Allocator _ (Direct.acquire P []) (Direct.release P) (fun _ => mret tt) Direct.trim
    Direct.stats Direct.resetStats.

Definition PooledStackAllocator (P : platform) : FiberStackAllocator Pooled.impl :=
  Allocator _ (Pooled.acquire P) (Pooled.release P) (fun _ => mret tt) (Pooled.trim P)
    Pooled.stats Pooled.resetStats.

(** ** Threads sharing one pool

    Between two critical sections a thread holds the block it allocated or is
    about to free; nothing else of it matters to the pool. *)
Inductive in_transit : Type :=
| Allocating (size : Z)          (* counted a miss, about to call AllocateRaw *)
| Allocated (b : FiberStackBlock)  (* AllocateRaw returned, not yet counted *)
| Evicting (b : FiberStackBlock)   (* uncounted, about to call FreeRaw *)
| Evicted.                       (* freed, about to count the free *)

(** The pool, the blocks its clients hold and the threads between sections. *)
Record world := World {
  w_pool : Pooled.impl;
  w_out : list FiberStackBlock;
  w_transit : list in_transit }.

Inductive pool_step (P : platform) : world -> world -> Prop :=
| step_hit s out tr requested pooled b s' :
    0 <= requested < 2 ^ 64 ->
    Pooled.pooledSizeFor P requested = Some pooled ->
    Pooled.acquire_lookup pooled (Pooled.acquire_cacheable (Pooled.options s) pooled) s
      = Ret (Some b) s' ->
    pool_step P (World s out tr) (World s' (b :: out) tr)
| step_miss s out tr requested pooled cacheable s' :
    0 <= requested < 2 ^ 64 ->
    Pooled.pooledSizeFor P requested = Some pooled ->
    cacheable = Pooled.acquire_cacheable (Pooled.options s) pooled ->
    Pooled.acquire_lookup pooled cacheable s = Ret None s' ->
    pool_step P (World s out tr)
      (World s' out (Allocating (if cacheable then pooled else requested) :: tr))
| step_alloc s out tr size rest b s' :
    tr ≡ₚ Allocating size :: rest ->
    Pooled.on_heap (AllocateRaw P size) s = Ret b s' ->
    pool_step P (World s out tr) (World s' out (Allocated b :: rest))
| step_alloc_fail s out tr size rest e s' :
    tr ≡ₚ Allocating size :: rest ->
    Pooled.on_heap (AllocateRaw P size) s = Throw e s' ->
    pool_step P (World s out tr) (World s' out rest)
| step_account s out tr b rest s' :
    tr ≡ₚ Allocated b :: rest ->
    Pooled.acquire_account b s = Ret tt s' ->
    pool_step P (World s out tr) (World s' (b :: out) rest)
| step_release_cached s out tr b out' s' :
    out ≡ₚ b :: out' ->
    Pooled.release_section b s = Ret true s' ->
    pool_step P (World s out tr) (World s' out' tr)
| step_release_evict s out tr b out' s' :
    out ≡ₚ b :: out' ->
    Pooled.release_section b s = Ret false s' ->
    pool_step P (World s out tr) (World s' out' (Evicting b :: tr))
| step_trim s out tr keep b s' :
    Pooled.trim_pick keep s = Ret (Some b) s' ->
    pool_step P (World s out tr) (World s' out (Evicting b :: tr))
| step_free s out tr b rest s' :
    tr ≡ₚ Evicting b :: rest ->
    Pooled.on_heap (FreeRaw P b) s = Ret clear s' ->
    pool_step P (World s out tr) (World s' out (Evicted :: rest))
| step_freed s out tr rest s' :
    tr ≡ₚ Evicted :: rest ->
    Pooled.on_counters inc_systemFrees s = Ret tt s' ->
    pool_step P (World s out tr) (World s' out rest)
| step_reset s out tr s' :
    Pooled.resetStats s = Ret tt s' ->
    pool_step P (World s out tr) (World s' out tr)
| step_fail_next s out tr s' :
    Pooled.failNextCacheInsertForTesting s = Ret tt s' ->
    pool_step P (World s out tr) (World s' out tr).
