(* ===== verification/StackAllocatorProofs.v ===== *)
(** * Correctness of the fiber stack allocators

    Size-class rounding, the raw layer, the pool's invariant under every
    interleaving of its critical sections, and the contract both allocators
    offer to a fiber. *)

From stdpp Require Import sorting.
From S2P Require Import Prelude StackAllocator.

(** ** Rounding to a power of two *)

(** [w] has bit [i] exactly when [v] has one of the bits [i .. i+s-1]. *)
Definition smeared (s v w : Z) : Prop :=
  forall i, 0 <= i -> Z.testbit w i = true <-> exists j, 0 <= j < s /\ Z.testbit v (i + j) = true.

Lemma smeared_1 v : smeared 1 v v.
Proof.
  intros i Hi. split.
  - intros H. exists 0. rewrite Z.add_0_r. split; [lia|done].
  - intros (j & Hj & H). by replace j with 0 in H by lia; rewrite Z.add_0_r in H.
Qed.

Lemma smeared_double s v w :
  0 < s -> smeared s v w -> smeared (2 * s) v (Z.lor w (Z.shiftr w s)).
Proof.
  intros Hs H i Hi. rewrite Z.lor_spec, Z.shiftr_spec, orb_true_iff by lia.
  rewrite (H i) by lia. rewrite (H (i + s)) by lia. split.
  - intros [(j & Hj & E)|(j & Hj & E)].
    + exists j. split; [lia|done].
    + exists (s + j). split; [lia|]. by rewrite Z.add_assoc.
  - intros (j & Hj & E). destruct (Z.lt_ge_cases j s).
    + left. exists j. split; [lia|done].
    + right. exists (j - s). split; [lia|]. by replace (i + s + (j - s)) with (i + j) by lia.
Qed.

Lemma smear_loop_smeared v : smeared 64 v (smear_loop 64 1 v).
Proof.
  pose (st s w := Z.lor w (Z.shiftr w s)).
  change (smear_loop 64 1 v) with (st 32 (st 16 (st 8 (st 4 (st 2 (st 1 v)))))).
  assert (H : forall s w, 0 < s -> smeared s v w -> smeared (2 * s) v (st s w)).
  { intros. by apply smeared_double. }
  apply (H 32), (H 16), (H 8), (H 4), (H 2), (H 1); try lia. apply smeared_1.
Qed.

Lemma smeared_ones v w : 0 < v < 2 ^ 64 -> 0 <= w -> smeared 64 v w -> w = 2 ^ (Z.log2 v + 1) - 1.
Proof.
  intros Hv Hw H.
  assert (Z.log2 v < 64) by (apply Z.log2_lt_pow2; lia).
  pose proof (Z.log2_nonneg v).
  rewrite Z.sub_1_r, <- Z.ones_equiv. apply Z.bits_inj'. intros i Hi.
  apply eq_true_iff_eq. rewrite (H i Hi), Z.ones_spec_iff by lia. split.
  - intros (j & Hj & E). split; [lia|]. destruct (Z.le_gt_cases (i + j) (Z.log2 v)); [lia|].
    rewrite Z.bits_above_log2 in E by lia. done.
  - intros. exists (Z.log2 v - i). split; [lia|].
    replace (i + (Z.log2 v - i)) with (Z.log2 v) by lia. apply Z.bit_log2. lia.
Qed.

Lemma smear_loop_nonneg fuel s v : 0 <= v -> 0 <= smear_loop fuel s v.
Proof.
  revert s v. induction fuel as [|fuel IH]; intros s v Hv; simpl; [done|].
  case_match; [|done]. apply IH. apply Z.lor_nonneg. split; [done|]. by apply Z.shiftr_nonneg.
Qed.

Lemma NextPowerOfTwo_one v : v <= 1 -> NextPowerOfTwo v = Some 1.
Proof.
  intros. unfold NextPowerOfTwo.
  by replace (v <=? 1) with true by (symmetry; apply Z.leb_le; lia).
Qed.

Lemma NextPowerOfTwo_small v : 1 < v <= 2 ^ 63 -> NextPowerOfTwo v = Some (2 ^ Z.log2_up v).
Proof.
  intros Hv. unfold NextPowerOfTwo.
  replace (v <=? 1) with false by (symmetry; apply Z.leb_gt; lia).
  change (u64 (Z.shiftr SIZE_MAX 1 + 1)) with (2 ^ 63). rewrite Z.gtb_ltb.
  replace (2 ^ 63 <? v) with false by (symmetry; apply Z.ltb_ge; lia).
  rewrite u64_small by lia.
  rewrite (smeared_ones (v - 1) (smear_loop 64 1 (v - 1)))
    by (auto using smear_loop_smeared, smear_loop_nonneg with lia).
  assert (Hl : Z.log2 (v - 1) + 1 = Z.log2_up v).
  { rewrite Z.log2_up_eqn by lia. rewrite Z.sub_1_r. lia. }
  rewrite Hl.
  assert (Z.log2_up v <= 63).
  { apply (Z.log2_up_le_pow2 v 63); lia. }
  pose proof (Z.log2_up_nonneg v).
  assert (2 ^ Z.log2_up v <= 2 ^ 63) by (apply Z.pow_le_mono_r; lia).
  assert (0 < 2 ^ Z.log2_up v) by (apply Z.pow_pos_nonneg; lia).
  replace (_ =? SIZE_MAX) with false.
  2: { symmetry. apply Z.eqb_neq. unfold SIZE_MAX, UINT64_MAX. lia. }
  f_equal. rewrite ?zsum_cons, u64_small; lia.
Qed.

Lemma NextPowerOfTwo_large v : 2 ^ 63 < v -> NextPowerOfTwo v = None.
Proof.
  intros Hv. unfold NextPowerOfTwo.
  replace (v <=? 1) with false by (symmetry; apply Z.leb_gt; lia).
  change (u64 (Z.shiftr SIZE_MAX 1 + 1)) with (2 ^ 63). rewrite Z.gtb_ltb.
  by replace (2 ^ 63 <? v) with true by (symmetry; apply Z.ltb_lt; lia).
Qed.

Lemma NextPowerOfTwo_le v p : NextPowerOfTwo v = Some p -> v <= p /\ 0 < p <= 2 ^ 63.
Proof.
  intros H. destruct (Z.le_gt_cases v 1).
  { rewrite NextPowerOfTwo_one in H by done. simplify_eq. lia. }
  destruct (Z.le_gt_cases v (2 ^ 63)).
  - rewrite NextPowerOfTwo_small in H by lia. simplify_eq.
    assert (Z.log2_up v <= 63) by (apply (Z.log2_up_le_pow2 v 63); lia).
    pose proof (Z.log2_up_spec v ltac:(lia)).
    assert (2 ^ Z.log2_up v <= 2 ^ 63) by (apply Z.pow_le_mono_r; lia). lia.
  - by rewrite NextPowerOfTwo_large in H.
Qed.

(** [NextPowerOfTwo] returns the least power of two that is at least its
    argument, for every argument up to [2^63], and throws [std::bad_alloc] for
    every larger [size_t]; the bit-smearing loop is thereby equivalent to the
    rounding it optimises. *)
Theorem NextPowerOfTwo_spec (v : Z) :
  0 <= v < 2 ^ 64 ->
  match NextPowerOfTwo v with
  | Some p => v <= p /\ (exists k, 0 <= k <= 63 /\ p = 2 ^ k) /\
              (forall k, 0 <= k -> v <= 2 ^ k -> p <= 2 ^ k)
  | None => 2 ^ 63 < v
  end.
Proof.
  intros Hv. destruct (Z.le_gt_cases v 1) as [Hs|Hs].
  { rewrite NextPowerOfTwo_one by done. split; [lia|split].
    - exists 0. split; [lia|done].
    - intros k Hk _. pose proof (Z.pow_pos_nonneg 2 k ltac:(lia) Hk). lia. }
  destruct (Z.le_gt_cases v (2 ^ 63)) as [Hb|Hb]; [|by rewrite NextPowerOfTwo_large].
  rewrite NextPowerOfTwo_small by lia.
  pose proof (Z.log2_up_spec v ltac:(lia)). split; [lia|split].
  - exists (Z.log2_up v). split; [|done]. split; [apply Z.log2_up_nonneg|].
    apply (Z.log2_up_le_pow2 v 63); lia.
  - intros k Hk Hle. apply Z.pow_le_mono_r; [lia|]. apply Z.log2_up_le_pow2; lia.
Qed.

Lemma NextPowerOfTwo_spec_witness :
  NextPowerOfTwo 131073 = Some 262144 /\
  (forall k, 0 <= k -> 131073 <= 2 ^ k -> 262144 <= 2 ^ k).
Proof.
  split; [vm_compute; reflexivity|].
  assert (H : 0 <= 131073 < 2 ^ 64) by lia.
  exact (proj2 (proj2 (NextPowerOfTwo_spec 131073 H))).
Defined.

(** ** The heap: disjoint ranges *)

Fixpoint disjoint_all (l : list (Z * Z)) : Prop :=
  match l with
  | [] => True
  | r :: l' => Forall (fun r' => disjoint_range r r' = true) l' /\ disjoint_all l'
  end.

Definition range_ok (r : Z * Z) : Prop := 0 < r.1 /\ 0 < r.2 /\ r.1 + r.2 < 2 ^ 64.

Definition heap_ok (l : list (Z * Z)) : Prop := Forall range_ok l /\ disjoint_all l.

Lemma disjoint_range_sym r1 r2 : disjoint_range r1 r2 = disjoint_range r2 r1.
Proof. unfold disjoint_range. apply orb_comm. Qed.

Lemma disjoint_all_Permutation l1 l2 : l1 ≡ₚ l2 -> disjoint_all l1 -> disjoint_all l2.
Proof.
  induction 1 as [|x l1 l2 Hp IH|x y l|l1 l2 l3 _ IH1 _ IH2]; simpl; auto.
  - intros [H1 H2]. split; [|auto]. rewrite Forall_forall in *. intros y Hy.
    apply H1. by rewrite Hp.
  - rewrite !Forall_cons. intros [[H1 H2] [H3 H4]]. rewrite disjoint_range_sym. auto.
Qed.

Lemma heap_ok_Permutation l1 l2 : l1 ≡ₚ l2 -> heap_ok l1 -> heap_ok l2.
Proof.
  intros Hp [H1 H2]. split; [|by eapply disjoint_all_Permutation].
  rewrite Forall_forall in *. intros x Hx. apply H1. by rewrite Hp.
Qed.

#[export] Instance heap_ok_proper : Proper ((≡ₚ) ==> iff) heap_ok.
Proof. intros l1 l2 Hp. split; apply heap_ok_Permutation; by rewrite Hp. Qed.

Lemma disjoint_all_filter (P : Z * Z -> Prop) `{!forall x, Decision (P x)} l :
  disjoint_all l -> disjoint_all (filter P l).
Proof.
  induction l as [|r l IH]; [done|]. intros [H1 H2].
  rewrite filter_cons. case_decide; [|auto]. split; [|auto].
  apply Forall_forall. intros x [_ Hx]%list_elem_of_filter.
  rewrite Forall_forall in H1. by apply H1.
Qed.

(** Disjoint ranges inside an interval have total size at most its length. *)
Lemma disjoint_sum n l lo hi :
  (length l <= n)%nat -> lo <= hi ->
  Forall (fun r => lo <= r.1 /\ 0 <= r.2 /\ r.1 + r.2 <= hi) l ->
  disjoint_all l -> zsum snd l <= hi - lo.
Proof.
  revert l lo hi. induction n as [|n IH]; intros [|[a m] l] lo hi Hlen Hle HF HD;
    simpl in *; try lia; try (unfold zsum; simpl; lia).
  rewrite zsum_cons. simpl. apply Forall_cons in HF as [Hr HF]. destruct HD as [HD1 HD2]. simpl in *.
  rewrite Forall_forall in HF, HD1.
  pose (L := fun r : Z * Z => r.1 + r.2 <= a).
  rewrite <- (filter_app_complement L l) at 1. rewrite zsum_app.
  assert (zsum snd (filter L l) <= a - lo).
  { apply IH; try lia.
    - etrans; [apply length_filter|]. lia.
    - apply Forall_forall. intros x [Hx Hin]%list_elem_of_filter. specialize (HF x Hin).
      unfold L in Hx. lia.
    - by apply disjoint_all_filter. }
  assert (zsum snd (filter (fun x => ~ L x) l) <= hi - (a + m)).
  { apply IH; try lia.
    - etrans; [apply length_filter|]. lia.
    - apply Forall_forall. intros x [Hx Hin]%list_elem_of_filter. specialize (HF x Hin).
      specialize (HD1 x Hin). unfold L in Hx. unfold disjoint_range in HD1. simpl in HD1.
      apply orb_true_iff in HD1 as [HD1|HD1]; apply Z.leb_le in HD1; lia.
    - by apply disjoint_all_filter. }
  lia.
Qed.

Lemma heap_ok_sum l : heap_ok l -> zsum snd l < 2 ^ 64.
Proof.
  intros [H1 H2]. enough (zsum snd l <= 2 ^ 64 - 1) by lia.
  apply (disjoint_sum (length l) l 1 (2 ^ 64)); try lia; [|done].
  eapply Forall_impl; [exact H1|]. intros [a n]. unfold range_ok. simpl. lia.
Qed.

Lemma fits_heap_ok a n l : heap_ok l -> fits a n l = true -> heap_ok ((a, n) :: l).
Proof.
  intros [H1 H2] HF. unfold fits in HF. to_prop. split.
  - constructor; [|done]. unfold range_ok. simpl. lia.
  - simpl. split; [|done]. apply Forall_forall. intros r Hr.
    by eapply forallb_forall; [|apply list_elem_of_In].
Qed.

Lemma remove_range_Some p l l' :
  remove_range p l = Some l' -> exists r, p r = true /\ l ≡ₚ r :: l'.
Proof.
  revert l'. induction l as [|r l IH]; intros l' H; simpl in H; [done|].
  destruct (p r) eqn:E; [simplify_eq; eauto|].
  apply fmap_Some in H as (l2 & H & ->). destruct (IH _ H) as (x & Hx & Hp).
  exists x. split; [done|]. rewrite Hp. apply Permutation_swap.
Qed.

Lemma remove_range_exists p l r : r ∈ l -> p r = true -> is_Some (remove_range p l).
Proof.
  intros Hr Hp. induction Hr as [l|x y l _ IH]; simpl; [by rewrite Hp|].
  destruct (p y) eqn:E; [eauto|]. rewrite fmap_is_Some. by apply IH.
Qed.

(** Releasing a live range by a test that at most its address passes. *)
Lemma os_release_spec p l r ans :
  heap_ok l -> r ∈ l -> p r = true -> (forall x, p x = true -> x.1 = r.1) ->
  exists l', os_release p (Heap l ans) = Ret tt (Heap l' ans) /\ l ≡ₚ r :: l'.
Proof.
  intros Hok Hr Hp Hinj. destruct (remove_range_exists p l r Hr Hp) as [l' Hl'].
  exists l'. unfold os_release. simpl. rewrite Hl'. split; [done|].
  apply remove_range_Some in Hl' as (x & Hx & Hperm).
  enough (x = r) by congruence. specialize (Hinj x Hx).
  rewrite Hperm in Hr. apply elem_of_cons in Hr as [->|Hr]; [done|].
  rewrite Hperm in Hok. destruct Hok as [HR HD].
  apply Forall_cons in HR as [Hx1 HR]. rewrite Forall_forall in HR.
  specialize (HR r Hr). destruct HD as [HD _]. rewrite Forall_forall in HD.
  specialize (HD r Hr). unfold disjoint_range in HD. unfold range_ok in *.
  apply orb_true_iff in HD as [H%Z.leb_le|H%Z.leb_le]; lia.
Qed.

(** ** The raw layer *)

(** What the code relies on of the platform: a positive minimum stack size
    and a page size that fits a [long]. *)
Definition platform_ok (P : platform) : Prop :=
  0 < minimum_size P < 2 ^ 64 /\ sysconf_pagesize P < 2 ^ 63.

Definition range (b : FiberStackBlock) : Z * Z := (allocation b, allocationSize b).

Definition guard_size (P : platform) : Z := if guard_pages P then sysconf_pagesize P else 0.

(** A block describes its allocation: the usable part is the upper end, above
    the guard page when there is one. *)
Record wf_block (P : platform) (b : FiberStackBlock) : Prop := {
  wf_range : range_ok (range b);
  wf_usable : 0 < usableSize b;
  wf_guard : 0 <= guard_size P;
  wf_size : allocationSize b = usableSize b + guard_size P;
  wf_base : stackBase b = allocation b + guard_size P;
  wf_backend : backend b = if guard_pages P then MMAP else MALLOC }.

Lemma AlignUp_spec v a r :
  0 <= v < 2 ^ 64 -> 0 < a < 2 ^ 63 -> AlignUp v a = Some r ->
  v <= r < v + a /\ r mod a = 0 /\ r < 2 ^ 64.
Proof.
  unfold AlignUp. intros Hv Ha H.
  rewrite (u64_small (a - 1)) in H by lia. unfold SIZE_MAX, UINT64_MAX in H.
  rewrite (u64_small (2 ^ 64 - 1 - (a - 1))) in H by lia.
  case_match eqn:E; to_prop; [done|]. simplify_eq.
  rewrite u64_sub_l. rewrite (u64_small (v + a - 1)) by lia.
  pose proof (Z.div_mod (v + a - 1) a ltac:(lia)) as Hd.
  pose proof (Z.mod_pos_bound (v + a - 1) a ltac:(lia)) as Hm.
  rewrite u64_small by nia. split; [nia|]. split; [|nia]. apply Z.mod_mul. lia.
Qed.

Lemma os_alloc_spec n h :
  heap_ok (live h) ->
  exists a h', os_alloc n h = Ret a h' /\
    (a = 0 /\ live h' = live h \/
     a <> 0 /\ live h' = (a, n) :: live h /\ heap_ok (live h')).
Proof.
  intros Hok. unfold os_alloc, mbind, M_bind, get, modify, mret, M_ret.
  assert (exists a h1, os_answer h = Ret a h1 /\ live h1 = live h) as (a & h1 & -> & Hl).
  { unfold os_answer. destruct (answers h); eauto. }
  simpl. destruct (fits a n (live h1)) eqn:E.
  - eexists a, _. split; [done|]. right. simpl. rewrite Hl in *.
    assert (0 < a) by (unfold fits in E; to_prop; lia).
    split; [lia|]. split; [done|]. by apply fits_heap_ok.
  - exists 0, h1. auto.
Qed.

Lemma os_answer_spec h : exists a h', os_answer h = Ret a h' /\ live h' = live h.
Proof. unfold os_answer. destruct (answers h); eauto. Qed.

(** [AllocateRaw] yields a fresh well-formed block at least as large as asked,
    or throws [std::bad_alloc] and leaks nothing. *)
Lemma AllocateRaw_spec P r h :
  platform_ok P -> 0 <= r < 2 ^ 64 -> heap_ok (live h) ->
  match AllocateRaw P r h with
  | Ret b h' => live h' = range b :: live h /\ heap_ok (live h') /\ wf_block P b /\
                NormalizeMinimum P r <= usableSize b /\
                (guard_pages P = false -> usableSize b = NormalizeMinimum P r) /\
                (guard_pages P = true -> usableSize b mod sysconf_pagesize P = 0 /\
                   usableSize b < NormalizeMinimum P r + sysconf_pagesize P)
  | Throw e h' => e = bad_alloc /\ live h' ≡ₚ live h
  | Crash _ => False
  end.
Proof.
  intros [Hmin Hpage] Hr Hok. unfold AllocateRaw.
  set (nz := NormalizeMinimum P r).
  assert (Hnz : 0 < nz < 2 ^ 64) by (unfold nz, NormalizeMinimum; lia). clearbody nz.
  unfold mbind, M_bind, mret, M_ret, throw. destruct (guard_pages P) eqn:EG.
  - unfold PageSize. destruct (sysconf_pagesize P <=? 0) eqn:EP; to_prop; simpl; [done|].
    rewrite u64_small by lia. destruct (AlignUp nz _) as [us|] eqn:EA; simpl; [|done].
    apply AlignUp_spec in EA as (HA1 & HA2 & HA3); [|lia..].
    unfold SIZE_MAX, UINT64_MAX. rewrite (u64_small (2 ^ 64 - 1 - _)) by lia.
    destruct (us >? _) eqn:EM; to_prop; [done|]. rewrite (u64_small (us + _)) by lia.
    destruct (os_alloc_spec (us + sysconf_pagesize P) h Hok) as (a & h1 & -> & Ha).
    destruct Ha as [[-> Hl]|(Ha & Hl & Hok1)]; simpl; [by rewrite Hl|].
    destruct (a =? 0) eqn:E0; to_prop; [done|].
    destruct (os_answer_spec h1) as (rc & h2 & -> & Hl2).
    destruct (negb (rc =? 0)).
    + destruct h2 as [l2 ans2]. simpl in Hl2. subst l2.
      destruct (os_release_spec
        (fun x => (x.1 =? a) && (x.2 =? us + sysconf_pagesize P)) (live h1)
        (a, us + sysconf_pagesize P) ans2) as (l' & Hrel & Hp); [done| | | |].
      * rewrite Hl. left.
      * simpl. by rewrite !Z.eqb_refl.
      * intros x Hx. by to_prop.
      * unfold os_munmap. rewrite Hrel. simpl. split; [done|].
        rewrite Hl in Hp. by apply Permutation_cons_inv in Hp.
    + assert (Hra : range_ok (a, us + sysconf_pagesize P)).
      { rewrite Hl in Hok1. destruct Hok1 as [Hf _]. by inversion Hf. }
      unfold range_ok in Hra; simpl in Hra. rewrite Hl2.
      split; [done|]. split; [done|]. split; [|simpl; split; [lia|split; [done|]]; by split; [|lia]].
      constructor; simpl; unfold guard_size; rewrite ?EG; try done; try lia.
      rewrite ?zsum_cons, u64_small; lia.
  - destruct (os_alloc_spec nz h Hok) as (a & h1 & -> & Ha).
    destruct Ha as [[-> Hl]|(Ha & Hl & Hok1)]; simpl; [by rewrite Hl|].
    destruct (a =? 0) eqn:E0; to_prop; [done|].
    assert (Hra : range_ok (a, nz)).
    { rewrite Hl in Hok1. destruct Hok1 as [Hf _]. by inversion Hf. }
    unfold range_ok in Hra; simpl in Hra.
    split; [done|]. split; [done|]. split; [|split; simpl; [lia|done]].
    constructor; simpl; unfold guard_size; rewrite ?EG; try done; lia.
Qed.

(** [FreeRaw] of a live well-formed block frees exactly its range. *)
Lemma FreeRaw_spec P b h :
  heap_ok (live h) -> wf_block P b -> range b ∈ live h ->
  exists h', FreeRaw P b h = Ret clear h' /\ live h ≡ₚ range b :: live h'.
Proof.
  intros Hok Hwf Hin. destruct h as [l ans]. simpl in *.
  pose proof (wf_range _ _ Hwf) as (Ha & _). simpl in Ha.
  unfold FreeRaw. unfold block_bool.
  replace (allocation b =? 0) with false by (symmetry; apply Z.eqb_neq; lia). simpl.
  rewrite (wf_backend _ _ Hwf). destruct (guard_pages P) eqn:EG.
  - destruct (os_release_spec (fun r => (r.1 =? allocation b) && (r.2 =? allocationSize b))
      l (range b) ans) as (l' & Hrel & Hp); [done|done| | |].
    + simpl. by rewrite !Z.eqb_refl.
    + intros x Hx. by to_prop.
    + exists (Heap l' ans). split; [|done]. unfold mbind, M_bind, os_munmap. by rewrite Hrel.
  - destruct (os_release_spec (fun r => r.1 =? allocation b) l (range b) ans)
      as (l' & Hrel & Hp); [done|done| | |].
    + simpl. by rewrite Z.eqb_refl.
    + intros x Hx. by to_prop.
    + exists (Heap l' ans). split; [|done]. unfold mbind, M_bind, os_free. by rewrite Hrel.
Qed.

(** ** The free lists *)

Definition keys (m : freelists) : list Z := m.*1.
Definition keys_sorted (m : freelists) : Prop := StronglySorted Z.lt (keys m).

(** Every cached block sits in the class of its usable size, and a class that
    holds a block is a power of two of at most [limit] bytes. *)
Definition class_ok (limit : Z) (kv : Z * list FiberStackBlock) : Prop :=
  Forall (fun b => usableSize b = kv.1 /\ Z.land kv.1 (kv.1 - 1) = 0 /\ kv.1 <= limit) kv.2.

Definition fl_ok (limit : Z) (m : freelists) : Prop :=
  keys_sorted m /\ Forall (class_ok limit) m.

Lemma keys_fl_alter k f m x : x ∈ keys (fl_alter k f m) -> x = k \/ x ∈ keys m.
Proof.
  induction m as [|[k' v] m IH]; simpl; [set_solver|].
  destruct (k <? k'); simpl; [rewrite !elem_of_cons; tauto|].
  destruct (k =? k') eqn:E; to_prop; subst; simpl; rewrite !elem_of_cons; tauto.
Qed.

Lemma keys_sorted_alter k f m : keys_sorted m -> keys_sorted (fl_alter k f m).
Proof.
  unfold keys_sorted. induction m as [|[k' v] m IH]; simpl; intros H.
  - repeat constructor.
  - apply StronglySorted_inv in H as [H1 H2].
    destruct (k <? k') eqn:E1; to_prop.
    + constructor; [by constructor|]. constructor; [done|].
      eapply Forall_impl; [exact H2|]. intros ? ?; simpl in *; lia.
    + destruct (k =? k') eqn:E2; to_prop; [subst; by constructor|].
      constructor; [by apply IH|]. apply Forall_forall. intros x Hx.
      apply keys_fl_alter in Hx as [->|Hx]; [simpl; lia|]. rewrite Forall_forall in H2. by apply H2.
Qed.

Lemma fl_find_above k m : Forall (Z.lt k) (keys m) -> fl_find k m = None.
Proof.
  induction m as [|[k' v] m IH]; simpl; [done|]. intros [H1 H2]%Forall_cons.
  destruct (k =? k') eqn:E; to_prop; [lia|auto].
Qed.

(** [m\[k\]] updates one class and leaves the other blocks. *)
Lemma fl_blocks_alter k m :
  keys_sorted m -> exists rest,
    fl_blocks m ≡ₚ default [] (fl_find k m) ++ rest /\
    forall f, fl_blocks (fl_alter k f m) ≡ₚ f (default [] (fl_find k m)) ++ rest.
Proof.
  unfold keys_sorted. induction m as [|[k' v] m IH]; simpl; intros H.
  - exists []. split; [done|]. intros f. unfold fl_blocks. simpl. done.
  - apply StronglySorted_inv in H as [H1 H2]. destruct (IH H1) as (rest & Hp & Hf). clear IH.
    destruct (k <? k') eqn:E1; to_prop.
    + replace (k =? k') with false by (symmetry; apply Z.eqb_neq; lia).
      rewrite fl_find_above.
      2: { eapply Forall_impl; [exact H2|]. intros ? ?; simpl in *; lia. }
      exists (fl_blocks ((k', v) :: m)). split; [done|]. done.
    + destruct (k =? k') eqn:E2; to_prop.
      * exists (fl_blocks m). split; done.
      * exists (v ++ rest). split.
        -- change (fl_blocks ((k', v) :: m)) with (v ++ fl_blocks m). rewrite Hp.
           rewrite !(assoc_L (++)). f_equiv. apply Permutation_app_comm.
        -- intros f. change (v ++ fl_blocks (fl_alter k f m)
             ≡ₚ f (default [] (fl_find k m)) ++ v ++ rest). rewrite Hf.
           rewrite !(assoc_L (++)). f_equiv. apply Permutation_app_comm.
Qed.

Lemma fl_find_class limit k m v :
  Forall (class_ok limit) m -> fl_find k m = Some v -> class_ok limit (k, v).
Proof.
  induction m as [|[k' v'] m IH]; simpl; [done|]. intros [H1 H2]%Forall_cons.
  destruct (k =? k') eqn:E; to_prop; [intros [= <-]; by subst|auto].
Qed.

Lemma fl_ok_alter limit k f m :
  fl_ok limit m ->
  class_ok limit (k, f (default [] (fl_find k m))) ->
  fl_ok limit (fl_alter k f m).
Proof.
  intros [Hs HF] Hc. split; [by apply keys_sorted_alter|].
  unfold keys_sorted in Hs. induction m as [|[k' v'] m IH]; simpl in *.
  - repeat constructor. done.
  - apply Forall_cons in HF as [H1 H2]. apply StronglySorted_inv in Hs as [Hs1 Hs2].
    destruct (k <? k') eqn:E1; to_prop.
    + replace (k =? k') with false in * by (symmetry; apply Z.eqb_neq; lia).
      rewrite fl_find_above in Hc.
      2: { eapply Forall_impl; [exact Hs2|]. intros ? ?; simpl in *; lia. }
      by repeat constructor.
    + destruct (k =? k') eqn:E2; to_prop; [by constructor|].
      constructor; [done|]. by apply IH.
Qed.

Lemma fl_pop_largest_None m : fl_pop_largest m = None -> fl_blocks m = [].
Proof.
  induction m as [|[k v] m IH]; simpl; [done|].
  destruct (fl_pop_largest m) as [[b m']|] eqn:E; [done|].
  destruct (unsnoc v) as [[v' b]|] eqn:E2; [done|].
  apply unsnoc_None in E2 as ->. intros _. unfold fl_blocks. simpl. by apply IH.
Qed.

Lemma fl_pop_largest_Some limit m b m' :
  fl_ok limit m -> fl_pop_largest m = Some (b, m') ->
  fl_blocks m ≡ₚ b :: fl_blocks m' /\ fl_ok limit m'.
Proof.
  intros [Hs HF]. revert m'. unfold fl_ok, keys_sorted in *.
  induction m as [|[k v] m IH]; intros m' H; simpl in *; [done|].
  apply Forall_cons in HF as [H1 H2]. apply StronglySorted_inv in Hs as [Hs1 Hs2].
  destruct (fl_pop_largest m) as [[b2 m2]|] eqn:E.
  - simplify_eq. destruct (IH Hs1 H2 m2 eq_refl) as (Hp & Hs' & HF').
    change (fl_blocks ((k, v) :: m)) with (v ++ fl_blocks m).
    change (fl_blocks ((k, v) :: m2)) with (v ++ fl_blocks m2). split.
    + rewrite Hp. by rewrite Permutation_middle.
    + assert (Hk : keys m2 = keys m).
      { clear -E. revert m2 E. induction m as [|[k1 v1] m IH]; intros m2 E; simpl in *; [done|].
        destruct (fl_pop_largest m) as [[b3 m3]|].
        - simplify_eq. simpl. f_equal. by apply IH.
        - destruct (unsnoc v1) as [[v' b3]|]; by simplify_eq. }
      split; [|by constructor]. simpl. constructor; [done|]. by rewrite Hk.
  - destruct (unsnoc v) as [[v' b2]|] eqn:E2; [|done]. simplify_eq.
    apply unsnoc_Some in E2 as ->. apply fl_pop_largest_None in E.
    unfold class_ok in H1. simpl in H1. apply Forall_app in H1 as [H1 H3]. split.
    + change (fl_blocks ((k, v' ++ [b]) :: m)) with ((v' ++ [b]) ++ fl_blocks m).
      change (fl_blocks ((k, v') :: m)) with (v' ++ fl_blocks m).
      rewrite E, !app_nil_r. by rewrite Permutation_app_comm.
    + split; [by constructor|]. by constructor.
Qed.

(** ** The pool invariant *)

(** The heap holds exactly the given blocks, each well-formed. *)
Record mem_ok (P : platform) (bl : list FiberStackBlock) (h : heap) : Prop := {
  mem_live : range <$> bl ≡ₚ live h;
  mem_heap : heap_ok (live h);
  mem_wf : Forall (wf_block P) bl }.

Lemma mem_ok_Permutation P bl bl' h : bl ≡ₚ bl' -> mem_ok P bl h -> mem_ok P bl' h.
Proof.
  intros Hp [H1 H2 H3]. split; [by rewrite <- Hp|done|].
  rewrite Forall_forall in *. intros b Hb. apply H3. by rewrite Hp.
Qed.

#[export] Instance mem_ok_proper P : Proper ((≡ₚ) ==> (=) ==> iff) (mem_ok P).
Proof. intros l1 l2 Hp h ? <-. split; apply mem_ok_Permutation; by rewrite Hp. Qed.

Lemma zsum_range bl : zsum snd (range <$> bl) = zsum allocationSize bl.
Proof. induction bl as [|b bl IH]; [done|]. rewrite fmap_cons, !zsum_cons. by rewrite IH. Qed.

Lemma mem_ok_sum P bl h : mem_ok P bl h -> 0 <= zsum allocationSize bl < 2 ^ 64.
Proof.
  intros [H1 H2 H3]. split.
  - apply zsum_nonneg. intros b Hb. rewrite Forall_forall in H3.
    destruct (wf_range _ _ (H3 b Hb)) as (_ & H & _). simpl in H. lia.
  - rewrite <- zsum_range, H1. by apply heap_ok_sum.
Qed.

Lemma mem_ok_alloc P r bl h :
  platform_ok P -> 0 <= r < 2 ^ 64 -> mem_ok P bl h ->
  match AllocateRaw P r h with
  | Ret b h' => mem_ok P (b :: bl) h' /\ NormalizeMinimum P r <= usableSize b
  | Throw e h' => e = bad_alloc /\ mem_ok P bl h'
  | Crash _ => False
  end.
Proof.
  intros HP Hr [H1 H2 H3]. pose proof (AllocateRaw_spec P r h HP Hr H2) as HA.
  destruct (AllocateRaw P r h) as [b h'|e h'|]; [| |done].
  - destruct HA as (Hl & Hok & Hwf & Hu & _). split; [|done].
    split; [|done|by constructor]. rewrite Hl. simpl. by rewrite H1.
  - destruct HA as [-> Hl]. split; [done|]. split; [by rewrite Hl|by rewrite Hl|done].
Qed.

Lemma mem_ok_free P b bl h :
  mem_ok P (b :: bl) h -> exists h', FreeRaw P b h = Ret clear h' /\ mem_ok P bl h'.
Proof.
  intros [H1 H2 H3]. simpl in H1. apply Forall_cons in H3 as [Hb H3].
  destruct (FreeRaw_spec P b h) as (h' & Hf & Hl); [done|done|rewrite <- H1; left|].
  exists h'. split; [done|]. rewrite Hl in H1. apply Permutation_cons_inv in H1.
  split; [done| |done]. rewrite Hl in H2. destruct H2 as [HR [_ HD]].
  apply Forall_cons in HR as [_ HR]. by split.
Qed.

Import Pooled.

(** [out]: the blocks handed out and counted; [ext]: the blocks that are live
    and in transit, allocated but not yet counted or uncounted and about to be
    freed. *)
Record pool_ok (P : platform) (out ext : list FiberStackBlock) (s : impl) : Prop := {
  ok_mem : mem_ok P (fl_blocks (freeLists s) ++ out ++ ext) (mem s);
  ok_lists : fl_ok (maxPooledStackSize (options s)) (freeLists s);
  ok_cached : cachedBytes (counters s) = zsum allocationSize (fl_blocks (freeLists s));
  ok_limit : cachedBytes (counters s) <= maxCachedBytes (options s) < 2 ^ 64;
  ok_out : checkedOutBytes (counters s) = zsum allocationSize out;
  ok_peak : checkedOutBytes (counters s) <= peakCheckedOutBytes (counters s);
  ok_requests : acquireRequests (counters s) = u64 (cacheHits (counters s) + cacheMisses (counters s)) }.

Lemma pool_ok_out_bound P out ext s :
  pool_ok P out ext s -> 0 <= zsum allocationSize out /\
  0 <= zsum allocationSize (fl_blocks (freeLists s)) /\ 0 <= zsum allocationSize ext /\
  zsum allocationSize (fl_blocks (freeLists s)) + zsum allocationSize out
    + zsum allocationSize ext < 2 ^ 64.
Proof.
  intros [Hm]. pose proof (mem_ok_sum _ _ _ Hm) as Hs.
  assert (Hpos : forall l, (forall b, b ∈ l -> b ∈ fl_blocks (freeLists s) ++ out ++ ext) ->
    0 <= zsum allocationSize l).
  { intros l Hl. apply zsum_nonneg. intros b Hb. destruct Hm as [_ _ Hw].
    rewrite Forall_forall in Hw. specialize (Hw b (Hl b Hb)).
    destruct (wf_range _ _ Hw) as (_ & H & _). simpl in H. lia. }
  rewrite !zsum_app in Hs.
  assert (0 <= zsum allocationSize out) by (apply Hpos; clear; set_solver).
  assert (0 <= zsum allocationSize ext) by (apply Hpos; clear; set_solver).
  assert (0 <= zsum allocationSize (fl_blocks (freeLists s))) by (apply Hpos; clear; set_solver).
  lia.
Qed.

(** Counters that are neither gauges nor the request balance. *)
Definition same_gauges (c c' : FiberStackStats) : Prop :=
  cachedBytes c' = cachedBytes c /\ checkedOutBytes c' = checkedOutBytes c /\
  peakCheckedOutBytes c' = peakCheckedOutBytes c /\
  acquireRequests c' = acquireRequests c /\ cacheHits c' = cacheHits c /\
  cacheMisses c' = cacheMisses c.

Lemma pool_ok_counters P out ext s c' :
  same_gauges (counters s) c' -> pool_ok P out ext s -> pool_ok P out ext (set_counters c' s).
Proof.
  intros (H1 & H2 & H3 & H4 & H5 & H6) []. split; simpl in *; rewrite ?H1, ?H2, ?H3, ?H4, ?H5, ?H6;
    done.
Qed.

Lemma bump_requests a h m : a = u64 (h + m) -> bump a = u64 (bump h + m) /\ bump a = u64 (h + bump m).
Proof.
  intros ->. unfold bump. autorewrite with u64_norm. split; f_equal; lia.
Qed.

(** ** The critical sections preserve the invariant *)

Ltac pool_run := unfold on_counters, on_heap; run.

Lemma acquire_lookup_ok P out ext s ps c :
  pool_ok P out ext s ->
  match acquire_lookup ps c s with
  | Ret (Some b) s' => pool_ok P (b :: out) ext s' /\ usableSize b = ps /\ options s' = options s
  | Ret None s' => pool_ok P out ext s' /\ options s' = options s
  | _ => False
  end.
Proof.
  intros Hok. unfold acquire_lookup. pool_run.
  destruct (bump_requests _ _ _ (ok_requests _ _ _ _ Hok)) as [Hrh Hrm].
  destruct (if c then _ else None) as [[v' b]|] eqn:Ehit.
  - destruct c; [|done]. apply bind_Some in Ehit as (v & Hf & Hu%unsnoc_Some). subst v.
    destruct (ok_lists _ _ _ _ Hok) as [Hsort Hcls].
    destruct (fl_blocks_alter ps _ Hsort) as (rest & Hp & Halt). rewrite Hf in Hp, Halt.
    simpl in Hp, Halt.
    pose proof (fl_find_class _ _ _ _ Hcls Hf) as Hc. unfold class_ok in Hc. simpl in Hc.
    apply Forall_app in Hc as [Hc' Hcb]. apply Forall_singleton in Hcb as [Hub _].
    pose proof (pool_ok_out_bound _ _ _ _ Hok) as Hbound.
    destruct Hok as [Hm Hl Hca Hli Hou Hpe Hre].
    assert (Hb : fl_blocks (freeLists s) ≡ₚ b :: fl_blocks (fl_alter ps (fun _ => v') (freeLists s))).
    { rewrite Hp, Halt. rewrite <- (assoc_L (++)). simpl. by rewrite <- Permutation_middle. }
    assert (Hsz : zsum allocationSize (fl_blocks (freeLists s)) = allocationSize b +
      zsum allocationSize (fl_blocks (fl_alter ps (fun _ => v') (freeLists s)))) by by rewrite Hb.
    assert (0 <= zsum allocationSize (fl_blocks (fl_alter ps (fun _ => v') (freeLists s))) /\
      0 <= allocationSize b) as [Hz1 Hz2].
    { rewrite Hb in Hm. destruct Hm as [_ _ Hw]. rewrite Forall_forall in Hw. split.
      - apply zsum_nonneg. intros x Hx. destruct (wf_range _ _ (Hw x ltac:(clear -Hx; set_solver)))
          as (_ & H & _). simpl in H. lia.
      - destruct (wf_range _ _ (Hw b ltac:(clear; set_solver))) as (_ & H & _). simpl in H. lia. }
    split; [|done]. split; simpl.
    + rewrite Hb in Hm. by rewrite <- Permutation_middle.
    + by apply fl_ok_alter.
    + rewrite ?zsum_cons, u64_small; lia.
    + rewrite ?zsum_cons, u64_small; lia.
    + rewrite ?zsum_cons, u64_small; lia.
    + lia.
    + done.
  - destruct Hok as [Hm Hl Hca Hli Hou Hpe Hre].
    destruct c; simpl; split; (done || by split).
Qed.

Lemma acquire_account_ok P out ext b s :
  pool_ok P out (b :: ext) s ->
  exists s', acquire_account b s = Ret tt s' /\ pool_ok P (b :: out) ext s'.
Proof.
  intros Hok. eexists. split; [unfold acquire_account; pool_run; reflexivity|].
  pose proof (pool_ok_out_bound _ _ _ _ Hok) as Hb. rewrite zsum_cons in Hb.
  assert (0 <= allocationSize b).
  { destruct Hok as [[_ _ Hw]]. rewrite Forall_forall in Hw.
    destruct (wf_range _ _ (Hw b ltac:(clear; set_solver))) as (_ & H & _). simpl in H. lia. }
  assert (0 <= zsum allocationSize ext).
  { destruct Hok as [[_ _ Hw]]. rewrite Forall_forall in Hw. apply zsum_nonneg. intros x Hx.
    destruct (wf_range _ _ (Hw x ltac:(clear -Hx; set_solver))) as (_ & H' & _). simpl in H'. lia. }
  destruct Hok as [Hm Hl Hca Hli Hou Hpe Hre]. split; simpl in *; try done.
  - by rewrite <- Permutation_middle in Hm.
  - rewrite ?zsum_cons, u64_small; lia.
  - lia.
Qed.

Lemma alloc_ok P out ext s r :
  platform_ok P -> 0 <= r < 2 ^ 64 -> pool_ok P out ext s ->
  match on_heap (AllocateRaw P r) s with
  | Ret b s' => pool_ok P out (b :: ext) s' /\ NormalizeMinimum P r <= usableSize b /\
                options s' = options s
  | Throw e s' => e = bad_alloc /\ pool_ok P out ext s' /\ options s' = options s
  | Crash _ => False
  end.
Proof.
  intros HP Hr [Hm Hl Hca Hli Hou Hpe Hre]. pool_run.
  pose proof (mem_ok_alloc P r _ _ HP Hr Hm) as HA.
  destruct (AllocateRaw P r (mem s)) as [b h|e h|]; [| |done].
  - destruct HA as [HA Hu]. split; [|done]. split; simpl; try done.
    rewrite (assoc_L (++)). rewrite <- Permutation_middle. by rewrite <- (assoc_L (++)).
  - destruct HA as [-> HA]. split; [done|]. by split.
Qed.

Lemma free_ok P out ext b s :
  pool_ok P out (b :: ext) s ->
  exists s', on_heap (FreeRaw P b) s = Ret clear s' /\ pool_ok P out ext s' /\
    options s' = options s /\ freeLists s' = freeLists s /\ counters s' = counters s.
Proof.
  intros [Hm Hl Hca Hli Hou Hpe Hre]. pool_run.
  assert (Hm' : mem_ok P (b :: (fl_blocks (freeLists s) ++ out ++ ext)) (mem s)).
  { rewrite (assoc_L (++)) in *. by rewrite <- Permutation_middle in Hm. }
  apply mem_ok_free in Hm' as (h & -> & Hm'). eexists. split; [done|]. by split.
Qed.

Lemma pool_ok_wf P out ext s b :
  pool_ok P out ext s -> b ∈ out ++ ext -> wf_block P b.
Proof.
  intros [[_ _ Hw]] Hb. rewrite Forall_forall in Hw. apply Hw, elem_of_app. by right.
Qed.

Lemma wf_block_size P b : wf_block P b -> 0 < allocationSize b < 2 ^ 64.
Proof. intros H. destruct (wf_range _ _ H) as (H1 & H2 & H3). simpl in *. lia. Qed.

(** Uncounting a block: it leaves [out] and is in transit. *)
Lemma pool_ok_uncount P out ext b s :
  pool_ok P (b :: out) ext s ->
  (checkedOutBytes (counters s) >=? allocationSize b) = true /\
  pool_ok P out (b :: ext) (set_counters (set_gauges (cachedBytes (counters s))
     (u64 (checkedOutBytes (counters s) - allocationSize b))
     (peakCheckedOutBytes (counters s)) (counters s)) s).
Proof.
  intros Hok. pose proof (pool_ok_out_bound _ _ _ _ Hok) as Hb.
  pose proof (wf_block_size P b (pool_ok_wf _ _ _ _ b Hok ltac:(set_solver))) as Hsz.
  pose proof Hok as [Hm Hl Hca Hli Hou Hpe Hre]. rewrite zsum_cons in *.
  assert (0 <= zsum allocationSize out).
  { apply zsum_nonneg. intros x Hx. enough (0 < allocationSize x < 2 ^ 64) by lia.
    eapply wf_block_size, pool_ok_wf; [exact Hok|]. clear -Hx. set_solver. }
  split; [rewrite Z.geb_leb; apply Z.leb_le; lia|].
  split; simpl; try done.
  - rewrite <- Permutation_middle. done.
  - rewrite ?zsum_cons, u64_small; lia.
  - rewrite ?zsum_cons, u64_small; lia.
Qed.

(** Inserting a block in transit into its class. *)
Lemma pool_ok_insert P out ext b s :
  pool_ok P out (b :: ext) s ->
  release_cacheable s (usableSize b) (allocationSize b) = true ->
  pool_ok P out ext (set_counters (set_gauges (u64 (cachedBytes (counters s) + allocationSize b))
      (checkedOutBytes (counters s)) (peakCheckedOutBytes (counters s)) (counters s))
    (set_freeLists (fl_alter (usableSize b) (fun v => v ++ [b]) (freeLists s)) s)).
Proof.
  intros Hok Hc. pose proof (pool_ok_out_bound _ _ _ _ Hok) as Hb.
  pose proof (pool_ok_wf _ _ _ _ b Hok ltac:(set_solver)) as Hwf.
  pose proof (wf_block_size P b Hwf) as Hsz. pose proof (wf_usable _ _ Hwf) as Hus.
  destruct Hok as [Hm Hl Hca Hli Hou Hpe Hre].
  unfold release_cacheable in Hc. to_prop.
  rewrite (u64_small (maxCachedBytes _ - _)) in * by lia.
  assert (usableSize b <= allocationSize b).
  { rewrite (wf_size _ _ Hwf). pose proof (wf_guard _ _ Hwf). lia. }
  rewrite (u64_small (usableSize b - 1)) in * by lia.
  destruct (fl_blocks_alter (usableSize b) _ (proj1 Hl)) as (rest & Hp & Halt).
  assert (Hperm : fl_blocks (fl_alter (usableSize b) (fun v => v ++ [b]) (freeLists s))
                  ≡ₚ b :: fl_blocks (freeLists s)).
  { rewrite Halt, Hp. rewrite <- (assoc_L (++)). simpl. by rewrite <- Permutation_middle. }
  split; simpl; try done.
  - rewrite Hperm. simpl. rewrite (assoc_L (++)) in *. by rewrite <- Permutation_middle in Hm.
  - apply fl_ok_alter; [done|]. unfold class_ok. simpl. apply Forall_app. split.
    + destruct (fl_find (usableSize b) (freeLists s)) as [v|] eqn:E; simpl; [|by constructor].
      by apply (fl_find_class _ _ _ _ (proj2 Hl) E).
    + by constructor.
  - rewrite Hperm, zsum_cons, u64_small; lia.
  - rewrite ?zsum_cons, u64_small; lia.
Qed.

Lemma pool_ok_touch P out ext k s :
  pool_ok P out ext s ->
  pool_ok P out ext (set_freeLists (fl_alter k id (freeLists s)) s).
Proof.
  intros [Hm Hl Hca Hli Hou Hpe Hre].
  destruct (fl_blocks_alter k _ (proj1 Hl)) as (rest & Hp & Halt).
  assert (Hperm : fl_blocks (fl_alter k id (freeLists s)) ≡ₚ fl_blocks (freeLists s)).
  { by rewrite Halt, Hp. }
  split; simpl; try done.
  - by rewrite Hperm.
  - apply fl_ok_alter; [done|]. unfold id.
    destruct (fl_find k (freeLists s)) as [v|] eqn:E; [|constructor].
    by apply (fl_find_class _ _ _ _ (proj2 Hl) E).
  - by rewrite Hperm.
Qed.

Lemma pool_ok_mem_live P out ext s h :
  live h = live (mem s) -> pool_ok P out ext s -> pool_ok P out ext (set_mem h s).
Proof.
  intros Hl [[H1 H2 H3]]. split; try done. simpl. split; rewrite ?Hl; done.
Qed.

Lemma pool_ok_set_fail P out ext s f : pool_ok P out ext s -> pool_ok P out ext (set_fail f s).
Proof. by intros []. Qed.

(** [try { insert } catch (...)]: the block is cached, or it stays in transit. *)
Lemma cache_insert_ok P out ext b s :
  pool_ok P out (b :: ext) s ->
  release_cacheable s (usableSize b) (allocationSize b) = true ->
  exists s', options s' = options s /\
    ((cache_insert b;; on_counters (fun c => set_gauges (u64 (cachedBytes c + allocationSize b))
        (checkedOutBytes c) (peakCheckedOutBytes c) c);; mret true) s = Ret true s' /\
      pool_ok P out ext s' \/
     (cache_insert b;; on_counters (fun c => set_gauges (u64 (cachedBytes c + allocationSize b))
        (checkedOutBytes c) (peakCheckedOutBytes c) c);; mret true) s = Throw bad_alloc s' /\
      pool_ok P out (b :: ext) s').
Proof.
  intros Hok Hc. unfold cache_insert. pool_run.
  destruct (failNextCacheInsert s) eqn:Ef.
  { exists (set_fail false s). split; [done|]. right. split; [done|]. by apply pool_ok_set_fail. }
  destruct (os_answer_spec (mem s)) as (rc & h & -> & Hl).
  pose proof (pool_ok_mem_live _ _ _ _ _ Hl Hok) as Hok1.
  destruct (rc =? 1); [by eexists; split; [|right; split]; [|done|]|].
  destruct (negb (rc =? 0)).
  - eexists. split; [|right; split; [done|]]; [done|].
    by apply (pool_ok_touch _ _ _ (usableSize b)) in Hok1.
  - eexists. split; [|left; split; [done|]]; [done|].
    by apply (pool_ok_insert _ _ _ b) in Hok1.
Qed.

Lemma release_uncount_ok P out ext b s :
  pool_ok P (b :: out) ext s ->
  exists s', release_uncount b s = Ret tt s' /\ options s' = options s /\
    pool_ok P out (b :: ext) s'.
Proof.
  intros Hok.
  assert (Hok1 : pool_ok P (b :: out) ext (set_counters (inc_returns (counters s)) s)).
  { by apply pool_ok_counters. }
  apply pool_ok_uncount in Hok1 as [Hge Hok1]. simpl in Hge.
  unfold release_uncount. pool_run. rewrite Hge. eauto.
Qed.

Lemma release_cache_ok P out ext b s :
  pool_ok P out (b :: ext) s ->
  exists r s', release_cache b s = Ret r s' /\ options s' = options s /\
    pool_ok P out (if r then ext else b :: ext) s'.
Proof.
  intros Hok. unfold release_cache, get, modify. unfold mbind at 1 2 3, M_bind at 1 2 3. simpl.
  destruct (release_cacheable s (usableSize b) (allocationSize b)) eqn:Ec.
  - unfold try_catch.
    destruct (cache_insert_ok _ _ _ _ _ Hok Ec) as (s2 & Ho & [[-> Hok2]|[-> Hok2]]); simpl.
    + exists true, s2. done.
    + eexists false, _. split; [done|]. split; [done|]. by apply pool_ok_counters.
  - eexists false, _. split; [done|]. split; [done|]. by apply pool_ok_counters.
Qed.

Lemma release_section_ok P out ext b s :
  pool_ok P (b :: out) ext s ->
  exists r s', release_section b s = Ret r s' /\ options s' = options s /\
    pool_ok P out (if r then ext else b :: ext) s'.
Proof.
  intros Hok. destruct (release_uncount_ok _ _ _ _ _ Hok) as (s1 & H1 & Ho1 & Hok1).
  destruct (release_cache_ok _ _ _ _ _ Hok1) as (r & s2 & H2 & Ho2 & Hok2).
  exists r, s2. unfold release_section, mbind, M_bind. rewrite H1, H2. by rewrite Ho2.
Qed.

Lemma trim_pick_ok P out ext keep s :
  pool_ok P out ext s ->
  exists r s', trim_pick keep s = Ret r s' /\ options s' = options s /\
    match r with
    | Some b => pool_ok P out (b :: ext) s' /\
                fl_blocks (freeLists s) ≡ₚ b :: fl_blocks (freeLists s')
    | None => s' = s /\ (cachedBytes (counters s) <= keep \/ fl_blocks (freeLists s) = [])
    end.
Proof.
  intros Hok. unfold trim_pick. pool_run.
  destruct (cachedBytes (counters s) <=? keep) eqn:Ek; to_prop.
  { exists None, s. split; [done|]. split; [done|]. split; [done|]. by left. }
  destruct (fl_pop_largest (freeLists s)) as [[b m]|] eqn:Ep.
  - eexists (Some b), _. split; [done|]. split; [done|].
    pose proof (pool_ok_out_bound _ _ _ _ Hok) as Hb.
    destruct Hok as [Hm Hl Hca Hli Hou Hpe Hre].
    destruct (fl_pop_largest_Some _ _ _ _ Hl Ep) as [Hp Hl']. split; [|done].
    assert (Hsum : zsum allocationSize (fl_blocks (freeLists s)) =
      allocationSize b + zsum allocationSize (fl_blocks m)) by by rewrite Hp.
    rewrite Hp in Hm. simpl in Hm. pose proof Hm as [_ _ Hw]. apply Forall_cons in Hw as [Hwb Hw].
    pose proof (wf_block_size _ _ Hwb).
    assert (0 <= zsum allocationSize (fl_blocks m)).
    { apply zsum_nonneg. intros x Hx. rewrite Forall_forall in Hw.
      pose proof (wf_block_size P x (Hw x ltac:(clear -Hx; set_solver))). lia. }
    split; simpl; try done.
    + rewrite (assoc_L (++)). rewrite <- Permutation_middle. by rewrite <- (assoc_L (++)).
    + rewrite ?zsum_cons, u64_small; lia.
    + rewrite ?zsum_cons, u64_small; lia.
  - exists None, s. split; [done|]. split; [done|]. split; [done|]. right.
    by apply fl_pop_largest_None.
Qed.

(** ** Interleavings *)

Definition transit_blocks (tr : list in_transit) : list FiberStackBlock :=
  tr ≫= fun t => match t with Allocated b | Evicting b => [b] | _ => [] end.

Definition transit_sizes (tr : list in_transit) : Prop :=
  Forall (fun t => match t with Allocating n => 0 <= n < 2 ^ 64 | _ => True end) tr.

Definition world_ok (P : platform) (w : world) : Prop :=
  pool_ok P (w_out w) (transit_blocks (w_transit w)) (w_pool w) /\ transit_sizes (w_transit w).

Lemma transit_blocks_Permutation tr tr' : tr ≡ₚ tr' -> transit_blocks tr ≡ₚ transit_blocks tr'.
Proof. intros H. unfold transit_blocks. by rewrite H. Qed.

Lemma pool_ok_Permutation P out out' ext ext' s :
  out ≡ₚ out' -> ext ≡ₚ ext' -> pool_ok P out ext s -> pool_ok P out' ext' s.
Proof.
  intros Ho He [Hm Hl Hca Hli Hou Hpe Hre]. split; try done.
  - by rewrite <- Ho, <- He.
  - by rewrite <- Ho.
Qed.

Lemma transit_sizes_cons tr t rest :
  tr ≡ₚ t :: rest -> transit_sizes tr ->
  transit_sizes rest /\ match t with Allocating n => 0 <= n < 2 ^ 64 | _ => True end.
Proof.
  unfold transit_sizes. rewrite !Forall_forall. intros Hp H. split.
  - intros x Hx. apply H. rewrite Hp. by right.
  - apply (H t). rewrite Hp. left.
Qed.

Lemma pooledSizeFor_bounds P r p :
  platform_ok P -> 0 <= r < 2 ^ 64 -> pooledSizeFor P r = Some p ->
  NormalizeMinimum P r <= p /\ 0 < p < 2 ^ 64.
Proof. intros HP Hr H%NextPowerOfTwo_le. lia. Qed.

Lemma pool_step_ok P w w' : platform_ok P -> pool_step P w w' -> world_ok P w -> world_ok P w'.
Proof.
  intros HP Hst [Hok Hsz]. unfold world_ok in *.
  destruct Hst as
    [s out tr r p b s' Hr Hps Hlk|s out tr r p c s' Hr Hps -> Hlk|s out tr n rest b s' Hp Ha
    |s out tr n rest e s' Hp Ha|s out tr b rest s' Hp Ha|s out tr b out' s' Hp Ha
    |s out tr b out' s' Hp Ha|s out tr k b s' Ha|s out tr b rest s' Hp Ha|s out tr rest s' Hp Ha
    |s out tr s' Ha|s out tr s' Ha]; simpl in *;
    try (pose proof (transit_blocks_Permutation _ _ Hp) as HB;
         eapply pool_ok_Permutation in Hok; [|reflexivity|exact HB];
         destruct (transit_sizes_cons _ _ _ Hp Hsz) as [Hsz' Hn]).
  - pose proof (acquire_lookup_ok P _ _ s p (acquire_cacheable (options s) p) Hok) as H.
    rewrite Hlk in H. split; [by apply H|done].
  - pose proof (acquire_lookup_ok P _ _ s p (acquire_cacheable (options s) p) Hok) as H.
    rewrite Hlk in H. split; [by apply H|]. constructor; [|done].
    destruct (pooledSizeFor_bounds _ _ _ HP Hr Hps). destruct (acquire_cacheable _ _); lia.
  - pose proof (alloc_ok P _ _ s n HP Hn Hok) as H. rewrite Ha in H.
    split; [by apply H|]. by constructor.
  - pose proof (alloc_ok P _ _ s n HP Hn Hok) as H. rewrite Ha in H.
    split; [apply H|done].
  - destruct (acquire_account_ok _ _ _ _ _ Hok) as (s2 & H2 & Hok2).
    rewrite Ha in H2. by simplify_eq.
  - eapply pool_ok_Permutation in Hok; [|exact Hp|reflexivity].
    destruct (release_section_ok _ _ _ _ _ Hok) as (r & s2 & H2 & _ & Hok2).
    rewrite Ha in H2. by simplify_eq.
  - eapply pool_ok_Permutation in Hok; [|exact Hp|reflexivity].
    destruct (release_section_ok _ _ _ _ _ Hok) as (r & s2 & H2 & _ & Hok2).
    rewrite Ha in H2. simplify_eq.
    split; [done|by constructor].
  - destruct (trim_pick_ok _ _ _ k _ Hok) as (r & s2 & H2 & _ & Hok2).
    rewrite Ha in H2. simplify_eq.
    split; [apply Hok2|by constructor].
  - destruct (free_ok _ _ _ _ _ Hok) as (s2 & H2 & Hok2 & _).
    rewrite Ha in H2. simplify_eq.
    split; [done|by constructor].
  - unfold on_counters, modify in Ha. simplify_eq. split; [|done]. by apply pool_ok_counters.
  - unfold resetStats, on_counters, modify in Ha. simplify_eq. split; [|done].
    destruct Hok as [Hm Hl Hca Hli Hou Hpe Hre]. by split.
  - unfold failNextCacheInsertForTesting, modify in Ha. simplify_eq. split; [|done].
    by apply pool_ok_set_fail.
Qed.

Lemma init_ok P o ans s0 :
  0 <= maxCachedBytes o < 2 ^ 64 -> Pooled.init P o (Heap [] ans) = Some s0 ->
  pool_ok P [] [] s0.
Proof.
  intros Ho Hi. unfold Pooled.init in Hi.
  assert (Hs : freeLists s0 = [] /\ counters s0 = stats0 /\ mem s0 = Heap [] ans /\
               maxCachedBytes (options s0) = maxCachedBytes o).
  { destruct (_ =? 0); [by simplify_eq|]. apply bind_Some in Hi as (m & _ & Hi). by simplify_eq. }
  destruct Hs as (E1 & E2 & E3 & E4).
  split; rewrite ?E1, ?E2, ?E3, ?E4; simpl; try done; try lia.
  split; [apply SSorted_nil|constructor].
Qed.

Lemma reachable_ok P o ans s0 w :
  platform_ok P -> 0 <= maxCachedBytes o < 2 ^ 64 ->
  Pooled.init P o (Heap [] ans) = Some s0 ->
  rtc (pool_step P) (World s0 [] []) w -> world_ok P w.
Proof.
  intros HP Ho Hi Hr. eapply rtc_invariant; [|exact Hr|].
  - intros. by eapply pool_step_ok.
  - split; [by eapply init_ok|constructor].
Qed.

(** C10. In every state any interleaving of [acquire], [release], [trim] and
    [resetStats] calls can reach, the live heap is exactly the cached blocks,
    the blocks clients hold and the blocks threads are moving, all disjoint (no
    leak, no double owner); [cachedBytes] is the size of the cache and respects
    [maxCachedBytes]; [checkedOutBytes] is the size of the blocks clients hold
    and never exceeds the recorded peak. *)
Theorem pool_interleaving_invariant P o ans s0 w :
  platform_ok P -> 0 <= maxCachedBytes o < 2 ^ 64 ->
  Pooled.init P o (Heap [] ans) = Some s0 ->
  rtc (pool_step P) (World s0 [] []) w ->
  let s := w_pool w in
  let c := counters s in
  range <$> (fl_blocks (freeLists s) ++ w_out w ++ transit_blocks (w_transit w)) ≡ₚ live (mem s) /\
  heap_ok (live (mem s)) /\
  cachedBytes c = zsum allocationSize (fl_blocks (freeLists s)) /\
  cachedBytes c <= maxCachedBytes (options s) /\
  checkedOutBytes c = zsum allocationSize (w_out w) /\
  checkedOutBytes c <= peakCheckedOutBytes c /\
  acquireRequests c = u64 (cacheHits c + cacheMisses c).
Proof.
  intros HP Ho Hi Hr.
  destruct (reachable_ok _ _ _ _ _ HP Ho Hi Hr) as [[[H1 H2 H3] H4 H5 H6 H7 H8 H9] _].
  simpl. naive_solver.
Qed.

(** No thread of such an interleaving can be stopped by the allocator: the
    [std::terminate] guard of [release] never fires on a block a client holds,
    freeing an evicted block never frees memory that is not live, and counting
    an allocation succeeds. *)
Theorem pool_sections_never_crash P o ans s0 w :
  platform_ok P -> 0 <= maxCachedBytes o < 2 ^ 64 ->
  Pooled.init P o (Heap [] ans) = Some s0 ->
  rtc (pool_step P) (World s0 [] []) w ->
  (forall b, b ∈ w_out w -> exists r s', release_section b (w_pool w) = Ret r s') /\
  (forall b, Evicting b ∈ w_transit w ->
     exists s', on_heap (FreeRaw P b) (w_pool w) = Ret clear s') /\
  (forall b, Allocated b ∈ w_transit w -> exists s', acquire_account b (w_pool w) = Ret tt s') /\
  (forall n, Allocating n ∈ w_transit w ->
     match on_heap (AllocateRaw P n) (w_pool w) with Crash _ => False | _ => True end).
Proof.
  intros HP Ho Hi Hr. destruct (reachable_ok _ _ _ _ _ HP Ho Hi Hr) as [Hok Hsz].
  repeat split.
  - intros b Hb. apply elem_of_Permutation in Hb as (out' & Hp).
    eapply pool_ok_Permutation in Hok; [|exact Hp|reflexivity].
    destruct (release_section_ok _ _ _ _ _ Hok) as (r & s' & H & _). eauto.
  - intros b Hb. apply elem_of_Permutation in Hb as (tr' & Hp).
    eapply pool_ok_Permutation in Hok; [|reflexivity|exact (transit_blocks_Permutation _ _ Hp)].
    destruct (free_ok _ _ _ _ _ Hok) as (s' & H & _). eauto.
  - intros b Hb. apply elem_of_Permutation in Hb as (tr' & Hp).
    eapply pool_ok_Permutation in Hok; [|reflexivity|exact (transit_blocks_Permutation _ _ Hp)].
    destruct (acquire_account_ok _ _ _ _ _ Hok) as (s' & H & _). eauto.
  - intros n Hn. unfold transit_sizes in Hsz. rewrite Forall_forall in Hsz.
    specialize (Hsz _ Hn). simpl in Hsz. pose proof (alloc_ok P _ _ _ n HP Hsz Hok) as H.
    by destruct (on_heap _ _).
Qed.

(** A concrete run for the witnesses: a miss, the allocation, the accounting,
    and a release that caches the block. *)
Definition P0 : platform := Platform 2048 false 4096.
Definition opts0 : StackPoolOptions := PoolOptions 1048576 131072.
Definition heap0 : heap := Heap [] [65536; 0].

Lemma P0_ok : platform_ok P0.
Proof. unfold platform_ok. simpl. lia. Qed.

Definition out_of {S A} (o : outcome S A) (d : S) : S :=
  match o with Ret _ s => s | Throw _ s => s | Crash _ => d end.

Definition pool0 : impl := Pooled.Impl (PoolOptions 1048576 131072) [] stats0 false heap0.
Definition pool1 : impl := out_of (acquire_lookup 131072 true pool0) pool0.
Definition pool2 : impl := out_of (on_heap (AllocateRaw P0 131072) pool1) pool1.
Definition block0 : FiberStackBlock := Block 65536 65536 131072 131072 MALLOC.
Definition pool3 : impl := out_of (acquire_account block0 pool2) pool2.

Lemma run0 : rtc (pool_step P0) (World pool0 [] []) (World pool3 [block0] []).
Proof.
  eapply rtc_l.
  { apply (step_miss P0 pool0 [] [] 131072 131072 true pool1); [lia|..]; vm_compute; reflexivity. }
  eapply rtc_l.
  { apply (step_alloc P0 pool1 [] _ 131072 [] block0 pool2); vm_compute; reflexivity. }
  eapply rtc_l.
  { apply (step_account P0 pool2 [] _ block0 [] pool3); vm_compute; reflexivity. }
  apply rtc_refl.
Qed.

Lemma pool_interleaving_invariant_witness :
  checkedOutBytes (counters pool3) = 131072 /\
  range <$> (fl_blocks (freeLists pool3) ++ [block0] ++ []) ≡ₚ live (mem pool3).
Proof.
  split; [vm_compute; reflexivity|].
  exact (proj1 (pool_interleaving_invariant P0 opts0 [65536; 0] pool0 (World pool3 [block0] [])
    P0_ok ltac:(simpl; lia) eq_refl run0)).
Defined.

Lemma pool_sections_never_crash_witness :
  exists r s', release_section block0 pool3 = Ret r s'.
Proof.
  apply (proj1 (pool_sections_never_crash P0 opts0 [65536; 0] pool0 (World pool3 [block0] [])
    P0_ok ltac:(simpl; lia) eq_refl run0)).
  left.
Defined.

(** The memory a fiber runs on. *)
Definition stack_range (b : FiberStackBlock) : Z * Z := (stackBase b, usableSize b).

Lemma stack_ranges_disjoint P bl :
  Forall (wf_block P) bl -> disjoint_all (range <$> bl) -> disjoint_all (stack_range <$> bl).
Proof.
  induction bl as [|b bl IH]; simpl; [done|]. rewrite Forall_cons. intros [Hb Hbl] [H1 H2]. split; [|by apply IH].
  rewrite Forall_fmap in *. rewrite Forall_forall in *. intros c Hc. specialize (H1 c Hc). specialize (Hbl c Hc).
  destruct Hb as [_ _ Hg Hs Hst _], Hbl as [_ _ _ Hs' Hst' _]. unfold stack_range, range, disjoint_range in *. simpl in *.
  apply orb_true_iff. apply orb_true_iff in H1 as [H1|H1]; to_prop; [left|right]; apply Z.leb_le; lia.
Qed.

Lemma disjoint_all_app l1 l2 : disjoint_all (l1 ++ l2) -> disjoint_all l1 /\ disjoint_all l2.
Proof.
  induction l1 as [|x l1 IH]; simpl; [done|]. rewrite Forall_app. intros [[H1 _] [H3 H4]%IH]. done.
Qed.

Lemma mem_ok_stacks P bl h : mem_ok P bl h -> disjoint_all (stack_range <$> bl).
Proof. intros [H1 [_ H2] H3]. eapply stack_ranges_disjoint; [done|]. by eapply disjoint_all_Permutation. Qed.

(** ** What an allocator promises to its clients

    [ok out s]: the allocator is in a good state and its clients hold the
    blocks [out].  A fiber is verified against these laws only. *)
Class AllocatorLaws {S : Type} (A : FiberStackAllocator S)
    (ok : list FiberStackBlock -> S -> Prop) : Prop := {
  law_acquire : forall r s out, 0 <= r < 2 ^ 64 -> ok out s ->
    match sa_acquire A r s with
    | Ret b s' => ok (b :: out) s' /\ r <= usableSize b /\ block_bool b = true /\
                  stackBase b <> 0 /\ stackPointer b = stackBase b + usableSize b
    | Throw e s' => e = bad_alloc /\ ok out s'
    | Crash _ => False
    end;
  law_release : forall b s out, ok (b :: out) s ->
    exists s', sa_release A b s = Ret tt s' /\ ok out s';
  law_context : forall b s out, ok out s ->
    match sa_beforeContextCreate A b s with
    | Ret _ s' | Throw _ s' => ok out s'
    | Crash _ => False
    end;
  law_perm : forall out out' s, out ≡ₚ out' -> ok out s -> ok out' s;
  law_disjoint : forall out s, ok out s -> disjoint_all (stack_range <$> out) }.

Lemma wf_block_usable P b :
  wf_block P b -> block_bool b = true /\ stackBase b <> 0 /\
  stackPointer b = stackBase b + usableSize b.
Proof.
  intros [(H1 & H2 & H3) H4 H5 H6 H7 H8]. simpl in *.
  assert (stackBase b <> 0) by lia. unfold block_bool, stackPointer.
  replace (allocation b =? 0) with false by (symmetry; apply Z.eqb_neq; lia).
  replace (stackBase b =? 0) with false by (symmetry; by apply Z.eqb_neq).
  split; [done|]. split; [done|]. rewrite ?zsum_cons, u64_small; lia.
Qed.

Lemma acquire_ok P r s out :
  platform_ok P -> 0 <= r < 2 ^ 64 -> pool_ok P out [] s ->
  match Pooled.acquire P r s with
  | Ret b s' => pool_ok P (b :: out) [] s' /\ r <= usableSize b /\ wf_block P b
  | Throw e s' => e = bad_alloc /\ pool_ok P out [] s'
  | Crash _ => False
  end.
Proof.
  intros HP Hr Hok. unfold Pooled.acquire.
  destruct (pooledSizeFor P r) as [p|] eqn:Ep; simpl; [|done].
  destruct (pooledSizeFor_bounds _ _ _ HP Hr Ep) as [Hge Hp].
  unfold gets. unfold mbind at 1 2 3, M_bind at 1 2 3. simpl.
  set (c := acquire_cacheable (options s) p).
  pose proof (acquire_lookup_ok P out [] s p c Hok) as H.
  destruct (acquire_lookup p c s) as [[b|] s1|e s1|]; try done.
  - destruct H as (Hok1 & Hu & _). split; [done|]. split; [unfold NormalizeMinimum in Hge; lia|].
    eapply pool_ok_wf; [exact Hok1|]. left.
  - destruct H as [Hok1 _]. unfold mbind, M_bind.
    pose proof (alloc_ok P out [] s1 (if c then p else r) HP ltac:(destruct c; lia) Hok1) as H.
    destruct (on_heap _ s1) as [b s2|e s2|]; [|naive_solver|done].
    destruct H as (Hok2 & Hu & _).
    destruct (acquire_account_ok _ _ _ _ _ Hok2) as (s3 & -> & Hok3). simpl.
    split; [done|]. split.
    + unfold NormalizeMinimum in *. destruct c; lia.
    + eapply pool_ok_wf; [exact Hok3|]. left.
Qed.

Lemma release_ok P b s out ext :
  pool_ok P (b :: out) ext s ->
  exists s', Pooled.release P b s = Ret tt s' /\ pool_ok P out ext s'.
Proof.
  intros Hok. unfold Pooled.release.
  destruct (wf_block_usable P b (pool_ok_wf _ _ _ _ b Hok ltac:(left))) as (-> & _). simpl.
  destruct (release_section_ok _ _ _ _ _ Hok) as (r & s1 & H1 & _ & Hok1).
  unfold mbind, M_bind. rewrite H1. destruct r; simpl; [by exists s1|].
  destruct (free_ok _ _ _ _ _ Hok1) as (s2 & -> & Hok2 & _).
  eexists. split; [done|]. by apply pool_ok_counters.
Qed.

#[export] Instance Pooled_laws P :
  platform_ok P -> AllocatorLaws (PooledStackAllocator P) (fun out s => pool_ok P out [] s).
Proof.
  intros HP. split; simpl.
  - intros r s out Hr Hok. pose proof (acquire_ok P r s out HP Hr Hok) as H.
    destruct (Pooled.acquire P r s); [|done|done]. destruct H as (H1 & H2 & H3).
    split; [done|]. split; [done|]. by eapply wf_block_usable.
  - intros b s out Hok. by apply release_ok.
  - intros b s out Hok. done.
  - intros out out' s Hp []. split; try done.
    + eapply mem_ok_Permutation; [|done]. by rewrite Hp.
    + by rewrite <- Hp.
  - intros out s [Hm _ _ _ _ _ _]. apply mem_ok_stacks in Hm. rewrite !fmap_app in Hm.
    apply disjoint_all_app in Hm as [_ Hm]. by apply disjoint_all_app in Hm as [Hm _].
Qed.

(** The invariant of the pass-through allocator. *)
Definition direct_ok (P : platform) (out : list FiberStackBlock) (s : Direct.impl) : Prop :=
  mem_ok P out (Direct.mem s) /\
  checkedOutBytes (Direct.counters s) = zsum allocationSize out /\
  checkedOutBytes (Direct.counters s) <= peakCheckedOutBytes (Direct.counters s).

Lemma UpdatePeak_ge failures peak value :
  value <= UpdatePeak failures peak peak value.
Proof.
  revert peak. induction failures as [|f rest IH]; intros peak; simpl;
    destruct (peak <? value) eqn:E; to_prop; try lia. apply IH.
Qed.

Lemma UpdatePeak_alone peak value : UpdatePeak [] peak peak value = Z.max peak value.
Proof. simpl. destruct (peak <? value) eqn:E; to_prop; lia. Qed.

#[export] Instance Direct_laws P :
  platform_ok P -> AllocatorLaws (DirectStackAllocator P) (direct_ok P).
Proof.
  intros HP. split.
  - intros r s out Hr (Hm & Hc & Hpk). cbn -[UpdatePeak]. unfold Direct.acquire.
    unfold Direct.on_counters, Direct.on_heap. run.
    pose proof (mem_ok_alloc P r _ _ HP Hr Hm) as HA.
    destruct (AllocateRaw P r (Direct.mem s)) as [b h|e h|]; [| |done].
    + destruct HA as [HA Hu]. pose proof (mem_ok_sum _ _ _ HA) as Hs. rewrite zsum_cons in Hs.
      pose proof HA as [_ _ Hw]. apply Forall_cons in Hw as [Hw _].
      pose proof (wf_block_size _ _ Hw). pose proof (mem_ok_sum _ _ _ Hm).
      split; [|split; [unfold NormalizeMinimum in Hu; lia|by eapply wf_block_usable]].
      split; [done|]. cbn -[UpdatePeak]. split; [rewrite u64_small; rewrite ?zsum_cons; lia|].
      apply (UpdatePeak_ge []).
    + destruct HA as [-> HA]. split; [done|]. done.
  - intros b s out (Hm & Hc & Hpk). simpl. unfold Direct.release.
    pose proof Hm as [_ _ Hw]. apply Forall_cons in Hw as [Hw Hw'].
    destruct (wf_block_usable _ _ Hw) as (-> & _). simpl.
    unfold Direct.on_counters, Direct.on_heap. run.
    destruct (mem_ok_free _ _ _ _ Hm) as (h & -> & Hm'). eexists. split; [done|].
    pose proof (mem_ok_sum _ _ _ Hm). pose proof (mem_ok_sum _ _ _ Hm').
    pose proof (wf_block_size _ _ Hw). rewrite zsum_cons in *.
    split; [done|]. simpl. rewrite ?zsum_cons, u64_small; lia.
  - intros b s out Hok. done.
  - intros out out' s Hp (Hm & Hc & Hpk). split; [by eapply mem_ok_Permutation|]. by rewrite <- Hp.
  - intros out s (Hm & _). by eapply mem_ok_stacks.
Qed.

(** ** Trimming *)

Lemma trim_loop_ok P fuel keep s out ext :
  (length (fl_blocks (freeLists s)) < fuel)%nat -> pool_ok P out ext s ->
  0 <= keep ->
  exists s', trim_loop P fuel keep s = Ret tt s' /\ pool_ok P out ext s' /\
    options s' = options s /\ cachedBytes (counters s') <= keep.
Proof.
  revert s. induction fuel as [|fuel IH]; intros s Hlen Hok Hk; [lia|].
  cbn [trim_loop]. destruct (trim_pick_ok _ _ _ keep _ Hok) as (r & s1 & H1 & Ho1 & Hr).
  unfold mbind, M_bind. rewrite H1. destruct r as [b|].
  - destruct Hr as [Hok1 Hp].
    destruct (free_ok _ _ _ _ _ Hok1) as (s2 & -> & Hok2 & Ho2 & Hf2 & Hc2).
    unfold on_counters, modify. simpl.
    apply (pool_ok_counters _ _ _ _ (inc_systemFrees (counters s2))) in Hok2; [|done].
    edestruct IH as (s' & H' & Hok' & Ho' & Hc'); [|exact Hok2|done|].
    + simpl. rewrite Hf2. rewrite (Permutation_length Hp) in Hlen. simpl in Hlen. lia.
    + exists s'. rewrite H'. rewrite Ho'. simpl. by rewrite Ho2, Ho1.
  - destruct Hr as [-> Hr]. exists s. split; [done|]. split; [done|]. split; [done|].
    destruct Hr as [Hr|Hr]; [done|]. destruct Hok. rewrite ok_cached0, Hr. done.
Qed.

(** [trim(k)] terminates within one round per cached block and leaves at
    most [k] bytes cached, without touching a block a client holds; with
    [k = 0], and so after the destructor, no block is cached and the live heap
    is exactly what clients still hold. *)
Theorem trim_bounds_cache P s out keep :
  platform_ok P -> pool_ok P out [] s -> 0 <= keep ->
  exists s', trim P keep s = Ret tt s' /\ pool_ok P out [] s' /\
    cachedBytes (counters s') <= keep /\
    (keep = 0 -> fl_blocks (freeLists s') = [] /\ range <$> out ≡ₚ live (mem s')).
Proof.
  intros HP Hok Hk.
  destruct (trim_loop_ok P (S (length (fl_blocks (freeLists s)))) keep s out [])
    as (s' & H & Hok' & _ & Hc); [lia|done|done|].
  exists s'. unfold trim, get. unfold mbind, M_bind. split; [done|]. split; [done|].
  split; [done|]. intros ->. pose proof (pool_ok_out_bound _ _ _ _ Hok').
  pose proof Hok' as [[Hm1 _ Hw] _ Hca _ _ _ _].
  destruct (fl_blocks (freeLists s')) as [|b bl] eqn:E.
  - split; [done|]. simpl in Hm1. by rewrite app_nil_r in Hm1.
  - exfalso. simpl in Hw. apply Forall_cons in Hw as [Hwb Hw].
    pose proof (wf_block_size _ _ Hwb). rewrite zsum_cons in Hca.
    enough (0 <= zsum allocationSize bl) by lia. apply zsum_nonneg. intros x Hx.
    rewrite Forall_forall in Hw.
    pose proof (wf_block_size P x (Hw x ltac:(apply elem_of_app; by left))). lia.
Qed.

(** ** Reuse *)

Lemma fl_find_alter k f m :
  keys_sorted m -> fl_find k (fl_alter k f m) = Some (f (default [] (fl_find k m))).
Proof.
  unfold keys_sorted. induction m as [|[k' v] m IH]; intros Hs; simpl.
  - by rewrite Z.eqb_refl.
  - apply StronglySorted_inv in Hs as [Hs1 Hs2]. destruct (k <? k') eqn:E1; to_prop.
    + simpl. rewrite Z.eqb_refl. replace (k =? k') with false by (symmetry; apply Z.eqb_neq; lia).
      rewrite fl_find_above; [done|].
      eapply Forall_impl; [exact Hs2|]. intros ? ?; simpl in *; lia.
    + destruct (k =? k') eqn:E2; to_prop; simpl; [by rewrite Z.eqb_refl|].
      replace (k =? k') with false by (symmetry; apply Z.eqb_neq; lia). by apply IH.
Qed.

(** Reuse: a block returned while the pool has room for it (and while the
    insertion does not fail) is the block the next [acquire] of its size class
    returns, without a system allocation. *)
Theorem release_then_acquire P s out b r :
  platform_ok P -> pool_ok P (b :: out) [] s ->
  failNextCacheInsert s = false -> answers (mem s) = [] ->
  pooledSizeFor P r = Some (usableSize b) ->
  Z.land (usableSize b) (usableSize b - 1) = 0 ->
  usableSize b <= maxPooledStackSize (options s) ->
  cachedBytes (counters s) + allocationSize b <= maxCachedBytes (options s) ->
  exists s1 s2, Pooled.release P b s = Ret tt s1 /\ Pooled.acquire P r s1 = Ret b s2 /\
    systemAllocations (counters s2) = systemAllocations (counters s) /\
    live (mem s2) = live (mem s).
Proof.
  intros HP Hok Hf Ha Hps Hpow Hmax Hroom.
  pose proof (pool_ok_wf _ _ _ _ b Hok ltac:(left)) as Hwf.
  destruct (wf_block_usable P b Hwf) as (Hbb & _).
  pose proof (wf_block_size _ _ Hwf). pose proof (wf_usable _ _ Hwf) as Hus.
  pose proof (wf_size _ _ Hwf). pose proof (wf_guard _ _ Hwf).
  destruct (pool_ok_uncount _ _ _ _ _ Hok) as [Hge _].
  pose proof Hok as [_ Hl Hca Hli _ _ _]. pose proof (pool_ok_out_bound _ _ _ _ Hok).
  unfold Pooled.release. rewrite Hbb. simpl. unfold release_section, release_uncount. pool_run.
  rewrite Hge. unfold release_cache. pool_run.
  replace (release_cacheable _ _ _) with true.
  2: { symmetry. unfold release_cacheable. simpl. rewrite (u64_small (usableSize b - 1)) by lia.
       rewrite u64_small by lia. rewrite !andb_true_iff, !negb_true_iff, !Z.eqb_neq, Z.eqb_eq.
       rewrite !Z.leb_le. repeat split; lia. }
  unfold cache_insert. pool_run. rewrite Hf. unfold os_answer. simpl. rewrite Ha. simpl.
  eexists _, _. split; [reflexivity|].
  unfold Pooled.acquire. rewrite Hps. pool_run.
  replace (acquire_cacheable _ _) with true.
  2: { symmetry. unfold acquire_cacheable. rewrite !andb_true_iff, !negb_true_iff, !Z.eqb_neq.
       rewrite Z.leb_le. lia. }
  unfold acquire_lookup. pool_run. rewrite (fl_find_alter _ _ _ (proj1 Hl)). simpl.
  rewrite unsnoc_snoc. simpl. done.
Qed.

Lemma pool3_ok : pool_ok P0 [block0] [] pool3.
Proof.
  eapply (reachable_ok P0 opts0 [65536; 0] pool0 (World pool3 [block0] []));
    [exact P0_ok|simpl; lia|reflexivity|exact run0].
Qed.

Lemma trim_bounds_cache_witness :
  exists s', trim P0 0 pool3 = Ret tt s' /\ range <$> [block0] ≡ₚ live (mem s').
Proof.
  destruct (trim_bounds_cache P0 pool3 [block0] 0 P0_ok pool3_ok ltac:(lia))
    as (s' & H & _ & _ & Hz).
  exists s'. split; [exact H|]. exact (proj2 (Hz eq_refl)).
Defined.

Definition pool4 : impl := set_mem (Heap (live (mem pool3)) []) pool3.

Lemma release_then_acquire_witness :
  exists s1 s2, Pooled.release P0 block0 pool4 = Ret tt s1 /\
    Pooled.acquire P0 100000 s1 = Ret block0 s2.
Proof.
  destruct (release_then_acquire P0 pool4 [] block0 100000 P0_ok) as (s1 & s2 & H1 & H2 & _).
  - apply pool_ok_mem_live; [reflexivity|exact pool3_ok].
  - reflexivity.
  - reflexivity.
  - vm_compute. reflexivity.
  - reflexivity.
  - simpl. lia.
  - vm_compute. discriminate.
  - exists s1, s2. split; [exact H1|exact H2].
Defined.

(** C18. Both allocators keep the contract [FiberStackAllocator] offers a fiber:
    a request is answered by a block of at least the requested size whose stack
    pointer is the upper end of its usable range, or by [std::bad_alloc] with
    nothing lost; a block is taken back without fail. *)
Theorem allocators_keep_contract P :
  platform_ok P ->
  AllocatorLaws (DirectStackAllocator P) (direct_ok P) /\
  AllocatorLaws (PooledStackAllocator P) (fun out s => pool_ok P out [] s).
Proof. intros HP. split; [by apply Direct_laws|by apply Pooled_laws]. Qed.

Lemma allocators_keep_contract_witness :
  exists s', sa_release (PooledStackAllocator P0) block0 pool3 = Ret tt s'.
Proof.
  destruct (@law_release _ _ _ (proj2 (allocators_keep_contract P0 P0_ok)) block0 pool3 [] pool3_ok)
    as (s' & H & _).
  exists s'. exact H.
Defined.
