(* ===== verification/Timer.v ===== *)
(** * Timers (src/timer.cpp, include/pulsar/timer.hpp)

    The four-level timing wheel with its overflow tree.  Timers are shared
    objects: the wheels hold addresses into a store, and [Timer::cancel] acts
    on the store through such an address. *)

From S2P Require Import Prelude.

(** A callback; [addConditionTimer] binds it to a weak reference ([OnTimer]). *)
Inductive callback : Type :=
| Plain (id : Z)
| Guarded (weak_cond : Z) (id : Z).

#[export] Instance callback_eq_dec : EqDecision callback.
Proof. solve_decision. Defined.

(** What calling it runs: [OnTimer] locks the weak reference first. *)
Definition run_callback (alive : Z -> bool) (c : callback) : list Z :=
  match c with
  | Plain id => [id]
  | Guarded w id => if alive w then [id] else []
  end.

Record timer := Timer {
  recurring_ : bool;
  ms_ : Z;
  next_ : Z;
  cb_ : option callback;
  cancelled_ : bool }.

(** [TimerManager].  [clock] is what [GetElapsedMS] answers next; once it is
    exhausted the time stands still at [last_read].  [front_notifications]
    counts the calls of the virtual [OnTimerInsertedAtFront]. *)
Record manager := Manager {
  store : gmap Z timer;
  wheel0_ : list (list Z);
  wheel1_ : list (list Z);
  wheel2_ : list (list Z);
  wheel3_ : list (list Z);
  timers_ : list Z;
  earliestNext_ : Z;
  tickled_ : bool;
  previouseTime_ : Z;
  front_notifications : nat;
  clock : list Z;
  last_read : Z }.

Definition set_store (x : gmap Z timer) (m : manager) : manager :=
  Manager x (wheel0_ m) (wheel1_ m) (wheel2_ m) (wheel3_ m) (timers_ m) (earliestNext_ m)
    (tickled_ m) (previouseTime_ m) (front_notifications m) (clock m) (last_read m).
Definition set_wheel0 (x : list (list Z)) (m : manager) : manager :=
  Manager (store m) x (wheel1_ m) (wheel2_ m) (wheel3_ m) (timers_ m) (earliestNext_ m)
    (tickled_ m) (previouseTime_ m) (front_notifications m) (clock m) (last_read m).
Definition set_wheel1 (x : list (list Z)) (m : manager) : manager :=
  Manager (store m) (wheel0_ m) x (wheel2_ m) (wheel3_ m) (timers_ m) (earliestNext_ m)
    (tickled_ m) (previouseTime_ m) (front_notifications m) (clock m) (last_read m).
Definition set_wheel2 (x : list (list Z)) (m : manager) : manager :=
  Manager (store m) (wheel0_ m) (wheel1_ m) x (wheel3_ m) (timers_ m) (earliestNext_ m)
    (tickled_ m) (previouseTime_ m) (front_notifications m) (clock m) (last_read m).
Definition set_wheel3 (x : list (list Z)) (m : manager) : manager :=
  Manager (store m) (wheel0_ m) (wheel1_ m) (wheel2_ m) x (timers_ m) (earliestNext_ m)
    (tickled_ m) (previouseTime_ m) (front_notifications m) (clock m) (last_read m).
Definition set_timers (x : list Z) (m : manager) : manager :=
  Manager (store m) (wheel0_ m) (wheel1_ m) (wheel2_ m) (wheel3_ m) x (earliestNext_ m)
    (tickled_ m) (previouseTime_ m) (front_notifications m) (clock m) (last_read m).
Definition set_earliest (x : Z) (m : manager) : manager :=
  Manager (store m) (wheel0_ m) (wheel1_ m) (wheel2_ m) (wheel3_ m) (timers_ m) x
    (tickled_ m) (previouseTime_ m) (front_notifications m) (clock m) (last_read m).
Definition set_tickled (x : bool) (m : manager) : manager :=
  Manager (store m) (wheel0_ m) (wheel1_ m) (wheel2_ m) (wheel3_ m) (timers_ m) (earliestNext_ m)
    x (previouseTime_ m) (front_notifications m) (clock m) (last_read m).
Definition set_previous (x : Z) (m : manager) : manager :=
  Manager (store m) (wheel0_ m) (wheel1_ m) (wheel2_ m) (wheel3_ m) (timers_ m) (earliestNext_ m)
    (tickled_ m) x (front_notifications m) (clock m) (last_read m).
Definition notify_front (m : manager) : manager :=
  Manager (store m) (wheel0_ m) (wheel1_ m) (wheel2_ m) (wheel3_ m) (timers_ m) (earliestNext_ m)
    (tickled_ m) (previouseTime_ m) (S (front_notifications m)) (clock m) (last_read m).
Definition set_clock (c : list Z) (l : Z) (m : manager) : manager :=
  Manager (store m) (wheel0_ m) (wheel1_ m) (wheel2_ m) (wheel3_ m) (timers_ m) (earliestNext_ m)
    (tickled_ m) (previouseTime_ m) (front_notifications m) c l.

(** utils.hpp: the value of the monotonic clock in milliseconds. *)
Definition elapsed_ms (tv_sec tv_nsec : Z) : Z := u64 (tv_sec * 1000 + tv_nsec / 1000000).

Definition GetElapsedMS : M manager Z := fun m =>
  match clock m with
  | [] => Ret (last_read m) m
  | t :: rest => Ret t (set_clock rest t m)
  end.

Definition deref (p : Z) : M manager timer := fun m =>
  match store m !! p with
  | Some t => Ret t m
  | None => Crash (Undefined "dangling Timer::ptr")
  end.

Definition update_timer (p : Z) (t : timer) : M manager unit :=
  modify (fun m => set_store (<[p := t]> (store m)) m).

(** [Timer::Comparator]; [None] is a null pointer, otherwise the expiry time
    and the address of the object. *)
Definition timer_lt (lhs rhs : option (Z * Z)) : bool :=
  match lhs, rhs with
  | None, None => false
  | None, Some _ => true
  | Some _, None => false
  | Some (ln, lp), Some (rn, rp) =>
      if ln <? rn then true
      else if rn <? ln then false
      else lp <? rp
  end.

Definition key_of (st : gmap Z timer) (p : Z) : option (Z * Z) :=
  t ← st !! p; Some (next_ t, p).

(** [std::set::insert]: before the first greater element; an equivalent
    element keeps the set as it is. *)
Fixpoint set_insert (st : gmap Z timer) (p : Z) (l : list Z) : list Z :=
  match l with
  | [] => [p]
  | q :: l' =>
      if timer_lt (key_of st p) (key_of st q) then p :: l
      else if timer_lt (key_of st q) (key_of st p) then q :: set_insert st p l'
      else l
  end.

(** [TimerManager::updateEarliestNext]: the compare-exchange loop.  Every writer
    of [earliestNext_] holds the write lock, so only spurious failures remain
    and the loop stores the minimum. *)
Definition updateEarliestNext (next_ms : Z) : M manager unit :=
  modify (fun m => if next_ms <? earliestNext_ m then set_earliest next_ms m else m).

(** [wheel\[slot\].push_back(val)] *)
Definition push_slot (wheel : list (list Z)) (slot : Z) (val : Z) : option (list (list Z)) :=
  l ← wheel !! Z.to_nat slot; Some (<[Z.to_nat slot := l ++ [val]]> wheel).

Definition push_wheel (pr : manager -> list (list Z)) (up : list (list Z) -> manager -> manager)
    (slot val : Z) : M manager unit := fun m =>
  match push_slot (pr m) slot val with
  | Some w => Ret tt (up w m)
  | None => Crash (Undefined "wheel slot out of range")
  end.

Definition insertToWheel (val : Z) : M manager unit :=
  now_ms ← GetElapsedMS;
  t ← deref val;
  let diff := if next_ t >? now_ms then next_ t - now_ms else 0 in
  updateEarliestNext (next_ t);;
  if diff <? 256 then
    push_wheel wheel0_ set_wheel0 (Z.land (next_ t) 255) val
  else if diff <? 2 ^ 14 then
    push_wheel wheel1_ set_wheel1 (Z.land (Z.shiftr (next_ t) 8) 63) val
  else if diff <? 2 ^ 20 then
    push_wheel wheel2_ set_wheel2 (Z.land (Z.shiftr (next_ t) 14) 63) val
  else if diff <? 2 ^ 26 then
    push_wheel wheel3_ set_wheel3 (Z.land (Z.shiftr (next_ t) 20) 63) val
  else modify (fun m => set_timers (set_insert (store m) val (timers_ m)) m).

(** The body shared by the wheel-0 pass and the tree loop for a due timer: the
    callback it contributes, then re-arm or retire. *)
Definition fire (now_ms p : Z) (t : timer) : M manager (list callback) :=
  let out := match cb_ t with Some c => [c] | None => [] end in
  if recurring_ t then
    update_timer p (Timer true (ms_ t) (u64 (now_ms + ms_ t)) (cb_ t) false);;
    insertToWheel p;;
    mret out
  else
    update_timer p (Timer false (ms_ t) (next_ t) None true);;
    mret out.

Definition iterator_invalidated : crash := Undefined "push_back into the slot being iterated".

(** The range-for over one slot of wheel 0.  [slot] is the vector the loop
    iterates over: a [push_back] into it invalidates the loop's iterators. *)
Fixpoint process_slot (now_ms : Z) (i : nat) (slot todo remaining : list Z) (nextEarliest : Z)
    (cbs : list callback) : M manager (list Z * Z * list callback) :=
  match todo with
  | [] => mret (remaining, nextEarliest, cbs)
  | p :: todo' =>
      t ← deref p;
      if cancelled_ t then process_slot now_ms i slot todo' remaining nextEarliest cbs
      else if next_ t <=? now_ms then
        out ← fire now_ms p t;
        m ← get;
        if bool_decide (wheel0_ m !! i = Some slot)
        then process_slot now_ms i slot todo' remaining nextEarliest (cbs ++ out)
        else stop iterator_invalidated
      else
        process_slot now_ms i slot todo' (remaining ++ [p])
          (if next_ t <? nextEarliest then next_ t else nextEarliest) cbs
  end.

(** The loop over wheel 0; [slot.swap(remaining)] ends each round. *)
Fixpoint process_wheel0 (now_ms : Z) (todo : list nat) (nextEarliest : Z) (cbs : list callback) :
    M manager (Z * list callback) :=
  match todo with
  | [] => mret (nextEarliest, cbs)
  | i :: todo' =>
      m ← get;
      match wheel0_ m !! i with
      | None => stop (Undefined "wheel slot out of range")
      | Some [] => process_wheel0 now_ms todo' nextEarliest cbs
      | Some slot =>
          '(remaining, ne, cbs') ← process_slot now_ms i slot slot [] nextEarliest cbs;
          modify (fun m => set_wheel0 (<[i := remaining]> (wheel0_ m)) m);;
          process_wheel0 now_ms todo' ne cbs'
      end
  end.

(** Re-insert the timers taken out of one slot of an upper wheel. *)
Fixpoint reinsert (l : list Z) : M manager unit :=
  match l with
  | [] => mret tt
  | p :: l' =>
      t ← deref p;
      (if negb (cancelled_ t) then insertToWheel p else mret tt);;
      reinsert l'
  end.

Fixpoint cascade (pr : manager -> list (list Z)) (up : list (list Z) -> manager -> manager)
    (todo : list nat) : M manager unit :=
  match todo with
  | [] => mret tt
  | k :: todo' =>
      m ← get;
      match pr m !! k with
      | None => stop (Undefined "wheel slot out of range")
      | Some toInsert =>
          modify (fun m => up (<[k := []]> (pr m)) m);;
          reinsert toInsert;;
          cascade pr up todo'
      end
  end.

(** The loop over the overflow tree.  Running out of fuel would be an endless
    loop; [advanceWheel] provides enough. *)
Fixpoint drain_tree (fuel : nat) (now_ms : Z) (cbs : list callback) : M manager (list callback) :=
  m ← get;
  match timers_ m with
  | [] => mret cbs
  | p :: rest =>
      t ← deref p;
      if next_ t <=? now_ms then
        match fuel with
        | O => stop (Panic "out of fuel")
        | S fuel' =>
            modify (set_timers rest);;
            if cancelled_ t then drain_tree fuel' now_ms cbs
            else
              out ← fire now_ms p t;
              drain_tree fuel' now_ms (cbs ++ out)
        end
      else mret cbs
  end.

Definition NEVER : Z := UINT64_MAX.

Definition advanceWheel (now_ms : Z) (cbs : list callback) : M manager (list callback) :=
  m ← get;
  '(nextEarliest, cbs1) ← process_wheel0 now_ms (seq 0 (length (wheel0_ m))) NEVER cbs;
  m ← get;
  cascade wheel1_ set_wheel1 (seq 0 (length (wheel1_ m)));;
  m ← get;
  cascade wheel2_ set_wheel2 (seq 0 (length (wheel2_ m)));;
  m ← get;
  cascade wheel3_ set_wheel3 (seq 0 (length (wheel3_ m)));;
  m ← get;
  cbs2 ← drain_tree (length (timers_ m)) now_ms cbs1;
  m ← get;
  match timers_ m with
  | [] => modify (set_earliest nextEarliest)
  | p :: _ =>
      t ← deref p;
      modify (set_earliest (if next_ t <? nextEarliest then next_ t else nextEarliest))
  end;;
  mret cbs2.

Definition detectClockRolllover (now_ms : Z) : M manager bool :=
  m ← get;
  let rollover := (now_ms <? previouseTime_ m) &&
                  (now_ms <? u64 (previouseTime_ m - 60 * 60 * 1000)) in
  modify (set_previous now_ms);;
  mret rollover.

Definition listExpiredCb (cbs : list callback) : M manager (list callback) :=
  now_ms ← GetElapsedMS;
  detectClockRolllover now_ms;;
  advanceWheel now_ms cbs.

(** The protected [addTimer(Timer::ptr, WriteLock&)]. *)
Definition addTimer_locked (val : Z) : M manager unit :=
  t ← deref val;
  m ← get;
  let at_front := next_ t <? earliestNext_ m in
  insertToWheel val;;
  m ← get;
  if at_front && negb (tickled_ m)
  then modify (set_tickled true);; modify notify_front
  else mret tt.

(** [addTimer]: construct the timer at the fresh address [p] and insert it. *)
Definition addTimer (p ms : Z) (cb : option callback) (recurring : bool) : M manager Z :=
  now ← GetElapsedMS;
  update_timer p (Timer recurring ms (u64 (now + ms)) cb false);;
  addTimer_locked p;;
  mret p.

Definition addConditionTimer (p ms : Z) (cb weak_cond : Z) (recurring : bool) : M manager Z :=
  addTimer p ms (Some (Guarded weak_cond cb)) recurring.

Definition getNextTimer : M manager Z :=
  modify (set_tickled false);;
  m ← get;
  let earliest0 := earliestNext_ m in
  now_ms ← GetElapsedMS;
  earliest ← (if earliest0 =? NEVER then
                match timers_ m with
                | [] => mret earliest0
                | p :: _ => t ← deref p; mret (next_ t)
                end
              else mret earliest0);
  if earliest =? NEVER then mret NEVER
  else if now_ms >=? earliest then mret 0
  else mret (earliest - now_ms).

(** [Timer::cancel] *)
Definition cancel (p : Z) : M manager bool :=
  t ← deref p;
  if cancelled_ t then mret false
  else
    update_timer p (Timer (recurring_ t) (ms_ t) (next_ t) None true);;
    mret true.

(** The constructor. *)
Definition init_manager (clk : list Z) (start : Z) : manager :=
  Manager ∅ (replicate 256 []) (replicate 64 []) (replicate 64 []) (replicate 64 [])
    [] NEVER false start 0 clk start.
