(* ===== verification/TimerProofs.v ===== *)
(** * Correctness of the timer wheel

    No timer fires early or after cancellation, every due timer of wheel 0
    fires, no live timer is dropped, the passes terminate and stay in range;
    and what the end of [advanceWheel] does to [earliestNext_]. *)

From stdpp Require Import sorting.
From S2P Require Import Prelude Timer.

(** ** Locations *)

Inductive loc : Type := L0 (k : nat) | L1 (k : nat) | L2 (k : nat) | L3 (k : nat) | LT.

#[export] Instance loc_eq_dec : EqDecision loc.
Proof. solve_decision. Defined.

Definition at_loc (m : manager) (l : loc) : list Z :=
  match l with
  | L0 k => default [] (wheel0_ m !! k)
  | L1 k => default [] (wheel1_ m !! k)
  | L2 k => default [] (wheel2_ m !! k)
  | L3 k => default [] (wheel3_ m !! k)
  | LT => timers_ m
  end.

(** The addresses of the slots resolve, and the wheels have their sizes. *)
Record wf (m : manager) : Prop := {
  wf_len0 : length (wheel0_ m) = 256%nat;
  wf_len1 : length (wheel1_ m) = 64%nat;
  wf_len2 : length (wheel2_ m) = 64%nat;
  wf_len3 : length (wheel3_ m) = 64%nat;
  wf_ptr : forall l p, p ∈ at_loc m l -> is_Some (store m !! p);
  wf_next : forall p t, store m !! p = Some t -> 0 <= next_ t < 2 ^ 64;
  wf_clock : StronglySorted Z.le (last_read m :: clock m) }.

Lemma push_slot_spec w slot val n :
  length w = n -> 0 <= slot < Z.of_nat n ->
  exists l, w !! Z.to_nat slot = Some l /\
    push_slot w slot val = Some (<[Z.to_nat slot := l ++ [val]]> w).
Proof.
  intros Hl Hs. destruct (lookup_lt_is_Some_2 w (Z.to_nat slot)) as [l Hw]; [lia|].
  exists l. split; [done|]. unfold push_slot. by rewrite Hw.
Qed.

Lemma land_bound z n : 0 <= n -> 0 <= Z.land z (Z.ones n) < 2 ^ n.
Proof. intros. rewrite Z.land_ones by done. apply Z.mod_pos_bound. lia. Qed.

Lemma default_insert (w : list (list Z)) k l j :
  (k < length w)%nat ->
  default [] (<[k := l]> w !! j) = if decide (k = j) then l else default [] (w !! j).
Proof.
  intros Hk. destruct (decide (k = j)) as [->|Hne].
  - by rewrite list_lookup_insert_eq.
  - by rewrite list_lookup_insert_ne.
Qed.

(** ** The tree *)

Lemma timer_lt_irrefl_ptr st p q t u :
  st !! p = Some t -> st !! q = Some u ->
  timer_lt (key_of st p) (key_of st q) = false ->
  timer_lt (key_of st q) (key_of st p) = false -> p = q.
Proof.
  intros Hp Hq. unfold key_of. rewrite Hp, Hq. simpl.
  destruct (next_ t <? next_ u) eqn:E1, (next_ u <? next_ t) eqn:E2; to_prop; try done; lia.
Qed.

Lemma set_insert_spec st p l :
  is_Some (st !! p) -> (forall q, q ∈ l -> is_Some (st !! q)) ->
  p ∈ set_insert st p l /\ (forall q, q ∈ set_insert st p l <-> q = p \/ q ∈ l).
Proof.
  intros [t Hp] Hl. induction l as [|q l IH]; simpl; [set_solver|].
  destruct (Hl q ltac:(left)) as [u Hq].
  destruct IH as [IH1 IH2]; [intros; apply Hl; by right|].
  destruct (timer_lt (key_of st p) (key_of st q)) eqn:E1; [set_solver|].
  destruct (timer_lt (key_of st q) (key_of st p)) eqn:E2; [set_solver|].
  assert (p = q) as -> by by eapply timer_lt_irrefl_ptr. set_solver.
Qed.

(** ** Inserting one timer *)

Definition flags (m : manager) : bool * nat := (tickled_ m, front_notifications m).

Lemma GetElapsedMS_spec m :
  wf m -> exists now m', GetElapsedMS m = Ret now m' /\ wf m' /\ last_read m' = now /\
    last_read m <= now /\ store m' = store m /\ (forall l, at_loc m' l = at_loc m l) /\
    earliestNext_ m' = earliestNext_ m /\ flags m' = flags m.
Proof.
  intros Hwf. pose proof (wf_clock _ Hwf) as Hc. unfold GetElapsedMS.
  destruct (clock m) as [|t rest] eqn:E.
  - exists (last_read m), m. split_and!; try done; lia.
  - apply StronglySorted_inv in Hc as [Hc1 Hc2]. apply Forall_cons in Hc2 as [Hle _].
    eexists t, _. split; [done|]. split_and!; try done.
    destruct Hwf. by split.
Qed.

(** [m'] is [m] with [p] added at [l], up to the clock and [earliestNext_]. *)
Record inserted (p : Z) (l : loc) (m m' : manager) : Prop := {
  ins_wf : wf m';
  ins_store : store m' = store m;
  ins_in : p ∈ at_loc m' l;
  ins_keep : forall l' q, q ∈ at_loc m l' -> q ∈ at_loc m' l';
  ins_only : forall l' q, q ∈ at_loc m' l' -> q ∈ at_loc m l' \/ (q = p /\ l' = l);
  ins_other : forall l', l' <> l -> at_loc m' l' = at_loc m l';
  ins_grow : l <> LT -> at_loc m' l = at_loc m l ++ [p];
  ins_tree : l = LT -> timers_ m' = set_insert (store m) p (timers_ m);
  ins_clock : last_read m <= last_read m';
  ins_tickled : flags m' = flags m }.

Lemma push_inserted p l m m' wl :
  wf m -> is_Some (store m !! p) ->
  (forall l', at_loc m' l' = if decide (l' = l) then wl ++ [p] else at_loc m l') -> l <> LT ->
  at_loc m l = wl -> store m' = store m ->
  length (wheel0_ m') = 256%nat -> length (wheel1_ m') = 64%nat ->
  length (wheel2_ m') = 64%nat -> length (wheel3_ m') = 64%nat ->
  last_read m' = last_read m -> clock m' = clock m -> flags m' = flags m ->
  inserted p l m m'.
Proof.
  intros Hwf Hp Hat HLT Hl Hst H0 H1 H2 H3 Hr Hc Ht.
  assert (Hone : forall l' q, q ∈ at_loc m' l' -> q ∈ at_loc m l' \/ (q = p /\ l' = l)).
  { intros l' q. rewrite Hat. case_decide; [subst l'; rewrite Hl|tauto].
    rewrite elem_of_app, list_elem_of_singleton. tauto. }
  split; try done; [| | | | |lia].
  - split; try done.
    + intros l' q [Hq|[-> _]]%Hone; rewrite Hst; [|done]. by eapply wf_ptr.
    + rewrite Hst. apply Hwf.
    + rewrite Hr, Hc. apply Hwf.
  - rewrite Hat. case_decide; [|done]. apply elem_of_app. right. left.
  - intros l' q Hq. rewrite Hat. case_decide; [|done]. subst l'. rewrite Hl in Hq.
    apply elem_of_app. by left.
  - intros l' Hne. rewrite Hat. by case_decide.
  - intros _. rewrite Hat, Hl. by case_decide.
Qed.

Lemma inserted_after p l m1 m2 m :
  inserted p l m1 m2 -> store m1 = store m -> (forall l', at_loc m1 l' = at_loc m l') ->
  last_read m <= last_read m1 -> flags m1 = flags m -> inserted p l m m2.
Proof.
  intros [] Hst Hat Hle Ht. split; try done; try congruence; try lia.
  - intros l' q Hq. apply ins_keep0. by rewrite Hat.
  - intros l' q Hq. rewrite <- Hat. by apply ins_only0.
  - intros l' Hne. rewrite <- Hat. by apply ins_other0.
  - rewrite <- Hat. exact ins_grow0.
  - intros HLT. rewrite ins_tree0 by done. rewrite Hst. f_equal. apply (Hat LT).
Qed.

Definition upd_earliest (n : Z) (m : manager) : manager :=
  if n <? earliestNext_ m then set_earliest n m else m.

(** One branch of [insertToWheel]: the push into a slot of one wheel. *)
Definition push_ok (p : Z) (pr : manager -> list (list Z))
    (up : list (list Z) -> manager -> manager) (n : nat) (L : nat -> loc) : Prop :=
  forall slot m, wf m -> is_Some (store m !! p) -> 0 <= slot < Z.of_nat n ->
  exists m', push_wheel pr up slot p m = Ret tt m' /\
    inserted p (L (Z.to_nat slot)) m m' /\ earliestNext_ m' = earliestNext_ m /\
    last_read m' = last_read m.

Ltac push_case lemma_len p :=
  let m := fresh "m" in let slot := fresh "slot" in
  let Hwf := fresh in let Hp := fresh in let Hs := fresh in
  let wl := fresh "wl" in let Hw := fresh "Hw" in let E := fresh "E" in
  intros slot m Hwf Hp Hs; pose proof (lemma_len _ Hwf) as Hlen;
  destruct (push_slot_spec _ _ p _ Hlen Hs) as (wl & Hw & E);
  unfold push_wheel; rewrite E; eexists; split; [reflexivity|]; split; [|split; reflexivity];
  clear E Hs; generalize dependent (Z.to_nat slot); intros k Hw;
  pose proof Hwf as [? ? ? ? _ _ _];
  eapply (push_inserted _ _ _ _ wl); try done; simpl;
  [ intros []; simpl; try done; rewrite default_insert by
      (eapply lookup_lt_Some; exact Hw);
    case_decide; case_decide; naive_solver
  | by rewrite Hw
  | by rewrite length_insert ].

Lemma push_wheel0 p : push_ok p wheel0_ set_wheel0 256 L0.
Proof. push_case wf_len0 p. Qed.
Lemma push_wheel1 p : push_ok p wheel1_ set_wheel1 64 L1.
Proof. push_case wf_len1 p. Qed.
Lemma push_wheel2 p : push_ok p wheel2_ set_wheel2 64 L2.
Proof. push_case wf_len2 p. Qed.
Lemma push_wheel3 p : push_ok p wheel3_ set_wheel3 64 L3.
Proof. push_case wf_len3 p. Qed.

(** Which timers go to the tree, and which to wheel 0. *)
Definition level_ok (l : loc) (now next : Z) : Prop :=
  (l = LT -> now + 2 ^ 26 <= next) /\ (next < now + 256 -> exists k, l = L0 k).

(** Recording the earliest deadline changes nothing else. *)
Lemma upd_earliest_spec x m : wf m ->
  wf (upd_earliest x m) /\ earliestNext_ (upd_earliest x m) = Z.min (earliestNext_ m) x /\
  store (upd_earliest x m) = store m /\ (forall l, at_loc (upd_earliest x m) l = at_loc m l) /\
  last_read (upd_earliest x m) = last_read m /\ clock (upd_earliest x m) = clock m /\ flags (upd_earliest x m) = flags m.
Proof.
  intros Hwf. unfold upd_earliest. destruct (_ <? _) eqn:E; to_prop; simpl; split_and!; try done; [|lia..].
  destruct Hwf. by split.
Qed.

(** A timer beyond the wheels goes to the tree. *)
Lemma insert_tree p m : wf m -> is_Some (store m !! p) ->
  inserted p LT m (set_timers (set_insert (store m) p (timers_ m)) m).
Proof.
  intros Hwf Hp. destruct (set_insert_spec (store m) p (timers_ m) Hp (wf_ptr _ Hwf LT)) as [S1 S2].
  assert (Hone : forall l q, q ∈ at_loc (set_timers (set_insert (store m) p (timers_ m)) m) l ->
    q ∈ at_loc m l \/ (q = p /\ l = LT)).
  { intros [] q; simpl; rewrite ?S2; naive_solver. }
  split; try done.
  - destruct Hwf. split; try done. intros l q [Hq|[-> _]]%Hone; [|done]. by eapply wf_ptr0.
  - intros [] q Hq; simpl in *; try done. apply S2. by right.
  - by intros [].
Qed.

Lemma insertToWheel_spec p m t :
  wf m -> store m !! p = Some t ->
  exists l m', insertToWheel p m = Ret tt m' /\ inserted p l m m' /\
    earliestNext_ m' = Z.min (earliestNext_ m) (next_ t) /\
    level_ok l (last_read m') (next_ t).
Proof.
  intros Hwf Ht. destruct (GetElapsedMS_spec m Hwf) as
    (now & m1 & Hg & Hwf1 & Hnow & Hle & Hst & Hat & He & Htk).
  assert (Hp1 : is_Some (store m1 !! p)) by (rewrite Hst; eauto).
  unfold insertToWheel. unfold mbind, M_bind. rewrite Hg. unfold deref. rewrite Hst, Ht.
  unfold updateEarliestNext, modify.
  change (if next_ t <? earliestNext_ m1 then set_earliest (next_ t) m1 else m1)
    with (upd_earliest (next_ t) m1).
  set (m2 := upd_earliest (next_ t) m1) in *.
  destruct (upd_earliest_spec (next_ t) m1 Hwf1) as (Hwf2 & Hmin & Hst2 & Hat2 & Hr2 & Hc2 & Ht2). rewrite He in Hmin.
  fold m2 in Hwf2, Hmin, Hst2, Hat2, Hr2, Hc2, Ht2. clearbody m2.
  assert (Hp2 : is_Some (store m2 !! p)) by (by rewrite Hst2).
  assert (Hfin : forall l m3, inserted p l m2 m3 -> inserted p l m m3).
  { intros l m3 Hi. eapply inserted_after; [exact Hi| | | |].
    - by rewrite Hst2. - intros l'. by rewrite Hat2, Hat. - lia. - by rewrite Ht2. }
  set (diff := if next_ t >? now then next_ t - now else 0).
  assert (B0 : 0 <= Z.land (next_ t) 255 < Z.of_nat 256)
    by (apply (land_bound _ 8); lia).
  assert (B1 : forall k, 0 <= Z.land (Z.shiftr (next_ t) k) 63 < Z.of_nat 64)
    by (intros k; apply (land_bound _ 6); lia).
  assert (Hpush : forall pr up n L slot, push_ok p pr up n L -> 0 <= slot < Z.of_nat n ->
    (forall k, level_ok (L k) now (next_ t)) ->
    exists l m', push_wheel pr up slot p m2 = Ret tt m' /\ inserted p l m m' /\
    earliestNext_ m' = Z.min (earliestNext_ m) (next_ t) /\
    level_ok l (last_read m') (next_ t)).
  { intros pr up n L slot Hok Hs HL. destruct (Hok slot m2 Hwf2 Hp2 Hs) as (m' & H1 & H2 & H3 & H4).
    exists (L (Z.to_nat slot)), m'. split; [done|]. split; [by apply Hfin|].
    split; [congruence|]. rewrite H4, Hr2, Hnow. apply HL. }
  assert (Hlev : forall L : nat -> loc, (forall k, L k <> LT) -> 256 <= diff ->
    forall k, level_ok (L k) now (next_ t)).
  { intros L HL Hd k. split; [intros E; by apply HL in E|].
    unfold diff in Hd. destruct (next_ t >? now) eqn:E; to_prop; lia. }
  destruct (diff <? 256) eqn:E0.
  { eapply Hpush; [apply push_wheel0|apply B0|]. intros k. split; [done|eauto]. }
  destruct (diff <? 2 ^ 14).
  { eapply Hpush; [apply push_wheel1|apply B1|]. apply Hlev; [done|by to_prop]. }
  destruct (diff <? 2 ^ 20).
  { eapply Hpush; [apply push_wheel2|apply B1|]. apply Hlev; [done|by to_prop]. }
  destruct (diff <? 2 ^ 26) eqn:E26.
  { eapply Hpush; [apply push_wheel3|apply B1|]. apply Hlev; [done|by to_prop]. }
  eexists LT, _. split; [reflexivity|]. split; [|split; [done|]].
  2: { to_prop. unfold diff in E26. simpl. rewrite Hr2, Hnow.
       destruct (next_ t >? now) eqn:E; to_prop; split; intros; lia. }
  by apply Hfin, insert_tree.
Qed.

(** ** One pass of [advanceWheel]

    [F] is the sequence of timers fired so far; the store after the pass is a
    function of the store before it and of [F]. *)

Definition settle (now : Z) (t : timer) : timer :=
  if recurring_ t then Timer true (ms_ t) (u64 (now + ms_ t)) (cb_ t) false
  else Timer false (ms_ t) (next_ t) None true.

Definition live (m : manager) (p : Z) : Prop :=
  exists t, store m !! p = Some t /\ cancelled_ t = false.

Definition due (now : Z) (m : manager) (p : Z) : Prop :=
  exists t, store m !! p = Some t /\ cancelled_ t = false /\ next_ t <= now.

Definition one_shot (m : manager) (p : Z) : Prop :=
  exists t, store m !! p = Some t /\ recurring_ t = false.

Definition callbacks_of (m : manager) (F : list Z) : list callback :=
  omap (fun p => store m !! p ≫= cb_) F.

Record pass (now : Z) (m : manager) (F : list Z) (m' : manager) : Prop := {
  pass_wf : wf m';
  pass_store : forall p, store m' !! p =
    if decide (p ∈ F) then settle now <$> store m !! p else store m !! p;
  pass_due : forall p, p ∈ F -> due now m p;
  pass_once : forall p, one_shot m p -> (count_occ Z.eq_dec F p <= 1)%nat;
  pass_clock : last_read m <= last_read m' }.

Lemma pass_refl now m : wf m -> pass now m [] m.
Proof.
  intros Hwf. split; [done| |set_solver|simpl; lia|done].
  intros p. case_decide; [set_solver|done].
Qed.

Lemma settle_settle now t : cancelled_ (settle now t) = false -> settle now (settle now t) = settle now t.
Proof. unfold settle. destruct (recurring_ t) eqn:E; simpl; [done|discriminate]. Qed.

Lemma count_occ_pos (F : list Z) p : (0 < count_occ Z.eq_dec F p)%nat <-> p ∈ F.
Proof. rewrite list_elem_of_In. symmetry. apply count_occ_In. Qed.

(** A timer fired in the second half and in the first is a recurring one. *)
Lemma pass_twice now m F m1 p :
  pass now m F m1 -> p ∈ F -> live m1 p ->
  exists t, store m !! p = Some t /\ recurring_ t = true /\ store m1 !! p = Some (settle now t).
Proof.
  intros HP Hp (t1 & H1 & Hc). destruct (pass_due _ _ _ _ HP p Hp) as (t & Ht & _ & _).
  rewrite (pass_store _ _ _ _ HP), decide_True, Ht in H1 by done. simpl in H1. simplify_eq.
  exists t. split; [done|]. rewrite (pass_store _ _ _ _ HP), decide_True, Ht by done.
  split; [|done]. unfold settle in Hc. by destruct (recurring_ t).
Qed.

Lemma due_live now m p : due now m p -> live m p.
Proof. intros (t & ? & ? & ?). by exists t. Qed.

Lemma due_back now m F m1 p : pass now m F m1 -> due now m1 p -> due now m p.
Proof.
  intros HP (t & H & Hd). rewrite (pass_store _ _ _ _ HP) in H.
  case_decide as E; [by apply (pass_due _ _ _ _ HP)|]. by exists t.
Qed.

Lemma one_shot_forward now m F m1 p : pass now m F m1 -> one_shot m p -> one_shot m1 p.
Proof.
  intros HP (t & Ht & Hr). unfold one_shot. rewrite (pass_store _ _ _ _ HP), Ht.
  case_decide; simpl; eexists; split; [reflexivity| |reflexivity|done].
  unfold settle. by rewrite Hr.
Qed.

Lemma pass_trans now m F1 m1 F2 m2 :
  pass now m F1 m1 -> pass now m1 F2 m2 -> pass now m (F1 ++ F2) m2.
Proof.
  intros P1 P2. split.
  - apply P2.
  - intros p. rewrite (pass_store _ _ _ _ P2).
    destruct (decide (p ∈ F2)) as [H2|H2].
    + pose proof (due_live _ _ _ (pass_due _ _ _ _ P2 p H2)) as Hl.
      rewrite decide_True by (apply elem_of_app; by right).
      destruct (decide (p ∈ F1)) as [H1|H1].
      * destruct (pass_twice _ _ _ _ _ P1 H1 Hl) as (t & Ht & Hr & Hs).
        rewrite Hs, Ht. simpl. f_equal. apply settle_settle. unfold settle. by rewrite Hr.
      * by rewrite (pass_store _ _ _ _ P1), decide_False by done.
    + rewrite (pass_store _ _ _ _ P1).
      destruct (decide (p ∈ F1)) as [H1|H1];
        [rewrite decide_True by (apply elem_of_app; by left)
        |rewrite decide_False by (rewrite elem_of_app; tauto)]; done.
  - intros p [H1|H2]%elem_of_app; [by apply (pass_due _ _ _ _ P1)|].
    eapply due_back; [exact P1|]. by apply (pass_due _ _ _ _ P2).
  - intros p Hs. rewrite count_occ_app.
    pose proof (pass_once _ _ _ _ P1 p Hs).
    pose proof (pass_once _ _ _ _ P2 p (one_shot_forward _ _ _ _ _ P1 Hs)).
    destruct (decide (p ∈ F2)) as [H2|H2].
    + destruct (decide (p ∈ F1)) as [H1|H1].
      * pose proof (due_live _ _ _ (pass_due _ _ _ _ P2 p H2)) as Hl.
        destruct (pass_twice _ _ _ _ _ P1 H1 Hl) as (t & Ht & Hr & _).
        destruct Hs as (? & ? & ?). congruence.
      * rewrite <- count_occ_pos in H1. lia.
    + rewrite <- count_occ_pos in H2. lia.
  - pose proof (pass_clock _ _ _ _ P1). pose proof (pass_clock _ _ _ _ P2). lia.
Qed.

Lemma callbacks_of_app m F1 F2 : callbacks_of m (F1 ++ F2) = callbacks_of m F1 ++ callbacks_of m F2.
Proof. apply omap_app. Qed.

Lemma callbacks_of_later now m F m1 F2 :
  pass now m F m1 -> (forall p, p ∈ F2 -> due now m1 p) -> callbacks_of m1 F2 = callbacks_of m F2.
Proof.
  intros HP HF. induction F2 as [|p F2 IH]; [done|].
  assert (E : store m1 !! p ≫= cb_ = store m !! p ≫= cb_).
  { rewrite (pass_store _ _ _ _ HP). case_decide as Hp; [|done].
    destruct (pass_twice _ _ _ _ _ HP Hp (due_live _ _ _ (HF p ltac:(left)))) as (t & Ht & Hr & _).
    rewrite Ht. simpl. unfold settle. by rewrite Hr. }
  rewrite !(callbacks_of_app _ [p] F2), IH by (intros; apply HF; by right).
  unfold callbacks_of. simpl. by rewrite E.
Qed.

(** ** Outcomes

    [good R c m Q]: [c] returns in [Q], or, only when [R] allows it, stops at
    the iterator invalidation of the wheel-0 loop; nothing else happens. *)
Definition good {A} (R : Prop) (c : M manager A) (m : manager) (Q : A -> manager -> Prop) : Prop :=
  match c m with
  | Ret a m' => Q a m'
  | Throw _ _ => False
  | Crash w => w = iterator_invalidated /\ R
  end.

Lemma good_ret {A} R (a : A) m Q : Q a m -> good R (mret a) m Q.
Proof. done. Qed.

Lemma good_bind {A B} R (c : M manager A) (k : A -> M manager B) m Q :
  good R c m (fun a m' => good R (k a) m' Q) -> good R (c ≫= k) m Q.
Proof. unfold good, mbind, M_bind. by destruct (c m). Qed.

Lemma good_mono {A} R (c : M manager A) m (P Q : A -> manager -> Prop) :
  good R c m P -> (forall a m', P a m' -> Q a m') -> good R c m Q.
Proof. unfold good. destruct (c m); naive_solver. Qed.

Lemma good_step {A} R (c : M manager A) m a m' Q : c m = Ret a m' -> Q a m' -> good R c m Q.
Proof. unfold good. by intros ->. Qed.

Lemma good_deref {B} R p t (k : timer -> M manager B) m Q :
  store m !! p = Some t -> good R (k t) m Q -> good R (deref p ≫= k) m Q.
Proof. intros Hp Hk. apply good_bind. eapply good_step; [|exact Hk]. unfold deref. by rewrite Hp. Qed.

Lemma good_get {B} R (k : manager -> M manager B) m Q :
  good R (k m) m Q -> good R (get ≫= k) m Q.
Proof. done. Qed.

Lemma good_modify {B} R f (k : unit -> M manager B) m Q :
  good R (k tt) (f m) Q -> good R (modify f ≫= k) m Q.
Proof. done. Qed.

Definition grows (m m' : manager) : Prop := forall l q, q ∈ at_loc m l -> q ∈ at_loc m' l.

(** Where the re-armed timer went. *)
Definition rearmed (m : manager) (p : Z) (m' : manager) : Prop :=
  exists l, p ∈ at_loc m' l /\ (l <> LT -> at_loc m' l = at_loc m l ++ [p]).

(** How the tree changes: at most by a timer that is not due. *)
Definition tree_step (now : Z) (m m' : manager) (p : Z) : Prop :=
  timers_ m' = timers_ m \/
  (timers_ m' = set_insert (store m') p (timers_ m) /\
   exists t, store m' !! p = Some t /\ now < next_ t).

Lemma settle_next now t : 0 <= next_ t < 2 ^ 64 -> 0 <= next_ (settle now t) < 2 ^ 64.
Proof. intros. unfold settle. destruct (recurring_ t); [apply u64_range|done]. Qed.

Lemma wf_settle now m p t :
  wf m -> store m !! p = Some t -> wf (set_store (<[p := settle now t]> (store m)) m).
Proof.
  intros [] Hp. split; try done.
  - intros l q Hq. simpl. apply (wf_ptr0 l) in Hq as [u Hu].
    destruct (decide (q = p)) as [->|]; [rewrite lookup_insert_eq|rewrite lookup_insert_ne by done]; eauto.
  - intros q u. simpl. intros [[<- <-]|[_ Hq]]%lookup_insert_Some; [|eauto].
    apply settle_next. eauto.
Qed.

Lemma pass_one now m p t m' :
  wf m' -> store m !! p = Some t -> cancelled_ t = false -> next_ t <= now ->
  store m' = <[p := settle now t]> (store m) -> last_read m <= last_read m' ->
  pass now m [p] m'.
Proof.
  intros Hwf Hp Hc Hn Hst Hr. split; try done.
  - intros q. rewrite Hst. case_decide as E.
    + apply list_elem_of_singleton in E as ->. by rewrite lookup_insert_eq, Hp.
    + rewrite list_elem_of_singleton in E. by rewrite lookup_insert_ne.
  - intros q ->%list_elem_of_singleton. by exists t.
  - intros q _. simpl. by case_match; lia.
Qed.

Lemma fire_spec now m p t :
  wf m -> store m !! p = Some t -> cancelled_ t = false -> next_ t <= now -> now <= last_read m ->
  exists m', fire now p t m = Ret (callbacks_of m [p]) m' /\ pass now m [p] m' /\
    grows m m' /\ tree_step now m m' p /\ (live m' p -> rearmed m p m').
Proof.
  intros Hwf Hp Hc Hn Hl. pose proof (wf_settle now _ _ _ Hwf Hp) as Hwf1.
  assert (Hcb : callbacks_of m [p] = match cb_ t with Some c => [c] | None => [] end).
  { unfold callbacks_of. simpl. rewrite Hp. done. }
  rewrite Hcb. unfold fire, update_timer. unfold settle in Hwf1.
  destruct (recurring_ t) eqn:Er.
  - destruct (insertToWheel_spec p _ (settle now t) Hwf1) as (l & m' & E & I & _ & Hlev).
    { simpl. rewrite lookup_insert_eq. unfold settle. by rewrite Er. }
    exists m'. unfold mbind, M_bind, modify. rewrite E. split; [done|].
    pose proof (ins_store _ _ _ _ I) as Hst. simpl in Hst.
    assert (Hst' : store m' = <[p := settle now t]> (store m)).
    { rewrite Hst. unfold settle. by rewrite Er. }
    split; [|split; [|split]].
    + eapply pass_one; try done; [apply I|]. apply (ins_clock _ _ _ _ I).
    + intros l' q Hq. apply (ins_keep _ _ _ _ I). exact Hq.
    + destruct (decide (l = LT)) as [->|HLT].
      * right. split; [rewrite Hst; by apply (ins_tree _ _ _ _ I)|].
        exists (settle now t). rewrite Hst', lookup_insert_eq. split; [done|].
        destruct Hlev as [Hlev _]. specialize (Hlev eq_refl).
        pose proof (ins_clock _ _ _ _ I) as Hcl. simpl in Hcl. lia.
      * left. apply (ins_other _ _ _ _ I LT). congruence.
    + intros _. exists l. split; [apply I|]. intros HLT. apply (ins_grow _ _ _ _ I HLT).
  - eexists. split; [reflexivity|].
    assert (Es : settle now t = Timer false (ms_ t) (next_ t) None true).
    { unfold settle. by rewrite Er. }
    split; [|split; [|split]].
    + eapply pass_one; try done. simpl. by rewrite Es.
    + by intros l q.
    + by left.
    + intros (u & Hu & Hcu). simpl in Hu. rewrite lookup_insert_eq in Hu. by simplify_eq.
Qed.

Lemma live_back now m F m1 p : pass now m F m1 -> live m1 p -> live m p.
Proof.
  intros HP (t & H & Hd). rewrite (pass_store _ _ _ _ HP) in H.
  case_decide as E; [by eapply due_live, (pass_due _ _ _ _ HP)|]. by exists t.
Qed.

Lemma due_forward now m F m1 p : pass now m F m1 -> due now m p -> p ∈ F \/ due now m1 p.
Proof.
  intros HP (t & H & Hd). destruct (decide (p ∈ F)); [by left|right].
  exists t. by rewrite (pass_store _ _ _ _ HP), decide_False.
Qed.

(** Prefixing a result about [m1] with the pass that led to it. *)
Lemma pass_cons now m F1 m1 F2 m2 cbs :
  pass now m F1 m1 -> pass now m1 F2 m2 ->
  pass now m (F1 ++ F2) m2 /\
  (cbs ++ callbacks_of m F1) ++ callbacks_of m1 F2 = cbs ++ callbacks_of m (F1 ++ F2).
Proof.
  intros P1 P2. split; [by eapply pass_trans|].
  rewrite (callbacks_of_later _ _ _ _ _ P1 (pass_due _ _ _ _ P2)), callbacks_of_app.
  by rewrite app_assoc.
Qed.

Definition may_recur (R : Prop) (m : manager) : Prop :=
  forall p t, store m !! p = Some t -> recurring_ t = true -> R.

Lemma may_recur_pass R now m F m1 : pass now m F m1 -> may_recur R m -> may_recur R m1.
Proof.
  intros HP HR p t Hp Hr. rewrite (pass_store _ _ _ _ HP) in Hp.
  destruct (store m !! p) as [u|] eqn:Hu; [|by case_decide].
  apply (HR p u Hu). case_decide; simpl in Hp; simplify_eq; [|done].
  unfold settle in Hr. by destruct (recurring_ u).
Qed.

(** ** The loop over one slot of wheel 0 *)

Record slot_post (now : Z) (i : nat) (slot todo remaining remaining' : list Z)
    (m : manager) (F : list Z) (m' : manager) : Prop := {
  sp_slot : wheel0_ m' !! i = Some slot;
  sp_grows : grows m m';
  sp_fires : forall p, p ∈ todo -> due now m p -> p ∈ F;
  sp_keep : forall p, p ∈ remaining -> p ∈ remaining';
  sp_only : forall p, p ∈ remaining' -> p ∈ remaining \/ p ∈ todo;
  sp_live : forall p, p ∈ todo -> live m' p ->
    p ∈ remaining' \/ exists l, l <> L0 i /\ p ∈ at_loc m' l }.

(** A due timer that is not recurring leaves every slot as it was. *)
Lemma fire_slot_changed now m p t m' out i slot :
  wf m -> store m !! p = Some t -> fire now p t m = Ret out m' ->
  wheel0_ m !! i = Some slot -> wheel0_ m' !! i <> Some slot -> recurring_ t = true.
Proof.
  intros Hwf Hp Hf Hi Hne. destruct (recurring_ t) eqn:E; [done|].
  unfold fire in Hf. rewrite E in Hf. unfold update_timer in Hf. run_in Hf. by simplify_eq.
Qed.

Lemma process_slot_spec R now i slot todo : forall m remaining ne cbs,
  wf m -> may_recur R m -> now <= last_read m -> wheel0_ m !! i = Some slot ->
  (forall p, p ∈ todo -> p ∈ slot) ->
  good R (process_slot now i slot todo remaining ne cbs) m (fun '(remaining', _, cbs') m' =>
    exists F, pass now m F m' /\ cbs' = cbs ++ callbacks_of m F /\
      slot_post now i slot todo remaining remaining' m F m').
Proof.
  induction todo as [|p todo IH]; intros m remaining ne cbs Hwf HR Hnow Hi Hsub; simpl.
  { apply good_ret. exists []. split; [by apply pass_refl|]. split; [by rewrite app_nil_r|].
    split; [done|by intros l q|set_solver..]. }
  destruct (wf_ptr _ Hwf (L0 i) p) as [t Hp].
  { simpl. rewrite Hi. apply Hsub. left. }
  apply (good_deref _ _ t); [done|].
  assert (Hsub' : forall p, p ∈ todo -> p ∈ slot) by (intros; apply Hsub; by right).
  destruct (cancelled_ t) eqn:Hc; [|destruct (next_ t <=? now) eqn:Hd].
  - eapply good_mono; [by apply IH|]. intros [[rem' ne'] cbs'] m' (F & HP & -> & []).
    exists F. do 2 (split; [done|]).
    assert (Hnl : ~ live m p) by (intros (u & ? & ?); congruence).
    split; try done.
    + intros q [->|Hq]%elem_of_cons Hdq; [by apply due_live in Hdq|eauto].
    + intros q Hq. destruct (sp_only0 q Hq); [by left|right; by right].
    + intros q [->|Hq]%elem_of_cons Hl; [|eauto]. by eapply live_back in Hl.
  - to_prop. destruct (fire_spec now m p t) as (m1 & Hf & P1 & G1 & _ & L1'); try done.
    apply good_bind. eapply good_step; [exact Hf|]. apply good_get.
    case_bool_decide as Hs; last first.
    { unfold good, stop. split; [done|]. eapply (HR p t); [done|].
      by eapply fire_slot_changed. }
    pose proof (pass_clock _ _ _ _ P1).
    eapply good_mono; [apply IH; try done; [apply P1|by eapply may_recur_pass|lia]|].
    intros [[rem' ne'] cbs'] m' (F & P2 & -> & []).
    destruct (pass_cons now m [p] m1 F m' cbs P1 P2) as [P3 ->].
    exists ([p] ++ F). do 2 (split; [done|]). split; try done.
    + intros l q Hq. by apply sp_grows0, G1.
    + intros q [->|Hq]%elem_of_cons Hdq; [left|]. apply elem_of_app.
      destruct (due_forward _ _ _ _ _ P1 Hdq); eauto.
    + intros q Hq. destruct (sp_only0 q Hq); [by left|right; by right].
    + intros q [->|Hq]%elem_of_cons Hl; [|eauto].
      destruct (L1' (live_back _ _ _ _ _ P2 Hl)) as (l & Hl1 & Hl2). right. exists l.
      split; [|by apply sp_grows0]. intros ->. specialize (Hl2 ltac:(done)). simpl in Hl2.
      rewrite Hi, Hs in Hl2. simpl in Hl2.
      apply (f_equal length) in Hl2. rewrite length_app in Hl2. simpl in Hl2. lia.
  - to_prop. eapply good_mono; [by apply IH|]. intros [[rem' ne'] cbs'] m' (F & HP & -> & []).
    exists F. do 2 (split; [done|]). split; try done.
    + intros q [->|Hq]%elem_of_cons Hdq; [|eauto]. destruct Hdq as (u & ? & ? & ?).
      simplify_eq. lia.
    + intros q Hq. apply sp_keep0, elem_of_app. by left.
    + intros q Hq. destruct (sp_only0 q Hq) as [[|Hx]%elem_of_app|].
      * by left. * apply list_elem_of_singleton in Hx as ->. right. left. * right. by right.
    + intros q [->|Hq]%elem_of_cons Hl; [|eauto]. left. apply sp_keep0, elem_of_app. right. left.
Qed.

(** ** The loop over wheel 0 *)

(** Every timer of a slot that is live at the end is still in a slot. *)
Definition kept (m m' : manager) : Prop :=
  forall l p, p ∈ at_loc m l -> live m' p -> exists l', p ∈ at_loc m' l'.

Definition in_wheel0 (m : manager) (p : Z) : Prop := exists k, p ∈ at_loc m (L0 k).

(** The upper wheels and the tree only grow. *)
Definition upper_grows (m m' : manager) : Prop :=
  forall l p, (forall k, l <> L0 k) -> p ∈ at_loc m l -> p ∈ at_loc m' l.

Lemma kept_trans now m m1 F2 m2 : pass now m1 F2 m2 -> kept m m1 -> kept m1 m2 -> kept m m2.
Proof.
  intros P2 K1 K2 l p Hp Hl. destruct (K1 l p Hp (live_back _ _ _ _ _ P2 Hl)) as [l' Hl'].
  by apply (K2 l').
Qed.

Lemma swap_slot now m F m' i slot remaining :
  pass now m F m' -> wheel0_ m' !! i = Some slot ->
  (forall p, p ∈ remaining -> p ∈ slot) ->
  let m2 := set_wheel0 (<[i := remaining]> (wheel0_ m')) m' in
  pass now m F m2 /\ at_loc m2 (L0 i) = remaining /\
  (forall l, l <> L0 i -> at_loc m2 l = at_loc m' l).
Proof.
  intros HP Hi Hr m2. pose proof (lookup_lt_Some _ _ _ Hi) as Hlt.
  assert (Hat : at_loc m2 (L0 i) = remaining).
  { simpl. by rewrite list_lookup_insert_eq. }
  assert (Ho : forall l, l <> L0 i -> at_loc m2 l = at_loc m' l).
  { intros [] Hne; try done. simpl. rewrite list_lookup_insert_ne; [done|congruence]. }
  split; [|done]. destruct HP as [Hwf Hs Hd H1 Hc]. split; try done.
  destruct Hwf. split; try done.
  - simpl. by rewrite length_insert.
  - intros l p Hp. change (is_Some (store m' !! p)). destruct (decide (l = L0 i)) as [->|Hne].
    + rewrite Hat in Hp. apply (wf_ptr0 (L0 i)). simpl. rewrite Hi. by apply Hr.
    + rewrite Ho in Hp by done. by apply (wf_ptr0 l).
Qed.

Lemma process_wheel0_spec R now todo : forall m ne cbs,
  wf m -> may_recur R m -> now <= last_read m -> NoDup todo ->
  (forall k, k ∈ todo -> (k < 256)%nat) ->
  good R (process_wheel0 now todo ne cbs) m (fun '(_, cbs') m' =>
    exists F, pass now m F m' /\ cbs' = cbs ++ callbacks_of m F /\ kept m m' /\
      upper_grows m m' /\
      (forall k p, k ∈ todo -> p ∈ at_loc m (L0 k) -> due now m p -> p ∈ F)).
Proof.
  induction todo as [|i todo IH]; intros m ne cbs Hwf HR Hnow Hnd Hlt; simpl.
  { apply good_ret. exists []. split; [by apply pass_refl|]. split; [by rewrite app_nil_r|].
    split; [intros l p; eauto|]. split; [by intros l p|]. set_solver. }
  apply NoDup_cons in Hnd as [Hni Hnd]. apply good_get.
  assert (Hlt' : forall k, k ∈ todo -> (k < 256)%nat) by (intros; apply Hlt; by right).
  destruct (lookup_lt_is_Some_2 (wheel0_ m) i) as [slot Hi].
  { rewrite (wf_len0 _ Hwf). apply Hlt. left. }
  rewrite Hi. destruct (decide (slot = [])) as [->|Hne].
  { eapply good_mono; [by apply IH|]. intros [ne' cbs'] m' (F & HP & -> & K & U & Hf).
    exists F. split_and!; try done. intros k p [->|Hk]%elem_of_cons Hp; [|by eauto].
    simpl in Hp. rewrite Hi in Hp. by apply not_elem_of_nil in Hp. }
  destruct slot as [|x slot0] eqn:Es; [done|]. rewrite <- Es in *. clear Hne.
  apply good_bind. eapply good_mono; [by apply (process_slot_spec R)|].
  intros [[rem ne1] cbs1] m1 (F1 & P1 & -> & SP). apply good_modify.
  destruct (swap_slot now m F1 m1 i slot rem P1 (sp_slot _ _ _ _ _ _ _ _ _ SP)) as (P1' & A1 & A2).
  { intros p Hp. destruct (sp_only _ _ _ _ _ _ _ _ _ SP p Hp); [set_solver|done]. }
  set (m2 := set_wheel0 _ _) in *.
  pose proof (pass_clock _ _ _ _ P1').
  eapply good_mono; [apply IH; try done; [apply P1'|by eapply may_recur_pass|lia]|].
  intros [ne' cbs'] m' (F2 & P2 & -> & K2 & U2 & Hf2).
  destruct (pass_cons now m F1 m2 F2 m' cbs P1' P2) as [P3 ->].
  assert (Hgr : forall l p, l <> L0 i -> p ∈ at_loc m l -> p ∈ at_loc m2 l).
  { intros l p Hl Hp. rewrite A2 by done. by apply (sp_grows _ _ _ _ _ _ _ _ _ SP). }
  exists (F1 ++ F2). split_and!; try done.
  - intros l p Hp Hl. assert (Hl2 : live m2 p) by by eapply live_back.
    cut (exists l', p ∈ at_loc m2 l'); [intros [l' Hl']; by apply (K2 l')|].
    destruct (decide (l = L0 i)) as [->|Hli]; [|eauto].
    simpl in Hp. rewrite Hi in Hp. simpl in Hp.
    destruct (sp_live _ _ _ _ _ _ _ _ _ SP p Hp Hl2) as [Hr|(l' & Hl' & Hp')].
    + exists (L0 i). by rewrite A1.
    + exists l'. by rewrite A2.
  - intros l p Hl Hp. apply U2; [done|]. by apply Hgr.
  - intros k p [->|Hk]%elem_of_cons Hp Hd; apply elem_of_app.
    + left. apply (sp_fires _ _ _ _ _ _ _ _ _ SP); [|done]. simpl in Hp. by rewrite Hi in Hp.
    + destruct (due_forward _ _ _ _ _ P1' Hd); [by left|right].
      apply (Hf2 k); try done. apply Hgr; [congruence|done].
Qed.

(** ** The cascade *)

(** No timer is far enough away for the tree. *)
Definition near (m : manager) : Prop :=
  forall p t, store m !! p = Some t -> next_ t < last_read m + 2 ^ 26.

Lemma pass_nil now m m' :
  wf m' -> store m' = store m -> last_read m <= last_read m' -> pass now m [] m'.
Proof.
  intros Hwf Hst Hc. split; [done| |set_solver|simpl; lia|done].
  intros p. rewrite Hst. case_decide; [set_solver|done].
Qed.

Record moved (now : Z) (l : list Z) (m m' : manager) : Prop := {
  mv_wf : wf m';
  mv_store : store m' = store m;
  mv_grows : grows m m';
  mv_live : forall p, p ∈ l -> live m p -> exists l', p ∈ at_loc m' l';
  mv_due : forall p, p ∈ l -> due now m p -> in_wheel0 m' p;
  mv_near : near m -> timers_ m' = timers_ m;
  mv_clock : last_read m <= last_read m' }.

Lemma due_store now m m' p : store m' = store m -> due now m p -> due now m' p.
Proof. unfold due. by intros ->. Qed.
Lemma live_store m m' p : store m' = store m -> live m p -> live m' p.
Proof. unfold live. by intros ->. Qed.

Lemma reinsert_spec now l : forall m,
  wf m -> now <= last_read m -> (forall p, p ∈ l -> is_Some (store m !! p)) ->
  exists m', reinsert l m = Ret tt m' /\ moved now l m m'.
Proof.
  induction l as [|p l IH]; intros m Hwf Hnow Hl; simpl.
  { exists m. split; [done|]. split; try done; [by intros ? ?|set_solver|set_solver]. }
  destruct (Hl p ltac:(left)) as [t Hp]. unfold mbind, M_bind, deref. rewrite Hp.
  assert (Hl' : forall q, q ∈ l -> is_Some (store m !! q)) by (intros; apply Hl; by right).
  destruct (cancelled_ t) eqn:Hc; simpl.
  { destruct (IH m Hwf Hnow Hl') as (m' & E & []). exists m'. split; [done|].
    assert (Hnl : ~ live m p) by (intros (u & ? & ?); congruence).
    split; try done; intros q [->|Hq]%elem_of_cons Hx; eauto; [done|].
    by apply due_live in Hx. }
  destruct (insertToWheel_spec p m t Hwf Hp) as (l1 & m1 & E1 & I & _ & Hlev).
  rewrite E1. pose proof (ins_store _ _ _ _ I) as Hst. pose proof (ins_clock _ _ _ _ I) as Hcl.
  destruct (IH m1) as (m' & E & []); [apply I|lia|by rewrite Hst|].
  exists m'. split; [done|]. split; try done.
  - congruence.
  - intros l' q Hq. by apply mv_grows0, (ins_keep _ _ _ _ I).
  - intros q [->|Hq]%elem_of_cons Hx.
    + exists l1. apply mv_grows0, (ins_in _ _ _ _ I).
    + apply mv_live0; [done|]. by eapply live_store.
  - intros q [->|Hq]%elem_of_cons Hx.
    + destruct Hx as (u & ? & ? & ?). simplify_eq. destruct Hlev as [_ [k ->]]; [lia|].
      exists k. apply mv_grows0, (ins_in _ _ _ _ I).
    + apply mv_due0; [done|]. by eapply due_store.
  - intros Hn. rewrite mv_near0.
    + apply (ins_other _ _ _ _ I LT). intros <-. destruct Hlev as [Hlev _].
      specialize (Hlev eq_refl). pose proof (Hn p t Hp). lia.
    + intros q u Hq. rewrite Hst in Hq. pose proof (Hn q u Hq). lia.
  - lia.
Qed.

(** The projection and update of one wheel, and the locations it stands for. *)
Record wheel_of (pr : manager -> list (list Z)) (up : list (list Z) -> manager -> manager)
    (L : nat -> loc) : Prop := {
  wo_len : forall m, wf m -> length (pr m) = 64%nat;
  wo_at : forall m k, at_loc m (L k) = default [] (pr m !! k);
  wo_clear : forall m k, wf m -> (k < 64)%nat ->
    wf (up (<[k := []]> (pr m)) m) /\
    at_loc (up (<[k := []]> (pr m)) m) (L k) = [] /\
    (forall l, l <> L k -> at_loc (up (<[k := []]> (pr m)) m) l = at_loc m l);
  wo_store : forall w m, store (up w m) = store m;
  wo_read : forall w m, last_read (up w m) = last_read m;
  wo_upper : forall j k, L j <> L0 k /\ L j <> LT;
  wo_inj : forall j k, L j = L k -> j = k }.

Lemma clear_wf m m2 x :
  wf m -> store m2 = store m -> clock m2 = clock m -> last_read m2 = last_read m ->
  length (wheel0_ m2) = 256%nat -> length (wheel1_ m2) = 64%nat ->
  length (wheel2_ m2) = 64%nat -> length (wheel3_ m2) = 64%nat ->
  at_loc m2 x = [] -> (forall l, l <> x -> at_loc m2 l = at_loc m l) -> wf m2.
Proof.
  intros [] Hst Hc Hr ? ? ? ? Hx Ho. split; try done; rewrite ?Hst, ?Hc, ?Hr; try done.
  intros l p Hp. destruct (decide (l = x)) as [->|]; [rewrite Hx in Hp; set_solver|].
  rewrite Ho in Hp by done. eauto.
Qed.

Ltac wheel_of_case :=
  split; try done; try (by intros m []); try (by intros ? ? [=]);
  intros m k Hwf Hk; pose proof Hwf as [? ? ? ? _ _ _];
  match goal with |- wf ?m2 /\ ?a = [] /\ ?c =>
    assert (H1 : a = []) by (simpl; rewrite list_lookup_insert_eq by lia; done);
    assert (H2 : c) by (intros [] Hne; simpl; try done; rewrite list_lookup_insert_ne; congruence);
    split; [eapply (clear_wf m m2); try done; simpl; by rewrite ?length_insert|done]
  end.

Lemma wheel1_of : wheel_of wheel1_ set_wheel1 L1.
Proof. wheel_of_case. Qed.
Lemma wheel2_of : wheel_of wheel2_ set_wheel2 L2.
Proof. wheel_of_case. Qed.
Lemma wheel3_of : wheel_of wheel3_ set_wheel3 L3.
Proof. wheel_of_case. Qed.

Record cascaded (now : Z) (L : nat -> loc) (todo : list nat) (m m' : manager) : Prop := {
  ca_wf : wf m';
  ca_store : store m' = store m;
  ca_kept : kept m m';
  ca_other : forall l p, (forall k, l <> L k) -> p ∈ at_loc m l -> p ∈ at_loc m' l;
  ca_due : forall k p, k ∈ todo -> p ∈ at_loc m (L k) -> due now m p -> in_wheel0 m' p;
  ca_near : near m -> timers_ m' = timers_ m;
  ca_clock : last_read m <= last_read m' }.

Lemma cascade_spec now pr up L todo : wheel_of pr up L -> forall m,
  wf m -> now <= last_read m -> NoDup todo -> (forall k, k ∈ todo -> (k < 64)%nat) ->
  exists m', cascade pr up todo m = Ret tt m' /\ cascaded now L todo m m'.
Proof.
  intros W. induction todo as [|k todo IH]; intros m Hwf Hnow Hnd Hlt; simpl.
  { exists m. split; [done|]. split; try done; [intros l p; eauto|set_solver]. }
  apply NoDup_cons in Hnd as [Hnk Hnd].
  pose proof (Hlt k ltac:(left)) as Hk.
  destruct (lookup_lt_is_Some_2 (pr m) k) as [ins Hi]; [by rewrite (wo_len _ _ _ W)|].
  unfold mbind, M_bind, get, modify. rewrite Hi.
  destruct (wo_clear _ _ _ W m k Hwf Hk) as (C1 & C2 & C3).
  set (m1 := up _ m) in *.
  assert (Hst1 : store m1 = store m) by apply (wo_store _ _ _ W).
  assert (Hr1 : last_read m1 = last_read m) by apply (wo_read _ _ _ W).
  assert (Hin : at_loc m (L k) = ins) by (by rewrite (wo_at _ _ _ W), Hi).
  destruct (reinsert_spec now ins m1) as (m2 & E2 & MV); [done|lia| |].
  { intros p Hp. rewrite Hst1. apply (wf_ptr _ Hwf (L k)). by rewrite Hin. }
  rewrite E2. pose proof (mv_store _ _ _ _ MV) as Hst2. pose proof (mv_clock _ _ _ _ MV).
  destruct (IH m2) as (m' & E & []); [apply MV|lia|done|intros; apply Hlt; by right|].
  exists m'. split; [done|].
  assert (Hgr : forall l p, l <> L k -> p ∈ at_loc m l -> p ∈ at_loc m2 l).
  { intros l p Hl Hp. apply (mv_grows _ _ _ _ MV). by rewrite C3. }
  split; try done.
  - congruence.
  - intros l p Hp Hl. assert (Hl1 : live m1 p) by (eapply live_store; [|exact Hl]; congruence).
    cut (exists l', p ∈ at_loc m2 l'); [intros [l' Hl']; by apply (ca_kept0 l')|].
    destruct (decide (l = L k)) as [->|Hli]; [|eauto].
    apply (mv_live _ _ _ _ MV); [by rewrite <- Hin|done].
  - intros l p Hl Hp. apply ca_other0; [done|]. by apply Hgr.
  - intros j p [->|Hj]%elem_of_cons Hp Hd.
    + destruct (mv_due _ _ _ _ MV p) as [j' Hj']; [by rewrite <- Hin|by eapply due_store|].
      exists j'. apply ca_other0; [|done]. intros i Hi'. by destruct (wo_upper _ _ _ W i j').
    + eapply ca_due0; [done| |eapply due_store; [|done]; congruence].
      apply Hgr; [|done]. intros Hjk%(wo_inj _ _ _ W). by subst.
  - intros Hn. rewrite ca_near0.
    + rewrite (mv_near _ _ _ _ MV).
      * apply (C3 LT). intros HL. destruct (wo_upper _ _ _ W k 0); congruence.
      * intros q u Hq. rewrite Hst1 in Hq. pose proof (Hn q u Hq). lia.
    + intros q u Hq. rewrite Hst2, Hst1 in Hq. pose proof (Hn q u Hq). lia.
  - lia.
Qed.

(** ** The tree loop *)

Definition dueb (now : Z) (st : gmap Z timer) (p : Z) : bool :=
  match st !! p with Some t => next_ t <=? now | None => false end.

Definition due_count (now : Z) (m : manager) : nat :=
  length (List.filter (dueb now (store m)) (timers_ m)).

Lemma filter_set_insert st st' now p l :
  dueb now st p = false ->
  List.filter (dueb now st) (set_insert st' p l) = List.filter (dueb now st) l.
Proof.
  intros Hp. induction l as [|q l IH]; simpl; [by rewrite Hp|].
  destruct (timer_lt _ _); simpl; [by rewrite Hp|].
  destruct (timer_lt _ _); simpl; [|done]. by rewrite IH.
Qed.

Lemma filter_le {A} (f g : A -> bool) l :
  (forall x, g x = true -> f x = true) ->
  (length (List.filter g l) <= length (List.filter f l))%nat.
Proof.
  intros H. induction l as [|x l IH]; simpl; [lia|].
  destruct (g x) eqn:E; [rewrite (H x E); simpl; lia|]. destruct (f x); simpl; lia.
Qed.

(** Firing a due timer never makes a further tree timer due. *)
Lemma fire_due_count now m p m' :
  pass now m [p] m' -> tree_step now m m' p -> (due_count now m' <= due_count now m)%nat.
Proof.
  intros HP Ht. unfold due_count.
  assert (Hf : List.filter (dueb now (store m')) (timers_ m')
             = List.filter (dueb now (store m')) (timers_ m)).
  { destruct Ht as [->|[-> (t & Hp & Hn)]]; [done|]. apply filter_set_insert.
    unfold dueb. rewrite Hp. by apply Z.leb_gt. }
  rewrite Hf. apply filter_le. intros q. unfold dueb. rewrite (pass_store _ _ _ _ HP).
  case_decide as E; [|done]. intros _. destruct (pass_due _ _ _ _ HP q E) as (t & -> & _ & Hn).
  by apply Z.leb_le.
Qed.

Lemma wf_pop m p rest : wf m -> timers_ m = p :: rest -> wf (set_timers rest m).
Proof.
  intros [] E. split; try done. intros l q Hq. change (is_Some (store m !! q)).
  destruct l as [k|k|k|k|]; [apply (wf_ptr0 (L0 k) q Hq)|apply (wf_ptr0 (L1 k) q Hq)
    |apply (wf_ptr0 (L2 k) q Hq)|apply (wf_ptr0 (L3 k) q Hq)|]. apply (wf_ptr0 LT). simpl in *. rewrite E. by right.
Qed.

Lemma drain_tree_spec now fuel : forall m cbs,
  wf m -> now <= last_read m -> (due_count now m <= fuel)%nat ->
  exists F m', drain_tree fuel now cbs m = Ret (cbs ++ callbacks_of m F) m' /\
    pass now m F m' /\ kept m m' /\ (forall l p, l <> LT -> p ∈ at_loc m l -> p ∈ at_loc m' l) /\
    (timers_ m = [] -> timers_ m' = []).
Proof.
  induction fuel as [|fuel IH]; intros m cbs Hwf Hnow Hfuel; simpl;
    unfold mbind, M_bind, get; destruct (timers_ m) as [|p rest] eqn:Et.
  1, 3: exists [], m; rewrite app_nil_r; split; [done|]; split; [by apply pass_refl|];
        split; [intros l p; eauto|done].
  all: destruct (wf_ptr _ Hwf LT p) as [t Hp]; [simpl; rewrite Et; left|];
    unfold deref; rewrite Hp; destruct (next_ t <=? now) eqn:Hd.
  2, 4: exists [], m; rewrite app_nil_r; split; [done|]; split; [by apply pass_refl|];
        split; [intros l q; eauto|done].
  { unfold due_count in Hfuel. rewrite Et in Hfuel. simpl in Hfuel. unfold dueb in Hfuel at 1.
    rewrite Hp, Hd in Hfuel. simpl in Hfuel. lia. }
  unfold modify. set (m1 := set_timers rest m). pose proof (wf_pop _ _ _ Hwf Et) as Hwf1.
  assert (Hc1 : (due_count now m1 <= fuel)%nat).
  { unfold due_count in *. rewrite Et in Hfuel. simpl in Hfuel. unfold dueb in Hfuel at 1.
    rewrite Hp, Hd in Hfuel. simpl in Hfuel. simpl. lia. }
  assert (P1 : pass now m [] m1) by by apply pass_nil.
  destruct (cancelled_ t) eqn:Hc.
  - destruct (IH m1 cbs Hwf1 Hnow Hc1) as (F & m' & E & P2 & K & U & _).
    exists F, m'. split; [exact E|]. split; [by apply (pass_trans _ _ [] _ _ _ P1)|].
    split; [|split; [|done]].
    + intros l q Hq Hl. destruct (decide (l = LT)) as [->|Hne].
      * simpl in Hq. rewrite Et in Hq. apply elem_of_cons in Hq as [->|Hq].
        -- destruct (live_back _ _ _ _ _ P2 Hl) as (u & Hu & Hcu). simpl in Hu. congruence.
        -- by apply (K LT).
      * exists l. apply U; [done|]. by destruct l.
    + intros l q Hne Hq. apply U; [done|]. by destruct l.
  - to_prop. destruct (fire_spec now m1 p t) as (m2 & Hf & P2 & G2 & T2 & R2); try done.
    rewrite Hf. assert (last_read m <= last_read m2) by apply (pass_clock _ _ _ _ P2).
    destruct (IH m2 (cbs ++ callbacks_of m1 [p])) as (F & m' & E & P3 & K & U & _).
    { apply P2. } { lia. } { pose proof (fire_due_count _ _ _ _ P2 T2). lia. }
    exists ([p] ++ F), m'.
    destruct (pass_cons now m1 [p] m2 F m' cbs P2 P3) as [P4 Hcb]. rewrite E. split.
    { f_equal. exact Hcb. }
    split; [by apply (pass_trans _ _ [] _ _ _ P1)|]. split; [|split; [|done]].
    + intros l q Hq Hl. cut (exists l', q ∈ at_loc m2 l'); [intros [l' Hl']; by apply (K l')|].
      destruct (decide (l = LT)) as [->|Hne].
      * simpl in Hq. rewrite Et in Hq. apply elem_of_cons in Hq as [->|Hq].
        -- destruct (R2 (live_back _ _ _ _ _ P3 Hl)) as (l' & Hl' & _). by exists l'.
        -- exists LT. by apply G2.
      * exists l. apply G2. by destruct l.
    + intros l q Hne Hq. apply U; [done|]. apply G2. by destruct l.
Qed.

(** ** The whole pass *)

Lemma seq_facts n : NoDup (seq 0 n) /\ forall k, k ∈ seq 0 n <-> (k < n)%nat.
Proof. split; [apply NoDup_seq|]. intros k. rewrite elem_of_seq. lia. Qed.

Lemma at_loc_bound0 m k p : wf m -> p ∈ at_loc m (L0 k) -> (k < 256)%nat.
Proof.
  intros Hwf Hp. simpl in Hp. destruct (wheel0_ m !! k) eqn:E; [|by apply not_elem_of_nil in Hp].
  apply lookup_lt_Some in E. by rewrite (wf_len0 _ Hwf) in E.
Qed.

Lemma at_loc_bound pr up L m k p :
  wheel_of pr up L -> wf m -> p ∈ at_loc m (L k) -> (k < 64)%nat.
Proof.
  intros W Hwf Hp. rewrite (wo_at _ _ _ W) in Hp.
  destruct (pr m !! k) eqn:E; [|by apply not_elem_of_nil in Hp].
  apply lookup_lt_Some in E. by rewrite (wo_len _ _ _ W) in E.
Qed.

(** A cascade of a whole wheel. *)
Lemma cascade_all now pr up L m :
  wheel_of pr up L -> wf m -> now <= last_read m ->
  exists m', cascade pr up (seq 0 (length (pr m))) m = Ret tt m' /\ cascaded now L (seq 0 64) m m'.
Proof.
  intros W Hwf Hnow. rewrite (wo_len _ _ _ W m Hwf). destruct (seq_facts 64) as [S1 S2].
  apply (cascade_spec now pr up L); try done. intros k. apply S2.
Qed.

Definition upper_wheel (l : loc) : Prop := l <> LT /\ forall k, l <> L0 k.

Lemma cascaded_wheel0 now L todo m m' p :
  (forall j k, L j <> L0 k) -> cascaded now L todo m m' -> in_wheel0 m p -> in_wheel0 m' p.
Proof.
  intros HL C [k Hk]. exists k. apply (ca_other _ _ _ _ _ C); [|done]. intros j E. by apply (HL j k).
Qed.

(** The three cascades, one after the other. *)
Lemma cascades_spec now m m1 m2 m3 :
  wf m -> cascaded now L1 (seq 0 64) m m1 -> cascaded now L2 (seq 0 64) m1 m2 ->
  cascaded now L3 (seq 0 64) m2 m3 ->
  pass now m [] m3 /\ kept m m3 /\
  (forall l p, upper_wheel l -> p ∈ at_loc m l -> due now m p -> in_wheel0 m3 p) /\
  (forall p, in_wheel0 m p -> in_wheel0 m3 p) /\ (near m -> timers_ m3 = timers_ m).
Proof.
  intros Hwf C1 C2 C3. pose proof C1 as [W1 S1 K1 O1 D1 N1 T1].
  pose proof C2 as [W2 S2 K2 O2 D2 N2 T2]. pose proof C3 as [W3 S3 K3 O3 D3 N3 T3].
  assert (P2 : pass now m1 [] m2) by by apply pass_nil.
  assert (P3 : pass now m2 [] m3) by by apply pass_nil.
  destruct (seq_facts 64) as [_ Hs].
  assert (I1 : forall p, in_wheel0 m p -> in_wheel0 m1 p).
  { intros p. by eapply cascaded_wheel0; [|exact C1]. }
  assert (I2 : forall p, in_wheel0 m1 p -> in_wheel0 m2 p).
  { intros p. by eapply cascaded_wheel0; [|exact C2]. }
  assert (I3 : forall p, in_wheel0 m2 p -> in_wheel0 m3 p).
  { intros p. by eapply cascaded_wheel0; [|exact C3]. }
  split_and!.
  - apply pass_nil; [done|congruence|lia].
  - eapply kept_trans; [exact P3| |done]. by eapply kept_trans.
  - intros l p [Hl1 Hl2] Hp Hd.
    pose proof (due_store now m m1 p S1 Hd) as Hd1. pose proof (due_store now m1 m2 p S2 Hd1) as Hd2.
    destruct l as [k|k|k|k|]; [by destruct (Hl2 k)| | | |done].
    + apply I3, I2. eapply D1; [|exact Hp|done]. apply Hs. by apply (at_loc_bound _ _ _ _ _ _ wheel1_of) in Hp; [done|].
    + apply I3. apply (O1 (L2 k)) in Hp; [|done].
      eapply D2; [|exact Hp|done]. apply Hs. by apply (at_loc_bound _ _ _ _ _ _ wheel2_of) in Hp; [done|].
    + apply (O1 (L3 k)) in Hp; [|done]. apply (O2 (L3 k)) in Hp; [|done].
      eapply D3; [|exact Hp|done]. apply Hs. by apply (at_loc_bound _ _ _ _ _ _ wheel3_of) in Hp; [done|].
  - intros p Hp. by apply I3, I2, I1.
  - intros Hn. assert (Hn1 : near m1).
    { intros p t. rewrite S1. intros Ht. pose proof (Hn p t Ht). lia. }
    assert (Hn2 : near m2).
    { intros p t. rewrite S2. intros Ht. pose proof (Hn1 p t Ht). lia. }
    by rewrite N3, N2, N1.
Qed.

Record advanced (now : Z) (m : manager) (F : list Z) (m' : manager) : Prop := {
  adv_pass : pass now m F m';
  adv_kept : kept m m';
  adv_wheel0 : forall p, in_wheel0 m p -> due now m p -> p ∈ F;
  adv_upper : forall l p, upper_wheel l -> p ∈ at_loc m l -> due now m p -> p ∈ F \/ in_wheel0 m' p }.

(** [earliestNext_] is not part of what a pass is about. *)
Lemma advanced_earliest now m F m' e : advanced now m F m' -> advanced now m F (set_earliest e m').
Proof.
  intros [[[] ? ? ? ?] K W U]. split; try done.
Qed.

Lemma advanceWheel_spec R now m cbs :
  wf m -> may_recur R m -> now <= last_read m ->
  good R (advanceWheel now cbs) m (fun cbs' m' =>
    exists F, cbs' = cbs ++ callbacks_of m F /\ advanced now m F m').
Proof.
  intros Hwf HR Hnow. unfold advanceWheel. apply good_get, good_bind.
  destruct (seq_facts 256) as [S1 S2]. rewrite (wf_len0 _ Hwf).
  eapply good_mono; [apply (process_wheel0_spec R); try done; intros k; apply S2|].
  intros [ne cbs1] m1 (F1 & P1 & -> & K1 & U1 & H1). pose proof (pass_clock _ _ _ _ P1).
  pose proof (pass_wf _ _ _ _ P1) as Hwf1.
  destruct (cascade_all now _ _ _ m1 wheel1_of Hwf1 ltac:(lia)) as (m2 & E2 & C2).
  pose proof (ca_clock _ _ _ _ _ C2).
  destruct (cascade_all now _ _ _ m2 wheel2_of (ca_wf _ _ _ _ _ C2) ltac:(lia)) as (m3 & E3 & C3).
  pose proof (ca_clock _ _ _ _ _ C3).
  destruct (cascade_all now _ _ _ m3 wheel3_of (ca_wf _ _ _ _ _ C3) ltac:(lia)) as (m4 & E4 & C4).
  pose proof (ca_clock _ _ _ _ _ C4).
  destruct (cascades_spec now m1 m2 m3 m4 Hwf1 C2 C3 C4) as (P4 & K4 & U4 & I4 & _).
  apply good_get, good_bind. eapply good_step; [exact E2|].
  apply good_get, good_bind. eapply good_step; [exact E3|].
  apply good_get, good_bind. eapply good_step; [exact E4|].
  destruct (drain_tree_spec now (length (timers_ m4)) m4 (cbs ++ callbacks_of m F1))
    as (F5 & m5 & E5 & P5 & K5 & U5 & _); [apply P4|lia|apply List.filter_length_le|].
  apply good_get, good_bind. eapply good_step; [exact E5|]. apply good_get.
  pose proof (pass_trans _ _ _ _ _ _ P4 P5) as P45. simpl in P45.
  destruct (pass_cons now m F1 m1 F5 m5 cbs P1 P45) as [PA EA].
  assert (Hcb : (cbs ++ callbacks_of m F1) ++ callbacks_of m4 F5 = cbs ++ callbacks_of m (F1 ++ F5)).
  { rewrite <- EA. f_equal. apply (callbacks_of_later now _ _ _ _ P4), (pass_due _ _ _ _ P5). }
  assert (HA : advanced now m (F1 ++ F5) m5).
  { split; [done| | |].
    - eapply kept_trans; [exact P45|exact K1|]. by apply (kept_trans _ _ _ _ _ P5).
    - intros p [k Hk] Hd. apply elem_of_app. left. apply (H1 k); try done.
      apply S2. by apply (at_loc_bound0 m k p).
    - intros l p [HLT HL0] Hp Hd.
      destruct (due_forward _ _ _ _ _ P1 Hd) as [Hf|Hd1]; [left; apply elem_of_app; by left|right].
      destruct (U4 l p (conj HLT HL0) (U1 l p HL0 Hp) Hd1) as [k Hk].
      exists k. by apply U5. }
  assert (Hend : forall e, good R (modify (set_earliest e);; mret ((cbs ++ callbacks_of m F1) ++
    callbacks_of m4 F5)) m5 (fun cbs' m' => exists F, cbs' = cbs ++ callbacks_of m F /\ advanced now m F m')).
  { intros e. apply good_modify, good_ret. exists (F1 ++ F5). split; [done|]. by apply advanced_earliest. }
  apply good_bind. destruct (timers_ m5) as [|p rest] eqn:Et; [apply (Hend ne)|].
  destruct (wf_ptr _ (pass_wf _ _ _ _ PA) LT p) as [t Hp]; [simpl; rewrite Et; left|].
  apply (good_deref _ _ t); [done|]. apply Hend.
Qed.

(** The clock reading with which the next call works. *)
Definition reading (m : manager) : Z := match clock m with [] => last_read m | t :: _ => t end.

Lemma reading_after m : wf m -> last_read m <= reading m.
Proof.
  intros Hwf. pose proof (wf_clock _ Hwf) as Hs. unfold reading.
  destruct (clock m) as [|t rest]; [done|].
  apply StronglySorted_inv in Hs as [_ Hs]. by apply Forall_cons in Hs as [? _].
Qed.

Lemma advanced_from now m m0 F m' :
  store m0 = store m -> (forall l, at_loc m0 l = at_loc m l) -> last_read m <= last_read m0 ->
  advanced now m0 F m' -> advanced now m F m'.
Proof.
  intros Hst Hat Hr [[Hw Hs Hd Ho Hc] K W U].
  assert (Edue : forall p, due now m p <-> due now m0 p) by (intros p; unfold due; by rewrite Hst).
  split; [split; [done| | | |lia]|..].
  - intros p. rewrite <- Hst. apply Hs.
  - intros p Hp. by apply Edue, Hd.
  - intros p Hp. apply Ho. unfold one_shot. by rewrite Hst.
  - intros l p Hp. rewrite <- Hat in Hp. by apply (K l).
  - intros p [k Hk] Hdp. rewrite <- Hat in Hk. apply W; [by exists k|by apply Edue].
  - intros l p Hl Hp Hdp. rewrite <- Hat in Hp. by apply (U l); [..|apply Edue].
Qed.

Lemma listExpiredCb_spec R m cbs :
  wf m -> may_recur R m ->
  good R (listExpiredCb cbs) m (fun cbs' m' =>
    exists F, cbs' = cbs ++ callbacks_of m F /\ advanced (reading m) m F m' /\
      reading m <= last_read m').
Proof.
  intros Hwf HR. unfold listExpiredCb.
  destruct (GetElapsedMS_spec m Hwf) as (now & m1 & Hg & Hwf1 & Hnow & Hle & Hst & Hat & _ & _).
  apply good_bind. eapply good_step; [exact Hg|].
  assert (Hread : reading m = now).
  { revert Hg. unfold GetElapsedMS, reading. destruct (clock m); by intros [= -> _]. }
  unfold detectClockRolllover. apply good_bind, good_get, good_modify, good_ret.
  assert (Hwf2 : wf (set_previous now m1)) by (destruct Hwf1; by split).
  eapply good_mono; [apply (advanceWheel_spec R now); try done; simpl; [|lia]|].
  - intros p t. simpl. rewrite Hst. apply HR.
  - intros cbs' m' (F & -> & HA). exists F.
    split; [unfold callbacks_of; simpl; by rewrite Hst|]. rewrite Hread.
    split; [|pose proof (pass_clock _ _ _ _ (adv_pass _ _ _ _ HA)) as Hcl; simpl in Hcl; lia].
    eapply advanced_from; [| | |exact HA]; [done| |simpl; lia]. intros l. rewrite <- Hat. by destruct l.
Qed.

(** ** The operations of a timer manager *)

Lemma GetElapsedMS_reading m now m1 : GetElapsedMS m = Ret now m1 -> now = reading m.
Proof. unfold GetElapsedMS, reading. destruct (clock m); by intros [= <- _]. Qed.

(** [earliestNext_] is a lower bound of the pending timers. *)
Definition covered (m : manager) : Prop :=
  forall l p t, p ∈ at_loc m l -> store m !! p = Some t -> cancelled_ t = false ->
    earliestNext_ m <= next_ t.

Record added (p : Z) (t : timer) (m m' : manager) : Prop := {
  add_wf : wf m';
  add_store : store m' = <[p := t]> (store m);
  add_in : exists l, p ∈ at_loc m' l;
  add_keep : grows m m';
  add_only : forall l q, q ∈ at_loc m' l -> q ∈ at_loc m l \/ q = p;
  add_earliest : earliestNext_ m' = Z.min (earliestNext_ m) (next_ t);
  add_front : let front := (next_ t <? earliestNext_ m) && negb (tickled_ m) in
    flags m' = (front || tickled_ m, if front then S (front_notifications m) else front_notifications m) }.

Lemma addTimer_added m p ms cb recurring :
  wf m -> store m !! p = None ->
  returns (addTimer p ms cb recurring) m (fun r m' => r = p /\
    added p (Timer recurring ms (u64 (reading m + ms)) cb false) m m').
Proof.
  intros Hwf Hp. unfold addTimer.
  destruct (GetElapsedMS_spec m Hwf) as (now & m1 & Hg & Hwf1 & Hnow & Hle & Hst & Hat & He & Hfl).
  pose proof (GetElapsedMS_reading _ _ _ Hg) as <-.
  set (t := Timer recurring ms (u64 (now + ms)) cb false).
  set (m2 := set_store (<[p := t]> (store m1)) m1).
  assert (Hwf2 : wf m2).
  { destruct Hwf1. split; try done.
    - intros l q Hq. simpl. destruct (decide (q = p)) as [->|].
      + rewrite lookup_insert_eq. eauto.
      + rewrite lookup_insert_ne by done. by apply (wf_ptr0 l).
    - intros q u. simpl. intros [[<- <-]|[_ Hq]]%lookup_insert_Some; [apply u64_range|eauto]. }
  assert (Ht2 : store m2 !! p = Some t) by apply lookup_insert_eq.
  destruct (insertToWheel_spec p m2 t Hwf2 Ht2) as (l & m3 & E & I & He3 & _).
  unfold returns, addTimer_locked, update_timer, deref.
  unfold mbind, M_bind, modify, get, mret, M_ret. rewrite Hg. fold t. fold m2.
  rewrite Ht2, E. change (earliestNext_ m2) with (earliestNext_ m1) in *. rewrite He in *.
  pose proof (ins_tickled _ _ _ _ I) as Hfl3. change (flags m2) with (flags m1) in Hfl3.
  rewrite Hfl in Hfl3. unfold flags in Hfl3. injection Hfl3 as Hf1 Hf2.
  assert (Hadd : forall m4, wf m4 -> store m4 = store m3 -> (forall l, at_loc m4 l = at_loc m3 l) ->
    earliestNext_ m4 = earliestNext_ m3 ->
    flags m4 = (let front := (next_ t <? earliestNext_ m) && negb (tickled_ m) in
      (front || tickled_ m, if front then S (front_notifications m) else front_notifications m)) ->
    added p t m m4).
  { intros m4 Hwf4 Hst4 Hat4 He4 Hfl4. split; try done.
    - rewrite Hst4, (ins_store _ _ _ _ I). simpl. by rewrite Hst.
    - exists l. rewrite Hat4. apply I.
    - intros l' q Hq. rewrite Hat4. apply (ins_keep _ _ _ _ I). rewrite <- Hat in Hq. by destruct l'.
    - intros l' q. rewrite Hat4. intros [Hq|[-> _]]%(ins_only _ _ _ _ I); [left|by right].
      rewrite <- Hat. by destruct l'.
    - congruence. }
  pose proof (ins_wf _ _ _ _ I) as Hwf3. rewrite Hf1.
  destruct ((next_ t <? earliestNext_ m) && negb (tickled_ m)) eqn:Ef; (split; [done|]).
  - apply Hadd; [destruct Hwf3; by split|done|by intros []|done|].
    unfold flags. simpl. by rewrite Hf2.
  - apply Hadd; try done. unfold flags. by rewrite Hf1, Hf2.
Qed.

Lemma wf_cancel m p t :
  wf m -> store m !! p = Some t ->
  wf (set_store (<[p := Timer (recurring_ t) (ms_ t) (next_ t) None true]> (store m)) m).
Proof.
  intros [] Hp. split; try done.
  - intros l q Hq. simpl. apply (wf_ptr0 l) in Hq as [u Hu].
    destruct (decide (q = p)) as [->|]; [rewrite lookup_insert_eq|rewrite lookup_insert_ne by done]; eauto.
  - intros q u. simpl. intros [[<- <-]|[_ Hq]]%lookup_insert_Some; simpl; eauto.
Qed.

Lemma getNextTimer_spec m :
  wf m -> returns getNextTimer m (fun r m' => wf m' /\ store m' = store m /\
    (forall l, at_loc m' l = at_loc m l) /\ tickled_ m' = false /\ earliestNext_ m' = earliestNext_ m /\
    (earliestNext_ m <> NEVER ->
     r = if reading m >=? earliestNext_ m then 0 else earliestNext_ m - reading m) /\
    (earliestNext_ m = NEVER -> timers_ m = [] -> r = NEVER)).
Proof.
  intros Hwf. unfold getNextTimer, returns. unfold mbind, M_bind, modify, get, mret, M_ret.
  set (m0 := set_tickled false m).
  assert (Hwf0 : wf m0) by (destruct Hwf; by split).
  destruct (GetElapsedMS_spec m0 Hwf0) as (now & m1 & Hg & Hwf1 & Hnow & Hle & Hst & Hat & He & Hfl).
  pose proof (GetElapsedMS_reading _ _ _ Hg) as Hr. change (reading m0) with (reading m) in Hr.
  rewrite Hg. change (earliestNext_ m0) with (earliestNext_ m) in *.
  change (timers_ m0) with (timers_ m).
  assert (Hat1 : forall l, at_loc m1 l = at_loc m l) by (intros l; rewrite Hat; by destruct l).
  injection Hfl as Hfl _.
  destruct (earliestNext_ m =? NEVER) eqn:E; to_prop.
  - destruct (timers_ m) as [|p rest] eqn:Et.
    + rewrite (proj2 (Z.eqb_eq _ _) E). by split_and!.
    + destruct (wf_ptr _ Hwf LT p) as [t Hp]; [simpl; rewrite Et; left|].
      unfold deref. rewrite Hst. change (store m0) with (store m). rewrite Hp.
      destruct (next_ t =? NEVER); [|destruct (now >=? next_ t)]; by split_and!.
  - rewrite (proj2 (Z.eqb_neq _ _) E), Hr.
    destruct (reading m >=? earliestNext_ m); by split_and!.
Qed.
