(* ===== verification/TimerTheorems.v ===== *)
(** * What the timer manager guarantees

    The theorems about [TimerManager] (src/timer.cpp) on top of the pass
    lemmas, and two behaviours of [advanceWheel] that break its purpose. *)

From stdpp Require Import sorting.
From S2P Require Import Prelude Timer TimerProofs.

(** The outcome of an expiry pass: it returns, or a recurring timer was
    re-armed into the slot under iteration. *)
Definition has_recurring (m : manager) : Prop :=
  exists p t, store m !! p = Some t /\ recurring_ t = true.

Lemma may_recur_has m : may_recur (has_recurring m) m.
Proof. intros p t. by exists p, t. Qed.

Lemma may_recur_none m : ~ has_recurring m -> may_recur False m.
Proof. intros H p t Hp Hr. apply H. by exists p, t. Qed.

Lemma good_returns {A} (c : M manager A) m Q : good False c m Q -> returns c m Q.
Proof. unfold good, returns. destruct (c m); naive_solver. Qed.

(** C9. Expiry is safe.  Started in a well-formed manager, [listExpiredCb]
    appends exactly the callbacks of a sequence [F] of timers, each of which
    was not cancelled and was due at the clock reading of the call, a one-shot
    timer at most once; the timers of [F] are retired or re-armed, and every
    other timer is left as it was.  It never throws, and it stops the process
    only where a recurring timer exists and is pushed into the slot under
    iteration. *)
Theorem listExpiredCb_safe m cbs :
  wf m ->
  match listExpiredCb cbs m with
  | Ret cbs' m' => exists F, cbs' = cbs ++ callbacks_of m F /\ wf m' /\
      (forall p, p ∈ F -> due (reading m) m p) /\
      (forall p, one_shot m p -> (count_occ Z.eq_dec F p <= 1)%nat) /\
      (forall p, store m' !! p =
         if decide (p ∈ F) then settle (reading m) <$> store m !! p else store m !! p)
  | Throw _ _ => False
  | Crash w => w = iterator_invalidated /\ has_recurring m
  end.
Proof.
  intros Hwf. pose proof (listExpiredCb_spec _ m cbs Hwf (may_recur_has m)) as H.
  unfold good in H. destruct (listExpiredCb cbs m); try done.
  destruct H as (F & -> & [[] _ _ _] & _). by exists F.
Qed.

(** Expiry terminates with a result when every timer is a one-shot timer:
    the call returns, no live timer has left the manager, and every due timer
    of wheel 0 has handed over its callback. *)
Theorem listExpiredCb_one_shot_total m cbs :
  wf m -> ~ has_recurring m ->
  returns (listExpiredCb cbs) m (fun cbs' m' =>
    (forall l p, p ∈ at_loc m l -> live m' p -> exists l', p ∈ at_loc m' l') /\
    (forall p t c, in_wheel0 m p -> store m !! p = Some t -> cancelled_ t = false ->
       next_ t <= reading m -> cb_ t = Some c -> c ∈ cbs')).
Proof.
  intros Hwf Hrec. apply good_returns.
  eapply good_mono; [by apply listExpiredCb_spec, may_recur_none|].
  intros cbs' m' (F & -> & [_ K W _] & _). split; [exact K|].
  intros p t c Hin Hp Hc Hn Hcb. apply elem_of_app. right.
  apply list_elem_of_omap. exists p. rewrite Hp. split; [|done]. apply W; [done|]. by exists t.
Qed.

Lemma no_recurring_pass now m F m' : pass now m F m' -> ~ has_recurring m -> ~ has_recurring m'.
Proof.
  intros HP Hn (p & t & Hp & Hr).
  exact (may_recur_pass False _ _ _ _ HP (may_recur_none m Hn) p t Hp Hr).
Qed.

Lemma due_mono now now' m p : now <= now' -> due now m p -> due now' m p.
Proof. intros Hle (t & ? & ? & ?). exists t. split_and!; try done. lia. Qed.

(** C34. Two polls are enough for the wheels of a manager that holds no recurring
    timer (with one, a pass may leave the wheels in a state that C++ does not
    define).  A live timer of any of the four wheels that is due when the first of two consecutive expiry
    passes starts has handed over its callback when the second one returns. *)
Theorem two_polls_fire_due_timers m l p t c :
  wf m -> ~ has_recurring m -> l <> LT -> p ∈ at_loc m l ->
  store m !! p = Some t -> cancelled_ t = false -> next_ t <= reading m -> cb_ t = Some c ->
  returns (cbs ← listExpiredCb []; listExpiredCb cbs) m (fun cbs _ => c ∈ cbs).
Proof.
  intros Hwf Hrec HLT Hl Hp Hc Hn Hcb.
  assert (Hd : due (reading m) m p) by by exists t.
  apply returns_bind. eapply returns_mono;
    [apply good_returns, listExpiredCb_spec; [done|by apply may_recur_none]|].
  intros cbs1 m1 (F1 & -> & [P1 K1 W1 U1] & Hr1).
  eapply returns_mono;
    [apply good_returns, listExpiredCb_spec;
     [apply P1|apply may_recur_none; by eapply no_recurring_pass]|].
  intros cbs2 m2 (F2 & -> & [P2 _ W2 _] & _).
  assert (HF : p ∈ F1 \/ ((p ∉ F1) /\ in_wheel0 m1 p)).
  { destruct (decide (p ∈ F1)); [by left|]. destruct l as [k| | | |]; [..|done].
    1: left; apply W1; [by exists k|done].
    all: right; split; [done|]; edestruct U1; [|exact Hl|done|done|done]; by split. }
  apply elem_of_app. destruct HF as [HF|[HF Hin]]; [left|right]; apply list_elem_of_omap; exists p.
  - split; [done|]. by rewrite Hp.
  - assert (Hp1 : store m1 !! p = Some t).
    { by rewrite (pass_store _ _ _ _ P1), decide_False. }
    split; [|by rewrite Hp1]. apply W2; [done|]. exists t. split_and!; try done.
    pose proof (reading_after _ (pass_wf _ _ _ _ P1)). lia.
Qed.

(** ** The manager as a state machine *)

Inductive timer_op : Type :=
| AddTimer (p ms : Z) (cb : option callback) (recurring : bool)
| CancelTimer (p : Z)
| GetNextTimer
| ListExpired.

Definition exec (op : timer_op) : M manager unit :=
  match op with
  | AddTimer p ms cb recurring => addTimer p ms cb recurring;; mret tt
  | CancelTimer p => cancel p;; mret tt
  | GetNextTimer => getNextTimer;; mret tt
  | ListExpired => listExpiredCb [];; mret tt
  end.

(** [new] answers a fresh address; [cancel] is called on a timer. *)
Definition enabled (op : timer_op) (m : manager) : Prop :=
  match op with
  | AddTimer p _ _ _ => store m !! p = None
  | CancelTimer p => is_Some (store m !! p)
  | _ => True
  end.

Definition timer_step (m m' : manager) : Prop :=
  exists op, enabled op m /\ exec op m = Ret tt m'.

Definition schedule_step (m m' : manager) : Prop :=
  exists op, op <> ListExpired /\ enabled op m /\ exec op m = Ret tt m'.

Lemma at_loc_init clk start l : at_loc (init_manager clk start) l = [].
Proof.
  assert (H : forall n k, default [] (replicate n ([] : list Z) !! k) = []).
  { intros n k. destruct (replicate n [] !! k) eqn:E; [|done]. by apply lookup_replicate in E as [-> _]. }
  destruct l; try apply H. done.
Qed.

Lemma init_wf clk start : StronglySorted Z.le (start :: clk) -> wf (init_manager clk start).
Proof.
  intros Hs. split; try done. intros l p. rewrite at_loc_init. by intros ?%not_elem_of_nil.
Qed.

Lemma exec_wf m op : wf m -> enabled op m ->
  good (op = ListExpired /\ has_recurring m) (exec op) m (fun _ m' => wf m').
Proof.
  intros Hwf Hen. destruct op as [p ms cb rec|p| |]; simpl; apply good_bind.
  - pose proof (addTimer_added m p ms cb rec Hwf Hen) as H. unfold returns in H.
    unfold good. destruct (addTimer _ _ _ _ m); try done. apply H.
  - destruct Hen as [t Hp]. unfold cancel. apply (good_deref _ _ t); [done|].
    destruct (cancelled_ t); [by apply good_ret|]. by apply good_modify, good_ret, wf_cancel.
  - pose proof (getNextTimer_spec m Hwf) as H. unfold returns in H.
    unfold good. destruct (getNextTimer m); try done. apply H.
  - eapply good_mono; [apply listExpiredCb_spec; [done|]|].
    + intros p t Hp Hr. split; [done|]. by exists p, t.
    + intros cbs' m' (F & _ & [[] _ _ _] & _). done.
Qed.

(** C8. Every state a timer manager can reach by creating, cancelling, polling
    and expiring timers is well formed (the wheels keep their sizes and every
    pointer in them resolves), and in such a state every operation returns,
    but for an expiry that re-arms a recurring timer into the slot under
    iteration. *)
Theorem timer_manager_invariant clk start m :
  StronglySorted Z.le (start :: clk) -> rtc timer_step (init_manager clk start) m ->
  wf m /\ forall op, enabled op m ->
    (exists m', exec op m = Ret tt m') \/
    (op = ListExpired /\ exec op m = Crash iterator_invalidated /\ has_recurring m).
Proof.
  intros Hs Hr. assert (Hwf : wf m).
  { eapply rtc_invariant; [|exact Hr|by apply init_wf].
    intros x y (op & Hen & E) Hx. pose proof (exec_wf x op Hx Hen) as H.
    unfold good in H. by rewrite E in H. }
  split; [done|]. intros op Hen. pose proof (exec_wf m op Hwf Hen) as H. unfold good in H.
  destruct (exec op m) as [[] m'|e m'|w]; [by left; exists m'|done|].
  destruct H as [-> [-> H]]. by right.
Qed.

Lemma exec_covered m op m' :
  wf m -> covered m -> enabled op m -> op <> ListExpired -> exec op m = Ret tt m' -> covered m'.
Proof.
  intros Hwf Hco Hen Hne E. destruct op as [p ms cb rec|p| |]; simpl in E; run_in E; [| | |done].
  - pose proof (addTimer_added m p ms cb rec Hwf Hen) as H. unfold returns in H.
    destruct (addTimer _ _ _ _ m) as [r m1|?|?]; try done. destruct H as [-> [_ Hst _ _ Ho He _]].
    injection E as <-. intros l q t Hq. rewrite Hst, He.
    intros [[<- <-]|[Hpq Ht]]%lookup_insert_Some Hc; [lia|].
    destruct (Ho l q Hq) as [Hq'| ->]; [|done]. pose proof (Hco l q t Hq' Ht Hc). lia.
  - destruct Hen as [t Hp]. unfold cancel, deref in E. run_in E. rewrite Hp in E.
    destruct (cancelled_ t) eqn:Hc; run_in E; simplify_eq; [done|].
    intros l q u Hq. simpl. intros [[<- <-]|[Hpq Ht]]%lookup_insert_Some Hcu; [done|].
    apply (Hco l q u); try done.
  - pose proof (getNextTimer_spec m Hwf) as H. unfold returns in H.
    destruct (getNextTimer m) as [r m1|?|?]; try done. simplify_eq.
    destruct H as (_ & Hst & Hat & _ & He & _). intros l q t. rewrite Hst, Hat, He. apply Hco.
Qed.

(** Until the first expiry pass, the poll timeout never sleeps past a timer.
    After any sequence of timer creations, cancellations and polls,
    [getNextTimer] returns a delay that ends no later than any pending timer
    (or zero when one is already due). *)
Theorem getNextTimer_never_oversleeps clk start m l p t :
  StronglySorted Z.le (start :: clk) -> rtc schedule_step (init_manager clk start) m ->
  p ∈ at_loc m l -> store m !! p = Some t -> cancelled_ t = false -> next_ t <> NEVER ->
  returns getNextTimer m (fun r _ => r = 0 \/ reading m + r <= next_ t).
Proof.
  intros Hs Hr Hl Hp Hc Hn. assert (H : wf m /\ covered m).
  { eapply (rtc_invariant schedule_step (fun x => wf x /\ covered x)); [|exact Hr|split].
    - intros x y (op & Hne & Hen & E) [Hx Hcx]. split; [|by eapply exec_covered].
      pose proof (exec_wf x op Hx Hen) as H. unfold good in H. by rewrite E in H.
    - by apply init_wf.
    - intros l' q u. rewrite at_loc_init. by intros ?%not_elem_of_nil. }
  destruct H as [Hwf Hco]. pose proof (Hco l p t Hl Hp Hc) as Hle.
  pose proof (wf_next _ Hwf p t Hp) as Hnx. unfold NEVER, UINT64_MAX in Hn.
  eapply returns_mono; [by apply getNextTimer_spec|].
  intros r m' (_ & _ & _ & _ & _ & Hr1 & _). unfold NEVER, UINT64_MAX in Hr1.
  rewrite Hr1 by lia. destruct (reading m >=? earliestNext_ m) eqn:E; [by left|right]. lia.
Qed.

(** Cancelling.  [cancel] answers true exactly for a timer that has neither
    fired nor been cancelled; a second [cancel] answers false and changes
    nothing; and no later expiry pass runs the callback of the timer. *)
Theorem cancel_is_final m p t :
  wf m -> store m !! p = Some t ->
  returns (cancel p) m (fun b m1 => b = negb (cancelled_ t) /\ cancel p m1 = Ret false m1 /\
    forall cbs cbs' m2, listExpiredCb cbs m1 = Ret cbs' m2 ->
      exists F, cbs' = cbs ++ callbacks_of m1 F /\ p ∉ F).
Proof.
  intros Hwf Hp.
  assert (Hafter : forall m1 t1, wf m1 -> store m1 !! p = Some t1 -> cancelled_ t1 = true ->
    cancel p m1 = Ret false m1 /\ forall cbs cbs' m2, listExpiredCb cbs m1 = Ret cbs' m2 ->
      exists F, cbs' = cbs ++ callbacks_of m1 F /\ p ∉ F).
  { intros m1 t1 Hwf1 Hp1 Hc1. split; [unfold cancel, deref; run; by rewrite Hp1, Hc1|].
    intros cbs cbs' m2 E. pose proof (listExpiredCb_spec _ m1 cbs Hwf1 (may_recur_has m1)) as H.
    unfold good in H. rewrite E in H. destruct H as (F & -> & [HP _ _ _] & _). exists F.
    split; [done|]. intros (t2 & ? & ? & _)%(pass_due _ _ _ _ HP). congruence. }
  unfold returns, cancel, deref. unfold mbind, M_bind. rewrite Hp.
  destruct (cancelled_ t) eqn:Hc; (split; [done|]); [by apply (Hafter m t)|].
  eapply Hafter; [by apply wf_cancel|apply lookup_insert_eq|done].
Qed.

(** ** What the end of [advanceWheel] forgets *)

Lemma process_wheel0_empty now todo : forall m ne cbs,
  wf m -> (forall k, at_loc m (L0 k) = []) -> (forall k, k ∈ todo -> (k < 256)%nat) ->
  process_wheel0 now todo ne cbs m = Ret (ne, cbs) m.
Proof.
  induction todo as [|i todo IH]; intros m ne cbs Hwf He Hlt; [done|].
  simpl. unfold mbind, M_bind, get.
  destruct (lookup_lt_is_Some_2 (wheel0_ m) i) as [slot Hi].
  { rewrite (wf_len0 _ Hwf). apply Hlt. left. }
  pose proof (He i) as Hs. simpl in Hs. rewrite Hi in Hs. simpl in Hs. subst slot.
  rewrite Hi. apply IH; try done. intros; apply Hlt; by right.
Qed.

Lemma advanceWheel_forgets now m cbs :
  wf m -> now <= last_read m -> near m -> timers_ m = [] -> (forall k, at_loc m (L0 k) = []) ->
  returns (advanceWheel now cbs) m (fun cbs' m' => cbs' = cbs /\ wf m' /\
    earliestNext_ m' = NEVER /\ timers_ m' = [] /\ store m' = store m /\ kept m m').
Proof.
  intros Hwf Hnow Hnear Ht He. unfold advanceWheel. destruct (seq_facts 256) as [_ S2].
  destruct (cascade_all now _ _ _ m wheel1_of Hwf Hnow) as (m2 & E2 & C2).
  pose proof (ca_clock _ _ _ _ _ C2).
  destruct (cascade_all now _ _ _ m2 wheel2_of (ca_wf _ _ _ _ _ C2) ltac:(lia)) as (m3 & E3 & C3).
  pose proof (ca_clock _ _ _ _ _ C3).
  destruct (cascade_all now _ _ _ m3 wheel3_of (ca_wf _ _ _ _ _ C3) ltac:(lia)) as (m4 & E4 & C4).
  destruct (cascades_spec now m m2 m3 m4 Hwf C2 C3 C4) as (P4 & K4 & _ & _ & N4).
  specialize (N4 Hnear). rewrite Ht in N4. pose proof (pass_wf _ _ _ _ P4) as Hwf4.
  unfold returns, mbind, M_bind, get, mret, M_ret. rewrite (wf_len0 _ Hwf).
  rewrite process_wheel0_empty by (try done; intros k; apply S2).
  rewrite E2, E3, E4, N4. simpl. unfold mbind, M_bind, get. rewrite N4.
  unfold modify, mret, M_ret. simpl. rewrite N4. split_and!; try done.
  - destruct Hwf4. by split.
  - change (store m4 = store m). rewrite (ca_store _ _ _ _ _ C4), (ca_store _ _ _ _ _ C3). apply C2.
Qed.

(** A pass with nothing in wheel 0 loses the next deadline.  When the
    pending timers are all in the upper wheels (each was created at least
    256 ms before its expiry) and the tree is empty, an expiry pass hands over
    no callback, even for timers already due at its clock reading, and leaves
    [earliestNext_] at its maximum: [getNextTimer] then answers that no timer
    is pending, although every live timer is still in a slot. *)
Theorem expiry_pass_forgets_deadline m :
  wf m -> near m -> timers_ m = [] -> (forall k, at_loc m (L0 k) = []) ->
  returns (cbs ← listExpiredCb []; next ← getNextTimer; mret (cbs, next)) m
    (fun '(cbs, next) m' => cbs = [] /\ next = NEVER /\ kept m m' /\
       forall p, live m p -> live m' p).
Proof.
  intros Hwf Hnear Ht He. apply returns_bind. unfold listExpiredCb.
  destruct (GetElapsedMS_spec m Hwf) as (now & m1 & Hg & Hwf1 & Hnow & Hle & Hst & Hat & _ & _).
  apply returns_bind. unfold returns at 1. rewrite Hg.
  unfold detectClockRolllover. apply returns_bind, returns_bind. unfold returns at 1, get.
  apply returns_bind. unfold returns at 1 2, modify, mret, M_ret.
  set (m2 := set_previous now m1).
  assert (Hat2 : forall l, at_loc m2 l = at_loc m l) by (intros l; rewrite <- Hat; by destruct l).
  assert (Hst2 : store m2 = store m) by done.
  eapply returns_mono; [apply advanceWheel_forgets|].
  - destruct Hwf1. by split.
  - simpl. lia.
  - intros p t. rewrite Hst2. simpl. intros Hp. pose proof (Hnear p t Hp). lia.
  - pose proof (Hat2 LT) as E. simpl in E. simpl. by rewrite E.
  - intros k. rewrite Hat2. apply He.
  - intros cbs m3 (-> & Hwf3 & He3 & Ht3 & Hst3 & K3). apply returns_bind.
    eapply returns_mono; [by apply getNextTimer_spec|].
    intros r m4 (_ & Hst4 & Hat4 & _ & _ & _ & Hr). unfold returns, mret, M_ret.
    split; [done|]. split; [by apply Hr|].
    assert (Hlive : forall p, live m4 p <-> live m p).
    { intros p. unfold live. by rewrite Hst4, Hst3, Hst2. }
    split; [|intros p; apply Hlive].
    intros l p Hp Hl. rewrite <- Hat2 in Hp. destruct (K3 l p Hp) as [l' Hl'].
    + unfold live in *. by rewrite Hst4 in Hl.
    + exists l'. by rewrite Hat4.
Qed.

(** ** Witnesses: one timer of [d] ms created at time 1000 and polled at its expiry *)

Definition demo_init (d : Z) : manager := init_manager [1000; 1000; 1000 + d] 1000.

Definition demo (d : Z) : manager :=
  match addTimer 1 d (Some (Plain 7)) false (demo_init d) with
  | Ret _ m => m
  | _ => demo_init d
  end.

Definition demo_timer (d : Z) : timer := Timer false d (u64 (1000 + d)) (Some (Plain 7)) false.

Lemma demo_sorted d : 0 <= d -> StronglySorted Z.le [1000; 1000; 1000; 1000 + d].
Proof. intros Hd. repeat constructor; lia. Qed.

Lemma demo_facts d : 0 <= d -> wf (demo d) /\ store (demo d) = {[1 := demo_timer d]} /\
  ~ has_recurring (demo d).
Proof.
  intros Hd. unfold demo.
  pose proof (addTimer_added (demo_init d) 1 d (Some (Plain 7)) false
    (init_wf _ _ (demo_sorted d Hd)) eq_refl) as H.
  unfold returns in H. destruct (addTimer _ _ _ _ _) as [r m|?|?]; try done.
  destruct H as [-> [Hwf Hst _ _ _ _ _]]. simpl in Hst. split; [done|]. split; [done|].
  intros (p & t & Hp & Hr). rewrite Hst in Hp.
  apply lookup_insert_Some in Hp as [[_ <-]|[_ Hp]]; [done|]. by rewrite lookup_empty in Hp.
Qed.

Lemma demo_step d : 0 <= d -> exec (AddTimer 1 d (Some (Plain 7)) false) (demo_init d) = Ret tt (demo d).
Proof.
  intros Hd. unfold demo, exec. run.
  pose proof (addTimer_added (demo_init d) 1 d (Some (Plain 7)) false
    (init_wf _ _ (demo_sorted d Hd)) eq_refl) as H.
  unfold returns in H. by destruct (addTimer _ _ _ _ _).
Qed.

Lemma listExpiredCb_safe_witness :
  wf (demo 100) /\
  match listExpiredCb [] (demo 100) with
  | Ret cbs' m' => cbs' = [Plain 7] /\ wf m'
  | _ => False
  end.
Proof.
  split; [by apply demo_facts|]. pose proof (listExpiredCb_safe (demo 100) []
    (proj1 (demo_facts 100 ltac:(lia)))) as H.
  destruct (listExpiredCb [] (demo 100)) as [cbs' m'|e m'|w] eqn:E; [|done|].
  - destruct H as (F & _ & Hwf & _). split; [|done].
    assert (Hx : match listExpiredCb [] (demo 100) with Ret c _ => c | _ => [] end = [Plain 7])
      by (vm_compute; reflexivity).
    by rewrite E in Hx.
  - destruct H as [_ H]. by destruct (demo_facts 100 ltac:(lia)) as (_ & _ & ?).
Defined.

Lemma listExpiredCb_one_shot_total_witness :
  wf (demo 100) /\ ~ has_recurring (demo 100) /\
  returns (listExpiredCb []) (demo 100) (fun cbs _ => Plain 7 ∈ cbs).
Proof.
  destruct (demo_facts 100 ltac:(lia)) as (Hwf & Hst & Hr). split; [done|]. split; [done|].
  eapply returns_mono; [apply (listExpiredCb_one_shot_total (demo 100) [] Hwf Hr)|].
  intros cbs m' [_ H]. eapply (H 1 (demo_timer 100)); try done.
  - exists 76%nat. vm_compute. left.
Defined.

Lemma two_polls_fire_due_timers_witness :
  wf (demo 300) /\ ~ has_recurring (demo 300) /\
  returns (cbs ← listExpiredCb []; listExpiredCb cbs) (demo 300) (fun cbs _ => Plain 7 ∈ cbs).
Proof.
  destruct (demo_facts 300 ltac:(lia)) as (Hwf & Hst & Hr). split; [done|]. split; [done|].
  apply (two_polls_fire_due_timers (demo 300) (L1 5) 1 (demo_timer 300)); try done.
  vm_compute. left.
Defined.

Lemma timer_manager_invariant_witness :
  rtc timer_step (demo_init 300) (demo 300) /\ wf (demo 300).
Proof.
  assert (H : rtc timer_step (demo_init 300) (demo 300)).
  { apply rtc_once. exists (AddTimer 1 300 (Some (Plain 7)) false).
    split; [done|]. by apply demo_step. }
  split; [done|].
  by apply (timer_manager_invariant [1000; 1000; 1300] 1000 (demo 300) (demo_sorted 300 ltac:(lia)) H).
Defined.

Lemma getNextTimer_never_oversleeps_witness :
  rtc schedule_step (demo_init 300) (demo 300) /\
  returns getNextTimer (demo 300) (fun r _ => r = 0 \/ reading (demo 300) + r <= 1300).
Proof.
  assert (H : rtc schedule_step (demo_init 300) (demo 300)).
  { apply rtc_once. exists (AddTimer 1 300 (Some (Plain 7)) false).
    split; [done|]. split; [done|]. by apply demo_step. }
  split; [done|].
  apply (getNextTimer_never_oversleeps [1000; 1000; 1300] 1000 (demo 300) (L1 5) 1 (demo_timer 300)
    (demo_sorted 300 ltac:(lia)) H); try done.
  vm_compute. left.
Defined.

Lemma cancel_is_final_witness :
  wf (demo 300) /\ returns (cancel 1) (demo 300) (fun b m1 => b = true /\ cancel 1 m1 = Ret false m1).
Proof.
  destruct (demo_facts 300 ltac:(lia)) as (Hwf & Hst & Hr). split; [done|].
  eapply returns_mono; [apply (cancel_is_final (demo 300) 1 (demo_timer 300) Hwf)|].
  - by rewrite Hst.
  - by intros b m1 (-> & H & _).
Defined.

Lemma expiry_pass_forgets_deadline_witness :
  wf (demo 300) /\ next_ (demo_timer 300) <= reading (demo 300) /\
  returns (cbs ← listExpiredCb []; next ← getNextTimer; mret (cbs, next)) (demo 300)
    (fun '(cbs, next) m' => cbs = [] /\ next = NEVER).
Proof.
  destruct (demo_facts 300 ltac:(lia)) as (Hwf & Hst & Hr). split; [done|]. split; [by vm_compute|].
  eapply returns_mono; [apply (expiry_pass_forgets_deadline (demo 300) Hwf)|].
  - intros p t. rewrite Hst. intros [_ <-]%lookup_singleton_Some. by vm_compute.
  - by vm_compute.
  - intros k. simpl. change (wheel0_ (demo 300)) with (replicate 256 ([] : list Z)).
    destruct (replicate 256 [] !! k) eqn:E; [|done]. by apply lookup_replicate in E as [-> _].
  - by intros [cbs next] m' (-> & -> & _).
Defined.

(** A recurring timer served late is re-armed into the slot being iterated:
    a timer of period 100 ms created at time 0 and polled at 256 ms is found in
    slot 100, and its next expiry, 356, belongs to slot 100 again.  The
    range-for of [advanceWheel] iterates a vector that [insertToWheel] appends
    to, which C++ leaves undefined. *)
Theorem late_recurring_timer_invalidates_iterator :
  (addTimer 1 100 (Some (Plain 7)) true;; listExpiredCb []) (init_manager [0; 0; 256] 0)
  = Crash iterator_invalidated.
Proof. vm_compute. reflexivity. Qed.
