(* ===== verification/Fiber.v ===== *)
(** * Fibers (src/fiber.cpp, include/pulsar/fiber.hpp)

    The fiber object, its life cycle and the switches between contexts, as one
    thread sees them.  The callback of a fiber is code of the client: what it
    does between two switches is the parameter [code]. *)

From S2P Require Import Prelude StackAllocator.

Inductive State := READY | RUNNING | TERM.

#[export] Instance State_eq_dec : EqDecision State.
Proof. solve_decision. Defined.

(** A [boost::context::fiber] is a move-only handle: [true] where it holds a
    suspended execution.  [stackAllocator_] is [true] while it is not null. *)
Record fiber := FiberObj {
  id_ : Z;
  stackSize_ : Z;
  state_ : State;
  context_ : bool;
  callerContext_ : bool;
  stackAllocator_ : bool;
  stackBlock_ : FiberStackBlock;
  cb_ : option Z;
  exception_ : option exn;
  resumeInProgress_ : bool;
  isRunInScheduler_ : bool;
  isMainFiber_ : bool;
  isSchedulerCallback_ : bool;
  schedulerOwnerId_ : Z;
  schedulerOriginWorker_ : Z }.

Definition set_state (x : State) (o : fiber) : fiber :=
  FiberObj (id_ o) (stackSize_ o) x (context_ o) (callerContext_ o) (stackAllocator_ o)
    (stackBlock_ o) (cb_ o) (exception_ o) (resumeInProgress_ o) (isRunInScheduler_ o)
    (isMainFiber_ o) (isSchedulerCallback_ o) (schedulerOwnerId_ o) (schedulerOriginWorker_ o).
Definition set_context (x : bool) (o : fiber) : fiber :=
  FiberObj (id_ o) (stackSize_ o) (state_ o) x (callerContext_ o) (stackAllocator_ o)
    (stackBlock_ o) (cb_ o) (exception_ o) (resumeInProgress_ o) (isRunInScheduler_ o)
    (isMainFiber_ o) (isSchedulerCallback_ o) (schedulerOwnerId_ o) (schedulerOriginWorker_ o).
Definition set_caller (x : bool) (o : fiber) : fiber :=
  FiberObj (id_ o) (stackSize_ o) (state_ o) (context_ o) x (stackAllocator_ o)
    (stackBlock_ o) (cb_ o) (exception_ o) (resumeInProgress_ o) (isRunInScheduler_ o)
    (isMainFiber_ o) (isSchedulerCallback_ o) (schedulerOwnerId_ o) (schedulerOriginWorker_ o).
Definition set_stack (size : Z) (a : bool) (b : FiberStackBlock) (o : fiber) : fiber :=
  FiberObj (id_ o) size (state_ o) (context_ o) (callerContext_ o) a
    b (cb_ o) (exception_ o) (resumeInProgress_ o) (isRunInScheduler_ o)
    (isMainFiber_ o) (isSchedulerCallback_ o) (schedulerOwnerId_ o) (schedulerOriginWorker_ o).
Definition set_cb (x : option Z) (o : fiber) : fiber :=
  FiberObj (id_ o) (stackSize_ o) (state_ o) (context_ o) (callerContext_ o) (stackAllocator_ o)
    (stackBlock_ o) x (exception_ o) (resumeInProgress_ o) (isRunInScheduler_ o)
    (isMainFiber_ o) (isSchedulerCallback_ o) (schedulerOwnerId_ o) (schedulerOriginWorker_ o).
Definition set_exception (x : option exn) (o : fiber) : fiber :=
  FiberObj (id_ o) (stackSize_ o) (state_ o) (context_ o) (callerContext_ o) (stackAllocator_ o)
    (stackBlock_ o) (cb_ o) x (resumeInProgress_ o) (isRunInScheduler_ o)
    (isMainFiber_ o) (isSchedulerCallback_ o) (schedulerOwnerId_ o) (schedulerOriginWorker_ o).
Definition set_resuming (x : bool) (o : fiber) : fiber :=
  FiberObj (id_ o) (stackSize_ o) (state_ o) (context_ o) (callerContext_ o) (stackAllocator_ o)
    (stackBlock_ o) (cb_ o) (exception_ o) x (isRunInScheduler_ o)
    (isMainFiber_ o) (isSchedulerCallback_ o) (schedulerOwnerId_ o) (schedulerOriginWorker_ o).

(** [Fiber::MarkSchedulerCallback] *)
Definition MarkSchedulerCallback (schedulerOwnerId originWorker : Z) (o : fiber) : fiber :=
  FiberObj (id_ o) (stackSize_ o) (state_ o) (context_ o) (callerContext_ o) (stackAllocator_ o)
    (stackBlock_ o) (cb_ o) (exception_ o) (resumeInProgress_ o) (isRunInScheduler_ o)
    (isMainFiber_ o) true schedulerOwnerId originWorker.

Definition IsReusableSchedulerCallback (schedulerOwnerId originWorker : Z) (o : fiber) : bool :=
  isSchedulerCallback_ o && (schedulerOwnerId_ o =? schedulerOwnerId) &&
  (schedulerOriginWorker_ o =? originWorker) && negb (isMainFiber_ o) &&
  bool_decide (state_ o = TERM) && negb (context_ o) && negb (callerContext_ o).

Definition g_fiber_stack_size : Z := 128 * 1024.

(** What the callback does until the next switch: it calls [yield] on the
    running fiber, returns, or throws. *)
Inductive segment := Yields | Returns | Throws (e : exn).

#[export] Instance segment_eq_dec : EqDecision segment.
Proof. solve_decision. Defined.

Section fibers.
Context {S : Type} (A : FiberStackAllocator S).

(** The objects alive, the thread-local variables [cur_fiber],
    [cur_thread_fiber] and the scheduler fiber of the thread, the two global
    counters, and the state of the stack allocator. *)
Record world := World {
  fibers : gmap Z fiber;
  cur_fiber : option Z;
  cur_thread_fiber : option Z;
  scheduler_fiber : option Z;
  cur_fiber_id : Z;
  fiber_count : Z;
  allocator : S }.

Definition set_fibers (x : gmap Z fiber) (w : world) : world :=
  World x (cur_fiber w) (cur_thread_fiber w) (scheduler_fiber w) (cur_fiber_id w) (fiber_count w)
    (allocator w).
Definition set_current (x : option Z) (w : world) : world :=
  World (fibers w) x (cur_thread_fiber w) (scheduler_fiber w) (cur_fiber_id w) (fiber_count w)
    (allocator w).
Definition set_thread_fiber (x : option Z) (w : world) : world :=
  World (fibers w) (cur_fiber w) x (scheduler_fiber w) (cur_fiber_id w) (fiber_count w)
    (allocator w).
Definition set_next_id (x : Z) (w : world) : world :=
  World (fibers w) (cur_fiber w) (cur_thread_fiber w) (scheduler_fiber w) x (fiber_count w)
    (allocator w).
Definition set_count (x : Z) (w : world) : world :=
  World (fibers w) (cur_fiber w) (cur_thread_fiber w) (scheduler_fiber w) (cur_fiber_id w) x
    (allocator w).
Definition set_allocator (x : S) (w : world) : world :=
  World (fibers w) (cur_fiber w) (cur_thread_fiber w) (scheduler_fiber w) (cur_fiber_id w)
    (fiber_count w) x.

Definition load (f : Z) : M world fiber := fun w =>
  match fibers w !! f with
  | Some o => Ret o w
  | None => Crash (Undefined "access to a destroyed Fiber")
  end.
Definition store (f : Z) (o : fiber) : M world unit :=
  modify (fun w => set_fibers (<[f := o]> (fibers w)) w).
Definition update (f : Z) (g : fiber -> fiber) : M world unit := o ← load f; store f (g o).

Definition with_allocator {R} (m : M S R) : M world R := zoom allocator set_allocator m.

Definition SetThis (f : option Z) : M world unit := modify (set_current f).

Definition TotalFiberNum : M world Z := gets fiber_count.

(** [cur_fiber_id++] *)
Definition next_id : M world Z :=
  i ← gets cur_fiber_id; modify (set_next_id (u64 (i + 1)));; mret i.

(** The private constructor [Fiber::Fiber()] of a thread's main fiber, at [p]. *)
Definition main_fiber_new (p : Z) : M world unit :=
  SetThis (Some p);;
  modify (fun w => set_count (u64 (fiber_count w + 1)) w);;
  i ← next_id;
  store p (FiberObj i 0 RUNNING false false false clear None None false false true false 0 SIZE_MAX).

(** [Fiber::GetThis]; [p] is the address [new] answers if it is called. *)
Definition GetThis (p : Z) : M world Z :=
  w ← get;
  match cur_fiber w with
  | Some f => mret f
  | None =>
      main_fiber_new p;;
      w ← get;
      CondPanic (bool_decide (cur_fiber w = Some p)) "cur_fiber need to be main_fiber";;
      modify (set_thread_fiber (Some p));;
      mret p
  end.

(** [Fiber::ReleaseStack] on the object [o]; the object it leaves. *)
Definition ReleaseStack (o : fiber) : M world fiber :=
  (if block_bool (stackBlock_ o) then
     CondPanic (stackAllocator_ o) "fiber stack allocator is nullptr";;
     with_allocator (sa_release A (stackBlock_ o))
   else mret tt);;
  mret (set_stack 0 false clear o).

(** [ContextStackAllocator::allocate]: the stack the new context runs on. *)
Definition context_allocate (o : fiber) : M world (Z * Z) :=
  CondPanic (block_bool (stackBlock_ o)) "fiber stack block is empty";;
  mret (usableSize (stackBlock_ o), stackPointer (stackBlock_ o)).

(** [Fiber::CreateContext]: a new suspended context on the fiber's stack. *)
Definition CreateContext (o : fiber) : M world bool :=
  with_allocator (sa_beforeContextCreate A (stackBlock_ o));;
  context_allocate o;;
  mret true.

(** The constructor of a child fiber in the fresh storage [p]: when anything
    throws the stack is given back and the object does not come to life. *)
Definition Fiber_new (p cb stacksize : Z) (run_inscheduler : bool) : M world Z :=
  i ← next_id;
  let requestedStackSize := if stacksize >? 0 then stacksize else g_fiber_stack_size in
  store p (FiberObj i 0 READY false false true clear (Some cb) None false run_inscheduler
             false false 0 SIZE_MAX);;
  try_catch
    (block ← with_allocator (sa_acquire A requestedStackSize);
     update p (set_stack 0 true block);;
     (if negb (block_bool block) || (stackBase block =? 0) || (usableSize block <? requestedStackSize)
      then throw bad_alloc else mret tt);;
     update p (set_stack (usableSize block) true block);;
     o ← load p;
     c ← CreateContext o;
     update p (set_context c))
    (fun e =>
       o ← load p;
       ReleaseStack o;;
       modify (fun w => set_fibers (delete p (fibers w)) w);;
       throw e);;
  modify (fun w => set_count (u64 (fiber_count w + 1)) w);;
  mret p.

Context (code : Z -> M world segment).

(** [isRunInScheduler_ ? Scheduler::GetMainFiber() : cur_thread_fiber.get()] *)
Definition return_fiber (o : fiber) (w : world) : option Z :=
  if isRunInScheduler_ o then scheduler_fiber w else cur_thread_fiber w.

(** [Fiber::yield] up to the switch. *)
Definition yield_out (f : Z) : M world unit :=
  o ← load f;
  CondPanic (bool_decide (state_ o = RUNNING)) "state error";;
  CondPanic (callerContext_ o) "caller context is empty";;
  update f (set_state READY);;
  w ← get;
  CondPanic (bool_decide (is_Some (return_fiber o w))) "return fiber is nullptr";;
  SetThis (return_fiber o w);;
  update f (set_caller false).

(** [Fiber::MainFunc] after the callback, and the end of the entry function. *)
Definition main_finish (f : Z) (exception : option exn) : M world unit :=
  o ← load f;
  match exception with
  | Some e => update f (set_exception (Some e))
  | None => mret tt
  end;;
  update f (set_cb None);;
  update f (set_state TERM);;
  w ← get;
  CondPanic (bool_decide (is_Some (return_fiber o w))) "return fiber is nullptr";;
  SetThis (return_fiber o w);;
  update f (set_caller false).

(** How the running fiber switches out; the handle its resumer gets. *)
Definition switch_out (f : Z) (r : segment) : M world bool :=
  match r with
  | Yields => yield_out f;; mret true
  | Returns => main_finish f None;; mret false
  | Throws e => main_finish f (Some e);; mret false
  end.

(** The switch into [f] and back: the first instructions on its side (of the
    entry function, or of [yield] after its switch), the code of the callback,
    and the switch out. *)
Definition switch_in (f : Z) : M world bool :=
  update f (set_caller true);;
  SetThis (Some f);;
  r ← code f;
  switch_out f r.

(** [Fiber::resume] with the guard's destructor, which runs on every exit. *)
Definition resume_guarded (f : Z) : M world unit :=
  o ← load f;
  CondPanic (negb (bool_decide (state_ o = TERM)) && negb (bool_decide (state_ o = RUNNING)))
    "state error";;
  CondPanic (context_ o) "fiber context is empty";;
  w ← get;
  CondPanic (bool_decide (is_Some (cur_fiber w))) "caller fiber is nullptr";;
  SetThis (Some f);;
  update f (set_state RUNNING);;
  update f (set_context false);;
  c ← switch_in f;
  update f (set_context c);;
  SetThis (cur_fiber w);;
  o ← load f;
  if bool_decide (state_ o = TERM) then
    match exception_ o with
    | Some e => update f (set_exception None);; throw e
    | None => mret tt
    end
  else mret tt.

Definition resume (f : Z) : M world unit :=
  o ← load f;
  if resumeInProgress_ o then throw (logic_error "fiber is already being resumed")
  else
    update f (set_resuming true);;
    try_catch (resume_guarded f) (fun e => update f (set_resuming false);; throw e);;
    update f (set_resuming false).

(** [Fiber::reset] *)
Definition reset (f cb : Z) : M world unit :=
  o ← load f;
  CondPanic (negb (isMainFiber_ o)) "main fiber cannot be reset";;
  CondPanic (bool_decide (state_ o = TERM)) "state isn't TERM";;
  CondPanic (negb (context_ o)) "terminated fiber context should be empty";;
  c ← CreateContext o;
  update f (set_cb (Some cb));;
  update f (set_exception None);;
  update f (set_context c);;
  update f (set_state READY).

(** [Fiber::~Fiber] *)
Definition Fiber_delete (f : Z) : M world unit :=
  o ← load f;
  modify (fun w => set_count (u64 (fiber_count w - 1)) w);;
  (if negb (isMainFiber_ o) then
     CondPanic (bool_decide (state_ o = TERM)) "fiber state should be term";;
     ReleaseStack o;; mret tt
   else
     CondPanic (bool_decide (cb_ o = None)) "main fiber no callback";;
     CondPanic (bool_decide (state_ o = RUNNING)) "main fiber state should be running";;
     w ← get;
     if bool_decide (cur_fiber w = Some f) then SetThis None else mret tt);;
  modify (fun w => set_fibers (delete f (fibers w)) w).

End fibers.

Arguments world S : clear implicits.
