(* ===== verification/FiberProofs.v ===== *)
(** * Correctness of fibers

    The life cycle of a fiber as an invariant of the object, the exact effect
    of a resumption, and the ownership of stacks, for every allocator that
    keeps [AllocatorLaws] and every client code that keeps [CodeLaws]. *)

From S2P Require Import Prelude StackAllocator StackAllocatorProofs Fiber.

(** ** The object invariant *)

Definition fib_ok (o : fiber) : Prop :=
  if isMainFiber_ o then state_ o = RUNNING /\ cb_ o = None /\ stackBlock_ o = clear
  else
    block_bool (stackBlock_ o) = true /\ stackAllocator_ o = true /\
    stackSize_ o = usableSize (stackBlock_ o) /\ exception_ o = None /\
    match state_ o with
    | READY => context_ o = true /\ callerContext_ o = false /\ resumeInProgress_ o = false
    | RUNNING => context_ o = false /\ callerContext_ o = true /\ resumeInProgress_ o = true
    | TERM => context_ o = false /\ callerContext_ o = false /\ resumeInProgress_ o = false /\
              cb_ o = None
    end.

(** The stacks the living fibers own. *)
Definition owned (m : gmap Z fiber) : list FiberStackBlock :=
  omap (fun x => if isMainFiber_ x.2 then None else Some (stackBlock_ x.2)) (map_to_list m).

Lemma owned_insert m p o :
  m !! p = None ->
  owned (<[p := o]> m) ≡ₚ (if isMainFiber_ o then owned m else stackBlock_ o :: owned m).
Proof.
  intros Hp. unfold owned. rewrite map_to_list_insert by done. simpl.
  by destruct (isMainFiber_ o).
Qed.

Lemma owned_delete m p o :
  m !! p = Some o ->
  owned m ≡ₚ (if isMainFiber_ o then owned (delete p m) else stackBlock_ o :: owned (delete p m)).
Proof.
  intros Hp. rewrite <- (insert_delete_id m p o Hp) at 1. by apply owned_insert, lookup_delete_eq.
Qed.

Lemma owned_update m p o o' :
  m !! p = Some o -> isMainFiber_ o' = isMainFiber_ o -> stackBlock_ o' = stackBlock_ o ->
  owned (<[p := o']> m) ≡ₚ owned m.
Proof.
  intros Hp Hm Hb. rewrite (owned_delete m p o Hp), <- insert_delete_eq.
  rewrite owned_insert by apply lookup_delete_eq. by rewrite Hm, Hb.
Qed.

Section proofs.
Context {S : Type} (A : FiberStackAllocator S) (ok : list FiberStackBlock -> S -> Prop).
Context `{HA : !AllocatorLaws A ok}.

Record inv (w : world S) : Prop := {
  inv_fibers : map_Forall (fun _ o => fib_ok o) (fibers w);
  inv_stacks : ok (owned (fibers w)) (allocator w);
  inv_count : fiber_count w = u64 (Z.of_nat (size (fibers w))) }.

(** The thread-local variables of a worker thread are set. *)
Definition tls_ok (w : world S) : Prop :=
  is_Some (cur_fiber w) /\ is_Some (cur_thread_fiber w) /\ is_Some (scheduler_fiber w).

(** Client code: it respects the encapsulation of [Fiber] (it leaves the
    private state of the running fiber alone and restores the thread's current
    fiber by the time it switches) and keeps the invariant of the other ones. *)
Class CodeLaws (code : Z -> M (world S) segment) : Prop :=
  law_code : forall f w o, inv w -> tls_ok w -> fibers w !! f = Some o -> state_ o = RUNNING ->
    isMainFiber_ o = false -> cur_fiber w = Some f ->
    match code f w with
    | Ret _ w' => inv w' /\ fibers w' !! f = Some o /\ cur_fiber w' = cur_fiber w /\
                  cur_thread_fiber w' = cur_thread_fiber w /\ scheduler_fiber w' = scheduler_fiber w
    | _ => False
    end.

Lemma load_eq (w : world S) f o : fibers w !! f = Some o -> load f w = Ret o w.
Proof. intros H. unfold load. by rewrite H. Qed.

Lemma update_eq (w : world S) f g o :
  fibers w !! f = Some o -> update f g w = Ret tt (set_fibers (<[f := g o]> (fibers w)) w).
Proof. intros H. unfold update, store. run. by rewrite (load_eq _ _ _ H). Qed.

Lemma inv_update w f o o' :
  inv w -> fibers w !! f = Some o -> isMainFiber_ o' = isMainFiber_ o ->
  stackBlock_ o' = stackBlock_ o -> fib_ok o' -> inv (set_fibers (<[f := o']> (fibers w)) w).
Proof.
  intros [H1 H2 H3] Hf Hm Hb Ho. split; simpl.
  - by apply map_Forall_insert_2.
  - eapply law_perm; [|exact H2]. symmetry. by eapply owned_update.
  - rewrite H3. do 2 f_equal. symmetry. by apply map_size_insert_Some.
Qed.

(** ** Resuming *)

(** The object while its code runs, and after the switch out. *)
Definition running (o : fiber) : fiber :=
  set_resuming true (set_state RUNNING (set_context false (set_caller true o))).

Definition entered (f : Z) (o : fiber) (w : world S) : world S :=
  set_current (Some f) (set_fibers (<[f := running o]> (fibers w)) w).

Definition switched_out (r : segment) (o : fiber) : fiber :=
  match r with
  | Yields => o
  | _ => set_state TERM (set_cb None (set_context false o))
  end.

Definition back (f : Z) (o : fiber) (r : segment) (w w' : world S) : world S :=
  set_current (cur_fiber w) (set_fibers (<[f := switched_out r o]> (fibers w')) w').

Lemma ready_eta o :
  fib_ok o -> isMainFiber_ o = false -> state_ o = READY ->
  o = FiberObj (id_ o) (stackSize_ o) READY true false (stackAllocator_ o) (stackBlock_ o) (cb_ o)
        None false (isRunInScheduler_ o) false (isSchedulerCallback_ o) (schedulerOwnerId_ o)
        (schedulerOriginWorker_ o).
Proof.
  unfold fib_ok. destruct o; simpl. intros H -> ->. simpl in H.
  destruct H as (_ & _ & _ & -> & -> & -> & ->). done.
Qed.

Lemma inv_entered f o w :
  inv w -> fibers w !! f = Some o -> isMainFiber_ o = false -> state_ o = READY ->
  inv (entered f o w).
Proof.
  intros Hi Hf Hm Hs. pose proof (inv_fibers _ Hi f o Hf) as Ho. unfold fib_ok in Ho.
  rewrite Hm, Hs in Ho. destruct Ho as (H1 & H2 & H3 & H4 & _).
  assert (H : inv (set_fibers (<[f := running o]> (fibers w)) w)).
  { eapply inv_update; try done. unfold fib_ok, running. simpl. by rewrite Hm. }
  by destruct H.
Qed.

Lemma inv_back f o r w w' :
  inv w' -> fib_ok o -> isMainFiber_ o = false -> state_ o = READY ->
  fibers w' !! f = Some (running o) -> inv (back f o r w w').
Proof.
  intros Hi Ho Hm Hs Hf.
  assert (H : inv (set_fibers (<[f := switched_out r o]> (fibers w')) w')).
  { eapply inv_update; try done; [by destruct r| by destruct r|].
    destruct r; [done|..]; unfold fib_ok, switched_out in *; simpl; rewrite Hm, Hs in *; naive_solver. }
  by destruct H.
Qed.

Context (code : Z -> M (world S) segment) `{HC : !CodeLaws code}.

Lemma ready_not_main o : fib_ok o -> state_ o = READY -> isMainFiber_ o = false.
Proof. unfold fib_ok. destruct (isMainFiber_ o); [|done]. intros (H & _) ?. congruence. Qed.

Lemma switch_in_eq f o w :
  inv w -> tls_ok w -> fibers w !! f = Some o -> state_ o = READY -> fib_ok o ->
  exists r w2, code f (entered f o w) = Ret r w2 /\
    inv w2 /\ fibers w2 !! f = Some (running o) /\
    cur_thread_fiber w2 = cur_thread_fiber w /\ scheduler_fiber w2 = scheduler_fiber w.
Proof.
  intros Hi Ht Hf Hs Ho. pose proof (ready_not_main o Ho Hs) as Hm.
  pose proof (law_code f (entered f o w) (running o) (inv_entered f o w Hi Hf Hm Hs)) as H.
  destruct Ht as ([c Hc] & Ht2 & Ht3).
  specialize (H ltac:(by split_and!) ltac:(apply lookup_insert_eq) eq_refl Hm eq_refl).
  destruct (code f (entered f o w)) as [r w2|?|?]; try done.
  exists r, w2. split; [done|]. by destruct H as (? & ? & ? & ? & ?).
Qed.

Lemma bind_load {B} f o (k : fiber -> M (world S) B) w R :
  fibers w !! f = Some o -> k o w = R -> (load f ≫= k) w = R.
Proof. intros H. eapply bind_ret. by apply load_eq. Qed.

Lemma bind_update {B} f g o (k : unit -> M (world S) B) w R :
  fibers w !! f = Some o -> k tt (set_fibers (<[f := g o]> (fibers w)) w) = R ->
  (update f g ≫= k) w = R.
Proof. intros H. eapply bind_ret. by apply update_eq. Qed.

(** Evaluate the next operation on the fiber under consideration. *)
Ltac find_fiber := first [ eassumption | simpl; apply lookup_insert_eq ].
Ltac fstep :=
  lazymatch goal with
  | |- ((_ ≫= _) ≫= _) _ = _ => apply bind_assoc
  | |- (load _ ≫= _) _ = _ => eapply bind_load; [find_fiber|]
  | |- (update _ _ ≫= _) _ = _ => eapply bind_update; [find_fiber|]
  | |- update _ _ _ = _ => erewrite update_eq by find_fiber
  | |- (CondPanic _ _ ≫= _) _ = _ => eapply bind_panic; [by simpl; first [by apply bool_decide_eq_true | done]|]
  | |- (get ≫= _) _ = _ => apply bind_get
  | |- (gets _ ≫= _) _ = _ => apply bind_gets
  | |- (SetThis _ ≫= _) _ = _ => apply bind_modify
  | |- (modify _ ≫= _) _ = _ => apply bind_modify
  | |- (store _ _ ≫= _) _ = _ => apply bind_modify
  | |- (mret _ ≫= _) _ = _ => eapply bind_ret; [reflexivity|]
  end; cbv beta.

(** The switch out of a running fiber, in the state its code left. *)
Lemma switch_out_eq f o r (w2 : world S) :
  fib_ok o -> state_ o = READY -> fibers w2 !! f = Some (running o) ->
  is_Some (return_fiber o w2) ->
  switch_out f r w2 =
  Ret (bool_decide (r = Yields))
    (set_current (return_fiber o w2) (set_fibers (<[f := set_caller false
       match r with
       | Yields => set_state READY (running o)
       | Returns => set_state TERM (set_cb None (running o))
       | Throws e => set_state TERM (set_cb None (set_exception (Some e) (running o)))
       end]> (fibers w2)) w2)).
Proof.
  intros Ho Hs Hf Hret. pose proof (ready_not_main o Ho Hs) as Hm.
  destruct r; unfold switch_out, yield_out, main_finish; repeat fstep;
    unfold set_current, set_fibers; simpl; by rewrite ?insert_insert_eq.
Qed.

Lemma resume_eq f o w :
  inv w -> tls_ok w -> fibers w !! f = Some o -> state_ o = READY ->
  exists r w2, code f (entered f o w) = Ret r w2 /\ inv (back f o r w w2) /\
    tls_ok (back f o r w w2) /\
    resume code f w = match r with
                      | Throws e => Throw e (back f o r w w2)
                      | _ => Ret tt (back f o r w w2)
                      end.
Proof.
  intros Hi Ht Hf Hs. pose proof (inv_fibers _ Hi f o Hf) as Ho. simpl in Ho.
  pose proof (ready_not_main o Ho Hs) as Hm.
  destruct (switch_in_eq f o w Hi Ht Hf Hs Ho) as (r & w2 & Hcode & Hi2 & Hf2 & Ht2 & Ht3).
  exists r, w2. split; [done|]. split; [by apply inv_back|].
  destruct Ht as (T1 & T2 & T3). split; [unfold tls_ok; simpl; by rewrite Ht2, Ht3|].
  assert (Hret : is_Some (return_fiber o w2)).
  { unfold return_fiber. rewrite Ht2, Ht3. by destruct (isRunInScheduler_ o). }
  assert (Hx : context_ o = true /\ callerContext_ o = false /\ resumeInProgress_ o = false /\
    exception_ o = None).
  { unfold fib_ok in Ho. rewrite Hm, Hs in Ho. naive_solver. }
  destruct Hx as (Hctx & Hcal & Hflag & Hexc).
  assert (Hguard : resume_guarded code f (set_fibers (<[f := set_resuming true o]> (fibers w)) w) =
    let w' := set_current (cur_fiber w) (set_fibers (<[f := set_resuming true (switched_out r o)]> (fibers w2)) w2) in
    match r with Throws e => Throw e w' | _ => Ret tt w' end).
  { unfold resume_guarded. fstep. eapply bind_panic; [simpl; by rewrite Hs|].
    eapply bind_panic; [done|]. repeat fstep.
    eapply bind_ret.
    { unfold switch_in. repeat fstep. eapply bind_ret; [|by apply (switch_out_eq f o)].
      rewrite <- Hcode. f_equal. unfold entered, set_current, set_fibers. simpl.
      by rewrite !insert_insert_eq. }
    destruct r; repeat fstep; simpl; rewrite ?Hs; simpl; rewrite ?Hexc; repeat fstep;
      unfold mret, M_ret, throw, set_current, set_fibers; simpl; rewrite ?insert_insert_eq;
      clear -Hs Hctx Hcal Hexc; by destruct o; simpl in *; subst. }
  unfold resume. fstep. rewrite Hflag. fstep. unfold try_catch.
  assert (Hback : forall x, fibers (set_current x (set_fibers (<[f := set_resuming true (switched_out r o)]>
      (fibers w2)) w2)) !! f = Some (set_resuming true (switched_out r o))).
  { intros x. simpl. apply lookup_insert_eq. }
  assert (Hclr : set_resuming false (set_resuming true (switched_out r o)) = switched_out r o).
  { clear -Hflag. destruct o, r; simpl in *; by subst. }
  destruct r; unfold mbind, M_bind; rewrite Hguard; cbv beta zeta iota;
    erewrite update_eq by apply Hback; rewrite Hclr;
    unfold back, throw, set_current, set_fibers; simpl; by rewrite insert_insert_eq.
Qed.

(** ** Construction *)

Definition requested (stacksize : Z) : Z := if stacksize >? 0 then stacksize else g_fiber_stack_size.

Lemma requested_range z : 0 <= z < 2 ^ 64 -> 0 <= requested z < 2 ^ 64.
Proof. intros. unfold requested, g_fiber_stack_size. destruct (z >? 0); lia. Qed.

Lemma with_allocator_eq {R} (m : M S R) (w : world S) :
  with_allocator m w = match m (allocator w) with
                       | Ret a s => Ret a (set_allocator s w)
                       | Throw e s => Throw e (set_allocator s w)
                       | Crash c => Crash c
                       end.
Proof. done. Qed.

Lemma release_owned o (w : world S) out :
  block_bool (stackBlock_ o) = true -> stackAllocator_ o = true ->
  ok (stackBlock_ o :: out) (allocator w) ->
  exists s, ReleaseStack A o w = Ret (set_stack 0 false clear o) (set_allocator s w) /\ ok out s.
Proof.
  intros Hb Ha Hok. destruct (law_release _ _ _ Hok) as (s & Hs & Hok').
  exists s. split; [|done]. unfold ReleaseStack. rewrite Hb, Ha.
  eapply bind_assoc, bind_panic; [done|]. eapply bind_ret; [|reflexivity].
  rewrite with_allocator_eq, Hs. done.
Qed.

(** Run one constructor step whose result is known. *)
Lemma try_catch_throw {T R} (m : M T R) h s e s' :
  m s = Throw e s' -> try_catch m h s = h e s'.
Proof. unfold try_catch. by intros ->. Qed.

Lemma try_catch_ret {T R} (m : M T R) h s a s' :
  m s = Ret a s' -> try_catch m h s = Ret a s'.
Proof. unfold try_catch. by intros ->. Qed.

Record constructed (p cb sz : Z) (ris : bool) (w w' : world S) : Prop := {
  con_inv : inv w';
  con_fibers : exists o, fibers w' = <[p := o]> (fibers w) /\ state_ o = READY /\
    cb_ o = Some cb /\ requested sz <= stackSize_ o /\ isRunInScheduler_ o = ris;
  con_tls : tls_ok w -> tls_ok w' }.

(** The part of the world that construction leaves alone. *)
Definition same_rest (w w' : world S) : Prop :=
  cur_fiber w' = cur_fiber w /\ cur_thread_fiber w' = cur_thread_fiber w /\
  scheduler_fiber w' = scheduler_fiber w /\ fiber_count w' = fiber_count w.

Lemma same_rest_tls w w' : same_rest w w' -> tls_ok w -> tls_ok w'.
Proof. intros (E1 & E2 & E3 & _). unfold tls_ok. by rewrite E1, E2, E3. Qed.

(** The handler of the constructor gives back what the object owns. *)
Lemma constructor_handler p o w w3 e :
  inv w -> fibers w !! p = None -> fibers w3 = <[p := o]> (fibers w) -> same_rest w w3 ->
  (if block_bool (stackBlock_ o) then stackAllocator_ o = true /\
     ok (stackBlock_ o :: owned (fibers w)) (allocator w3)
   else ok (owned (fibers w)) (allocator w3)) ->
  exists w', (o ← load p; ReleaseStack A o;;
      modify (fun w => set_fibers (delete p (fibers w)) w);; throw e) w3 = (Throw e w' : outcome _ unit) /\
    inv w' /\ fibers w' = fibers w /\ same_rest w w'.
Proof.
  intros [Hi1 Hi2 Hi3] Hp Hf Hr Hok.
  assert (Hrel : exists s, ReleaseStack A o w3 = Ret (set_stack 0 false clear o) (set_allocator s w3) /\
    ok (owned (fibers w)) s).
  { destruct (block_bool (stackBlock_ o)) eqn:Hb.
    - destruct Hok as [Ha Hok]. by eapply release_owned.
    - exists (allocator w3). split; [|done]. unfold ReleaseStack. rewrite Hb. by destruct w3. }
  destruct Hrel as (s & Hrel & Hok').
  assert (Hdel : delete p (<[p := o]> (fibers w)) = fibers w) by by apply delete_insert_id.
  eexists. split.
  { eapply bind_load; [rewrite Hf; apply lookup_insert_eq|].
    eapply bind_ret; [exact Hrel|]. apply bind_modify. reflexivity. }
  simpl. rewrite Hf, Hdel. split; [|split; [done|]]; [|by destruct Hr as (? & ? & ? & ?)].
  destruct Hr as (_ & _ & _ & Hc). split; simpl; [done..|]. by rewrite Hc.
Qed.

(** The guarded part of the constructor. *)
Definition constructor_body (p sz : Z) : M (world S) unit :=
  block ← with_allocator (sa_acquire A (requested sz));
  update p (set_stack 0 true block);;
  (if negb (block_bool block) || (stackBase block =? 0) || (usableSize block <? requested sz)
   then throw bad_alloc else mret tt);;
  update p (set_stack (usableSize block) true block);;
  o ← load p;
  c ← CreateContext A o;
  update p (set_context c).

Lemma constructor_body_spec p sz o0 w w2 :
  inv w -> fibers w !! p = None -> fibers w2 = <[p := o0]> (fibers w) -> same_rest w w2 ->
  allocator w2 = allocator w -> stackBlock_ o0 = clear -> 0 <= sz < 2 ^ 64 ->
  match constructor_body p sz w2 with
  | Ret _ w3 => exists b, fibers w3 = <[p := set_context true (set_stack (usableSize b) true b o0)]> (fibers w) /\
      same_rest w w3 /\ block_bool b = true /\ requested sz <= usableSize b /\
      ok (b :: owned (fibers w)) (allocator w3)
  | Throw e w3 => exists o, fibers w3 = <[p := o]> (fibers w) /\ same_rest w w3 /\
      if block_bool (stackBlock_ o) then stackAllocator_ o = true /\
        ok (stackBlock_ o :: owned (fibers w)) (allocator w3)
      else ok (owned (fibers w)) (allocator w3)
  | Crash _ => False
  end.
Proof.
  intros [Hi1 Hi2 Hi3] Hp Hf Hr Hal Hb0 Hsz. pose proof (requested_range sz Hsz) as Hreq.
  pose proof (law_acquire (requested sz) (allocator w) _ Hreq Hi2) as HL.
  unfold constructor_body. unfold mbind at 1, M_bind at 1. rewrite with_allocator_eq, Hal.
  destruct (sa_acquire A (requested sz) (allocator w)) as [b s|e s|]; [| |done].
  2: { exists o0. rewrite Hb0. simpl. by destruct HL. }
  destruct HL as (Hok & Hu & Hb & Hbase & Hsp).
  set (w3 := set_allocator s w2).
  assert (Hf3 : fibers w3 !! p = Some o0) by (simpl; rewrite Hf; apply lookup_insert_eq).
  unfold mbind at 1, M_bind at 1. rewrite (update_eq w3 p _ o0 Hf3).
  rewrite Hb. replace (stackBase b =? 0) with false by (symmetry; by apply Z.eqb_neq).
  replace (usableSize b <? requested sz) with false by (symmetry; apply Z.ltb_ge; lia).
  simpl. unfold mbind at 1, M_bind at 1. simpl. unfold mbind at 1, M_bind at 1.
  erewrite update_eq by (simpl; apply lookup_insert_eq).
  unfold mbind at 1, M_bind at 1. erewrite load_eq by (simpl; apply lookup_insert_eq). simpl.
  set (o2 := set_stack (usableSize b) true b (set_stack 0 true b o0)).
  set (w4 := set_fibers _ _).
  assert (Hf4 : fibers w4 = <[p := o2]> (fibers w)) by (simpl; by rewrite Hf, !insert_insert_eq).
  assert (Ho2 : o2 = set_stack (usableSize b) true b o0) by done.
  pose proof (law_context b s _ Hok) as HC'. unfold CreateContext, context_allocate.
  unfold mbind at 1 2, M_bind at 1 2. rewrite with_allocator_eq.
  change (stackBlock_ o2) with b. change (allocator w4) with s.
  destruct (sa_beforeContextCreate A b s) as [[] s2|e s2|]; [| |done].
  - rewrite Hb. unfold mbind, M_bind, CondPanic, mret, M_ret.
    rewrite (update_eq (set_allocator s2 w4) p _ o2); last first.
    { change (fibers w4 !! p = Some o2). rewrite Hf4. apply lookup_insert_eq. }
    exists b. change (fibers (set_allocator s2 w4)) with (fibers w4).
    rewrite Hf4, insert_insert_eq. by rewrite Ho2.
  - exists o2. rewrite Ho2. simpl. by rewrite Hb.
Qed.

Lemma Fiber_new_spec p cb sz ris w :
  inv w -> fibers w !! p = None -> 0 <= sz < 2 ^ 64 ->
  match Fiber_new A p cb sz ris w with
  | Ret q w' => q = p /\ constructed p cb sz ris w w'
  | Throw e w' => inv w' /\ fibers w' = fibers w /\ fiber_count w' = fiber_count w /\
                  (tls_ok w -> tls_ok w')
  | Crash _ => False
  end.
Proof.
  intros [Hi1 Hi2 Hi3] Hp Hsz. pose proof (requested_range sz Hsz) as Hreq.
  assert (Hi : inv w) by done.
  set (o0 := FiberObj (cur_fiber_id w) 0 READY false false true clear (Some cb) None false ris
             false false 0 SIZE_MAX).
  set (w2 := set_fibers (<[p := o0]> (fibers w)) (set_next_id (u64 (cur_fiber_id w + 1)) w)).
  pose proof (constructor_body_spec p sz o0 w w2 Hi Hp eq_refl ltac:(by split_and!) eq_refl eq_refl Hsz)
    as HB.
  change (Fiber_new A p cb sz ris w) with
    ((try_catch (constructor_body p sz)
      (fun e => o ← load p; ReleaseStack A o;;
         modify (fun w => set_fibers (delete p (fibers w)) w);; throw e);;
      modify (fun w => set_count (u64 (fiber_count w + 1)) w);; mret p) w2).
  destruct (constructor_body p sz w2) as [[] w3|e w3|] eqn:E; [| |done].
  - unfold mbind at 1, M_bind at 1. rewrite (try_catch_ret _ _ _ _ _ E).
    destruct HB as (b & Hf3 & Hr3 & Hb & Hu & Hok). split; [done|].
    destruct Hr3 as (R1 & R2 & R3 & R4). split.
    + split; simpl; rewrite ?Hf3.
      * apply map_Forall_insert_2; [|done]. by split_and!.
      * eapply law_perm; [|exact Hok]. symmetry. by apply owned_insert.
      * rewrite R4, Hi3, map_size_insert_None by done. rewrite u64_add_l. f_equal. lia.
    + eexists. split; [exact Hf3|]. by split_and!.
    + unfold tls_ok. simpl. by rewrite R1, R2, R3.
  - destruct HB as (o & Hf3 & Hr3 & Hok).
    destruct (constructor_handler p o w w3 e Hi Hp Hf3 Hr3 Hok) as (w' & Hh & Hi' & Hf' & Hr').
    unfold mbind at 1, M_bind at 1. rewrite (try_catch_throw _ _ _ _ _ E), Hh.
    split_and!; try done; [apply Hr'|by apply same_rest_tls].
Qed.

(** ** Destruction and reset *)

Lemma Fiber_delete_eq f o w :
  inv w -> fibers w !! f = Some o -> isMainFiber_ o = false -> state_ o = TERM ->
  exists w', Fiber_delete A f w = Ret tt w' /\ inv w' /\ fibers w' = delete f (fibers w) /\
    (tls_ok w -> tls_ok w').
Proof.
  intros [Hi1 Hi2 Hi3] Hf Hm Hs. pose proof (Hi1 f o Hf) as Ho. simpl in Ho. unfold fib_ok in Ho.
  rewrite Hm in Ho. destruct Ho as (Hb & Ha & _).
  pose proof (owned_delete _ _ _ Hf) as Hown. rewrite Hm in Hown.
  set (w1 := set_count (u64 (fiber_count w - 1)) w).
  destruct (release_owned o w1 (owned (delete f (fibers w))) Hb Ha) as (s & Hrel & Hok).
  { eapply law_perm; [exact Hown|done]. }
  eexists. split.
  { unfold Fiber_delete. eapply bind_load; [done|]. apply bind_modify. rewrite Hm.
    eapply bind_assoc, bind_panic; [simpl; by apply bool_decide_eq_true|].
    eapply bind_assoc, bind_ret; [exact Hrel|]. eapply bind_ret; [reflexivity|]. reflexivity. }
  split; [|split; [done|by intros H]]. split; simpl.
  - by apply map_Forall_delete.
  - done.
  - rewrite Hi3, map_size_delete_Some by eauto. rewrite u64_sub_l. f_equal.
    assert (size (fibers w) <> 0%nat) by (apply (map_size_ne_0_lookup_2 _ f); eauto). lia.
Qed.

Lemma reset_eq f cb o w :
  inv w -> fibers w !! f = Some o -> isMainFiber_ o = false -> state_ o = TERM ->
  match reset A f cb w with
  | Ret _ w' => inv w' /\ (tls_ok w -> tls_ok w') /\
      fibers w' = <[f := set_state READY (set_cb (Some cb) (set_context true o))]> (fibers w)
  | Throw _ w' => inv w' /\ (tls_ok w -> tls_ok w') /\ fibers w' = fibers w
  | Crash _ => False
  end.
Proof.
  intros Hi Hf Hm Hs. pose proof Hi as [Hi1 Hi2 Hi3]. pose proof (Hi1 f o Hf) as Ho. simpl in Ho.
  unfold fib_ok in Ho. rewrite Hm, Hs in Ho. destruct Ho as (Hb & Ha & Hsz & He & Hc & Hcc & Hr & Hcb).
  pose proof (law_context (stackBlock_ o) (allocator w) _ Hi2) as HL.
  set (k := fun c : bool => update f (set_cb (Some cb));; update f (set_exception None);;
     update f (set_context c);; update f (set_state READY) : M (world S) unit).
  assert (E : reset A f cb w = (CreateContext A o ≫= k) w).
  { unfold reset. eapply bind_load; [done|]. eapply bind_panic; [by rewrite Hm|].
    eapply bind_panic; [by rewrite Hs|]. eapply bind_panic; [by rewrite Hc|]. done. }
  rewrite E. unfold CreateContext, context_allocate.
  unfold mbind at 1 2, M_bind at 1 2. rewrite with_allocator_eq.
  destruct (sa_beforeContextCreate A (stackBlock_ o) (allocator w)) as [[] s|e s|]; [| |done].
  - rewrite Hb. set (w1 := set_allocator s w).
    assert (Hk : k true w1 = Ret tt (set_fibers (<[f := set_state READY (set_cb (Some cb) (set_context true o))]>
      (fibers w)) w1)).
    { unfold k. repeat fstep. unfold set_fibers. simpl. rewrite !insert_insert_eq. do 3 f_equal.
      clear -He. destruct o. simpl in *. by subst. }
    change (match k true w1 with Ret _ w' => inv w' /\ (tls_ok w -> tls_ok w') /\
      fibers w' = <[f := set_state READY (set_cb (Some cb) (set_context true o))]> (fibers w)
      | Throw _ w' => inv w' /\ (tls_ok w -> tls_ok w') /\ fibers w' = fibers w | Crash _ => False end).
    rewrite Hk. split; [|done].
    eapply (inv_update w1); try done. unfold fib_ok. simpl. by rewrite Hm.
  - split; [|done]. by split.
Qed.

(** ** The life cycle as a state machine *)

Inductive fiber_op : Type :=
| NewFiber (p cb stacksize : Z) (run_inscheduler : bool)
| ResumeFiber (f : Z)
| ResetFiber (f cb : Z)
| DeleteFiber (f : Z).

Definition fiber_exec (op : fiber_op) : M (world S) unit :=
  match op with
  | NewFiber p cb stacksize ris => Fiber_new A p cb stacksize ris;; mret tt
  | ResumeFiber f => resume code f
  | ResetFiber f cb => reset A f cb
  | DeleteFiber f => Fiber_delete A f
  end.

Definition child_in (st : State) (f : Z) (w : world S) : Prop :=
  exists o, fibers w !! f = Some o /\ isMainFiber_ o = false /\ state_ o = st.

(** When the operations may be used: fresh storage, a suspended fiber, a
    finished fiber. *)
Definition fiber_enabled (op : fiber_op) (w : world S) : Prop :=
  match op with
  | NewFiber p _ stacksize _ => fibers w !! p = None /\ 0 <= stacksize < 2 ^ 64
  | ResumeFiber f => child_in READY f w
  | ResetFiber f _ | DeleteFiber f => child_in TERM f w
  end.

Definition fiber_step (w w' : world S) : Prop :=
  exists op, fiber_enabled op w /\
    (fiber_exec op w = Ret tt w' \/ exists e, fiber_exec op w = Throw e w').

Lemma fiber_exec_ok op w :
  inv w -> tls_ok w -> fiber_enabled op w ->
  match fiber_exec op w with
  | Ret _ w' | Throw _ w' => inv w' /\ tls_ok w'
  | Crash _ => False
  end.
Proof.
  intros Hi Ht. destruct op as [p cb sz ris|f|f cb|f]; simpl.
  - intros [Hp Hsz]. pose proof (Fiber_new_spec p cb sz ris w Hi Hp Hsz) as H.
    unfold mbind, M_bind. destruct (Fiber_new A p cb sz ris w); [| |done].
    + destruct H as [_ []]. split; [done|]. auto.
    + destruct H as (? & _ & _ & ?). auto.
  - intros (o & Hf & Hm & Hs). destruct (resume_eq f o w Hi Ht Hf Hs) as (r & w2 & _ & H1 & H2 & ->).
    by destruct r.
  - intros (o & Hf & Hm & Hs). pose proof (reset_eq f cb o w Hi Hf Hm Hs) as H.
    destruct (reset A f cb w); [| |done]; destruct H as (? & ? & _); auto.
  - intros (o & Hf & Hm & Hs). destruct (Fiber_delete_eq f o w Hi Hf Hm Hs) as (w' & -> & ? & _ & ?).
    auto.
Qed.

(** Construction is all or nothing.  Whatever the allocator and the client
    code are, creating a fiber either gives a READY fiber that owns a stack of
    at least the requested size (128 KiB for 0), or throws with every living
    fiber, the fiber count and the ownership of stacks as before: a stack
    acquired on the way has been given back.  It never stops the process. *)
Theorem fiber_construction_all_or_nothing p cb sz ris w :
  inv w -> fibers w !! p = None -> 0 <= sz < 2 ^ 64 ->
  match Fiber_new A p cb sz ris w with
  | Ret q w' => q = p /\ inv w' /\ exists o, fibers w' = <[p := o]> (fibers w) /\
      state_ o = READY /\ cb_ o = Some cb /\ requested sz <= usableSize (stackBlock_ o) /\
      ok (stackBlock_ o :: owned (fibers w)) (allocator w')
  | Throw e w' => fibers w' = fibers w /\ fiber_count w' = fiber_count w /\
      ok (owned (fibers w)) (allocator w')
  | Crash _ => False
  end.
Proof.
  intros Hi Hp Hsz. pose proof (Fiber_new_spec p cb sz ris w Hi Hp Hsz) as H.
  destruct (Fiber_new A p cb sz ris w) as [q w'|e w'|]; [| |done].
  - destruct H as (-> & [Hi' (o & Hf & Hs & Hcb & Hu & _) _]). split; [done|]. split; [done|].
    exists o. split; [done|]. split; [done|]. split; [done|].
    pose proof (inv_fibers _ Hi' p o) as Ho. rewrite Hf, lookup_insert_eq in Ho.
    specialize (Ho eq_refl). simpl in Ho. pose proof (ready_not_main o Ho Hs) as Hm.
    unfold fib_ok in Ho. rewrite Hm in Ho. destruct Ho as (_ & _ & Hsize & _).
    split; [lia|]. pose proof (inv_stacks _ Hi') as Hok. rewrite Hf in Hok.
    eapply law_perm; [|exact Hok]. rewrite owned_insert by done. by rewrite Hm.
  - destruct H as (Hi' & Hf & Hc & _). split; [done|]. split; [done|].
    rewrite <- Hf. apply Hi'.
Qed.

(** C17. A resumption runs the fiber exactly once, up to its next switch.  For a
    READY fiber [resume] gives control to its code with the fiber RUNNING, its
    context handle moved out and the re-entry latch set; when the code yields,
    the fiber is back exactly as it was before; when it returns or throws, the
    fiber is TERM without context and callback; an exception reaches the
    resumer; the caller is the current fiber again, and the latch is open. *)
Theorem resume_runs_to_next_switch f o w :
  inv w -> tls_ok w -> fibers w !! f = Some o -> state_ o = READY ->
  exists r w2, code f (entered f o w) = Ret r w2 /\
    resume code f w =
      match r with
      | Yields => Ret tt (set_current (cur_fiber w) (set_fibers (<[f := o]> (fibers w2)) w2))
      | Returns => Ret tt (set_current (cur_fiber w)
          (set_fibers (<[f := set_state TERM (set_cb None (set_context false o))]> (fibers w2)) w2))
      | Throws e => Throw e (set_current (cur_fiber w)
          (set_fibers (<[f := set_state TERM (set_cb None (set_context false o))]> (fibers w2)) w2))
      end.
Proof.
  intros Hi Ht Hf Hs. destruct (resume_eq f o w Hi Ht Hf Hs) as (r & w2 & Hc & _ & _ & E).
  exists r, w2. split; [done|]. rewrite E. by destruct r.
Qed.

(** Two living child fibers have disjoint stacks. *)
Lemma inv_disjoint w f g o1 o2 :
  inv w -> f <> g -> fibers w !! f = Some o1 -> fibers w !! g = Some o2 ->
  isMainFiber_ o1 = false -> isMainFiber_ o2 = false ->
  disjoint_range (stack_range (stackBlock_ o1)) (stack_range (stackBlock_ o2)) = true.
Proof.
  intros Hi Hne H1 H2 M1 M2. pose proof (law_disjoint _ _ (inv_stacks _ Hi)) as Hd.
  assert (owned (fibers w) ≡ₚ stackBlock_ o1 :: stackBlock_ o2 :: owned (delete g (delete f (fibers w)))) as Hp.
  { rewrite (owned_delete _ _ _ H1), M1. constructor. rewrite (owned_delete _ g o2), M2; [done|]. by rewrite lookup_delete_ne. }
  apply (disjoint_all_Permutation _ (stack_range <$> (stackBlock_ o1 :: stackBlock_ o2 :: owned (delete g (delete f (fibers w))))))
    in Hd; [|by rewrite Hp].
  destruct Hd as [Hd _]. by apply Forall_cons in Hd as [Hd _].
Qed.

(** C5. The life cycle is safe.  From a state in which the invariant holds, any
    sequence of the operations that the class permits (construction at fresh
    storage, resumption of a suspended fiber, reset and destruction of a finished
    one), with client code that respects the encapsulation of [Fiber], exceptions
    included, never stops the process, keeps every fiber in a legal state, gives
    different living fibers disjoint stacks, and leaves no stack behind: once
    every child fiber is destroyed the allocator has them all.  (Other uses are
    detected, see [fiber_misuse_detected].) *)
Theorem fiber_lifecycle_safe w0 w :
  inv w0 -> tls_ok w0 -> rtc fiber_step w0 w ->
  map_Forall (fun _ o => fib_ok o) (fibers w) /\
  fiber_count w = u64 (Z.of_nat (size (fibers w))) /\
  (forall f g o1 o2, f <> g -> fibers w !! f = Some o1 -> fibers w !! g = Some o2 ->
     isMainFiber_ o1 = false -> isMainFiber_ o2 = false ->
     disjoint_range (stack_range (stackBlock_ o1)) (stack_range (stackBlock_ o2)) = true) /\
  (forall op, fiber_enabled op w -> forall c, fiber_exec op w <> Crash c) /\
  (map_Forall (fun _ o => isMainFiber_ o = true) (fibers w) -> ok [] (allocator w)).
Proof.
  intros Hi Ht Hr. assert (H : inv w /\ tls_ok w).
  { eapply (rtc_invariant fiber_step (fun w => inv w /\ tls_ok w)); [|exact Hr|done].
    intros x y (op & Hen & E) [Hx Htx]. pose proof (fiber_exec_ok op x Hx Htx Hen) as H.
    destruct E as [E|[e E]]; by rewrite E in H. }
  destruct H as [Hi' Ht']. split_and!; try apply Hi'.
  - intros f g o1 o2. by apply inv_disjoint.
  - intros op Hen c E. pose proof (fiber_exec_ok op w Hi' Ht' Hen) as H. by rewrite E in H.
  - intros Hall. replace [] with (owned (fibers w)); [apply Hi'|].
    unfold owned. rewrite map_Forall_to_list in Hall.
    induction (map_to_list (fibers w)) as [|[q o] l IH]; [done|].
    apply Forall_cons in Hall as [Ho Hl]. simpl in *. rewrite Ho. by apply IH.
Qed.

(** Misuse does not corrupt a fiber.  A second resumption of a fiber that is
    being resumed throws [std::logic_error] and changes nothing; resuming or
    resetting a fiber in a wrong state and destroying one that has not finished
    stop the process with the failed condition. *)
Theorem fiber_misuse_detected f o w :
  fibers w !! f = Some o ->
  (resumeInProgress_ o = true ->
     resume code f w = Throw (logic_error "fiber is already being resumed") w) /\
  (resumeInProgress_ o = false -> state_ o <> READY ->
     resume code f w = Crash (Panic "state error")) /\
  (isMainFiber_ o = false -> state_ o <> TERM ->
     (forall cb, reset A f cb w = Crash (Panic "state isn't TERM")) /\
     Fiber_delete A f w = Crash (Panic "fiber state should be term")).
Proof.
  intros Hf. split_and!.
  - intros Hr. unfold resume. eapply bind_load; [done|]. by rewrite Hr.
  - intros Hr Hs. unfold resume. eapply bind_load; [done|]. rewrite Hr.
    eapply bind_update; [done|]. unfold resume_guarded, try_catch, mbind, M_bind.
    rewrite (load_eq _ f (set_resuming true o)) by apply lookup_insert_eq. simpl.
    by destruct (state_ o).
  - intros Hm Hs. split.
    + intros cb. unfold reset. eapply bind_load; [done|]. eapply bind_panic; [by rewrite Hm|].
      unfold mbind, M_bind, CondPanic. rewrite bool_decide_eq_false_2 by done. done.
    + unfold Fiber_delete. eapply bind_load; [done|]. apply bind_modify. rewrite Hm. simpl.
      unfold mbind, M_bind, CondPanic. rewrite bool_decide_eq_false_2 by done. done.
Qed.

End proofs.

(** ** Witnesses: a thread with its main fiber and the pass-through allocator *)

Definition direct0 : Direct.impl := Direct.init (Heap [] [65536; 0; 262144; 0]).

Definition world0 : world Direct.impl :=
  World {[1 := FiberObj 0 0 RUNNING false false false clear None None false false true false 0 SIZE_MAX]}
    (Some 1) (Some 1) (Some 1) 1 1 direct0.

Definition finish_code : Z -> M (world Direct.impl) segment := fun _ => mret Returns.
Definition throw_code : Z -> M (world Direct.impl) segment := fun _ => mret (Throws (user_exception 5)).

#[local] Instance direct0_laws : AllocatorLaws (DirectStackAllocator P0) (direct_ok P0) := Direct_laws P0 P0_ok.

#[local] Instance constant_code r : CodeLaws (direct_ok P0) (fun _ => mret r).
Proof. intros f w o. simpl. by intros. Qed.

Lemma world0_inv : inv (direct_ok P0) world0.
Proof.
  split; simpl.
  - intros k o [_ <-]%lookup_singleton_Some. by split_and!.
  - split; [split; [done|split; constructor|constructor]|]. done.
  - done.
Qed.

Lemma world0_tls : tls_ok world0.
Proof. by split_and!. Qed.

Definition world1 : world Direct.impl :=
  match Fiber_new (DirectStackAllocator P0) 2 77 0 true world0 with Ret _ w => w | _ => world0 end.
Definition fiber1 : fiber := default (FiberObj 0 0 TERM false false false clear None None false false true false 0 0)
  (fibers world1 !! 2).

Lemma fiber_construction_all_or_nothing_witness :
  fibers world0 !! 2 = None /\
  exists w', Fiber_new (DirectStackAllocator P0) 2 77 0 true world0 = Ret 2 w' /\ inv (direct_ok P0) w'.
Proof.
  split; [done|].
  pose proof (fiber_construction_all_or_nothing (DirectStackAllocator P0) (direct_ok P0) 2 77 0 true
    world0 world0_inv eq_refl ltac:(lia)) as H.
  destruct (Fiber_new (DirectStackAllocator P0) 2 77 0 true world0) as [q w'|e w'|] eqn:E; [| |done].
  - exists w'. destruct H as (-> & H & _). done.
  - exfalso. vm_compute in E. discriminate.
Defined.

Lemma world1_inv : inv (direct_ok P0) world1 /\ tls_ok world1.
Proof.
  pose proof (Fiber_new_spec (DirectStackAllocator P0) (direct_ok P0) 2 77 0 true
    world0 world0_inv eq_refl ltac:(lia)) as H.
  unfold world1. destruct (Fiber_new (DirectStackAllocator P0) 2 77 0 true world0) as [q w'|e w'|].
  - destruct H as (_ & [? _ ?]). split; [done|]. auto using world0_tls.
  - split; [apply world0_inv|apply world0_tls].
  - done.
Qed.

Lemma resume_runs_to_next_switch_witness :
  state_ fiber1 = READY /\
  exists w', resume throw_code 2 world1 = Throw (user_exception 5) w'.
Proof.
  split; [vm_compute; reflexivity|].
  destruct (resume_runs_to_next_switch (DirectStackAllocator P0) (direct_ok P0) throw_code 2 fiber1 world1) as (r & w2 & Hc & E).
  - apply world1_inv.
  - apply world1_inv.
  - vm_compute. reflexivity.
  - vm_compute. reflexivity.
  - unfold throw_code in Hc. run_in Hc. simplify_eq. rewrite E. eauto.
Defined.

Lemma fiber_lifecycle_safe_witness :
  rtc (fiber_step (DirectStackAllocator P0) finish_code) world0 world1 /\
  fiber_count world1 = u64 (Z.of_nat (size (fibers world1))).
Proof.
  assert (Hr : rtc (fiber_step (DirectStackAllocator P0) finish_code) world0 world1).
  { apply rtc_once. exists (NewFiber 2 77 0 true). split; [by split_and!|]. left.
    vm_compute. reflexivity. }
  split; [done|].
  exact (proj1 (proj2 (fiber_lifecycle_safe (DirectStackAllocator P0) (direct_ok P0) finish_code
    world0 world1 world0_inv world0_tls Hr))).
Defined.

Lemma fiber_misuse_detected_witness :
  fibers world1 !! 2 = Some fiber1 /\
  Fiber_delete (DirectStackAllocator P0) 2 world1 = Crash (Panic "fiber state should be term").
Proof.
  assert (Hf : fibers world1 !! 2 = Some fiber1) by (vm_compute; reflexivity). split; [done|].
  apply (fiber_misuse_detected (DirectStackAllocator P0) finish_code 2 fiber1 world1 Hf).
  - vm_compute. reflexivity.
  - vm_compute. discriminate.
Defined.
