(* ===== verification/Scheduler.v ===== *)
(** * The scheduler (src/scheduler.cpp, include/pulsar/scheduler.hpp)

    Task queues of the workers, submission, taking and stealing, start-up and
    shutdown.  The fibers themselves and the worker loop are in [Worker]. *)

From S2P Require Import Prelude.

(** A task is a fiber or a callback, for the thread [thread_] or, with -1, for
    any worker. *)
Record SchedulerTask := Task {
  fiber_ : option Z;
  cb_ : option Z;
  thread_ : Z }.

#[export] Instance task_eq_dec : EqDecision SchedulerTask.
Proof. solve_decision. Defined.

Definition task_reset : SchedulerTask := Task None None (-1).

Record WorkerQueue := Worker {
  unpinnedTasks : list SchedulerTask;
  pinnedTasks : list SchedulerTask;
  callbackFiberCache : list Z;
  threadId : Z;
  active : bool }.

Definition new_worker : WorkerQueue := Worker [] [] [] (-1) false.
Definition set_unpinned (x : list SchedulerTask) (q : WorkerQueue) : WorkerQueue :=
  Worker x (pinnedTasks q) (callbackFiberCache q) (threadId q) (active q).
Definition set_pinned (x : list SchedulerTask) (q : WorkerQueue) : WorkerQueue :=
  Worker (unpinnedTasks q) x (callbackFiberCache q) (threadId q) (active q).
Definition set_cache (x : list Z) (q : WorkerQueue) : WorkerQueue :=
  Worker (unpinnedTasks q) (pinnedTasks q) x (threadId q) (active q).
Definition set_threadId (x : Z) (q : WorkerQueue) : WorkerQueue :=
  Worker (unpinnedTasks q) (pinnedTasks q) (callbackFiberCache q) x (active q).
Definition set_active (x : bool) (q : WorkerQueue) : WorkerQueue :=
  Worker (unpinnedTasks q) (pinnedTasks q) (callbackFiberCache q) (threadId q) x.

(** The counters of the callback-fiber cache. *)
Record cache_stats := CacheStats {
  callbackCacheHits_ : Z;
  callbackCacheMisses_ : Z;
  callbackCacheEvictions_ : Z;
  callbackCachedCount_ : Z;
  callbackCachedBytes_ : Z }.

(** [class Scheduler].  [victim_seeds] is the [static thread_local] variable of
    [trySteal], by thread; [tickles] counts the calls of the virtual
    [tickle()]; [threadPool_] lists the worker indices given to threads. *)
Record Scheduler := Sched {
  workerQueues_ : list WorkerQueue;
  nextQueue_ : Z;
  callbackFiberCachePerWorker : Z;
  schedulerOwnerId_ : Z;
  reuse : cache_stats;
  threadCnt_ : Z;
  idleThreadCnt_ : Z;
  isUseCaller_ : bool;
  rootThread_ : Z;
  isStopped_ : bool;
  threadPool_ : list Z;
  victim_seeds : gmap Z Z;
  tickles : nat }.

Definition set_queues (x : list WorkerQueue) (s : Scheduler) : Scheduler :=
  Sched x (nextQueue_ s) (callbackFiberCachePerWorker s) (schedulerOwnerId_ s) (reuse s)
    (threadCnt_ s) (idleThreadCnt_ s) (isUseCaller_ s) (rootThread_ s) (isStopped_ s)
    (threadPool_ s) (victim_seeds s) (tickles s).
Definition set_nextQueue (x : Z) (s : Scheduler) : Scheduler :=
  Sched (workerQueues_ s) x (callbackFiberCachePerWorker s) (schedulerOwnerId_ s) (reuse s)
    (threadCnt_ s) (idleThreadCnt_ s) (isUseCaller_ s) (rootThread_ s) (isStopped_ s)
    (threadPool_ s) (victim_seeds s) (tickles s).
Definition set_reuse (x : cache_stats) (s : Scheduler) : Scheduler :=
  Sched (workerQueues_ s) (nextQueue_ s) (callbackFiberCachePerWorker s) (schedulerOwnerId_ s) x
    (threadCnt_ s) (idleThreadCnt_ s) (isUseCaller_ s) (rootThread_ s) (isStopped_ s)
    (threadPool_ s) (victim_seeds s) (tickles s).
Definition set_idleCnt (x : Z) (s : Scheduler) : Scheduler :=
  Sched (workerQueues_ s) (nextQueue_ s) (callbackFiberCachePerWorker s) (schedulerOwnerId_ s)
    (reuse s) (threadCnt_ s) x (isUseCaller_ s) (rootThread_ s) (isStopped_ s)
    (threadPool_ s) (victim_seeds s) (tickles s).
Definition set_stopped (x : bool) (s : Scheduler) : Scheduler :=
  Sched (workerQueues_ s) (nextQueue_ s) (callbackFiberCachePerWorker s) (schedulerOwnerId_ s)
    (reuse s) (threadCnt_ s) (idleThreadCnt_ s) (isUseCaller_ s) (rootThread_ s) x
    (threadPool_ s) (victim_seeds s) (tickles s).
Definition set_pool (x : list Z) (s : Scheduler) : Scheduler :=
  Sched (workerQueues_ s) (nextQueue_ s) (callbackFiberCachePerWorker s) (schedulerOwnerId_ s)
    (reuse s) (threadCnt_ s) (idleThreadCnt_ s) (isUseCaller_ s) (rootThread_ s) (isStopped_ s)
    x (victim_seeds s) (tickles s).
Definition set_seed (t x : Z) (s : Scheduler) : Scheduler :=
  Sched (workerQueues_ s) (nextQueue_ s) (callbackFiberCachePerWorker s) (schedulerOwnerId_ s)
    (reuse s) (threadCnt_ s) (idleThreadCnt_ s) (isUseCaller_ s) (rootThread_ s) (isStopped_ s)
    (threadPool_ s) (<[t := x]> (victim_seeds s)) (tickles s).

(** The base-class [tickle] only logs. *)
Definition tickle : M Scheduler unit :=
  modify (fun s => Sched (workerQueues_ s) (nextQueue_ s) (callbackFiberCachePerWorker s)
    (schedulerOwnerId_ s) (reuse s) (threadCnt_ s) (idleThreadCnt_ s) (isUseCaller_ s)
    (rootThread_ s) (isStopped_ s) (threadPool_ s) (victim_seeds s) (S (tickles s))).

(** The thread that runs the code: its id and its two thread-local variables
    ([cur_scheduler == this], [cur_worker_index]). *)
Record thread := Thread {
  tid : Z;
  in_this : bool;
  cur_worker_index : Z }.

Definition kInvalidWorker : Z := SIZE_MAX.

Definition queue_at (i : Z) : M Scheduler WorkerQueue := fun s =>
  match workerQueues_ s !! Z.to_nat i with
  | Some q => if i <? 0 then Crash (Undefined "worker queue out of range") else Ret q s
  | None => Crash (Undefined "worker queue out of range")
  end.

Definition put_queue (i : Z) (q : WorkerQueue) : M Scheduler unit :=
  modify (fun s => set_queues (<[Z.to_nat i := q]> (workerQueues_ s)) s).

Definition worker_count (s : Scheduler) : Z := Z.of_nat (length (workerQueues_ s)).

(** The constructor with the options resolved; [me] is the calling thread and
    [owner] the fresh scheduler id. *)
Definition Scheduler_new (threads : Z) (use_caller : bool) (per_worker owner : Z) (me : thread) :
    option Scheduler :=
  if negb (threads >? 0) then None
  else
    let queues := replicate (Z.to_nat threads) new_worker in
    let st := CacheStats 0 0 0 0 0 in
    if use_caller then
      if in_this me then None
      else
        let queues := alter (set_threadId (tid me)) 0%nat queues in
        Some (Sched queues 0 per_worker owner st (u64 (threads - 1)) 0 true (tid me) false [] ∅ 0)
    else Some (Sched queues 0 per_worker owner st threads 0 false (-1) false [] ∅ 0).

(** [Scheduler::setCurrentWorkerActive] *)
Definition setCurrentWorkerActive (me : thread) (act : bool) : M Scheduler unit :=
  s ← get;
  CondPanic (in_this me && (cur_worker_index me <? worker_count s))
    "current thread is not a scheduler worker";;
  q ← queue_at (cur_worker_index me);
  put_queue (cur_worker_index me) (set_active act q).

(** [Scheduler::start]: thread [i] of the pool runs worker [i] (+1). *)
Definition start : M Scheduler unit :=
  s ← get;
  if isStopped_ s then mret tt
  else
    CondPanic (bool_decide (threadPool_ s = [])) "thread pool is not empty";;
    modify (set_pool ((fun i => Z.of_nat i + (if isUseCaller_ s then 1 else 0))
                        <$> seq 0 (Z.to_nat (threadCnt_ s)))).

(** [Scheduler::findWorkerByThread] *)
Fixpoint find_thread (t : Z) (i : Z) (l : list WorkerQueue) : Z :=
  match l with
  | [] => kInvalidWorker
  | q :: l' => if threadId q =? t then i else find_thread t (i + 1) l'
  end.

Definition findWorkerByThread (t : Z) (s : Scheduler) : Z :=
  if t =? -1 then kInvalidWorker else find_thread t 0 (workerQueues_ s).

(** [Scheduler::enqueueTask], by the thread [me]. *)
Definition enqueueTask (me : thread) (task : SchedulerTask) : M Scheduler bool :=
  match fiber_ task, cb_ task with
  | None, None => mret false
  | _, _ =>
      s ← get;
      let workerIndex0 :=
        if negb (thread_ task =? -1) then findWorkerByThread (thread_ task) s
        else if in_this me && (cur_worker_index me <? worker_count s) then cur_worker_index me
        else kInvalidWorker in
      workerIndex ← (if workerIndex0 =? kInvalidWorker then
                       modify (set_nextQueue (u64 (nextQueue_ s + 1)));;
                       mret (nextQueue_ s mod worker_count s)
                     else mret workerIndex0);
      queue ← queue_at workerIndex;
      let wasEmpty := bool_decide (unpinnedTasks queue = []) && bool_decide (pinnedTasks queue = []) in
      put_queue workerIndex
        (if negb (thread_ task =? -1)
         then set_pinned (pinnedTasks queue ++ [task]) queue
         else set_unpinned (unpinnedTasks queue ++ [task]) queue);;
      mret wasEmpty
  end.

(** [Scheduler::scheduler] *)
Definition schedule (me : thread) (task : SchedulerTask) : M Scheduler unit :=
  b ← enqueueTask me task;
  if b : bool then tickle else mret tt.

(** The scan of a deque for the first task that satisfies [p]. *)
Fixpoint extract (p : SchedulerTask -> bool) (l : list SchedulerTask) :
    option (SchedulerTask * list SchedulerTask) :=
  match l with
  | [] => None
  | t :: l' =>
      if p t then Some (t, l')
      else match extract p l' with
           | Some (u, l'') => Some (u, t :: l'')
           | None => None
           end
  end.

(** [Scheduler::tryTakeLocal] *)
Definition tryTakeLocal (workerIndex tId : Z) : M Scheduler (option SchedulerTask) :=
  queue ← queue_at workerIndex;
  match extract (fun t => (thread_ t =? -1) || (thread_ t =? tId)) (pinnedTasks queue) with
  | Some (t, rest) => put_queue workerIndex (set_pinned rest queue);; mret (Some t)
  | None =>
      match unpinnedTasks queue with
      | t :: rest => put_queue workerIndex (set_unpinned rest queue);; mret (Some t)
      | [] => mret None
      end
  end.

(** One victim of [trySteal], under its lock: the newest unpinned task, or the
    oldest task pinned to the thief. *)
Definition steal_from (victimIndex tId : Z) : M Scheduler (option SchedulerTask) :=
  victim ← queue_at victimIndex;
  match unsnoc (unpinnedTasks victim) with
  | Some (rest, t) => put_queue victimIndex (set_unpinned rest victim);; mret (Some t)
  | None =>
      match extract (fun t => thread_ t =? tId) (pinnedTasks victim) with
      | Some (t, rest) => put_queue victimIndex (set_pinned rest victim);; mret (Some t)
      | None => mret None
      end
  end.

Definition first_seed (workerIndex : Z) : Z := u32 (u64 (u64 (workerIndex * 2654435761) + 1)).
Definition next_seed (seed : Z) : Z := u32 (u32 (seed * 1664525) + 1013904223).

Definition startOffset (seed workerCount : Z) : Z := seed mod (workerCount - 1) + 1.
Definition victim (workerIndex workerCount start i : Z) : Z :=
  let offset := u64 (u64 (start + i) - 1) mod (workerCount - 1) + 1 in
  u64 (workerIndex + offset) mod workerCount.

Fixpoint steal_loop (workerIndex tId workerCount start : Z) (todo : list nat) :
    M Scheduler (option SchedulerTask) :=
  match todo with
  | [] => mret None
  | i :: todo' =>
      r ← steal_from (victim workerIndex workerCount start (Z.of_nat i)) tId;
      match r with
      | Some t => mret (Some t)
      | None => steal_loop workerIndex tId workerCount start todo'
      end
  end.

(** [Scheduler::trySteal], on the thread [me]. *)
Definition trySteal (me : thread) (workerIndex tId : Z) : M Scheduler (option SchedulerTask) :=
  s ← get;
  let workerCount := worker_count s in
  if workerCount <=? 1 then mret None
  else
    let seed := next_seed (default (first_seed workerIndex) (victim_seeds s !! tid me)) in
    modify (set_seed (tid me) seed);;
    steal_loop workerIndex tId workerCount (startOffset seed workerCount)
      (seq 0 (Z.to_nat (workerCount - 1))).

(** [Scheduler::tryTakeTask] *)
Definition tryTakeTask (me : thread) (workerIndex : Z) : M Scheduler (option SchedulerTask) :=
  q ← queue_at workerIndex;
  r ← tryTakeLocal workerIndex (threadId q);
  match r with
  | Some t => mret (Some t)
  | None => trySteal me workerIndex (threadId q)
  end.

(** [Scheduler::hasPendingTasks] *)
Definition hasPendingTasks (s : Scheduler) : bool :=
  existsb (fun q => negb (bool_decide (unpinnedTasks q = [])) || negb (bool_decide (pinnedTasks q = [])))
    (workerQueues_ s).

(** [Scheduler::stopping] *)
Definition stopping (s : Scheduler) : bool :=
  isStopped_ s && negb (hasPendingTasks s) && negb (existsb active (workerQueues_ s)).

(** [Scheduler::stop] up to the wait for the workers: the order to stop and the
    wake-ups.  [true] when the caller goes on to run or join the workers. *)
Definition stop_request (me : thread) : M Scheduler bool :=
  s ← get;
  if stopping s then mret false
  else
    modify (set_stopped true);;
    (if isUseCaller_ s then CondPanic (in_this me) "cur thread is not caller thread"
     else CondPanic (negb (in_this me)) "cur thread is caller thread");;
    foldr (fun _ m => tickle;; m) (mret tt) (seq 0 (Z.to_nat (threadCnt_ s)));;
    (if isUseCaller_ s then tickle else mret tt);;
    mret true.

(** The destructor's condition. *)
Definition Scheduler_delete : M Scheduler unit :=
  s ← get; CondPanic (isStopped_ s) "isstopped is false".
