(* ===== verification/SchedulerProofs.v ===== *)
(** * Correctness of the scheduler's queues

    No task is lost or duplicated, a pinned task only reaches its thread, a
    worker that finds nothing has looked everywhere, and every lock region
    keeps this whatever the interleaving. *)

From S2P Require Import Prelude Scheduler.

(** ** Tasks in the queues *)

Definition queue_tasks (q : WorkerQueue) : list SchedulerTask := pinnedTasks q ++ unpinnedTasks q.
Definition all_tasks (s : Scheduler) : list SchedulerTask := workerQueues_ s ≫= queue_tasks.

Record queue_ok (q : WorkerQueue) : Prop := {
  qo_unpinned : Forall (fun t => thread_ t = -1) (unpinnedTasks q);
  qo_pinned : Forall (fun t => thread_ t <> -1) (pinnedTasks q) }.

Record wf (s : Scheduler) : Prop := {
  wf_some : 1 <= worker_count s < 2 ^ 32;
  wf_queues : Forall queue_ok (workerQueues_ s);
  wf_next : 0 <= nextQueue_ s }.

Lemma all_tasks_insert l i q q' :
  l !! i = Some q -> queue_tasks q ++ (<[i := q']> l ≫= queue_tasks)
    ≡ₚ queue_tasks q' ++ (l ≫= queue_tasks).
Proof.
  revert i. induction l as [|x l IH]; intros [|i] H; simplify_eq/=.
  - by rewrite !app_assoc, (Permutation_app_comm (queue_tasks q)).
  - specialize (IH i H). rewrite !app_assoc, (Permutation_app_comm _ (queue_tasks x)),
      <- !app_assoc, IH, !app_assoc, (Permutation_app_comm _ (queue_tasks x)). done.
Qed.

Lemma extract_Some p l t rest :
  extract p l = Some (t, rest) ->
  p t = true /\ l ≡ₚ t :: rest /\
  exists l1 l2, l = l1 ++ t :: l2 /\ rest = l1 ++ l2 /\ Forall (fun u => p u = false) l1.
Proof.
  revert t rest. induction l as [|u l IH]; intros t rest; simpl; [done|].
  destruct (p u) eqn:E.
  - intros [= <- <-]. split; [done|]. split; [done|]. by exists [], l.
  - destruct (extract p l) as [[v l']|]; [|done]. intros [= <- <-].
    destruct (IH v l' eq_refl) as (H1 & H2 & l1 & l2 & H3 & H4 & H5).
    split; [done|]. split; [by rewrite H2, Permutation_swap|].
    exists (u :: l1), l2. rewrite H3, H4. split; [done|]. split; [done|]. by constructor.
Qed.

Lemma extract_None p l : extract p l = None <-> Forall (fun t => p t = false) l.
Proof.
  induction l as [|u l IH]; simpl; [by split|].
  destruct (p u) eqn:E; [split; [done|]; intros H; apply Forall_cons in H as [? _]; congruence|].
  destruct (extract p l) as [[v l']|].
  - split; [done|]. intros H. apply Forall_cons in H as [_ H]. by apply IH in H.
  - rewrite Forall_cons, <- IH. by split.
Qed.

Lemma queue_at_eq i s q :
  workerQueues_ s !! Z.to_nat i = Some q -> 0 <= i -> queue_at i s = Ret q s.
Proof. intros H Hi. unfold queue_at. rewrite H. destruct (i <? 0) eqn:E; [lia|done]. Qed.

Lemma queue_at_in s i :
  0 <= i < worker_count s -> exists q, workerQueues_ s !! Z.to_nat i = Some q /\ queue_at i s = Ret q s.
Proof.
  unfold worker_count. intros Hi.
  destruct (lookup_lt_is_Some_2 (workerQueues_ s) (Z.to_nat i)) as [q Hq]; [lia|].
  exists q. split; [done|]. apply queue_at_eq; [done|lia].
Qed.

(** ** Replacing one queue *)

Definition put (i : Z) (q : WorkerQueue) (s : Scheduler) : Scheduler :=
  set_queues (<[Z.to_nat i := q]> (workerQueues_ s)) s.

Lemma put_wf i q s : wf s -> queue_ok q -> wf (put i q s).
Proof.
  intros [] Hq. split; simpl; try done.
  - unfold worker_count in *. simpl. by rewrite length_insert.
  - by apply Forall_insert.
Qed.

Lemma put_taken i q q' t s :
  workerQueues_ s !! Z.to_nat i = Some q -> queue_tasks q ≡ₚ t :: queue_tasks q' ->
  all_tasks s ≡ₚ t :: all_tasks (put i q' s).
Proof.
  intros Hq Hp. pose proof (all_tasks_insert _ _ _ q' Hq) as H. rewrite Hp in H. simpl in H.
  apply (Permutation_app_inv_l (queue_tasks q')). unfold all_tasks, put. simpl. rewrite <- H.
  apply Permutation_middle.
Qed.

Lemma put_added i q q' t s :
  workerQueues_ s !! Z.to_nat i = Some q -> queue_tasks q' ≡ₚ t :: queue_tasks q ->
  all_tasks (put i q' s) ≡ₚ t :: all_tasks s.
Proof.
  intros Hq Hp. pose proof (all_tasks_insert _ _ _ q' Hq) as H. rewrite Hp in H. simpl in H.
  apply (Permutation_app_inv_l (queue_tasks q)). unfold all_tasks, put. simpl. rewrite H.
  apply Permutation_middle.
Qed.

(** ** What queue operations leave alone *)

Definition view (s : Scheduler) :=
  (callbackFiberCache <$> workerQueues_ s, threadId <$> workerQueues_ s, active <$> workerQueues_ s,
   (callbackFiberCachePerWorker s, schedulerOwnerId_ s, reuse s, isStopped_ s)).

Lemma put_view i q q' s :
  workerQueues_ s !! Z.to_nat i = Some q -> callbackFiberCache q' = callbackFiberCache q ->
  threadId q' = threadId q -> active q' = active q -> view (put i q' s) = view s.
Proof.
  intros Hq E1 E2 E3. unfold view, put. simpl. rewrite !list_fmap_insert, E1, E2, E3.
  by rewrite !list_insert_id by (rewrite list_lookup_fmap, Hq; done).
Qed.

(** ** Taking *)

(** What a taker gets: a task of the queues, gone from them, that is for any
    worker or for the taker's thread. *)
Definition taken (tId : Z) (s : Scheduler) (t : SchedulerTask) (s' : Scheduler) : Prop :=
  all_tasks s ≡ₚ t :: all_tasks s' /\ wf s' /\ (thread_ t = -1 \/ thread_ t = tId) /\
  worker_count s' = worker_count s /\ view s' = view s.

(** Nothing in [q] is for the thread. *)
Definition nothing_for (tId : Z) (q : WorkerQueue) : Prop :=
  unpinnedTasks q = [] /\ Forall (fun t => thread_ t <> tId /\ thread_ t <> -1) (pinnedTasks q).

Lemma queue_ok_extract p q t rest :
  queue_ok q -> extract p (pinnedTasks q) = Some (t, rest) -> queue_ok (set_pinned rest q) /\
  thread_ t <> -1 /\ queue_tasks q ≡ₚ t :: queue_tasks (set_pinned rest q).
Proof.
  intros [H1 H2] E. destruct (extract_Some _ _ _ _ E) as (_ & Hp & l1 & l2 & Hl & -> & _).
  rewrite Hl in H2. apply Forall_app in H2 as [H2 H3]. apply Forall_cons in H3 as [H3 H4].
  split; [split; [done|by apply Forall_app]|]. split; [done|].
  unfold queue_tasks. simpl. by rewrite Hp.
Qed.

Lemma tryTakeLocal_spec i tId s :
  wf s -> 0 <= i < worker_count s ->
  exists r s', tryTakeLocal i tId s = Ret r s' /\
    match r with
    | Some t => taken tId s t s'
    | None => s' = s /\ exists q, workerQueues_ s !! Z.to_nat i = Some q /\ nothing_for tId q
    end.
Proof.
  intros Hwf Hi. destruct (queue_at_in s i Hi) as (q & Hq & Hat).
  pose proof (proj1 (Forall_lookup _ _) (wf_queues _ Hwf) _ _ Hq) as Hok. simpl in Hok.
  unfold tryTakeLocal. unfold mbind, M_bind. rewrite Hat.
  destruct (extract _ (pinnedTasks q)) as [[t rest]|] eqn:E.
  - destruct (queue_ok_extract _ _ _ _ Hok E) as (Hok' & Hne & Hp).
    destruct (extract_Some _ _ _ _ E) as (Ht & _).
    exists (Some t), (put i (set_pinned rest q) s). split; [done|]. split_and!; try done.
    + by eapply put_taken.
    + by apply put_wf.
    + apply orb_true_iff in Ht as [Ht|Ht]; to_prop; auto.
    + unfold worker_count. simpl. by rewrite length_insert.
    + by eapply put_view.
  - apply extract_None in E. destruct (unpinnedTasks q) as [|t rest] eqn:Eu.
    + exists None, s. split; [done|]. split; [done|]. exists q. split; [done|]. split; [done|].
      eapply Forall_impl; [exact E|]. simpl. intros t Ht. to_prop. done.
    + exists (Some t), (put i (set_unpinned rest q) s). split; [done|].
      destruct Hok as [H1 H2]. rewrite Eu in H1. apply Forall_cons in H1 as [H1 H1'].
      split_and!; try done.
      * eapply put_taken; [done|]. unfold queue_tasks. rewrite Eu. simpl.
        symmetry. apply Permutation_middle.
      * by apply put_wf.
      * by left.
      * unfold worker_count. simpl. by rewrite length_insert.
      * by eapply put_view.
Qed.

Lemma steal_from_spec i tId s :
  wf s -> 0 <= i < worker_count s -> tId <> -1 ->
  exists r s', steal_from i tId s = Ret r s' /\
    match r with
    | Some t => taken tId s t s'
    | None => s' = s /\ exists q, workerQueues_ s !! Z.to_nat i = Some q /\ nothing_for tId q
    end.
Proof.
  intros Hwf Hi Ht0. destruct (queue_at_in s i Hi) as (q & Hq & Hat).
  pose proof (proj1 (Forall_lookup _ _) (wf_queues _ Hwf) _ _ Hq) as Hok. simpl in Hok.
  unfold steal_from. unfold mbind, M_bind. rewrite Hat.
  destruct (unsnoc (unpinnedTasks q)) as [[rest t]|] eqn:E.
  - apply unsnoc_Some in E. exists (Some t), (put i (set_unpinned rest q) s). split; [done|].
    destruct Hok as [H1 H2]. rewrite E in H1. apply Forall_app in H1 as [H1 H1'].
    apply Forall_cons in H1' as [H1' _]. split_and!; try done.
    + eapply put_taken; [done|]. unfold queue_tasks. rewrite E. simpl.
      rewrite app_assoc, (Permutation_app_comm _ [t]). done.
    + by apply put_wf.
    + by left.
    + unfold worker_count. simpl. by rewrite length_insert.
    + by eapply put_view.
  - apply unsnoc_None in E.
    destruct (extract _ (pinnedTasks q)) as [[t rest]|] eqn:E2.
    + destruct (queue_ok_extract _ _ _ _ Hok E2) as (Hok' & Hne & Hp).
      destruct (extract_Some _ _ _ _ E2) as (Ht & _). to_prop.
      exists (Some t), (put i (set_pinned rest q) s). split; [done|]. split_and!; try done.
      * by eapply put_taken.
      * by apply put_wf.
      * by right.
      * unfold worker_count. simpl. by rewrite length_insert.
      * by eapply put_view.
    + apply extract_None in E2. exists None, s. split; [done|]. split; [done|].
      exists q. split; [done|]. split; [done|].
      destruct Hok as [_ H2]. apply Forall_and. split; [|done].
      eapply Forall_impl; [exact E2|]. simpl. intros t Ht. by to_prop.
Qed.

(** ** The order of the victims *)

Lemma victim_eq w n start i :
  0 <= w < n -> 2 <= n < 2 ^ 32 -> 1 <= start <= n - 1 -> 0 <= i < n - 1 ->
  victim w n start i = (w + ((start + i - 1) mod (n - 1) + 1)) mod n.
Proof.
  intros Hw Hn Hs Hi. unfold victim. rewrite u64_sub_l, (u64_small (start + i - 1)) by lia.
  pose proof (Z.mod_pos_bound (start + i - 1) (n - 1) ltac:(lia)). by rewrite u64_small by lia.
Qed.

Lemma victim_range w n start i :
  0 <= w < n -> 2 <= n < 2 ^ 32 -> 1 <= start <= n - 1 -> 0 <= i < n - 1 ->
  0 <= victim w n start i < n /\ victim w n start i <> w.
Proof.
  intros Hw Hn Hs Hi. rewrite victim_eq by done.
  pose proof (Z.mod_pos_bound (start + i - 1) (n - 1) ltac:(lia)).
  set (o := (start + i - 1) mod (n - 1) + 1) in *. split; [apply Z.mod_pos_bound; lia|].
  destruct (decide (w + o < n)); [rewrite Z.mod_small; lia|].
  rewrite <- (Z_mod_plus_full _ (-1)), Z.mod_small; lia.
Qed.

Lemma victim_covers w n start v :
  0 <= w < n -> 2 <= n < 2 ^ 32 -> 1 <= start <= n - 1 -> 0 <= v < n -> v <> w ->
  exists i, 0 <= i < n - 1 /\ victim w n start i = v.
Proof.
  intros Hw Hn Hs Hv Hne. set (o := (v - w) mod n).
  assert (Ho : 1 <= o < n /\ (w + o) mod n = v).
  { unfold o. split.
    - pose proof (Z.mod_pos_bound (v - w) n ltac:(lia)). destruct (decide (w <= v)).
      + rewrite Z.mod_small by lia. lia.
      + rewrite <- (Z_mod_plus_full _ 1), Z.mod_small by lia. lia.
    - rewrite Zplus_mod_idemp_r. replace (w + (v - w)) with v by lia. by apply Z.mod_small. }
  exists ((o - start) mod (n - 1)). pose proof (Z.mod_pos_bound (o - start) (n - 1) ltac:(lia)).
  split; [lia|]. rewrite victim_eq by lia.
  replace (start + (o - start) mod (n - 1) - 1) with ((o - start) mod (n - 1) + (start - 1)) by lia.
  rewrite Zplus_mod_idemp_l. replace (o - start + (start - 1)) with (o - 1) by lia.
  rewrite (Z.mod_small (o - 1)) by lia. replace (o - 1 + 1) with o by lia. apply Ho.
Qed.

Lemma startOffset_range seed n : 2 <= n -> 1 <= startOffset seed n <= n - 1.
Proof. intros. unfold startOffset. pose proof (Z.mod_pos_bound seed (n - 1) ltac:(lia)). lia. Qed.

(** ** Looking everywhere *)

Lemma steal_loop_spec w tId start todo : forall s,
  wf s -> tId <> -1 -> 0 <= w < worker_count s -> 2 <= worker_count s ->
  1 <= start <= worker_count s - 1 ->
  (forall i, i ∈ todo -> Z.of_nat i < worker_count s - 1) ->
  exists r s', steal_loop w tId (worker_count s) start todo s = Ret r s' /\
    match r with
    | Some t => taken tId s t s'
    | None => s' = s /\ forall i, i ∈ todo -> exists q,
        workerQueues_ s !! Z.to_nat (victim w (worker_count s) start (Z.of_nat i)) = Some q /\
        nothing_for tId q
    end.
Proof.
  induction todo as [|i todo IH]; intros s Hwf Ht Hw Hn Hst Htodo; simpl.
  { exists None, s. split; [done|]. split; [done|]. set_solver. }
  pose proof (wf_some _ Hwf). pose proof (Htodo i ltac:(left)).
  destruct (victim_range w (worker_count s) start (Z.of_nat i)) as [Hr _]; try lia.
  destruct (steal_from_spec _ tId s Hwf Hr Ht) as (r & s1 & E & H1).
  unfold mbind, M_bind. rewrite E. destruct r as [t|]; [by exists (Some t), s1|].
  destruct H1 as [-> H1].
  destruct (IH s Hwf Ht Hw Hn Hst) as (r & s' & E' & H').
  { intros j Hj. apply Htodo. by right. }
  exists r, s'. split; [done|]. destruct r; [done|]. destruct H' as [-> H']. split; [done|].
  intros j [->|Hj]%elem_of_cons; [done|]. by apply H'.
Qed.

Definition seeded (me : thread) (s s' : Scheduler) : Prop :=
  s' = s \/ exists x, s' = set_seed (tid me) x s.

Lemma trySteal_spec me w tId s :
  wf s -> tId <> -1 -> 0 <= w < worker_count s ->
  exists r s', trySteal me w tId s = Ret r s' /\
    match r with
    | Some t => taken tId s t s'
    | None => seeded me s s' /\ forall v q, v <> w -> workerQueues_ s !! Z.to_nat v = Some q ->
        0 <= v -> nothing_for tId q
    end.
Proof.
  intros Hwf Ht Hw. unfold trySteal, mbind, M_bind, get, modify.
  pose proof (wf_some _ Hwf). destruct (worker_count s <=? 1) eqn:E; to_prop.
  { exists None, s. split; [done|]. split; [by left|]. intros v q Hv Hq Hv0.
    apply lookup_lt_Some in Hq. unfold worker_count in *. lia. }
  set (seed := next_seed _). set (s1 := set_seed (tid me) seed s).
  assert (Hwf1 : wf s1) by (destruct Hwf; by split).
  pose proof (startOffset_range seed (worker_count s) ltac:(lia)) as Hoff.
  destruct (steal_loop_spec w tId (startOffset seed (worker_count s))
    (seq 0 (Z.to_nat (worker_count s - 1))) s1 Hwf1 Ht Hw ltac:(unfold s1, worker_count in *; simpl; lia) Hoff)
    as (r & s' & E' & H').
  { intros i Hi. apply elem_of_seq in Hi. change (worker_count s1) with (worker_count s). lia. }
  change (worker_count s1) with (worker_count s) in *. rewrite E'. exists r, s'. split; [done|].
  destruct r as [t|]; [done|]. destruct H' as [-> H']. split; [right; by exists seed|].
  intros v q Hv Hq Hv0.
  assert (Hvn : v < worker_count s) by (apply lookup_lt_Some in Hq; unfold worker_count; lia).
  destruct (victim_covers w (worker_count s) (startOffset seed (worker_count s)) v)
    as (i & Hi & Hvi); try lia.
  destruct (H' (Z.to_nat i)) as (q' & Hq' & Hn'); [apply elem_of_seq; lia|].
  rewrite Z2Nat.id, Hvi in Hq' by lia. simpl in Hq'. by simplify_eq.
Qed.

Lemma all_tasks_elem s t :
  t ∈ all_tasks s -> exists v q, workerQueues_ s !! v = Some q /\ t ∈ queue_tasks q.
Proof.
  unfold all_tasks. rewrite list_elem_of_bind. intros (q & Ht & Hq).
  apply list_elem_of_lookup in Hq as [v Hv]. eauto.
Qed.

Lemma nothing_for_task tId q t : nothing_for tId q -> t ∈ queue_tasks q -> thread_ t <> tId /\ thread_ t <> -1.
Proof.
  intros [Hu Hp] Ht. unfold queue_tasks in Ht. rewrite Hu, app_nil_r in Ht.
  rewrite Forall_forall in Hp. by apply Hp.
Qed.

Lemma tryTakeTask_spec me w s q0 :
  wf s -> 0 <= w < worker_count s -> workerQueues_ s !! Z.to_nat w = Some q0 -> threadId q0 <> -1 ->
  exists r s', tryTakeTask me w s = Ret r s' /\
    match r with
    | Some t => taken (threadId q0) s t s'
    | None => seeded me s s' /\
        forall t, t ∈ all_tasks s -> thread_ t <> threadId q0 /\ thread_ t <> -1
    end.
Proof.
  intros Hwf Hw Hq0 Ht. unfold tryTakeTask. unfold mbind, M_bind.
  rewrite (queue_at_eq w s q0 Hq0) by lia.
  destruct (tryTakeLocal_spec w (threadId q0) s Hwf Hw) as (r & s1 & E & H1).
  rewrite E. destruct r as [t|]; [by exists (Some t), s1|].
  destruct H1 as [-> (q & Hq & Hn)]. simplify_eq.
  destruct (trySteal_spec me w (threadId q0) s Hwf Ht Hw) as (r & s' & E' & H').
  exists r, s'. split; [done|]. destruct r as [t|]; [done|].
  destruct H' as [Hs H']. split; [done|]. intros t Hin.
  destruct (all_tasks_elem s t Hin) as (v & q & Hv & Hq).
  destruct (decide (v = Z.to_nat w)) as [->|Hne].
  - simplify_eq. by eapply nothing_for_task.
  - eapply nothing_for_task; [|exact Hq].
    eapply (H' (Z.of_nat v)); [lia| |lia]. by rewrite Nat2Z.id.
Qed.

(** ** Submitting *)

Definition nonempty (t : SchedulerTask) : Prop := is_Some (fiber_ t) \/ is_Some (cb_ t).

Lemma find_thread_spec t l : forall i,
  find_thread t i l = kInvalidWorker \/
  exists j q, find_thread t i l = i + Z.of_nat j /\ l !! j = Some q /\ threadId q = t.
Proof.
  induction l as [|q l IH]; intros i; simpl; [by left|].
  destruct (threadId q =? t) eqn:E; to_prop.
  - right. exists 0%nat, q. split; [lia|done].
  - destruct (IH (i + 1)) as [H|(j & q' & H1 & H2 & H3)]; [by left|right].
    exists (S j), q'. split; [lia|done].
Qed.

Definition add_task (t : SchedulerTask) (q : WorkerQueue) : WorkerQueue :=
  if negb (thread_ t =? -1) then set_pinned (pinnedTasks q ++ [t]) q
  else set_unpinned (unpinnedTasks q ++ [t]) q.

Lemma add_task_ok t q : queue_ok q -> queue_ok (add_task t q).
Proof.
  intros [H1 H2]. unfold add_task. destruct (thread_ t =? -1) eqn:E; to_prop; split; simpl; try done;
    apply Forall_app; split; try done; by constructor.
Qed.

Lemma add_task_tasks t q : queue_tasks (add_task t q) ≡ₚ t :: queue_tasks q.
Proof.
  unfold add_task, queue_tasks. destruct (thread_ t =? -1); simpl.
  - by rewrite app_assoc, (Permutation_app_comm _ [t]).
  - rewrite <- app_assoc. simpl. symmetry. apply Permutation_middle.
Qed.

(** The queue [enqueueTask] chooses. *)
Definition target (me : thread) (t : SchedulerTask) (s : Scheduler) : Z :=
  let w := if negb (thread_ t =? -1) then findWorkerByThread (thread_ t) s
           else if in_this me && (cur_worker_index me <? worker_count s) then cur_worker_index me
           else kInvalidWorker in
  if w =? kInvalidWorker then nextQueue_ s mod worker_count s else w.

Lemma target_range me t s :
  wf s -> 0 <= cur_worker_index me -> 0 <= target me t s < worker_count s.
Proof.
  intros Hwf Hme. pose proof (wf_some _ Hwf) as Hn. unfold target.
  assert (Hmod : 0 <= nextQueue_ s mod worker_count s < worker_count s) by (apply Z.mod_pos_bound; lia).
  destruct (negb (thread_ t =? -1)).
  - unfold findWorkerByThread. destruct (thread_ t =? -1); [done|].
    destruct (find_thread_spec (thread_ t) (workerQueues_ s) 0) as [->|(j & q & -> & Hj & _)]; [done|].
    destruct (_ =? kInvalidWorker); [done|]. apply lookup_lt_Some in Hj. unfold worker_count. lia.
  - destruct (in_this me && (cur_worker_index me <? worker_count s)) eqn:E; [|done]. to_prop.
    destruct (_ =? kInvalidWorker); [done|]. lia.
Qed.

Lemma enqueue_eq me t s :
  wf s -> 0 <= cur_worker_index me -> nonempty t ->
  exists q s1, workerQueues_ s !! Z.to_nat (target me t s) = Some q /\
    workerQueues_ s1 = workerQueues_ s /\ isStopped_ s1 = isStopped_ s /\ wf s1 /\
    enqueueTask me t s = Ret (bool_decide (queue_tasks q = []))
                           (put (target me t s) (add_task t q) s1).
Proof.
  intros Hwf Hme Hne. pose proof (target_range me t s Hwf Hme) as Hr.
  destruct (queue_at_in s _ Hr) as (q & Hq & _).
  assert (Hb : bool_decide (unpinnedTasks q = []) && bool_decide (pinnedTasks q = [])
             = bool_decide (queue_tasks q = [])).
  { unfold queue_tasks. destruct (pinnedTasks q), (unpinnedTasks q); done. }
  set (w0 := if negb (thread_ t =? -1) then findWorkerByThread (thread_ t) s
        else if in_this me && (cur_worker_index me <? worker_count s) then cur_worker_index me
        else kInvalidWorker).
  set (s1 := if w0 =? kInvalidWorker then set_nextQueue (u64 (nextQueue_ s + 1)) s else s).
  assert (Hs1 : workerQueues_ s1 = workerQueues_ s /\ isStopped_ s1 = isStopped_ s /\ wf s1).
  { unfold s1. destruct (w0 =? kInvalidWorker); [|done]. split_and!; try done.
    destruct Hwf. split; try done. simpl. apply u64_range. }
  exists q, s1. split; [done|]. do 3 (split; [apply Hs1|]). rewrite <- Hb.
  assert (He : enqueueTask me t s = (workerIndex ← (if w0 =? kInvalidWorker then
        modify (set_nextQueue (u64 (nextQueue_ s + 1)));; mret (nextQueue_ s mod worker_count s)
      else mret w0);
      queue ← queue_at workerIndex;
      put_queue workerIndex (add_task t queue);;
      mret (bool_decide (unpinnedTasks queue = []) && bool_decide (pinnedTasks queue = []))) s).
  { unfold enqueueTask. destruct (fiber_ t) eqn:E1, (cb_ t) eqn:E2; try reflexivity.
    destruct Hne as [Hx|Hx]; rewrite ?E1, ?E2 in Hx; by destruct Hx. }
  rewrite He. eapply (bind_ret _ _ _ (target me t s) s1).
  { unfold target, s1. fold w0. by destruct (w0 =? kInvalidWorker). }
  eapply bind_ret; [apply queue_at_eq; [rewrite (proj1 Hs1); exact Hq|lia]|]. done.
Qed.

Lemma put_count i q s : worker_count (put i q s) = worker_count s.
Proof. unfold worker_count. simpl. by rewrite length_insert. Qed.

Lemma enqueue_spec me t s :
  wf s -> 0 <= cur_worker_index me -> nonempty t ->
  exists b s', enqueueTask me t s = Ret b s' /\ wf s' /\ all_tasks s' ≡ₚ t :: all_tasks s /\
    worker_count s' = worker_count s.
Proof.
  intros Hwf Hme Hne. destruct (enqueue_eq me t s Hwf Hme Hne) as (q & s1 & Hq & E1 & E2 & Hwf1 & E).
  eexists _, _. split; [exact E|].
  pose proof (proj1 (Forall_lookup _ _) (wf_queues _ Hwf) _ _ Hq) as Hok. simpl in Hok. split_and!.
  - apply put_wf; [done|]. by apply add_task_ok.
  - assert (Ha : all_tasks s1 = all_tasks s) by (unfold all_tasks; by rewrite E1).
    rewrite <- Ha. eapply put_added; [by rewrite E1|]. apply add_task_tasks.
  - rewrite put_count. unfold worker_count. by rewrite E1.
Qed.

(** ** Interleaved lock regions

    [submitted] and [started] record the history: what clients handed in, and
    what each thread took. *)
Record sworld := SWorld {
  sch : Scheduler;
  submitted : list SchedulerTask;
  started : list (Z * SchedulerTask) }.

Inductive sched_step : sworld -> sworld -> Prop :=
| step_submit s sub st me t b s' :
    nonempty t -> 0 <= cur_worker_index me -> enqueueTask me t s = Ret b s' ->
    sched_step (SWorld s sub st) (SWorld s' (t :: sub) st)
| step_take s sub st w tId t s' :
    0 <= w < worker_count s -> tId <> -1 -> tryTakeLocal w tId s = Ret (Some t) s' ->
    sched_step (SWorld s sub st) (SWorld s' sub ((tId, t) :: st))
| step_steal s sub st v tId t s' :
    0 <= v < worker_count s -> tId <> -1 -> steal_from v tId s = Ret (Some t) s' ->
    sched_step (SWorld s sub st) (SWorld s' sub ((tId, t) :: st)).

Record conserved (x : sworld) : Prop := {
  co_wf : wf (sch x);
  co_tasks : submitted x ≡ₚ (started x).*2 ++ all_tasks (sch x);
  co_pinned : forall tId t, (tId, t) ∈ started x -> thread_ t = -1 \/ thread_ t = tId }.

Lemma taken_conserved s sub st tId t s' :
  conserved (SWorld s sub st) -> taken tId s t s' -> conserved (SWorld s' sub ((tId, t) :: st)).
Proof.
  intros [Hwf Ht Hp] (Hpm & Hwf' & Hth & _). split; simpl in *; [done| |].
  - rewrite Ht, Hpm. symmetry. apply Permutation_middle.
  - intros tId' u [[= -> ->]|H]%elem_of_cons; [done|]. by apply Hp.
Qed.

Lemma sched_step_conserved x y : sched_step x y -> conserved x -> conserved y.
Proof.
  intros Hs Hc. destruct Hs as [s sub st me t b s' Hne Hme E|s sub st w tId t s' Hw Ht E
                               |s sub st v tId t s' Hv Ht E]; pose proof (co_wf _ Hc) as Hwf; simpl in Hwf.
  - destruct (enqueue_spec me t s Hwf Hme Hne) as (b' & s2 & E' & Hwf' & Hp & _). rewrite E in E'.
    simplify_eq. destruct Hc as [_ Ht Hpin]. split; simpl in *; [done| |done].
    rewrite Hp, Ht. apply Permutation_middle.
  - destruct (tryTakeLocal_spec w tId s Hwf Hw) as (r & s2 & E' & H'). rewrite E in E'. simplify_eq.
    by eapply taken_conserved.
  - destruct (steal_from_spec v tId s Hwf Hv Ht) as (r & s2 & E' & H'). rewrite E in E'. simplify_eq.
    by eapply taken_conserved.
Qed.

Lemma filter_id_all {A} (f : A -> bool) l : (forall x, x ∈ l -> f x = true) -> List.filter f l = l.
Proof.
  induction l as [|x l IH]; simpl; intros H; [done|]. rewrite (H x) by left.
  f_equal. apply IH. intros; apply H; by right.
Qed.

(** C1. No task is lost, duplicated or run by the wrong thread.  Starting from
    empty queues, after any interleaving of submissions, local takes and steals
    by any threads, the submitted tasks are exactly (as a multiset) the tasks
    taken plus the tasks still queued, and every task taken that was pinned to
    a thread was taken by that thread. *)
Theorem scheduler_conserves_tasks s x :
  wf s -> all_tasks s = [] -> rtc sched_step (SWorld s [] []) x ->
  submitted x ≡ₚ (started x).*2 ++ all_tasks (sch x) /\
  forall tId t, (tId, t) ∈ started x -> thread_ t <> -1 -> thread_ t = tId.
Proof.
  intros Hwf Hnil Hr. assert (Hc : conserved x).
  { eapply (rtc_invariant sched_step); [apply sched_step_conserved|exact Hr|].
    split; simpl; [done|by rewrite Hnil|set_solver]. }
  split; [apply Hc|]. intros tId t Hin Hne. by destruct (co_pinned _ Hc tId t Hin).
Qed.

(** C15. A worker that gives up has looked everywhere.  [tryTakeTask] of a
    registered worker always returns; it answers a task only if the task is
    for this thread or for any, and removes exactly that task; it answers that
    there is none only if every task in every queue is pinned to another
    thread (and then only the victim seed has changed). *)
Theorem tryTakeTask_complete me w s q :
  wf s -> 0 <= w < worker_count s -> workerQueues_ s !! Z.to_nat w = Some q -> threadId q <> -1 ->
  exists r s', tryTakeTask me w s = Ret r s' /\
    match r with
    | Some t => all_tasks s ≡ₚ t :: all_tasks s' /\ (thread_ t = -1 \/ thread_ t = threadId q)
    | None => all_tasks s' = all_tasks s /\
        forall t, t ∈ all_tasks s -> thread_ t <> -1 /\ thread_ t <> threadId q
    end.
Proof.
  intros Hwf Hw Hq Ht. destruct (tryTakeTask_spec me w s q Hwf Hw Hq Ht) as (r & s' & E & H).
  exists r, s'. split; [done|]. destruct r as [t|].
  - by destruct H as (? & _ & ? & _).
  - destruct H as [Hs H]. split; [by destruct Hs as [->|[x ->]]|].
    intros t Hin. by destruct (H t Hin).
Qed.

(** The victims of a steal are all the other workers, each once: for every
    seed, the sequence of indices that [trySteal] visits is a permutation of
    the workers other than the thief. *)
Theorem steal_visits_every_other_worker w n seed :
  0 <= w < n -> 2 <= n < 2 ^ 32 ->
  (fun i : nat => victim w n (startOffset seed n) (Z.of_nat i)) <$> seq 0 (Z.to_nat (n - 1))
  ≡ₚ Z.of_nat <$> List.filter (fun v => negb (Z.of_nat v =? w)) (seq 0 (Z.to_nat n)).
Proof.
  intros Hw Hn. pose proof (startOffset_range seed n ltac:(lia)) as Hs.
  set (f := fun i : nat => victim w n (startOffset seed n) (Z.of_nat i)).
  symmetry. apply submseteq_length_Permutation.
  - apply NoDup_submseteq.
    + apply NoDup_fmap_2; [apply _|]. apply NoDup_ListNoDup, List.NoDup_filter, seq_NoDup.
    + intros v. rewrite !list_elem_of_fmap. intros (k & -> & Hk).
      rewrite list_elem_of_In, List.filter_In in Hk. destruct Hk as [Hk Hne]. apply in_seq in Hk. to_prop.
      destruct (victim_covers w n (startOffset seed n) (Z.of_nat k)) as (i & Hi & E); try lia.
      exists (Z.to_nat i). split; [unfold f; by rewrite Z2Nat.id by lia|]. apply elem_of_seq. lia.
  - rewrite !length_fmap, length_seq.
    assert (Hf : length (List.filter (fun v => negb (Z.of_nat v =? w)) (seq 0 (Z.to_nat n)))
               = (Z.to_nat n - 1)%nat); [|lia].
    replace (Z.to_nat n) with (Z.to_nat w + S (Z.to_nat (n - w - 1)))%nat by lia.
    rewrite seq_app, List.filter_app, length_app. simpl.
    replace (Z.of_nat (Z.to_nat w) =? w) with true by (symmetry; apply Z.eqb_eq; lia). simpl.
    rewrite !filter_id_all; rewrite ?length_seq; [lia|..]; intros x Hx%elem_of_seq;
      apply negb_true_iff, Z.eqb_neq; lia.
Qed.

(** ** Order *)

Fixpoint enqueue_all (me : thread) (ts : list SchedulerTask) : M Scheduler unit :=
  match ts with
  | [] => mret tt
  | t :: ts' => enqueueTask me t;; enqueue_all me ts'
  end.

Fixpoint take_all (w tId : Z) (n : nat) : M Scheduler (list (option SchedulerTask)) :=
  match n with
  | O => mret []
  | S n' => r ← tryTakeLocal w tId; l ← take_all w tId n'; mret (r :: l)
  end.

Definition unpinned_work (t : SchedulerTask) : Prop := thread_ t = -1 /\ nonempty t.

Lemma put_lookup i q q' s :
  workerQueues_ s !! Z.to_nat i = Some q -> workerQueues_ (put i q' s) !! Z.to_nat i = Some q'.
Proof. intros H. simpl. apply list_lookup_insert_eq. by eapply lookup_lt_Some. Qed.

Lemma enqueue_all_local me ts : forall s q,
  wf s -> in_this me = true -> 0 <= cur_worker_index me < worker_count s ->
  workerQueues_ s !! Z.to_nat (cur_worker_index me) = Some q -> Forall unpinned_work ts ->
  exists s', enqueue_all me ts s = Ret tt s' /\ wf s' /\ worker_count s' = worker_count s /\
    workerQueues_ s' !! Z.to_nat (cur_worker_index me) =
      Some (set_unpinned (unpinnedTasks q ++ ts) q).
Proof.
  induction ts as [|t ts IH]; intros s q Hwf Hin Hw Hq Hts; simpl.
  { exists s. rewrite app_nil_r. split_and!; try done. by destruct q. }
  apply Forall_cons in Hts as [[Ht Hne] Hts]. pose proof (wf_some _ Hwf).
  destruct (enqueue_eq me t s Hwf ltac:(lia) Hne) as (q1 & s1 & Hq1 & E1 & _ & Hwf1 & E).
  assert (Htg : target me t s = cur_worker_index me).
  { unfold target. rewrite Ht, Hin. simpl.
    replace (cur_worker_index me <? worker_count s) with true by (symmetry; apply Z.ltb_lt; lia).
    replace (cur_worker_index me =? kInvalidWorker) with false; [done|].
    symmetry. apply Z.eqb_neq. unfold kInvalidWorker, SIZE_MAX, UINT64_MAX. lia. }
  rewrite Htg in *. assert (q1 = q) as -> by congruence.
  assert (Hq1' : workerQueues_ s1 !! Z.to_nat (cur_worker_index me) = Some q) by (by rewrite E1).
  unfold mbind, M_bind. rewrite E.
  destruct (IH (put (cur_worker_index me) (add_task t q) s1) (add_task t q)) as (s' & E' & Hwf' & Hc' & Hq').
  - apply put_wf; [done|]. apply add_task_ok.
    exact (proj1 (Forall_lookup _ _) (wf_queues _ Hwf) _ _ Hq).
  - done.
  - rewrite put_count. unfold worker_count in *. by rewrite E1.
  - by eapply put_lookup.
  - done.
  - exists s'. split; [done|]. split; [done|]. split.
    { rewrite Hc', put_count. unfold worker_count. by rewrite E1. }
    rewrite Hq'. unfold add_task. rewrite Ht. simpl. by rewrite <- app_assoc.
Qed.

Lemma take_all_front w tId ts : forall s q,
  0 <= w -> workerQueues_ s !! Z.to_nat w = Some q -> pinnedTasks q = [] -> unpinnedTasks q = ts ->
  exists s', take_all w tId (length ts) s = Ret (Some <$> ts) s'.
Proof.
  induction ts as [|t ts IH]; intros s q Hw Hq Hp Hu; simpl; [by eexists|].
  assert (E : tryTakeLocal w tId s = Ret (Some t) (put w (set_unpinned ts q) s)).
  { unfold tryTakeLocal. eapply bind_ret; [by apply queue_at_eq|]. by rewrite Hp, Hu. }
  destruct (IH (put w (set_unpinned ts q) s) (set_unpinned ts q)) as (s' & E');
    [done|by eapply put_lookup|done|done|].
  exists s'. eapply bind_ret; [exact E|]. by eapply bind_ret; [exact E'|].
Qed.

(** Local work is first in, first out.  Unpinned tasks that a worker submits
    while its queue is empty are taken by that worker in the order of
    submission. *)
Theorem local_tasks_are_fifo me s ts q tId :
  wf s -> in_this me = true -> 0 <= cur_worker_index me < worker_count s ->
  workerQueues_ s !! Z.to_nat (cur_worker_index me) = Some q -> queue_tasks q = [] ->
  Forall unpinned_work ts ->
  returns (enqueue_all me ts;; take_all (cur_worker_index me) tId (length ts)) s
    (fun r _ => r = Some <$> ts).
Proof.
  intros Hwf Hin Hw Hq Hnil Hts. apply app_eq_nil in Hnil as [Hp Hu].
  destruct (enqueue_all_local me ts s q Hwf Hin Hw Hq Hts) as (s1 & E1 & _ & _ & Hq1).
  destruct (take_all_front (cur_worker_index me) tId ts s1 _ ltac:(lia) Hq1 Hp) as (s2 & E2).
  { simpl. by rewrite Hu. }
  unfold returns, mbind, M_bind. by rewrite E1, E2.
Qed.

(** ** Shutdown *)

Lemma hasPendingTasks_spec s : hasPendingTasks s = false <-> all_tasks s = [].
Proof.
  unfold hasPendingTasks, all_tasks. induction (workerQueues_ s) as [|q l IH]; simpl; [by split|].
  rewrite orb_false_iff, IH. unfold queue_tasks.
  destruct (unpinnedTasks q), (pinnedTasks q); simpl; split; try (intros [? ?]; done); try done; naive_solver.
Qed.

Lemma taken_by_other tId s u s' t :
  taken tId s u s' -> thread_ t <> -1 -> thread_ t <> tId -> t ∈ all_tasks s -> t ∈ all_tasks s'.
Proof.
  intros (Hp & _ & Hth & _) H1 H2 Hin. rewrite Hp in Hin. apply elem_of_cons in Hin as [->|?]; [|done].
  by destruct Hth.
Qed.

Lemma sched_step_keeps a m t :
  sched_step a m -> wf (sch a) -> t ∈ all_tasks (sch a) -> thread_ t <> -1 ->
  wf (sch m) /\ exists new, started m = new ++ started a /\
    (Forall (fun p => p.1 <> thread_ t) new -> t ∈ all_tasks (sch m)).
Proof.
  intros Hs Hwfa Ha Hth.
  destruct Hs as [z sub' st me' u b0 z' Hne' Hme' Eu|z sub' st w tId u z' Hw Htid Eu
                 |z sub' st v tId u z' Hv Htid Eu]; simpl in *.
  - destruct (enqueue_spec me' u z Hwfa Hme' Hne') as (? & ? & Ez & Hwz & Hpz & _).
    rewrite Eu in Ez. simplify_eq. split; [done|]. exists []. split; [done|]. intros _.
    rewrite Hpz. by right.
  - destruct (tryTakeLocal_spec w tId z Hwfa Hw) as (r & z2 & Ez & Hz). rewrite Eu in Ez. simplify_eq.
    split; [apply Hz|]. exists [(tId, u)]. split; [done|]. intros Hf. apply Forall_cons in Hf as [Hf _].
    eapply taken_by_other; [exact Hz|done| |done]. simpl in Hf. congruence.
  - destruct (steal_from_spec v tId z Hwfa Hv Htid) as (r & z2 & Ez & Hz). rewrite Eu in Ez. simplify_eq.
    split; [apply Hz|]. exists [(tId, u)]. split; [done|]. intros Hf. apply Forall_cons in Hf as [Hf _].
    eapply taken_by_other; [exact Hz|done| |done]. simpl in Hf. congruence.
Qed.

Lemma started_suffix a c : rtc sched_step a c -> exists new, started c = new ++ started a.
Proof.
  induction 1 as [c|a b c Hab _ [l Hl]]; [by exists []|].
  destruct Hab; simpl in *; eauto; rewrite Hl; exists (l ++ [(tId, t)]); by rewrite <- app_assoc.
Qed.

Lemma reachable_keeps t a c :
  rtc sched_step a c -> thread_ t <> -1 -> wf (sch a) -> t ∈ all_tasks (sch a) ->
  Forall (fun p => p.1 <> thread_ t) (started c) -> t ∈ all_tasks (sch c).
Proof.
  induction 1 as [a|a m c Hs Hmc IH]; intros Hth Hwfa Ha Hc; [done|].
  destruct (sched_step_keeps a m t Hs Hwfa Ha Hth) as (Hwfm & new & Enew & Hmt).
  destruct (started_suffix m c Hmc) as [new2 E2]. apply IH; [done|done| |done]. apply Hmt.
  rewrite E2, Enew in Hc. apply Forall_app in Hc as [_ Hc]. by apply Forall_app in Hc as [Hc _].
Qed.

(** A task for a thread that is not a worker is never run, and the scheduler
    never becomes stoppable.  Such a task stays queued through every
    interleaving in which its thread takes nothing, and while it is queued
    [stopping()] is false: [stop()] does not return. *)
Theorem task_for_foreign_thread_blocks_stop s sub t me b s1 x :
  wf s -> 0 <= cur_worker_index me -> nonempty t -> thread_ t <> -1 ->
  enqueueTask me t s = Ret b s1 -> rtc sched_step (SWorld s1 sub []) x ->
  Forall (fun p => p.1 <> thread_ t) (started x) ->
  t ∈ all_tasks (sch x) /\ stopping (sch x) = false.
Proof.
  intros Hwf Hme Hne Hth E Hr Hst.
  destruct (enqueue_spec me t s Hwf Hme Hne) as (b' & s2 & E' & Hwf2 & Hp & _). rewrite E in E'. simplify_eq.
  assert (Hin : t ∈ all_tasks (sch x)).
  { eapply reachable_keeps; [exact Hr|done|done| |done]. simpl. rewrite Hp. left. }
  split; [done|].
  unfold stopping. destruct (hasPendingTasks (sch x)) eqn:Eh; [by rewrite andb_false_r|].
  apply hasPendingTasks_spec in Eh. rewrite Eh in Hin. by apply not_elem_of_nil in Hin.
Qed.

(** Shutdown condition and start-up.  [stopping()] holds exactly when the
    stop has been ordered, no queue holds a task and no worker is active; and
    [start()] gives every worker queue exactly one runner: the pool's threads
    and, with [use_caller], the caller for worker 0. *)
Theorem stopping_and_start_cover_workers threads use_caller per_worker owner me s :
  Scheduler_new threads use_caller per_worker owner me = Some s -> threads < 2 ^ 64 ->
  (forall s', stopping s' = true <-> isStopped_ s' = true /\ all_tasks s' = [] /\
     Forall (fun q => active q = false) (workerQueues_ s')) /\
  returns start s (fun _ s' =>
    (if use_caller then [0] else []) ++ threadPool_ s' ≡ₚ Z.of_nat <$> seq 0 (length (workerQueues_ s))).
Proof.
  intros Hnew Hth. split.
  - intros s'. unfold stopping. rewrite !andb_true_iff, !negb_true_iff, hasPendingTasks_spec.
    assert (Ha : existsb active (workerQueues_ s') = false <->
                 Forall (fun q => active q = false) (workerQueues_ s')).
    { induction (workerQueues_ s') as [|q l IH]; simpl; [by split|].
      rewrite orb_false_iff, Forall_cons, IH. done. }
    rewrite Ha. tauto.
  - unfold Scheduler_new in Hnew. destruct (threads >? 0) eqn:E; [|done]. to_prop. simpl in Hnew.
    destruct use_caller.
    + destruct (in_this me); [done|]. simplify_eq. unfold returns, start, mbind, M_bind, get, modify. simpl.
      rewrite length_alter, length_replicate.
      replace (Z.to_nat threads) with (S (Z.to_nat (threads - 1))) by lia. simpl.
      rewrite u64_small by lia. rewrite <- fmap_S_seq, <- list_fmap_compose.
      constructor. apply Permutation_refl'. apply list_fmap_ext. intros i x _. simpl. lia.
    + simplify_eq. unfold returns, start, mbind, M_bind, get, modify. simpl.
      rewrite length_replicate. apply Permutation_refl'. apply list_fmap_ext. intros i x _. simpl. lia.
Qed.

(** ** Witnesses: two workers on threads 10 and 11 *)

Definition two_workers : Scheduler :=
  Sched [set_threadId 10 new_worker; set_threadId 11 new_worker] 0 1 1 (CacheStats 0 0 0 0 0)
    2 0 false (-1) false [] ∅ 0.
Definition thread10 : thread := Thread 10 true 0.
Definition outsider : thread := Thread 99 false SIZE_MAX.
Definition task_any (c : Z) : SchedulerTask := Task None (Some c) (-1).
Definition task_for (t c : Z) : SchedulerTask := Task None (Some c) t.

Definition after {A} (m : M Scheduler A) (s : Scheduler) : Scheduler :=
  match m s with Ret _ s' => s' | _ => s end.

Lemma two_workers_wf : wf two_workers.
Proof. split; [done| |done]. by repeat constructor. Qed.

(** An outsider submits a task for any worker and one pinned to thread 11; worker 0
    takes the first, worker 1 the second. *)
Definition run_s1 := after (enqueueTask outsider (task_any 5)) two_workers.
Definition run_s2 := after (enqueueTask outsider (task_for 11 6)) run_s1.
Definition run_s3 := after (steal_from 0 11) run_s2.
Definition run_s4 := after (tryTakeLocal 1 11) run_s3.

Lemma sched_run : rtc sched_step (SWorld two_workers [] [])
  (SWorld run_s4 [task_for 11 6; task_any 5] [(11, task_for 11 6); (11, task_any 5)]).
Proof.
  eapply rtc_l; [apply (step_submit _ _ _ outsider (task_any 5) true run_s1)|].
  { right. by eexists. } { by vm_compute. } { by vm_compute. }
  eapply rtc_l; [apply (step_submit _ _ _ outsider (task_for 11 6) true run_s2)|].
  { right. by eexists. } { by vm_compute. } { by vm_compute. }
  eapply rtc_l; [apply (step_steal _ _ _ 0 11 (task_any 5) run_s3)|].
  { by vm_compute. } { done. } { by vm_compute. }
  eapply rtc_l; [apply (step_take _ _ _ 1 11 (task_for 11 6) run_s4)|apply rtc_refl].
  { by vm_compute. } { done. } { by vm_compute. }
Qed.

Lemma scheduler_conserves_tasks_witness :
  wf two_workers /\ [task_for 11 6; task_any 5] ≡ₚ [task_for 11 6; task_any 5] ++ all_tasks run_s4.
Proof.
  split; [apply two_workers_wf|].
  exact (proj1 (scheduler_conserves_tasks two_workers _ two_workers_wf eq_refl sched_run)).
Defined.

Lemma tryTakeTask_complete_witness :
  worker_count run_s2 = 2 /\ exists r s', tryTakeTask thread10 0 run_s2 = Ret r s'.
Proof.
  split; [reflexivity|].
  assert (Hwf : wf run_s2) by (split; [by vm_compute| |by vm_compute]; by repeat constructor).
  destruct (tryTakeTask_complete thread10 0 run_s2 (default new_worker (workerQueues_ run_s2 !! 0%nat)) Hwf)
    as (r & s' & E & _); [by vm_compute|by vm_compute|by vm_compute|eauto].
Defined.

Lemma steal_visits_every_other_worker_witness :
  (fun i : nat => victim 1 4 (startOffset 7 4) (Z.of_nat i)) <$> [0; 1; 2]%nat ≡ₚ [0; 2; 3].
Proof. exact (steal_visits_every_other_worker 1 4 7 ltac:(lia) ltac:(lia)). Defined.

Lemma local_tasks_are_fifo_witness :
  returns (enqueue_all thread10 [task_any 1; task_any 2; task_any 3];; take_all 0 10 3) two_workers
    (fun r _ => r = [Some (task_any 1); Some (task_any 2); Some (task_any 3)]).
Proof.
  apply (local_tasks_are_fifo thread10 two_workers [task_any 1; task_any 2; task_any 3]
    (set_threadId 10 new_worker) 10 two_workers_wf); try done.
  repeat constructor; by eexists.
Defined.

Definition run_f1 := after (enqueueTask outsider (task_for 77 6)) two_workers.

Lemma task_for_foreign_thread_blocks_stop_witness :
  enqueueTask outsider (task_for 77 6) two_workers = Ret true run_f1 /\ stopping run_f1 = false.
Proof.
  split; [by vm_compute|].
  apply (task_for_foreign_thread_blocks_stop two_workers [] (task_for 77 6) outsider true run_f1
    (SWorld run_f1 [] []) two_workers_wf); try done.
  right. by eexists.
Defined.

Lemma stopping_and_start_cover_workers_witness :
  exists s, Scheduler_new 3 true 1 1 outsider = Some s /\ returns start s (fun _ s' => [0] ++ threadPool_ s' ≡ₚ [0; 1; 2]).
Proof.
  eexists. split; [reflexivity|].
  exact (proj2 (stopping_and_start_cover_workers 3 true 1 1 outsider _ eq_refl ltac:(lia))).
Defined.
