(* ===== verification/Worker.v ===== *)
(** * Workers (src/scheduler.cpp: the callback-fiber cache and the run loop)

    The scheduler's state lives in the same world as the fibers: client code
    submits tasks while it runs on a fiber. *)

From S2P Require Import Prelude StackAllocator Fiber Scheduler.

Section worker.
Context {S0 : Type} (A0 : FiberStackAllocator S0).

(** The environment of the fibers: the scheduler and the stack allocator. *)
Definition env : Type := Scheduler * S0.
Definition on_alloc {R} (m : M S0 R) : M env R := zoom snd (fun s e => (e.1, s)) m.
Definition A : FiberStackAllocator env :=
  Allocator env (fun n => on_alloc (sa_acquire A0 n)) (fun b => on_alloc (sa_release A0 b))
    (fun b => on_alloc (sa_beforeContextCreate A0 b)) (fun n => on_alloc (sa_trim A0 n))
    (on_alloc (sa_stats A0)) (on_alloc (sa_resetStats A0)).

Abbreviation W := (world env).

Definition sched (w : W) : Scheduler := (allocator w).1.
Definition set_sched (s : Scheduler) (w : W) : W := set_allocator (s, (allocator w).2) w.
Definition with_sched {R} (m : M Scheduler R) : M W R := zoom sched set_sched m.

Context (code : Z -> M W segment).
(** [shared_ptr::use_count] of a fiber whose worker holds one reference. *)
Context (use_count : Z -> W -> Z).

Definition on_stats (f : cache_stats -> cache_stats) : M W unit :=
  with_sched (modify (fun s => set_reuse (f (reuse s)) s)).

Definition count_hit (c : cache_stats) : cache_stats :=
  CacheStats (u64 (callbackCacheHits_ c + 1)) (callbackCacheMisses_ c) (callbackCacheEvictions_ c)
    (u64 (callbackCachedCount_ c - 1)) (callbackCachedBytes_ c).
Definition count_miss (c : cache_stats) : cache_stats :=
  CacheStats (callbackCacheHits_ c) (u64 (callbackCacheMisses_ c + 1)) (callbackCacheEvictions_ c)
    (callbackCachedCount_ c) (callbackCachedBytes_ c).
Definition count_eviction (c : cache_stats) : cache_stats :=
  CacheStats (callbackCacheHits_ c) (callbackCacheMisses_ c) (u64 (callbackCacheEvictions_ c + 1))
    (callbackCachedCount_ c) (callbackCachedBytes_ c).
Definition sub_bytes (n : Z) (c : cache_stats) : cache_stats :=
  CacheStats (callbackCacheHits_ c) (callbackCacheMisses_ c) (callbackCacheEvictions_ c)
    (callbackCachedCount_ c) (u64 (callbackCachedBytes_ c - n)).
Definition add_cached (n : Z) (c : cache_stats) : cache_stats :=
  CacheStats (callbackCacheHits_ c) (callbackCacheMisses_ c) (callbackCacheEvictions_ c)
    (u64 (callbackCachedCount_ c + 1)) (u64 (callbackCachedBytes_ c + n)).
Definition sub_cached (n : Z) (c : cache_stats) : cache_stats :=
  CacheStats (callbackCacheHits_ c) (callbackCacheMisses_ c) (callbackCacheEvictions_ c)
    (u64 (callbackCachedCount_ c - 1)) (u64 (callbackCachedBytes_ c - n)).

(** [Scheduler::acquireCallbackFiber]; [p] is fresh storage for a new fiber.
    When [reset] throws, the unwinding drops the only reference. *)
Definition acquireCallbackFiber (p workerIndex cb : Z) : M W Z :=
  q ← with_sched (queue_at workerIndex);
  match unsnoc (callbackFiberCache q) with
  | Some (rest, f) =>
      with_sched (put_queue workerIndex (set_cache rest q));;
      on_stats count_hit;;
      o ← load f;
      on_stats (sub_bytes (allocationSize (stackBlock_ o)));;
      try_catch (reset A f cb) (fun e => Fiber_delete A f;; throw e);;
      mret f
  | None =>
      on_stats count_miss;;
      f ← Fiber_new A p cb 0 true;
      w ← get;
      update f (MarkSchedulerCallback (Scheduler.schedulerOwnerId_ (sched w)) workerIndex);;
      mret f
  end.

(** [Scheduler::tryCacheCallbackFiber]; [true] when the reference was moved
    into the cache.  The cache has its capacity reserved, so [push_back] does
    not throw. *)
Definition tryCacheCallbackFiber (workerIndex f : Z) : M W bool :=
  w ← get;
  o ← load f;
  if negb (use_count f w =? 1) ||
     negb (IsReusableSchedulerCallback (Scheduler.schedulerOwnerId_ (sched w)) workerIndex o)
  then mret false
  else
    worker ← with_sched (queue_at workerIndex);
    if Z.of_nat (length (callbackFiberCache worker)) >=? callbackFiberCachePerWorker (sched w)
    then on_stats count_eviction;; mret false
    else
      with_sched (put_queue workerIndex (set_cache (callbackFiberCache worker ++ [f]) worker));;
      on_stats (add_cached (allocationSize (stackBlock_ o)));;
      mret true.

(** The end of the scope of the worker's reference: the last one destroys. *)
Definition drop_reference (f : Z) : M W unit :=
  w ← get;
  if use_count f w =? 1 then Fiber_delete A f else mret tt.

(** [Scheduler::clearCallbackFiberCaches]: first the gauges, then the vector
    drops its references. *)
Fixpoint uncount_cached (l : list Z) : M W unit :=
  match l with
  | [] => mret tt
  | f :: l' =>
      o ← load f;
      on_stats (sub_cached (allocationSize (stackBlock_ o)));;
      uncount_cached l'
  end.

Fixpoint delete_fibers (l : list Z) : M W unit :=
  match l with
  | [] => mret tt
  | f :: l' => Fiber_delete A f;; delete_fibers l'
  end.

Fixpoint clear_caches (workers : list nat) : M W unit :=
  match workers with
  | [] => mret tt
  | i :: workers' =>
      q ← with_sched (queue_at (Z.of_nat i));
      uncount_cached (callbackFiberCache q);;
      with_sched (put_queue (Z.of_nat i) (set_cache [] q));;
      delete_fibers (callbackFiberCache q);;
      clear_caches workers'
  end.

Definition clearCallbackFiberCaches : M W unit :=
  w ← get; clear_caches (seq 0 (length (workerQueues_ (sched w)))).

Definition set_worker_active (workerIndex : Z) (b : bool) : M W unit :=
  with_sched (q ← queue_at workerIndex; put_queue workerIndex (set_active b q)).

(** [resume] inside [try ... catch (...)]: the exception is logged. *)
Definition resume_caught (f : Z) : M W unit := try_catch (resume code f) (fun _ => mret tt).

(** After the resumption: cache the fiber, or let the reference go. *)
Definition finish_fiber (workerIndex f : Z) : M W unit :=
  cached ← tryCacheCallbackFiber workerIndex f;
  if cached : bool then mret tt else drop_reference f.

(** [if (hasTask && task.fiber_)] *)
Definition run_fiber (workerIndex f : Z) : M W unit :=
  o ← load f;
  CondPanic (bool_decide (state_ o = READY)) "fiber task state error";;
  resume_caught f;;
  finish_fiber workerIndex f.

(** [else if (hasTask && task.cb_)] *)
Definition run_callback (p workerIndex cb : Z) : M W unit :=
  r ← try_catch (f ← acquireCallbackFiber p workerIndex cb; mret (Some f)) (fun _ => mret None);
  match r with
  | None => mret tt
  | Some f => resume_caught f;; finish_fiber workerIndex f
  end.

(** The last branch; [false] leaves the loop. *)
Definition run_idle (workerIndex idleFiber : Z) : M W bool :=
  set_worker_active workerIndex false;;
  o ← load idleFiber;
  if bool_decide (state_ o = TERM) then mret false
  else
    w ← get;
    (if hasPendingTasks (sched w) then with_sched tickle else mret tt);;
    with_sched (modify (fun s => set_idleCnt (u64 (idleThreadCnt_ s + 1)) s));;
    resume code idleFiber;;
    with_sched (modify (fun s => set_idleCnt (u64 (idleThreadCnt_ s - 1)) s));;
    mret true.

(** One round of the loop of [Scheduler::run]. *)
Definition run_round (me : thread) (p workerIndex idleFiber : Z) : M W bool :=
  set_worker_active workerIndex true;;
  r ← with_sched (tryTakeTask me workerIndex);
  match r with
  | Some (Task (Some f) _ _) => run_fiber workerIndex f;; mret true
  | Some (Task None (Some cb) _) => run_callback p workerIndex cb;; mret true
  | _ => run_idle workerIndex idleFiber
  end.

(** What precedes the loop: the worker registers its thread; [idle] is the
    code of the idle fiber, created in the fresh storage [pidle]. *)
Definition run_prologue (me : thread) (pidle workerIndex idle : Z) : M W Z :=
  w ← get;
  CondPanic (workerIndex <? worker_count (sched w)) "worker index out of range";;
  with_sched (q ← queue_at workerIndex; put_queue workerIndex (set_threadId (tid me) q));;
  Fiber_new A pidle idle 0 true.

End worker.
