(* ===== verification/WorkerProofs.v ===== *)
(** * Correctness of the worker loop

    A round of the worker loop survives whatever the client code does, keeps
    the fibers and the queues intact, and keeps the cache of callback fibers
    bounded, exact and free of fibers that could still run. *)

From S2P Require Import Prelude StackAllocator StackAllocatorProofs Fiber FiberProofs.
From S2P Require Import Scheduler SchedulerProofs Worker.

Section proofs.
Context {S0 : Type} (A0 : FiberStackAllocator S0) (ok0 : list FiberStackBlock -> S0 -> Prop).
Context `{HA0 : !AllocatorLaws A0 ok0}.

Abbreviation W := (world (@env S0)).

Definition ok (out : list FiberStackBlock) (e : @env S0) : Prop := ok0 out e.2 /\ wf e.1.

#[export] Instance lifted_laws : AllocatorLaws (A A0) ok.
Proof.
  split.
  - intros r [s a] out Hr [Hok Hwf]. simpl in *. unfold on_alloc, zoom. simpl.
    pose proof (law_acquire r a out Hr Hok) as H. destruct (sa_acquire A0 r a); [| |done].
    + destruct H as (H & Hrest). by split.
    + destruct H. by split.
  - intros b [s a] out [Hok Hwf]. simpl in *. unfold on_alloc, zoom. simpl.
    destruct (law_release b a out Hok) as (a' & E & H). rewrite E. by eexists.
  - intros b [s a] out [Hok Hwf]. simpl in *. unfold on_alloc, zoom. simpl.
    pose proof (law_context b a out Hok) as H. by destruct (sa_beforeContextCreate A0 b a).
  - intros out out' [s a] Hp [Hok Hwf]. split; [|done]. by eapply law_perm.
  - intros out [s a] [Hok Hwf]. by eapply law_disjoint.
Qed.

(** ** The cache *)

Definition cached (s : Scheduler) : list Z := mjoin (callbackFiberCache <$> workerQueues_ s).

Definition bytes_of (m : gmap Z fiber) (f : Z) : Z :=
  match m !! f with Some o => allocationSize (stackBlock_ o) | None => 0 end.

Definition reusable (s : Scheduler) (m : gmap Z fiber) (i : nat) (f : Z) : Prop :=
  exists o, m !! f = Some o /\
    IsReusableSchedulerCallback (Scheduler.schedulerOwnerId_ s) (Z.of_nat i) o = true.

Record cache_ok (s : Scheduler) (m : gmap Z fiber) : Prop := {
  cc_limit : forall i q, workerQueues_ s !! i = Some q ->
    Z.of_nat (length (callbackFiberCache q)) <= callbackFiberCachePerWorker s;
  cc_reusable : forall i q f, workerQueues_ s !! i = Some q -> f ∈ callbackFiberCache q ->
    reusable s m i f;
  cc_nodup : NoDup (cached s);
  cc_count : callbackCachedCount_ (reuse s) = u64 (Z.of_nat (length (cached s)));
  cc_bytes : callbackCachedBytes_ (reuse s) = u64 (zsum (bytes_of m) (cached s)) }.

Lemma cached_elem s f : f ∈ cached s <-> exists i q, workerQueues_ s !! i = Some q /\ f ∈ callbackFiberCache q.
Proof.
  unfold cached. rewrite list_elem_of_join. split.
  - intros (l & Hf & (q & -> & Hq)%list_elem_of_fmap). apply list_elem_of_lookup in Hq as [i Hi]. eauto.
  - intros (i & q & Hi & Hf). exists (callbackFiberCache q). split; [done|].
    apply list_elem_of_fmap. exists q. split; [done|]. by eapply list_elem_of_lookup_2.
Qed.

Lemma cached_TERM s m f : cache_ok s m -> f ∈ cached s ->
  exists o, m !! f = Some o /\ state_ o = TERM /\ isMainFiber_ o = false.
Proof.
  intros Hc (i & q & Hi & Hf)%cached_elem. destruct (cc_reusable _ _ Hc i q f Hi Hf) as (o & Ho & Hr).
  exists o. split; [done|]. unfold IsReusableSchedulerCallback in Hr. to_prop.
  split; [by eapply bool_decide_eq_true|done].
Qed.

Lemma zsum_ext {B} (f g : B -> Z) l : (forall x, x ∈ l -> f x = g x) -> zsum f l = zsum g l.
Proof.
  induction l as [|x l IH]; intros H; [done|]. rewrite !zsum_cons, (H x) by left.
  f_equal. apply IH. intros; apply H; by right.
Qed.

(** Changes to fibers outside the cache do not matter. *)
Lemma cache_ok_fibers s m m' :
  cache_ok s m -> (forall f, f ∈ cached s -> m' !! f = m !! f) -> cache_ok s m'.
Proof.
  intros [] Hm. split; try done.
  - intros i q f Hi Hf. destruct (cc_reusable0 i q f Hi Hf) as (o & Ho & Hr). exists o.
    split; [|done]. rewrite Hm; [done|]. apply cached_elem. eauto.
  - rewrite cc_bytes0. f_equal. apply zsum_ext. intros f Hf. unfold bytes_of. by rewrite Hm.
Qed.

Lemma cache_ok_insert s m f o :
  cache_ok s m -> f ∉ cached s -> cache_ok s (<[f := o]> m).
Proof.
  intros Hc Hf. eapply cache_ok_fibers; [done|]. intros g Hg. apply lookup_insert_ne. set_solver.
Qed.

(** Queue operations do not touch the caches. *)
Lemma view_cached s s' : view s' = view s -> cached s' = cached s.
Proof. intros [= H _ _ _ _ _]. unfold cached. by rewrite H. Qed.

Lemma cache_ok_same s s' m :
  callbackFiberCache <$> workerQueues_ s' = callbackFiberCache <$> workerQueues_ s ->
  callbackFiberCachePerWorker s' = callbackFiberCachePerWorker s ->
  Scheduler.schedulerOwnerId_ s' = Scheduler.schedulerOwnerId_ s -> reuse s' = reuse s ->
  cache_ok s m -> cache_ok s' m.
Proof.
  intros E E1 E2 E3 [Hl Hr Hn Hc Hb].
  assert (Hca : cached s' = cached s) by (unfold cached; by rewrite E).
  assert (Hq : forall i q', workerQueues_ s' !! i = Some q' ->
    exists q, workerQueues_ s !! i = Some q /\ callbackFiberCache q' = callbackFiberCache q).
  { intros i q' Hi.
    assert (H : (callbackFiberCache <$> workerQueues_ s') !! i = (callbackFiberCache <$> workerQueues_ s) !! i)
      by by rewrite E.
    rewrite !list_lookup_fmap, Hi in H. destruct (workerQueues_ s !! i) as [q|]; [|done].
    simpl in H. exists q. naive_solver. }
  split.
  - intros i q' Hi. destruct (Hq i q' Hi) as (q & Hq' & ->). rewrite E1. eauto.
  - intros i q' f Hi Hf. destruct (Hq i q' Hi) as (q & Hq' & Hcq).
    rewrite Hcq in Hf. unfold reusable. rewrite E2. by eapply Hr.
  - by rewrite Hca.
  - by rewrite Hca, E3.
  - by rewrite Hca, E3.
Qed.

Lemma cache_ok_view s s' m : view s' = view s -> cache_ok s m -> cache_ok s' m.
Proof. intros Hv. pose proof Hv as [= E _ _ E1 E2 E3 _]. by apply cache_ok_same. Qed.

Lemma join_insert {B} (l : list (list B)) i x x' :
  l !! i = Some x -> x ++ mjoin (<[i := x']> l) ≡ₚ x' ++ mjoin l.
Proof.
  revert i. induction l as [|y l IH]; intros [|i] H; simplify_eq/=.
  - by rewrite !app_assoc, (Permutation_app_comm x).
  - specialize (IH i H). rewrite !app_assoc, (Permutation_app_comm _ y), <- !app_assoc, IH,
      !app_assoc, (Permutation_app_comm _ y). done.
Qed.

(** The caches after one of them is replaced. *)
Lemma cached_put i q x s :
  workerQueues_ s !! Z.to_nat i = Some q ->
  callbackFiberCache q ++ cached (put i (set_cache x q) s) ≡ₚ x ++ cached s.
Proof.
  intros Hq. unfold cached, put. simpl. rewrite list_fmap_insert. simpl. apply join_insert.
  by rewrite list_lookup_fmap, Hq.
Qed.

(** ** Fiber operations leave the scheduler alone *)

Definition keeps_sched {R} (m : M W R) : Prop := forall w,
  match m w with Ret _ w' | Throw _ w' => sched w' = sched w | Crash _ => True end.

Lemma keeps_bind {R T} (m : M W R) (k : R -> M W T) :
  keeps_sched m -> (forall a, keeps_sched (k a)) -> keeps_sched (m ≫= k).
Proof.
  intros Hm Hk w. unfold mbind, M_bind. specialize (Hm w). destruct (m w) as [a w1|e w1|]; try done.
  specialize (Hk a w1). destruct (k a w1); try done; congruence.
Qed.

Lemma keeps_try {R} (m : M W R) h :
  keeps_sched m -> (forall e, keeps_sched (h e)) -> keeps_sched (try_catch m h).
Proof.
  intros Hm Hk w. unfold try_catch. specialize (Hm w). destruct (m w) as [a w1|e w1|]; try done.
  specialize (Hk e w1). destruct (h e w1); try done; congruence.
Qed.

Lemma keeps_if {R} (b : bool) (m n : M W R) :
  keeps_sched m -> keeps_sched n -> keeps_sched (if b then m else n).
Proof. by destruct b. Qed.

Lemma keeps_alloc {R} (m : M S0 R) : keeps_sched (with_allocator (on_alloc m)).
Proof. intros w. unfold with_allocator, on_alloc, zoom. by destruct (m _). Qed.

Lemma keeps_load f : keeps_sched (load f).
Proof. intros w. unfold load. by destruct (fibers w !! f). Qed.

Ltac keeps :=
  repeat first
    [ apply keeps_alloc | apply keeps_load | by intros ? | by (intros w; unfold CondPanic; case_match)
    | apply keeps_bind; [|intros ?] | apply keeps_try; [|intros ?] | apply keeps_if
    | progress unfold update, store, next_id, SetThis, gets, throw, stop ].

Lemma keeps_Fiber_delete f : keeps_sched (Fiber_delete (A A0) f).
Proof. unfold Fiber_delete, ReleaseStack. keeps. Qed.

Lemma keeps_reset f cb : keeps_sched (reset (A A0) f cb).
Proof. unfold reset, CreateContext, context_allocate. keeps. Qed.

Lemma keeps_Fiber_new p cb sz ris : keeps_sched (Fiber_new (A A0) p cb sz ris).
Proof. unfold Fiber_new, CreateContext, context_allocate, ReleaseStack. keeps. Qed.

(** ** The worker's world *)

Record winv (w : W) : Prop := {
  wi_inv : inv ok w;
  wi_tls : tls_ok w;
  wi_cache : cache_ok (sched w) (fibers w) }.

Lemma winv_wf w : winv w -> wf (sched w).
Proof. intros [[] _ _]. by destruct inv_stacks. Qed.

Lemma inv_set_sched w s : inv ok w -> wf s -> inv ok (set_sched s w).
Proof. intros [H1 [H2 _] H3] Hs. by split. Qed.

Lemma with_sched_eq {R} (m : M Scheduler R) (w : W) :
  with_sched m w = match m (sched w) with
                   | Ret a s => Ret a (set_sched s w)
                   | Throw e s => Throw e (set_sched s w)
                   | Crash c => Crash c
                   end.
Proof. done. Qed.

Lemma winv_view w s : winv w -> wf s -> view s = view (sched w) -> winv (set_sched s w).
Proof.
  intros [Hi Ht Hc] Hs Hv. split; [by apply inv_set_sched|done|]. by eapply cache_ok_view.
Qed.

(** Client code also leaves the caches and the number of workers alone. *)
Class WorkerCodeLaws (code : Z -> M W segment) : Prop := {
  wcl_code :: CodeLaws ok code;
  wcl_cache : forall f w o, winv w -> fibers w !! f = Some o -> state_ o = RUNNING ->
    isMainFiber_ o = false -> cur_fiber w = Some f ->
    match code f w with
    | Ret _ w' => cache_ok (sched w') (fibers w') /\
                  worker_count (sched w') = worker_count (sched w)
    | _ => True
    end }.

Context (code : Z -> M W segment) `{HW : !WorkerCodeLaws code}.
Context (use_count : Z -> W -> Z).
(** A suspended fiber is owned by what will wake it, besides its worker. *)
Hypothesis suspended_owned : forall f w o,
  fibers w !! f = Some o -> state_ o = READY -> use_count f w <> 1.

Lemma ready_not_cached w f o :
  winv w -> fibers w !! f = Some o -> state_ o <> TERM -> f ∉ cached (sched w).
Proof.
  intros [_ _ Hc] Hf Hs Hin. destruct (cached_TERM _ _ _ Hc Hin) as (o' & Ho & Ht & _). congruence.
Qed.

Lemma resume_step f o w :
  winv w -> fibers w !! f = Some o -> state_ o = READY ->
  exists r w', winv w' /\ fibers w' !! f = Some (switched_out r o) /\ (f ∉ cached (sched w')) /\
    worker_count (sched w') = worker_count (sched w) /\
    resume code f w = match r with Throws e => Throw e w' | _ => Ret tt w' end /\
    exists w2, code f (entered f o w) = Ret r w2.
Proof.
  intros Hw Hf Hs. pose proof Hw as [Hi Ht Hc].
  pose proof (inv_fibers _ _ Hi f o Hf) as Ho. simpl in Ho. pose proof (ready_not_main o Ho Hs) as Hm.
  destruct (resume_eq (A A0) ok code f o w Hi Ht Hf Hs) as (r & w2 & Hcode & Hi' & Ht' & E).
  assert (Hnc : f ∉ cached (sched w)) by (eapply ready_not_cached; [done..|by rewrite Hs]).
  assert (Hwe : winv (entered f o w)).
  { split; [by apply (inv_entered (A A0) ok)| |].
    - destruct Ht as (_ & ? & ?). by split_and!.
    - by apply cache_ok_insert. }
  pose proof (wcl_cache f (entered f o w) (running o) Hwe ltac:(apply lookup_insert_eq) eq_refl Hm eq_refl)
    as Hc2. rewrite Hcode in Hc2. destruct Hc2 as [Hc2 Hcnt].
  destruct (switch_in_eq (A A0) ok code f o w Hi Ht Hf Hs Ho) as (r' & w2' & Hcode' & _ & Hf2 & _).
  rewrite Hcode in Hcode'. simplify_eq.
  assert (Hnc2 : f ∉ cached (sched w2')).
  { intros Hin. destruct (cached_TERM _ _ _ Hc2 Hin) as (o' & Ho' & Ht'' & _). by simplify_eq. }
  exists r', (back f o r' w w2'). split_and!; try done.
  - split; [done|done|]. by apply cache_ok_insert.
  - apply lookup_insert_eq.
  - by exists w2'.
Qed.

Lemma resume_caught_step f o w :
  winv w -> fibers w !! f = Some o -> state_ o = READY ->
  exists o' w', resume_caught code f w = Ret tt w' /\ winv w' /\ fibers w' !! f = Some o' /\
    (f ∉ cached (sched w')) /\ isMainFiber_ o' = false /\ (state_ o' = READY \/ state_ o' = TERM) /\
    worker_count (sched w') = worker_count (sched w).
Proof.
  intros Hw Hf Hs. pose proof (inv_fibers _ _ (wi_inv _ Hw) f o Hf) as Ho. simpl in Ho.
  pose proof (ready_not_main o Ho Hs) as Hm.
  destruct (resume_step f o w Hw Hf Hs) as (r & w' & Hw' & Hf' & Hnc & Hcnt & E & _).
  exists (switched_out r o), w'. unfold resume_caught, try_catch. rewrite E.
  split_and!; try done; destruct r; auto.
Qed.

(** ** Caching a finished callback fiber *)

Lemma cache_ok_stats s m g :
  cache_ok s m -> callbackCachedCount_ (g (reuse s)) = callbackCachedCount_ (reuse s) ->
  callbackCachedBytes_ (g (reuse s)) = callbackCachedBytes_ (reuse s) ->
  cache_ok (set_reuse (g (reuse s)) s) m.
Proof. intros [] E1 E2. split; try done; simpl; by rewrite ?E1, ?E2. Qed.

Lemma wf_set_reuse s c : wf s -> wf (set_reuse c s).
Proof. by intros []. Qed.

(** Pushing the reusable fiber [f] to the cache of worker [i]. *)
Lemma cache_ok_push s m i q f o :
  cache_ok s m -> 0 <= i -> workerQueues_ s !! Z.to_nat i = Some q -> m !! f = Some o ->
  IsReusableSchedulerCallback (Scheduler.schedulerOwnerId_ s) i o = true -> f ∉ cached s ->
  Z.of_nat (length (callbackFiberCache q)) < callbackFiberCachePerWorker s ->
  let s1 := put i (set_cache (callbackFiberCache q ++ [f]) q) s in
  cache_ok (set_reuse (add_cached (allocationSize (stackBlock_ o)) (reuse s1)) s1) m.
Proof.
  intros [] Hi Hq Hf Hr Hnc Hlen s1.
  assert (Hcp : cached s1 ≡ₚ f :: cached s).
  { pose proof (cached_put i q (callbackFiberCache q ++ [f]) s Hq) as H. rewrite <- app_assoc in H.
    by apply Permutation_app_inv_l in H. }
  assert (Hlk : forall j q', workerQueues_ s1 !! j = Some q' ->
    (j = Z.to_nat i /\ callbackFiberCache q' = callbackFiberCache q ++ [f]) \/
    (workerQueues_ s !! j = Some q')).
  { intros j q' Hj. simpl in Hj. destruct (decide (j = Z.to_nat i)) as [->|Hne].
    - rewrite list_lookup_insert_eq in Hj by (by eapply lookup_lt_Some). left. by simplify_eq.
    - rewrite list_lookup_insert_ne in Hj by done. by right. }
  split; simpl.
  - intros j q' Hj. destruct (Hlk j q' Hj) as [[-> ->]|H]; [|eauto].
    rewrite length_app. simpl. lia.
  - intros j q' g Hj Hg. destruct (Hlk j q' Hj) as [[-> Hc]|H]; [|by eapply cc_reusable0].
    rewrite Hc in Hg. apply elem_of_app in Hg as [Hg|Hg%list_elem_of_singleton].
    + by eapply cc_reusable0.
    + subst g. exists o. split; [done|]. simpl. by rewrite Z2Nat.id.
  - change (NoDup (cached s1)). rewrite Hcp. by constructor.
  - change (cached (set_reuse _ s1)) with (cached s1). rewrite Hcp. simpl.
    rewrite cc_count0, u64_add_l. f_equal. lia.
  - change (cached (set_reuse _ s1)) with (cached s1). rewrite Hcp, zsum_cons.
    rewrite cc_bytes0, u64_add_l. f_equal. unfold bytes_of at 2. rewrite Hf. lia.
Qed.

Lemma on_stats_eq g (w : W) : on_stats g w = Ret tt (set_sched (set_reuse (g (reuse (sched w))) (sched w)) w).
Proof. done. Qed.

Lemma queue_ok_cache q x : queue_ok q -> queue_ok (set_cache x q).
Proof. by intros []. Qed.

Lemma tryCache_step i f o w :
  winv w -> 0 <= i < worker_count (sched w) -> fibers w !! f = Some o -> f ∉ cached (sched w) ->
  exists b w', tryCacheCallbackFiber use_count i f w = Ret b w' /\ winv w' /\ fibers w' = fibers w /\
    worker_count (sched w') = worker_count (sched w) /\
    (b = false -> f ∉ cached (sched w')).
Proof.
  intros Hw Hi Hf Hnc. pose proof Hw as [Hinv Ht Hc]. pose proof (winv_wf _ Hw) as Hwf.
  destruct (queue_at_in (sched w) i Hi) as (q & Hq & Hat).
  pose proof (proj1 (Forall_lookup _ _) (wf_queues _ Hwf) _ _ Hq) as Hqo. simpl in Hqo.
  unfold tryCacheCallbackFiber. unfold mbind at 1 2, M_bind at 1 2. unfold get.
  rewrite (load_eq w f o Hf).
  destruct (negb (use_count f w =? 1) || negb _) eqn:E1.
  { exists false, w. split_and!; try done. }
  apply orb_false_iff in E1 as [_ E1]. apply negb_false_iff in E1.
  unfold mbind at 1, M_bind at 1. rewrite with_sched_eq, Hat.
  destruct (_ >=? _) eqn:E2.
  - eexists false, _. split; [reflexivity|]. split_and!; try done.
    split; [|done|].
    + apply inv_set_sched; [apply inv_set_sched; [done|done]|]. by apply wf_set_reuse.
    + by apply (cache_ok_stats (sched w)).
  - to_prop. eexists true, _. split; [reflexivity|]. split_and!; try done.
    + split; [|done|].
      * apply inv_set_sched; [apply inv_set_sched; [by apply inv_set_sched|]|].
        -- apply (put_wf i); [done|]. by apply queue_ok_cache.
        -- apply wf_set_reuse, (put_wf i); [done|]. by apply queue_ok_cache.
      * by apply (cache_ok_push (sched w) (fibers w) i q f o Hc ltac:(lia) Hq Hf E1 Hnc).
    + unfold worker_count. simpl. by rewrite length_insert.
Qed.

(** ** Letting a fiber go *)

Lemma delete_step f o w :
  winv w -> fibers w !! f = Some o -> isMainFiber_ o = false -> state_ o = TERM ->
  f ∉ cached (sched w) ->
  exists w', Fiber_delete (A A0) f w = Ret tt w' /\ winv w' /\ sched w' = sched w /\
    fibers w' = delete f (fibers w).
Proof using HA0.
  intros [Hi Ht Hc] Hf Hm Hs Hnc.
  destruct (Fiber_delete_eq (A A0) ok f o w Hi Hf Hm Hs) as (w' & E & Hi' & Hf' & Ht').
  assert (Hsch : sched w' = sched w).
  { pose proof (keeps_Fiber_delete f w) as H. by rewrite E in H. }
  exists w'. split_and!; try done. split; [done|auto|]. rewrite Hsch, Hf'.
  eapply cache_ok_fibers; [done|]. intros g Hg. apply lookup_delete_ne. by intros <-.
Qed.

Lemma finish_step i f o w :
  winv w -> 0 <= i < worker_count (sched w) -> fibers w !! f = Some o -> f ∉ cached (sched w) ->
  isMainFiber_ o = false -> (state_ o = READY \/ state_ o = TERM) ->
  exists w', finish_fiber A0 use_count i f w = Ret tt w' /\ winv w' /\
    worker_count (sched w') = worker_count (sched w).
Proof.
  intros Hw Hi Hf Hnc Hm Hs. destruct (tryCache_step i f o w Hw Hi Hf Hnc) as (b & w1 & E & Hw1 & Hf1 & Hc1 & Hn1).
  unfold finish_fiber. unfold mbind, M_bind. rewrite E. destruct b; [by exists w1|].
  unfold drop_reference, mbind, M_bind, get. destruct (use_count f w1 =? 1) eqn:Eu; [|by exists w1].
  to_prop. rewrite <- Hf1 in Hf. destruct Hs as [Hs|Hs]; [by destruct (suspended_owned _ _ _ Hf Hs)|].
  destruct (delete_step f o w1 Hw1 Hf Hm Hs (Hn1 eq_refl)) as (w2 & E2 & Hw2 & Hs2 & _).
  exists w2. split; [done|]. split; [done|]. by rewrite Hs2.
Qed.

Lemma run_fiber_step i f o w :
  winv w -> 0 <= i < worker_count (sched w) -> fibers w !! f = Some o -> state_ o = READY ->
  exists w', run_fiber A0 code use_count i f w = Ret tt w' /\ winv w'.
Proof.
  intros Hw Hi Hf Hs. unfold run_fiber.
  destruct (resume_caught_step f o w Hw Hf Hs) as (o' & w1 & E1 & Hw1 & Hf1 & Hn1 & Hm1 & Hs1 & Hc1).
  destruct (finish_step i f o' w1 Hw1) as (w2 & E2 & Hw2 & _); try done; [by rewrite Hc1|].
  exists w2. split; [|done]. eapply bind_load; [done|]. eapply bind_panic; [by apply bool_decide_eq_true|].
  by eapply bind_ret; [exact E1|].
Qed.

(** ** A fiber for a callback *)

(** Taking the last fiber out of the cache of worker [i]. *)
Lemma cache_ok_pop s m i q rest f :
  cache_ok s m -> workerQueues_ s !! Z.to_nat i = Some q -> callbackFiberCache q = rest ++ [f] ->
  let s1 := put i (set_cache rest q) s in
  let s2 := set_reuse (sub_bytes (bytes_of m f) (count_hit (reuse s1))) s1 in
  cache_ok s2 m /\ f ∉ cached s2.
Proof.
  intros [] Hq Hc s1 s2.
  assert (Hcp : cached s ≡ₚ f :: cached s1).
  { pose proof (cached_put i q rest s Hq) as H. rewrite Hc, <- app_assoc in H.
    apply Permutation_app_inv_l in H. by symmetry. }
  assert (Hlk : forall j q', workerQueues_ s1 !! j = Some q' ->
    exists q0, workerQueues_ s !! j = Some q0 /\ (forall g, g ∈ callbackFiberCache q' -> g ∈ callbackFiberCache q0) /\
      (length (callbackFiberCache q') <= length (callbackFiberCache q0))%nat).
  { intros j q' Hj. simpl in Hj. destruct (decide (j = Z.to_nat i)) as [->|Hne].
    - rewrite list_lookup_insert_eq in Hj by (by eapply lookup_lt_Some). simplify_eq. exists q.
      rewrite Hc, length_app. split; [done|]. simpl. split; [|lia]. intros g Hg. apply elem_of_app. by left.
    - rewrite list_lookup_insert_ne in Hj by done. by exists q'. }
  rewrite Hcp in cc_nodup0. apply NoDup_cons in cc_nodup0 as [Hnin Hnd].
  split; [|done]. split; simpl.
  - intros j q' Hj. destruct (Hlk j q' Hj) as (q0 & H0 & _ & Hle). specialize (cc_limit0 j q0 H0). lia.
  - intros j q' g Hj Hg. destruct (Hlk j q' Hj) as (q0 & H0 & Hin & _). apply (cc_reusable0 j q0 g H0). auto.
  - done.
  - rewrite cc_count0, Hcp, u64_sub_l. change (cached s2) with (cached s1). f_equal. simpl. lia.
  - rewrite cc_bytes0, Hcp, zsum_cons, u64_sub_l. change (cached s2) with (cached s1). f_equal. lia.
Qed.

Definition acquired (i : Z) (w : W) (r : outcome W Z) : Prop :=
  match r with
  | Ret f w' => winv w' /\ worker_count (sched w') = worker_count (sched w) /\
      exists o, fibers w' !! f = Some o /\ state_ o = READY
  | Throw _ w' => winv w' /\ worker_count (sched w') = worker_count (sched w)
  | Crash _ => False
  end.

(** The hit: the fiber is reset; if that throws, it is destroyed. *)
Lemma reset_step f cb o w :
  winv w -> fibers w !! f = Some o -> isMainFiber_ o = false -> state_ o = TERM ->
  f ∉ cached (sched w) ->
  acquired 0 w ((try_catch (reset (A A0) f cb) (fun e => Fiber_delete (A A0) f;; throw e);; mret f) w).
Proof.
  intros Hw Hf Hm Hs Hnc. pose proof Hw as [Hinv Ht Hc].
  pose proof (reset_eq (A A0) ok f cb o w Hinv Hf Hm Hs) as HR.
  pose proof (keeps_reset f cb w) as HK. unfold mbind at 1, M_bind at 1, try_catch.
  destruct (reset (A A0) f cb w) as [[] w1|e w1|]; [| |done]; destruct HR as (Hi1 & Ht1 & Hf1).
  - unfold acquired, mret, M_ret. split; [|split; [by rewrite HK|]].
    + split; [done|auto|]. rewrite HK, Hf1. by apply cache_ok_insert.
    + eexists. rewrite Hf1, lookup_insert_eq. split; [reflexivity|done].
  - assert (Hw1 : winv w1) by (split; [done|auto|]; by rewrite HK, Hf1).
    destruct (delete_step f o w1 Hw1) as (w2 & E2 & Hw2 & Hs2 & _); try done; [by rewrite Hf1|by rewrite HK|].
    unfold mbind, M_bind. rewrite E2. unfold acquired, throw. split; [done|]. by rewrite Hs2, HK.
Qed.

Lemma acquire_hit p i cb w q rest f :
  winv w -> 0 <= i < worker_count (sched w) -> workerQueues_ (sched w) !! Z.to_nat i = Some q ->
  callbackFiberCache q = rest ++ [f] -> acquired i w (acquireCallbackFiber A0 p i cb w).
Proof.
  intros Hw Hi Hq Hrest. pose proof Hw as [Hinv Ht Hc]. pose proof (winv_wf _ Hw) as Hwf.
  pose proof (proj1 (Forall_lookup _ _) (wf_queues _ Hwf) _ _ Hq) as Hqo. simpl in Hqo.
  assert (Hin : f ∈ cached (sched w)).
  { apply cached_elem. exists (Z.to_nat i), q. split; [done|]. rewrite Hrest. apply elem_of_app. right. left. }
  destruct (cached_TERM _ _ _ Hc Hin) as (o & Hf & Hs & Hm).
  destruct (cache_ok_pop (sched w) (fibers w) i q rest f Hc Hq Hrest) as [Hc2 Hn2].
  set (s1 := put i (set_cache rest q) (sched w)) in *.
  set (s2 := set_reuse (sub_bytes (bytes_of (fibers w) f) (count_hit (reuse s1))) s1) in *.
  assert (Hwf2 : wf s2) by (apply wf_set_reuse, (put_wf i); [done|]; by apply queue_ok_cache).
  set (w2 := set_sched s2 w).
  assert (Hw2 : winv w2) by (split; [by apply inv_set_sched|done|done]).
  assert (E : acquireCallbackFiber A0 p i cb w =
    (try_catch (reset (A A0) f cb) (fun e => Fiber_delete (A A0) f;; throw e);; mret f) w2).
  { unfold acquireCallbackFiber. eapply bind_ret.
    { rewrite with_sched_eq, (queue_at_eq i (sched w) q Hq) by lia. reflexivity. }
    rewrite (proj2 (unsnoc_Some _ rest f)) by done.
    eapply bind_ret; [reflexivity|]. eapply bind_ret; [reflexivity|].
    eapply bind_load; [exact Hf|]. eapply bind_ret; [reflexivity|].
    unfold w2, s2, bytes_of. rewrite Hf. done. }
  pose proof (reset_step f cb o w2 Hw2 Hf Hm Hs Hn2) as HR. rewrite <- E in HR.
  assert (Hcnt : worker_count (sched w2) = worker_count (sched w)) by apply (put_count i).
  unfold acquired in *. rewrite Hcnt in HR. by destruct (acquireCallbackFiber A0 p i cb w).
Qed.

(** The miss: a new fiber, marked as the scheduler's. *)
Lemma acquire_miss p i cb w q :
  winv w -> 0 <= i < worker_count (sched w) -> workerQueues_ (sched w) !! Z.to_nat i = Some q ->
  callbackFiberCache q = [] -> fibers w !! p = None ->
  acquired i w (acquireCallbackFiber A0 p i cb w).
Proof.
  intros Hw Hi Hq Hrest Hp. pose proof Hw as [Hinv Ht Hc]. pose proof (winv_wf _ Hw) as Hwf.
  set (s1 := set_reuse (count_miss (reuse (sched w))) (sched w)). set (w1 := set_sched s1 w).
  assert (Hw1 : winv w1).
  { split; [by apply inv_set_sched, wf_set_reuse|done|]. by apply (cache_ok_stats (sched w)). }
  assert (E : acquireCallbackFiber A0 p i cb w =
    (f ← Fiber_new (A A0) p cb 0 true; w ← get;
     update f (MarkSchedulerCallback (Scheduler.schedulerOwnerId_ (sched w)) i);; mret f) w1).
  { unfold acquireCallbackFiber. eapply bind_ret.
    { rewrite with_sched_eq, (queue_at_eq i (sched w) q Hq) by lia. reflexivity. }
    rewrite Hrest. simpl unsnoc. cbv iota. by eapply bind_ret; [reflexivity|]. }
  rewrite E. pose proof (Fiber_new_spec (A A0) ok p cb 0 true w1 (wi_inv _ Hw1) Hp ltac:(lia)) as HN.
  pose proof (keeps_Fiber_new p cb 0 true w1) as HK. unfold mbind at 1, M_bind at 1.
  destruct (Fiber_new (A A0) p cb 0 true w1) as [f w2|e w2|]; [| |done].
  - destruct HN as (-> & [Hi2 (o & Hf2 & Hs & Hcb & _ & _) Ht2]).
    assert (Hlk : fibers w2 !! p = Some o) by (rewrite Hf2; apply lookup_insert_eq).
    pose proof (inv_fibers _ _ Hi2 p o Hlk) as Ho. simpl in Ho. pose proof (ready_not_main o Ho Hs) as Hm.
    assert (Hpn : p ∉ cached (sched w)).
    { intros Hin. destruct (cached_TERM _ _ _ Hc Hin) as (? & ? & _). congruence. }
    unfold mbind, M_bind, get. rewrite (update_eq w2 p _ o Hlk). unfold acquired, mret, M_ret.
    split; [|split].
    + split.
      * by eapply (inv_update (A A0) ok).
      * destruct (Ht2 Ht) as (? & ? & ?). by split_and!.
      * simpl. rewrite Hf2, insert_insert_eq. change (cache_ok (sched w2) (<[p := MarkSchedulerCallback (Scheduler.schedulerOwnerId_ (sched w2)) i o]> (fibers w1))).
        rewrite HK. apply cache_ok_insert; [apply Hw1|done].
    + change (worker_count (sched w2) = worker_count (sched w)). by rewrite HK.
    + eexists. simpl. rewrite lookup_insert_eq. split; [reflexivity|done].
  - destruct HN as (Hi2 & Hf2 & _ & Ht2). unfold acquired. split; [|by rewrite HK].
    split; [done|auto|]. rewrite HK, Hf2. apply Hw1.
Qed.

Lemma acquire_step p i cb w :
  winv w -> 0 <= i < worker_count (sched w) -> fibers w !! p = None ->
  acquired i w (acquireCallbackFiber A0 p i cb w).
Proof.
  intros Hw Hi Hp. destruct (queue_at_in (sched w) i Hi) as (q & Hq & _).
  destruct (unsnoc (callbackFiberCache q)) as [[rest f]|] eqn:Eu.
  - apply unsnoc_Some in Eu. by eapply acquire_hit.
  - apply unsnoc_None in Eu. by eapply acquire_miss.
Qed.

Lemma run_callback_step p i cb w :
  winv w -> 0 <= i < worker_count (sched w) -> fibers w !! p = None ->
  exists w', run_callback A0 code use_count p i cb w = Ret tt w' /\ winv w'.
Proof.
  intros Hw Hi Hp. pose proof (acquire_step p i cb w Hw Hi Hp) as HA.
  unfold run_callback, mbind, M_bind, try_catch, mret, M_ret.
  destruct (acquireCallbackFiber A0 p i cb w) as [f w1|e w1|]; [| |done]; simpl in HA.
  - destruct HA as (Hw1 & Hc1 & o & Hf & Hs).
    destruct (resume_caught_step f o w1 Hw1 Hf Hs) as (o' & w2 & E2 & Hw2 & Hf2 & Hn2 & Hm2 & Hs2 & Hc2).
    rewrite E2. destruct (finish_step i f o' w2 Hw2) as (w3 & E3 & Hw3 & _); try done.
    + by rewrite Hc2, Hc1.
    + by exists w3.
  - destruct HA. by exists w1.
Qed.

(** ** One round *)

Lemma set_active_step i b w :
  winv w -> 0 <= i < worker_count (sched w) ->
  exists q w', workerQueues_ (sched w) !! Z.to_nat i = Some q /\
    set_worker_active i b w = Ret tt w' /\ winv w' /\ fibers w' = fibers w /\
    worker_count (sched w') = worker_count (sched w) /\
    workerQueues_ (sched w') !! Z.to_nat i = Some (set_active b q) /\
    all_tasks (sched w') ≡ₚ all_tasks (sched w).
Proof.
  intros Hw Hi. pose proof Hw as [Hinv Ht Hc]. pose proof (winv_wf _ Hw) as Hwf.
  destruct (queue_at_in (sched w) i Hi) as (q & Hq & Hat).
  pose proof (proj1 (Forall_lookup _ _) (wf_queues _ Hwf) _ _ Hq) as Hqo. simpl in Hqo.
  assert (Hqo' : queue_ok (set_active b q)) by by destruct Hqo.
  exists q, (set_sched (put i (set_active b q) (sched w)) w). split; [done|]. split.
  { unfold set_worker_active. rewrite with_sched_eq. unfold mbind, M_bind. by rewrite Hat. }
  split; [|split_and!; try done].
  - split; [apply inv_set_sched; [done|]; by apply put_wf|done|].
    eapply cache_ok_same; [..|exact Hc]; try done. simpl. rewrite list_fmap_insert.
    apply list_insert_id. by rewrite list_lookup_fmap, Hq.
  - apply put_count.
  - by eapply put_lookup.
  - pose proof (all_tasks_insert _ _ _ (set_active b q) Hq) as H. by apply Permutation_app_inv_l in H.
Qed.

(** The fiber of the idle loop. *)
Definition idle_ok (w : W) (idle : Z) (oi : fiber) : Prop :=
  fibers w !! idle = Some oi /\ (state_ oi = READY \/ state_ oi = TERM).

Lemma winv_sched w s :
  winv w -> wf s -> callbackFiberCache <$> workerQueues_ s = callbackFiberCache <$> workerQueues_ (sched w) ->
  callbackFiberCachePerWorker s = callbackFiberCachePerWorker (sched w) ->
  Scheduler.schedulerOwnerId_ s = Scheduler.schedulerOwnerId_ (sched w) -> reuse s = reuse (sched w) ->
  winv (set_sched s w).
Proof.
  intros [Hi Ht Hc] Hs E1 E2 E3 E4. split; [by apply inv_set_sched|done|].
  by eapply cache_ok_same.
Qed.

(** The exception is one of the idle fiber's code. *)
Definition idle_throws (idle : Z) (e : exn) : Prop := exists w1 w2, code idle w1 = Ret (Throws e) w2.

(** The round finds no task to run. *)
Definition takes_nothing (me : thread) (i : Z) (w : W) : Prop :=
  exists (w1 : W) (r : option SchedulerTask) (w2 : W), set_worker_active i true w = Ret tt w1 /\ with_sched (tryTakeTask me i) w1 = Ret r w2 /\
    match r with Some (Task (Some _) _ _) | Some (Task None (Some _) _) => False | _ => True end.

Lemma run_idle_step i idle oi w :
  winv w -> 0 <= i < worker_count (sched w) -> idle_ok w idle oi ->
  match run_idle code i idle w with
  | Ret b w' => winv w' /\ (b = false <-> state_ oi = TERM)
  | Throw e w' => winv w' /\ state_ oi = READY /\ idle_throws idle e
  | Crash _ => False
  end.
Proof.
  intros Hw Hi [Hf Hs].
  destruct (set_active_step i false w Hw Hi) as (q & w1 & Hq & E1 & Hw1 & Hf1 & Hc1 & _ & _).
  unfold run_idle. unfold mbind at 1 2, M_bind at 1 2. rewrite E1.
  rewrite (load_eq w1 idle oi) by (by rewrite Hf1).
  destruct Hs as [Hs|Hs]; [|rewrite bool_decide_eq_true_2 by done; done].
  rewrite bool_decide_eq_false_2 by congruence. unfold mbind at 1 2, M_bind at 1 2. unfold get.
  assert (H2 : exists w2, (if hasPendingTasks (sched w1) then with_sched tickle else mret tt) w1 = Ret tt w2 /\
    winv w2 /\ fibers w2 = fibers w1).
  { destruct (hasPendingTasks (sched w1)); [|by exists w1]. eexists. split; [reflexivity|]. split; [|done].
    apply winv_sched; try done. pose proof (winv_wf _ Hw1) as []. by split. }
  destruct H2 as (w2 & E2 & Hw2 & Hf2). rewrite E2.
  set (w3 := set_sched (set_idleCnt (u64 (idleThreadCnt_ (sched w2) + 1)) (sched w2)) w2).
  assert (Hw3 : winv w3).
  { apply winv_sched; try done. pose proof (winv_wf _ Hw2) as []. by split. }
  unfold mbind at 1 2, M_bind at 1 2. rewrite with_sched_eq. unfold modify at 1. fold w3.
  destruct (resume_step idle oi w3 Hw3) as (r & w4 & Hw4 & _ & _ & _ & E4 & w5 & E5); [|done|].
  { change (fibers w2 !! idle = Some oi). by rewrite Hf2, Hf1. }
  rewrite E4. destruct r as [| |e]; simpl; rewrite Hs; [split; [|done] ..|split_and!; [done|done|by eexists _, _]].
  all: apply winv_sched; try done; pose proof (winv_wf _ Hw4) as []; by split.
Qed.

(** C16. A round of the worker loop survives its tasks.  With the fibers and
    queues intact, every queued fiber suspended, client code that keeps its laws
    and no suspended fiber owned by its worker alone (the destructor of such a fiber
    would stop the process), one round of [Scheduler::run] takes a task it may run
    (or goes idle), runs it, and leaves fibers, queues and caches intact: an exception of a task,
    or the failure to create its fiber, does not leave the round.  An exception that
    does is one of the idle fiber's code, in a round that found no task; and the
    loop ends only in such a round, when the idle fiber has finished. *)
Theorem worker_round_survives me p i idle oi w q :
  winv w -> 0 <= i < worker_count (sched w) -> workerQueues_ (sched w) !! Z.to_nat i = Some q ->
  threadId q <> -1 -> fibers w !! p = None -> idle_ok w idle oi ->
  (forall t f, t ∈ all_tasks (sched w) -> fiber_ t = Some f ->
     exists o, fibers w !! f = Some o /\ state_ o = READY) ->
  match run_round A0 code use_count me p i idle w with
  | Ret b w' => winv w' /\ (b = false -> state_ oi = TERM /\ takes_nothing me i w)
  | Throw e w' => winv w' /\ state_ oi = READY /\ takes_nothing me i w /\ idle_throws idle e
  | Crash _ => False
  end.
Proof.
  intros Hw Hi Hq Htid Hp Hidle Hready.
  destruct (set_active_step i true w Hw Hi) as (q' & w1 & Hq' & E1 & Hw1 & Hf1 & Hc1 & Hq1 & Hall).
  assert (q' = q) as -> by congruence.
  assert (Hi1 : 0 <= i < worker_count (sched w1)) by (by rewrite Hc1).
  destruct (tryTakeTask_spec me i (sched w1) (set_active true q) (winv_wf _ Hw1) Hi1 Hq1 Htid)
    as (r & s2 & E2 & H2).
  unfold run_round. unfold mbind at 1 2, M_bind at 1 2. rewrite E1, with_sched_eq, E2.
  assert (Hw2 : winv (set_sched s2 w1) /\ worker_count s2 = worker_count (sched w)).
  { destruct r as [t|].
    - destruct H2 as (_ & Hwf2 & _ & Hc2 & Hv2). split; [by apply winv_view|]. by rewrite Hc2.
    - destruct H2 as [[->|[x ->]] _]; (split; [|done]).
      + apply winv_view; [done|by apply winv_wf|done].
      + apply winv_view; [done| |done]. pose proof (winv_wf _ Hw1) as []. by split. }
  destruct Hw2 as [Hw2 Hc2].
  assert (Hi2 : 0 <= i < worker_count (sched (set_sched s2 w1))) by (unfold sched at 1; simpl; by rewrite Hc2).
  assert (Hidle2 : idle_ok (set_sched s2 w1) idle oi).
  { destruct Hidle as [? ?]. split; [|done]. change (fibers w1 !! idle = Some oi). by rewrite Hf1. }
  assert (Hgo : match r with Some (Task (Some _) _ _) | Some (Task None (Some _) _) => False | _ => True end ->
    match run_idle code i idle (set_sched s2 w1) with
    | Ret b w' => winv w' /\ (b = false -> state_ oi = TERM /\ takes_nothing me i w)
    | Throw e w' => winv w' /\ state_ oi = READY /\ takes_nothing me i w /\ idle_throws idle e | Crash _ => False end).
  { intros Hr. assert (takes_nothing me i w) as Hn.
    { exists w1, r, (set_sched s2 w1). rewrite with_sched_eq, E2. done. }
    pose proof (run_idle_step i idle oi _ Hw2 Hi2 Hidle2) as H.
    destruct (run_idle code i idle (set_sched s2 w1)); try done; [destruct H as [? [? _]]; auto|].
    destruct H as (? & ? & ?). auto. }
  destruct r as [[[f|] [cb|] th]|]; try exact (Hgo I).
  1, 2: destruct H2 as (Hp2 & _);
    destruct (Hready _ f (ltac:(rewrite <- Hall, Hp2; left)) eq_refl) as (o & Hf & Hs);
    destruct (run_fiber_step i f o (set_sched s2 w1) Hw2 Hi2) as (w3 & E3 & Hw3);
      [change (fibers w1 !! f = Some o); by rewrite Hf1|done|]; unfold mbind, M_bind; rewrite E3; done.
  destruct (run_callback_step p i cb (set_sched s2 w1) Hw2 Hi2) as (w3 & E3 & Hw3);
    [change (fibers w1 !! p = None); by rewrite Hf1|]. unfold mbind, M_bind. rewrite E3. done.
Qed.

(** ** Clearing the caches *)

Definition uncounted (m : gmap Z fiber) (l : list Z) (c : cache_stats) : cache_stats :=
  CacheStats (callbackCacheHits_ c) (callbackCacheMisses_ c) (callbackCacheEvictions_ c)
    (u64 (callbackCachedCount_ c - Z.of_nat (length l))) (u64 (callbackCachedBytes_ c - zsum (bytes_of m) l)).

Lemma uncount_eq l : forall w : W,
  (forall f, f ∈ l -> is_Some (fibers w !! f)) ->
  callbackCachedCount_ (reuse (sched w)) = u64 (callbackCachedCount_ (reuse (sched w))) ->
  callbackCachedBytes_ (reuse (sched w)) = u64 (callbackCachedBytes_ (reuse (sched w))) ->
  uncount_cached l w = Ret tt (set_sched (set_reuse (uncounted (fibers w) l (reuse (sched w))) (sched w)) w).
Proof.
  induction l as [|f l IH]; intros w Hl Hc Hb; simpl.
  - unfold mret, M_ret, uncounted. f_equal. simpl. rewrite !Z.sub_0_r, <- Hc, <- Hb.
    destruct w as [? ? ? ? ? ? [sc a]]. unfold set_sched, sched. simpl. by destruct sc as [? ? ? ? [] ? ? ? ? ? ? ? ?].
  - destruct (Hl f ltac:(left)) as [o Hf]. eapply bind_load; [exact Hf|].
    eapply bind_ret; [apply on_stats_eq|].
    rewrite IH; [|intros g Hg; apply Hl; by right|by simpl; rewrite u64_idem..].
    unfold set_sched, set_allocator, set_reuse. simpl. do 4 f_equal.
    unfold uncounted, sub_cached. simpl. rewrite zsum_cons, !u64_sub_l. unfold bytes_of at 2. rewrite Hf.
    f_equal; apply (f_equal u64); unfold env; lia.
Qed.

Lemma delete_fibers_step l : forall w,
  winv w -> NoDup l -> (forall f, f ∈ l -> f ∉ cached (sched w)) ->
  (forall f, f ∈ l -> exists o, fibers w !! f = Some o /\ isMainFiber_ o = false /\ state_ o = TERM) ->
  exists w', delete_fibers A0 l w = Ret tt w' /\ winv w' /\ sched w' = sched w /\
    (forall f, fibers w' !! f = if decide (f ∈ l) then None else fibers w !! f).
Proof.
  induction l as [|f l IH]; intros w Hw Hnd Hnc Hl; simpl.
  { exists w. split_and!; done. }
  apply NoDup_cons in Hnd as [Hfl Hnd]. destruct (Hl f ltac:(left)) as (o & Hf & Hm & Hs).
  destruct (delete_step f o w Hw Hf Hm Hs (Hnc f ltac:(left))) as (w1 & E1 & Hw1 & Hs1 & Hf1).
  destruct (IH w1 Hw1 Hnd) as (w2 & E2 & Hw2 & Hs2 & Hf2).
  - intros g Hg. rewrite Hs1. apply Hnc. by right.
  - intros g Hg. destruct (Hl g ltac:(by right)) as (o' & Hg' & ?). exists o'. split; [|done].
    rewrite Hf1, lookup_delete_ne; [done|]. congruence.
  - exists w2. split; [by eapply bind_ret; [exact E1|]|]. split; [done|]. split; [congruence|].
    intros g. rewrite Hf2, Hf1. destruct (decide (g = f)) as [->|Hne].
    + rewrite (decide_False (P := f ∈ l)) by done. rewrite decide_True by left. apply lookup_delete_eq.
    + rewrite lookup_delete_ne by done. destruct (decide (g ∈ l)).
      * by rewrite decide_True by (by right).
      * rewrite decide_False; [done|]. by intros [->|?]%elem_of_cons.
Qed.

(** Dropping the cache of one worker. *)
Lemma clear_one_step i q w :
  winv w -> workerQueues_ (sched w) !! i = Some q ->
  exists w', (uncount_cached (callbackFiberCache q);;
              with_sched (put_queue (Z.of_nat i) (set_cache [] q));;
              delete_fibers A0 (callbackFiberCache q)) w = Ret tt w' /\ winv w' /\
    workerQueues_ (sched w') = <[i := set_cache [] q]> (workerQueues_ (sched w)) /\
    (forall f, fibers w' !! f = if decide (f ∈ callbackFiberCache q) then None else fibers w !! f).
Proof.
  intros Hw Hq. pose proof Hw as [Hinv Ht Hc]. pose proof (winv_wf _ Hw) as Hwf.
  set (l := callbackFiberCache q). set (s := sched w).
  assert (Hin : forall f, f ∈ l -> f ∈ cached s) by (intros f Hf; apply cached_elem; eauto).
  set (w1 := set_sched (set_reuse (uncounted (fibers w) l (reuse s)) s) w).
  assert (E1 : uncount_cached l w = Ret tt w1).
  { apply uncount_eq.
    - intros f Hf. destruct (cached_TERM _ _ _ Hc (Hin f Hf)) as (o & Ho & _). eauto.
    - rewrite (cc_count _ _ Hc). by rewrite u64_idem.
    - rewrite (cc_bytes _ _ Hc). by rewrite u64_idem. }
  set (s2 := put (Z.of_nat i) (set_cache [] q) (sched w1)). set (w2 := set_sched s2 w1).
  assert (Hq' : workerQueues_ s !! Z.to_nat (Z.of_nat i) = Some q) by (by rewrite Nat2Z.id).
  assert (Hcp : cached s ≡ₚ l ++ cached s2).
  { pose proof (cached_put (Z.of_nat i) q [] s Hq') as H. simpl in H. by rewrite <- H. }
  pose proof (cc_nodup _ _ Hc) as Hnd. fold s in Hnd. rewrite Hcp in Hnd.
  apply NoDup_app in Hnd as (Hnd1 & Hdis & Hnd2).
  assert (Hc2 : cache_ok s2 (fibers w)).
  { destruct Hc as [Hl Hr _ Hcnt Hby]. fold s in Hcnt, Hby. split.
    - intros j q' Hj. simpl in Hj. rewrite Nat2Z.id in Hj.
      apply list_lookup_insert_Some in Hj as [(<- & <- & _)|[_ Hj]]; [|by apply (Hl j)].
      specialize (Hl i q Hq). change (0 <= callbackFiberCachePerWorker (sched w)). lia.
    - intros j q' f Hj Hf. simpl in Hj. rewrite Nat2Z.id in Hj.
      apply list_lookup_insert_Some in Hj as [(<- & <- & _)|[_ Hj]]; [by apply not_elem_of_nil in Hf|].
      by apply (Hr j q').
    - done.
    - change (reuse s2) with (uncounted (fibers w) l (reuse s)). simpl. rewrite Hcnt.
      rewrite Hcp, length_app, u64_sub_l. f_equal. lia.
    - change (reuse s2) with (uncounted (fibers w) l (reuse s)). simpl. rewrite Hby.
      rewrite Hcp, zsum_app, u64_sub_l. f_equal. lia. }
  assert (Hw2 : winv w2).
  { split; [|done|done]. apply inv_set_sched; [apply inv_set_sched; [done|by apply wf_set_reuse]|].
    apply put_wf; [by apply wf_set_reuse|]. apply queue_ok_cache.
    exact (proj1 (Forall_lookup _ _) (wf_queues _ Hwf) _ _ Hq). }
  destruct (delete_fibers_step l w2 Hw2 Hnd1 Hdis) as (w3 & E3 & Hw3 & Hs3 & Hf3).
  { intros f Hf. destruct (cached_TERM _ _ _ Hc (Hin f Hf)) as (o & Ho & ? & ?). by exists o. }
  exists w3. split; [eapply bind_ret; [exact E1|]; by eapply bind_ret; [reflexivity|]|].
  split; [done|]. split; [|done]. rewrite Hs3. simpl. by rewrite Nat2Z.id.
Qed.

Lemma clear_caches_step todo : forall w,
  winv w -> (forall j, j ∈ todo -> (j < length (workerQueues_ (sched w)))%nat) ->
  exists w', clear_caches A0 todo w = Ret tt w' /\ winv w' /\
    (forall j q', workerQueues_ (sched w') !! j = Some q' -> exists q, workerQueues_ (sched w) !! j = Some q /\
       callbackFiberCache q' = if decide (j ∈ todo) then [] else callbackFiberCache q) /\
    (forall j q f, j ∈ todo -> workerQueues_ (sched w) !! j = Some q -> f ∈ callbackFiberCache q ->
       fibers w' !! f = None) /\
    (forall f, fibers w !! f = None -> fibers w' !! f = None).
Proof.
  induction todo as [|i todo IH]; intros w Hw Hlt; simpl.
  { exists w. split_and!; try done; [intros j q' Hj; by exists q'|]. by intros j q f ?%not_elem_of_nil. }
  destruct (lookup_lt_is_Some_2 (workerQueues_ (sched w)) i (Hlt i ltac:(left))) as [q Hq].
  destruct (clear_one_step i q w Hw Hq) as (w1 & E1 & Hw1 & Hq1 & Hf1).
  destruct (IH w1 Hw1) as (w2 & E2 & Hw2 & Hk2 & Hd2 & Hn2).
  { intros j Hj. rewrite Hq1, length_insert. apply Hlt. by right. }
  assert (Hnone : forall f, fibers w !! f = None -> fibers w1 !! f = None).
  { intros f Hf. rewrite Hf1. by case_decide. }
  exists w2. split_and!; try done.
  - eapply bind_ret.
    { rewrite with_sched_eq, (queue_at_eq (Z.of_nat i) (sched w) q) by (rewrite ?Nat2Z.id; done || lia). reflexivity. }
    assert (Hsame : set_sched (sched w) w = w) by (destruct w as [? ? ? ? ? ? []]; done).
    rewrite Hsame. revert E1. unfold mbind, M_bind. destruct (uncount_cached _ w) as [? w'|? ?|?]; try done.
    rewrite with_sched_eq. destruct (put_queue _ _ _) as [? s'|? ?|?]; try done.
    destruct (delete_fibers _ _ _) as [? ?|? ?|?]; [|done..]. intros E1. injection E1 as _ ->. exact E2.
  - intros j q' Hj. destruct (Hk2 j q' Hj) as (q2 & Hj2 & Hc). rewrite Hq1 in Hj2.
    apply list_lookup_insert_Some in Hj2 as [(<- & <- & _)|[Hne Hj2]].
    + exists q. split; [done|]. rewrite (decide_True (P := i ∈ i :: todo)) by left.
      rewrite Hc. simpl. by case_decide.
    + exists q2. split; [done|]. rewrite Hc. destruct (decide (j ∈ todo)).
      * by rewrite decide_True by (by right).
      * rewrite decide_False; [done|]. by intros [->|?]%elem_of_cons.
  - intros j q' f [->|Hj]%elem_of_cons Hjq Hf.
    + simplify_eq. apply Hn2. rewrite Hf1. by rewrite decide_True.
    + destruct (decide (j = i)) as [->|Hne]; [simplify_eq; apply Hn2; rewrite Hf1; by rewrite decide_True|].
      apply (Hd2 j q'); try done. rewrite Hq1. by rewrite list_lookup_insert_ne.
  - auto.
Qed.

(** The callback cache is exact and is emptied at the end.  Getting a fiber
    for a callback, caching a finished one and clearing the caches keep the
    cache of every worker within its limit, filled only with finished fibers
    of this scheduler and worker, and the two gauges equal to the number and
    the stack bytes of the cached fibers; after [clearCallbackFiberCaches] no
    fiber is cached, both gauges are zero, and every fiber that was cached has
    been destroyed. *)
Theorem callback_cache_exact w :
  winv w ->
  (forall p i cb, 0 <= i < worker_count (sched w) -> fibers w !! p = None ->
     match acquireCallbackFiber A0 p i cb w with
     | Ret f w' => cache_ok (sched w') (fibers w') /\
                   exists o, fibers w' !! f = Some o /\ state_ o = READY
     | Throw _ w' => cache_ok (sched w') (fibers w')
     | Crash _ => False
     end) /\
  (forall i f o, 0 <= i < worker_count (sched w) -> fibers w !! f = Some o -> f ∉ cached (sched w) ->
     returns (tryCacheCallbackFiber use_count i f) w (fun _ w' => cache_ok (sched w') (fibers w'))) /\
  returns (clearCallbackFiberCaches A0) w (fun _ w' => cached (sched w') = [] /\
     callbackCachedCount_ (reuse (sched w')) = 0 /\ callbackCachedBytes_ (reuse (sched w')) = 0 /\
     forall f, f ∈ cached (sched w) -> fibers w' !! f = None).
Proof.
  intros Hw. split_and!.
  - intros p i cb Hi Hp. pose proof (acquire_step p i cb w Hw Hi Hp) as H. unfold acquired in H.
    destruct (acquireCallbackFiber A0 p i cb w); [| |done].
    + destruct H as ([] & _ & H). by split.
    + by destruct H as [[] _].
  - intros i f o Hi Hf Hnc. destruct (tryCache_step i f o w Hw Hi Hf Hnc) as (b & w' & E & [] & _).
    unfold returns. by rewrite E.
  - set (n := length (workerQueues_ (sched w))).
    destruct (clear_caches_step (seq 0 n) w Hw) as (w' & E & Hw' & Hk & Hd & _).
    { intros j Hj%elem_of_seq. lia. }
    assert (Hnil : cached (sched w') = []).
    { destruct (cached (sched w')) as [|f l] eqn:Ec; [done|].
      assert (Hf : f ∈ cached (sched w')) by (rewrite Ec; left).
      apply cached_elem in Hf as (j & q' & Hj & Hf). destruct (Hk j q' Hj) as (q & Hq & Hc).
      rewrite Hc, decide_True in Hf; [by apply not_elem_of_nil in Hf|].
      apply elem_of_seq. apply lookup_lt_Some in Hq. lia. }
    unfold returns, clearCallbackFiberCaches, mbind, M_bind, get. fold n. rewrite E.
    destruct Hw' as [_ _ Hc']. split; [done|].
    split; [rewrite (cc_count _ _ Hc'), Hnil; done|]. split; [rewrite (cc_bytes _ _ Hc'), Hnil; done|].
    intros f (j & q & Hj & Hf)%cached_elem. apply (Hd j q f); try done.
    apply elem_of_seq. apply lookup_lt_Some in Hj. lia.
Qed.

End proofs.

(** ** Witnesses: two workers, a queued callback that throws, an idle fiber *)

Definition busy : Scheduler := after (enqueueTask thread10 (task_any 5)) two_workers.

Definition wbase : world (@env Direct.impl) :=
  World {[1 := FiberObj 0 0 RUNNING false false false clear None None false false true false 0 SIZE_MAX]}
    (Some 1) (Some 1) (Some 1) 1 1 (busy, direct0).

Definition wready : world (@env Direct.impl) :=
  match Fiber_new (A (DirectStackAllocator P0)) 2 0 0 true wbase with Ret _ w => w | _ => wbase end.

Definition idle_fiber : fiber :=
  default (FiberObj 0 0 TERM false false false clear None None false false true false 0 0)
    (fibers wready !! 2).

Definition throwing : Z -> M (world (@env Direct.impl)) segment := fun _ => mret (Throws (user_exception 9)).

Definition counts (f : Z) (w : world (@env Direct.impl)) : Z :=
  match fibers w !! f with Some o => if bool_decide (state_ o = READY) then 2 else 1 | None => 0 end.

Lemma counts_owned f w o : fibers w !! f = Some o -> state_ o = READY -> counts f w <> 1.
Proof. intros Hf Hs. unfold counts. rewrite Hf, bool_decide_eq_true_2 by done. done. Qed.

#[local] Instance throwing_laws : WorkerCodeLaws (direct_ok P0) throwing.
Proof.
  split.
  - intros f w o. simpl. by intros.
  - intros f w o Hw. simpl. intros. split; [apply Hw|done].
Qed.

Lemma busy_wf : wf busy.
Proof. split; [by vm_compute| |by vm_compute]. by repeat constructor. Qed.

Lemma busy_cache m : cache_ok busy m.
Proof.
  assert (Hnil : forall i q, workerQueues_ busy !! i = Some q -> callbackFiberCache q = []).
  { intros [|[|i]] q; vm_compute; by intros [= <-]. }
  split; try done.
  - intros i q Hi. rewrite (Hnil i q Hi). by vm_compute.
  - intros i q f Hi. rewrite (Hnil i q Hi). by intros ?%not_elem_of_nil.
  - vm_compute. constructor.
Qed.

Lemma wready_winv : winv (direct_ok P0) wready.
Proof.
  assert (Hi : inv (ok (direct_ok P0)) wbase).
  { destruct world0_inv as [H1 H2 H3]. split; [exact H1|split; [exact H2|apply busy_wf]|exact H3]. }
  assert (HL : AllocatorLaws (A (DirectStackAllocator P0)) (ok (direct_ok P0)))
    by (apply lifted_laws, Direct_laws, P0_ok).
  pose proof (Fiber_new_spec (A (DirectStackAllocator P0)) (ok (direct_ok P0)) 2 0 0 true
    wbase Hi eq_refl ltac:(lia)) as H.
  assert (Hs : sched wready = busy) by (vm_compute; reflexivity).
  unfold wready in *.
  destruct (Fiber_new (A (DirectStackAllocator P0)) 2 0 0 true wbase) as [q w'|e w'|]; [| |done].
  - destruct H as (_ & [? _ Ht]). split; [done|apply Ht; by split_and!|]. rewrite Hs. apply busy_cache.
  - split; [done|by split_and!|]. apply busy_cache.
Qed.

Lemma worker_round_survives_witness :
  all_tasks (sched wready) = [task_any 5] /\
  exists b w', run_round (DirectStackAllocator P0) throwing counts thread10 3 0 2 wready = Ret b w' /\
    winv (direct_ok P0) w'.
Proof.
  split; [by vm_compute|].
  assert (HL : AllocatorLaws (DirectStackAllocator P0) (direct_ok P0)) by apply Direct_laws, P0_ok.
  pose proof (worker_round_survives (DirectStackAllocator P0) (direct_ok P0) throwing counts counts_owned
    thread10 3 0 2 idle_fiber wready (default new_worker (workerQueues_ (sched wready) !! 0%nat))
    wready_winv ltac:(by vm_compute) ltac:(by vm_compute) ltac:(by vm_compute) ltac:(by vm_compute)) as H.
  destruct (run_round _ _ _ _ _ _ _ _) as [b w'|e w'|c] eqn:E.
  - exists b, w'. split; [done|]. apply H.
    + split; [by vm_compute|]. left. by vm_compute.
    + intros t f. replace (all_tasks (sched wready)) with [task_any 5] by (vm_compute; reflexivity).
      by intros ->%list_elem_of_singleton.
  - exfalso. vm_compute in E. discriminate.
  - exfalso. vm_compute in E. discriminate.
Defined.

Lemma callback_cache_exact_witness :
  winv (direct_ok P0) wready /\
  returns (clearCallbackFiberCaches (DirectStackAllocator P0)) wready
    (fun _ w' => callbackCachedBytes_ (reuse (sched w')) = 0).
Proof.
  split; [apply wready_winv|].
  assert (HL : AllocatorLaws (DirectStackAllocator P0) (direct_ok P0)) by apply Direct_laws, P0_ok.
  eapply returns_mono;
    [exact (proj2 (proj2 (callback_cache_exact (DirectStackAllocator P0) (direct_ok P0) counts wready
       wready_winv)))|].
  by intros _ w' (_ & _ & H & _).
Defined.
