(* ===== verification/Shutdown.v ===== *)
(** * Stopping the scheduler

    [Scheduler::run], [idle], [stopping] and [stop] of src/scheduler.cpp as the
    workers execute them, interleaved.  The queues and flags are those of
    [Scheduler].  Neither [tryTakeTask] nor [stopping] is one step: a take looks
    at the worker's own queue and then at one victim after the other, each under
    that queue's lock; [stopping] reads the queues one after the other, each under
    its lock, and then the [active] flags one after the other. *)

From S2P Require Import Prelude Scheduler.

(** Where a worker is in [run]; the last two while its idle fiber evaluates
    [stopping()]. *)
Inductive wpc : Type :=
| Top                           (* at the head of the loop *)
| Taking                        (* [active] set, before [tryTakeLocal] *)
| Stealing (start : Z) (k : nat) (* in [trySteal], [k] victims had nothing for it *)
| Working (t : SchedulerTask)   (* runs a task *)
| Leaving                       (* nothing found, before [active] is cleared *)
| Resting                       (* inactive, before it looks at the idle fiber *)
| Scanning (i : nat)            (* [hasPendingTasks]: queues before [i] were empty *)
| Flags (i : nat)               (* flags before [i] were false *)
| Exited.

(** [idle_term]: the idle fiber has terminated. *)
Record wstate := WState { w_pc : wpc; idle_term : bool }.

(** [sd_late] records the tasks that threads outside submitted after the order
    to stop. *)
Record stop_world := StopWorld {
  sd_sched : Scheduler;
  sd_workers : list wstate;
  sd_late : list SchedulerTask }.

Inductive stop_action : Type :=
| Advance (i : nat)                        (* worker [i] does what comes next *)
| Submit (i : nat) (t : SchedulerTask)     (* the task worker [i] runs submits [t] *)
| External (me : thread) (t : SchedulerTask)
| Stop (me : thread).

Definition set_worker (i : nat) (w : wstate) (s : Scheduler) (x : stop_world) : stop_world :=
  StopWorld s (<[i := w]> (sd_workers x)) (sd_late x).

Definition flag (i : nat) (b : bool) (s : Scheduler) : Scheduler :=
  set_queues (alter (set_active b) i (workerQueues_ s)) s.

Definition is_empty (q : WorkerQueue) : bool :=
  bool_decide (unpinnedTasks q = []) && bool_decide (pinnedTasks q = []).

(** The thread of worker [i]. *)
Definition worker_thread (i : nat) (s : Scheduler) : thread :=
  Thread (default (-1) (threadId <$> workerQueues_ s !! i)) true (Z.of_nat i).

(** The beginning of [trySteal]: nothing to do for a single worker, or the next
    seed of the thread and the first victim. *)
Definition begin_steal (me : thread) (workerIndex : Z) (s : Scheduler) : wpc * Scheduler :=
  if worker_count s <=? 1 then (Leaving, s)
  else
    let seed := next_seed (default (first_seed workerIndex) (victim_seeds s !! tid me)) in
    (Stealing (startOffset seed (worker_count s)) 0, set_seed (tid me) seed s).

(** One step of worker [i] in [run] and in its idle fiber. *)
Definition advance (i : nat) (w : wstate) (x : stop_world) : option stop_world :=
  let s := sd_sched x in
  let go (pc : wpc) := Some (set_worker i (WState pc (idle_term w)) s x) in
  let me := worker_thread i s in
  match w_pc w with
  | Top => Some (set_worker i (WState Taking (idle_term w)) (flag i true s) x)
  | Taking =>
      match tryTakeLocal (Z.of_nat i) (tid me) s with
      | Ret (Some t) s' => Some (set_worker i (WState (Working t) (idle_term w)) s' x)
      | Ret None s' =>
          let (pc, s'') := begin_steal me (Z.of_nat i) s' in
          Some (set_worker i (WState pc (idle_term w)) s'' x)
      | _ => None
      end
  | Stealing start k =>
      if Z.of_nat k <? worker_count s - 1 then
        match steal_from (Scheduler.victim (Z.of_nat i) (worker_count s) start (Z.of_nat k)) (tid me) s with
        | Ret (Some t) s' => Some (set_worker i (WState (Working t) (idle_term w)) s' x)
        | Ret None s' => Some (set_worker i (WState (Stealing start (S k)) (idle_term w)) s' x)
        | _ => None
        end
      else go Leaving
  | Working _ => go Top
  | Leaving => Some (set_worker i (WState Resting (idle_term w)) (flag i false s) x)
  | Resting =>
      if idle_term w then Some (set_worker i (WState Exited true) (flag i false s) x)
      else if isStopped_ s then go (Scanning 0) else go Top
  | Scanning k =>
      match workerQueues_ s !! k with
      | Some q => if is_empty q then go (Scanning (S k)) else go Top
      | None => go (Flags 0)
      end
  | Flags k =>
      match workerQueues_ s !! k with
      | Some q => if active q then go Top else go (Flags (S k))
      | None => Some (set_worker i (WState Top true) s x)
      end
  | Exited => None
  end.

Definition submit (me : thread) (t : SchedulerTask) (x : stop_world) : option stop_world :=
  match schedule me t (sd_sched x) with
  | Ret _ s' => Some (StopWorld s' (sd_workers x) (sd_late x))
  | _ => None
  end.

(** A submission by a thread outside the scheduler: accepted at any time. *)
Definition submit_outside (me : thread) (t : SchedulerTask) (x : stop_world) : option stop_world :=
  y ← submit me t x;
  Some (StopWorld (sd_sched y) (sd_workers y)
          (if isStopped_ (sd_sched x) then t :: sd_late y else sd_late y)).

Definition stop_act (a : stop_action) (x : stop_world) : option stop_world :=
  match a with
  | Advance i => w ← sd_workers x !! i; advance i w x
  | Submit i t =>
      w ← sd_workers x !! i;
      match w_pc w with
      | Working _ => submit (worker_thread i (sd_sched x)) t x
      | _ => None
      end
  | External me t => submit_outside me t x
  | Stop me =>
      match stop_request me (sd_sched x) with
      | Ret _ s' => Some (StopWorld s' (sd_workers x) (sd_late x))
      | _ => None
      end
  end.

Fixpoint stop_acts (l : list stop_action) (x : stop_world) : option stop_world :=
  match l with
  | [] => Some x
  | a :: l' => y ← stop_act a x; stop_acts l' y
  end.

(** The loop of [stop] over the threads: every [join] returns once the workers
    have left [run]. *)
Definition joined (x : stop_world) : bool :=
  forallb (fun w => if w_pc w is Exited then true else false) (sd_workers x).
