(* ===== verification/ShutdownProofs.v ===== *)
(** * Properties of the scheduler's shutdown

    When every worker has left [run], no task that any worker may take is left but
    those that came from outside after the order to stop;
    a quiet scheduler that was told to stop does stop; a task pinned to a worker
    that is gone can be lost. *)

From S2P Require Import Prelude Scheduler SchedulerProofs Shutdown.

(** ** What the steps leave alone *)

Definition same_flags (s s' : Scheduler) : Prop := active <$> workerQueues_ s' = active <$> workerQueues_ s.

(** Threads, the order to stop and the number of workers. *)
Definition same_setup (s s' : Scheduler) : Prop :=
  threadId <$> workerQueues_ s' = threadId <$> workerQueues_ s /\ isStopped_ s' = isStopped_ s.

Lemma same_setup_count s s' : same_setup s s' -> worker_count s' = worker_count s.
Proof. intros [E _]. unfold worker_count. apply (f_equal length) in E. rewrite !length_fmap in E. by rewrite E. Qed.

Lemma view_setup s s' : view s' = view s -> same_setup s s' /\ same_flags s s'.
Proof. unfold view, same_setup, same_flags. intros E. simplify_eq. done. Qed.

Lemma flag_setup i b s : same_setup s (flag i b s).
Proof.
  split; [|done]. unfold flag. simpl. generalize (workerQueues_ s) as l. intros l. revert i.
  induction l as [|q l IH]; intros [|i]; [done..|]. simpl. f_equal. apply IH.
Qed.

Lemma alter_tasks b i (l : list WorkerQueue) : alter (set_active b) i l ≫= queue_tasks = l ≫= queue_tasks.
Proof. revert i. induction l as [|q l IH]; intros [|i]; [done..|]. simpl. f_equal. apply IH. Qed.

Lemma flag_active_eq i b s q :
  workerQueues_ s !! i = Some q -> (active <$> workerQueues_ (flag i b s)) !! i = Some b.
Proof. intros Hq. unfold flag. simpl. by rewrite list_lookup_fmap, list_lookup_alter_eq, Hq. Qed.

Lemma flag_active_ne i j b s :
  j <> i -> (active <$> workerQueues_ (flag i b s)) !! j = (active <$> workerQueues_ s) !! j.
Proof. intros Hne. unfold flag. simpl. by rewrite !list_lookup_fmap, list_lookup_alter_ne. Qed.

Lemma flag_tasks i b s : all_tasks (flag i b s) = all_tasks s.
Proof. apply alter_tasks. Qed.

Lemma flag_wf i b s : wf s -> wf (flag i b s).
Proof.
  intros [H1 H2 H3]. split; simpl; [by rewrite (same_setup_count s _ (flag_setup i b s))| |done].
  apply Forall_alter; [done|]. intros q _ [? ?]. by split.
Qed.

Lemma enqueue_setup me t s b s' :
  wf s -> 0 <= cur_worker_index me -> nonempty t -> enqueueTask me t s = Ret b s' ->
  wf s' /\ all_tasks s' ≡ₚ t :: all_tasks s /\ same_setup s s' /\ same_flags s s'.
Proof.
  intros Hwf Hme Hne E. destruct (enqueue_spec me t s Hwf Hme Hne) as (b1 & s1 & E1 & Hwf1 & Ht & _).
  rewrite E in E1. simplify_eq. split; [done|]. split; [done|].
  destruct (enqueue_eq me t s Hwf Hme Hne) as (q & s2 & Hq & Eq & Es & _ & E2). rewrite E in E2. simplify_eq.
  unfold same_setup, same_flags. simpl. rewrite Eq, !list_fmap_insert. unfold add_task.
  split; [split; [|done]|]; apply list_insert_id; rewrite list_lookup_fmap, Hq; by destruct (thread_ t =? -1).
Qed.

(** What [schedule] adds to the shared deques: the task itself, if it is for
    any worker, in the submitter's own queue when the submitter is a worker. *)
Definition adds_to (me : thread) (t : SchedulerTask) (s s' : Scheduler) : Prop :=
  forall j q' u, workerQueues_ s' !! j = Some q' -> u ∈ unpinnedTasks q' ->
    (exists q, workerQueues_ s !! j = Some q /\ u ∈ unpinnedTasks q) \/
    (u = t /\ (in_this me = true -> cur_worker_index me < worker_count s -> Z.of_nat j = cur_worker_index me)).

Lemma target_own me t s :
  wf s -> thread_ t = -1 -> in_this me = true -> cur_worker_index me < worker_count s ->
  target me t s = cur_worker_index me.
Proof.
  intros Hwf Ht Hin Hlt. unfold target. rewrite Ht, Hin. simpl. pose proof (wf_some _ Hwf) as Hc.
  destruct (cur_worker_index me <? worker_count s) eqn:E; [|lia].
  unfold kInvalidWorker, SIZE_MAX, UINT64_MAX. destruct (_ =? _) eqn:E2; [|done]. lia.
Qed.

Lemma put_adds me t q s :
  wf s -> 0 <= cur_worker_index me -> workerQueues_ s !! Z.to_nat (target me t s) = Some q ->
  forall s', workerQueues_ s' = <[Z.to_nat (target me t s) := add_task t q]> (workerQueues_ s) -> adds_to me t s s'.
Proof.
  intros Hwf Hme Hq s' Es j q' u Hj Hu. rewrite Es in Hj.
  apply list_lookup_insert_Some in Hj as [(Ej & <- & _)|[_ Hj]]; [|left; by exists q'].
  unfold add_task in Hu. destruct (thread_ t =? -1) eqn:E; to_prop; simpl in Hu; [|left; exists q; by subst].
  apply elem_of_app in Hu as [Hu|Hu%list_elem_of_singleton]; [left; exists q; by subst|]. right. split; [done|].
  intros Hin Hlt. pose proof (target_own me t s Hwf E Hin Hlt) as Ht. lia.
Qed.

Lemma schedule_setup me t s s' :
  wf s -> 0 <= cur_worker_index me -> schedule me t s = Ret tt s' ->
  wf s' /\ same_setup s s' /\ same_flags s s' /\ adds_to me t s s'.
Proof.
  intros Hwf Hme E. unfold schedule in E. unfold mbind, M_bind in E.
  destruct (enqueueTask me t s) as [b s1| |] eqn:E1; [|done|done].
  assert (wf s1 /\ same_setup s s1 /\ same_flags s s1 /\ adds_to me t s s1) as H1.
  { destruct (decide (nonempty t)) as [Hne|Hne].
    - destruct (enqueue_setup me t s b s1 Hwf Hme Hne E1) as (? & ? & ? & ?). split_and!; [done..|].
      destruct (enqueue_eq me t s Hwf Hme Hne) as (q & s2 & Hq & Eq & _ & _ & E2). rewrite E1 in E2. simplify_eq.
      eapply put_adds; [done|done|exact Hq|]. simpl. by rewrite Eq.
    - unfold enqueueTask in E1. unfold nonempty in Hne. destruct (fiber_ t), (cb_ t); try (exfalso; apply Hne; naive_solver).
      injection E1 as _ <-. split_and!; [done|by split|done|]. intros j q' u Hj Hu. left. by exists q'. }
  destruct b; [|by injection E as <-]. unfold tickle, modify in E. injection E as <-.
  destruct H1 as ([W1 W2 W3] & [S1 S2] & Hf & Ht). split; [by split|]. by split_and!.
Qed.

(** The shared deques after a take: nothing new. *)
Definition shrinks (s s' : Scheduler) : Prop :=
  forall j q', workerQueues_ s' !! j = Some q' ->
    exists q, workerQueues_ s !! j = Some q /\ unpinnedTasks q' ⊆ unpinnedTasks q.

Lemma same_shrinks s s' : workerQueues_ s' = workerQueues_ s -> shrinks s s'.
Proof. intros E j q' Hq. rewrite E in Hq. by exists q'. Qed.

Lemma put_shrinks i q q' s :
  workerQueues_ s !! Z.to_nat i = Some q -> unpinnedTasks q' ⊆ unpinnedTasks q -> shrinks s (put i q' s).
Proof.
  intros Hq Hsub j p Hj. simpl in Hj. apply list_lookup_insert_Some in Hj as [(<- & <- & _)|[_ Hj]]; [by exists q|].
  by exists p.
Qed.

Lemma flag_shrinks i b s : shrinks s (flag i b s).
Proof.
  intros j q' Hj. unfold flag in Hj. simpl in Hj. destruct (decide (j = i)) as [->|Hne].
  - rewrite list_lookup_alter_eq in Hj. apply fmap_Some in Hj as (q & Hq & ->). by exists q.
  - rewrite list_lookup_alter_ne in Hj by done. by exists q'.
Qed.

Lemma queue_at_ret i s q s' : queue_at i s = Ret q s' -> s' = s /\ workerQueues_ s !! Z.to_nat i = Some q.
Proof.
  unfold queue_at. destruct (workerQueues_ s !! Z.to_nat i) as [q0|]; [|done]. destruct (i <? 0); [done|]. by intros [= <- <-].
Qed.

Lemma tryTakeLocal_shrinks i tId s r s' : tryTakeLocal i tId s = Ret r s' -> shrinks s s'.
Proof.
  unfold tryTakeLocal. unfold mbind, M_bind. destruct (queue_at i s) as [q s0| |] eqn:E0; [|done|done].
  apply queue_at_ret in E0 as [-> Hq]. destruct (extract _ _) as [[t rest]|].
  - intros [= <- <-]. by eapply put_shrinks.
  - destruct (unpinnedTasks q) as [|t rest] eqn:Eu; intros [= <- <-]; [by apply same_shrinks|].
    eapply put_shrinks; [exact Hq|]. rewrite Eu. simpl. set_solver.
Qed.

Lemma steal_from_shrinks i tId s r s' : steal_from i tId s = Ret r s' -> shrinks s s'.
Proof.
  unfold steal_from. unfold mbind, M_bind. destruct (queue_at i s) as [q s0| |] eqn:E0; [|done|done].
  apply queue_at_ret in E0 as [-> Hq]. destruct (unsnoc (unpinnedTasks q)) as [[rest t]|] eqn:Eu.
  - intros [= <- <-]. apply unsnoc_Some in Eu. eapply put_shrinks; [exact Hq|]. rewrite Eu. simpl. set_solver.
  - destruct (extract _ _) as [[t rest]|]; intros [= <- <-]; [by eapply put_shrinks|by apply same_shrinks].
Qed.

(** ** Invariant *)

(** A worker that will look at its own queue again before it leaves. *)
Definition live (w : wstate) : Prop :=
  match w_pc w with
  | Exited => False
  | Stealing _ _ | Leaving | Resting => idle_term w = false
  | _ => True
  end.

(** A worker whose [active] flag is down. *)
Definition inactive (w : wstate) : Prop :=
  match w_pc w with
  | Resting | Scanning _ | Flags _ | Exited => True
  | _ => False
  end.

(** A worker that has seen the order to stop. *)
Definition told (w : wstate) : Prop :=
  idle_term w = true \/ match w_pc w with Scanning _ | Flags _ | Exited => True | _ => False end.

(** [sd_owner]: every task for any worker will be seen by the worker whose queue
    it is in, unless it came from outside after the order to stop. *)
Record sd_inv (x : stop_world) : Prop := {
  sd_wf : wf (sd_sched x);
  sd_length : length (sd_workers x) = length (workerQueues_ (sd_sched x));
  sd_threads : Forall (fun t => t <> -1) (threadId <$> workerQueues_ (sd_sched x));
  sd_told : forall i w, sd_workers x !! i = Some w -> told w -> isStopped_ (sd_sched x) = true;
  sd_owner : forall j q w t, workerQueues_ (sd_sched x) !! j = Some q -> sd_workers x !! j = Some w ->
    t ∈ unpinnedTasks q -> live w \/ t ∈ sd_late x;
  sd_steal : forall i w start k, sd_workers x !! i = Some w -> w_pc w = Stealing start k ->
    1 <= start <= worker_count (sd_sched x) - 1;
  sd_flags : forall i w, sd_workers x !! i = Some w -> inactive w ->
    (active <$> workerQueues_ (sd_sched x)) !! i = Some false }.

(** A step of worker [i] from [w] to [w'] that takes the scheduler to [s']. *)
Lemma sd_inv_worker x i w w' s' :
  sd_inv x -> sd_workers x !! i = Some w -> wf s' -> same_setup (sd_sched x) s' ->
  (told w' -> isStopped_ s' = true) -> shrinks (sd_sched x) s' ->
  ((live w -> live w') \/ (forall q, workerQueues_ s' !! i = Some q -> unpinnedTasks q = [])) ->
  (forall start k, w_pc w' = Stealing start k -> 1 <= start <= worker_count (sd_sched x) - 1) ->
  (forall j, j <> i -> (active <$> workerQueues_ s') !! j = (active <$> workerQueues_ (sd_sched x)) !! j) ->
  (inactive w' -> (active <$> workerQueues_ s') !! i = Some false) ->
  sd_inv (set_worker i w' s' x).
Proof.
  intros [H1 H2 H3 H4 H5 H7 H6] Hw Hwf Hs Ht Hshr Hl Hst Hf Hi. pose proof Hs as [Hth Hstop].
  split; simpl.
  - done.
  - rewrite length_insert, H2. apply (f_equal length) in Hth. by rewrite !length_fmap in Hth.
  - by rewrite Hth.
  - intros j v Hv E. apply list_lookup_insert_Some in Hv as [(<- & <- & _)|[Hne Hv]]; [auto|].
    rewrite Hstop. by eapply H4.
  - intros j q' v t Hq' Hv Hin. destruct (Hshr j q' Hq') as (q & Hq & Hsub).
    apply list_lookup_insert_Some in Hv as [(<- & <- & _)|[Hne Hv]]; [|by eapply H5, Hsub].
    destruct Hl as [Hl|Hl]; [|rewrite (Hl q' Hq') in Hin; by apply not_elem_of_nil in Hin].
    destruct (H5 i q w t Hq Hw (Hsub _ Hin)) as [?|?]; [left; auto|by right].
  - rewrite (same_setup_count _ _ Hs). intros j v start k Hv.
    apply list_lookup_insert_Some in Hv as [(<- & <- & _)|[Hne Hv]]; [apply Hst|by eapply H7].
  - intros j v Hv Hin. apply list_lookup_insert_Some in Hv as [(<- & <- & _)|[Hne Hv]]; [auto|].
    rewrite Hf by done. by eapply H6.
Qed.

Lemma worker_queue x i w :
  sd_inv x -> sd_workers x !! i = Some w ->
  exists q, workerQueues_ (sd_sched x) !! i = Some q /\ threadId q <> -1.
Proof.
  intros [_ H2 H3 _ _ _ _] Hw. apply lookup_lt_Some in Hw. rewrite H2 in Hw.
  apply lookup_lt_is_Some in Hw as [q Hq]. exists q. split; [done|].
  rewrite Forall_forall in H3. apply H3, list_elem_of_fmap. exists q. split; [done|].
  by apply list_elem_of_lookup_2 in Hq.
Qed.

Lemma worker_thread_tid i s q : workerQueues_ s !! i = Some q -> tid (worker_thread i s) = threadId q.
Proof. intros Hq. simpl. by rewrite Hq. Qed.

(** What a taker's lock region leaves behind. *)
Definition region (r : option SchedulerTask) (s s' : Scheduler) : Prop :=
  wf s' /\ same_setup s s' /\ same_flags s s' /\ shrinks s s' /\
  match r with
  | Some t => all_tasks s ≡ₚ t :: all_tasks s'
  | None => all_tasks s' = all_tasks s
  end.

Lemma taken_region tId s t s' : taken tId s t s' -> shrinks s s' -> region (Some t) s s'.
Proof. intros (H1 & H2 & _ & _ & H5) Hs. destruct (view_setup _ _ H5). by split_and!. Qed.

(** The look at the own queue. *)
Lemma local_spec x i w :
  sd_inv x -> sd_workers x !! i = Some w ->
  exists r s', tryTakeLocal (Z.of_nat i) (tid (worker_thread i (sd_sched x))) (sd_sched x) = Ret r s' /\
    region r (sd_sched x) s' /\
    (r = None -> s' = sd_sched x /\ forall q, workerQueues_ s' !! i = Some q -> unpinnedTasks q = []).
Proof.
  intros Hi Hw. destruct (worker_queue x i w Hi Hw) as (q & Hq & Hth). pose proof (sd_wf _ Hi) as Hwf.
  rewrite (worker_thread_tid _ _ _ Hq).
  destruct (tryTakeLocal_spec (Z.of_nat i) (threadId q) (sd_sched x) Hwf) as (r & s' & E & H);
    [unfold worker_count; apply lookup_lt_Some in Hq; lia|].
  exists r, s'. split; [done|]. pose proof (tryTakeLocal_shrinks _ _ _ _ _ E) as Hs. destruct r as [t|].
  - split; [by eapply taken_region|done].
  - destruct H as (-> & q0 & Hq0 & Hn). split; [by split_and!|]. intros _. split; [done|]. intros q1 Hq1. rewrite Nat2Z.id in Hq0.
    simplify_eq. by destruct Hn.
Qed.

(** The look at a victim. *)
Lemma victim_spec x i w start k :
  sd_inv x -> sd_workers x !! i = Some w -> w_pc w = Stealing start k ->
  Z.of_nat k < worker_count (sd_sched x) - 1 ->
  exists r s', steal_from (victim (Z.of_nat i) (worker_count (sd_sched x)) start (Z.of_nat k))
      (tid (worker_thread i (sd_sched x))) (sd_sched x) = Ret r s' /\ region r (sd_sched x) s' /\
    (r = None -> s' = sd_sched x).
Proof.
  intros Hi Hw Hpc Hk. destruct (worker_queue x i w Hi Hw) as (q & Hq & Hth). pose proof (sd_wf _ Hi) as Hwf.
  rewrite (worker_thread_tid _ _ _ Hq). pose proof (sd_steal _ Hi i w start k Hw Hpc) as Hst. pose proof (wf_some _ Hwf) as Hc.
  destruct (victim_range (Z.of_nat i) (worker_count (sd_sched x)) start (Z.of_nat k)) as [Hv _]; [|lia..|].
  { apply lookup_lt_Some in Hq. unfold worker_count. lia. }
  destruct (steal_from_spec _ (threadId q) (sd_sched x) Hwf Hv Hth) as (r & s' & E & H).
  exists r, s'. split; [done|]. pose proof (steal_from_shrinks _ _ _ _ _ E) as Hs. destruct r as [t|].
  - split; [by eapply taken_region|done].
  - destruct H as [-> _]. split; [by split_and!|done].
Qed.

(** Beginning to steal: the queues and flags stay, the first victim is in range. *)
Lemma begin_steal_spec me i s pc s' :
  wf s -> begin_steal me i s = (pc, s') ->
  (pc = Leaving \/ exists start, pc = Stealing start 0 /\ 1 <= start <= worker_count s - 1) /\
  wf s' /\ same_setup s s' /\ workerQueues_ s' = workerQueues_ s.
Proof.
  intros Hwf. unfold begin_steal. destruct (worker_count s <=? 1) eqn:E; to_prop; intros [= <- <-].
  - split_and!; [by left|done|done|done].
  - split_and!; [|by destruct Hwf|done|done]. right. eexists. split; [done|]. apply startOffset_range. lia.
Qed.

(** A step that leaves the scheduler alone. *)
Lemma sd_inv_goto x i w w' :
  sd_inv x -> sd_workers x !! i = Some w -> (told w' -> told w \/ isStopped_ (sd_sched x) = true) ->
  (live w -> live w') -> (inactive w' -> inactive w) ->
  match w_pc w' with Stealing _ _ => False | _ => True end -> sd_inv (set_worker i w' (sd_sched x) x).
Proof.
  intros Hi Hw Ht Hl Hin Hns. pose proof Hi as [Hwf _ _ Htold _ _ Hflag].
  apply (sd_inv_worker _ _ _ _ _ Hi Hw); [done|done| |by apply same_shrinks|by left| |done|].
  - intros [Htw|?]%Ht; [by apply (Htold i w)|done].
  - intros start k Hpc. by rewrite Hpc in Hns.
  - intros Hw'. by apply (Hflag i w Hw), Hin.
Qed.

(** A step that only changes the worker's flag. *)
Lemma sd_inv_flag x i w w' b :
  sd_inv x -> sd_workers x !! i = Some w -> (told w' -> told w) -> (live w -> live w') ->
  (inactive w' -> b = false) -> match w_pc w' with Stealing _ _ => False | _ => True end ->
  sd_inv (set_worker i w' (flag i b (sd_sched x)) x).
Proof.
  intros Hi Hw Ht Hl Hin Hns. pose proof Hi as [Hwf _ _ Htold _ _ Hflag].
  destruct (worker_queue x i w Hi Hw) as (q & Hq & _).
  apply (sd_inv_worker _ _ _ _ _ Hi Hw).
  - by apply flag_wf.
  - apply flag_setup.
  - intros Htw%Ht. by apply (Htold i w).
  - apply flag_shrinks.
  - by left.
  - intros start k Hpc. by rewrite Hpc in Hns.
  - intros j Hj. by apply flag_active_ne.
  - intros Hw'. rewrite (flag_active_eq i b _ q Hq). by rewrite Hin.
Qed.

(** The end of a lock region of a take. *)
Lemma sd_inv_take x i w pc s' r :
  sd_inv x -> sd_workers x !! i = Some w -> region r (sd_sched x) s' ->
  ((live w -> live (WState pc (idle_term w))) \/ (forall q, workerQueues_ s' !! i = Some q -> unpinnedTasks q = [])) ->
  match pc with
  | Working _ | Leaving => True
  | Stealing start _ => 1 <= start <= worker_count (sd_sched x) - 1
  | _ => False
  end ->
  sd_inv (set_worker i (WState pc (idle_term w)) s' x).
Proof.
  intros Hi Hw (Hwf & Hs & Hf & Hshr & _) Hl Hpc.
  apply (sd_inv_worker _ _ _ _ _ Hi Hw); [done|done| |done|done| | |].
  - intros Ht. destruct Hs as [_ ->]. apply (sd_told _ Hi i w Hw). destruct Ht as [Ht|Ht]; [by left|].
    simpl in Ht. by destruct pc.
  - simpl. by intros start k ->.
  - intros j _. by rewrite Hf.
  - intros Hin. unfold inactive in Hin. simpl in Hin. by destruct pc.
Qed.

Lemma advance_inv i w x y : sd_inv x -> sd_workers x !! i = Some w -> advance i w x = Some y -> sd_inv y.
Proof.
  intros Hi Hw E. unfold advance in E. destruct w as [pc d]. simpl in E. destruct pc as [| |start k|t| | |k|k|].
  - injection E as <-. apply (sd_inv_flag _ _ _ _ _ Hi Hw); unfold told, live, inactive; simpl; tauto.
  - destruct (local_spec x i _ Hi Hw) as (r & s' & Er & Hr & Hn). simpl in Er. rewrite Er in E.
    destruct r as [t|]; [injection E as <-; apply (sd_inv_take _ _ _ (Working t) _ _ Hi Hw Hr); [by left|done]|].
    destruct (begin_steal _ _ s') as [pc s''] eqn:Eb. injection E as <-.
    destruct (Hn eq_refl) as [-> Hn']. pose proof Hr as (Hwf & _).
    destruct (begin_steal_spec _ _ _ _ _ Hwf Eb) as (Hpc & Hwf' & Hs & Eq).
    apply (sd_inv_take _ _ _ pc s'' None Hi Hw).
    + split_and!; [done|done|unfold same_flags; by rewrite Eq|by apply same_shrinks|].
      unfold all_tasks. by rewrite Eq.
    + right. by rewrite Eq.
    + by destruct Hpc as [->|(start & -> & ?)].
  - destruct (Z.of_nat k <? worker_count (sd_sched x) - 1) eqn:Ek; to_prop.
    + destruct (victim_spec x i _ start k Hi Hw eq_refl Ek) as (r & s' & Er & Hr & _). simpl in Er. rewrite Er in E.
      destruct r as [t|]; injection E as <-; eapply (sd_inv_take _ _ _ _ _ _ Hi Hw Hr); try done; [by left..|].
      exact (sd_steal _ Hi i _ start k Hw eq_refl).
    + injection E as <-. apply (sd_inv_goto _ _ _ _ Hi Hw); unfold told, live, inactive; simpl; tauto.
  - injection E as <-. apply (sd_inv_goto _ _ _ _ Hi Hw); unfold told, live, inactive; simpl; tauto.
  - injection E as <-. apply (sd_inv_flag _ _ _ _ _ Hi Hw); unfold told, live, inactive; simpl; tauto.
  - destruct d; [|destruct (isStopped_ (sd_sched x)) eqn:Es]; injection E as <-.
    + apply (sd_inv_flag _ _ _ _ _ Hi Hw); unfold told, live, inactive; simpl; [by left|done..].
    + apply (sd_inv_goto _ _ _ _ Hi Hw); unfold told, live, inactive; simpl; tauto.
    + apply (sd_inv_goto _ _ _ _ Hi Hw); unfold told, live, inactive; simpl; tauto.
  - destruct (workerQueues_ (sd_sched x) !! k) as [q0|]; [destruct (is_empty q0)|]; injection E as <-;
      apply (sd_inv_goto _ _ _ _ Hi Hw); unfold told, live, inactive; simpl; tauto.
  - destruct (workerQueues_ (sd_sched x) !! k) as [q0|]; [destruct (active q0)|]; injection E as <-;
      apply (sd_inv_goto _ _ _ _ Hi Hw); unfold told, live, inactive; simpl; tauto.
  - done.
Qed.

(** *** A take that nobody interrupts

    The steps of one worker from [Taking] on, with nobody in between, are
    [tryTakeTask]. *)

Definition alone (i : nat) (x y : stop_world) : Prop := stop_act (Advance i) x = Some y.

Definition after_take (r : option SchedulerTask) : wpc :=
  match r with Some t => Working t | None => Leaving end.

Lemma set_worker_twice i w1 w2 s1 s2 x : set_worker i w2 s2 (set_worker i w1 s1 x) = set_worker i w2 s2 x.
Proof. unfold set_worker. simpl. by rewrite list_insert_insert_eq. Qed.

Lemma alone_step i w x y : sd_workers x !! i = Some w -> advance i w x = Some y -> alone i x y.
Proof. intros Hw E. unfold alone. simpl. by rewrite Hw. Qed.

Lemma steal_alone i start d m : forall k x,
  sd_inv x -> sd_workers x !! i = Some (WState (Stealing start k) d) ->
  Z.of_nat (k + m) = worker_count (sd_sched x) - 1 ->
  exists r s', steal_loop (Z.of_nat i) (tid (worker_thread i (sd_sched x))) (worker_count (sd_sched x)) start
      (seq k m) (sd_sched x) = Ret r s' /\
    rtc (alone i) x (set_worker i (WState (after_take r) d) s' x).
Proof.
  induction m as [|m IH]; intros k x Hi Hw Hk.
  { exists None, (sd_sched x). split; [done|]. apply rtc_once, (alone_step _ _ _ _ Hw).
    unfold advance. cbn [w_pc idle_term]. by rewrite (proj2 (Z.ltb_ge _ _)) by lia. }
  assert (Z.of_nat k < worker_count (sd_sched x) - 1) as Hlt by lia.
  destruct (victim_spec x i _ start k Hi Hw eq_refl Hlt) as (r & s' & Er & _ & Hn).
  cbn [seq steal_loop]. unfold mbind at 1, M_bind at 1. rewrite Er.
  assert (advance i (WState (Stealing start k) d) x =
    Some (set_worker i (WState (match r with Some t => Working t | None => Stealing start (S k) end) d) s' x)) as Ea.
  { unfold advance. cbn [w_pc idle_term]. rewrite (proj2 (Z.ltb_lt _ _) Hlt), Er. by destruct r. }
  destruct r as [t|].
  { exists (Some t), s'. split; [done|]. by apply rtc_once, (alone_step _ _ _ _ Hw). }
  rewrite (Hn eq_refl) in *.
  set (y := set_worker i (WState (Stealing start (S k)) d) (sd_sched x) x) in *.
  destruct (IH (S k) y) as (r & s2 & E2 & Hr2).
  - by eapply advance_inv.
  - simpl. apply list_lookup_insert_eq. by eapply lookup_lt_Some.
  - simpl. lia.
  - exists r, s2. split; [exact E2|]. unfold y in Hr2. rewrite set_worker_twice in Hr2.
    eapply rtc_l; [by eapply alone_step|done].
Qed.

Lemma take_alone i x w :
  sd_inv x -> sd_workers x !! i = Some w -> w_pc w = Taking ->
  exists r s', tryTakeTask (worker_thread i (sd_sched x)) (Z.of_nat i) (sd_sched x) = Ret r s' /\
    rtc (alone i) x (set_worker i (WState (after_take r) (idle_term w)) s' x).
Proof.
  intros Hi Hw Hpc. destruct (worker_queue x i w Hi Hw) as (q & Hq & _).
  destruct (local_spec x i w Hi Hw) as (r & s' & Er & _ & Hn).
  unfold tryTakeTask. unfold mbind at 1, M_bind at 1. rewrite (queue_at_eq (Z.of_nat i) _ q) by (rewrite ?Nat2Z.id; auto with lia).
  rewrite <- (worker_thread_tid _ _ _ Hq). unfold mbind at 1, M_bind at 1. rewrite Er. destruct r as [t|].
  { exists (Some t), s'. split; [done|]. apply rtc_once, (alone_step _ _ _ _ Hw). unfold advance. by rewrite Hpc, Er. }
  destruct (Hn eq_refl) as [-> _]. unfold trySteal. unfold mbind, M_bind, get, modify.
  destruct (begin_steal (worker_thread i (sd_sched x)) (Z.of_nat i) (sd_sched x)) as [pc s1] eqn:Eb.
  assert (advance i w x = Some (set_worker i (WState pc (idle_term w)) s1 x)) as Ea.
  { unfold advance. by rewrite Hpc, Er, Eb. }
  unfold begin_steal in Eb. destruct (worker_count (sd_sched x) <=? 1) eqn:Ec; to_prop; injection Eb as <- <-.
  { exists None, (sd_sched x). split; [done|]. by apply rtc_once, (alone_step _ _ _ _ Hw). }
  set (seed := next_seed _) in *. set (s1 := set_seed _ seed (sd_sched x)) in *.
  edestruct (steal_alone i (startOffset seed (worker_count (sd_sched x))) (idle_term w)
    (Z.to_nat (worker_count (sd_sched x) - 1)) 0) with (x := set_worker i (WState (Stealing (startOffset seed (worker_count (sd_sched x))) 0) (idle_term w)) s1 x) as (r & s2 & E2 & Hr2).
  - by eapply advance_inv.
  - simpl. apply list_lookup_insert_eq. by eapply lookup_lt_Some.
  - simpl. change (worker_count s1) with (worker_count (sd_sched x)). lia.
  - exists r, s2. split; [exact E2|]. rewrite set_worker_twice in Hr2. eapply rtc_l; [by eapply alone_step|done].
Qed.

(** A submission: the new task is late, or its queue's worker is live. *)
Lemma submit_inv me t x y late :
  sd_inv x -> 0 <= cur_worker_index me -> submit me t x = Some y -> sd_late x ⊆ late ->
  (t ∈ late \/
   forall j w, sd_workers x !! j = Some w ->
     (in_this me = true -> cur_worker_index me < worker_count (sd_sched x) -> Z.of_nat j = cur_worker_index me) ->
     live w) ->
  sd_inv (StopWorld (sd_sched y) (sd_workers y) late).
Proof.
  intros [H1 H2 H3 H4 H5 H7 H6] Hme E Hlate Hl. unfold submit in E.
  destruct (schedule me t (sd_sched x)) as [[] s'| |] eqn:Es; [|done|done]. injection E as <-.
  destruct (schedule_setup me t _ s' H1 Hme Es) as (Hwf & Hs & Hf & Ha). pose proof Hs as [Hth Hst].
  split; simpl; [done| |by rewrite Hth|by rewrite Hst| |by rewrite (same_setup_count _ _ Hs)|by rewrite Hf].
  - rewrite H2. apply (f_equal length) in Hth. by rewrite !length_fmap in Hth.
  - intros j q' w u Hq' Hw Hu. destruct (Ha j q' u Hq' Hu) as [(q & Hq & Huq)|[-> Hown]].
    + destruct (H5 j q w u Hq Hw Huq); auto.
    + destruct Hl as [?|Hl]; [by right|]. left. by eapply Hl.
Qed.

Lemma submit_frame me t x y : submit me t x = Some y -> sd_workers y = sd_workers x /\ sd_late y = sd_late x.
Proof. unfold submit. destruct (schedule me t (sd_sched x)); [|done|done]. by intros [= <-]. Qed.

(** Before the order to stop no worker has given up. *)
Lemma unstopped_live x j w : sd_inv x -> isStopped_ (sd_sched x) = false -> sd_workers x !! j = Some w -> live w.
Proof.
  intros Hi Es Hw. assert (~ told w) as Hn by (intros Ht; pose proof (sd_told _ Hi _ _ Hw Ht); congruence).
  unfold live, told in *. destruct (w_pc w), (idle_term w); naive_solver.
Qed.

Definition same_queues (s s' : Scheduler) : Prop :=
  workerQueues_ s' = workerQueues_ s /\ isStopped_ s' = isStopped_ s /\ nextQueue_ s' = nextQueue_ s.

Lemma tickles_same (n : list nat) s :
  exists s', foldr (fun _ m => tickle;; m) (mret tt) n s = Ret tt s' /\ same_queues s s'.
Proof.
  revert s. induction n as [|i n IH]; intros s; [by exists s|]. simpl.
  match goal with |- context [(tickle ;; ?m) s] => edestruct IH as (s' & E & H) end.
  exists s'. split; [unfold mbind, M_bind, tickle, modify; exact E|exact H].
Qed.

Lemma stop_request_same me s b s' :
  stop_request me s = Ret b s' -> s' = s \/ same_queues (set_stopped true s) s'.
Proof.
  unfold stop_request. run. destruct (stopping s); [intros [= _ <-]; by left|].
  set (s0 := set_stopped true s). intros E. right.
  destruct (tickles_same (seq 0 (Z.to_nat (threadCnt_ s))) s0) as (s1 & E1 & H1 & H2 & H3).
  destruct (isUseCaller_ s), (in_this me); try done; simpl in E; run_in E1; rewrite E1 in E;
    injection E as _ <-; by split_and!.
Qed.

Lemma stop_act_inv a x y : stop_act a x = Some y -> sd_inv x ->
  match a with External me _ => 0 <= cur_worker_index me | _ => True end -> sd_inv y.
Proof.
  intros E Hi Ha. destruct a as [i|i t|me t|me]; simpl in E.
  - destruct (sd_workers x !! i) as [w|] eqn:Hw; [|done]. by eapply advance_inv.
  - destruct (sd_workers x !! i) as [w|] eqn:Hw; [|done]. simpl in E.
    destruct (w_pc w) eqn:Hpc; try done. destruct (submit_frame _ _ _ _ E) as [_ El].
    replace y with (StopWorld (sd_sched y) (sd_workers y) (sd_late x)) by (rewrite <- El; by destruct y).
    eapply submit_inv; [done| |exact E|done|]; [simpl; lia|]. right. intros j v Hv Hown. simpl in Hown.
    assert (j = i) as ->.
    { apply Nat2Z.inj, Hown; [done|]. apply lookup_lt_Some in Hw. rewrite (sd_length _ Hi) in Hw. unfold worker_count. lia. }
    simplify_eq. unfold live. by rewrite Hpc.
  - unfold submit_outside in E. destruct (submit me t x) as [z|] eqn:Ez; [|done]. injection E as <-.
    destruct (submit_frame _ _ _ _ Ez) as [_ El]. rewrite El.
    eapply submit_inv; [done|done|exact Ez|destruct (isStopped_ (sd_sched x)); set_solver|].
    destruct (isStopped_ (sd_sched x)) eqn:Es; [left; set_solver|right]. intros j w Hw _. by eapply unstopped_live.
  - destruct (stop_request me (sd_sched x)) as [b s'| |] eqn:Es; [|done|done]. injection E as <-.
    destruct (stop_request_same me _ b s' Es) as [->|(H1 & H2 & H3)]; [by destruct Hi; split|].
    destruct Hi as [[W1 W2 W3] I2 I3 I4 I5 I7 I6]. simpl in *.
    split; simpl; rewrite ?H1; [|done..|unfold worker_count; by rewrite H1|done].
    split; [unfold worker_count; by rewrite H1|by rewrite H1|by rewrite H3].
Qed.

(** ** Runs *)

Definition allowed (a : stop_action) : Prop :=
  match a with
  | External me _ => 0 <= cur_worker_index me
  | _ => True
  end.

Definition stop_step (x y : stop_world) : Prop := exists a, allowed a /\ stop_act a x = Some y.

(** Every worker is at the head of its loop. *)
Definition stop_start (s : Scheduler) : stop_world :=
  StopWorld s (replicate (length (workerQueues_ s)) (WState Top false)) [].

Definition threads_known (s : Scheduler) : Prop := Forall (fun t => t <> -1) (threadId <$> workerQueues_ s).

Lemma stop_step_inv x y : stop_step x y -> sd_inv x -> sd_inv y.
Proof. intros (a & Ha & E) Hi. by eapply stop_act_inv. Qed.

Lemma stop_start_inv s : wf s -> threads_known s -> sd_inv (stop_start s).
Proof.
  intros Hwf Hth. assert (forall i w, sd_workers (stop_start s) !! i = Some w -> w = WState Top false) as Hall.
  { intros i w Hw. simpl in Hw. by apply lookup_replicate in Hw as [-> _]. }
  split; [done|simpl; by rewrite length_replicate|done| | | |].
  - intros i w ->%Hall. by intros [?|?].
  - intros j q w t _ ->%Hall _. by left.
  - by intros i w start k ->%Hall.
  - by intros i w ->%Hall.
Qed.

Lemma stop_reachable_inv s x :
  wf s -> threads_known s -> rtc stop_step (stop_start s) x -> sd_inv x.
Proof.
  intros Hwf Hth Hr. refine (rtc_invariant _ _ stop_step_inv _ _ Hr _). by apply stop_start_inv.
Qed.

Lemma joined_spec x : joined x = true <-> forall i w, sd_workers x !! i = Some w -> w_pc w = Exited.
Proof.
  unfold joined. rewrite forallb_forall. split.
  - intros H i w Hw%list_elem_of_lookup_2%list_elem_of_In. specialize (H w Hw). by destruct (w_pc w).
  - intros H w Hw%list_elem_of_In%list_elem_of_lookup_1. destruct Hw as [i Hw]. by rewrite (H i w Hw).
Qed.

(** ** A quiet scheduler stops *)

(** Told to stop, with nothing queued and nothing running. *)
Record quiet (x : stop_world) : Prop := {
  qu_inv : sd_inv x;
  qu_tasks : all_tasks (sd_sched x) = [];
  qu_stopped : isStopped_ (sd_sched x) = true;
  qu_idle : forall i w, sd_workers x !! i = Some w -> match w_pc w with Working _ => False | _ => True end }.

Definition settled (w : wstate) : Prop := w_pc w = Resting \/ w_pc w = Exited.

(** Steps that a worker makes, at most, before it rests, with [n] queues. *)
Definition distance (n : nat) (w : wstate) : nat :=
  match w_pc w with
  | Resting | Exited => 0
  | Leaving => 1
  | Stealing _ k => 2 + (n - k)
  | Taking => 3 + n
  | Top => 4 + n
  | Working _ => 5 + n
  | Flags k => 5 + n + (n - k)
  | Scanning k => 6 + n + n + (n - k)
  end.

Definition queue_count (x : stop_world) : nat := length (workerQueues_ (sd_sched x)).

(** The step of worker [i]: [w'] is its new state. *)
Definition moves (i : nat) (w : wstate) (x : stop_world) (w' : wstate) (y : stop_world) : Prop :=
  stop_step x y /\ quiet y /\ sd_workers y = <[i := w']> (sd_workers x) /\ queue_count y = queue_count x /\
  (idle_term w = true -> idle_term w' = true).

Lemma quiet_moves i w w' x s' :
  quiet x -> sd_workers x !! i = Some w -> advance i w x = Some (set_worker i w' s' x) ->
  all_tasks s' = [] -> same_setup (sd_sched x) s' ->
  match w_pc w' with Working _ => False | _ => True end -> (idle_term w = true -> idle_term w' = true) ->
  moves i w x w' (set_worker i w' s' x).
Proof.
  intros [Hi Ht Hst Hid] Hw E Ht' [Hth Hs] Hnw Hterm. split_and!; [|split| | |done].
  - exists (Advance i). split; [done|]. simpl. by rewrite Hw.
  - by eapply advance_inv.
  - done.
  - simpl. by rewrite Hs.
  - intros j v Hv. simpl in Hv. apply list_lookup_insert_Some in Hv as [(<- & <- & _)|[_ Hv]]; [done|by apply (Hid j)].
  - done.
  - unfold queue_count. simpl. apply (f_equal length) in Hth. by rewrite !length_fmap in Hth.
Qed.

Lemma empty_queue x k q :
  all_tasks (sd_sched x) = [] -> workerQueues_ (sd_sched x) !! k = Some q -> is_empty q = true.
Proof.
  intros Ht Hq. unfold all_tasks in Ht. unfold is_empty.
  assert (queue_tasks q = []) as [Hp Hu]%app_eq_nil; [|by rewrite Hu, Hp].
  destruct (queue_tasks q) as [|t l] eqn:E; [done|]. exfalso.
  assert (t ∈ workerQueues_ (sd_sched x) ≫= queue_tasks) as Hin.
  { apply list_elem_of_bind. exists q. rewrite E. split; [by left|]. by apply list_elem_of_lookup_2 in Hq. }
  rewrite Ht in Hin. by apply not_elem_of_nil in Hin.
Qed.

(** A worker of a quiet scheduler comes nearer to rest with every step. *)
Lemma quiet_advance i w x :
  quiet x -> sd_workers x !! i = Some w -> ~ settled w ->
  exists w' y, moves i w x w' y /\ (distance (queue_count x) w' < distance (queue_count x) w)%nat.
Proof.
  intros Hq Hw Hns. pose proof Hq as [Hi Ht Hst Hid]. specialize (Hid i w Hw).
  destruct w as [pc d]. unfold settled in Hns. simpl in *.
  assert (forall w' s', advance i (WState pc d) x = Some (set_worker i w' s' x) -> all_tasks s' = [] ->
    same_setup (sd_sched x) s' -> match w_pc w' with Working _ => False | _ => True end ->
    (d = true -> idle_term w' = true) ->
    (distance (queue_count x) w' < distance (queue_count x) (WState pc d))%nat ->
    exists w' y, moves i (WState pc d) x w' y /\
      (distance (queue_count x) w' < distance (queue_count x) (WState pc d))%nat) as Hgo.
  { intros w' s' E Ht' Hs Hnw Hd Hlt. exists w', (set_worker i w' s' x). split; [|done]. by apply quiet_moves. }
  destruct pc as [| |start k|t| | |k|k|]; try done; try (by exfalso; apply Hns; auto).
  - eapply Hgo; [reflexivity|by rewrite flag_tasks|apply flag_setup|done|done|unfold distance; simpl; lia].
  - destruct (local_spec x i _ Hi Hw) as ([t|] & s' & Er & (Hwf & _ & _ & _ & Hr) & Hn);
      [rewrite Ht in Hr; by apply Permutation_nil_cons in Hr|].
    destruct (begin_steal (worker_thread i (sd_sched x)) (Z.of_nat i) s') as [pc s''] eqn:Eb.
    destruct (Hn eq_refl) as [-> _]. destruct (begin_steal_spec _ _ _ _ _ Hwf Eb) as (Hpc & _ & Hs & Eq).
    eapply Hgo; [unfold advance; cbn [w_pc idle_term]; rewrite Er, Eb; reflexivity| |done| |done|].
    + unfold all_tasks in *. by rewrite Eq.
    + by destruct Hpc as [->|(start & -> & _)].
    + unfold distance. destruct Hpc as [->|(start & -> & _)]; simpl; lia.
  - destruct (Z.of_nat k <? worker_count (sd_sched x) - 1) eqn:Ek; to_prop.
    + destruct (victim_spec x i _ start k Hi Hw eq_refl Ek) as ([t|] & s' & Er & (_ & Hs & _ & _ & Hr) & _);
        [rewrite Ht in Hr; by apply Permutation_nil_cons in Hr|].
      eapply Hgo; [unfold advance; cbn [w_pc idle_term]; rewrite (proj2 (Z.ltb_lt _ _) Ek), Er; reflexivity|congruence|done|done|done|].
      unfold distance, queue_count, worker_count in *. simpl. lia.
    + eapply Hgo; [unfold advance; cbn [w_pc idle_term]; rewrite (proj2 (Z.ltb_ge _ _) Ek); reflexivity|done..|unfold distance; simpl; lia].
  - eapply Hgo; [reflexivity|by rewrite flag_tasks|apply flag_setup|done|done|unfold distance; simpl; lia].
  - destruct (workerQueues_ (sd_sched x) !! k) as [q|] eqn:Ek.
    + pose proof (lookup_lt_Some _ _ _ Ek) as Hlt. fold (queue_count x) in Hlt.
      eapply Hgo; [unfold advance; simpl; rewrite Ek, (empty_queue x k q Ht Ek); reflexivity|done..|unfold distance; simpl; lia].
    + eapply Hgo; [unfold advance; simpl; rewrite Ek; reflexivity|done..|unfold distance; simpl; lia].
  - destruct (workerQueues_ (sd_sched x) !! k) as [q|] eqn:Ek; [destruct (active q) eqn:Ea|].
    + eapply Hgo; [unfold advance; simpl; rewrite Ek, Ea; reflexivity|done..|unfold distance; simpl; lia].
    + pose proof (lookup_lt_Some _ _ _ Ek) as Hlt. fold (queue_count x) in Hlt.
      eapply Hgo; [unfold advance; simpl; rewrite Ek, Ea; reflexivity|done..|unfold distance; simpl; lia].
    + eapply Hgo; [unfold advance; simpl; rewrite Ek; reflexivity|done..|unfold distance; simpl; lia].
Qed.

(** What a run of steps of worker [i] alone leads to. *)
Definition leads (i : nat) (x : stop_world) (w' : wstate) (y : stop_world) : Prop :=
  rtc stop_step x y /\ quiet y /\ sd_workers y = <[i := w']> (sd_workers x) /\ queue_count y = queue_count x.

Lemma moves_leads i w x w1 y w2 z :
  sd_workers x !! i = Some w -> moves i w x w1 y -> leads i y w2 z -> leads i x w2 z.
Proof.
  intros Hw (H1 & _ & H3 & H4 & _) (L1 & L2 & L3 & L4). split_and!; [by eapply rtc_l|done| |congruence].
  by rewrite L3, H3, list_insert_insert_eq.
Qed.

Lemma moved_worker i w x w' y :
  sd_workers x !! i = Some w -> moves i w x w' y -> sd_workers y !! i = Some w'.
Proof. intros Hw (_ & _ & -> & _). apply list_lookup_insert_eq. by eapply lookup_lt_Some. Qed.

Lemma settle i w x :
  quiet x -> sd_workers x !! i = Some w ->
  exists w' y, leads i x w' y /\ settled w' /\ (idle_term w = true -> idle_term w' = true).
Proof.
  remember (distance (queue_count x) w) as n eqn:Hn. revert w x Hn.
  induction (lt_wf n) as [n _ IH]. intros w x Hn Hq Hw.
  assert (settled w \/ ~ settled w) as [Hs|Hs] by (unfold settled; destruct (w_pc w); naive_solver).
  { exists w, x. split; [|done]. split_and!; [done|done|by rewrite list_insert_id|done]. }
  destruct (quiet_advance i w x Hq Hw Hs) as (w1 & y & Hm & Hlt). pose proof Hm as (_ & Hqy & _ & Hc & Hterm).
  destruct (IH (distance (queue_count y) w1)) with (w := w1) (x := y) as (w2 & z & Hl & Hs2 & Ht2);
    [rewrite Hc; lia|done|done|by eapply moved_worker|].
  exists w2, z. split; [by eapply moves_leads|]. split; [done|]. auto.
Qed.

(** While nobody is active, an evaluation of [stopping()] ends with [true]. *)
Lemma evaluate i w x :
  quiet x -> sd_workers x !! i = Some w -> match w_pc w with Scanning _ | Flags _ => True | _ => False end ->
  (forall k q, workerQueues_ (sd_sched x) !! k = Some q -> active q = false) ->
  exists y, leads i x (WState Top true) y.
Proof.
  remember (distance (queue_count x) w) as n eqn:Hn. revert w x Hn.
  induction (lt_wf n) as [n _ IH]. intros w x Hn Hq Hw Hpc Hinact. pose proof Hq as [Hi Ht Hst Hid].
  destruct w as [pc d]. simpl in *.
  assert (forall pc', match pc' with Scanning _ | Flags _ => True | _ => False end ->
    advance i (WState pc d) x = Some (set_worker i (WState pc' d) (sd_sched x) x) ->
    (distance (queue_count x) (WState pc' d) < n)%nat -> exists y, leads i x (WState Top true) y) as Hgo.
  { intros pc' Hpc' E Hlt.
    assert (moves i (WState pc d) x (WState pc' d) (set_worker i (WState pc' d) (sd_sched x) x)) as Hm
      by (apply quiet_moves; try done; by destruct pc').
    pose proof Hm as (_ & Hqy & _ & Hc & _).
    destruct (IH _ Hlt (WState pc' d) (set_worker i (WState pc' d) (sd_sched x) x)) as (z & Hz);
      [by rewrite Hc|done|by eapply moved_worker|done|done|].
    exists z. by eapply moves_leads. }
  destruct pc as [| |start k|t| | |k|k|]; try done.
  - destruct (workerQueues_ (sd_sched x) !! k) as [q|] eqn:Ek.
    + pose proof (lookup_lt_Some _ _ _ Ek) as Hlt. fold (queue_count x) in Hlt.
      apply (Hgo (Scanning (S k))); [done|unfold advance; simpl; by rewrite Ek, (empty_queue x k q Ht Ek)|unfold distance in *; simpl in *; lia].
    + apply (Hgo (Flags 0)); [done|unfold advance; simpl; by rewrite Ek|unfold distance in *; simpl in *; lia].
  - destruct (workerQueues_ (sd_sched x) !! k) as [q|] eqn:Ek.
    + pose proof (lookup_lt_Some _ _ _ Ek) as Hlt. fold (queue_count x) in Hlt.
      apply (Hgo (Flags (S k))); [done|unfold advance; simpl; by rewrite Ek, (Hinact k q Ek)|unfold distance in *; simpl in *; lia].
    + exists (set_worker i (WState Top true) (sd_sched x) x).
      assert (moves i (WState (Flags k) d) x (WState Top true) (set_worker i (WState Top true) (sd_sched x) x)) as Hm
        by (apply quiet_moves; try done; unfold advance; simpl; by rewrite Ek).
      eapply moves_leads; [done|exact Hm|]. pose proof Hm as (_ & Hqy & _ & Hc & _).
      split_and!; [done|done| |done]. rewrite list_insert_id; [done|]. by eapply moved_worker.
Qed.

Lemma all_inactive x :
  sd_inv x -> (forall j w, sd_workers x !! j = Some w -> inactive w) ->
  forall k q, workerQueues_ (sd_sched x) !! k = Some q -> active q = false.
Proof.
  intros [_ Hlen _ _ _ _ Hf] Hall k q Hq. pose proof (lookup_lt_Some _ _ _ Hq) as Hlt. rewrite <- Hlen in Hlt.
  apply lookup_lt_is_Some in Hlt as [w Hw]. specialize (Hf k w Hw (Hall k w Hw)).
  rewrite list_lookup_fmap, Hq in Hf. by injection Hf.
Qed.

Lemma settled_inactive w : settled w -> inactive w.
Proof. unfold settled, inactive. by intros [-> | ->]. Qed.

(** A resting worker whose idle fiber is over leaves [run]. *)
Lemma leave i x w : quiet x -> sd_workers x !! i = Some w -> settled w -> idle_term w = true ->
  exists w' y, leads i x w' y /\ w_pc w' = Exited.
Proof.
  intros Hq Hw [Hr|He] Ht.
  - exists (WState Exited true), (set_worker i (WState Exited true) (flag i false (sd_sched x)) x).
    assert (moves i w x (WState Exited true) (set_worker i (WState Exited true) (flag i false (sd_sched x)) x)) as Hm.
    { apply quiet_moves; try done; [|by rewrite flag_tasks; destruct Hq|apply flag_setup].
      unfold advance. by rewrite Hr, Ht. }
    split; [|done]. pose proof Hm as (H1 & H2 & H3 & H4 & _). split_and!; [by apply rtc_once|done..].
  - exists w, x. split; [|done]. split_and!; [done|done|by rewrite list_insert_id|done].
Qed.

Lemma leads_worker i w x w' y : sd_workers x !! i = Some w -> leads i x w' y -> sd_workers y !! i = Some w'.
Proof. intros Hw (_ & _ & -> & _). apply list_lookup_insert_eq. by eapply lookup_lt_Some. Qed.

Lemma leads_trans i x w1 y w2 z : leads i x w1 y -> leads i y w2 z -> leads i x w2 z.
Proof.
  intros (H1 & _ & H3 & H4) (L1 & L2 & L3 & L4). split_and!; [by etrans|done| |congruence].
  by rewrite L3, H3, list_insert_insert_eq.
Qed.

(** With everybody at rest, worker [i] evaluates [stopping()] and leaves. *)
Lemma finish i x w :
  quiet x -> (forall j v, sd_workers x !! j = Some v -> settled v) -> sd_workers x !! i = Some w ->
  exists w' y, leads i x w' y /\ w_pc w' = Exited.
Proof.
  intros Hq Hall Hw. pose proof (Hall i w Hw) as Hs.
  destruct (idle_term w) eqn:Ht; [by eapply leave|]. destruct Hs as [Hr|He].
  2: { exists w, x. split; [|done]. split_and!; [done|done|by rewrite list_insert_id|done]. }
  set (x1 := set_worker i (WState (Scanning 0) false) (sd_sched x) x).
  assert (moves i w x (WState (Scanning 0) false) x1) as Hm.
  { apply quiet_moves; try done; [|by destruct Hq|by rewrite Ht]. unfold advance. rewrite Hr, Ht.
    by rewrite (qu_stopped _ Hq). }
  pose proof Hm as (_ & Hq1 & _). pose proof (moved_worker _ _ _ _ _ Hw Hm) as Hw1.
  destruct (evaluate i _ x1 Hq1 Hw1 I) as (y & Hl).
  { apply (all_inactive x1 (qu_inv _ Hq1)). intros j v Hv. simpl in Hv.
    apply list_lookup_insert_Some in Hv as [(<- & <- & _)|[_ Hv]]; [done|]. by apply settled_inactive, (Hall j). }
  pose proof Hl as (_ & Hq2 & _). pose proof (leads_worker _ _ _ _ _ Hw1 Hl) as Hw2.
  destruct (settle i _ y Hq2 Hw2) as (w3 & z & Hl3 & Hs3 & Ht3).
  pose proof Hl3 as (_ & Hq3 & _). pose proof (leads_worker _ _ _ _ _ Hw2 Hl3) as Hw3.
  destruct (leave i z w3 Hq3 Hw3 Hs3 (Ht3 eq_refl)) as (w4 & z4 & Hl4 & He4).
  exists w4, z4. split; [|done]. eapply moves_leads; [exact Hw|exact Hm|].
  eapply leads_trans; [exact Hl|]. by eapply leads_trans.
Qed.

Lemma settle_all x n : quiet x ->
  exists y, rtc stop_step x y /\ quiet y /\ length (sd_workers y) = length (sd_workers x) /\
    (forall j w, (j < n)%nat -> sd_workers y !! j = Some w -> settled w).
Proof.
  intros Hq. induction n as [|n (y & Hr & Hqy & Hl & Hy)]; [exists x; split_and!; [done..|lia]|].
  destruct (sd_workers y !! n) as [w|] eqn:Hw.
  - destruct (settle n w y Hqy Hw) as (w' & z & (H1 & H2 & H3 & _) & Hs & _).
    exists z. split_and!; [by etrans|done|by rewrite H3, length_insert|]. intros j v Hj Hv. rewrite H3 in Hv.
    apply list_lookup_insert_Some in Hv as [(<- & <- & _)|[Hne Hv]]; [done|]. apply (Hy j v); [lia|done].
  - exists y. split_and!; [done..|]. intros j v Hj Hv. destruct (decide (j = n)) as [->|]; [congruence|].
    apply (Hy j v); [lia|done].
Qed.

Lemma finish_all x n : quiet x -> (forall j w, sd_workers x !! j = Some w -> settled w) ->
  exists y, rtc stop_step x y /\ quiet y /\ (forall j w, sd_workers y !! j = Some w -> settled w) /\
    length (sd_workers y) = length (sd_workers x) /\
    (forall j w, (j < n)%nat -> sd_workers y !! j = Some w -> w_pc w = Exited).
Proof.
  intros Hq Hall. induction n as [|n (y & Hr & Hqy & Hy & Hl & He)]; [exists x; split_and!; [done..|lia]|].
  destruct (sd_workers y !! n) as [w|] eqn:Hw.
  - destruct (finish n y w Hqy Hy Hw) as (w' & z & (H1 & H2 & H3 & _) & Hex).
    exists z. split_and!; [by etrans|done| |by rewrite H3, length_insert|].
    + intros j v Hv. rewrite H3 in Hv. apply list_lookup_insert_Some in Hv as [(<- & <- & _)|[Hne Hv]]; [by right|by apply (Hy j)].
    + intros j v Hj Hv. rewrite H3 in Hv. apply list_lookup_insert_Some in Hv as [(<- & <- & _)|[Hne Hv]]; [done|].
      apply (He j v); [lia|done].
  - exists y. split_and!; [done..|]. intros j v Hj Hv. destruct (decide (j = n)) as [->|]; [congruence|].
    apply (He j v); [lia|done].
Qed.

Lemma quiet_stops x : quiet x -> exists y, rtc stop_step x y /\ joined y = true /\ all_tasks (sd_sched y) = [].
Proof.
  intros Hq. destruct (settle_all x (length (sd_workers x)) Hq) as (x1 & Hr & Hq1 & Hl & Hs).
  assert (forall j w, sd_workers x1 !! j = Some w -> settled w) as Hs1.
  { intros j w Hw. apply (Hs j w); [|done]. rewrite <- Hl. by eapply lookup_lt_Some. }
  destruct (finish_all x1 (length (sd_workers x1)) Hq1 Hs1) as (y & Hr2 & Hq2 & _ & Hl2 & He).
  exists y. split_and!; [by etrans| |by destruct Hq2]. apply joined_spec. intros j w Hw.
  apply (He j w); [|done]. rewrite <- Hl2. by eapply lookup_lt_Some.
Qed.

(** ** Theorems *)

Lemma common_unpinned s j q t :
  wf s -> workerQueues_ s !! j = Some q -> t ∈ queue_tasks q -> thread_ t = -1 -> t ∈ unpinnedTasks q.
Proof.
  intros Hwf Hq Hin E. destruct (proj1 (Forall_lookup _ _) (wf_queues _ Hwf) _ _ Hq) as [_ Hp].
  apply elem_of_app in Hin as [Hin|?]; [|done]. rewrite Forall_forall in Hp. by destruct (Hp t Hin).
Qed.

(** C13. [stop] abandons no task that any worker may run, unless it was handed in
    from outside after the order to stop.  In every interleaving of the workers of
    a well-formed scheduler whose threads have started (the lock regions of their
    takes, one queue at a time, the tasks they run and what those submit, the
    step-by-step evaluation of [stopping()] by their idle fibers), of outside
    submissions at any time and of [stop] itself: once every worker has left
    [run], so that the joins of [stop] return, a task still queued is pinned to a
    thread or is one of those that came from outside after the order; every
    [active] flag is down and the order to stop was given. *)
Theorem stop_leaves_no_common_task s x :
  wf s -> threads_known s -> rtc stop_step (stop_start s) x -> joined x = true ->
  (forall t, t ∈ all_tasks (sd_sched x) -> thread_ t <> -1 \/ t ∈ sd_late x) /\
  (forall q, q ∈ workerQueues_ (sd_sched x) -> active q = false) /\
  isStopped_ (sd_sched x) = true.
Proof.
  intros Hwf Hth Hr Hj. pose proof (stop_reachable_inv s x Hwf Hth Hr) as Hi. rewrite joined_spec in Hj.
  pose proof (sd_wf _ Hi) as Hw. pose proof (sd_length _ Hi) as Hlen. split_and!.
  - intros t Ht. destruct (decide (thread_ t = -1)) as [E|?]; [right|by left].
    destruct (all_tasks_elem _ _ Ht) as (j & q & Hq & Hin).
    destruct (lookup_lt_is_Some_2 (sd_workers x) j) as [w Hjw]; [rewrite Hlen; by eapply lookup_lt_Some|].
    destruct (sd_owner _ Hi j q w t Hq Hjw) as [Hl|?]; [|unfold live in Hl; by rewrite (Hj j w Hjw) in Hl|done].
    by eapply common_unpinned.
  - intros q Hq. apply list_elem_of_lookup_1 in Hq as [k Hk]. eapply (all_inactive x Hi); [|exact Hk].
    intros j w Hjw. unfold inactive. by rewrite (Hj j w Hjw).
  - pose proof (wf_some _ Hw) as Hc. unfold worker_count in Hc.
    destruct (lookup_lt_is_Some_2 (sd_workers x) 0) as [w Hw0]; [lia|]. apply (sd_told _ Hi _ _ Hw0).
    right. by rewrite (Hj _ _ Hw0).
Qed.

(** A quiet scheduler stops: from every reachable state in which the stop
    was requested, nothing is queued and no task runs, the workers can all leave
    [run], after which [stop] returns, with nothing queued. *)
Theorem quiet_scheduler_stops s x :
  wf s -> threads_known s -> rtc stop_step (stop_start s) x ->
  isStopped_ (sd_sched x) = true -> all_tasks (sd_sched x) = [] ->
  (forall i w, sd_workers x !! i = Some w -> match w_pc w with Working _ => False | _ => True end) ->
  exists y, rtc stop_step x y /\ joined y = true /\ all_tasks (sd_sched y) = [].
Proof.
  intros Hwf Hth Hr Hst Ht Hid. apply quiet_stops. split; [|done..]. by eapply stop_reachable_inv.
Qed.

(** *** A lost task *)

Definition three_workers : Scheduler :=
  Sched [set_threadId 10 new_worker; set_threadId 11 new_worker; set_threadId 12 new_worker] 0 1 1
    (CacheStats 0 0 0 0 0) 3 0 false (-1) false [] ∅ 0.

Lemma three_workers_wf : wf three_workers.
Proof. split; [done| |done]. by repeat constructor. Qed.

Lemma three_workers_known : threads_known three_workers.
Proof. by repeat constructor. Qed.

Definition times (n : nat) (i : nat) : list stop_action := replicate n (Advance i).

(** Workers 0 and 1 evaluate [stopping()] while worker 2 runs a task, and look
    at its flag after it has submitted a task for worker 1 and come to rest; so
    both find that they may stop, and worker 0 leaves.  Worker 2 reads queue 0
    before, and queue 1 after, worker 1 takes that task; the task submits one for
    worker 0; worker 1 leaves, and worker 2 finds all flags down. *)
Definition lost_run : list stop_action :=
  External outsider (task_for 12 1) :: times 2 2 ++ times 6 0 ++ times 6 1 ++ Stop outsider ::
  times 7 0 ++ times 7 1 ++ Submit 2 (task_for 11 2) :: times 7 2 ++ times 2 0 ++ times 2 1 ++
  times 7 0 ++ times 2 2 ++ times 2 1 ++ times 3 2 ++ Submit 1 (task_for 10 3) :: times 8 1 ++ times 11 2.

Lemma stop_acts_run l x y : Forall allowed l -> stop_acts l x = Some y -> rtc stop_step x y.
Proof.
  revert x. induction l as [|a l IH]; intros x Ha E; simpl in E; [by injection E as ->|].
  apply Forall_cons in Ha as [Ha Hl]. destruct (stop_act a x) as [x1|] eqn:E1; [|done]. simpl in E.
  eapply rtc_l; [|by apply IH]. by exists a.
Qed.

(** [stopping()] is not a snapshot, and a pinned task can be lost: there is
    a run of three workers after which every worker has left [run], so [stop]
    returns, while a task pinned to worker 0, submitted by a task during the
    stop, is still in its queue and will never run. *)
Theorem pinned_task_can_be_lost :
  exists x, rtc stop_step (stop_start three_workers) x /\ joined x = true /\
    all_tasks (sd_sched x) = [task_for 10 3].
Proof.
  destruct (stop_acts lost_run (stop_start three_workers)) as [x|] eqn:E; [|by vm_compute in E].
  exists x. split; [eapply stop_acts_run; [|exact E]; by repeat constructor|].
  vm_compute in E. injection E as <-. by vm_compute.
Qed.

(** The exception is real: a task that arrives from outside when the workers
    have gone is accepted and stays. *)
Lemma late_task_stays :
  exists x, rtc stop_step (stop_start three_workers) x /\ joined x = true /\
    all_tasks (sd_sched x) = [task_any 1] /\ sd_late x = [task_any 1].
Proof.
  set (l := Stop outsider :: times 22 0 ++ times 22 1 ++ times 22 2 ++ [External outsider (task_any 1)]).
  destruct (stop_acts l (stop_start three_workers)) as [x|] eqn:E; [|by vm_compute in E].
  exists x. split; [eapply stop_acts_run; [|exact E]; by repeat constructor|].
  vm_compute in E. injection E as <-. by vm_compute.
Qed.

(** *** Witnesses *)

Definition after_acts (l : list stop_action) (x : stop_world) : stop_world := default x (stop_acts l x).

(** One task is run and both workers come to rest; then the scheduler is stopped. *)
Definition work_run : list stop_action := External outsider (task_any 1) :: times 8 0 ++ times 5 1 ++ [Stop outsider].
Definition stop_run : list stop_action := work_run ++ times 13 0 ++ times 13 1.

Lemma two_workers_known : threads_known two_workers.
Proof. by repeat constructor. Qed.

Lemma acts_run l : Forall allowed l -> is_Some (stop_acts l (stop_start two_workers)) ->
  rtc stop_step (stop_start two_workers) (after_acts l (stop_start two_workers)).
Proof. intros Ha [x E]. unfold after_acts. rewrite E. by eapply stop_acts_run. Qed.

Lemma work_run_ok : rtc stop_step (stop_start two_workers) (after_acts work_run (stop_start two_workers)).
Proof. apply acts_run; [by repeat constructor|by vm_compute; eexists]. Qed.

Lemma stop_run_ok : rtc stop_step (stop_start two_workers) (after_acts stop_run (stop_start two_workers)).
Proof. apply acts_run; [by repeat constructor|by vm_compute; eexists]. Qed.

Lemma stop_leaves_no_common_task_witness :
  isStopped_ (sd_sched (after_acts stop_run (stop_start two_workers))) = true.
Proof.
  destruct (stop_leaves_no_common_task two_workers _ two_workers_wf two_workers_known stop_run_ok) as (_ & _ & H);
    [vm_compute; reflexivity|exact H].
Defined.

Lemma quiet_scheduler_stops_witness :
  exists y, rtc stop_step (after_acts work_run (stop_start two_workers)) y /\ joined y = true /\
    all_tasks (sd_sched y) = [].
Proof.
  apply (quiet_scheduler_stops two_workers _ two_workers_wf two_workers_known work_run_ok);
    [vm_compute; reflexivity|vm_compute; reflexivity|].
  intros i w Hw. destruct i as [|[|i]]; vm_compute in Hw; [injection Hw as <-; exact I..|discriminate Hw].
Defined.
