(* ===== verification/Sync.v ===== *)
(** * Fiber synchronisation (src/sync.cpp, include/pulsar/sync.hpp)

    The wait queue, the hand-off mutex and the counting semaphore.  Code between
    the locking and the unlocking of a [guard_] is one function; what a fiber does
    from one such region to the next is its control state, and the threads
    interleave the regions. *)

From S2P Require Import Prelude.

(** errno values (Linux). *)
Definition EPERM : Z := 1.
Definition EBUSY : Z := 16.
Definition EINVAL : Z := 22.
Definition EDEADLK : Z := 35.
Definition ENOTSUP : Z := 95.
Definition ETIMEDOUT : Z := 110.
Definition ECANCELED : Z := 125.

Definition kFiberWaitForever : Z := UINT64_MAX.

(** ** The wait queue

    Waiters are shared objects: the queue, the waiting fiber and the timer
    callback all refer to them by address.  [resumptions] logs the calls
    [scheduler->scheduler(fiber, thread_id)]. *)
Record Waiter := MkWaiter {
  w_fiber : Z;
  w_thread : Z;
  w_waiting : bool;
  w_error : Z }.

Record WaitQueue := WQ {
  waiters_ : list Z;
  objects : gmap Z Waiter;
  resumptions : list (Z * Z) }.

Definition empty_queue : WaitQueue := WQ [] ∅ [].

(** [waiters_.erase(std::find(...))] *)
Fixpoint erase_first (a : Z) (l : list Z) : list Z :=
  match l with
  | [] => []
  | b :: l' => if a =? b then l' else b :: erase_first a l'
  end.

(** [completeLocked] *)
Definition completeLocked (waiter error : Z) : M WaitQueue bool := fun q =>
  match objects q !! waiter with
  | None => Ret false q
  | Some w =>
      if negb (w_waiting w) then Ret false q
      else if bool_decide (waiter ∈ waiters_ q) then
        Ret true (WQ (erase_first waiter (waiters_ q))
                    (<[waiter := MkWaiter (w_fiber w) (w_thread w) false error]> (objects q))
                    (resumptions q ++ [(w_fiber w, w_thread w)]))
      else Ret false q
  end.

(** [wakeOneLocked]: the loop runs while the front cannot be completed.  With
    [fuel] rounds; a round that fails leaves the queue as it is, so running
    out is an endless loop. *)
Fixpoint wakeOneLocked (fuel : nat) (error : Z) : M WaitQueue bool :=
  q ← get;
  match waiters_ q with
  | [] => mret false
  | w :: _ =>
      match fuel with
      | O => stop (Panic "out of fuel")
      | S fuel' =>
          b ← completeLocked w error;
          if b : bool then mret true else wakeOneLocked fuel' error
      end
  end.

Fixpoint wakeAll_loop (fuel : nat) (error count : Z) : M WaitQueue Z :=
  b ← wakeOneLocked 1 error;
  if b : bool then
    match fuel with
    | O => stop (Panic "out of fuel")
    | S fuel' => wakeAll_loop fuel' error (u64 (count + 1))
    end
  else mret count.

(** [wakeAllLocked] *)
Definition wakeAllLocked (error : Z) : M WaitQueue Z :=
  q ← get; wakeAll_loop (length (waiters_ q)) error 0.

(** [waitLocked] up to the release of the guard: an error, or the new waiter
    object (at the fresh address [a]) is in the queue. *)
Definition wait_enter (has_scheduler : bool) (a fiber thread timeout_ms : Z) :
    M WaitQueue (option Z) :=
  if negb has_scheduler then mret (Some EINVAL)
  else if timeout_ms =? 0 then mret (Some ETIMEDOUT)
  else
    modify (fun q => WQ (waiters_ q ++ [a]) (<[a := MkWaiter fiber thread true 0]> (objects q))
                       (resumptions q));;
    mret None.

(** [waitLocked] after the yield: the last region.  The answer is the error the
    waiter was completed with. *)
Definition wait_leave (a : Z) : M WaitQueue Z :=
  q ← get;
  match objects q !! a with
  | None => stop (Undefined "waiter object gone")
  | Some w =>
      (if w_waiting w then completeLocked a ECANCELED;; mret tt else mret tt);;
      mret (w_error w)
  end.

(** ** The mutex *)

Record FiberMutex := Mutex {
  owner_ : option Z;
  handoff_ : bool;
  queue : WaitQueue }.

Definition set_queue (q : WaitQueue) (m : FiberMutex) : FiberMutex := Mutex (owner_ m) (handoff_ m) q.
Definition on_queue {A} (c : M WaitQueue A) : M FiberMutex A := zoom queue set_queue c.

(** What a region of [lock()] leads to. *)
Inductive lock_result :=
| Acquired
| Failed (errno : Z)
| Parking (waiter : Z).

(** [timeout_ms == kFiberWaitForever ? 0 : GetElapsedMS() + timeout_ms] *)
Definition deadline_of (now timeout_ms : Z) : option Z :=
  if timeout_ms =? kFiberWaitForever then None else Some (u64 (now + timeout_ms)).

(** The remaining time handed to [waitLocked]; [None] once it is over. *)
Definition remaining (now : Z) (deadline : option Z) : option Z :=
  match deadline with
  | None => Some kFiberWaitForever
  | Some d => if now >=? d then None else Some (u64 (d - now))
  end.

(** The first region of [lock()], by the fiber [current] of [thread]; [a] is
    the address of the waiter it may create. *)
Definition lock_region (sched : bool) (current thread now a : Z) (deadline : option Z) (selected_waiter : bool) :
    M FiberMutex lock_result :=
  m ← get;
  if bool_decide (owner_ m = None) && (negb (handoff_ m) || selected_waiter) then
    modify (fun m => Mutex (Some current) false (queue m));; mret Acquired
  else if bool_decide (owner_ m = Some current) then mret (Failed EDEADLK)
  else
    match remaining now deadline with
    | None => mret (Failed ETIMEDOUT)
    | Some rest =>
        r ← on_queue (wait_enter sched a current thread rest);
        mret (match r with Some e => Failed e | None => Parking a end)
    end.

(** [FiberMutex::try_lock] *)
Definition try_lock (current : Z) : M FiberMutex (option Z) :=
  m ← get;
  if bool_decide (owner_ m = None) && negb (handoff_ m) then
    modify (fun m => Mutex (Some current) (handoff_ m) (queue m));; mret None
  else mret (Some (if bool_decide (owner_ m = Some current) then EDEADLK else EBUSY)).

(** [FiberMutex::unlock] *)
Definition unlock (current : Z) : M FiberMutex (option Z) :=
  m ← get;
  if bool_decide (owner_ m = Some current) then
    modify (fun m => Mutex None (handoff_ m) (queue m));;
    b ← on_queue (wakeOneLocked 1 0);
    modify (fun m => Mutex (owner_ m) b (queue m));;
    mret None
  else mret (Some EPERM).

Definition locked (m : FiberMutex) : bool := bool_decide (is_Some (owner_ m)).
Definition ownedByCurrent (current : Z) (m : FiberMutex) : bool := bool_decide (owner_ m = Some current).

(** [FiberMutex::cancelWaiters] *)
Definition cancelWaiters (error : Z) : M FiberMutex Z := on_queue (wakeAllLocked error).

(** ** The semaphore *)

Record FiberSemaphore := Sem {
  count_ : Z;
  sem_queue : WaitQueue }.

Definition on_sem {A} (c : M WaitQueue A) : M FiberSemaphore A :=
  zoom sem_queue (fun q s => Sem (count_ s) q) c.

(** The region of [FiberSemaphore::wait] (for a count other than 0). *)
Definition sem_wait_region (sched : bool) (current thread now a count : Z) (deadline : option Z) :
    M FiberSemaphore lock_result :=
  s ← get;
  if count_ s >=? count then
    modify (fun s => Sem (u64 (count_ s - count)) (sem_queue s));; mret Acquired
  else
    match remaining now deadline with
    | None => mret (Failed ETIMEDOUT)
    | Some rest =>
        r ← on_sem (wait_enter sched a current thread rest);
        mret (match r with Some e => Failed e | None => Parking a end)
    end.

(** [FiberSemaphore::signal] *)
Definition signal (count : Z) : M FiberSemaphore unit :=
  if count =? 0 then mret tt
  else
    modify (fun s => Sem (u64 (count_ s + count)) (sem_queue s));;
    on_sem (wakeAllLocked 0);;
    mret tt.

Definition sem_cancelWaiters (error : Z) : M FiberSemaphore Z := on_sem (wakeAllLocked error).

(** ** Fibers between the regions

    Where a fiber is in a call: about to lock the guard, past [waitLocked]'s
    release of the guard with a timer still to be armed, suspended, resumed
    and about to lock the guard again, or holding the mutex.  [D] is what the
    call keeps in its local variables. *)
Inductive pc (D : Type) : Type :=
| Outside
| AtGuard (d : D)
| Arming (a : Z) (d : D)
| Parked (a : Z) (d : D)
| Resumed (a : Z) (d : D)
| Holding.
Arguments Outside {D}.
Arguments AtGuard {D} d.
Arguments Arming {D} a d.
Arguments Parked {D} a d.
Arguments Resumed {D} a d.
Arguments Holding {D}.

Definition pcs (D : Type) : Type := Z -> pc D.
Definition at_pc {D} (f : Z) (x : pc D) (p : pcs D) : pcs D := fun g => if f =? g then x else p g.

(** The scheduler runs a resumption: the pending entry goes away. *)
Fixpoint erase_resumption (f : Z) (l : list (Z * Z)) : list (Z * Z) :=
  match l with
  | [] => []
  | x :: l' => if f =? x.1 then l' else x :: erase_resumption f l'
  end.

Definition run_resumption (f : Z) (q : WaitQueue) : WaitQueue :=
  WQ (waiters_ q) (objects q) (erase_resumption f (resumptions q)).

(** The local variables of [lock()]: the deadline and [selected_waiter]. *)
Definition lock_vars : Type := option Z * bool.

Record mworld := MWorld {
  mx : FiberMutex;
  mpc : pcs lock_vars }.

(** Where [lock()] continues after its first region. *)
Definition after_region (d : lock_vars) (r : lock_result) : pc lock_vars :=
  match r with
  | Acquired => Holding
  | Failed _ => Outside
  | Parking a => match d.1 with None => Parked a d | Some _ => Arming a d end
  end.

(** The regions of the mutex, interleaved.  [iom]: whether the fibers run under
    an [IOManager] (a plain [Scheduler] has no timers).  A caller whose thread has no
    scheduler is told [EINVAL] instead of waiting, which leaves the mutex as it is. *)
Inductive mutex_step (iom : bool) : mworld -> mworld -> Prop :=
| ms_call m p f now timeout :
    p f = Outside ->
    mutex_step iom (MWorld m p) (MWorld m (at_pc f (AtGuard (deadline_of now timeout, false)) p))
| ms_region m p f thread now a d r m' :
    p f = AtGuard d -> objects (queue m) !! a = None ->
    lock_region true f thread now a d.1 d.2 m = Ret r m' ->
    mutex_step iom (MWorld m p) (MWorld m' (at_pc f (after_region d r) p))
| ms_arm m p f a d :
    p f = Arming a d -> iom = true ->
    mutex_step iom (MWorld m p) (MWorld m (at_pc f (Parked a d) p))
| ms_not_supported m p f a d b m' :
    p f = Arming a d -> iom = false -> on_queue (completeLocked a ENOTSUP) m = Ret b m' ->
    mutex_step iom (MWorld m p) (MWorld m' (at_pc f Outside p))
| ms_timeout m p f a d b m' :
    p f = Parked a d -> is_Some d.1 -> on_queue (completeLocked a ETIMEDOUT) m = Ret b m' ->
    mutex_step iom (MWorld m p) (MWorld m' p)
| ms_resume m p f a d :
    p f = Parked a d -> f ∈ (resumptions (queue m)).*1 ->
    mutex_step iom (MWorld m p) (MWorld (set_queue (run_resumption f (queue m)) m) (at_pc f (Resumed a d) p))
| ms_leave m p f a d e m' :
    p f = Resumed a d -> on_queue (wait_leave a) m = Ret e m' ->
    mutex_step iom (MWorld m p)
      (MWorld m' (at_pc f (if e =? 0 then AtGuard (d.1, true) else Outside) p))
| ms_unlock m p f r m' :
    p f = Holding -> unlock f m = Ret r m' ->
    mutex_step iom (MWorld m p) (MWorld m' (at_pc f Outside p))
| ms_try_lock m p f r m' :
    p f = Outside -> try_lock f m = Ret r m' ->
    mutex_step iom (MWorld m p) (MWorld m' (at_pc f (if r is Some _ then Outside else Holding) p))
| ms_cancel m p e n m' :
    e <> 0 -> cancelWaiters e m = Ret n m' ->
    mutex_step iom (MWorld m p) (MWorld m' p).

(** The regions of the semaphore; its [wait] keeps the count and the deadline. *)
Definition sem_vars : Type := Z * option Z.

Record semworld := SemWorld {
  sm : FiberSemaphore;
  spc : pcs sem_vars;
  granted_total : Z;      (* units handed to successful waits *)
  signalled_total : Z }.  (* units signalled *)

Definition after_sem_region (d : sem_vars) (r : lock_result) : pc sem_vars :=
  match r with
  | Parking a => match d.2 with None => Parked a d | Some _ => Arming a d end
  | _ => Outside
  end.

(** [iom] is as for the mutex; a caller without a scheduler ([sched]) is told [EINVAL]
    when it would have to wait. *)
Inductive sem_step (iom : bool) : semworld -> semworld -> Prop :=
| ss_call s p g t f now count timeout :
    p f = Outside -> 0 < count < 2 ^ 64 ->
    sem_step iom (SemWorld s p g t) (SemWorld s (at_pc f (AtGuard (count, deadline_of now timeout)) p) g t)
| ss_region s p g t f sched thread now a d r s' :
    p f = AtGuard d -> objects (sem_queue s) !! a = None ->
    sem_wait_region sched f thread now a d.1 d.2 s = Ret r s' ->
    sem_step iom (SemWorld s p g t)
      (SemWorld s' (at_pc f (after_sem_region d r) p) (if r is Acquired then g + d.1 else g) t)
| ss_arm s p g t f a d :
    p f = Arming a d -> iom = true -> sem_step iom (SemWorld s p g t) (SemWorld s (at_pc f (Parked a d) p) g t)
| ss_not_supported s p g t f a d b s' :
    p f = Arming a d -> iom = false -> on_sem (completeLocked a ENOTSUP) s = Ret b s' ->
    sem_step iom (SemWorld s p g t) (SemWorld s' (at_pc f Outside p) g t)
| ss_timeout s p g t f a d b s' :
    p f = Parked a d -> is_Some d.2 -> on_sem (completeLocked a ETIMEDOUT) s = Ret b s' ->
    sem_step iom (SemWorld s p g t) (SemWorld s' p g t)
| ss_resume s p g t f a d :
    p f = Parked a d -> f ∈ (resumptions (sem_queue s)).*1 ->
    sem_step iom (SemWorld s p g t)
      (SemWorld (Sem (count_ s) (run_resumption f (sem_queue s))) (at_pc f (Resumed a d) p) g t)
| ss_leave s p g t f a d e s' :
    p f = Resumed a d -> on_sem (wait_leave a) s = Ret e s' ->
    sem_step iom (SemWorld s p g t) (SemWorld s' (at_pc f (if e =? 0 then AtGuard d else Outside) p) g t)
| ss_signal s p g t n s' :
    0 <= n < 2 ^ 64 -> signal n s = Ret tt s' ->
    sem_step iom (SemWorld s p g t) (SemWorld s' p g (t + n))
| ss_cancel s p g t e n s' :
    e <> 0 -> sem_cancelWaiters e s = Ret n s' ->
    sem_step iom (SemWorld s p g t) (SemWorld s' p g t).
