(* ===== verification/SyncProofs.v ===== *)
(** * Correctness of fiber synchronisation

    One invariant of the wait queue serves the mutex and the semaphore: every
    suspended fiber is either queued or has exactly one resumption pending. *)

From S2P Require Import Prelude Sync.

(** ** Lists *)

Lemma erase_first_elem a b l : NoDup l -> b ∈ erase_first a l <-> b ∈ l /\ b <> a.
Proof.
  induction l as [|c l IH]; simpl; intros Hn; [set_solver|].
  apply NoDup_cons in Hn as [Hc Hn]. destruct (a =? c) eqn:E; to_prop.
  - subst c. rewrite elem_of_cons. split; [|naive_solver].
    intros Hb. split; [by right|]. by intros ->.
  - rewrite !elem_of_cons, (IH Hn). naive_solver.
Qed.

Lemma erase_first_nodup a l : NoDup l -> NoDup (erase_first a l).
Proof.
  induction l as [|c l IH]; simpl; intros Hn; [done|].
  pose proof Hn as [Hc Hl]%NoDup_cons. destruct (a =? c); [done|]. constructor; [|by apply IH].
  rewrite erase_first_elem by done. tauto.
Qed.

Lemma erase_first_length a l : a ∈ l -> S (length (erase_first a l)) = length l.
Proof.
  induction l as [|c l IH]; simpl; [set_solver|]. intros Ha. destruct (a =? c) eqn:E; to_prop; [done|].
  simpl. rewrite IH; [done|]. set_solver.
Qed.

Lemma erase_resumption_elem f g l :
  NoDup l.*1 -> g ∈ (erase_resumption f l).*1 <-> g ∈ l.*1 /\ g <> f.
Proof.
  induction l as [|[h th] l IH]; simpl; intros Hn; [set_solver|].
  apply NoDup_cons in Hn as [Hc Hn]. destruct (f =? h) eqn:E; to_prop.
  - subst h. rewrite elem_of_cons. split; [|naive_solver].
    intros Hb. split; [by right|]. by intros ->.
  - simpl. rewrite !elem_of_cons, (IH Hn). naive_solver.
Qed.

Lemma erase_resumption_nodup f l : NoDup l.*1 -> NoDup (erase_resumption f l).*1.
Proof.
  induction l as [|[h th] l IH]; simpl; intros Hn; [done|].
  pose proof Hn as [Hc Hl]%NoDup_cons. destruct (f =? h); [done|]. simpl. constructor; [|by apply IH].
  rewrite erase_resumption_elem by done. tauto.
Qed.

Lemma at_pc_eq {D} f (x : pc D) p : at_pc f x p f = x.
Proof. unfold at_pc. by rewrite Z.eqb_refl. Qed.

Lemma at_pc_ne {D} f g (x : pc D) p : g <> f -> at_pc f x p g = p g.
Proof. intros H. unfold at_pc. destruct (f =? g) eqn:E; to_prop; congruence. Qed.

(** ** The invariant of a wait queue *)

Section queue_invariant.
Context {D : Type}.
Implicit Types (p : pcs D) (q : WaitQueue).

Definition waiter_of (x : pc D) : option Z :=
  match x with Arming a _ | Parked a _ | Resumed a _ => Some a | _ => None end.

Definition pending (q : WaitQueue) (f : Z) : Prop := f ∈ (resumptions q).*1.

Definition fiber_ok p q (f : Z) : Prop :=
  match p f with
  | Arming a _ | Parked a _ => exists th b e, objects q !! a = Some (MkWaiter f th b e) /\
      if b : bool then e = 0 /\ a ∈ waiters_ q /\ ~ pending q f else (a ∉ waiters_ q) /\ pending q f
  | Resumed a _ => exists th e, objects q !! a = Some (MkWaiter f th false e) /\
      (a ∉ waiters_ q) /\ ~ pending q f
  | _ => ~ pending q f
  end.

Record qinv p q : Prop := {
  qi_fiber : forall f, fiber_ok p q f;
  qi_nodup : NoDup (waiters_ q);
  qi_owner : forall a, a ∈ waiters_ q -> exists f, waiter_of (p f) = Some a;
  qi_res : NoDup (resumptions q).*1 }.

Lemma qinv_object p q f a : qinv p q -> waiter_of (p f) = Some a ->
  exists th b e, objects q !! a = Some (MkWaiter f th b e) /\ (b = true -> e = 0 /\ a ∈ waiters_ q) /\
    (b = false -> a ∉ waiters_ q).
Proof.
  intros Hq Hf. pose proof (qi_fiber _ _ Hq f) as H. unfold fiber_ok in H.
  destruct (p f); simplify_eq/=; naive_solver.
Qed.

Lemma qinv_unique p q f g a :
  qinv p q -> waiter_of (p f) = Some a -> waiter_of (p g) = Some a -> f = g.
Proof.
  intros Hq Hf Hg. destruct (qinv_object _ _ _ _ Hq Hf) as (? & ? & ? & H1 & _).
  destruct (qinv_object _ _ _ _ Hq Hg) as (? & ? & ? & H2 & _). congruence.
Qed.

(** A queued waiter belongs to a fiber that is suspended or about to be. *)
Lemma qinv_queued p q a : qinv p q -> a ∈ waiters_ q ->
  exists f th d, (p f = Arming a d \/ p f = Parked a d) /\ ~ pending q f /\
    objects q !! a = Some (MkWaiter f th true 0).
Proof.
  intros Hq Ha. destruct (qi_owner _ _ Hq a Ha) as [f Hf]. pose proof (qi_fiber _ _ Hq f) as H.
  unfold fiber_ok in H. destruct (p f) as [| |x d|x d|x d|] eqn:E; simplify_eq/=.
  - destruct H as (th & [] & e & H1 & H2); [|naive_solver]. exists f, th, d. naive_solver.
  - destruct H as (th & [] & e & H1 & H2); [|naive_solver]. exists f, th, d. naive_solver.
  - naive_solver.
Qed.

Definition completed (a f th e : Z) (q : WaitQueue) : WaitQueue :=
  WQ (erase_first a (waiters_ q)) (<[a := MkWaiter f th false e]> (objects q))
    (resumptions q ++ [(f, th)]).

Lemma pending_completed q a f th e g : pending (completed a f th e q) g <-> pending q g \/ g = f.
Proof.
  unfold pending. simpl. rewrite fmap_app, elem_of_app. simpl. by rewrite list_elem_of_singleton.
Qed.

Lemma completeLocked_queued p q a e :
  qinv p q -> a ∈ waiters_ q ->
  exists f th d, (p f = Arming a d \/ p f = Parked a d) /\
    objects q !! a = Some (MkWaiter f th true 0) /\
    completeLocked a e q = Ret true (completed a f th e q) /\ qinv p (completed a f th e q).
Proof.
  intros Hq Ha. destruct (qinv_queued _ _ _ Hq Ha) as (f & th & d & Hf & Hnp & Ho).
  exists f, th, d. split; [done|]. split; [done|]. split.
  { unfold completeLocked. rewrite Ho. simpl. by rewrite bool_decide_eq_true_2. }
  assert (Hwf : waiter_of (p f) = Some a) by (by destruct Hf as [->| ->]).
  split; simpl.
  - intros g. pose proof (qi_fiber _ _ Hq g) as Hg. unfold fiber_ok in *.
    assert (Hother : forall b, waiter_of (p g) = Some b -> g <> f -> b <> a).
    { intros b Hb Hne ->. by pose proof (qinv_unique _ _ _ _ _ Hq Hb Hwf). }
    destruct (decide (g = f)) as [->|Hne].
    + destruct Hf as [Hf|Hf]; rewrite Hf; exists th, false, e; simpl; rewrite lookup_insert_eq;
        (split; [done|]); rewrite erase_first_elem, pending_completed by apply Hq; naive_solver.
    + destruct (p g) as [| |b d'|b d'|b d'|] eqn:E; simpl;
        try (by rewrite pending_completed; intros [?|?]).
      * destruct Hg as (th' & b' & e' & Ho' & Hx). exists th', b', e'.
        rewrite lookup_insert_ne by (symmetry; by apply Hother). split; [done|].
        pose proof (Hother b eq_refl Hne).
        destruct b'; rewrite erase_first_elem, pending_completed by apply Hq; naive_solver.
      * destruct Hg as (th' & b' & e' & Ho' & Hx). exists th', b', e'.
        rewrite lookup_insert_ne by (symmetry; by apply Hother). split; [done|].
        pose proof (Hother b eq_refl Hne).
        destruct b'; rewrite erase_first_elem, pending_completed by apply Hq; naive_solver.
      * destruct Hg as (th' & e' & Ho' & Hx). exists th', e'.
        rewrite lookup_insert_ne by (symmetry; by apply Hother). split; [done|].
        rewrite erase_first_elem, pending_completed by apply Hq. naive_solver.
  - apply erase_first_nodup, Hq.
  - intros b Hb. apply erase_first_elem in Hb as [Hb _]; [|apply Hq]. by apply (qi_owner _ _ Hq).
  - rewrite fmap_app. apply NoDup_app. split; [apply Hq|]. split; [|apply NoDup_singleton].
    intros x Hx. simpl. rewrite list_elem_of_singleton. intros ->. done.
Qed.

Lemma completeLocked_gone p q f a e :
  qinv p q -> waiter_of (p f) = Some a -> a ∉ waiters_ q -> completeLocked a e q = Ret false q.
Proof.
  intros Hq Hf Ha. destruct (qinv_object _ _ _ _ Hq Hf) as (th & b & e' & Ho & H1 & _).
  unfold completeLocked. rewrite Ho. simpl. destruct b; [naive_solver|done].
Qed.

Lemma wakeOne_spec p q e :
  qinv p q ->
  match waiters_ q with
  | [] => wakeOneLocked 1 e q = Ret false q
  | a :: _ => exists f th d, (p f = Arming a d \/ p f = Parked a d) /\
      objects q !! a = Some (MkWaiter f th true 0) /\
      wakeOneLocked 1 e q = Ret true (completed a f th e q) /\ qinv p (completed a f th e q)
  end.
Proof.
  intros Hq. destruct (waiters_ q) as [|a l] eqn:E.
  - simpl. unfold mbind, M_bind, get. by rewrite E.
  - destruct (completeLocked_queued p q a e Hq) as (f & th & d & Hf & Ho & Hc & Hq').
    { rewrite E. left. }
    exists f, th, d. split; [done|]. split; [done|]. split; [|done].
    simpl. unfold mbind, M_bind, get. by rewrite E, Hc.
Qed.

(** Waking everybody empties the queue and only completes waiters with [e]. *)
Definition only_completed (e : Z) (q q' : WaitQueue) : Prop :=
  forall a w', objects q' !! a = Some w' ->
    objects q !! a = Some w' \/
    exists f th, objects q !! a = Some (MkWaiter f th true 0) /\ w' = MkWaiter f th false e.

Lemma wakeAll_loop_spec p e fuel : forall q c,
  qinv p q -> (length (waiters_ q) <= fuel)%nat ->
  exists q' n, wakeAll_loop fuel e c q = Ret n q' /\ qinv p q' /\ waiters_ q' = [] /\
    only_completed e q q' /\ (forall f, pending q f -> pending q' f).
Proof.
  assert (Hend : forall q c k, qinv p q -> waiters_ q = [] -> wakeAll_loop k e c q = Ret c q).
  { intros q c k Hq E. pose proof (wakeOne_spec p q e Hq) as H. rewrite E in H.
    destruct k; cbn [wakeAll_loop]; unfold mbind, M_bind; by rewrite H. }
  induction fuel as [|fuel IH]; intros q c Hq Hlen.
  { destruct (waiters_ q) eqn:E; [|simpl in Hlen; lia]. exists q, c.
    split; [by apply Hend|]. split_and!; try done. intros a w' H. by left. }
  destruct (waiters_ q) as [|a l] eqn:E.
  { exists q, c. split; [by apply Hend|]. split_and!; try done. intros a w' H. by left. }
  pose proof (wakeOne_spec p q e Hq) as H. rewrite E in H. destruct H as (f & th & d & Hf & Ho & Hw & Hq').
  destruct (IH (completed a f th e q) (u64 (c + 1)) Hq') as (q2 & n & E2 & Hq2 & Hn2 & Ho2 & Hp2).
  { simpl. rewrite E. simpl. rewrite Z.eqb_refl. simpl in Hlen. lia. }
  exists q2, n. split; [cbn [wakeAll_loop]; unfold mbind, M_bind; by rewrite Hw|]. split; [done|]. split; [done|].
  split.
  - intros b w' Hb. destruct (Ho2 b w' Hb) as [H|(f' & th' & H & ->)].
    + simpl in H. apply lookup_insert_Some in H as [[<- <-]|[_ H]]; [right; eauto|by left].
    + simpl in H. apply lookup_insert_Some in H as [[_ ?]|[_ H]]; [done|right; eauto].
  - intros g Hg. apply Hp2, pending_completed. by left.
Qed.

Lemma wakeAllLocked_spec p e q :
  qinv p q -> exists q' n, wakeAllLocked e q = Ret n q' /\ qinv p q' /\ waiters_ q' = [] /\
    only_completed e q q' /\ (forall f, pending q f -> pending q' f).
Proof.
  intros Hq. unfold wakeAllLocked. unfold mbind, M_bind, get. by apply wakeAll_loop_spec.
Qed.

(** ** Entering, resuming, leaving *)

Definition entered (a f th : Z) (q : WaitQueue) : WaitQueue :=
  WQ (waiters_ q ++ [a]) (<[a := MkWaiter f th true 0]> (objects q)) (resumptions q).

Lemma qinv_fresh p q a : qinv p q -> objects q !! a = None ->
  (a ∉ waiters_ q) /\ forall f, waiter_of (p f) <> Some a.
Proof.
  intros Hq Ha. split.
  - intros Hin. destruct (qinv_queued _ _ _ Hq Hin) as (? & ? & ? & _ & _ & Ho). congruence.
  - intros f Hf. destruct (qinv_object _ _ _ _ Hq Hf) as (? & ? & ? & Ho & _). congruence.
Qed.

Lemma qinv_enter p q f th a x d :
  qinv p q -> objects q !! a = None -> waiter_of (p f) = None ->
  (x = Arming a d \/ x = Parked a d) -> qinv (at_pc f x p) (entered a f th q).
Proof.
  intros Hq Ha Hf Hx. destruct (qinv_fresh _ _ _ Hq Ha) as [Hna Hnf].
  assert (Hnp : ~ pending q f).
  { pose proof (qi_fiber _ _ Hq f) as H. unfold fiber_ok in H. by destruct (p f). }
  split; simpl.
  - intros g. destruct (decide (g = f)) as [->|Hne].
    + unfold fiber_ok. rewrite at_pc_eq.
      destruct Hx as [-> | ->]; exists th, true, 0; simpl; rewrite lookup_insert_eq, elem_of_app;
        (split; [done|]); split_and!; try done; right; left.
    + pose proof (qi_fiber _ _ Hq g) as Hg. unfold fiber_ok in *. rewrite at_pc_ne by done.
      destruct (p g) as [| |b d'|b d'|b d'|] eqn:E; try done; simpl;
        assert (b <> a) by (intros ->; apply (Hnf g); by rewrite E).
      * destruct Hg as (th' & b' & e' & Ho' & Hy). exists th', b', e'.
        rewrite lookup_insert_ne by done. split; [done|].
        destruct b'; unfold pending in *; simpl; rewrite elem_of_app, list_elem_of_singleton; naive_solver.
      * destruct Hg as (th' & b' & e' & Ho' & Hy). exists th', b', e'.
        rewrite lookup_insert_ne by done. split; [done|].
        destruct b'; unfold pending in *; simpl; rewrite elem_of_app, list_elem_of_singleton; naive_solver.
      * destruct Hg as (th' & e' & Ho' & Hy). exists th', e'.
        rewrite lookup_insert_ne by done. unfold pending in *; simpl.
        rewrite elem_of_app, list_elem_of_singleton. naive_solver.
  - apply NoDup_app. split; [apply Hq|]. split; [|apply NoDup_singleton].
    intros b Hb. rewrite list_elem_of_singleton. by intros ->.
  - intros b [Hb|Hb%list_elem_of_singleton]%elem_of_app.
    + destruct (qi_owner _ _ Hq b Hb) as [g Hg]. exists g. rewrite at_pc_ne; [done|].
      intros ->. congruence.
    + subst b. exists f. rewrite at_pc_eq. by destruct Hx as [-> | ->].
  - apply Hq.
Qed.

(** Moving a fiber between control points that say the same about the queue. *)
Lemma qinv_move p q f x :
  qinv p q -> waiter_of x = waiter_of (p f) -> fiber_ok (at_pc f x p) q f -> qinv (at_pc f x p) q.
Proof.
  intros Hq Hw Hok. split; try apply Hq.
  - intros g. destruct (decide (g = f)) as [->|Hne]; [done|].
    pose proof (qi_fiber _ _ Hq g) as Hg. unfold fiber_ok in *. by rewrite at_pc_ne.
  - intros a Ha. destruct (qi_owner _ _ Hq a Ha) as [g Hg].
    destruct (decide (g = f)) as [->|Hne]; [exists f; rewrite at_pc_eq; congruence|].
    exists g. by rewrite at_pc_ne.
Qed.

Lemma qinv_resume p q f a d :
  qinv p q -> p f = Parked a d -> pending q f ->
  qinv (at_pc f (Resumed a d) p) (run_resumption f q) /\
  exists th e, objects q !! a = Some (MkWaiter f th false e).
Proof.
  intros Hq Hf Hp. pose proof (qi_fiber _ _ Hq f) as Hok. unfold fiber_ok in Hok. rewrite Hf in Hok.
  destruct Hok as (th & b & e & Ho & Hb). destruct b; [naive_solver|]. destruct Hb as [Hna _].
  assert (Hpend : forall g, pending (run_resumption f q) g <-> pending q g /\ g <> f).
  { intros g. unfold pending, run_resumption. simpl. apply erase_resumption_elem, Hq. }
  split; [|eauto]. split; simpl.
  - intros g. unfold fiber_ok. destruct (decide (g = f)) as [->|Hne].
    + rewrite at_pc_eq. exists th, e. rewrite Hpend. naive_solver.
    + rewrite at_pc_ne by done. pose proof (qi_fiber _ _ Hq g) as Hg. unfold fiber_ok in Hg.
      destruct (p g) as [| |b d'|b d'|b d'|]; try (rewrite Hpend; naive_solver); try (setoid_rewrite Hpend; naive_solver).
      * destruct Hg as (th' & b' & e' & Ho' & Hy). exists th', b', e'. split; [done|]. destruct b'; rewrite Hpend; naive_solver.
      * destruct Hg as (th' & b' & e' & Ho' & Hy). exists th', b', e'. split; [done|]. destruct b'; rewrite Hpend; naive_solver.
  - apply Hq.
  - intros b Hb. destruct (qi_owner _ _ Hq b Hb) as [g Hg].
    destruct (decide (g = f)) as [->|Hne]; [|exists g; by rewrite at_pc_ne].
    rewrite Hf in Hg. simplify_eq/=. done.
  - apply erase_resumption_nodup, Hq.
Qed.

(** The last region of a wait finds its waiter completed. *)
Lemma wait_leave_spec p q f a d :
  qinv p q -> p f = Resumed a d ->
  exists th e, objects q !! a = Some (MkWaiter f th false e) /\ wait_leave a q = Ret e q.
Proof.
  intros Hq Hf. pose proof (qi_fiber _ _ Hq f) as Hok. unfold fiber_ok in Hok. rewrite Hf in Hok.
  destruct Hok as (th & e & Ho & _). exists th, e. split; [done|].
  unfold wait_leave, mbind, M_bind, get. by rewrite Ho.
Qed.

(** Leaving: the fiber is at no waiter any more. *)
Lemma qinv_leave p q f a d x :
  qinv p q -> p f = Resumed a d -> waiter_of x = None -> qinv (at_pc f x p) q.
Proof.
  intros Hq Hf Hx. pose proof (qi_fiber _ _ Hq f) as Hok. unfold fiber_ok in Hok. rewrite Hf in Hok.
  destruct Hok as (th & e & Ho & Hna & Hnp). split; try apply Hq.
  - intros g. unfold fiber_ok. destruct (decide (g = f)) as [->|Hne].
    + rewrite at_pc_eq. by destruct x.
    + rewrite at_pc_ne by done. apply (qi_fiber _ _ Hq g).
  - intros b Hb. destruct (qi_owner _ _ Hq b Hb) as [g Hg].
    destruct (decide (g = f)) as [->|Hne]; [|exists g; by rewrite at_pc_ne].
    rewrite Hf in Hg. simplify_eq/=. done.
Qed.

Lemma qinv_plain p q f x :
  qinv p q -> waiter_of (p f) = None -> waiter_of x = None -> qinv (at_pc f x p) q.
Proof.
  intros Hq Hf Hx. apply qinv_move; [done|congruence|].
  pose proof (qi_fiber _ _ Hq f) as Hok. unfold fiber_ok in *. rewrite at_pc_eq.
  by destruct (p f), x.
Qed.

End queue_invariant.

(** ** The mutex *)

(** The fiber that [unlock()] selected: woken without error and not yet back
    at the guard, or back there as the selected waiter. *)
Definition granted_at (q : WaitQueue) (x : pc lock_vars) (g : Z) : Prop :=
  match x with
  | AtGuard (_, true) => True
  | Arming a _ | Parked a _ | Resumed a _ => exists th, objects q !! a = Some (MkWaiter g th false 0)
  | _ => False
  end.
Definition granted (w : mworld) (g : Z) : Prop := granted_at (queue (mx w)) (mpc w g) g.

(** With the hand-off pending the mutex is free and exactly one fiber is
    selected; otherwise none is. *)
Definition grant_ok (w : mworld) : Prop :=
  if handoff_ (mx w) then owner_ (mx w) = None /\ exists g, forall h, granted w h <-> h = g
  else forall h, ~ granted w h.

Record minv (w : mworld) : Prop := {
  mi_queue : qinv (mpc w) (queue (mx w));
  mi_owner : forall f, owner_ (mx w) = Some f <-> mpc w f = Holding;
  mi_grant : grant_ok w;
  mi_free : waiters_ (queue (mx w)) <> [] -> owner_ (mx w) <> None \/ handoff_ (mx w) = true }.

Lemma minv_granted_handoff w g : minv w -> granted w g -> handoff_ (mx w) = true /\ owner_ (mx w) = None.
Proof.
  intros Hi Hg. pose proof (mi_grant _ Hi) as H. unfold grant_ok in H.
  destruct (handoff_ (mx w)); [|by apply H in Hg].
  by destruct H.
Qed.

(** The grant part of the invariant only depends on who is granted. *)
Lemma grant_same w w' :
  minv w -> owner_ (mx w') = owner_ (mx w) -> handoff_ (mx w') = handoff_ (mx w) ->
  (forall h, granted w' h <-> granted w h) -> grant_ok w'.
Proof.
  intros Hi Ho Hh Hg. pose proof (mi_grant _ Hi) as H. unfold grant_ok in *. rewrite Hh, Ho.
  destruct (handoff_ (mx w)).
  - destruct H as [H1 [g H2]]. split; [done|]. exists g. intros h. by rewrite Hg.
  - intros h. rewrite Hg. apply H.
Qed.

Lemma granted_move m p f x h :
  (granted_at (queue m) x f <-> granted_at (queue m) (p f) f) ->
  granted (MWorld m (at_pc f x p)) h <-> granted (MWorld m p) h.
Proof.
  intros Hf. unfold granted. simpl. destruct (decide (h = f)) as [->|Hne]; [by rewrite at_pc_eq|].
  by rewrite at_pc_ne.
Qed.

Lemma owner_move m (p : pcs lock_vars) f x :
  (forall g, owner_ m = Some g <-> p g = Holding) -> (x = Holding <-> p f = Holding) ->
  forall g, owner_ m = Some g <-> at_pc f x p g = Holding.
Proof.
  intros Ho Hx g. destruct (decide (g = f)) as [->|Hne].
  - rewrite at_pc_eq, Hx. apply Ho.
  - rewrite at_pc_ne by done. apply Ho.
Qed.

(** A step of one fiber that leaves the mutex and the grant alone. *)
Lemma minv_move m p f x :
  minv (MWorld m p) -> qinv (at_pc f x p) (queue m) -> (x = Holding <-> p f = Holding) ->
  (granted_at (queue m) x f <-> granted_at (queue m) (p f) f) ->
  minv (MWorld m (at_pc f x p)).
Proof.
  intros Hi Hq Hh Hg. split; simpl; [done| | |apply Hi].
  - apply owner_move; [apply Hi|done].
  - apply (grant_same (MWorld m p)); try done. intros h. by apply granted_move.
Qed.

(** Completing a queued waiter with an error changes no grant. *)
Lemma granted_completed p q a f th e g :
  qinv p q -> objects q !! a = Some (MkWaiter f th true 0) -> e <> 0 ->
  granted_at (completed a f th e q) (p g) g <-> granted_at q (p g) g.
Proof.
  intros Hq Ho He. unfold granted_at.
  destruct (p g) as [| [d []]|b d|b d|b d|]; try done; simpl;
    destruct (decide (b = a)) as [->|Hne]; rewrite ?lookup_insert_eq, ?lookup_insert_ne by done; try done;
    split; intros [th' H]; congruence.
Qed.

Lemma granted_cancelled p q q' e g :
  qinv p q -> qinv p q' -> only_completed e q q' -> e <> 0 ->
  granted_at q' (p g) g <-> granted_at q (p g) g.
Proof.
  intros Hq Hq' Hoc He. unfold granted_at.
  assert (H : forall b, waiter_of (p g) = Some b ->
    (exists th, objects q' !! b = Some (MkWaiter g th false 0)) <->
    (exists th, objects q !! b = Some (MkWaiter g th false 0))).
  { intros b Hb. destruct (qinv_object _ _ _ _ Hq' Hb) as (th' & b' & e' & Ho' & _).
    destruct (Hoc _ _ Ho') as [H|(f' & th'' & H & Heq)].
    - rewrite Ho', H. done.
    - split; intros [th H2]; rewrite ?Ho' in H2; congruence. }
  destruct (p g) as [| [d []]|b d|b d|b d|]; try done; by apply H.
Qed.

(** *** The regions *)

(** A free mutex is taken by a fiber that nobody else's grant stands against. *)
Lemma minv_acquire m p f :
  minv (MWorld m p) -> waiter_of (p f) = None -> owner_ m = None ->
  (forall h, h <> f -> ~ granted (MWorld m p) h) ->
  minv (MWorld (Mutex (Some f) false (queue m)) (at_pc f Holding p)).
Proof.
  intros Hi Hf Hno Hothers. pose proof Hi as [Hq Ho _ _]. simpl in *. split; simpl.
  - by apply qinv_plain.
  - intros g. destruct (decide (g = f)) as [->|Hne]; [by rewrite at_pc_eq|].
    rewrite at_pc_ne by done. split; [congruence|]. intros Hh%Ho. congruence.
  - intros h Hh. unfold granted in Hh. simpl in Hh. destruct (decide (h = f)) as [->|Hne]; [by rewrite at_pc_eq in Hh|].
    apply (Hothers h Hne). unfold granted. simpl. by rewrite at_pc_ne in Hh.
  - intros _. by left.
Qed.

(** A fiber that is selected, or a mutex without hand-off, has no rival. *)
Lemma no_rival m p f d :
  minv (MWorld m p) -> p f = AtGuard d -> negb (handoff_ m) || d.2 = true ->
  forall h, h <> f -> ~ granted (MWorld m p) h.
Proof.
  intros Hi Hf Hd h Hne Hh. pose proof (minv_granted_handoff _ _ Hi Hh) as [Ht _]. simpl in Ht.
  pose proof (mi_grant _ Hi) as Hg. unfold grant_ok in Hg. simpl in Hg. rewrite Ht in Hd, Hg. destruct Hg as [_ [g Hg]].
  assert (granted (MWorld m p) f).
  { unfold granted. simpl. rewrite Hf. destruct d as [d0 b]. simpl in Hd. by rewrite Hd. }
  apply Hne. transitivity g; [by apply Hg|]. symmetry. by apply Hg.
Qed.

(** A fiber that is not granted enters the queue of a mutex that is not free. *)
Lemma minv_park m p f th a d x :
  minv (MWorld m p) -> p f = AtGuard d -> d.2 = false -> objects (queue m) !! a = None ->
  owner_ m <> None \/ handoff_ m = true -> x = Arming a d \/ x = Parked a d ->
  minv (MWorld (set_queue (entered a f th (queue m)) m) (at_pc f x p)).
Proof.
  intros Hi Hf Hsel Ha Hbusy Hx. pose proof Hi as [Hq Ho _ _]. simpl in *.
  destruct (qinv_fresh _ _ _ Hq Ha) as [_ Hnf].
  assert (Hgr : forall h, granted (MWorld (set_queue (entered a f th (queue m)) m) (at_pc f x p)) h <-> granted (MWorld m p) h).
  { intros h. unfold granted. simpl. destruct (decide (h = f)) as [->|Hne].
    - rewrite at_pc_eq, Hf. destruct d as [d0 b]. simpl in Hsel. subst b.
      destruct Hx as [-> | ->]; simpl; rewrite lookup_insert_eq; split; try done; by intros [? [=]].
    - rewrite at_pc_ne by done. pose proof (Hnf h) as Hn.
      destruct (p h) as [| [? []]|b ?|b ?|b ?|]; try done; simpl in *;
        (rewrite lookup_insert_ne; [done|congruence]). }
  split; simpl; [|by apply owner_move; [|rewrite Hf; destruct Hx as [-> | ->]]|by apply (grant_same (MWorld m p))|done].
  eapply qinv_enter; [done|done|by rewrite Hf|exact Hx].
Qed.

Lemma lock_region_minv m p f thread now a d r m' :
  minv (MWorld m p) -> p f = AtGuard d -> objects (queue m) !! a = None ->
  lock_region true f thread now a d.1 d.2 m = Ret r m' ->
  minv (MWorld m' (at_pc f (after_region d r) p)).
Proof.
  intros Hi Hf Ha E. pose proof Hi as [Hq Ho _ _]. simpl in *.
  assert (Hnone : owner_ m <> Some f) by (intros H; apply Ho in H; congruence).
  unfold lock_region in E. unfold mbind, M_bind, get in E.
  destruct (bool_decide (owner_ m = None) && (negb (handoff_ m) || d.2)) eqn:Eb.
  { unfold modify, mret, M_ret in E. simplify_eq. to_prop. apply bool_decide_eq_true in H.
    apply minv_acquire; [done|by rewrite Hf|done|by eapply no_rival]. }
  rewrite bool_decide_eq_false_2 in E by done.
  assert (Hsel : d.2 = false).
  { destruct d as [d0 []]; [|done]. exfalso.
    assert (Hgr : granted (MWorld m p) f) by (unfold granted; simpl; by rewrite Hf).
    destruct (minv_granted_handoff _ _ Hi Hgr) as [_ Hn]. simpl in Hn.
    rewrite Hn in Eb. simpl in Eb. by rewrite orb_true_r in Eb. }
  assert (Hfail : forall e, minv (MWorld m (at_pc f (after_region d (Failed e)) p))).
  { intros e. apply minv_move; [done|by apply qinv_plain; [|by rewrite Hf|]|simpl; by rewrite Hf|].
    rewrite Hf. destruct d as [d0 b]. simpl in *. by subst b. }
  destruct (remaining now d.1) as [rest|]; [|by unfold mret, M_ret in E; simplify_eq].
  unfold on_queue, zoom, wait_enter in E. simpl in E.
  destruct (rest =? 0); unfold mret, M_ret in E; simpl in E; simplify_eq.
  { assert (Hm : set_queue (queue m) m = m) by by destruct m. rewrite Hm. apply Hfail. }
  apply (minv_park m p f thread a d); [done..| |simpl; destruct d.1; auto].
  apply andb_false_iff in Eb as [Eb|Eb]; [left; by apply bool_decide_eq_false in Eb|right; by destruct (handoff_ m)].
Qed.

Lemma unlock_minv m p f r m' :
  minv (MWorld m p) -> p f = Holding -> unlock f m = Ret r m' ->
  minv (MWorld m' (at_pc f Outside p)) /\ r = None /\ owner_ m' = None /\
  (forall a l, waiters_ (queue m) = a :: l -> handoff_ m' = true /\ waiters_ (queue m') = l).
Proof.
  intros Hi Hf E. pose proof Hi as [Hq Ho Hg Hfr]. unfold grant_ok in Hg. simpl in *.
  assert (Hown : owner_ m = Some f) by (by apply Ho).
  assert (Hho : handoff_ m = false).
  { destruct (handoff_ m); [|done]. destruct Hg. congruence. }
  rewrite Hho in Hg. unfold unlock, mbind, M_bind, get, modify, on_queue, zoom in E.
  rewrite bool_decide_eq_true_2 in E by done. simpl in E.
  assert (Hnot : forall g, at_pc f Outside p g <> Holding).
  { intros g. destruct (decide (g = f)) as [->|Hne]; [by rewrite at_pc_eq|].
    rewrite at_pc_ne by done. intros Hx%Ho. congruence. }
  pose proof (wakeOne_spec p (queue m) 0 Hq) as Hw. destruct (waiters_ (queue m)) as [|a l] eqn:Ew.
  - cbn [wakeOneLocked] in Hw. rewrite Hw in E. unfold mret, M_ret in E. simplify_eq.
    split_and!; try done. split; simpl.
    + by apply qinv_plain; [|by rewrite Hf|].
    + intros g. split; [done|]. by intros ?%Hnot.
    + intros h Hh. unfold granted in Hh. simpl in Hh. destruct (decide (h = f)) as [->|Hne].
      { by rewrite at_pc_eq in Hh. }
      rewrite at_pc_ne in Hh by done. by apply (Hg h).
    + by rewrite Ew.
  - destruct Hw as (g & th & d & Hpg & Hob & Hw & Hq').
    cbn [wakeOneLocked] in Hw. rewrite Hw in E. unfold mret, M_ret in E. simplify_eq.
    assert (Hgf : g <> f) by (intros ->; rewrite Hf in Hpg; by destruct Hpg).
    split_and!; try done; last first.
    { intros a' l' [= <- <-]. split; [done|]. simpl. rewrite Ew. simpl. by rewrite Z.eqb_refl. }
    split; simpl.
    + by apply qinv_plain; [|by rewrite Hf|].
    + intros h. split; [done|]. by intros ?%Hnot.
    + split; [done|]. exists g. intros h. unfold granted. simpl.
      destruct (decide (h = f)) as [->|Hne].
      { rewrite at_pc_eq. simpl. split; [done|]. by intros ->. }
      rewrite at_pc_ne by done. split.
      * intros Hgr. destruct (decide (h = g)) as [|Hhg]; [done|]. exfalso. apply (Hg h).
        unfold granted. simpl.
        assert (Hne' : waiter_of (p h) <> Some a).
        { intros Hx. apply Hhg. eapply (qinv_unique _ _ _ _ _ Hq Hx). by destruct Hpg as [->| ->]. }
        destruct (p h) as [| [? []]|b ?|b ?|b ?|]; try done; simpl in *;
          (rewrite lookup_insert_ne in Hgr; [done|congruence]).
      * intros ->. destruct Hpg as [-> | ->]; simpl; rewrite lookup_insert_eq; eauto.
    + intros _. by right.
Qed.

Lemma try_lock_minv m p f r m' :
  minv (MWorld m p) -> p f = Outside -> try_lock f m = Ret r m' ->
  minv (MWorld m' (at_pc f (match r with None => Holding | Some _ => Outside end) p)).
Proof.
  intros Hi Hf E. unfold try_lock, mbind, M_bind, get in E.
  destruct (bool_decide (owner_ m = None) && negb (handoff_ m)) eqn:Eb; unfold modify, mret, M_ret in E; simplify_eq.
  - to_prop. apply bool_decide_eq_true in H. rewrite H0. apply minv_acquire; [done|by rewrite Hf|done|].
    intros h _ Hh. pose proof (minv_granted_handoff _ _ Hi Hh) as [Ht _]. simpl in Ht. congruence.
  - apply minv_move; [done|by apply qinv_plain; [apply Hi|by rewrite Hf|]|by rewrite Hf|by rewrite Hf].
Qed.

(** The timer of a waiter that is parked: it completes the waiter unless somebody
    else has. *)
Lemma complete_timeout_minv m p f a d b m' :
  minv (MWorld m p) -> p f = Parked a d -> on_queue (completeLocked a ETIMEDOUT) m = Ret b m' -> minv (MWorld m' p).
Proof.
  intros Hi Hf E. pose proof Hi as [Hq Ho Hg Hfr]. simpl in *.
  unfold on_queue, zoom in E. destruct (decide (a ∈ waiters_ (queue m))) as [Hin|Hout].
  - destruct (completeLocked_queued p (queue m) a ETIMEDOUT Hq Hin) as (g & th & d' & _ & Hob & Hc & Hq').
    rewrite Hc in E. simplify_eq. split; simpl; [done|done| |].
    + apply (grant_same (MWorld m p)); try done. intros h. by apply granted_completed.
    + intros Hne. apply Hfr. intros Hx. by rewrite Hx in Hin; apply not_elem_of_nil in Hin.
  - rewrite (completeLocked_gone p _ f) in E; [|done|by rewrite Hf|done]. simplify_eq. by destruct m.
Qed.

Lemma mutex_step_minv w w' : mutex_step true w w' -> minv w -> minv w'.
Proof.
  intros Hs Hi. pose proof Hi as [Hq Ho Hg Hfr]. unfold grant_ok in Hg.
  destruct Hs as [m p f now t Hf|m p f th now a d r m' Hf Ha E|m p f a d Hf _|m p f a d b m' Hf [=] E
    |m p f a d b m' Hf Hd E|m p f a d Hf Hp|m p f a d e m' Hf E|m p f r m' Hf E|m p f r m' Hf E
    |m p e n m' He E]; simpl in *.
  - apply minv_move; [done|by apply qinv_plain; [|by rewrite Hf|]|by rewrite Hf|by rewrite Hf].
  - by eapply lock_region_minv.
  - apply minv_move; [done| |by rewrite Hf|by rewrite Hf].
    apply qinv_move; [done|by rewrite Hf|].
    pose proof (qi_fiber _ _ Hq f) as H. unfold fiber_ok in *. rewrite Hf in H. by rewrite at_pc_eq.
  - by eapply complete_timeout_minv.
  - destruct (qinv_resume p (queue m) f a d Hq Hf Hp) as [Hq' _]. split; simpl; [done| | |done].
    + apply owner_move; [done|]. by rewrite Hf.
    + apply (grant_same (MWorld m p)); try done. intros h. unfold granted. simpl.
      destruct (decide (h = f)) as [->|Hne]; [by rewrite at_pc_eq, Hf|by rewrite at_pc_ne].
  - destruct (wait_leave_spec p (queue m) f a d Hq Hf) as (th & e' & Hob & Hl).
    unfold on_queue, zoom in E. rewrite Hl in E. simplify_eq.
    assert (Hm : set_queue (queue m) m = m) by by destruct m. rewrite Hm.
    apply minv_move; [done| | |].
    + eapply qinv_leave; [done|done|]. by destruct (e =? 0).
    + rewrite Hf. by destruct (e =? 0).
    + rewrite Hf. simpl. rewrite Hob. destruct (e =? 0) eqn:Ee; to_prop; simpl.
      * subst e. split; [eauto|done].
      * split; [done|]. intros [? [= _ ?]]. done.
  - by eapply unlock_minv.
  - by eapply try_lock_minv.
  - unfold cancelWaiters, on_queue, zoom in E.
    destruct (wakeAllLocked_spec p e (queue m) Hq) as (q' & k & Hw & Hq' & Hnil & Hoc & _).
    rewrite Hw in E. simplify_eq. split; simpl; [done|done| |by rewrite Hnil].
    apply (grant_same (MWorld m p)); try done. intros h. by apply (granted_cancelled p _ _ e).
Qed.

Definition mutex_start : mworld := MWorld (Mutex None false empty_queue) (fun _ => Outside).

Lemma qinv_start {D} : qinv (fun _ : Z => @Outside D) empty_queue.
Proof. split; simpl; [|constructor|set_solver|constructor]. intros f. unfold fiber_ok, pending. simpl. set_solver. Qed.

Lemma minv_reachable w : rtc (mutex_step true) mutex_start w -> minv w.
Proof.
  intros Hr. eapply (rtc_invariant (mutex_step true) minv); [|exact Hr|].
  { intros x y Hs. by apply mutex_step_minv. }
  split; simpl; [apply qinv_start| | |done]; [done|]. by intros h Hh.
Qed.

(** C3. Mutual exclusion.  Whatever calls of [lock] (with or without a timeout),
    [try_lock], [unlock] and [cancelWaiters] the fibers of an [IOManager]
    interleave with timer callbacks and resumptions, at most one fiber holds the
    mutex, it is the one [owner_] names, and it is the only one whose [unlock]
    does not answer [EPERM]. *)
Theorem mutex_mutual_exclusion w :
  rtc (mutex_step true) mutex_start w ->
  (forall f g, mpc w f = Holding -> mpc w g = Holding -> f = g) /\
  (forall f, ownedByCurrent f (mx w) = true <-> mpc w f = Holding) /\
  (forall f, mpc w f <> Holding -> unlock f (mx w) = Ret (Some EPERM) (mx w)).
Proof.
  intros Hw%minv_reachable. pose proof (mi_owner _ Hw) as Ho. split_and!.
  - intros f g Hf%Ho Hg%Ho. congruence.
  - intros f. unfold ownedByCurrent. by rewrite bool_decide_eq_true, Ho.
  - intros f Hf. unfold unlock, mbind, M_bind, get. rewrite bool_decide_eq_false_2; [done|].
    intros H%Ho. done.
Qed.

(** C4. No wake-up is lost among fibers under an [IOManager].  (Under a plain
    [Scheduler] one can be, see [mutex_grant_lost_without_timers].)  In every
    reachable state a suspended fiber either has a resumption in the scheduler, or it is queued and the mutex is held or
    on its way to a fiber selected by [unlock]; and such a selected fiber, when
    it is suspended, has its resumption in the scheduler.  So as long as the
    scheduler runs resumptions and holders unlock, the queue moves. *)
Theorem mutex_no_lost_wakeup w f a d :
  rtc (mutex_step true) mutex_start w -> mpc w f = Parked a d ->
  pending (queue (mx w)) f \/
  (a ∈ waiters_ (queue (mx w)) /\
   ((exists g, mpc w g = Holding) \/
    (exists g, granted w g /\ forall b d', mpc w g = Parked b d' -> pending (queue (mx w)) g))).
Proof.
  intros Hw%minv_reachable Hf. pose proof (mi_queue _ Hw) as Hq.
  pose proof (qi_fiber _ _ Hq f) as Hok. unfold fiber_ok in Hok. rewrite Hf in Hok.
  destruct Hok as (th & [] & e & Ho & Hx); [|left; by destruct Hx]. destruct Hx as (_ & Hin & _).
  right. split; [done|]. destruct (mi_free _ Hw) as [H|H]; [by intros E; rewrite E in Hin; apply not_elem_of_nil in Hin| |].
  - left. destruct (owner_ (mx w)) as [g|] eqn:E; [|done]. exists g. by apply (mi_owner _ Hw).
  - right. pose proof (mi_grant _ Hw) as Hg. unfold grant_ok in Hg. rewrite H in Hg.
    destruct Hg as [_ [g Hg]]. exists g. split; [by apply Hg|]. intros b d' Hp.
    pose proof (proj2 (Hg g) eq_refl) as Hgr. unfold granted in Hgr. rewrite Hp in Hgr. destruct Hgr as [th' Hob].
    pose proof (qi_fiber _ _ Hq g) as Hgk. unfold fiber_ok in Hgk. rewrite Hp in Hgk.
    destruct Hgk as (th2 & b2 & e2 & Hob2 & Hb2). simplify_eq. by destruct Hb2.
Qed.

(** The hand-off is first come, first served and cannot be barged into.
    When the holder unlocks with waiters queued, the longest waiting fiber is
    selected: it alone gets the mutex next.  Until then [try_lock] fails with
    [EBUSY] for every fiber and the first region of [lock] leads to no
    acquisition by a fiber that has not waited. *)
Theorem mutex_handoff w f a l :
  rtc (mutex_step true) mutex_start w -> mpc w f = Holding -> waiters_ (queue (mx w)) = a :: l ->
  exists g m', unlock f (mx w) = Ret None m' /\ waiter_of (mpc w g) = Some a /\
    waiters_ (queue m') = l /\ owner_ m' = None /\
    (forall h, granted (MWorld m' (at_pc f Outside (mpc w))) h <-> h = g) /\
    (forall h, try_lock h m' = Ret (Some EBUSY) m') /\
    (forall h thread now b d m'', lock_region true h thread now b d false m' <> Ret Acquired m'') /\
    (forall thread now b d, lock_region true g thread now b d true m' =
       Ret Acquired (Mutex (Some g) false (queue m'))).
Proof.
  intros Hw%minv_reachable Hf Hq. destruct w as [m p]. simpl in *.
  assert (Hown : owner_ m = Some f) by (by apply (mi_owner _ Hw)).
  pose proof (wakeOne_spec p (queue m) 0 (mi_queue _ Hw)) as Hwk. rewrite Hq in Hwk.
  destruct Hwk as (g & th & d & Hpg & Hob & Hwk & _).
  assert (E : unlock f m = Ret None (Mutex None true (completed a g th 0 (queue m)))).
  { unfold unlock, mbind, M_bind, get, modify, on_queue, zoom. rewrite bool_decide_eq_true_2 by done.
    simpl in *. by rewrite Hwk. }
  destruct (unlock_minv _ _ _ _ _ Hw Hf E) as (Hi & _ & _ & Hfifo).
  exists g, (Mutex None true (completed a g th 0 (queue m))). split; [done|].
  assert (Hwa : waiter_of (p g) = Some a) by (by destruct Hpg as [->| ->]). split; [done|].
  split; [by eapply Hfifo|]. split; [done|]. split; [|split_and!].
  - pose proof (mi_grant _ Hi) as Hg. unfold grant_ok in Hg. simpl in Hg. destruct Hg as [_ [g' Hg]].
    assert (Hgg : granted (MWorld (Mutex None true (completed a g th 0 (queue m))) (at_pc f Outside p)) g).
    { unfold granted. simpl. rewrite at_pc_ne by (intros ->; rewrite Hf in Hpg; by destruct Hpg).
      destruct Hpg as [-> | ->]; simpl; rewrite lookup_insert_eq; eauto. }
    apply Hg in Hgg. by subst g'.
  - intros h. done.
  - intros h thread now b d0 m''. unfold lock_region, mbind, M_bind, get. simpl.
    destruct (remaining now d0); [|done]. unfold on_queue, zoom, wait_enter. simpl. by destruct (z =? 0).
  - intros thread now b d0. done.
Qed.

(** A run used by the witnesses: fiber 1 takes the mutex, fiber 2 waits for it. *)
Definition contended : mworld :=
  MWorld (Mutex (Some 1) false (WQ [100] {[100 := MkWaiter 2 7 true 0]} []))
    (at_pc 2 (Parked 100 (None, false)) (at_pc 2 (AtGuard (None, false))
      (at_pc 1 Holding (at_pc 1 (AtGuard (None, false)) (fun _ => Outside))))).

Lemma contended_run : rtc (mutex_step true) mutex_start contended.
Proof.
  eapply rtc_l; [apply (ms_call _ _ _ 1 0 kFiberWaitForever); reflexivity|].
  eapply rtc_l; [apply (ms_region _ _ _ 1 7 0 100 (None, false) Acquired (Mutex (Some 1) false empty_queue)); reflexivity|].
  eapply rtc_l; [apply (ms_call _ _ _ 2 0 kFiberWaitForever); reflexivity|].
  eapply rtc_l; [|apply rtc_refl].
  apply (ms_region _ _ _ 2 7 0 100 (None, false) (Parking 100)); reflexivity.
Qed.

Lemma mutex_mutual_exclusion_witness :
  mpc contended 1 = Holding /\ unlock 2 (mx contended) = Ret (Some EPERM) (mx contended).
Proof.
  split; [reflexivity|].
  destruct (mutex_mutual_exclusion contended contended_run) as (_ & _ & H). apply H. discriminate.
Defined.

Lemma mutex_no_lost_wakeup_witness :
  mpc contended 2 = Parked 100 (None, false) /\ exists g, mpc contended g = Holding \/ granted contended g.
Proof.
  split; [reflexivity|].
  destruct (mutex_no_lost_wakeup contended 2 100 (None, false) contended_run eq_refl)
    as [H|(_ & [(g & H)|(g & H & _)])].
  - exists 1. by left.
  - exists g. by left.
  - exists g. by right.
Defined.

Lemma mutex_handoff_witness : exists m', unlock 1 (mx contended) = Ret None m' /\
  forall h, try_lock h m' = Ret (Some EBUSY) m'.
Proof.
  destruct (mutex_handoff contended 1 100 [] contended_run eq_refl eq_refl)
    as (g & m' & H & _ & _ & _ & _ & Ht & _).
  exists m'. by split.
Defined.

(** Without an [IOManager] a wait with a finite timeout gives up after it has
    released the guard; an [unlock] in between has already selected it. *)
Definition orphaned : mworld :=
  MWorld (Mutex None true (WQ [] {[100 := MkWaiter 2 7 false 0]} [(2, 7)]))
    (at_pc 2 Outside (at_pc 1 Outside (at_pc 2 (Arming 100 (Some 5, false)) (at_pc 2 (AtGuard (Some 5, false))
      (at_pc 1 Holding (at_pc 1 (AtGuard (None, false)) (fun _ => Outside))))))).

(** Under a plain [Scheduler] the mutex can be left with its hand-off
    promised to nobody: fiber 2 asks with a timeout and is queued, fiber 1
    unlocks and selects it, and then fiber 2 finds that there are no timers and
    returns [ENOTSUP] without passing the selection on.  In the resulting state
    the mutex is free and no fiber is inside any call, yet [try_lock] answers
    [EBUSY] and [lock] suspends every caller. *)
Theorem mutex_grant_lost_without_timers :
  rtc (mutex_step false) mutex_start orphaned /\
  owner_ (mx orphaned) = None /\ (forall f, mpc orphaned f = Outside) /\
  (forall h, try_lock h (mx orphaned) = Ret (Some EBUSY) (mx orphaned)) /\
  (forall h thread now a, exists m' : FiberMutex, lock_region true h thread now a None false (mx orphaned) = Ret (Parking a) m' /\
     owner_ m' = None /\ handoff_ m' = true).
Proof.
  split; [|split_and!].
  - eapply rtc_l; [apply (ms_call _ _ _ 1 0 kFiberWaitForever); reflexivity|].
    eapply rtc_l; [apply (ms_region _ _ _ 1 7 0 100 (None, false) Acquired (Mutex (Some 1) false empty_queue)); reflexivity|].
    eapply rtc_l; [apply (ms_call _ _ _ 2 0 5); reflexivity|].
    eapply rtc_l; [apply (ms_region _ _ _ 2 7 0 100 (Some 5, false) (Parking 100)
      (Mutex (Some 1) false (WQ [100] {[100 := MkWaiter 2 7 true 0]} []))); reflexivity|].
    eapply rtc_l; [apply (ms_unlock _ _ _ 1 None (mx orphaned)); reflexivity|].
    eapply rtc_l; [|apply rtc_refl].
    apply (ms_not_supported _ _ _ 2 100 (Some 5, false) false); reflexivity.
  - done.
  - intros f. simpl. unfold at_pc. by repeat case_match.
  - done.
  - intros h thread now a. eexists. split; [reflexivity|]. done.
Qed.

(** ** The semaphore *)

(** A queued waiter asks for more than there is. *)
Definition short_queue (s : FiberSemaphore) (p : pcs sem_vars) : Prop :=
  forall f a d, p f = Arming a d \/ p f = Parked a d -> a ∈ waiters_ (sem_queue s) -> count_ s < d.1.

(** What a fiber in [wait] asks for. *)
Definition asked (x : pc sem_vars) : option Z :=
  match x with AtGuard d | Arming _ d | Parked _ d | Resumed _ d => Some d.1 | _ => None end.
Definition counts_ok (p : pcs sem_vars) : Prop := forall f n, asked (p f) = Some n -> 0 < n < 2 ^ 64.

Lemma counts_ok_at f x p : counts_ok p -> (forall n, asked x = Some n -> 0 < n < 2 ^ 64) -> counts_ok (at_pc f x p).
Proof.
  intros Hp Hx g n. destruct (decide (g = f)) as [->|Hne]; [rewrite at_pc_eq; apply Hx|rewrite at_pc_ne by done; apply Hp].
Qed.

Lemma counts_ok_move f x p : counts_ok p -> asked x = None \/ asked x = asked (p f) -> counts_ok (at_pc f x p).
Proof. intros Hp Hx. apply counts_ok_at; [done|]. intros n E. destruct Hx as [Hx|Hx]; [congruence|]. apply (Hp f). congruence. Qed.

(** *** The units, with or without an [IOManager] *)

Record uinv (n0 : Z) (w : semworld) : Prop := {
  ui_units : count_ (sm w) = u64 (n0 + signalled_total w - granted_total w);
  ui_totals : 0 <= granted_total w /\ 0 <= signalled_total w;
  ui_exact : n0 + signalled_total w < 2 ^ 64 -> count_ (sm w) = n0 + signalled_total w - granted_total w;
  ui_counts : counts_ok (spc w) }.

Lemma on_sem_count {A} (c : M WaitQueue A) s r s' : on_sem c s = Ret r s' -> count_ s' = count_ s.
Proof. unfold on_sem, zoom. destruct (c (sem_queue s)); intros E; by simplify_eq. Qed.

(** A step that leaves the count alone. *)
Lemma uinv_same n0 s s' p p' g t :
  uinv n0 (SemWorld s p g t) -> count_ s' = count_ s -> counts_ok p' -> uinv n0 (SemWorld s' p' g t).
Proof. intros [H1 H2 H3 H4] E Hp. split; simpl in *; rewrite ?E; done. Qed.

Lemma sem_region_cases sched f thread now a d s r s' :
  sem_wait_region sched f thread now a d.1 d.2 s = Ret r s' ->
  d.1 <= count_ s /\ r = Acquired /\ s' = Sem (u64 (count_ s - d.1)) (sem_queue s) \/
  count_ s < d.1 /\ (exists e, r = Failed e) /\ s' = s \/
  count_ s < d.1 /\ r = Parking a /\ s' = Sem (count_ s) (entered a f thread (sem_queue s)).
Proof.
  intros E. unfold sem_wait_region, mbind, M_bind, get in E. destruct (count_ s >=? d.1) eqn:Ec; to_prop.
  - unfold modify, mret, M_ret in E. simplify_eq. left. split_and!; [lia|done|done].
  - right. destruct (remaining now d.2) as [rest|]; [|unfold mret, M_ret in E; simplify_eq; left; split_and!; [lia|eauto|done]].
    unfold on_sem, zoom, wait_enter in E. simpl in E. destruct s as [n q].
    destruct sched; [|unfold mret, M_ret in E; simpl in E; simplify_eq; left; split_and!; simpl in *; [lia|eauto|done]].
    destruct (rest =? 0); unfold mret, M_ret in E; simpl in E; simplify_eq; [left|right]; split_and!; simpl in *; try lia; eauto.
Qed.

Lemma after_sem_region_asked d r : asked (after_sem_region d r) = None \/ asked (after_sem_region d r) = Some d.1.
Proof. destruct r; simpl; auto. destruct d.2; auto. Qed.

Lemma region_uinv n0 s p g t f sched thread now a d r s' :
  uinv n0 (SemWorld s p g t) -> p f = AtGuard d -> sem_wait_region sched f thread now a d.1 d.2 s = Ret r s' ->
  uinv n0 (SemWorld s' (at_pc f (after_sem_region d r) p) (if r is Acquired then g + d.1 else g) t).
Proof.
  intros Hi Hf E. pose proof Hi as [H1 H2 H3 H4]. simpl in *.
  assert (Hp : counts_ok (at_pc f (after_sem_region d r) p)).
  { apply counts_ok_move; [done|]. rewrite Hf. apply after_sem_region_asked. }
  destruct (sem_region_cases _ _ _ _ _ _ _ _ _ E) as [(Hle & -> & ->)|[(_ & [e ->] & ->)|(_ & -> & ->)]]; [|by eapply uinv_same..].
  assert (Hd : 0 < d.1 < 2 ^ 64) by (apply (H4 f); by rewrite Hf). split; simpl; [|lia| |done].
  - rewrite H1, <- Z.add_opp_r, u64_add_l. f_equal. lia.
  - intros Hlt. rewrite u64_small; [rewrite H3 by done; lia|]. pose proof (u64_range (n0 + t - g)). lia.
Qed.

Lemma signal_spec n s s' : signal n s = Ret tt s' ->
  (n = 0 /\ s' = s) \/ (n <> 0 /\ exists k q, wakeAllLocked 0 (sem_queue s) = Ret k q /\ s' = Sem (u64 (count_ s + n)) q).
Proof.
  unfold signal. destruct (n =? 0) eqn:E0; to_prop.
  - unfold mret, M_ret. intros [= <-]. by left.
  - unfold mbind, M_bind, modify, on_sem, zoom. simpl. intros E. right. split; [done|].
    destruct (wakeAllLocked 0 (sem_queue s)) as [k q| |]; [|done|done]. unfold mret, M_ret in E. simplify_eq. eauto.
Qed.

Lemma sem_step_uinv iom n0 w w' : 0 <= n0 -> sem_step iom w w' -> uinv n0 w -> uinv n0 w'.
Proof.
  intros Hn0 Hs Hi. pose proof Hi as [H1 H2 H3 H4].
  destruct Hs as [s p g t f now c tm Hf Hcnt|s p g t f sch th now a d r s' Hf Ha E|s p g t f a d Hf Hio|s p g t f a d b s' Hf Hio E
    |s p g t f a d b s' Hf Hd E|s p g t f a d Hf Hp|s p g t f a d e s' Hf E|s p g t n s' Hn E|s p g t e n s' He E]; simpl in *.
  - eapply uinv_same; [done|done|]. apply counts_ok_at; [done|]. by intros n [= <-].
  - by eapply region_uinv.
  - eapply uinv_same; [done|done|]. apply counts_ok_move; [done|right; by rewrite Hf].
  - eapply uinv_same; [done|by eapply on_sem_count|]. apply counts_ok_move; [done|by left].
  - eapply uinv_same; [done|by eapply on_sem_count|done].
  - eapply uinv_same; [done|done|]. apply counts_ok_move; [done|right; by rewrite Hf].
  - eapply uinv_same; [done|by eapply on_sem_count|]. apply counts_ok_move; [done|]. rewrite Hf. destruct (e =? 0); auto.
  - destruct (signal_spec _ _ _ E) as [[-> ->]|(_ & k & q & _ & ->)]; [by rewrite Z.add_0_r|]. split; simpl; [|lia| |done].
    + rewrite H1, u64_add_l. f_equal. lia.
    + intros Hlt. pose proof (u64_range (n0 + t - g)). specialize (H3 ltac:(lia)). rewrite u64_small by lia. lia.
  - eapply uinv_same; [done|by eapply on_sem_count|done].
Qed.

(** *** The waiters, under an [IOManager] *)

Record sinv (w : semworld) : Prop := {
  si_queue : qinv (spc w) (sem_queue (sm w));
  si_range : 0 <= count_ (sm w) < 2 ^ 64;
  si_short : short_queue (sm w) (spc w);
  si_counts : counts_ok (spc w) }.

Lemma short_queue_nil s p : waiters_ (sem_queue s) = [] -> short_queue s p.
Proof. intros E f a d _ Ha. rewrite E in Ha. by apply not_elem_of_nil in Ha. Qed.

(** One fiber moves; nobody but it enters the queue and the count does not grow. *)
Lemma sinv_change s s' p g t g' t' f x :
  sinv (SemWorld s p g t) -> qinv (at_pc f x p) (sem_queue s') -> 0 <= count_ s' <= count_ s ->
  (forall b, b ∈ waiters_ (sem_queue s') -> b ∈ waiters_ (sem_queue s) \/ waiter_of x = Some b) ->
  (forall a d, x = Arming a d \/ x = Parked a d -> a ∈ waiters_ (sem_queue s') -> count_ s < d.1) ->
  (forall n, asked x = Some n -> 0 < n < 2 ^ 64) ->
  sinv (SemWorld s' (at_pc f x p) g' t').
Proof.
  intros [Hq Hr Hs Hc] Hq' He Hin Hx1 Hx2. split; simpl in *; [done|lia| |by apply counts_ok_at].
  intros h a d. destruct (decide (h = f)) as [->|Hne].
  - rewrite at_pc_eq. intros Hxa Ha. specialize (Hx1 a d Hxa Ha). lia.
  - intros Hh Ha. destruct (Hin a Ha) as [Ha'|Hxa].
    + rewrite at_pc_ne in Hh by done. specialize (Hs h a d Hh Ha'). lia.
    + exfalso. apply Hne. apply (qinv_unique _ _ h f a Hq'); [by destruct Hh as [-> | ->]|by rewrite at_pc_eq].
Qed.

Lemma sem_region_sinv s p g t g' f sched thread now a d r s' :
  sinv (SemWorld s p g t) -> p f = AtGuard d -> objects (sem_queue s) !! a = None ->
  sem_wait_region sched f thread now a d.1 d.2 s = Ret r s' ->
  sinv (SemWorld s' (at_pc f (after_sem_region d r) p) g' t).
Proof.
  intros Hi Hf Ha E. pose proof Hi as [Hq Hr Hs Hc]. simpl in *.
  assert (Hd : 0 < d.1 < 2 ^ 64) by (apply (Hc f); by rewrite Hf).
  assert (Hout : qinv (at_pc f Outside p) (sem_queue s)) by (by apply qinv_plain; [|by rewrite Hf|]).
  destruct (sem_region_cases _ _ _ _ _ _ _ _ _ E) as [(Hle & -> & ->)|[(_ & [e ->] & ->)|(Hlt & -> & ->)]].
  - apply (sinv_change s _ p g t); simpl; try done; try naive_solver. rewrite u64_small by lia. lia.
  - apply (sinv_change s _ p g t); simpl; try done; try naive_solver; lia.
  - assert (Hx : after_sem_region d (Parking a) = Arming a d \/ after_sem_region d (Parking a) = Parked a d)
      by (simpl; destruct d.2; auto).
    generalize dependent (after_sem_region d (Parking a)). intros x Hx.
    apply (sinv_change s _ p g t); simpl; try done; try lia.
    + eapply qinv_enter; [done|done|by rewrite Hf|exact Hx].
    + intros b [Hb|Hb%list_elem_of_singleton]%elem_of_app; [by left|]. right. subst b. by destruct Hx as [-> | ->].
    + intros b d' Hb _. destruct Hx as [-> | ->]; destruct Hb; simplify_eq; lia.
    + intros n Hn. by destruct Hx as [-> | ->]; simplify_eq/=.
Qed.

(** Completing waiters keeps the invariant. *)
Lemma sinv_complete s q' p g t :
  sinv (SemWorld s p g t) -> qinv p q' ->
  (forall b, b ∈ waiters_ q' -> b ∈ waiters_ (sem_queue s)) ->
  sinv (SemWorld (Sem (count_ s) q') p g t).
Proof.
  intros [Hq Hr Hs Hc] Hq' Hin. split; simpl in *; try done.
  intros h a d Hh Ha. apply (Hs h a d Hh). by apply Hin.
Qed.

Lemma sem_step_sinv w w' : sem_step true w w' -> sinv w -> sinv w'.
Proof.
  intros Hs Hi. pose proof Hi as [Hq Hr Hsh Hc].
  destruct Hs as [s p g t f now c tm Hf Hcnt|s p g t f sch th now a d r s' Hf Ha E|s p g t f a d Hf Hio|s p g t f a d b s' Hf Hio E
    |s p g t f a d b s' Hf Hd E|s p g t f a d Hf Hp|s p g t f a d e s' Hf E|s p g t n s' Hn E|s p g t e n s' He E]; simpl in *.
  - apply (sinv_change s _ p g t); try done; try lia; try naive_solver. by apply qinv_plain; [|by rewrite Hf|].
  - by eapply sem_region_sinv.
  - assert (Hok := qi_fiber _ _ Hq f). unfold fiber_ok in Hok. rewrite Hf in Hok.
    apply (sinv_change s _ p g t); try done; try lia; try naive_solver.
    + apply qinv_move; [done|by rewrite Hf|]. unfold fiber_ok. by rewrite at_pc_eq.
    + intros n [= <-]. apply (Hc f). by rewrite Hf.
  - done.
  - unfold on_sem, zoom in E. destruct (decide (a ∈ waiters_ (sem_queue s))) as [Hin|Hout].
    + destruct (completeLocked_queued p (sem_queue s) a ETIMEDOUT Hq Hin) as (g' & th & d' & _ & Hob & Hcl & Hq').
      rewrite Hcl in E. simplify_eq. apply sinv_complete; [done|done|]. simpl. intros b Hb.
      apply erase_first_elem in Hb as [Hb _]; [done|apply Hq].
    + rewrite (completeLocked_gone p _ f) in E; [|done|by rewrite Hf|done]. simplify_eq.
      by destruct s.
  - destruct (qinv_resume p (sem_queue s) f a d Hq Hf Hp) as [Hq' _].
    apply (sinv_change s _ p g t); simpl; try done; try lia; try naive_solver. intros n [= <-]. apply (Hc f). by rewrite Hf.
  - destruct (wait_leave_spec p (sem_queue s) f a d Hq Hf) as (th & e' & Hob & Hl).
    unfold on_sem, zoom in E. rewrite Hl in E. simplify_eq.
    apply (sinv_change s _ p g t); simpl; try done; try lia; try (destruct (e =? 0); naive_solver).
    + eapply qinv_leave; [done|done|]. by destruct (e =? 0).
    + intros n. destruct (e =? 0); [|done]. intros [= <-]. apply (Hc f). by rewrite Hf.
  - destruct (signal_spec _ _ _ E) as [[_ ->]|(_ & k & q & Hw & ->)]; [done|].
    destruct (wakeAllLocked_spec p 0 (sem_queue s) Hq) as (q' & k' & Hw' & Hq' & Hnil & _). rewrite Hw in Hw'. simplify_eq.
    split; simpl; [done|apply u64_range|by apply short_queue_nil|done].
  - unfold sem_cancelWaiters, on_sem, zoom in E.
    destruct (wakeAllLocked_spec p e (sem_queue s) Hq) as (q' & k & Hw & Hq' & Hnil & _).
    rewrite Hw in E. simplify_eq. apply sinv_complete; [done|done|]. rewrite Hnil. set_solver.
Qed.

Definition sem_start (n0 : Z) : semworld := SemWorld (Sem n0 empty_queue) (fun _ => Outside) 0 0.

Lemma uinv_reachable iom n0 w : 0 <= n0 < 2 ^ 64 -> rtc (sem_step iom) (sem_start n0) w -> uinv n0 w.
Proof.
  intros Hn Hr. eapply (rtc_invariant (sem_step iom) (uinv n0)); [|exact Hr|].
  { intros x y. apply sem_step_uinv. lia. }
  split; simpl; [rewrite u64_small; lia|done|lia|done].
Qed.

Lemma sinv_reachable n0 w : 0 <= n0 < 2 ^ 64 -> rtc (sem_step true) (sem_start n0) w -> sinv w.
Proof.
  intros Hn Hr. eapply (rtc_invariant (sem_step true) sinv); [apply sem_step_sinv|exact Hr|].
  split; simpl; [apply qinv_start|done|by apply short_queue_nil|done].
Qed.

(** C20. The semaphore neither loses nor invents units and, under an [IOManager],
    starves nobody it could serve.  Through every interleaving of waits, signals,
    timeouts, cancellations and failed waits, the count is what it started with plus
    what was signalled less what successful waits took, modulo 2^64, and exactly so
    as long as the starting count plus the signalled units stay below 2^64
    ([signal] does not check for overflow).  With timers available, a suspended
    fiber either asks for more than is left or has a resumption in the scheduler. *)
Theorem semaphore_conserves_units iom n0 w :
  0 <= n0 < 2 ^ 64 -> rtc (sem_step iom) (sem_start n0) w ->
  count_ (sm w) = u64 (n0 + signalled_total w - granted_total w) /\
  (n0 + signalled_total w < 2 ^ 64 -> count_ (sm w) = n0 + signalled_total w - granted_total w) /\
  (iom = true -> forall f a d, spc w f = Parked a d ->
     pending (sem_queue (sm w)) f \/ (a ∈ waiters_ (sem_queue (sm w)) /\ count_ (sm w) < d.1)).
Proof.
  intros Hn Hr. destruct (uinv_reachable iom n0 w Hn Hr) as [Hu _ Hx _].
  split; [done|]. split; [done|]. intros -> f a d Hf. destruct (sinv_reachable n0 w Hn Hr) as [Hq Hrg Hsh _].
  pose proof (qi_fiber _ _ Hq f) as Hok. unfold fiber_ok in Hok. rewrite Hf in Hok. destruct Hok as (th & [] & e & _ & Hx').
  - right. destruct Hx' as (_ & Hin & _). split; [done|]. apply (Hsh f a d); [by right|done].
  - left. by destruct Hx'.
Qed.

Definition short_demo : semworld :=
  SemWorld (Sem 2 (WQ [100] {[100 := MkWaiter 1 7 true 0]} []))
    (at_pc 1 (Parked 100 (3, None)) (at_pc 1 (AtGuard (3, None)) (fun _ => Outside))) 0 0.

Lemma short_demo_run : rtc (sem_step true) (sem_start 2) short_demo.
Proof.
  eapply rtc_l; [apply (ss_call _ _ _ _ _ 1 0 3 kFiberWaitForever); [reflexivity|lia]|].
  eapply rtc_l; [|apply rtc_refl].
  apply (ss_region _ _ _ 0 0 1 true 7 0 100 (3, None) (Parking 100)); reflexivity.
Qed.

Lemma semaphore_conserves_units_witness :
  pending (sem_queue (sm short_demo)) 1 \/ (100 ∈ waiters_ (sem_queue (sm short_demo)) /\ count_ (sm short_demo) < 3).
Proof.
  destruct (semaphore_conserves_units true 2 short_demo ltac:(lia) short_demo_run) as (_ & _ & H).
  exact (H eq_refl 1 100 (3, None) eq_refl).
Defined.
