(* ===== verification/Condition.v ===== *)
(** * The condition variable of fibers (src/sync.cpp, [FiberConditionVariable])

    Waiting on a condition releases a [FiberMutex] and takes it again: the model puts
    a second wait queue beside the mutex of [Sync], and its invariant beside the
    mutex's. *)

From S2P Require Import Prelude Sync SyncProofs.

Definition EINTR : Z := 4.

(** [FiberConditionVariable]: its queue; [notifyOne], [notifyAll] and
    [cancelWaiters] are one lock region each. *)
Definition notifyOne : M WaitQueue bool := wakeOneLocked 1 0.
Definition notifyAll : M WaitQueue Z := wakeAllLocked 0.
Definition cv_cancelWaiters (error : Z) : M WaitQueue Z := wakeAllLocked error.

(** A fiber in [wait]: its timeout ([None]: forever) and [wait_error].  [AtGuard]
    stands for the loop that takes the mutex again; [Outside] for no call. *)
Definition cv_vars : Type := option Z * Z.

(** [cv_failed] records that somebody called [cancelWaiters] of the mutex; [returns]
    are the waits that returned: the fiber, its error (0: none) and whether it holds
    the mutex. *)
Record cworld := CWorld {
  cm : mworld;
  cq : WaitQueue;
  cpc : pcs cv_vars;
  cv_failed : bool;
  returns : list (Z * Z * bool) }.

(** The region of [wait] under [guard_]: the mutex is released, then the fiber is
    queued.  [None]: it was not the owner. *)
Definition cv_region (sched : bool) (current thread a timeout_ms : Z) (m : FiberMutex) (q : WaitQueue) :
    option (outcome FiberMutex (option Z) * outcome WaitQueue (option Z)) :=
  if negb (ownedByCurrent current m) then None
  else Some (unlock current m, wait_enter sched a current thread timeout_ms q).

(** Where [wait] continues after that region: with the mutex when waiting failed,
    else to the yield. *)
Definition after_cv_region (timeout_ms a : Z) (r : option Z) : pc cv_vars :=
  let t := if timeout_ms =? kFiberWaitForever then None else Some timeout_ms in
  match r with
  | Some e => AtGuard (t, e)
  | None => match t with None => Parked a (t, 0) | Some _ => Arming a (t, 0) end
  end.

(** The mutex's side of a fiber that starts [mutex.lock()] to take it again. *)
Definition relock (f : Z) (w : mworld) : mworld := MWorld (mx w) (at_pc f (AtGuard (None, false)) (mpc w)).

(** A fiber may take steps of the mutex when it is in no [wait], or in the loop at
    the end of one and inside [lock()], before its last region. *)
Definition may_move (x : pc cv_vars) (y : pc lock_vars) : Prop :=
  match x with
  | Outside => True
  | AtGuard _ => match y with AtGuard _ | Parked _ _ => True | _ => False end
  | _ => False
  end.

(** The fibers run under an [IOManager].  A call of [try_lock] that fails changes
    nothing and is left out. *)
Inductive cv_step : cworld -> cworld -> Prop :=
| cs_mutex m m' q p b r f :
    mutex_step true m m' -> mpc m' f <> mpc m f -> may_move (p f) (mpc m f) ->
    cv_step (CWorld m q p b r) (CWorld m' q p b r)
| cs_mutex_timeout m q p b r f a d b' m' :
    mpc m f = Parked a d -> is_Some d.1 -> on_queue (completeLocked a ETIMEDOUT) (mx m) = Ret b' m' ->
    cv_step (CWorld m q p b r) (CWorld (MWorld m' (mpc m)) q p b r)
| cs_mutex_cancel m q p b r e n m' :
    e <> 0 -> cancelWaiters e (mx m) = Ret n m' ->
    cv_step (CWorld m q p b r) (CWorld (MWorld m' (mpc m)) q p true r)
| cs_wait m q p b r f thread a timeout_ms u m' o q' :
    p f = Outside -> objects q !! a = None -> 0 <= timeout_ms < 2 ^ 64 ->
    cv_region true f thread a timeout_ms (mx m) q = Some (Ret u m', Ret o q') ->
    cv_step (CWorld m q p b r)
      (CWorld (let w := MWorld m' (at_pc f Outside (mpc m)) in if o is Some _ then relock f w else w)
         q' (at_pc f (after_cv_region timeout_ms a o) p) b r)
| cs_not_owner m q p b r f thread a timeout_ms :
    p f = Outside -> cv_region true f thread a timeout_ms (mx m) q = None ->
    cv_step (CWorld m q p b r) (CWorld m q p b r)
| cs_arm m q p b r f a d :
    p f = Arming a d -> cv_step (CWorld m q p b r) (CWorld m q (at_pc f (Parked a d) p) b r)
| cs_timeout m q p b r f a d b' q' :
    p f = Parked a d -> is_Some d.1 -> completeLocked a ETIMEDOUT q = Ret b' q' ->
    cv_step (CWorld m q p b r) (CWorld m q' p b r)
| cs_notify_one m q p b r b' q' : notifyOne q = Ret b' q' -> cv_step (CWorld m q p b r) (CWorld m q' p b r)
| cs_notify_all m q p b r n q' : notifyAll q = Ret n q' -> cv_step (CWorld m q p b r) (CWorld m q' p b r)
| cs_cancel m q p b r e n q' : cv_cancelWaiters e q = Ret n q' -> cv_step (CWorld m q p b r) (CWorld m q' p b r)
| cs_resume m q p b r f a d :
    p f = Parked a d -> f ∈ (resumptions q).*1 ->
    cv_step (CWorld m q p b r) (CWorld m (run_resumption f q) (at_pc f (Resumed a d) p) b r)
| cs_leave m q p b r f a d e q' :
    p f = Resumed a d -> wait_leave a q = Ret e q' ->
    cv_step (CWorld m q p b r) (CWorld (relock f m) q' (at_pc f (AtGuard (d.1, e)) p) b r)
| cs_relock_leave m q p b r f d a d' e m' :
    p f = AtGuard d -> mpc m f = Resumed a d' -> on_queue (wait_leave a) (mx m) = Ret e m' ->
    cv_step (CWorld m q p b r)
      (if e =? 0 then CWorld (MWorld m' (at_pc f (AtGuard (d'.1, true)) (mpc m))) q p b r
       else if e =? EINTR then CWorld (relock f (MWorld m' (at_pc f Outside (mpc m)))) q p b r
       else CWorld (MWorld m' (at_pc f Outside (mpc m))) q (at_pc f Outside p) b ((f, e, false) :: r))
| cs_return m q p b r f d :
    p f = AtGuard d -> mpc m f = Holding ->
    cv_step (CWorld m q p b r) (CWorld m q (at_pc f Outside p) b ((f, d.2, true) :: r)).

Definition cv_start : cworld := CWorld mutex_start empty_queue (fun _ => Outside) false [].
