(* ===== verification/ConditionProofs.v ===== *)
(** * Correctness of the condition variable *)

From S2P Require Import Prelude Sync SyncProofs Condition.

(** No waiter that has no error gets one. *)
Definition errors_kept (q q' : WaitQueue) : Prop :=
  forall a o, objects q !! a = Some o -> w_error o = 0 -> exists o', objects q' !! a = Some o' /\ w_error o' = 0.

Lemma errors_kept_refl q : errors_kept q q.
Proof. intros a o H E. eauto. Qed.

Lemma errors_kept_insert q a w l r : w_error w = 0 -> errors_kept q (WQ l (<[a := w]> (objects q)) r).
Proof.
  intros Hw b o Ho He. simpl. destruct (decide (b = a)) as [->|Hne].
  - rewrite lookup_insert_eq. eauto.
  - rewrite lookup_insert_ne by done. eauto.
Qed.

Lemma region_errors_kept m p f th now a d r m' :
  minv (MWorld m p) -> p f = AtGuard d -> lock_region true f th now a d.1 d.2 m = Ret r m' ->
  errors_kept (queue m) (queue m') /\
  (d.1 = None -> after_region d r = Holding \/
     (after_region d r = Parked a d /\ objects (queue m') !! a = Some (MkWaiter f th true 0))).
Proof.
  intros Hi Hf E. assert (Hno : owner_ m <> Some f).
  { intros H. apply (mi_owner _ Hi) in H. simpl in H. congruence. }
  unfold lock_region, mbind, M_bind, get in E.
  destruct (bool_decide (owner_ m = None) && (negb (handoff_ m) || d.2)) eqn:Eb.
  { unfold modify, mret, M_ret in E. simplify_eq. split; [apply errors_kept_refl|]. intros _. by left. }
  rewrite bool_decide_eq_false_2 in E by done. destruct d as [[t|] sel]; simpl in *.
  - destruct (now >=? t); unfold on_queue, zoom, wait_enter, mret, M_ret in E; simpl in E; [simplify_eq; split; [apply errors_kept_refl|done]|].
    destruct (u64 (t - now) =? 0); simpl in E; simplify_eq; split; try done; [apply errors_kept_refl|by apply errors_kept_insert].
  - unfold on_queue, zoom, wait_enter, mret, M_ret in E. simpl in E. simplify_eq. split; [by apply errors_kept_insert|].
    intros _. right. split; [done|]. simpl. by rewrite lookup_insert_eq.
Qed.

Lemma unlock_errors_kept {D} m (p : pcs D) f r m' :
  qinv p (queue m) -> unlock f m = Ret r m' -> errors_kept (queue m) (queue m').
Proof.
  intros Hq E. unfold unlock, mbind, M_bind, get, modify, on_queue, zoom in E.
  destruct (bool_decide (owner_ m = Some f)); [|unfold mret, M_ret in E; simplify_eq; apply errors_kept_refl].
  cbn [queue set_queue] in E. pose proof (wakeOne_spec p (queue m) 0 Hq) as Hw. destruct (waiters_ (queue m)) as [|a l].
  - rewrite Hw in E. unfold mret, M_ret in E. simplify_eq. apply errors_kept_refl.
  - destruct Hw as (g & th & d & _ & _ & Hw & _). rewrite Hw in E. unfold mret, M_ret in E. simplify_eq. by apply errors_kept_insert.
Qed.

(** One step of the mutex by the fiber [f], as the others and [f] itself see it. *)
Lemma mutex_step_frame m m' f :
  mutex_step true m m' -> minv m -> mpc m' f <> mpc m f ->
  (forall g, g <> f -> mpc m' g = mpc m g) /\ errors_kept (queue (mx m)) (queue (mx m')) /\
  (forall d, mpc m f = AtGuard d -> d.1 = None -> mpc m' f = Holding \/
     exists a th, mpc m' f = Parked a d /\ objects (queue (mx m')) !! a = Some (MkWaiter f th true 0)) /\
  (forall a d, mpc m f = Parked a d -> mpc m' f = Resumed a d).
Proof.
  intros Hs Hi Hne.
  assert (Hmove : forall p g (x : pc lock_vars), at_pc g x p f <> p f -> f = g).
  { intros p g x H. destruct (decide (f = g)) as [|Hfg]; [done|]. by rewrite at_pc_ne in H. }
  destruct Hs as [m p g now t Hg|m p g th now a d r m' Hg Ha E|m p g a d Hg _|m p g a d b m' Hg [=] E
    |m p g a d b m' Hg Hd E|m p g a d Hg Hp|m p g a d e m' Hg E|m p g r m' Hg E|m p g r m' Hg E|m p e n m' He E];
    cbn [mpc mx] in *; try done;
    apply Hmove in Hne as <-; (split; [intros g Hgf; by apply at_pc_ne|]); rewrite Hg, at_pc_eq.
  - split_and!; [apply errors_kept_refl|done..].
  - destruct (region_errors_kept m p f th now a d r m' Hi Hg E) as [H1 H2]. split_and!; [done| |done].
    intros d' [= <-] Hd. destruct (H2 Hd) as [->|[-> Ho]]; [by left|right; eauto].
  - split_and!; [apply errors_kept_refl|done..].
  - split_and!; [intros b o Ho He; by exists o|done|]. by intros a' d' [= <- <-].
  - destruct (wait_leave_spec p (queue m) f a d (mi_queue _ Hi) Hg) as (th & e' & _ & Hl).
    unfold on_queue, zoom in E. rewrite Hl in E. simplify_eq. split_and!; [apply errors_kept_refl|done..].
  - split_and!; [by eapply unlock_errors_kept; [apply Hi|]|done..].
  - split_and!; [|done..]. unfold try_lock, mbind, M_bind, get, modify, mret, M_ret in E.
    destruct (_ && _); simplify_eq; apply errors_kept_refl.
Qed.

(** ** The invariant *)

(** A fiber that takes the mutex again is inside [lock()] without a deadline, or
    holds it; unless somebody cancels, no error waits for it. *)
Definition relocking (w : mworld) (cancelled : bool) (f : Z) : Prop :=
  match mpc w f with
  | Outside => False
  | Holding => True
  | AtGuard d => d.1 = None
  | Arming a d | Parked a d | Resumed a d => d.1 = None /\
      (cancelled = true \/ exists o, objects (queue (mx w)) !! a = Some o /\ w_error o = 0)
  end.

Record cinv (c : cworld) : Prop := {
  ci_mutex : minv (cm c);
  ci_queue : qinv (cpc c) (cq c);
  ci_waiting : forall f, waiter_of (cpc c f) <> None -> mpc (cm c) f = Outside;
  ci_relock : forall f d, cpc c f = AtGuard d -> relocking (cm c) (cv_failed c) f;
  ci_returns : forall f e, (f, e, false) ∈ returns c -> cv_failed c = true;
  ci_no_holding : forall f, cpc c f <> Holding }.

(** The mutex's waiters keep their errors and [f] its place: [f] still takes the
    mutex. *)
Lemma relocking_kept w w' b b' f :
  mpc w' f = mpc w f -> (b' = true \/ b' = b /\ errors_kept (queue (mx w)) (queue (mx w'))) ->
  relocking w b f -> relocking w' b' f.
Proof.
  unfold relocking. intros -> Hk. destruct (mpc w f) as [| |a d|a d|a d|]; try done; intros [Hd Ho]; (split; [done|]);
    (destruct Hk as [->|[-> Hk]]; [by left|]); (destruct Ho as [->|(o & Ho & He)]; [by left|right]); by eapply Hk.
Qed.

(** The mutex part of a step in which [f], in no wait, moves. *)
Lemma cinv_mutex m m' q p b b' r :
  cinv (CWorld m q p b r) -> minv m' ->
  (forall g, waiter_of (p g) <> None -> mpc m' g = Outside) ->
  (forall g d, p g = AtGuard d -> relocking m' b' g) -> (b = true -> b' = true) ->
  cinv (CWorld m' q p b' r).
Proof. intros [] Hm Hw Hr Hb. split; simpl in *; auto. intros f e H. eauto. Qed.

Lemma may_move_waiter x y : may_move x y -> waiter_of x = None.
Proof. by destruct x. Qed.

Lemma cs_mutex_ok m m' q p b r f :
  cinv (CWorld m q p b r) -> mutex_step true m m' -> mpc m' f <> mpc m f -> may_move (p f) (mpc m f) ->
  cinv (CWorld m' q p b r).
Proof.
  intros Hc Hs Hne Hmay. pose proof (ci_mutex _ Hc) as Hm. simpl in Hm.
  destruct (mutex_step_frame m m' f Hs Hm Hne) as (Hother & Hk & Hguard & Hpark).
  eapply cinv_mutex; [exact Hc|by apply (mutex_step_minv m)| | |done].
  - intros g Hg. rewrite Hother; [by apply (ci_waiting _ Hc)|]. intros ->. by apply Hg, (may_move_waiter _ (mpc m f)).
  - intros g d Hg. pose proof (ci_relock _ Hc g d Hg) as Hr. simpl in Hr. destruct (decide (g = f)) as [->|Hgf].
    + rewrite Hg in Hmay. simpl in Hmay. unfold relocking in Hr |- *. destruct (mpc m f) as [|d'| |a d'| |] eqn:E; try done.
      * destruct (Hguard d' eq_refl Hr) as [->|(a & th & -> & Ho)]; [done|]. split; [done|]. right. by eexists.
      * rewrite (Hpark a d' eq_refl). destruct Hr as [Hd Hr]. split; [done|]. destruct Hr as [Hr|(o & Ho & He)]; [by left|right].
        by eapply Hk.
    + eapply relocking_kept; [by apply Hother| |exact Hr]. by right.
Qed.

Lemma cs_mutex_timeout_ok m q p b r f a d b' m' :
  cinv (CWorld m q p b r) -> mpc m f = Parked a d -> is_Some d.1 -> on_queue (completeLocked a ETIMEDOUT) (mx m) = Ret b' m' ->
  cinv (CWorld (MWorld m' (mpc m)) q p b r).
Proof.
  intros Hc Hf Hd E. pose proof (ci_mutex _ Hc) as Hm. simpl in Hm.
  eapply cinv_mutex; [exact Hc| | | |done].
  - apply (mutex_step_minv m); [|done]. destruct m. by eapply ms_timeout.
  - intros g Hg. by apply (ci_waiting _ Hc).
  - intros g d' Hg. pose proof (ci_relock _ Hc g d' Hg) as Hr. simpl in Hr.
    assert (Hw : forall c dc, (mpc m g = Arming c dc \/ mpc m g = Parked c dc \/ mpc m g = Resumed c dc) -> dc.1 = None -> c <> a).
    { intros c dc Hp Hn ->. assert (Hgf : g = f).
      { apply (qinv_unique _ _ _ _ a (mi_queue _ Hm)); [by destruct Hp as [->|[->| ->]]|by rewrite Hf]. }
      subst g. rewrite Hf in Hp. destruct Hp as [?|[?|?]]; simplify_eq. by rewrite Hn in Hd; destruct Hd. }
    assert (Ho : forall c, c <> a -> objects (queue m') !! c = objects (queue (mx m)) !! c).
    { intros c Hca. unfold on_queue, zoom, completeLocked in E.
      destruct (objects (queue (mx m)) !! a) as [w|]; [|by simplify_eq].
      destruct (negb (w_waiting w)); [by simplify_eq|]. destruct (bool_decide _); simplify_eq; [|done]. simpl.
      by rewrite lookup_insert_ne. }
    unfold relocking in *. simpl. destruct (mpc m g) as [| |c dc|c dc|c dc|] eqn:Eg; try done; rewrite Ho by (eapply Hw; [by eauto|by destruct Hr]); done.
Qed.

Lemma cs_mutex_cancel_ok m q p b r e n m' :
  cinv (CWorld m q p b r) -> e <> 0 -> cancelWaiters e (mx m) = Ret n m' ->
  cinv (CWorld (MWorld m' (mpc m)) q p true r).
Proof.
  intros Hc He E. pose proof (ci_mutex _ Hc) as Hm. simpl in Hm.
  eapply cinv_mutex; [exact Hc| | | |done].
  - apply (mutex_step_minv m); [|done]. destruct m. by eapply ms_cancel.
  - intros g Hg. by apply (ci_waiting _ Hc).
  - intros g d' Hg. apply (relocking_kept m _ b true); [done|by left|]. by apply (ci_relock _ Hc g d').
Qed.

(** Steps that leave the mutex alone and move at most one fiber, which ends outside
    the loop at the end of [wait]. *)
Lemma cinv_queue m q p b r q' p' :
  cinv (CWorld m q p b r) -> qinv p' q' ->
  (forall g, waiter_of (p' g) <> None -> waiter_of (p g) <> None) ->
  (forall g d, p' g = AtGuard d -> p g = AtGuard d) -> (forall g, p' g <> Holding) ->
  cinv (CWorld m q' p' b r).
Proof. intros [] Hq Hw Hg Hh. split; simpl in *; eauto. Qed.

Lemma relock_minv m f : minv m -> mpc m f = Outside -> minv (relock f m).
Proof.
  intros Hm Hf. apply (mutex_step_minv m); [|done]. destruct m as [x p]. simpl in Hf.
  apply (ms_call _ x p f 0 kFiberWaitForever Hf).
Qed.

(** The fiber [f] starts to take the mutex again. *)
Lemma cinv_relock m q p b r q' f d :
  cinv (CWorld m q p b r) -> qinv (at_pc f (AtGuard d) p) q' -> minv m -> mpc m f = Outside ->
  cinv (CWorld (relock f m) q' (at_pc f (AtGuard d) p) b r).
Proof.
  intros Hc Hq Hm Hf. split; simpl; [by apply relock_minv|done| | |by apply Hc|].
  - intros g Hg. destruct (decide (g = f)) as [->|Hne]; [by rewrite at_pc_eq in Hg|]. rewrite at_pc_ne in Hg by done. rewrite at_pc_ne by done.
    by apply (ci_waiting _ Hc).
  - intros g d' Hg. destruct (decide (g = f)) as [->|Hne].
    + unfold relocking. simpl. by rewrite at_pc_eq.
    + rewrite at_pc_ne in Hg by done. apply (relocking_kept m _ b b).
      * simpl. by rewrite at_pc_ne.
      * right. split; [done|]. apply errors_kept_refl.
      * by apply (ci_relock _ Hc g d').
  - intros g. destruct (decide (g = f)) as [->|Hne]; [by rewrite at_pc_eq|]. rewrite at_pc_ne by done. apply (ci_no_holding _ Hc).
Qed.

(** The release of the mutex in [wait], by its owner [f], seen from the others. *)
Lemma cinv_unlock m q p b r f u m' :
  cinv (CWorld m q p b r) -> mpc m f = Holding -> p f = Outside -> unlock f (mx m) = Ret u m' ->
  cinv (CWorld (MWorld m' (at_pc f Outside (mpc m))) q p b r).
Proof.
  intros Hc Hf Hp E. apply (cs_mutex_ok m _ q p b r f); [done| | |by rewrite Hp].
  - destruct m. by eapply ms_unlock.
  - simpl. by rewrite at_pc_eq, Hf.
Qed.

Lemma cs_wait_ok m q p b r f thread a timeout_ms u m' o q' :
  cinv (CWorld m q p b r) -> p f = Outside -> objects q !! a = None ->
  cv_region true f thread a timeout_ms (mx m) q = Some (Ret u m', Ret o q') ->
  cinv (CWorld (let w := MWorld m' (at_pc f Outside (mpc m)) in if o is Some _ then relock f w else w)
    q' (at_pc f (after_cv_region timeout_ms a o) p) b r).
Proof.
  intros Hc Hf Ha E. unfold cv_region in E. destruct (negb (ownedByCurrent f (mx m))) eqn:Eo; [done|].
  apply negb_false_iff in Eo. unfold ownedByCurrent in Eo. apply bool_decide_eq_true in Eo.
  injection E as E1 E2. pose proof (ci_mutex _ Hc) as Hm. simpl in Hm. apply (mi_owner _ Hm) in Eo.
  pose proof (cinv_unlock m q p b r f u m' Hc Eo Hf E1) as Hc'. pose proof (ci_queue _ Hc) as Hq. simpl in Hq.
  unfold wait_enter in E2. simpl in E2. unfold after_cv_region. destruct (timeout_ms =? 0) eqn:Ez.
  - unfold mret, M_ret in E2. simplify_eq. eapply cinv_relock; [exact Hc'| |apply Hc'|simpl; by rewrite at_pc_eq].
    apply qinv_plain; [done|by rewrite Hf|done].
  - unfold mbind, M_bind, modify, mret, M_ret in E2. simplify_eq.
    set (t := if timeout_ms =? kFiberWaitForever then None else Some timeout_ms).
    match goal with |- context [at_pc f ?y p] => set (x := y) end.
    assert (Hx : x = Arming a (t, 0) \/ x = Parked a (t, 0)) by (unfold x; destruct t; auto).
    clearbody x. pose proof (qinv_enter p q f thread a x (t, 0) Hq Ha ltac:(by rewrite Hf) Hx) as Hq'.
    split; simpl; [apply Hc'|exact Hq'| | |apply Hc|].
    + intros g Hg. destruct (decide (g = f)) as [->|Hne]; [by rewrite at_pc_eq|].
      rewrite at_pc_ne in Hg by done. by apply (ci_waiting _ Hc').
    + intros g d Hg. destruct (decide (g = f)) as [->|Hne]; [rewrite at_pc_eq in Hg; by destruct Hx as [->| ->]|].
      rewrite at_pc_ne in Hg by done. by apply (ci_relock _ Hc' g d).
    + intros g. destruct (decide (g = f)) as [->|Hne]; [rewrite at_pc_eq; by destruct Hx as [->| ->]|].
      rewrite at_pc_ne by done. apply (ci_no_holding _ Hc).
Qed.

Lemma cs_relock_leave_ok m q p b r f d a d' e m' :
  cinv (CWorld m q p b r) -> p f = AtGuard d -> mpc m f = Resumed a d' -> on_queue (wait_leave a) (mx m) = Ret e m' ->
  cinv (if e =? 0 then CWorld (MWorld m' (at_pc f (AtGuard (d'.1, true)) (mpc m))) q p b r
        else if e =? EINTR then CWorld (relock f (MWorld m' (at_pc f Outside (mpc m)))) q p b r
        else CWorld (MWorld m' (at_pc f Outside (mpc m))) q (at_pc f Outside p) b ((f, e, false) :: r)).
Proof.
  intros Hc Hp Hf E. pose proof (ci_mutex _ Hc) as Hm. simpl in Hm.
  pose proof (ci_relock _ Hc f d Hp) as Hr. unfold relocking in Hr. simpl in Hr. rewrite Hf in Hr. destruct Hr as [Hd Hr].
  destruct (wait_leave_spec (mpc m) (queue (mx m)) f a d' (mi_queue _ Hm) Hf) as (th & e' & Hob & Hl).
  assert (Hstep : mutex_step true m (MWorld m' (at_pc f (if e =? 0 then AtGuard (d'.1, true) else Outside) (mpc m)))).
  { destruct m. by eapply ms_leave. }
  apply (fun H => mutex_step_minv _ _ H Hm) in Hstep.
  unfold on_queue, zoom in E. rewrite Hl in E. simplify_eq.
  assert (Hsame : set_queue (queue (mx m)) (mx m) = mx m) by (by destruct (mx m)). rewrite Hsame in *.
  assert (Hothers : forall x g d0, p g = AtGuard d0 -> g <> f -> relocking (MWorld (mx m) (at_pc f x (mpc m))) b g).
  { intros x g d0 Hg Hne. apply (relocking_kept m _ b b); [simpl; by rewrite at_pc_ne| |by apply (ci_relock _ Hc g d0)].
    right. split; [done|]. apply errors_kept_refl. }
  assert (Hwait : forall x g, waiter_of (p g) <> None -> at_pc f x (mpc m) g = Outside).
  { intros x g Hg. rewrite at_pc_ne; [by apply (ci_waiting _ Hc)|]. intros ->. by rewrite Hp in Hg. }
  destruct (e =? 0) eqn:Ee; [|destruct (e =? EINTR)].
  - eapply cinv_mutex; [exact Hc|done|by apply Hwait| |done]. intros g d0 Hg.
    destruct (decide (g = f)) as [->|Hne]; [unfold relocking; simpl; by rewrite at_pc_eq|by eapply Hothers].
  - eapply cinv_mutex; [exact Hc|apply relock_minv; [done|simpl; by rewrite at_pc_eq]| | |done].
    + intros g Hg. simpl. rewrite at_pc_ne by (intros ->; by rewrite Hp in Hg). by apply Hwait.
    + intros g d0 Hg. destruct (decide (g = f)) as [->|Hne]; [unfold relocking; simpl; by rewrite at_pc_eq|].
      unfold relocking. simpl. rewrite at_pc_ne by done. by apply (Hothers Outside g d0).
  - to_prop. assert (Hb : b = true) by (destruct Hr as [Hr|(o & Ho & He)]; [done|]; rewrite Hob in Ho; injection Ho as <-; done).
    split; simpl; [done| | | |by intros|].
    + apply qinv_plain; [apply (ci_queue _ Hc)|by rewrite Hp|done].
    + intros g Hg. destruct (decide (g = f)) as [->|Hne]; [by rewrite at_pc_eq in Hg|]. rewrite at_pc_ne in Hg by done. by apply Hwait.
    + intros g d0 Hg. destruct (decide (g = f)) as [->|Hne]; [by rewrite at_pc_eq in Hg|]. rewrite at_pc_ne in Hg by done. by eapply Hothers.
    + intros g. destruct (decide (g = f)) as [->|Hne]; [by rewrite at_pc_eq|]. rewrite at_pc_ne by done. apply (ci_no_holding _ Hc).
Qed.

Lemma cs_return_ok m q p b r f d :
  cinv (CWorld m q p b r) -> p f = AtGuard d -> cinv (CWorld m q (at_pc f Outside p) b ((f, d.2, true) :: r)).
Proof.
  intros Hc Hp. split; simpl; [apply Hc| | | | |].
  - apply qinv_plain; [apply (ci_queue _ Hc)|by rewrite Hp|done].
  - intros g Hg. destruct (decide (g = f)) as [->|Hne]; [by rewrite at_pc_eq in Hg|]. rewrite at_pc_ne in Hg by done. by apply (ci_waiting _ Hc).
  - intros g d0 Hg. destruct (decide (g = f)) as [->|Hne]; [by rewrite at_pc_eq in Hg|]. rewrite at_pc_ne in Hg by done. by apply (ci_relock _ Hc g d0).
  - intros g e [H|H]%elem_of_cons; [done|]. by apply (ci_returns _ Hc g e).
  - intros g. destruct (decide (g = f)) as [->|Hne]; [by rewrite at_pc_eq|]. rewrite at_pc_ne by done. apply (ci_no_holding _ Hc).
Qed.

Lemma cv_step_cinv c c' : cv_step c c' -> cinv c -> cinv c'.
Proof.
  intros Hs Hc. destruct Hs as [m m' q p b r f Hs Hne Hmay|m q p b r f a d b' m' Hf Hd E|m q p b r e n m' He E
    |m q p b r f th a t u m' o q' Hf Ha Ht E|m q p b r f th a t Hf E|m q p b r f a d Hf|m q p b r f a d b' q' Hf Hd E
    |m q p b r b' q' E|m q p b r n q' E|m q p b r e n q' E|m q p b r f a d Hf Hp|m q p b r f a d e q' Hf E
    |m q p b r f d a d' e m' Hp Hf E|m q p b r f d Hp Hf]; pose proof (ci_queue _ Hc) as Hq; simpl in Hq.
  - by eapply cs_mutex_ok.
  - by eapply cs_mutex_timeout_ok.
  - by eapply cs_mutex_cancel_ok.
  - by eapply cs_wait_ok.
  - done.
  - eapply cinv_queue; [exact Hc| | | |].
    + apply qinv_move; [done|by rewrite Hf|]. pose proof (qi_fiber _ _ Hq f) as H. unfold fiber_ok in *. rewrite Hf in H. by rewrite at_pc_eq.
    + intros g. destruct (decide (g = f)) as [->|Hne]; [by rewrite Hf|by rewrite at_pc_ne].
    + intros g d'. destruct (decide (g = f)) as [->|Hne]; [by rewrite at_pc_eq|by rewrite at_pc_ne].
    + intros g. destruct (decide (g = f)) as [->|Hne]; [by rewrite at_pc_eq|rewrite at_pc_ne by done; apply (ci_no_holding _ Hc)].
  - assert (Hq' : qinv p q'); [|by eapply cinv_queue; [exact Hc|exact Hq'|done|done|apply (ci_no_holding _ Hc)]].
    destruct (decide (a ∈ waiters_ q)) as [Hin|Hout].
    + destruct (completeLocked_queued p q a ETIMEDOUT Hq Hin) as (g & th & d' & _ & _ & E' & Hq'). rewrite E' in E. by simplify_eq.
    + rewrite (completeLocked_gone p q f a) in E; [|done|by rewrite Hf|done]. by simplify_eq.
  - assert (Hq' : qinv p q'); [|by eapply cinv_queue; [exact Hc|exact Hq'|done|done|apply (ci_no_holding _ Hc)]].
    pose proof (wakeOne_spec p q 0 Hq) as Hw. unfold notifyOne in E. destruct (waiters_ q) as [|a l].
    + rewrite Hw in E. by simplify_eq.
    + destruct Hw as (g & th & d & _ & _ & Hw & Hq'). rewrite Hw in E. by simplify_eq.
  - destruct (wakeAllLocked_spec p 0 q Hq) as (q2 & k & E2 & Hq' & _). unfold notifyAll in E. rewrite E2 in E. simplify_eq.
    by eapply cinv_queue; [exact Hc|exact Hq'|done|done|apply (ci_no_holding _ Hc)].
  - destruct (wakeAllLocked_spec p e q Hq) as (q2 & k & E2 & Hq' & _). unfold cv_cancelWaiters in E. rewrite E2 in E. simplify_eq.
    by eapply cinv_queue; [exact Hc|exact Hq'|done|done|apply (ci_no_holding _ Hc)].
  - destruct (qinv_resume p q f a d Hq Hf Hp) as [Hq' _]. eapply cinv_queue; [exact Hc|exact Hq'| | |].
    + intros g. destruct (decide (g = f)) as [->|Hne]; [by rewrite Hf|by rewrite at_pc_ne].
    + intros g d'. destruct (decide (g = f)) as [->|Hne]; [by rewrite at_pc_eq|by rewrite at_pc_ne].
    + intros g. destruct (decide (g = f)) as [->|Hne]; [by rewrite at_pc_eq|rewrite at_pc_ne by done; apply (ci_no_holding _ Hc)].
  - destruct (wait_leave_spec p q f a d Hq Hf) as (th & e' & _ & Hl). rewrite Hl in E. simplify_eq.
    eapply cinv_relock; [exact Hc|by eapply qinv_leave|apply (ci_mutex _ Hc)|]. apply (ci_waiting _ Hc). simpl. by rewrite Hf.
  - by eapply cs_relock_leave_ok.
  - by apply cs_return_ok.
Qed.

Lemma condition_reachable c : rtc cv_step cv_start c -> cinv c.
Proof.
  intros Hr. eapply (rtc_invariant cv_step cinv); [intros x y; apply cv_step_cinv|exact Hr|].
  split; simpl; try done; [by apply (minv_reachable mutex_start)|apply qinv_start|].
  intros f e H. by apply elem_of_nil in H.
Qed.

(** C23. [wait] gives the mutex back.  However waits, notifications, timeouts and uses
    of the mutex interleave, a fiber suspended in [wait] does not hold the mutex; once
    it was woken, timed out or cancelled it is on its way to the mutex, without a
    deadline; and a wait returns without the mutex only if somebody cancelled the
    waiters of the mutex itself.  The mutex stays exclusive throughout. *)
Theorem condition_wait_reacquires c :
  rtc cv_step cv_start c ->
  (forall f, waiter_of (cpc c f) <> None -> mpc (cm c) f = Outside) /\
  (forall f d, cpc c f = AtGuard d -> mpc (cm c) f <> Outside) /\
  (forall f e, (f, e, false) ∈ returns c -> cv_failed c = true) /\
  (forall f g, mpc (cm c) f = Holding -> mpc (cm c) g = Holding -> f = g).
Proof.
  intros Hr%condition_reachable. split_and!; [apply Hr| |apply Hr|].
  - intros f d Hf E. pose proof (ci_relock _ Hr f d Hf) as H. unfold relocking in H. by rewrite E in H.
  - pose proof (mi_owner _ (ci_mutex _ Hr)) as Ho. intros f g Hf%Ho Hg%Ho. congruence.
Qed.

(** No notification is lost.  A fiber suspended in [wait] is queued and has no
    resumption, or it has left the queue and has exactly one; so, since releasing the
    mutex and queueing is one region, a notifier that runs after the release finds it.
    [notifyOne] answers true exactly when somebody is queued, and then wakes the fiber
    that has waited longest and nobody else. *)
Theorem condition_no_lost_notification c :
  rtc cv_step cv_start c ->
  (forall f a d, cpc c f = Parked a d ->
     (a ∈ waiters_ (cq c) /\ ~ pending (cq c) f) \/ ((a ∉ waiters_ (cq c)) /\ pending (cq c) f)) /\
  NoDup (resumptions (cq c)).*1 /\
  match waiters_ (cq c) with
  | [] => notifyOne (cq c) = Ret false (cq c)
  | a :: l => exists f q', notifyOne (cq c) = Ret true q' /\ waiter_of (cpc c f) = Some a /\ waiters_ q' = l /\
      forall g, pending q' g <-> pending (cq c) g \/ g = f
  end.
Proof.
  intros Hr%condition_reachable. pose proof (ci_queue _ Hr) as Hq. split_and!; [|apply Hq|].
  - intros f a d Hf. pose proof (qi_fiber _ _ Hq f) as Hok. unfold fiber_ok in Hok. rewrite Hf in Hok.
    destruct Hok as (th & [] & e & _ & Hx); [left; naive_solver|by right].
  - pose proof (wakeOne_spec (cpc c) (cq c) 0 Hq) as Hw. destruct (waiters_ (cq c)) as [|a l] eqn:E; [done|].
    destruct Hw as (f & th & d & Hf & _ & Hw & _). exists f, (completed a f th 0 (cq c)).
    split_and!; [done|by destruct Hf as [->| ->]|simpl; by rewrite E; simpl; rewrite Z.eqb_refl|].
    intros g. apply pending_completed.
Qed.

(** ** Cancelling the mutex's waiters *)

Lemma mutex_moves m m' q p b r f c :
  mutex_step true m m' -> mpc m' f <> mpc m f -> may_move (p f) (mpc m f) ->
  rtc cv_step (CWorld m' q p b r) c -> rtc cv_step (CWorld m q p b r) c.
Proof. intros H1 H2 H3 H4. eapply rtc_l; [by eapply cs_mutex|done]. Qed.

(** A wait can return without the mutex.  While a notified fiber waits for the
    mutex that another fiber holds, [cancelWaiters] of the mutex makes its [wait] return
    an error at once: the fiber goes on without the mutex. *)
Theorem cancelled_wait_returns_without_mutex :
  exists c, rtc cv_step cv_start c /\ (1, ECANCELED, false) ∈ returns c /\
    mpc (cm c) 1 = Outside /\ mpc (cm c) 2 = Holding /\ cpc c 1 = Outside.
Proof.
  eexists. split.
  - unfold cv_start, mutex_start.
    eapply (mutex_moves _ _ _ _ _ _ 1); [by apply (ms_call _ _ _ 1 0 kFiberWaitForever)|done|done|].
    eapply (mutex_moves _ _ _ _ _ _ 1); [by apply (ms_region _ _ _ 1 7 0 50 (None, false) Acquired (Mutex (Some 1) false empty_queue))|done|done|].
    eapply rtc_l; [by apply (cs_wait _ _ _ _ _ 1 7 100 kFiberWaitForever None (Mutex None false empty_queue) None (entered 100 1 7 empty_queue))|].
    simpl.
    eapply (mutex_moves _ _ _ _ _ _ 2); [by apply (ms_call _ _ _ 2 0 kFiberWaitForever)|done|done|].
    eapply (mutex_moves _ _ _ _ _ _ 2); [by apply (ms_region _ _ _ 2 8 0 50 (None, false) Acquired (Mutex (Some 2) false empty_queue))|done|done|].
    eapply rtc_l; [by apply (cs_notify_one _ _ _ _ _ true (completed 100 1 7 0 (entered 100 1 7 empty_queue)))|].
    eapply rtc_l; [apply (cs_resume _ _ _ _ _ 1 100 (None, 0)); [done|by left]|].
    eapply rtc_l; [by eapply (cs_leave _ _ _ _ _ 1 100 (None, 0) 0)|].
    eapply (mutex_moves _ _ _ _ _ _ 1);
      [by apply (ms_region _ _ _ 1 7 0 200 (None, false) (Parking 200) (Mutex (Some 2) false (entered 200 1 7 empty_queue)))|done|done|].
    eapply rtc_l; [by apply (cs_mutex_cancel _ _ _ _ _ ECANCELED 1 (Mutex (Some 2) false (completed 200 1 7 ECANCELED (entered 200 1 7 empty_queue))))|].
    eapply (mutex_moves _ _ _ _ _ _ 1); [apply (ms_resume _ _ _ 1 200 (None, false)); [done|by left]|done|done|].
    eapply rtc_once. eapply (cs_relock_leave _ _ _ _ _ 1 (None, 0) 200 (None, false) ECANCELED); done.
  - simpl. split_and!; try done. apply list_elem_of_here.
Qed.

(** ** Witnesses *)

(** Fiber 1 has taken the mutex and waits on the condition. *)
Definition one_waits : cworld :=
  CWorld (MWorld (Mutex None false empty_queue)
      (at_pc 1 Outside (at_pc 1 Holding (at_pc 1 (AtGuard (None, false)) (fun _ => Outside)))))
    (entered 100 1 7 empty_queue) (at_pc 1 (Parked 100 (None, 0)) (fun _ => Outside)) false [].

Lemma one_waits_run : rtc cv_step cv_start one_waits.
Proof.
  unfold cv_start, mutex_start.
  eapply (mutex_moves _ _ _ _ _ _ 1); [by apply (ms_call _ _ _ 1 0 kFiberWaitForever)|done|done|].
  eapply (mutex_moves _ _ _ _ _ _ 1); [by apply (ms_region _ _ _ 1 7 0 50 (None, false) Acquired (Mutex (Some 1) false empty_queue))|done|done|].
  eapply rtc_l; [by apply (cs_wait _ _ _ _ _ 1 7 100 kFiberWaitForever None (Mutex None false empty_queue) None (entered 100 1 7 empty_queue))|].
  exact (rtc_refl _ one_waits).
Qed.

Lemma condition_wait_reacquires_witness : cpc one_waits 1 = Parked 100 (None, 0) /\ mpc (cm one_waits) 1 = Outside.
Proof. split; [reflexivity|]. apply (proj1 (condition_wait_reacquires one_waits one_waits_run)). discriminate. Defined.

Lemma condition_no_lost_notification_witness : exists f q', notifyOne (cq one_waits) = Ret true q' /\
  waiter_of (cpc one_waits f) = Some 100 /\ waiters_ q' = [].
Proof.
  destruct (proj2 (proj2 (condition_no_lost_notification one_waits one_waits_run))) as (f & q' & H1 & H2 & H3 & _).
  exists f, q'. by split_and!.
Defined.
