(* ===== verification/IOManager.v ===== *)
(** * The I/O manager (src/iomanager.cpp, include/pulsar/iomanager.hpp)

    Registration of file descriptors with epoll, the idle loop that turns epoll
    events and expired timers into scheduler tasks, and the thread pool for
    blocking calls.  [IOManager] derives from [Scheduler] and [TimerManager];
    both are parts of its state here.

    epoll lives in the kernel.  Whether a call of [epoll_ctl] succeeds is an
    argument ([ok]); the calls that succeed are recorded in [epoll_calls].
    Threads that register events are workers of this manager or belong to no
    scheduler. *)

From S2P Require Import Prelude Timer Scheduler.

Inductive Event := NONE | READ | WRITE.
#[export] Instance event_eq_dec : EqDecision Event.
Proof. solve_decision. Defined.
Definition ev (e : Event) : Z := match e with NONE => 0 | READ => 1 | WRITE => 4 end.

Definition EPOLLIN : Z := 1.
Definition EPOLLOUT : Z := 4.
Definition EPOLLERR : Z := 8.
Definition EPOLLHUP : Z := 16.
Definition EPOLLET : Z := 2 ^ 31.

(** [scheduler] says whether the pointer is set. *)
Record EventContext := EvCtx {
  scheduler : bool;
  fiber : option Z;
  cb : option Z;
  thread_id : Z }.

Definition no_context : EventContext := EvCtx false None None (-1).

Record FdContext := FdCtx {
  read : EventContext;
  write : EventContext;
  fd : Z;
  events : Z }.

(** [FdContext::getEveContext] and the assignment through its result *)
Definition getEveContext {S} (event : Event) (c : FdContext) : M S EventContext :=
  match event with
  | READ => mret (read c)
  | WRITE => mret (write c)
  | NONE => stop (Panic "getContext error: unknow event")
  end.
Definition set_context (event : Event) (x : EventContext) (c : FdContext) : FdContext :=
  match event with
  | READ => FdCtx x (write c) (fd c) (events c)
  | WRITE => FdCtx (read c) x (fd c) (events c)
  | NONE => c
  end.
Definition set_events (x : Z) (c : FdContext) : FdContext := FdCtx (read c) (write c) (fd c) x.

(** [FdContext::resetEveContext] *)
Definition resetEveContext (ctx : EventContext) : EventContext := no_context.

Inductive epoll_op := EPOLL_CTL_ADD | EPOLL_CTL_MOD | EPOLL_CTL_DEL.
Record epoll_call := EpollCall {
  ec_op : epoll_op;
  ec_fd : Z;
  ec_events : Z;
  ec_ptr : Z }.

(** [fdContexts_] holds pointers into [heap]; [pipe_bytes] is what [tickle] wrote. *)
Record IOManager := IOM {
  base : Scheduler;
  timers : Timer.manager;
  fdContexts_ : list (option Z);
  heap : gmap Z FdContext;
  next_ctx : Z;
  pendingEventCnt_ : Z;
  pendingBlockingTasks_ : Z;
  pipe_bytes : Z;
  epoll_calls : list epoll_call }.

Definition set_base (x : Scheduler) (m : IOManager) : IOManager :=
  IOM x (timers m) (fdContexts_ m) (heap m) (next_ctx m) (pendingEventCnt_ m)
    (pendingBlockingTasks_ m) (pipe_bytes m) (epoll_calls m).
Definition set_timers (x : Timer.manager) (m : IOManager) : IOManager :=
  IOM (base m) x (fdContexts_ m) (heap m) (next_ctx m) (pendingEventCnt_ m)
    (pendingBlockingTasks_ m) (pipe_bytes m) (epoll_calls m).
Definition set_contexts (v : list (option Z)) (h : gmap Z FdContext) (n : Z) (m : IOManager) : IOManager :=
  IOM (base m) (timers m) v h n (pendingEventCnt_ m)
    (pendingBlockingTasks_ m) (pipe_bytes m) (epoll_calls m).
Definition set_heap (h : gmap Z FdContext) (m : IOManager) : IOManager :=
  set_contexts (fdContexts_ m) h (next_ctx m) m.
Definition set_pending (x : Z) (m : IOManager) : IOManager :=
  IOM (base m) (timers m) (fdContexts_ m) (heap m) (next_ctx m) x
    (pendingBlockingTasks_ m) (pipe_bytes m) (epoll_calls m).
Definition set_blocking (x : Z) (m : IOManager) : IOManager :=
  IOM (base m) (timers m) (fdContexts_ m) (heap m) (next_ctx m) (pendingEventCnt_ m)
    x (pipe_bytes m) (epoll_calls m).
Definition set_pipe (x : Z) (m : IOManager) : IOManager :=
  IOM (base m) (timers m) (fdContexts_ m) (heap m) (next_ctx m) (pendingEventCnt_ m)
    (pendingBlockingTasks_ m) x (epoll_calls m).
Definition log_epoll (c : epoll_call) (m : IOManager) : IOManager :=
  IOM (base m) (timers m) (fdContexts_ m) (heap m) (next_ctx m) (pendingEventCnt_ m)
    (pendingBlockingTasks_ m) (pipe_bytes m) (epoll_calls m ++ [c]).

(** [isHasIdleThreads] and [IOManager::tickle]: a byte into the pipe when some
    worker waits in epoll. *)
Definition tickle : M IOManager unit :=
  m ← get;
  if idleThreadCnt_ (base m) >? 0 then modify (set_pipe (pipe_bytes m + 1)) else mret tt.

(** [this->scheduler(task, thread)], with the virtual [tickle] of this class. *)
Definition submit (me : thread) (task : SchedulerTask) : M IOManager unit :=
  b ← zoom base set_base (enqueueTask me task);
  if b : bool then tickle else mret tt.

Definition epoll_ctl (ok : bool) (c : epoll_call) : M IOManager bool :=
  if ok then modify (log_epoll c);; mret true else mret false.

Definition context (a : Z) : M IOManager FdContext := fun m =>
  match heap m !! a with
  | Some c => Ret c m
  | None => Crash (Undefined "FdContext pointer")
  end.
Definition put_context (a : Z) (c : FdContext) : M IOManager unit :=
  modify (fun m => set_heap (<[a := c]> (heap m)) m).

Definition has (mask : Z) (e : Event) : bool := negb (Z.land mask (ev e) =? 0).

(** The task an event context stands for. *)
Definition event_task (ctx : EventContext) : SchedulerTask :=
  match cb ctx with
  | Some f => Task None (Some f) (thread_id ctx)
  | None => Task (fiber ctx) None (thread_id ctx)
  end.

(** [FdContext::triggerEvent], by the thread [me] *)
Definition triggerEvent (me : thread) (a : Z) (event : Event) : M IOManager unit :=
  c ← context a;
  CondPanic (has (events c) event) "event hasn't been registed";;
  let c := set_events (Z.land (events c) (Z.lnot (ev event))) c in
  put_context a c;;
  ctx ← getEveContext event c;
  (if scheduler ctx then submit me (event_task ctx) else stop (Undefined "null scheduler"));;
  put_context a (set_context event (resetEveContext ctx) c).

(** [--pendingEventCnt_] *)
Definition drop_pending : M IOManager unit :=
  modify (fun m => set_pending (u64 (pendingEventCnt_ m - 1)) m).

(** [IOManager::contextResize] *)
Fixpoint fill_contexts (i : Z) (l : list (option Z)) (h : gmap Z FdContext) (n : Z) :
    list (option Z) * gmap Z FdContext * Z :=
  match l with
  | [] => ([], h, n)
  | Some a :: l' =>
      let '(v, h', n') := fill_contexts (i + 1) l' h n in (Some a :: v, h', n')
  | None :: l' =>
      let '(v, h', n') := fill_contexts (i + 1) l' (<[n := FdCtx no_context no_context i 0]> h) (n + 1) in
      (Some n :: v, h', n')
  end.

Definition contextResize (size : Z) : M IOManager unit :=
  modify (fun m =>
    let '(v, h, n) := fill_contexts 0 (resize (Z.to_nat size) None (fdContexts_ m)) (heap m) (next_ctx m) in
    set_contexts v h n m).

(** [fdContexts_[fd]] after the size was compared: the read-locked region of
    every operation.  [None]: the vector is too short. *)
Definition find_context (f : Z) : M IOManager (option Z) := fun m =>
  if Z.of_nat (length (fdContexts_ m)) >? f then
    if f <? 0 then Crash (Undefined "fdContexts_ index")
    else match fdContexts_ m !! Z.to_nat f with
         | Some (Some a) => Ret (Some a) m
         | _ => Crash (Undefined "null FdContext")
         end
  else Ret None m.

(** The write-locked region of [addEvent].  [fd * 1.5] is exact in a double. *)
Definition grow_context (f : Z) : M IOManager Z :=
  contextResize (f * 3 / 2);;
  m ← get;
  match fdContexts_ m !! Z.to_nat f with
  | Some (Some a) => mret a
  | _ => stop (Undefined "fdContexts_ index")
  end.

(** [addEvent] under the mutex of the context at [a].  [cur] is the running
    fiber, [running] whether its state is RUNNING. *)
Definition addEvent_ctx (me : thread) (cur : Z) (running ok : bool) (f a : Z) (event : Event) (callback : option Z) :
    M IOManager Z :=
  c ← context a;
  CondPanic (negb (has (events c) event)) "event is already registered for fd";;
  let op := if events c =? 0 then EPOLL_CTL_ADD else EPOLL_CTL_MOD in
  done ← epoll_ctl ok (EpollCall op f (Z.lor EPOLLET (Z.lor (events c) (ev event))) a);
  if negb done then mret (-1)
  else
    modify (fun m => set_pending (u64 (pendingEventCnt_ m + 1)) m);;
    let c := set_events (Z.lor (events c) (ev event)) c in
    put_context a c;;
    ctx ← getEveContext event c;
    CondPanic (negb (scheduler ctx) && bool_decide (fiber ctx = None) && bool_decide (cb ctx = None))
      "event_ctx is nullptr";;
    match callback with
    | Some g => put_context a (set_context event (EvCtx (in_this me) (fiber ctx) (Some g) (tid me)) c)
    | None =>
        put_context a (set_context event (EvCtx (in_this me) (Some cur) (cb ctx) (tid me)) c);;
        CondPanic running "I/O waiter Fiber is not running"
    end;;
    mret 0.

(** [IOManager::addEvent] *)
Definition addEvent (me : thread) (cur : Z) (running ok : bool) (f : Z) (event : Event) (callback : option Z) :
    M IOManager Z :=
  r ← find_context f;
  a ← match r with Some a => mret a | None => grow_context f end;
  addEvent_ctx me cur running ok f a event callback.

(** [delEvent] and [cancelEvent] under the mutex of the context *)
Definition delEvent_ctx (ok : bool) (f a : Z) (event : Event) : M IOManager bool :=
  c ← context a;
  if negb (has (events c) event) then mret false
  else
    let new_events := Z.land (events c) (Z.lnot (ev event)) in
    let op := if new_events =? 0 then EPOLL_CTL_DEL else EPOLL_CTL_MOD in
    done ← epoll_ctl ok (EpollCall op f (Z.lor EPOLLET new_events) a);
    if negb done then mret false
    else
      drop_pending;;
      let c := set_events new_events c in
      put_context a c;;
      ctx ← getEveContext event c;
      put_context a (set_context event (resetEveContext ctx) c);;
      mret true.

Definition cancelEvent_ctx (me : thread) (ok : bool) (f a : Z) (event : Event) : M IOManager bool :=
  c ← context a;
  if negb (has (events c) event) then mret false
  else
    let new_events := Z.land (events c) (Z.lnot (ev event)) in
    let op := if new_events =? 0 then EPOLL_CTL_DEL else EPOLL_CTL_MOD in
    done ← epoll_ctl ok (EpollCall op f (Z.lor EPOLLET new_events) a);
    if negb done then mret false
    else triggerEvent me a event;; drop_pending;; mret true.

Definition cancelAll_ctx (me : thread) (ok : bool) (f a : Z) : M IOManager bool :=
  c ← context a;
  if events c =? 0 then mret false
  else
    done ← epoll_ctl ok (EpollCall EPOLL_CTL_DEL f 0 a);
    if negb done then mret false
    else
      (if has (events c) READ then triggerEvent me a READ;; drop_pending else mret tt);;
      c ← context a;
      (if has (events c) WRITE then triggerEvent me a WRITE;; drop_pending else mret tt);;
      c ← context a;
      CondPanic (events c =? 0) "fd not totally clear";;
      mret true.

Definition on_context (f : Z) (k : Z -> M IOManager bool) : M IOManager bool :=
  r ← find_context f;
  match r with
  | None => mret false
  | Some a => k a
  end.

Definition delEvent (ok : bool) (f : Z) (event : Event) : M IOManager bool :=
  on_context f (fun a => delEvent_ctx ok f a event).
Definition cancelEvent (me : thread) (ok : bool) (f : Z) (event : Event) : M IOManager bool :=
  on_context f (fun a => cancelEvent_ctx me ok f a event).
Definition cancelAll (me : thread) (ok : bool) (f : Z) : M IOManager bool :=
  on_context f (fun a => cancelAll_ctx me ok f a).

(** One entry of the array [epoll_wait] filled: the pipe, or a context with
    the reported event mask. *)
Inductive ready :=
| TicklePipe
| FdReady (a : Z) (reported : Z).

Definition real_events (reported registered : Z) : Z :=
  let reported :=
    if negb (Z.land reported (Z.lor EPOLLERR EPOLLHUP) =? 0)
    then Z.lor reported (Z.land (Z.lor EPOLLIN EPOLLOUT) registered) else reported in
  Z.lor (if negb (Z.land reported EPOLLIN =? 0) then ev READ else 0)
        (if negb (Z.land reported EPOLLOUT =? 0) then ev WRITE else 0).

(** The body of the loop over the ready events in [idle()]. *)
Definition handle_ready (me : thread) (ok : bool) (r : ready) : M IOManager unit :=
  match r with
  | TicklePipe => modify (set_pipe 0)
  | FdReady a reported =>
      c ← context a;
      let real := real_events reported (events c) in
      if Z.land (events c) real =? 0 then mret tt
      else
        let left_events := Z.land (events c) (Z.lnot real) in
        let op := if left_events =? 0 then EPOLL_CTL_DEL else EPOLL_CTL_MOD in
        done ← epoll_ctl ok (EpollCall op (fd c) (Z.lor EPOLLET left_events) a);
        if negb done then mret tt
        else
          (if has real READ then triggerEvent me a READ;; drop_pending else mret tt);;
          (if has real WRITE then triggerEvent me a WRITE;; drop_pending else mret tt)
  end.

(** [IOManager::stopping(timeout)]: the next timeout, and the answer. *)
Definition stopping_timeout : M IOManager (Z * bool) :=
  timeout ← zoom timers set_timers Timer.getNextTimer;
  m ← get;
  mret (timeout, (timeout =? UINT64_MAX) && (pendingEventCnt_ m =? 0) && (pendingBlockingTasks_ m =? 0)
                 && Scheduler.stopping (base m)).
Definition stopping : M IOManager bool := r ← stopping_timeout; mret r.2.

(** The argument of [epoll_wait]: [next_timeout] clamped by way of an [int]. *)
Definition MAX_TIMEOUT : Z := 5000.
Definition clamp_timeout (next_timeout : Z) : Z :=
  if negb (next_timeout =? UINT64_MAX) then u64 (Z.min (i32 next_timeout) MAX_TIMEOUT) else MAX_TIMEOUT.
Definition wait_timeout (next_timeout : Z) : Z := i32 (clamp_timeout next_timeout).

(** One turn of [idle()]: [None] when the manager may stop, else the timeout
    given to [epoll_wait], which answers with [readies].  [ids] names the
    callbacks as tasks. *)
Definition idle_turn (me : thread) (ids : Timer.callback -> Z) (readies : list (bool * ready)) :
    M IOManager (option Z) :=
  r ← stopping_timeout;
  if r.2 : bool then mret None
  else
    zoom base set_base (setCurrentWorkerActive me true);;
    cbs ← zoom timers set_timers (Timer.listExpiredCb []);
    foldr (fun c m => submit me (Task None (Some (ids c)) (-1));; m) (mret tt) cbs;;
    foldr (fun x m => handle_ready me x.1 x.2;; m) (mret tt) readies;;
    zoom base set_base (setCurrentWorkerActive me false);;
    mret (Some (wait_timeout r.1)).

(** The constructor: 32 contexts.  The registration of the pipe itself is not
    recorded in [epoll_calls]. *)
Definition IOManager_new (b : Scheduler) (t : Timer.manager) : IOManager :=
  match contextResize 32 (IOM b t [] ∅ 0 0 0 0 []) with
  | Ret _ m => m
  | _ => IOM b t [] ∅ 0 0 0 0 []
  end.
