(* ===== verification/IOManagerProofs.v ===== *)
(** * Correctness of the I/O manager

    Every piece of work is in exactly one place (an event context, a queue of
    the scheduler, or already taken or deleted), the regions do not stop the
    process, and the kernel's interest set mirrors the contexts. *)

From S2P Require Import Prelude Timer Scheduler SchedulerProofs IOManager.

(** ** Event masks *)

Definition evctx (e : Event) (c : FdContext) : EventContext :=
  match e with READ => read c | WRITE => write c | NONE => no_context end.

Definition full (x : EventContext) : Prop := scheduler x = true /\ nonempty (event_task x).

Definition side_ok (on : bool) (x : EventContext) : Prop := if on then full x else x = no_context.

Record ctx_ok (c : FdContext) : Prop := {
  ck_mask : events c = 0 \/ events c = 1 \/ events c = 4 \/ events c = 5;
  ck_read : side_ok (has (events c) READ) (read c);
  ck_write : side_ok (has (events c) WRITE) (write c) }.

Definition fired (e : Event) (c : FdContext) : FdContext :=
  set_context e no_context (set_events (Z.land (events c) (Z.lnot (ev e))) c).

Definition registered (e : Event) (x : EventContext) (c : FdContext) : FdContext :=
  set_context e x (set_events (Z.lor (events c) (ev e)) c).

Definition ctx_tasks (c : FdContext) : list SchedulerTask :=
  (if has (events c) READ then [event_task (read c)] else []) ++
  (if has (events c) WRITE then [event_task (write c)] else []).

(** Case on the four possible masks. *)
Ltac masks c H :=
  let E := fresh "Emask" in
  destruct c as [? ? ? ?]; simpl in *; destruct H as [E|[E|[E|E]]]; subst.

Lemma fired_ok e c : ctx_ok c -> ctx_ok (fired e c).
Proof.
  intros [Hm Hr Hw]. masks c Hm; destruct e; split; vm_compute in *; naive_solver.
Qed.

Lemma registered_ok e x c : e <> NONE -> full x -> ctx_ok c -> ctx_ok (registered e x c).
Proof.
  intros He Hx [Hm Hr Hw]. masks c Hm; destruct e; try done; split; simpl in *;
    change (has _ _) with true in *; change (has _ _) with false in *; naive_solver.
Qed.

Lemma fired_tasks e c : ctx_ok c -> has (events c) e = true ->
  ctx_tasks c ≡ₚ event_task (evctx e c) :: ctx_tasks (fired e c).
Proof.
  intros [Hm _ _] He. unfold ctx_tasks. masks c Hm; destruct e; vm_compute in He; try done;
    try (by vm_compute); simpl; apply Permutation_swap.
Qed.

Lemma registered_tasks e x c : ctx_ok c -> has (events c) e = false -> e <> NONE ->
  ctx_tasks (registered e x c) ≡ₚ event_task x :: ctx_tasks c.
Proof.
  intros [Hm _ _] He Hn. masks c Hm; destruct e; vm_compute in He; try done; simpl; try done; apply Permutation_swap.
Qed.

(** ** Work waiting for events *)

Definition waiting (h : gmap Z FdContext) : list SchedulerTask :=
  map_to_list h ≫= (fun x => ctx_tasks x.2).

Lemma waiting_fresh h a c : h !! a = None -> waiting (<[a := c]> h) ≡ₚ ctx_tasks c ++ waiting h.
Proof. intros H. unfold waiting. by rewrite map_to_list_insert. Qed.

Lemma waiting_update h a c c' :
  h !! a = Some c -> ctx_tasks c ++ waiting (<[a := c']> h) ≡ₚ ctx_tasks c' ++ waiting h.
Proof.
  intros H. rewrite <- (insert_delete_id h a c H) at 2. rewrite <- insert_delete_eq.
  rewrite !waiting_fresh by apply lookup_delete_eq.
  rewrite !app_assoc. by rewrite (Permutation_app_comm (ctx_tasks c)).
Qed.

(** ** The invariant *)

Record iinv (m : IOManager) : Prop := {
  ii_base : SchedulerProofs.wf (base m);
  ii_ctx : forall a c, heap m !! a = Some c -> ctx_ok c;
  ii_fresh : forall a c, heap m !! a = Some c -> 0 <= a < next_ctx m;
  ii_vector : forall i x, fdContexts_ m !! i = Some x ->
    exists a c, x = Some a /\ heap m !! a = Some c /\ fd c = Z.of_nat i;
  ii_size : (32 <= length (fdContexts_ m))%nat;
  ii_count : pendingEventCnt_ m = u64 (Z.of_nat (length (waiting (heap m)))) }.

Lemma submit_spec me t m :
  SchedulerProofs.wf (base m) -> 0 <= cur_worker_index me -> nonempty t ->
  exists b p, submit me t m = Ret tt (set_pipe p (set_base b m)) /\ SchedulerProofs.wf b /\
    all_tasks b ≡ₚ t :: all_tasks (base m).
Proof.
  intros Hwf Hme Ht. destruct (enqueue_spec me t (base m) Hwf Hme Ht) as (q & b & E & Hb & Hp & _).
  unfold submit, mbind, M_bind, zoom. rewrite E. destruct q.
  - unfold tickle, mbind, M_bind, get. simpl. destruct (idleThreadCnt_ b >? 0).
    + exists b, (pipe_bytes m + 1). done.
    + exists b, (pipe_bytes m). done.
  - exists b, (pipe_bytes m). done.
Qed.

Lemma context_eq m a c : heap m !! a = Some c -> context a m = Ret c m.
Proof. intros H. unfold context. by rewrite H. Qed.

Lemma getEveContext_eq {S} e c (s : S) : e <> NONE -> getEveContext e c s = Ret (evctx e c) s.
Proof. by destruct e. Qed.

Lemma has_NONE x : has x NONE = false.
Proof. unfold has. simpl. by rewrite Z.land_0_r. Qed.

Lemma has_not_none x e : has x e = true -> e <> NONE.
Proof. intros H ->. by rewrite has_NONE in H. Qed.

Lemma evctx_full e c : ctx_ok c -> has (events c) e = true -> full (evctx e c).
Proof.
  intros [Hm Hr Hw] He. destruct e; simpl; [by rewrite has_NONE in He| |]; by rewrite He in *.
Qed.

Lemma evctx_empty e c : ctx_ok c -> has (events c) e = false -> e <> NONE -> evctx e c = no_context.
Proof.
  intros [Hm Hr Hw] He Hn. destruct e; simpl; [done| |]; by rewrite He in *.
Qed.

(** [triggerEvent] hands the waiting task over and clears the context. *)
Lemma trigger_spec me a e m c :
  SchedulerProofs.wf (base m) -> 0 <= cur_worker_index me ->
  heap m !! a = Some c -> ctx_ok c -> has (events c) e = true ->
  exists b p, triggerEvent me a e m =
      Ret tt (set_pipe p (set_base b (set_heap (<[a := fired e c]> (heap m)) m))) /\
    SchedulerProofs.wf b /\ all_tasks b ≡ₚ event_task (evctx e c) :: all_tasks (base m).
Proof.
  intros Hwf Hme Hc Hok He. pose proof (has_not_none _ _ He) as Hn.
  destruct (evctx_full e c Hok He) as [Hs Ht].
  set (c1 := set_events (Z.land (events c) (Z.lnot (ev e))) c).
  assert (Hx : evctx e c1 = evctx e c) by (by destruct e).
  destruct (submit_spec me (event_task (evctx e c)) (set_heap (<[a := c1]> (heap m)) m) Hwf Hme Ht)
    as (b & p & E & Hb & Hp).
  exists b, p. split; [|done]. unfold triggerEvent.
  eapply bind_ret; [by apply context_eq|]. eapply bind_panic; [done|]. fold c1.
  eapply bind_modify. eapply bind_ret; [by apply getEveContext_eq|]. rewrite Hx, Hs.
  eapply bind_ret; [exact E|]. unfold put_context, modify, set_heap, set_contexts. simpl.
  rewrite insert_insert_eq. done.
Qed.

(** What an operation on one context leaves alone. *)
Record framed (m m' : IOManager) : Prop := {
  fr_vector : fdContexts_ m' = fdContexts_ m;
  fr_next : next_ctx m' = next_ctx m;
  fr_blocking : pendingBlockingTasks_ m' = pendingBlockingTasks_ m;
  fr_timers : timers m' = timers m }.

Lemma framed_refl m : framed m m.
Proof. done. Qed.

Lemma framed_trans m1 m2 m3 : framed m1 m2 -> framed m2 m3 -> framed m1 m3.
Proof. intros [] []. split; congruence. Qed.

Lemma iinv_update m m' a c c' :
  iinv m -> heap m !! a = Some c -> ctx_ok c' -> fd c' = fd c -> framed m m' ->
  heap m' = <[a := c']> (heap m) -> SchedulerProofs.wf (base m') ->
  pendingEventCnt_ m' = u64 (Z.of_nat (length (waiting (heap m')))) -> iinv m'.
Proof.
  intros [Hb Hc Hf Hv Hs Hn] Ha Hok Hfd [Fv Fn _ _] Hh Hwf Hcount. split; rewrite ?Fv, ?Fn; try done.
  - intros x cx. rewrite Hh. intros [[<- <-]|[_ H]]%lookup_insert_Some; [done|]. by eapply Hc.
  - intros x cx. rewrite Hh. intros [[<- <-]|[_ H]]%lookup_insert_Some; by eapply Hf.
  - intros i x Hx. destruct (Hv i x Hx) as (b & cb' & -> & Hb' & Hfb). rewrite Hh.
    destruct (decide (a = b)) as [->|Hne].
    + exists b, c'. rewrite lookup_insert_eq. split_and!; try done. simplify_eq. congruence.
    + exists b, cb'. by rewrite lookup_insert_ne.
Qed.

Lemma fired_length h a c e :
  h !! a = Some c -> ctx_ok c -> has (events c) e = true ->
  length (waiting h) = S (length (waiting (<[a := fired e c]> h))) /\
  waiting h ≡ₚ event_task (evctx e c) :: waiting (<[a := fired e c]> h).
Proof.
  intros Ha Hok He.
  assert (H : waiting h ≡ₚ event_task (evctx e c) :: waiting (<[a := fired e c]> h)).
  { pose proof (waiting_update h a c (fired e c) Ha) as H. rewrite (fired_tasks e c Hok He) in H.
    apply (Permutation_app_inv_l (ctx_tasks (fired e c))). rewrite <- H.
    simpl. by rewrite <- Permutation_middle. }
  split; [|done]. by rewrite H.
Qed.

Lemma registered_length h a c e x :
  h !! a = Some c -> ctx_ok c -> has (events c) e = false -> e <> NONE ->
  length (waiting (<[a := registered e x c]> h)) = S (length (waiting h)) /\
  waiting (<[a := registered e x c]> h) ≡ₚ event_task x :: waiting h.
Proof.
  intros Ha Hok He Hn.
  assert (H : waiting (<[a := registered e x c]> h) ≡ₚ event_task x :: waiting h).
  { pose proof (waiting_update h a c (registered e x c) Ha) as H. rewrite (registered_tasks e x c Hok He Hn) in H.
    apply (Permutation_app_inv_l (ctx_tasks c)). rewrite H. simpl. by rewrite <- Permutation_middle. }
  split; [|done]. by rewrite H.
Qed.

Lemma u64_pred n : u64 (u64 (Z.of_nat (S n)) - 1) = u64 (Z.of_nat n).
Proof. rewrite u64_sub_l. f_equal. lia. Qed.

Lemma u64_succ n : u64 (u64 (Z.of_nat n) + 1) = u64 (Z.of_nat (S n)).
Proof. rewrite u64_add_l. f_equal. lia. Qed.

(** [triggerEvent] with the decrement that follows it everywhere.  The count is
    checked against the registered events only after the decrement, so the
    premise is the invariant without it. *)
Lemma consume_spec me a e m c :
  iinv m -> 0 <= cur_worker_index me -> heap m !! a = Some c -> has (events c) e = true ->
  exists m', (triggerEvent me a e;; drop_pending) m = Ret tt m' /\ iinv m' /\ framed m m' /\
    heap m' = <[a := fired e c]> (heap m) /\ epoll_calls m' = epoll_calls m /\
    all_tasks (base m') ≡ₚ event_task (evctx e c) :: all_tasks (base m) /\
    waiting (heap m) ≡ₚ event_task (evctx e c) :: waiting (heap m').
Proof.
  intros Hi Hme Ha He. pose proof (ii_ctx _ Hi a c Ha) as Hok.
  destruct (trigger_spec me a e m c (ii_base _ Hi) Hme Ha Hok He) as (b & p & E & Hb & Hp).
  destruct (fired_length (heap m) a c e Ha Hok He) as [Hlen Hperm].
  eexists. split; [eapply bind_ret; [exact E|]; reflexivity|]. split; [|split_and!; done].
  eapply (iinv_update m _ a c (fired e c)); try done; [by apply fired_ok|by destruct e|].
  simpl. rewrite (ii_count _ Hi), Hlen. apply u64_pred.
Qed.

(** ** The regions *)

Lemma iinv_log x m : iinv m -> iinv (log_epoll x m).
Proof. intros []. by split. Qed.

Lemma fired_other e e' c : ctx_ok c -> e <> e' -> has (events (fired e c)) e' = has (events c) e'.
Proof. intros [Hm _ _] Hne. masks c Hm; by destruct e, e'. Qed.

Lemma fired_clear c : ctx_ok c ->
  (if has (events c) READ then events c <> 4 /\ events c <> 0 else events c = 4 \/ events c = 0) /\
  (has (events c) WRITE = false -> events c = 0 \/ events c = 1) /\
  (has (events c) READ = false -> has (events c) WRITE = false -> events c = 0).
Proof. intros [Hm _ _]. masks c Hm; vm_compute; naive_solver. Qed.

(** What a registration stores. *)
Definition new_context (me : thread) (cur : Z) (callback : option Z) : EventContext :=
  EvCtx (in_this me) (if callback is Some _ then None else Some cur) callback (tid me).

Definition add_call (f a : Z) (e : Event) (c : FdContext) : epoll_call :=
  EpollCall (if events c =? 0 then EPOLL_CTL_ADD else EPOLL_CTL_MOD) f
    (Z.lor EPOLLET (Z.lor (events c) (ev e))) a.

(** [real]: the events that go away. *)
Definition drop_call (f a real : Z) (c : FdContext) : epoll_call :=
  EpollCall (if Z.land (events c) (Z.lnot real) =? 0 then EPOLL_CTL_DEL else EPOLL_CTL_MOD) f
    (Z.lor EPOLLET (Z.land (events c) (Z.lnot real))) a.

Lemma new_context_full me cur callback : in_this me = true -> full (new_context me cur callback).
Proof.
  intros H. split; [done|]. unfold event_task, nonempty. destruct callback; simpl; eauto.
Qed.

Lemma addEvent_ctx_spec me cur f a e callback m c :
  iinv m -> in_this me = true -> heap m !! a = Some c -> has (events c) e = false -> e <> NONE ->
  addEvent_ctx me cur true false f a e callback m = Ret (-1) m /\
  exists m', addEvent_ctx me cur true true f a e callback m = Ret 0 m' /\ iinv m' /\ framed m m' /\
    heap m' = <[a := registered e (new_context me cur callback) c]> (heap m) /\ base m' = base m /\
    epoll_calls m' = epoll_calls m ++ [add_call f a e c] /\
    waiting (heap m') ≡ₚ event_task (new_context me cur callback) :: waiting (heap m).
Proof.
  intros Hi Hin Ha He Hn. pose proof (ii_ctx _ Hi a c Ha) as Hok.
  destruct (registered_length (heap m) a c e (new_context me cur callback) Ha Hok He Hn) as [Hlen Hp].
  split.
  { unfold addEvent_ctx. eapply bind_ret; [by apply context_eq|]. by eapply bind_panic; [by rewrite He|]. }
  exists (set_heap (<[a := registered e (new_context me cur callback) c]> (heap m))
    (set_pending (u64 (pendingEventCnt_ m + 1)) (log_epoll (add_call f a e c) m))).
  split; [|split_and!; try done].
  - unfold addEvent_ctx. eapply bind_ret; [by apply context_eq|]. eapply bind_panic; [by rewrite He|].
    eapply bind_ret; [reflexivity|]. simpl negb. cbv iota.
    eapply bind_modify. eapply bind_modify. eapply bind_ret; [by apply getEveContext_eq|].
    assert (Hx : evctx e (set_events (Z.lor (events c) (ev e)) c) = no_context).
    { pose proof (evctx_empty e c Hok He Hn) as H. by destruct e. }
    rewrite Hx. eapply bind_panic; [done|]. unfold set_heap, set_contexts.
    destruct callback; (eapply bind_ret; [reflexivity|]); unfold mret, M_ret; simpl;
      rewrite insert_insert_eq; done.
  - eapply (iinv_update m _ a c (registered e (new_context me cur callback) c)); try done.
    + apply registered_ok; [done|by apply new_context_full|done].
    + by destruct e.
    + apply Hi.
    + simpl. rewrite (ii_count _ Hi), Hlen. apply u64_succ.
Qed.

Lemma delEvent_ctx_spec ok f a e m c :
  iinv m -> heap m !! a = Some c ->
  (has (events c) e = false \/ ok = false -> delEvent_ctx ok f a e m = Ret false m) /\
  (has (events c) e = true -> ok = true -> exists m', delEvent_ctx ok f a e m = Ret true m' /\ iinv m' /\
    framed m m' /\ heap m' = <[a := fired e c]> (heap m) /\ base m' = base m /\
    epoll_calls m' = epoll_calls m ++ [drop_call f a (ev e) c] /\
    waiting (heap m) ≡ₚ event_task (evctx e c) :: waiting (heap m')).
Proof.
  intros Hi Ha. pose proof (ii_ctx _ Hi a c Ha) as Hok. split.
  - intros Hno. unfold delEvent_ctx. eapply bind_ret; [by apply context_eq|].
    destruct (has (events c) e); [|done]. by destruct Hno as [| ->].
  - intros He ->. destruct (fired_length (heap m) a c e Ha Hok He) as [Hlen Hp].
    exists (set_heap (<[a := fired e c]> (heap m))
      (set_pending (u64 (pendingEventCnt_ m - 1)) (log_epoll (drop_call f a (ev e) c) m))).
    split; [|split_and!; try done].
    + unfold delEvent_ctx. eapply bind_ret; [by apply context_eq|]. rewrite He.
      eapply bind_ret; [reflexivity|]. simpl negb. cbv iota.
      eapply bind_modify. eapply bind_modify. eapply bind_ret; [apply getEveContext_eq; by eapply has_not_none|].
      eapply bind_modify. unfold mret, M_ret, set_heap, set_contexts. simpl. by rewrite insert_insert_eq.
    + eapply (iinv_update m _ a c (fired e c)); try done; [by apply fired_ok|by destruct e|apply Hi|].
      simpl. rewrite (ii_count _ Hi), Hlen. apply u64_pred.
Qed.

Lemma cancelEvent_ctx_spec me ok f a e m c :
  iinv m -> 0 <= cur_worker_index me -> heap m !! a = Some c ->
  (has (events c) e = false \/ ok = false -> cancelEvent_ctx me ok f a e m = Ret false m) /\
  (has (events c) e = true -> ok = true -> exists m', cancelEvent_ctx me ok f a e m = Ret true m' /\ iinv m' /\
    framed m m' /\ heap m' = <[a := fired e c]> (heap m) /\
    epoll_calls m' = epoll_calls m ++ [drop_call f a (ev e) c] /\
    all_tasks (base m') ≡ₚ event_task (evctx e c) :: all_tasks (base m) /\
    waiting (heap m) ≡ₚ event_task (evctx e c) :: waiting (heap m')).
Proof.
  intros Hi Hme Ha. split.
  - intros Hno. unfold cancelEvent_ctx. eapply bind_ret; [by apply context_eq|].
    destruct (has (events c) e); [|done]. by destruct Hno as [| ->].
  - intros He ->. pose proof (iinv_log (drop_call f a (ev e) c) m Hi) as Hi'.
    destruct (consume_spec me a e _ c Hi' Hme Ha He) as (m' & E & Him & Hf & Hh & Hc & Ht & Hw).
    exists m'. split; [|split_and!; try done; by destruct Hf].
    unfold cancelEvent_ctx. eapply bind_ret; [by apply context_eq|]. rewrite He.
    eapply bind_ret; [reflexivity|]. simpl negb. cbv iota.
    by eapply bind_seq; [exact E|].
Qed.

(** Both events of a context, as the masks [real] selects them. *)
Definition fired_set (real : Z) (c : FdContext) : FdContext :=
  let c1 := if has real READ then fired READ c else c in
  if has real WRITE then fired WRITE c1 else c1.

Definition set_tasks (real : Z) (c : FdContext) : list SchedulerTask :=
  (if has real READ then [event_task (read c)] else []) ++
  (if has real WRITE then [event_task (write c)] else []).

Lemma consume_if me a e (cond : bool) m c :
  iinv m -> 0 <= cur_worker_index me -> heap m !! a = Some c -> (cond = true -> has (events c) e = true) ->
  exists m', (if cond then triggerEvent me a e;; drop_pending else mret tt) m = Ret tt m' /\ iinv m' /\
    framed m m' /\ heap m' = <[a := if cond then fired e c else c]> (heap m) /\
    epoll_calls m' = epoll_calls m /\
    all_tasks (base m') ≡ₚ (if cond then [event_task (evctx e c)] else []) ++ all_tasks (base m) /\
    waiting (heap m) ≡ₚ (if cond then [event_task (evctx e c)] else []) ++ waiting (heap m').
Proof.
  intros Hi Hme Ha Hc. destruct cond.
  - destruct (consume_spec me a e m c Hi Hme Ha (Hc eq_refl)) as (m' & ? & ? & ? & ? & ? & ? & ?).
    by exists m'.
  - exists m. split_and!; try done. by rewrite insert_id.
Qed.

Lemma consume_both me a real m c :
  iinv m -> 0 <= cur_worker_index me -> heap m !! a = Some c ->
  (forall e, has real e = true -> has (events c) e = true) ->
  exists m1 m', (if has real READ then triggerEvent me a READ;; drop_pending else mret tt) m = Ret tt m1 /\
    heap m1 !! a = Some (if has real READ then fired READ c else c) /\
    (if has real WRITE then triggerEvent me a WRITE;; drop_pending else mret tt) m1 = Ret tt m' /\
    iinv m' /\ framed m m' /\ heap m' = <[a := fired_set real c]> (heap m) /\
    epoll_calls m' = epoll_calls m /\
    all_tasks (base m') ≡ₚ set_tasks real c ++ all_tasks (base m) /\
    waiting (heap m) ≡ₚ set_tasks real c ++ waiting (heap m').
Proof.
  intros Hi Hme Ha Hsub. pose proof (ii_ctx _ Hi a c Ha) as Hok.
  destruct (consume_if me a READ (has real READ) m c Hi Hme Ha (Hsub READ))
    as (m1 & E1 & Hi1 & Hf1 & Hh1 & He1 & Ht1 & Hw1).
  set (c1 := if has real READ then fired READ c else c) in *.
  assert (Ha1 : heap m1 !! a = Some c1) by (by rewrite Hh1, lookup_insert_eq).
  assert (Hwr : write c1 = write c) by (unfold c1; by destruct (has real READ)).
  assert (Hs1 : has real WRITE = true -> has (events c1) WRITE = true).
  { intros H%Hsub. unfold c1. destruct (has real READ); [|done]. by rewrite fired_other. }
  destruct (consume_if me a WRITE (has real WRITE) m1 c1 Hi1 Hme Ha1 Hs1)
    as (m2 & E2 & Hi2 & Hf2 & Hh2 & He2 & Ht2 & Hw2).
  exists m1, m2. split_and!; try done.
  - by eapply framed_trans.
  - by rewrite Hh2, Hh1, insert_insert_eq.
  - congruence.
  - rewrite Ht2, Ht1, app_assoc. unfold set_tasks. simpl evctx. rewrite Hwr.
    by rewrite (Permutation_app_comm (if has real WRITE then _ else _)).
  - rewrite Hw1, Hw2, app_assoc. unfold set_tasks. simpl evctx. by rewrite Hwr.
Qed.

Lemma fired_set_events c : ctx_ok c -> events (fired_set (events c) c) = 0.
Proof. intros [Hm _ _]. masks c Hm; reflexivity. Qed.

Lemma has_own c e : has (events c) e = true -> has (events c) e = true.
Proof. done. Qed.

Lemma cancelAll_ctx_spec me ok f a m c :
  iinv m -> 0 <= cur_worker_index me -> heap m !! a = Some c ->
  (events c = 0 \/ ok = false -> cancelAll_ctx me ok f a m = Ret false m) /\
  (events c <> 0 -> ok = true -> exists m', cancelAll_ctx me ok f a m = Ret true m' /\ iinv m' /\
    framed m m' /\ heap m' = <[a := fired_set (events c) c]> (heap m) /\
    epoll_calls m' = epoll_calls m ++ [EpollCall EPOLL_CTL_DEL f 0 a] /\
    all_tasks (base m') ≡ₚ ctx_tasks c ++ all_tasks (base m) /\
    waiting (heap m) ≡ₚ ctx_tasks c ++ waiting (heap m')).
Proof.
  intros Hi Hme Ha. pose proof (ii_ctx _ Hi a c Ha) as Hok. split.
  - intros Hno. unfold cancelAll_ctx. eapply bind_ret; [by apply context_eq|].
    destruct (events c =? 0) eqn:E; [done|]. to_prop. by destruct Hno as [?| ->].
  - intros Hne ->. pose proof (iinv_log (EpollCall EPOLL_CTL_DEL f 0 a) m Hi) as Hi'.
    destruct (consume_both me a (events c) _ c Hi' Hme Ha (has_own c))
      as (m1 & m' & E1 & Ha1 & E2 & Him & Hf & Hh & He & Ht & Hw).
    exists m'. split; [|split_and!; try done; by destruct Hf].
    unfold cancelAll_ctx. eapply bind_ret; [by apply context_eq|].
    destruct (events c =? 0) eqn:E; [by to_prop|]. eapply bind_ret; [reflexivity|]. simpl negb. cbv iota.
    eapply bind_ret; [exact E1|]. eapply bind_ret; [by apply context_eq|].
    assert (Hhw : has (events (if has (events c) READ then fired READ c else c)) WRITE = has (events c) WRITE).
    { destruct (has (events c) READ); [|done]. by rewrite fired_other. }
    rewrite Hhw. eapply bind_ret; [exact E2|].
    eapply bind_ret; [apply context_eq; by rewrite Hh, lookup_insert_eq|].
    rewrite fired_set_events by done. by eapply bind_panic.
Qed.

(** An entry reported by [epoll_wait] that names only registered events, or an
    error or hang-up. *)
Definition reported_ok (reported : Z) (c : FdContext) : Prop :=
  forall e, has (real_events reported (events c)) e = true -> has (events c) e = true.

Lemma handle_ready_spec me ok a reported m c :
  iinv m -> 0 <= cur_worker_index me -> heap m !! a = Some c -> reported_ok reported c ->
  let real := real_events reported (events c) in
  (Z.land (events c) real = 0 \/ ok = false -> handle_ready me ok (FdReady a reported) m = Ret tt m) /\
  (Z.land (events c) real <> 0 -> ok = true ->
   exists m', handle_ready me ok (FdReady a reported) m = Ret tt m' /\ iinv m' /\
    framed m m' /\ heap m' = <[a := fired_set real c]> (heap m) /\
    epoll_calls m' = epoll_calls m ++ [drop_call (fd c) a real c] /\
    all_tasks (base m') ≡ₚ set_tasks real c ++ all_tasks (base m) /\
    waiting (heap m) ≡ₚ set_tasks real c ++ waiting (heap m')).
Proof.
  intros Hi Hme Ha Hsub real. unfold handle_ready. split.
  - intros Hno. eapply bind_ret; [by apply context_eq|]. fold real.
    destruct (Z.land (events c) real =? 0) eqn:E0; [done|]. to_prop. by destruct Hno as [?| ->].
  - intros Hne ->. pose proof (iinv_log (drop_call (fd c) a real c) m Hi) as Hi'.
    destruct (consume_both me a real _ c Hi' Hme Ha Hsub)
      as (m1 & m' & E1 & Ha1 & E2 & Him & Hf & Hh & He & Ht & Hw).
    exists m'. split; [|split_and!; try done; by destruct Hf].
    eapply bind_ret; [by apply context_eq|]. fold real. rewrite (proj2 (Z.eqb_neq _ _) Hne).
    eapply bind_ret; [reflexivity|]. simpl negb. cbv iota. eapply bind_ret; [exact E1|]. exact E2.
Qed.

(** A report of which some events are registered and some are not. *)
Lemma trigger_stale me a e m c : heap m !! a = Some c -> has (events c) e = false ->
  (triggerEvent me a e;; drop_pending) m = Crash (Panic "event hasn't been registed").
Proof. intros Ha He. unfold triggerEvent, mbind, M_bind. rewrite (context_eq _ _ _ Ha). by rewrite He. Qed.

Definition mask (x : Z) : Prop := x = 0 \/ x = 1 \/ x = 4 \/ x = 5.

Lemma real_events_mask reported x : mask (real_events reported x).
Proof.
  unfold real_events. match goal with |- mask (Z.lor (if ?p then _ else _) (if ?q then _ else _)) => destruct p, q end;
    vm_compute; tauto.
Qed.

Lemma land_registered x real : mask x -> mask real ->
  Z.land x real <> 0 <-> exists e, has real e = true /\ has x e = true.
Proof.
  intros Hx Hr. split.
  - intros Hz. destruct Hx as [->|[->|[->| ->]]], Hr as [->|[->|[->| ->]]]; try done; first [by exists READ|by exists WRITE].
  - intros (e & H1 & H2). destruct Hx as [->|[->|[->| ->]]], Hr as [->|[->|[->| ->]]]; by destruct e.
Qed.

Lemma handle_ready_stale me a reported m c e1 e2 :
  iinv m -> 0 <= cur_worker_index me -> heap m !! a = Some c ->
  let real := real_events reported (events c) in
  has real e1 = true -> has (events c) e1 = true -> has real e2 = true -> has (events c) e2 = false ->
  handle_ready me true (FdReady a reported) m = Crash (Panic "event hasn't been registed").
Proof.
  intros Hi Hme Ha real R1 E1 R2 E2.
  assert (Hz : Z.land (events c) real <> 0) by (apply land_registered; [apply (ii_ctx _ Hi a c Ha)|apply real_events_mask|eauto]).
  unfold handle_ready. eapply bind_ret; [by apply context_eq|]. fold real. rewrite (proj2 (Z.eqb_neq _ _) Hz).
  eapply bind_ret; [reflexivity|]. simpl negb. cbv iota. set (m0 := log_epoll _ m).
  assert (Ha0 : heap m0 !! a = Some c) by done. assert (Hi0 : iinv m0) by (by apply iinv_log).
  destruct (has real READ) eqn:Er; [destruct (has (events c) READ) eqn:Ec|].
  - destruct (consume_spec me a READ m0 c Hi0 Hme Ha0 Ec) as (m1 & Em & Hi1 & _ & Hh & _).
    eapply bind_ret; [exact Em|]. assert (e2 = WRITE) as -> by (destruct e2; [by rewrite has_NONE in R2|congruence|done]).
    rewrite R2. apply (trigger_stale me a WRITE m1 (fired READ c)); [by rewrite Hh, lookup_insert_eq|].
    rewrite fired_other; [done|apply (ii_ctx _ Hi a c Ha)|done].
  - cbn [negb]. unfold mbind at 1, M_bind at 1. by rewrite (trigger_stale me a READ m0 c Ha0 Ec).
  - eapply bind_ret; [reflexivity|]. assert (e2 = WRITE) as -> by (destruct e2; [by rewrite has_NONE in R2|congruence|done]).
    rewrite R2. by apply (trigger_stale me a WRITE m0 c).
Qed.

(** ** Growing the vector of contexts *)

Definition blank (i : Z) : FdContext := FdCtx no_context no_context i 0.

Lemma blank_ok i : ctx_ok (blank i).
Proof. split; [by left|done|done]. Qed.

Definition below (n : Z) (h : gmap Z FdContext) : Prop := forall a c, h !! a = Some c -> 0 <= a < n.

Record filled (i : Z) (l : list (option Z)) (h : gmap Z FdContext) (n : Z)
    (v : list (option Z)) (h' : gmap Z FdContext) (n' : Z) : Prop := {
  fl_length : length v = length l;
  fl_next : n <= n';
  fl_old : forall a c, h !! a = Some c -> h' !! a = Some c;
  fl_new : forall a c, h' !! a = Some c -> h !! a = Some c \/ (n <= a < n' /\
    exists j, c = blank (i + Z.of_nat j) /\ l !! j = Some None /\ v !! j = Some (Some a));
  fl_keep : forall j a, l !! j = Some (Some a) -> v !! j = Some (Some a);
  fl_fresh : forall j, l !! j = Some None ->
    exists a, v !! j = Some (Some a) /\ n <= a /\ h' !! a = Some (blank (i + Z.of_nat j));
  fl_waiting : waiting h' ≡ₚ waiting h }.

Lemma fill_contexts_spec l : forall i h n, below n h -> 0 <= n ->
  let '(v, h', n') := fill_contexts i l h n in filled i l h n v h' n'.
Proof.
  induction l as [|x l IH]; intros i h n Hb Hn; simpl.
  { split; try done; naive_solver. }
  destruct x as [a|].
  - specialize (IH (i + 1) h n Hb Hn). destruct (fill_contexts (i + 1) l h n) as [[v h'] n'].
    destruct IH as [H1 H2 H3 H4 H5 H6 H7]. split; try done; [simpl; congruence| | |].
    + intros b c Hb'. destruct (H4 b c Hb') as [?|(? & j & -> & ? & ?)]; [by left|right]. split; [done|].
      exists (S j). split_and!; try done. f_equal. lia.
    + intros [|j] b; simpl; [done|]. apply H5.
    + intros [|j] Hj; [done|]. destruct (H6 j Hj) as (b & ? & ? & ?). exists b.
      replace (i + Z.of_nat (S j)) with (i + 1 + Z.of_nat j) by lia. done.
  - assert (Hno : h !! n = None).
    { destruct (h !! n) as [c|] eqn:E; [|done]. apply Hb in E. lia. }
    assert (Hb' : below (n + 1) (<[n := blank i]> h)).
    { intros a c [[<- _]|[_ H]]%lookup_insert_Some; [lia|]. apply Hb in H. lia. }
    specialize (IH (i + 1) (<[n := blank i]> h) (n + 1) Hb' ltac:(lia)). unfold blank in IH.
    destruct (fill_contexts (i + 1) l _ (n + 1)) as [[v h'] n'].
    fold (blank i) in IH. destruct IH as [H1 H2 H3 H4 H5 H6 H7]. split; try (simpl; congruence); [lia| | | | |].
    + intros a c Ha. apply H3. rewrite lookup_insert_ne; [done|]. intros ->. congruence.
    + intros a c Ha. destruct (H4 a c Ha) as [[[<- <-]|[_ H]]%lookup_insert_Some|(Hr & j & -> & ? & ?)].
      * right. split; [lia|]. exists 0%nat. by rewrite Z.add_0_r.
      * by left.
      * right. split; [lia|]. exists (S j). split_and!; try done. f_equal. lia.
    + intros [|j] b; simpl; [done|]. apply H5.
    + intros [|j] Hj.
      * exists n. split_and!; try done. rewrite Z.add_0_r. apply H3, lookup_insert_eq.
      * destruct (H6 j Hj) as (b & ? & ? & ?). exists b.
        replace (i + Z.of_nat (S j)) with (i + 1 + Z.of_nat j) by lia. split_and!; try done. lia.
    + rewrite H7. by rewrite waiting_fresh.
Qed.

Lemma contextResize_spec size m :
  iinv m \/ (fdContexts_ m = [] /\ heap m = ∅ /\ next_ctx m = 0 /\ pendingEventCnt_ m = 0 /\ SchedulerProofs.wf (base m)) ->
  32 <= size ->
  exists m', contextResize size m = Ret tt m' /\ iinv m' /\
    length (fdContexts_ m') = Z.to_nat size /\ base m' = base m /\ epoll_calls m' = epoll_calls m /\
    waiting (heap m') ≡ₚ waiting (heap m) /\
    (forall a c, heap m !! a = Some c -> heap m' !! a = Some c) /\
    (forall a c, heap m' !! a = Some c -> heap m !! a = Some c \/
       exists j, (length (fdContexts_ m) <= j)%nat /\ c = blank (Z.of_nat j) /\ fdContexts_ m' !! j = Some (Some a)) /\
    (forall j a, (j < Z.to_nat size)%nat -> fdContexts_ m !! j = Some (Some a) -> fdContexts_ m' !! j = Some (Some a)) /\
    (forall j, (length (fdContexts_ m) <= j < Z.to_nat size)%nat -> exists a,
       fdContexts_ m' !! j = Some (Some a) /\ next_ctx m <= a /\ heap m' !! a = Some (blank (Z.of_nat j))).
Proof.
  intros Hi Hsz.
  assert (Hbn : below (next_ctx m) (heap m) /\ 0 <= next_ctx m).
  { destruct Hi as [Hi|(_ & -> & -> & _)]; [|split; [|lia]; intros a c; by rewrite lookup_empty].
    split; [intros a c; by apply (ii_fresh _ Hi)|].
    destruct (fdContexts_ m) as [|x l] eqn:E; [pose proof (ii_size _ Hi) as H; rewrite E in H; simpl in H; lia|].
    destruct (ii_vector _ Hi 0%nat x) as (a & c & _ & Ha & _); [by rewrite E|]. apply (ii_fresh _ Hi) in Ha. lia. }
  destruct Hbn as [Hb Hn].
  pose proof (fill_contexts_spec (resize (Z.to_nat size) None (fdContexts_ m)) 0 (heap m) (next_ctx m) Hb Hn) as Hfill.
  unfold contextResize, modify.
  destruct (fill_contexts 0 (resize (Z.to_nat size) None (fdContexts_ m)) (heap m) (next_ctx m)) as [[v h'] n'].
  destruct Hfill as [H1 H2 H3 H4 H5 H6 H7]. rewrite length_resize in H1.
  assert (Hkeep : forall j a, (j < Z.to_nat size)%nat -> fdContexts_ m !! j = Some (Some a) -> v !! j = Some (Some a)).
  { intros j a Hj Hl. apply H5. rewrite lookup_resize; [done|done|by eapply lookup_lt_Some]. }
  assert (Hnew : forall j, (length (fdContexts_ m) <= j < Z.to_nat size)%nat ->
    exists a, v !! j = Some (Some a) /\ next_ctx m <= a /\ h' !! a = Some (blank (Z.of_nat j))).
  { intros j [Hj1 Hj2]. apply H6. by rewrite lookup_resize_new. }
  eexists. split; [reflexivity|]. split; [|split_and!; try done].
  - split; simpl.
    + destruct Hi as [Hi|(_ & _ & _ & _ & Hi)]; [apply Hi|done].
    + intros a c Ha. destruct (H4 a c Ha) as [Ho|(_ & k & -> & _)]; [|apply blank_ok].
      destruct Hi as [Hi|(_ & Hh & _)]; [by apply (ii_ctx _ Hi a)|]. by rewrite Hh, lookup_empty in Ho.
    + intros a c Ha. destruct (H4 a c Ha) as [Ho|[Ho _]]; [apply Hb in Ho; lia|lia].
    + intros j x Hx. pose proof (lookup_lt_Some _ _ _ Hx) as Hlt. rewrite H1 in Hlt.
      destruct (decide (j < length (fdContexts_ m))%nat) as [Hj|Hj].
      * destruct Hi as [Hi|(Hv & _)]; [|rewrite Hv in Hj; simpl in Hj; lia].
        destruct (lookup_lt_is_Some_2 _ _ Hj) as [y Hy]. destruct (ii_vector _ Hi j y Hy) as (a & c & -> & Ha & Hfd).
        rewrite (Hkeep j a Hlt Hy) in Hx. simplify_eq. exists a, c. split_and!; [done|by apply H3|done].
      * destruct (Hnew j) as (a & Ha & _ & Hbl); [lia|]. rewrite Ha in Hx. simplify_eq.
        exists a, (blank (Z.of_nat j)). done.
    + rewrite H1. lia.
    + destruct Hi as [Hi|(_ & Hh & _ & Hp & _)]; [by rewrite (ii_count _ Hi), H7|]. by rewrite H7, Hp, Hh.
  - intros a c Ha. destruct (H4 a c Ha) as [Ho|(_ & j & -> & Hl & Hv)]; [by left|right].
    exists j. split_and!; try done. destruct (decide (length (fdContexts_ m) <= j)%nat) as [|Hj]; [done|exfalso].
    pose proof (lookup_lt_Some _ _ _ Hv) as Hlt. rewrite lookup_resize in Hl by lia.
    destruct Hi as [Hi|(He & _)]; [|by rewrite He in Hl].
    destruct (ii_vector _ Hi j None Hl) as (? & ? & ? & _). done.
Qed.

(** ** Interleaved regions

    A thread that found the context of [f] holds its address [a]; contexts are
    never freed while the manager lives.  [race]: whether [addEvent] may grow
    the vector on the strength of an outdated size, as the source does between
    its two locks.  The history: what was registered or submitted, what was
    deleted, what the workers took. *)
Record ioworld := IOWorld {
  io : IOManager;
  io_added : list SchedulerTask;
  io_deleted : list SchedulerTask;
  io_started : list SchedulerTask }.

Inductive io_step (race : bool) : ioworld -> ioworld -> Prop :=
| is_grow m ad de st f a m' :
    32 <= f < 2 ^ 31 -> (race = false -> Z.of_nat (length (fdContexts_ m)) <= f) ->
    grow_context f m = Ret a m' ->
    io_step race (IOWorld m ad de st) (IOWorld m' ad de st)
| is_add m ad de st me cur ok f a c e callback r m' :
    in_this me = true -> e <> NONE -> heap m !! a = Some c -> fd c = f ->
    addEvent_ctx me cur true ok f a e callback m = Ret r m' ->
    io_step race (IOWorld m ad de st)
      (IOWorld m' (if r =? 0 then event_task (new_context me cur callback) :: ad else ad) de st)
| is_del m ad de st ok f a c e r m' :
    heap m !! a = Some c -> fd c = f -> delEvent_ctx ok f a e m = Ret r m' ->
    io_step race (IOWorld m ad de st)
      (IOWorld m' ad (if r : bool then event_task (evctx e c) :: de else de) st)
| is_cancel m ad de st me ok f a c e r m' :
    0 <= cur_worker_index me -> heap m !! a = Some c -> fd c = f ->
    cancelEvent_ctx me ok f a e m = Ret r m' ->
    io_step race (IOWorld m ad de st) (IOWorld m' ad de st)
| is_cancelAll m ad de st me ok f a c r m' :
    0 <= cur_worker_index me -> heap m !! a = Some c -> fd c = f ->
    cancelAll_ctx me ok f a m = Ret r m' ->
    io_step race (IOWorld m ad de st) (IOWorld m' ad de st)
| is_ready m ad de st me ok a c reported m' :
    0 <= cur_worker_index me -> heap m !! a = Some c -> reported_ok reported c ->
    handle_ready me ok (FdReady a reported) m = Ret tt m' ->
    io_step race (IOWorld m ad de st) (IOWorld m' ad de st)
| is_tickled m ad de st me ok m' :
    handle_ready me ok TicklePipe m = Ret tt m' ->
    io_step race (IOWorld m ad de st) (IOWorld m' ad de st)
| is_submit m ad de st me t m' :
    0 <= cur_worker_index me -> nonempty t -> submit me t m = Ret tt m' ->
    io_step race (IOWorld m ad de st) (IOWorld m' (t :: ad) de st)
| is_take m ad de st w tId t b' :
    0 <= w < worker_count (base m) -> tId <> -1 ->
    tryTakeLocal w tId (base m) = Ret (Some t) b' \/ steal_from w tId (base m) = Ret (Some t) b' ->
    io_step race (IOWorld m ad de st) (IOWorld (set_base b' m) ad de (t :: st)).

Definition located (w : ioworld) : list SchedulerTask :=
  waiting (heap (io w)) ++ all_tasks (base (io w)) ++ io_deleted w ++ io_started w.

Record iowf (w : ioworld) : Prop := {
  iw_inv : iinv (io w);
  iw_tasks : io_added w ≡ₚ located w }.

Lemma iinv_base m b p : iinv m -> SchedulerProofs.wf b -> iinv (set_pipe p (set_base b m)).
Proof. intros [] ?. by split. Qed.

Lemma grow_size f : 2 <= f -> f < f * 3 / 2.
Proof. intros Hf. assert (f + 1 <= f * 3 / 2) by (apply Z.div_le_lower_bound; lia). lia. Qed.

Lemma grow_context_spec f m :
  iinv m -> 32 <= f < 2 ^ 31 -> exists a m', grow_context f m = Ret a m' /\ iinv m' /\
    contextResize (f * 3 / 2) m = Ret tt m' /\ fdContexts_ m' !! Z.to_nat f = Some (Some a).
Proof.
  intros Hi Hf. pose proof (grow_size f ltac:(lia)) as Hsz.
  destruct (contextResize_spec (f * 3 / 2) m (or_introl Hi) ltac:(lia)) as (m' & E & Hi' & Hlen & _).
  destruct (lookup_lt_is_Some_2 (fdContexts_ m') (Z.to_nat f)) as [x Hx]; [lia|].
  destruct (ii_vector _ Hi' _ _ Hx) as (a & c & -> & _). exists a, m'. split_and!; try done.
  unfold grow_context. eapply bind_ret; [exact E|]. apply bind_get. by rewrite Hx.
Qed.

Lemma io_step_wf race w w' : io_step race w w' -> iowf w -> iowf w'.
Proof.
  intros Hs [Hi Ht]. unfold located in Ht.
  destruct Hs as [m ad de st f a m' Hf _ E|m ad de st me cur ok f a c e callback r m' Hin Hn Ha Hfd E
    |m ad de st ok f a c e r m' Ha Hfd E|m ad de st me ok f a c e r m' Hme Ha Hfd E
    |m ad de st me ok f a c r m' Hme Ha Hfd E|m ad de st me ok a c reported m' Hme Ha Hrep E
    |m ad de st me ok m' E|m ad de st me t m' Hme Hne E|m ad de st w tId t b' Hw Hid E]; simpl in *.
  - destruct (grow_context_spec f m Hi Hf) as (a' & m2 & E2 & Hi2 & Er & _). rewrite E in E2. simplify_eq.
    pose proof (grow_size f ltac:(lia)) as Hsz.
    destruct (contextResize_spec (f * 3 / 2) m (or_introl Hi) ltac:(lia)) as (m3 & E3 & _ & _ & Hb & _ & Hw & _).
    rewrite Er in E3. simplify_eq. split; [done|]. unfold located. simpl. by rewrite Hw, Hb.
  - destruct (has (events c) e) eqn:He.
    { unfold addEvent_ctx, mbind, M_bind in E. rewrite (context_eq _ _ _ Ha) in E. simpl in E. by rewrite He in E. }
    destruct (addEvent_ctx_spec me cur f a e callback m c Hi Hin Ha He Hn) as [E0 (m2 & E1 & Hi2 & _ & _ & Hb & _ & Hw)].
    destruct ok; [rewrite E1 in E|rewrite E0 in E]; simplify_eq; simpl; [|by split].
    split; [done|]. unfold located. simpl. rewrite Hw, Hb, Ht. done.
  - destruct (delEvent_ctx_spec ok f a e m c Hi Ha) as [E0 E1].
    destruct (has (events c) e) eqn:He; [destruct ok|]; try (rewrite E0 in E by auto; simplify_eq; by split).
    destruct (E1 eq_refl eq_refl) as (m2 & E2 & Hi2 & _ & _ & Hb & _ & Hw). rewrite E in E2. simplify_eq.
    split; [done|]. unfold located. simpl. rewrite Ht, Hw, Hb. solve_Permutation.
  - destruct (cancelEvent_ctx_spec me ok f a e m c Hi Hme Ha) as [E0 E1].
    destruct (has (events c) e) eqn:He; [destruct ok|]; try (rewrite E0 in E by auto; simplify_eq; by split).
    destruct (E1 eq_refl eq_refl) as (m2 & E2 & Hi2 & _ & _ & _ & Hq & Hw). rewrite E in E2. simplify_eq.
    split; [done|]. unfold located. simpl. rewrite Ht, Hw, Hq. solve_Permutation.
  - destruct (cancelAll_ctx_spec me ok f a m c Hi Hme Ha) as [E0 E1].
    destruct (decide (events c = 0)) as [He|He]; [rewrite E0 in E by auto; simplify_eq; by split|].
    destruct ok; [|rewrite E0 in E by auto; simplify_eq; by split].
    destruct (E1 He eq_refl) as (m2 & E2 & Hi2 & _ & _ & _ & Hq & Hw). rewrite E in E2. simplify_eq.
    split; [done|]. unfold located. simpl. rewrite Ht, Hw, Hq. solve_Permutation.
  - destruct (handle_ready_spec me ok a reported m c Hi Hme Ha Hrep) as [E0 E1].
    destruct (decide (Z.land (events c) (real_events reported (events c)) = 0)) as [Hz|Hz];
      [pose proof (eq_trans (eq_sym E) (E0 (or_introl Hz))); simplify_eq; by split|].
    destruct ok; [|pose proof (eq_trans (eq_sym E) (E0 (or_intror eq_refl))); simplify_eq; by split].
    destruct (E1 Hz eq_refl) as (m2 & E2 & Hi2 & _ & _ & _ & Hq & Hw).
    pose proof (eq_trans (eq_sym E) E2). simplify_eq.
    split; [done|]. unfold located. simpl. rewrite Ht, Hw, Hq. solve_Permutation.
  - unfold modify in E. simplify_eq. split; [|done]. by destruct Hi.
  - destruct (submit_spec me t m (ii_base _ Hi) Hme Hne) as (b & p & E2 & Hb & Hq). rewrite E in E2. simplify_eq.
    split; [by apply iinv_base|]. unfold located. simpl. rewrite Ht, Hq. solve_Permutation.
  - assert (Htk : taken tId (base m) t b').
    { destruct E as [E|E].
      - destruct (tryTakeLocal_spec w tId _ (ii_base _ Hi) Hw) as (r & s2 & E' & H'). rewrite E in E'. by simplify_eq.
      - destruct (steal_from_spec w tId _ (ii_base _ Hi) Hw Hid) as (r & s2 & E' & H'). rewrite E in E'. by simplify_eq. }
    destruct Htk as (Hp & Hwf & _). split; [by destruct Hi|]. unfold located. simpl. rewrite Ht, Hp. solve_Permutation.
Qed.
