(* ===== verification/IOManagerTheorems.v ===== *)
(** * Theorems about the I/O manager

    Conservation of work, absence of crashes, agreement with the kernel's
    interest set, the timeout of [epoll_wait], and two races of the source. *)

From S2P Require Import Prelude Timer Scheduler SchedulerProofs IOManager IOManagerProofs.

(** ** The kernel's interest set

    What epoll_ctl(2) documents: adding a registered descriptor, and changing or
    removing an unregistered one, are errors. *)

Abbreviation interest := (gmap Z (Z * Z)).

Definition epoll_apply (i : interest) (c : epoll_call) : option interest :=
  match ec_op c, i !! ec_fd c with
  | EPOLL_CTL_ADD, None | EPOLL_CTL_MOD, Some _ => Some (<[ec_fd c := (ec_events c, ec_ptr c)]> i)
  | EPOLL_CTL_DEL, Some _ => Some (delete (ec_fd c) i)
  | _, _ => None
  end.

Definition epoll_run (l : list epoll_call) : option interest :=
  foldl (fun o c => i ← o; epoll_apply i c) (Some ∅) l.

Lemma epoll_run_snoc l c : epoll_run (l ++ [c]) = i ← epoll_run l; epoll_apply i c.
Proof. unfold epoll_run. by rewrite foldl_app. Qed.

(** What the kernel should know about a context. *)
Definition shown (a : Z) (c : FdContext) : option (Z * Z) :=
  if events c =? 0 then None else Some (Z.lor EPOLLET (events c), a).

Record mirrored (m : IOManager) (i : interest) : Prop := {
  mr_owner : forall a c, heap m !! a = Some c -> fdContexts_ m !! Z.to_nat (fd c) = Some (Some a) /\ 0 <= fd c;
  mr_shown : forall a c, heap m !! a = Some c -> i !! fd c = shown a c;
  mr_known : forall f x, i !! f = Some x -> exists a c, heap m !! a = Some c /\ fd c = f }.

Definition mirror (m : IOManager) : Prop := exists i, epoll_run (epoll_calls m) = Some i /\ mirrored m i.

Lemma mirror_update m m' a c c' call :
  mirror m -> heap m !! a = Some c -> fd c' = fd c -> framed m m' ->
  heap m' = <[a := c']> (heap m) -> epoll_calls m' = epoll_calls m ++ [call] ->
  (forall i, i !! fd c = shown a c -> exists i', epoll_apply i call = Some i' /\
     i' !! fd c = shown a c' /\ forall f, f <> fd c -> i' !! f = i !! f) ->
  mirror m'.
Proof.
  intros (i & Hrun & [Ho Hs Hk]) Ha Hfd [Fv _ _ _] Hh Hc Hstep.
  destruct (Hstep i (Hs a c Ha)) as (i' & Happ & Hthis & Hrest). exists i'. split.
  { rewrite Hc, epoll_run_snoc, Hrun. done. }
  assert (Huniq : forall b cb', heap m !! b = Some cb' -> b <> a -> fd cb' <> fd c).
  { intros b cb' Hb Hne Heq. destruct (Ho b cb' Hb) as [H1 _]. destruct (Ho a c Ha) as [H2 _].
    rewrite Heq in H1. congruence. }
  split; rewrite ?Hh, ?Fv.
  - intros b cb' [[<- <-]|[_ Hb]]%lookup_insert_Some; [rewrite Hfd|]; by apply Ho.
  - intros b cb' [[<- <-]|[Hne Hb]]%lookup_insert_Some; [by rewrite Hfd|].
    rewrite Hrest by (by apply (Huniq b)). by apply Hs.
  - intros f x Hx. destruct (decide (f = fd c)) as [->|Hne].
    + exists a, c'. by rewrite lookup_insert_eq.
    + rewrite Hrest in Hx by done. destruct (Hk f x Hx) as (b & cb' & Hb & <-). exists b, cb'.
      rewrite lookup_insert_ne; [done|]. intros <-. simplify_eq.
Qed.

(** Legality of the calls, mask by mask. *)
Lemma add_call_legal a e c x i :
  ctx_ok c -> e <> NONE -> has (events c) e = false -> i !! fd c = shown a c ->
  exists i', epoll_apply i (add_call (fd c) a e c) = Some i' /\
    i' !! fd c = shown a (registered e x c) /\ forall f, f <> fd c -> i' !! f = i !! f.
Proof.
  intros [Hm _ _] Hn He Hi. unfold shown, add_call, epoll_apply in *. simpl.
  masks c Hm; destruct e; vm_compute in He; try done; simpl in *; rewrite Hi; eexists;
    (split; [reflexivity|]); simpl; (split; [by rewrite lookup_insert_eq|intros; by rewrite lookup_insert_ne]).
Qed.

Lemma drop_call_legal a real c i :
  ctx_ok c -> real = 1 \/ real = 4 \/ real = 5 -> Z.land (events c) real <> 0 ->
  (forall e, has real e = true -> has (events c) e = true) -> i !! fd c = shown a c ->
  exists i', epoll_apply i (drop_call (fd c) a real c) = Some i' /\
    i' !! fd c = shown a (fired_set real c) /\ forall f, f <> fd c -> i' !! f = i !! f.
Proof.
  intros [Hm _ _] Hr Hl Hsub Hi. pose proof (Hsub READ) as H1. pose proof (Hsub WRITE) as H2.
  unfold shown, drop_call, epoll_apply in *. simpl.
  clear Hsub. masks c Hm; destruct Hr as [->|[->| ->]]; try (by destruct Hl);
    try (by discriminate (H1 eq_refl)); try (by discriminate (H2 eq_refl));
    simpl in Hi; simpl; rewrite Hi; eexists; (split; [reflexivity|]); simpl;
    (split; [by rewrite ?lookup_insert_eq, ?lookup_delete_eq|]);
    intros f Hf; by rewrite ?lookup_insert_ne, ?lookup_delete_ne by congruence.
Qed.

Lemma all_call_legal a c i :
  ctx_ok c -> events c <> 0 -> i !! fd c = shown a c ->
  exists i', epoll_apply i (EpollCall EPOLL_CTL_DEL (fd c) 0 a) = Some i' /\
    i' !! fd c = shown a (fired_set (events c) c) /\ forall f, f <> fd c -> i' !! f = i !! f.
Proof.
  intros Hok He Hi. unfold shown in *. rewrite fired_set_events by done.
  unfold epoll_apply. simpl. destruct (events c =? 0) eqn:E; to_prop; [done|]. rewrite Hi.
  eexists. split; [reflexivity|]. split; [by rewrite lookup_delete_eq|]. intros. by rewrite lookup_delete_ne.
Qed.

Lemma mirror_same m m' :
  mirror m -> heap m' = heap m -> fdContexts_ m' = fdContexts_ m -> epoll_calls m' = epoll_calls m -> mirror m'.
Proof. intros (i & Hr & [Ho Hs Hk]) H1 H2 H3. exists i. rewrite H3. split; [done|]. by split; rewrite ?H1, ?H2. Qed.

Lemma mirror_grow f m a m' :
  iinv m -> mirror m -> 32 <= f < 2 ^ 31 -> Z.of_nat (length (fdContexts_ m)) <= f ->
  grow_context f m = Ret a m' -> mirror m'.
Proof.
  intros Hi (i & Hr & [Ho Hs Hk]) Hf Hlen E. pose proof (grow_size f ltac:(lia)) as Hsz.
  destruct (grow_context_spec f m Hi Hf) as (a2 & m2 & E2 & _ & Er & _). rewrite E in E2. simplify_eq.
  destruct (contextResize_spec (f * 3 / 2) m (or_introl Hi) ltac:(lia))
    as (m3 & E3 & _ & _ & _ & Hc & _ & Hold & Hnew & Hkeep & _). rewrite Er in E3. simplify_eq.
  exists i. rewrite Hc. split; [done|]. split.
  - intros b c Hb. destruct (Hnew b c Hb) as [Hb'|(j & Hj & -> & Hv)].
    + destruct (Ho b c Hb') as [Hv Hpos]. split; [|done]. apply Hkeep; [|done].
      apply lookup_lt_Some in Hv. lia.
    + simpl. rewrite Nat2Z.id. split; [done|lia].
  - intros b c Hb. destruct (Hnew b c Hb) as [Hb'|(j & Hj & -> & Hv)]; [by apply Hs|].
    simpl. destruct (i !! Z.of_nat j) as [x|] eqn:Ei; [|done].
    destruct (Hk _ _ Ei) as (b2 & c2 & Hb2 & Hfd). destruct (Ho b2 c2 Hb2) as [Hv2 _].
    rewrite Hfd, Nat2Z.id in Hv2. apply lookup_lt_Some in Hv2. lia.
  - intros g x Hx. destruct (Hk g x Hx) as (b & c & Hb & Hfd). exists b, c. split; [by apply Hold|done].
Qed.

Lemma fired_as_set e c : e <> NONE -> fired e c = fired_set (ev e) c.
Proof. by destruct e. Qed.

Lemma has_ev e e' : has (ev e) e' = true -> e' = e.
Proof. by destruct e, e'. Qed.

Lemma one_call_legal a e c i :
  ctx_ok c -> has (events c) e = true -> i !! fd c = shown a c ->
  exists i', epoll_apply i (drop_call (fd c) a (ev e) c) = Some i' /\
    i' !! fd c = shown a (fired e c) /\ forall f, f <> fd c -> i' !! f = i !! f.
Proof.
  intros Hok He Hi. pose proof (has_not_none _ _ He) as Hn. rewrite fired_as_set by done.
  apply drop_call_legal; try done.
  - destruct e; simpl; [done|by left|right; by left].
  - unfold has in He. intros E. by rewrite E in He.
  - intros e' ->%has_ev. done.
Qed.

Lemma real_events_cases reported registered :
  let r := real_events reported registered in r = 0 \/ r = 1 \/ r = 4 \/ r = 5.
Proof. unfold real_events. repeat case_match; simpl; auto. Qed.

Lemma fired_set_fd real c : fd (fired_set real c) = fd c.
Proof. unfold fired_set. by destruct (has real READ), (has real WRITE). Qed.

Lemma io_step_mirror w w' : io_step false w w' -> iowf w -> mirror (io w) -> mirror (io w').
Proof.
  intros Hs [Hi _] Hm.
  destruct Hs as [m ad de st f a m' Hf Hrc E|m ad de st me cur ok f a c e callback r m' Hin Hn Ha Hfd E
    |m ad de st ok f a c e r m' Ha Hfd E|m ad de st me ok f a c e r m' Hme Ha Hfd E
    |m ad de st me ok f a c r m' Hme Ha Hfd E|m ad de st me ok a c reported m' Hme Ha Hrep E
    |m ad de st me ok m' E|m ad de st me t m' Hme Hne E|m ad de st w tId t b' Hw Hid E]; simpl io in *;
    try pose proof (ii_ctx _ Hi a c Ha) as Hok.
  - by eapply mirror_grow; [| |exact Hf|apply Hrc|exact E].
  - subst f. destruct (has (events c) e) eqn:He.
    { unfold addEvent_ctx, mbind, M_bind in E. rewrite (context_eq _ _ _ Ha) in E. simpl in E. by rewrite He in E. }
    destruct (addEvent_ctx_spec me cur (fd c) a e callback m c Hi Hin Ha He Hn)
      as [E0 (m2 & E1 & _ & Hfr & Hh & _ & Hc & _)].
    destruct ok; [rewrite E1 in E|rewrite E0 in E]; simplify_eq; [|done].
    eapply mirror_update; [exact Hm|exact Ha| |exact Hfr|exact Hh|exact Hc|]; [by destruct e|].
    intros i. by apply add_call_legal.
  - subst f. destruct (delEvent_ctx_spec ok (fd c) a e m c Hi Ha) as [E0 E1].
    destruct (has (events c) e) eqn:He; [destruct ok|]; try (rewrite E0 in E by auto; by simplify_eq).
    destruct (E1 eq_refl eq_refl) as (m2 & E2 & _ & Hfr & Hh & _ & Hc & _). rewrite E in E2. simplify_eq.
    eapply mirror_update; [exact Hm|exact Ha| |exact Hfr|exact Hh|exact Hc|]; [by destruct e|].
    intros i. by apply one_call_legal.
  - subst f. destruct (cancelEvent_ctx_spec me ok (fd c) a e m c Hi Hme Ha) as [E0 E1].
    destruct (has (events c) e) eqn:He; [destruct ok|]; try (rewrite E0 in E by auto; by simplify_eq).
    destruct (E1 eq_refl eq_refl) as (m2 & E2 & _ & Hfr & Hh & Hc & _). rewrite E in E2. simplify_eq.
    eapply mirror_update; [exact Hm|exact Ha| |exact Hfr|exact Hh|exact Hc|]; [by destruct e|].
    intros i. by apply one_call_legal.
  - subst f. destruct (cancelAll_ctx_spec me ok (fd c) a m c Hi Hme Ha) as [E0 E1].
    destruct (decide (events c = 0)) as [He|He]; [rewrite E0 in E by auto; by simplify_eq|].
    destruct ok; [|rewrite E0 in E by auto; by simplify_eq].
    destruct (E1 He eq_refl) as (m2 & E2 & _ & Hfr & Hh & Hc & _). rewrite E in E2. simplify_eq.
    eapply mirror_update; [exact Hm|exact Ha| |exact Hfr|exact Hh|exact Hc|]; [apply fired_set_fd|].
    intros i. by apply all_call_legal.
  - destruct (handle_ready_spec me ok a reported m c Hi Hme Ha Hrep) as [E0 E1].
    destruct (decide (Z.land (events c) (real_events reported (events c)) = 0)) as [Hz|Hz];
      [rewrite E0 in E by auto; by simplify_eq|].
    destruct ok; [|rewrite E0 in E by auto; by simplify_eq].
    destruct (E1 Hz eq_refl) as (m2 & E2 & _ & Hfr & Hh & Hc & _). rewrite E in E2. simplify_eq.
    eapply mirror_update; [exact Hm|exact Ha| |exact Hfr|exact Hh|exact Hc|]; [apply fired_set_fd|].
    intros i. apply drop_call_legal; try done.
    destruct (real_events_cases reported (events c)) as [Hr0|?]; [|done]. rewrite Hr0 in Hz. by rewrite Z.land_0_r in Hz.
  - unfold handle_ready, modify in E. simplify_eq. by eapply mirror_same.
  - destruct (submit_spec me t m (ii_base _ Hi) Hme Hne) as (b & p & E2 & _). rewrite E in E2. simplify_eq.
    by eapply mirror_same.
  - by eapply mirror_same.
Qed.

Section reachable.
Context (b0 : Scheduler) (t0 : Timer.manager).
Context (Hb0 : SchedulerProofs.wf b0) (Hempty : all_tasks b0 = []).

Definition io_start : ioworld := IOWorld (IOManager_new b0 t0) [] [] [].

Lemma io_start_wf : iowf io_start.
Proof using Hb0 Hempty.
  destruct (contextResize_spec 32 (IOM b0 t0 [] ∅ 0 0 0 0 [])) as (m' & E & Hi & _ & Hb & _ & Hw & _).
  { right. done. }
  { lia. }
  unfold io_start, IOManager_new. rewrite E. split; [done|]. unfold located. simpl.
  rewrite Hw, Hb. simpl. by rewrite Hempty.
Qed.

Lemma iowf_reachable race w : rtc (io_step race) io_start w -> iowf w.
Proof using Hb0 Hempty.
  intros Hr. eapply (rtc_invariant (io_step race) iowf); [|exact Hr|apply io_start_wf].
  intros x y. apply io_step_wf.
Qed.

(** C2. No event registration and no task is lost or run twice.  Whatever the
    threads interleave (registrations, deletions, cancellations, events reported
    by epoll, direct submissions, workers taking and stealing tasks), everything
    that was ever registered or submitted is in exactly one place: waiting in an
    event context, in a queue of the scheduler, deleted, or taken by a worker;
    [pendingEventCnt_] counts the waiting ones (modulo 2^64), and an event
    context is in use exactly when its bit of the mask is set.  This includes
    the race in which two threads grow the vector of contexts. *)
Theorem io_conserves_work race w :
  rtc (io_step race) io_start w ->
  io_added w ≡ₚ waiting (heap (io w)) ++ all_tasks (base (io w)) ++ io_deleted w ++ io_started w /\
  pendingEventCnt_ (io w) = u64 (Z.of_nat (length (waiting (heap (io w))))) /\
  forall a c, heap (io w) !! a = Some c -> ctx_ok c.
Proof using Hb0 Hempty.
  intros Hr. destruct (iowf_reachable race w Hr) as [Hi Ht]. split; [done|]. split; [apply Hi|].
  intros a c. apply (ii_ctx _ Hi).
Qed.

(** The regions return.  In every reachable state, with a context pointer
    that was looked up and a worker thread, deleting, cancelling and handling an
    event epoll reported for registered events never fail an assertion or follow
    a null pointer, whether or not [epoll_ctl] succeeds; [addEvent] returns
    unless the event is registered already, and then it asserts; growing the
    vector returns a context of the descriptor. *)
Theorem io_regions_return race w me :
  rtc (io_step race) io_start w -> in_this me = true -> 0 <= cur_worker_index me ->
  (forall f a c e ok, heap (io w) !! a = Some c ->
     (exists r m', delEvent_ctx ok f a e (io w) = Ret r m') /\
     (exists r m', cancelEvent_ctx me ok f a e (io w) = Ret r m') /\
     (exists r m', cancelAll_ctx me ok f a (io w) = Ret r m') /\
     (forall reported, reported_ok reported c ->
        exists m', handle_ready me ok (FdReady a reported) (io w) = Ret tt m') /\
     (forall cur callback, e <> NONE ->
        if has (events c) e
        then addEvent_ctx me cur true ok f a e callback (io w) = Crash (Panic "event is already registered for fd")
        else exists m', addEvent_ctx me cur true ok f a e callback (io w) = Ret (if ok then 0 else -1) m')) /\
  (forall f, 32 <= f < 2 ^ 31 -> exists a m', grow_context f (io w) = Ret a m' /\
     fdContexts_ m' !! Z.to_nat f = Some (Some a)).
Proof using Hb0 Hempty.
  intros Hr Hin Hme. destruct (iowf_reachable race w Hr) as [Hi _]. split.
  - intros f a c e ok Ha.
    pose proof (delEvent_ctx_spec ok f a e _ c Hi Ha) as [D0 D1].
    pose proof (cancelEvent_ctx_spec me ok f a e _ c Hi Hme Ha) as [C0 C1].
    pose proof (cancelAll_ctx_spec me ok f a _ c Hi Hme Ha) as [A0 A1].
    split_and!.
    + destruct (has (events c) e); [destruct ok|]; [|eauto..].
      destruct (D1 eq_refl eq_refl) as (m' & -> & _). eauto.
    + destruct (has (events c) e); [destruct ok|]; [|eauto..].
      destruct (C1 eq_refl eq_refl) as (m' & -> & _). eauto.
    + destruct (decide (events c = 0)) as [He|He]; [eauto|]. destruct ok; [|eauto].
      destruct (A1 He eq_refl) as (m' & -> & _). eauto.
    + intros reported Hrep.
      destruct (handle_ready_spec me ok a reported _ c Hi Hme Ha Hrep) as [E0 E1].
      destruct (decide (Z.land (events c) (real_events reported (events c)) = 0)) as [Hz|Hz]; [eauto|].
      destruct ok; [|eauto]. destruct (E1 Hz eq_refl) as (m' & -> & _). eauto.
    + intros cur callback Hn. destruct (has (events c) e) eqn:He.
      * unfold addEvent_ctx, mbind, M_bind. rewrite (context_eq _ _ _ Ha). by rewrite He.
      * destruct (addEvent_ctx_spec me cur f a e callback _ c Hi Hin Ha He Hn) as [E0 (m' & E1 & _)].
        destruct ok; [rewrite E1|rewrite E0]; eauto.
  - intros f Hf. destruct (grow_context_spec f _ Hi Hf) as (a & m' & E & _ & _ & Hv). eauto.
Qed.

(** C39. Reports that are out of date.  In every reachable state, when a worker handles
    a report of epoll for a context, whatever was registered, deleted, cancelled or
    handled since the report was made, and [epoll_ctl] succeeds: the handler fails
    the assertion of [triggerEvent] exactly when some of the events that it takes
    from the report are still registered and some are not, and returns otherwise.
    ([stale_report_run] reaches the failure: another thread deletes one of two
    reported events.) *)
Theorem stale_report_panics race w me a c reported :
  rtc (io_step race) io_start w -> 0 <= cur_worker_index me -> heap (io w) !! a = Some c ->
  let real := real_events reported (events c) in
  let mixed := (exists e, has real e = true /\ has (events c) e = true) /\ (exists e, has real e = true /\ has (events c) e = false) in
  (mixed -> handle_ready me true (FdReady a reported) (io w) = Crash (Panic "event hasn't been registed")) /\
  (~ mixed -> exists m', handle_ready me true (FdReady a reported) (io w) = Ret tt m').
Proof using Hb0 Hempty.
  intros Hr Hme Ha real mixed. destruct (iowf_reachable race w Hr) as [Hi _]. split.
  - intros [(e1 & R1 & E1) (e2 & R2 & E2)]. exact (handle_ready_stale me a reported _ c e1 e2 Hi Hme Ha R1 E1 R2 E2).
  - intros Hn. destruct (decide (Z.land (events c) real = 0)) as [Hz|Hz].
    + exists (io w). unfold handle_ready. eapply bind_ret; [by apply context_eq|]. fold real. by rewrite Hz.
    + assert (reported_ok reported c) as Hok.
      { intros e He. destruct (has (events c) e) eqn:E; [done|]. exfalso. apply Hn. split; [|eauto].
        apply land_registered; [apply (ii_ctx _ Hi a c Ha)|apply real_events_mask|done]. }
      destruct (handle_ready_spec me true a reported _ c Hi Hme Ha Hok) as [_ E1].
      destruct (E1 Hz eq_refl) as (m' & -> & _). eauto.
Qed.

(** C14. The kernel and the contexts agree.  When the vector of contexts is only
    grown with an up-to-date size, every [epoll_ctl] the manager issues is one
    the kernel accepts (never an ADD of a registered or a MOD or DEL of an
    unregistered descriptor), and at any time the kernel watches a descriptor
    exactly for the events registered in its context, with that context as the
    user data, edge triggered. *)
Theorem epoll_mirrors_contexts w :
  rtc (io_step false) io_start w ->
  exists i, epoll_run (epoll_calls (io w)) = Some i /\
    (forall f a c, fdContexts_ (io w) !! Z.to_nat f = Some (Some a) -> 0 <= f -> heap (io w) !! a = Some c ->
       i !! f = if events c =? 0 then None else Some (Z.lor EPOLLET (events c), a)) /\
    (forall f x, i !! f = Some x -> exists a c, fdContexts_ (io w) !! Z.to_nat f = Some (Some a) /\
       heap (io w) !! a = Some c /\ x = (Z.lor EPOLLET (events c), a)).
Proof using Hb0 Hempty.
  intros Hr.
  assert (H : iowf w /\ mirror (io w)).
  { eapply (rtc_invariant (io_step false) (fun w => iowf w /\ mirror (io w))); [|exact Hr|].
    - intros x y Hs [H1 H2]. split; [by eapply io_step_wf|by eapply io_step_mirror].
    - split; [apply io_start_wf|].
      destruct (contextResize_spec 32 (IOM b0 t0 [] ∅ 0 0 0 0 []))
        as (m' & E & _ & _ & _ & Hc & _ & _ & Hnew & _); [right; done|lia|].
      unfold io_start, IOManager_new. rewrite E. simpl. exists ∅. rewrite Hc. split; [done|].
      split.
      + intros a c Ha. destruct (Hnew a c Ha) as [?|(j & _ & -> & Hv)]; [done|]. simpl.
        rewrite Nat2Z.id. split; [done|lia].
      + intros a c Ha. destruct (Hnew a c Ha) as [?|(j & _ & -> & Hv)]; [done|]. by rewrite lookup_empty.
      + intros f x Hx. by rewrite lookup_empty in Hx. }
  destruct H as [[Hi _] (i & Hrun & [Ho Hs Hk])]. exists i. split; [done|]. split.
  - intros f a c Hv Hf Ha. destruct (ii_vector _ Hi _ _ Hv) as (a' & c' & [= <-] & Ha' & Hfd). simplify_eq.
    rewrite Z2Nat.id in Hfd by done. subst f. by apply Hs.
  - intros f x Hx. destruct (Hk f x Hx) as (a & c & Ha & <-). exists a, c.
    destruct (Ho a c Ha) as [Hv _]. split_and!; try done. rewrite (Hs a c Ha) in Hx. unfold shown in Hx.
    by destruct (events c =? 0); simplify_eq.
Qed.

End reachable.

(** ** Concrete runs *)

Definition io_after {A} (c : M IOManager A) (m : IOManager) : IOManager :=
  match c m with Ret _ m' => m' | _ => m end.

(** A manager of two workers, the second of which is the thread 11; fiber 7 runs
    on it. *)
Definition fresh_io : IOManager := IOManager_new two_workers (init_manager [] 0).
Definition worker11 : thread := Thread 11 true 1.

(** Fiber 7 waits for input on descriptor 5, a callback for output. *)
Definition read_registered : IOManager :=
  io_after (addEvent_ctx worker11 7 true true 5 5 READ None) fresh_io.
Definition both_registered : IOManager :=
  io_after (addEvent_ctx worker11 7 true true 5 5 WRITE (Some 9)) read_registered.
Definition write_deleted : IOManager := io_after (delEvent_ctx true 5 5 WRITE) both_registered.

Definition task_read : SchedulerTask := Task (Some 7) None 11.
Definition task_write : SchedulerTask := Task None (Some 9) 11.

Definition read_world : ioworld := IOWorld read_registered [task_read] [] [].
Definition both_world : ioworld := IOWorld both_registered [task_write; task_read] [] [].
Definition deleted_world : ioworld := IOWorld write_deleted [task_write; task_read] [task_write] [].

Definition read5 : FdContext := FdCtx (EvCtx true (Some 7) None 11) no_context 5 1.
Definition ctx5 : FdContext := FdCtx (EvCtx true (Some 7) None 11) (EvCtx true None (Some 9) 11) 5 5.

Lemma both_world_run race : rtc (io_step race) (io_start two_workers (init_manager [] 0)) both_world.
Proof.
  apply (rtc_l _ _ read_world).
  { apply (is_add race fresh_io [] [] [] worker11 7 true 5 5 (blank 5) READ None 0 read_registered);
      [done|done|vm_compute; reflexivity..]. }
  apply rtc_once.
  apply (is_add race read_registered [task_read] [] [] worker11 7 true 5 5 read5 WRITE (Some 9) 0 both_registered);
    [done|done|vm_compute; reflexivity..].
Qed.

Lemma deleted_world_step race : io_step race both_world deleted_world.
Proof.
  apply (is_del race both_registered [task_write; task_read] [] [] true 5 5 ctx5 WRITE true write_deleted);
    vm_compute; reflexivity.
Qed.

(** Two workers, fiber 7 waiting to read and a callback waiting to write on
    descriptor 5: epoll reports both events to one worker; before it locks the
    context another thread deletes (or cancels, as a write timeout does) the write
    event; the handler then fails the assertion. *)
Lemma stale_report_run :
  rtc (io_step false) (io_start two_workers (init_manager [] 0)) both_world /\
  heap (io both_world) !! 5 = Some ctx5 /\ reported_ok (Z.lor EPOLLIN EPOLLOUT) ctx5 /\
  io_step false both_world deleted_world /\
  handle_ready worker11 true (FdReady 5 (Z.lor EPOLLIN EPOLLOUT)) (io deleted_world) =
    Crash (Panic "event hasn't been registed").
Proof.
  split; [apply both_world_run|]. split; [vm_compute; reflexivity|]. split; [intros []; by vm_compute|].
  split; [apply deleted_world_step|]. vm_compute. reflexivity.
Qed.

Lemma stale_report_panics_witness :
  handle_ready worker11 true (FdReady 5 (Z.lor EPOLLIN EPOLLOUT)) (io deleted_world) = Crash (Panic "event hasn't been registed") /\
  heap (io deleted_world) !! 5 = Some read5.
Proof.
  assert (Ha : heap (io deleted_world) !! 5 = Some read5) by (vm_compute; reflexivity). split; [|exact Ha].
  apply (stale_report_panics two_workers (init_manager [] 0) two_workers_wf eq_refl false deleted_world worker11 5 read5).
  - eapply rtc_r; [apply both_world_run|apply deleted_world_step].
  - simpl. lia.
  - exact Ha.
  - split; [exists READ|exists WRITE]; vm_compute; split; reflexivity.
Defined.

(** Two threads find the vector (of 32) too short for descriptors 100 and 40. *)
Definition grown_100 : IOManager := io_after (grow_context 100) fresh_io.
Definition ctx_100 : Z := match grow_context 100 fresh_io with Ret a _ => a | _ => 0 end.
Definition waiting_100 : IOManager := io_after (addEvent_ctx worker11 7 true true 100 ctx_100 READ None) grown_100.
Definition shrunk : IOManager := io_after (grow_context 40) waiting_100.

(** Concurrent growth shrinks the vector of contexts.  Two threads see that
    32 contexts are too few, one for descriptor 100, the other for 40.  The first
    resizes to 150 and registers fiber 7 for input; the second, which does not
    look again, resizes to 60.  The context of descriptor 100 is then
    unreachable: deleting and cancelling answer [false], so a timeout cannot wake
    the fiber, the event still counts as pending, and a further registration on
    the descriptor issues an ADD that the kernel refuses. *)
Theorem concurrent_grow_loses_contexts :
  find_context 100 fresh_io = Ret None fresh_io /\ find_context 40 fresh_io = Ret None fresh_io /\
  length (fdContexts_ waiting_100) = 150%nat /\ length (fdContexts_ shrunk) = 60%nat /\
  pendingEventCnt_ shrunk = 1 /\
  (forall ok e, delEvent ok 100 e shrunk = Ret false shrunk) /\
  (forall me ok e, cancelEvent me ok 100 e shrunk = Ret false shrunk) /\
  (forall me ok, cancelAll me ok 100 shrunk = Ret false shrunk) /\
  (exists i, epoll_run (epoll_calls shrunk) = Some i) /\
  epoll_run (epoll_calls (io_after (addEvent worker11 7 true true 100 WRITE None) shrunk)) = None.
Proof.
  split_and!; try (vm_compute; reflexivity).
  eexists. vm_compute. reflexivity.
Qed.

(** The timeout of [epoll_wait].  Without a timer the idle loop waits 5
    seconds; with the next timer due in up to 2^31-1 ms it waits no longer than
    until then, and 5 seconds at most; but a delay between 2^31 and 2^32 ms (25 to
    50 days) becomes negative on its way through [int], which makes [epoll_wait]
    wait for ever. *)
Theorem idle_wait_timeout t :
  wait_timeout UINT64_MAX = MAX_TIMEOUT /\
  (0 <= t < 2 ^ 31 -> wait_timeout t = Z.min t MAX_TIMEOUT) /\
  (2 ^ 31 <= t < 2 ^ 32 -> wait_timeout t = t - 2 ^ 32 /\ wait_timeout t < 0).
Proof.
  assert (Hne : t < 2 ^ 32 -> (t =? UINT64_MAX) = false) by (intros; apply Z.eqb_neq; unfold UINT64_MAX; lia).
  split; [reflexivity|]. unfold wait_timeout, clamp_timeout, MAX_TIMEOUT. split.
  - intros Ht. rewrite Hne by lia. simpl negb. cbv iota. rewrite (i32_small t) by lia.
    rewrite u64_small by lia. apply i32_small. lia.
  - intros Ht. rewrite Hne by lia. simpl negb. cbv iota.
    assert (H1 : i32 t = t - 2 ^ 32).
    { unfold i32, swrap. simpl Z.sub. rewrite <- (Z_mod_plus_full _ (-1)), Z.mod_small; lia. }
    rewrite H1, Z.min_l by lia.
    assert (H2 : i32 (u64 (t - 2 ^ 32)) = t - 2 ^ 32); [|lia].
    unfold u64, wrap. rewrite <- (Z_mod_plus_full _ 1), Z.mod_small by lia.
    unfold i32, swrap. simpl Z.sub. rewrite <- (Z_mod_plus_full _ (- 2 ^ 32)), Z.mod_small; lia.
Qed.

(** ** Witnesses *)

Lemma io_conserves_work_witness :
  [task_write; task_read] ≡ₚ waiting (heap both_registered) ++ all_tasks (base both_registered) ++ [] ++ [] /\
  pendingEventCnt_ both_registered = u64 (Z.of_nat (length (waiting (heap both_registered)))).
Proof.
  destruct (io_conserves_work two_workers (init_manager [] 0) two_workers_wf eq_refl true both_world
    (both_world_run true)) as (H & Hc & _).
  split; [exact H|exact Hc].
Defined.

Lemma io_regions_return_witness : exists r m', cancelAll_ctx worker11 true 5 5 both_registered = Ret r m'.
Proof.
  destruct (io_regions_return two_workers (init_manager [] 0) two_workers_wf eq_refl true both_world worker11
    (both_world_run true) eq_refl ltac:(done)) as [H _].
  destruct (H 5 5 ctx5 READ true ltac:(vm_compute; reflexivity)) as (_ & _ & Hc & _). exact Hc.
Defined.

Lemma epoll_mirrors_contexts_witness : exists i, epoll_run (epoll_calls both_registered) = Some i /\
  i !! 5 = Some (Z.lor EPOLLET 5, 5).
Proof.
  destruct (epoll_mirrors_contexts two_workers (init_manager [] 0) two_workers_wf eq_refl both_world
    (both_world_run false)) as (i & Hr & H & _).
  exists i. split; [exact Hr|].
  apply (H 5 5 ctx5); [vm_compute; reflexivity|lia|vm_compute; reflexivity].
Defined.

Lemma idle_wait_timeout_witness : wait_timeout 20 = 20 /\ wait_timeout (2 ^ 31) < 0.
Proof.
  destruct (idle_wait_timeout 20) as (_ & H & _). destruct (idle_wait_timeout (2 ^ 31)) as (_ & _ & H').
  split; [apply H; lia|apply H'; lia].
Defined.
