(* ===== verification/FdManager.v ===== *)
(** * Descriptor contexts and the non-blocking hooks

    src/fd_manager.cpp with include/pulsar/fd_manager.hpp, and from src/hook.cpp
    the hooks that create, configure and close descriptors ([socket], [accept],
    [close], [fcntl], [ioctl], [setsockopt]).

    The original libc functions ([fcntl_f] and so on) are an interface,
    [Kernel]; what the hooks rely on is [KernelLaws]. *)

From S2P Require Import Prelude.

Definition O_NONBLOCK : Z := 2048.
Definition F_GETFL : Z := 3.
Definition F_SETFL : Z := 4.
Definition SO_RCVTIMEO : Z := 20.
Definition SO_SNDTIMEO : Z := 21.

Definition nonblock (flags : Z) : bool := negb (Z.land flags O_NONBLOCK =? 0).

(** What the process asks of the kernel.  [k_stat]: [fstat], [None] on error,
    else whether the descriptor is a socket.  A call returns -1 on error. *)
Class Kernel (K : Type) := {
  k_stat : K -> Z -> option bool;
  k_getfl : K -> Z -> Z;
  k_setfl : K -> Z -> Z -> Z * K;
  k_fionbio : K -> Z -> bool -> Z * K;
  k_socket : K -> Z * K;
  k_close : K -> Z -> Z * K }.

(** fcntl(2), ioctl(2), socket(2) and close(2): the status flags of an open
    socket can be set and are read back; a call on one descriptor leaves the
    others alone; a new descriptor was not open before and is a socket; a closed
    one is not open. *)
Class KernelLaws (K : Type) `{Kernel K} := {
  setfl_ok : forall k fd v, k_stat k fd = Some true -> (k_setfl k fd v).1 = 0;
  setfl_flags : forall k fd v, k_stat k fd = Some true -> nonblock (k_getfl (k_setfl k fd v).2 fd) = nonblock v;
  setfl_other : forall k fd v fd', fd' <> fd -> k_getfl (k_setfl k fd v).2 fd' = k_getfl k fd';
  setfl_stat : forall k fd v fd', k_stat (k_setfl k fd v).2 fd' = k_stat k fd';
  fionbio_flags : forall k fd b, k_stat k fd = Some true -> nonblock (k_getfl (k_fionbio k fd b).2 fd) = b;
  socket_new : forall k fd k', k_socket k = (fd, k') -> fd <> -1 ->
    0 <= fd < 2 ^ 30 /\ k_stat k fd = None /\ k_stat k' fd = Some true;
  socket_other : forall k fd k' fd', k_socket k = (fd, k') -> fd' <> fd ->
    k_stat k' fd' = k_stat k fd' /\ k_getfl k' fd' = k_getfl k fd';
  close_gone : forall k fd, k_stat (k_close k fd).2 fd = None;
  close_other : forall k fd fd', fd' <> fd ->
    k_stat (k_close k fd).2 fd' = k_stat k fd' /\ k_getfl (k_close k fd).2 fd' = k_getfl k fd' }.

(** ** Contexts *)

Record FdCtx := MkFdCtx {
  m_isInit : bool;
  m_isSocket : bool;
  m_sysNonblock : bool;
  m_userNonblock : bool;
  m_isClosed : bool;
  m_fd : Z;
  m_recvTimeout : Z;
  m_sendTimeout : Z }.

Definition setUserNonblock (v : bool) (c : FdCtx) : FdCtx :=
  MkFdCtx (m_isInit c) (m_isSocket c) (m_sysNonblock c) v (m_isClosed c) (m_fd c) (m_recvTimeout c) (m_sendTimeout c).

(** [FdCtx::setTimeout] and [getTimeout] *)
Definition setTimeout (type v : Z) (c : FdCtx) : FdCtx :=
  if type =? SO_RCVTIMEO
  then MkFdCtx (m_isInit c) (m_isSocket c) (m_sysNonblock c) (m_userNonblock c) (m_isClosed c) (m_fd c) v (m_sendTimeout c)
  else MkFdCtx (m_isInit c) (m_isSocket c) (m_sysNonblock c) (m_userNonblock c) (m_isClosed c) (m_fd c) (m_recvTimeout c) v.
Definition getTimeout (type : Z) (c : FdCtx) : Z :=
  if type =? SO_RCVTIMEO then m_recvTimeout c else m_sendTimeout c.

Section hooks.
Context {K : Type} `{Kernel K}.

(** The process: the singleton's [m_datas] (shared contexts by address), the
    contexts, and the kernel. *)
Record process := Proc {
  m_datas : list (option Z);
  contexts : gmap Z FdCtx;
  next_addr : Z;
  kern : K }.

Definition set_kern (k : K) (p : process) : process := Proc (m_datas p) (contexts p) (next_addr p) k.

(** The constructor [FdCtx::FdCtx] with [init()]. *)
Definition FdCtx_new (fd : Z) : M process FdCtx := fun p =>
  match k_stat (kern p) fd with
  | Some true =>
      let c := MkFdCtx true true true false false fd UINT64_MAX UINT64_MAX in
      let flags := k_getfl (kern p) fd in
      if nonblock flags then Ret c p
      else Ret c (set_kern (k_setfl (kern p) fd (Z.lor flags O_NONBLOCK)).2 p)
  | Some false => Ret (MkFdCtx true false false false false fd UINT64_MAX UINT64_MAX) p
  | None => Ret (MkFdCtx false false false false false fd UINT64_MAX UINT64_MAX) p
  end.

(** [FdManager::get]: the read-locked part decides, the write-locked part
    creates. *)
Inductive lookup_result := Found (ctx : option Z) | Create.

Definition get_read (fd : Z) (auto_create : bool) : M process lookup_result := fun p =>
  if Z.of_nat (length (m_datas p)) <=? fd then
    if negb auto_create then Ret (Found None) p else Ret Create p
  else if fd <? 0 then Crash (Undefined "m_datas index")
  else match m_datas p !! Z.to_nat fd with
       | Some (Some a) => Ret (Found (Some a)) p
       | _ => if negb auto_create then Ret (Found None) p else Ret Create p
       end.

Definition get_write (fd : Z) : M process (option Z) :=
  ctx ← FdCtx_new fd;
  p ← get;
  let datas := if fd >=? Z.of_nat (length (m_datas p)) then resize (Z.to_nat (fd * 3 / 2)) None (m_datas p) else m_datas p in
  if (fd <? 0) || (Z.of_nat (length datas) <=? fd) then stop (Undefined "m_datas index")
  else
    modify (fun _ => Proc (<[Z.to_nat fd := Some (next_addr p)]> datas) (<[next_addr p := ctx]> (contexts p))
                       (next_addr p + 1) (kern p));;
    mret (Some (next_addr p)).

Definition FdManager_get (fd : Z) (auto_create : bool) : M process (option Z) :=
  if fd =? -1 then mret None
  else
    r ← get_read fd auto_create;
    match r with
    | Found c => mret c
    | Create => get_write fd
    end.

(** [FdManager::del] *)
Definition FdManager_del (fd : Z) : M process unit := fun p =>
  if Z.of_nat (length (m_datas p)) <=? fd then Ret tt p
  else if fd <? 0 then Crash (Undefined "m_datas index")
  else Ret tt (Proc (<[Z.to_nat fd := None]> (m_datas p)) (contexts p) (next_addr p) (kern p)).

Definition FdManager_new (k : K) : process := Proc (replicate 64 None) ∅ 0 k.

(** ** The hooks *)

Definition the_ctx (a : Z) : M process FdCtx := fun p =>
  match contexts p !! a with
  | Some c => Ret c p
  | None => Crash (Undefined "FdCtx pointer")
  end.
Definition put_ctx (a : Z) (c : FdCtx) : M process unit :=
  modify (fun p => Proc (m_datas p) (<[a := c]> (contexts p)) (next_addr p) (kern p)).

(** The context of a descriptor a hook manages: known, open and a socket. *)
Definition managed_ctx (fd : Z) : M process (option (Z * FdCtx)) :=
  r ← FdManager_get fd false;
  match r with
  | None => mret None
  | Some a =>
      c ← the_ctx a;
      mret (if m_isClosed c || negb (m_isSocket c) then None else Some (a, c))
  end.

Definition call {A} (f : K -> A * K) : M process A := fun p => let '(r, k) := f (kern p) in Ret r (set_kern k p).

(** [fcntl] with F_SETFL *)
Definition fcntl_setfl (fd arg : Z) : M process Z :=
  r ← managed_ctx fd;
  match r with
  | None => call (fun k => k_setfl k fd arg)
  | Some (a, c) =>
      put_ctx a (setUserNonblock (nonblock arg) c);;
      let arg := if m_sysNonblock c then Z.lor arg O_NONBLOCK else Z.land arg (Z.lnot O_NONBLOCK) in
      call (fun k => k_setfl k fd arg)
  end.

(** [fcntl] with F_GETFL *)
Definition fcntl_getfl (fd : Z) : M process Z :=
  arg ← gets (fun p => k_getfl (kern p) fd);
  r ← managed_ctx fd;
  match r with
  | None => mret arg
  | Some (_, c) =>
      mret (if m_userNonblock c then Z.lor arg O_NONBLOCK else Z.land arg (Z.lnot O_NONBLOCK))
  end.

(** [ioctl] with FIONBIO *)
Definition ioctl_fionbio (fd : Z) (user_nonblock : bool) : M process Z :=
  r ← managed_ctx fd;
  match r with
  | None => call (fun k => k_fionbio k fd user_nonblock)
  | Some (a, c) =>
      put_ctx a (setUserNonblock user_nonblock c);;
      call (fun k => k_fionbio k fd user_nonblock)
  end.

(** [setsockopt] with SO_RCVTIMEO or SO_SNDTIMEO (the hook's own part). *)
Definition setsockopt_timeout (fd optname tv_sec tv_usec : Z) : M process unit :=
  r ← FdManager_get fd false;
  match r with
  | None => mret tt
  | Some a => c ← the_ctx a; put_ctx a (setTimeout optname (u64 (tv_sec * 1000 + Z.quot tv_usec 1000)) c)
  end.

(** [socket], and [accept] once the connection is there: a new descriptor gets
    its context. *)
Definition hook_socket : M process Z :=
  fd ← call k_socket;
  if fd =? -1 then mret fd
  else FdManager_get fd true;; mret fd.

(** [close], without the cancellation of the descriptor's events. *)
Definition hook_close (fd : Z) : M process Z :=
  r ← FdManager_get fd false;
  (if r is Some _ then FdManager_del fd else mret tt);;
  call (fun k => k_close k fd).

End hooks.
Arguments process K : clear implicits.
