(* ===== verification/FdManagerProofs.v ===== *)
(** * Correctness of the non-blocking hooks

    A socket the manager knows is non-blocking in the kernel whatever the
    program asked for, and the program reads back what it asked for. *)

From S2P Require Import Prelude FdManager.

Section proofs.
Context {K : Type} `{KernelLaws K}.
Implicit Types (p : process K) (k : K).

(** ** The invariant *)

(** The context [c] of the open descriptor [i]. *)
Definition ctx_agrees k (i : Z) (c : FdCtx) : Prop :=
  m_fd c = i /\ m_isClosed c = false /\ k_stat k i <> None /\
  (m_isSocket c = true -> k_stat k i = Some true /\ m_sysNonblock c = true /\ nonblock (k_getfl k i) = true).

Record pinv p : Prop := {
  pi_size : (64 <= length (m_datas p))%nat;
  pi_ctx : forall i a, m_datas p !! i = Some (Some a) ->
    exists c, contexts p !! a = Some c /\ ctx_agrees (kern p) (Z.of_nat i) c;
  pi_fresh : forall a c, contexts p !! a = Some c -> a < next_addr p }.

Lemma pinv_start k : pinv (FdManager_new k).
Proof.
  split; [by apply Nat.leb_le| |done]. intros i a Ha. exfalso.
  change (replicate 64 None !! i = Some (Some a)) in Ha. apply lookup_replicate in Ha as [Ha _]. done.
Qed.

(** What [FdManager::get] finds without creating. *)
Definition known p (fd : Z) : option Z := if fd <? 0 then None else default None (m_datas p !! Z.to_nat fd).

Lemma get_read_spec p fd b : 0 <= fd ->
  get_read fd b p = Ret (match known p fd with
                         | Some a => Found (Some a)
                         | None => if negb b then Found None else Create end) p.
Proof.
  intros Hfd. unfold get_read, known. destruct (Z.of_nat (length (m_datas p)) <=? fd) eqn:E; to_prop.
  - rewrite lookup_ge_None_2 by lia. destruct (fd <? 0) eqn:E2; to_prop; [lia|]. simpl. by destruct b.
  - destruct (fd <? 0) eqn:E2; to_prop; [lia|]. destruct (m_datas p !! Z.to_nat fd) as [[a|]|]; by destruct b.
Qed.

Lemma get_lookup_spec p fd : -1 <= fd -> FdManager_get fd false p = Ret (known p fd) p.
Proof.
  intros Hfd. unfold FdManager_get. destruct (fd =? -1) eqn:E; to_prop; [by subst|].
  eapply bind_ret; [apply get_read_spec; lia|]. by destruct (known p fd).
Qed.

Lemma known_ctx p fd a : pinv p -> known p fd = Some a ->
  0 <= fd /\ m_datas p !! Z.to_nat fd = Some (Some a) /\
  exists c, contexts p !! a = Some c /\ ctx_agrees (kern p) fd c.
Proof.
  intros Hi Hk. unfold known in Hk. destruct (fd <? 0) eqn:E; to_prop; [done|].
  destruct (m_datas p !! Z.to_nat fd) as [[b|]|] eqn:Ed; simplify_eq/=.
  destruct (pi_ctx _ Hi _ _ Ed) as (c & Hc & Ha). rewrite Z2Nat.id in Ha by done. eauto.
Qed.

(** The contexts the configuration hooks act on. *)
Definition managed p (fd : Z) (a : Z) (c : FdCtx) : Prop :=
  known p fd = Some a /\ contexts p !! a = Some c /\ m_isSocket c = true.

Lemma managed_ctx_spec p fd : pinv p -> -1 <= fd ->
  exists r, managed_ctx fd p = Ret r p /\
    match r with
    | Some (a, c) => managed p fd a c
    | None => forall a c, ~ managed p fd a c
    end.
Proof.
  intros Hi Hfd. unfold managed_ctx.
  destruct (known p fd) as [a|] eqn:Ek.
  - destruct (known_ctx _ _ _ Hi Ek) as (_ & _ & c & Hc & Ha). destruct Ha as (_ & Hcl & _).
    exists (if m_isClosed c || negb (m_isSocket c) then None else Some (a, c)). split.
    + eapply bind_ret; [by rewrite get_lookup_spec, Ek|]. cbn [FdManager.the_ctx].
      eapply bind_ret; [unfold the_ctx; by rewrite Hc|]. done.
    + rewrite Hcl. simpl. destruct (m_isSocket c) eqn:Es; simpl; [done|].
      intros b d (Hk & Hb & Hs). congruence.
  - exists None. split; [eapply bind_ret; [by rewrite get_lookup_spec, Ek|]; done|].
    intros a c (Hk & _). congruence.
Qed.

(** ** Updates *)

(** A new context for one descriptor, and a kernel that changed only there. *)
Lemma pinv_update p k' fd a c c' :
  pinv p -> m_datas p !! Z.to_nat fd = Some (Some a) -> 0 <= fd -> contexts p !! a = Some c ->
  ctx_agrees k' fd c' ->
  (forall fd', fd' <> fd -> k_stat k' fd' = k_stat (kern p) fd' /\ k_getfl k' fd' = k_getfl (kern p) fd') ->
  pinv (Proc (m_datas p) (<[a := c']> (contexts p)) (next_addr p) k').
Proof.
  intros Hi Hd Hfd Hc Ha Hk. split; simpl; [apply Hi| |].
  - intros i b Hb. destruct (pi_ctx _ Hi _ _ Hb) as (d & Hd' & Hag).
    destruct (decide (b = a)) as [->|Hne].
    + exists c'. rewrite lookup_insert_eq. split; [done|].
      destruct (pi_ctx _ Hi _ _ Hd) as (d2 & Hd2 & Hag2). simplify_eq.
      destruct Hag as (E1 & _). destruct Hag2 as (E2 & _).
      replace (Z.of_nat i) with fd; [done|]. rewrite Z2Nat.id in E2 by done. congruence.
    + exists d. rewrite lookup_insert_ne by done. split; [done|].
      destruct (decide (Z.of_nat i = fd)) as [<-|Hnf].
      { rewrite Nat2Z.id in Hd. congruence. }
      destruct (Hk _ Hnf) as [E1 E2]. destruct Hag as (H1 & H2 & H3 & H4).
      unfold ctx_agrees. rewrite E1, E2. done.
  - intros b d [[<- _]|[_ Hb]]%lookup_insert_Some; [|by apply (pi_fresh _ Hi) in Hb].
    by apply (pi_fresh _ Hi) in Hc.
Qed.

(** The kernel changes in a way the contexts do not notice. *)
Lemma pinv_kern p k' :
  pinv p ->
  (forall i a c, m_datas p !! i = Some (Some a) -> contexts p !! a = Some c ->
     ctx_agrees (kern p) (Z.of_nat i) c -> ctx_agrees k' (Z.of_nat i) c) ->
  pinv (set_kern k' p).
Proof.
  intros Hi Hk. split; simpl; [apply Hi| |apply (pi_fresh _ Hi)].
  intros i a Ha. destruct (pi_ctx _ Hi _ _ Ha) as (c & Hc & Hag). exists c. eauto.
Qed.

Lemma agrees_same k k' i c :
  k_stat k' i = k_stat k i -> k_getfl k' i = k_getfl k i -> ctx_agrees k i c -> ctx_agrees k' i c.
Proof. intros E1 E2. unfold ctx_agrees. by rewrite E1, E2. Qed.

Lemma known_at p i a : m_datas p !! i = Some (Some a) -> known p (Z.of_nat i) = Some a.
Proof. intros E. unfold known. destruct (Z.of_nat i <? 0) eqn:E0; to_prop; [lia|]. by rewrite Nat2Z.id, E. Qed.

Lemma nonblock_lor v : nonblock (Z.lor v O_NONBLOCK) = true.
Proof.
  unfold nonblock. apply negb_true_iff, Z.eqb_neq. rewrite Z.land_lor_distr_l, Z.land_diag. intros E.
  apply (f_equal (fun z => Z.testbit z 11)) in E. rewrite Z.lor_spec, orb_comm in E. done.
Qed.

Lemma nonblock_clear v : nonblock (Z.land v (Z.lnot O_NONBLOCK)) = false.
Proof.
  unfold nonblock. apply negb_false_iff, Z.eqb_eq.
  by rewrite <- Z.land_assoc, (Z.land_comm _ O_NONBLOCK), Z.land_lnot_diag, Z.land_0_r.
Qed.

(** ** The hooks *)

Lemma fcntl_setfl_spec p fd v : pinv p -> -1 <= fd ->
  exists r p', fcntl_setfl fd v p = Ret r p' /\ pinv p' /\
    (forall a c, managed p fd a c -> r = 0 /\ managed p' fd a (setUserNonblock (nonblock v) c)).
Proof.
  intros Hi Hfd. destruct (managed_ctx_spec p fd Hi Hfd) as (r & E & Hr). unfold fcntl_setfl. destruct r as [[a c]|].
  - destruct Hr as (Hk & Hc & Hs). destruct (known_ctx _ _ _ Hi Hk) as (Hfd0 & Hd & c' & Hc' & Hag). simplify_eq.
    destruct Hag as (H1 & H2 & H3 & H4). destruct (H4 Hs) as (Hst & Hsys & Hnb).
    set (arg := Z.lor v O_NONBLOCK).
    exists 0, (Proc (m_datas p) (<[a := setUserNonblock (nonblock v) c]> (contexts p)) (next_addr p)
                 (k_setfl (kern p) fd arg).2).
    split; [|split].
    + eapply bind_ret; [exact E|]. cbv beta iota. eapply bind_modify. rewrite Hsys. fold arg.
      unfold call, set_kern. simpl. pose proof (setfl_ok (kern p) fd arg Hst) as Ho.
      destruct (k_setfl (kern p) fd arg) as [x k']. simpl in *. by subst x.
    + eapply (pinv_update p _ fd a c); try done.
      * split; [done|]. split; [done|]. rewrite setfl_stat. split; [done|]. intros _.
        split_and!; try done. rewrite setfl_flags by done. apply nonblock_lor.
      * intros fd' Hne. by rewrite setfl_stat, setfl_other.
    + intros b d (Hk' & Hb & _). simplify_eq. split; [done|]. split; [done|]. simpl. by rewrite lookup_insert_eq.
  - destruct (k_setfl (kern p) fd v) as [x k'] eqn:Ek.
    exists x, (set_kern k' p). split; [|split].
    + eapply bind_ret; [exact E|]. unfold call. by rewrite Ek.
    + apply pinv_kern; [done|]. intros i a c Ha Hc Hag.
      replace k' with (k_setfl (kern p) fd v).2 by (by rewrite Ek).
      destruct (decide (Z.of_nat i = fd)) as [<-|Hne].
      * destruct Hag as (H1 & H2 & H3 & H4). split; [done|]. split; [done|]. rewrite setfl_stat. split; [done|].
        intros Hs. exfalso. apply (Hr a c). split; [by apply known_at|done].
      * eapply agrees_same; [|by apply setfl_other|done]. by rewrite setfl_stat.
    + intros a c Hm. by destruct (Hr a c).
Qed.

Lemma fcntl_getfl_spec p fd : pinv p -> -1 <= fd ->
  exists r, fcntl_getfl fd p = Ret r p /\
    forall a c, managed p fd a c -> nonblock r = m_userNonblock c.
Proof.
  intros Hi Hfd. destruct (managed_ctx_spec p fd Hi Hfd) as (r & E & Hr). unfold fcntl_getfl. destruct r as [[a c]|].
  - eexists. split; [apply bind_gets; eapply bind_ret; [exact E|]; reflexivity|].
    intros b d (Hk & Hb & _). destruct Hr as (Hk' & Hc & _). simplify_eq.
    destruct (m_userNonblock c); [apply nonblock_lor|apply nonblock_clear].
  - eexists. split; [apply bind_gets; eapply bind_ret; [exact E|]; reflexivity|].
    intros b d Hm. by destruct (Hr b d).
Qed.

Lemma setsockopt_spec p fd o s u : pinv p -> -1 <= fd ->
  exists p', setsockopt_timeout fd o s u p = Ret tt p' /\ pinv p' /\
    forall a c, known p fd = Some a -> contexts p !! a = Some c -> known p' fd = Some a /\
      contexts p' !! a = Some (setTimeout o (u64 (s * 1000 + Z.quot u 1000)) c).
Proof.
  intros Hi Hfd. unfold setsockopt_timeout. destruct (known p fd) as [a|] eqn:Ek.
  - destruct (known_ctx _ _ _ Hi Ek) as (Hfd0 & Hd & c & Hc & Hag).
    set (c' := setTimeout o (u64 (s * 1000 + Z.quot u 1000)) c).
    exists (Proc (m_datas p) (<[a := c']> (contexts p)) (next_addr p) (kern p)). split; [|split].
    + eapply bind_ret; [by rewrite get_lookup_spec, Ek|]. cbv beta iota.
      eapply bind_ret; [unfold the_ctx; by rewrite Hc|]. done.
    + eapply (pinv_update p _ fd a c); try done. unfold c', setTimeout.
      destruct Hag as (H1 & H2 & H3 & H4). by destruct (o =? SO_RCVTIMEO).
    + intros b d [= <-] Hb. simplify_eq. split; [done|]. simpl. by rewrite lookup_insert_eq.
  - exists p. split; [eapply bind_ret; [by rewrite get_lookup_spec, Ek|]; done|]. split; [done|]. done.
Qed.

Lemma hook_close_spec p fd : pinv p -> -1 <= fd ->
  exists r p', hook_close fd p = Ret r p' /\ pinv p' /\ known p' fd = None.
Proof.
  intros Hi Hfd. destruct (k_close (kern p) fd) as [x k'] eqn:Ek. unfold hook_close.
  assert (Hother : forall fd', fd' <> fd -> k_stat k' fd' = k_stat (kern p) fd' /\ k_getfl k' fd' = k_getfl (kern p) fd').
  { intros fd' Hne. pose proof (close_other (kern p) fd fd' Hne) as Hc. by rewrite Ek in Hc. }
  destruct (known p fd) as [a|] eqn:Ekn.
  - destruct (known_ctx _ _ _ Hi Ekn) as (Hfd0 & Hd & _).
    exists x, (Proc (<[Z.to_nat fd := None]> (m_datas p)) (contexts p) (next_addr p) k'). split; [|split].
    + eapply bind_ret; [by rewrite get_lookup_spec, Ekn|]. cbv beta iota.
      eapply bind_ret.
      { unfold FdManager_del. apply lookup_lt_Some in Hd.
        destruct (Z.of_nat (length (m_datas p)) <=? fd) eqn:E1; to_prop; [lia|].
        destruct (fd <? 0) eqn:E2; to_prop; [lia|]. reflexivity. }
      unfold call. simpl. by rewrite Ek.
    + split; simpl; [rewrite length_insert; apply Hi| |apply (pi_fresh _ Hi)].
      intros i b [(? & ? & ?)|[Hne Hb]]%list_lookup_insert_Some; [done|].
      destruct (pi_ctx _ Hi _ _ Hb) as (c & Hc & Hag). exists c. split; [done|].
      destruct (Hother (Z.of_nat i)) as [E1 E2]; [intros <-; by rewrite Nat2Z.id in Hne|]. by eapply agrees_same.
    + unfold known. simpl. destruct (fd <? 0); [done|]. rewrite list_lookup_insert_eq; [done|].
      by apply lookup_lt_Some in Hd.
  - exists x, (set_kern k' p). split; [|split].
    + eapply bind_ret; [by rewrite get_lookup_spec, Ekn|]. cbv beta iota. eapply bind_ret; [reflexivity|].
      unfold call. by rewrite Ek.
    + apply pinv_kern; [done|]. intros i a c Ha Hc Hag.
      destruct (Hother (Z.of_nat i)) as [E1 E2]; [|by eapply agrees_same].
      intros <-. apply known_at in Ha. congruence.
    + done.
Qed.

(** A new context agrees with the kernel it leaves behind. *)
Lemma FdCtx_new_spec p fd : k_stat (kern p) fd = Some true ->
  exists k', FdCtx_new fd p = Ret (MkFdCtx true true true false false fd UINT64_MAX UINT64_MAX) (set_kern k' p) /\
    ctx_agrees k' fd (MkFdCtx true true true false false fd UINT64_MAX UINT64_MAX) /\
    forall fd', fd' <> fd -> k_stat k' fd' = k_stat (kern p) fd' /\ k_getfl k' fd' = k_getfl (kern p) fd'.
Proof.
  intros Hst. unfold FdCtx_new. rewrite Hst. destruct (nonblock (k_getfl (kern p) fd)) eqn:E.
  - exists (kern p). split; [by destruct p|]. split; [|done]. unfold ctx_agrees. simpl. rewrite Hst. done.
  - eexists. split; [reflexivity|]. split.
    + unfold ctx_agrees. simpl. rewrite setfl_stat, Hst. split_and!; try done. intros _. split_and!; try done.
      rewrite setfl_flags by done. apply nonblock_lor.
    + intros fd' Hne. by rewrite setfl_stat, setfl_other.
Qed.

(** The table [FdManager::get] leaves when it makes room for [fd]. *)
Definition grown (fd : Z) (l : list (option Z)) : list (option Z) :=
  if fd >=? Z.of_nat (length l) then resize (Z.to_nat (fd * 3 / 2)) None l else l.

Lemma grown_spec p fd : pinv p -> 0 <= fd ->
  Z.of_nat (length (grown fd (m_datas p))) > fd /\ (64 <= length (grown fd (m_datas p)))%nat /\
  (forall i a, grown fd (m_datas p) !! i = Some (Some a) -> m_datas p !! i = Some (Some a)).
Proof.
  intros Hi Hfd. pose proof (pi_size _ Hi). unfold grown. destruct (fd >=? Z.of_nat (length (m_datas p))) eqn:E; to_prop; [|split_and!; [lia..|done]].
  rewrite length_resize. assert (fd + 1 <= fd * 3 / 2) by (apply Z.div_le_lower_bound; lia). split_and!; [lia..|].
  intros i a Hx. destruct (decide (i < length (m_datas p))%nat) as [Hl|Hl].
  - revert Hx. destruct (decide (i < Z.to_nat (fd * 3 / 2))%nat); [by rewrite lookup_resize|].
    rewrite lookup_resize_old by lia. done.
  - exfalso. pose proof (lookup_lt_Some _ _ _ Hx) as Hlt. rewrite length_resize in Hlt.
    rewrite lookup_resize_new in Hx by lia. done.
Qed.

Lemma hook_socket_spec p : pinv p ->
  exists fd p', hook_socket p = Ret fd p' /\ pinv p' /\
    (fd <> -1 -> exists a c, managed p' fd a c /\ m_userNonblock c = false).
Proof.
  intros Hi. unfold hook_socket. destruct (k_socket (kern p)) as [fd k1] eqn:Es.
  destruct (decide (fd = -1)) as [->|Hne].
  { exists (-1), (set_kern k1 p). split; [eapply bind_ret; [unfold call; by rewrite Es|]; done|]. split; [|done].
    apply pinv_kern; [done|]. intros i a c _ _ Hag.
    destruct (socket_other (kern p) (-1) k1 (Z.of_nat i) Es) as [E1 E2]; [lia|]. by eapply agrees_same. }
  destruct (socket_new (kern p) fd k1 Es Hne) as (Hfd & Hno & Hyes).
  assert (Hother : forall fd', fd' <> fd -> k_stat k1 fd' = k_stat (kern p) fd' /\ k_getfl k1 fd' = k_getfl (kern p) fd').
  { intros fd'. by apply socket_other. }
  assert (Hkn : known p fd = None).
  { destruct (known p fd) as [a|] eqn:Ek; [|done]. destruct (known_ctx _ _ _ Hi Ek) as (_ & _ & c & _ & (_ & _ & Hs & _)).
    done. }
  destruct (FdCtx_new_spec (set_kern k1 p) fd Hyes) as (k2 & Enew & Hag & Hk2). simpl in Hk2.
  destruct (grown_spec p fd Hi (proj1 Hfd)) as (Hlen & Hlen64 & Hold). set (datas := grown fd (m_datas p)) in *.
  set (c := MkFdCtx true true true false false fd UINT64_MAX UINT64_MAX) in *.
  set (p' := Proc (<[Z.to_nat fd := Some (next_addr p)]> datas) (<[next_addr p := c]> (contexts p)) (next_addr p + 1) k2).
  exists fd, p'. split; [|split].
  - eapply bind_ret; [unfold call; by rewrite Es|]. cbv beta. destruct (fd =? -1) eqn:E; to_prop; [done|].
    eapply bind_ret; [|reflexivity]. unfold FdManager_get. destruct (fd =? -1) eqn:E'; to_prop; [done|].
    eapply bind_ret; [apply get_read_spec; lia|]. change (known (set_kern k1 p) fd) with (known p fd).
    rewrite Hkn. cbv beta iota. unfold get_write. eapply bind_ret; [exact Enew|]. apply bind_get. simpl.
    fold (grown fd (m_datas p)). fold datas. destruct (fd <? 0) eqn:E1; to_prop; [lia|].
    destruct (Z.of_nat (length datas) <=? fd) eqn:E2; to_prop; [lia|]. reflexivity.
  - split; simpl; [by rewrite length_insert| |].
    + intros i a [(<- & Heq & _)|[Hni Ha]]%list_lookup_insert_Some.
      * simplify_eq. exists c. rewrite lookup_insert_eq, Z2Nat.id by lia. done.
      * apply Hold in Ha. destruct (pi_ctx _ Hi _ _ Ha) as (d & Hd & Hagd). exists d.
        rewrite lookup_insert_ne by (apply (pi_fresh _ Hi) in Hd; lia). split; [done|].
        assert (Hif : Z.of_nat i <> fd) by (intros <-; by rewrite Nat2Z.id in Hni).
        destruct (Hother _ Hif) as [E1 E2]. destruct (Hk2 _ Hif) as [E3 E4].
        eapply agrees_same; [| |exact Hagd]; congruence.
    + intros a d [[<- _]|[_ Hd]]%lookup_insert_Some; [lia|]. apply (pi_fresh _ Hi) in Hd. lia.
  - intros _. exists (next_addr p), c. split; [|done]. split; [|split; [apply lookup_insert_eq|done]].
    unfold known. simpl. destruct (fd <? 0) eqn:E; to_prop; [lia|]. rewrite list_lookup_insert_eq; [done|lia].
Qed.

(** ** What a program can do through the hooks *)

Inductive hook_step : process K -> process K -> Prop :=
| hk_socket p fd p' : hook_socket p = Ret fd p' -> hook_step p p'
| hk_close p fd r p' : -1 <= fd -> hook_close fd p = Ret r p' -> hook_step p p'
| hk_setfl p fd v r p' : -1 <= fd -> fcntl_setfl fd v p = Ret r p' -> hook_step p p'
| hk_getfl p fd r p' : -1 <= fd -> fcntl_getfl fd p = Ret r p' -> hook_step p p'
| hk_timeout p fd o s u p' : -1 <= fd -> setsockopt_timeout fd o s u p = Ret tt p' -> hook_step p p'.

Lemma hook_step_pinv p p' : hook_step p p' -> pinv p -> pinv p'.
Proof.
  intros Hs Hi. destruct Hs as [p fd p' E|p fd r p' Hfd E|p fd v r p' Hfd E|p fd r p' Hfd E|p fd o s u p' Hfd E].
  - destruct (hook_socket_spec p Hi) as (fd' & p2 & E2 & Hp & _). rewrite E in E2. by simplify_eq.
  - destruct (hook_close_spec p fd Hi Hfd) as (r' & p2 & E2 & Hp & _). rewrite E in E2. by simplify_eq.
  - destruct (fcntl_setfl_spec p fd v Hi Hfd) as (r' & p2 & E2 & Hp & _). rewrite E in E2. by simplify_eq.
  - destruct (fcntl_getfl_spec p fd Hi Hfd) as (r' & E2 & _). rewrite E in E2. by simplify_eq.
  - destruct (setsockopt_spec p fd o s u Hi Hfd) as (p2 & E2 & Hp & _). rewrite E in E2. by simplify_eq.
Qed.

Lemma pinv_reachable k p : rtc hook_step (FdManager_new k) p -> pinv p.
Proof.
  intros Hr. eapply (rtc_invariant hook_step pinv); [apply hook_step_pinv|exact Hr|apply pinv_start].
Qed.

(** A worker never blocks in a system call on a socket it manages.  After any
    sequence of the hooked [socket], [accept], [close], [fcntl] and [setsockopt],
    with any descriptors and flags, every known socket is open and non-blocking in
    the kernel even when the program set it to blocking, the hooks return, and a
    new socket is managed at once. *)
Theorem managed_sockets_stay_nonblocking k p :
  rtc hook_step (FdManager_new k) p ->
  (forall fd a c, managed p fd a c ->
     k_stat (kern p) fd = Some true /\ nonblock (k_getfl (kern p) fd) = true /\ m_fd c = fd) /\
  (exists fd p', hook_socket p = Ret fd p' /\ (fd <> -1 -> exists a c, managed p' fd a c)) /\
  (forall fd v, -1 <= fd -> (exists r p', fcntl_setfl fd v p = Ret r p') /\
     (exists r p', hook_close fd p = Ret r p' /\ known p' fd = None)).
Proof.
  intros Hi%pinv_reachable. split; [|split].
  - intros fd a c (Hk & Hc & Hs). destruct (known_ctx _ _ _ Hi Hk) as (_ & _ & c' & Hc' & (H1 & _ & _ & H4)).
    simplify_eq. destruct (H4 Hs) as (? & _ & ?). done.
  - destruct (hook_socket_spec p Hi) as (fd & p' & E & _ & Hm). exists fd, p'. split; [done|].
    intros Hne. destruct (Hm Hne) as (a & c & Hx & _). eauto.
  - intros fd v Hfd. split.
    + destruct (fcntl_setfl_spec p fd v Hi Hfd) as (r & p' & E & _). eauto.
    + destruct (hook_close_spec p fd Hi Hfd) as (r & p' & E & _ & Hk). eauto.
Qed.

(** Status flags round trip.  On a managed socket, [fcntl(F_SETFL, v)]
    succeeds and the following [fcntl(F_GETFL)] shows the program exactly the
    [O_NONBLOCK] bit it set, while the kernel's bit stays set; a fresh socket
    reads as blocking. *)
Theorem fcntl_flags_roundtrip k p fd a c v :
  rtc hook_step (FdManager_new k) p -> managed p fd a c ->
  exists p' r, fcntl_setfl fd v p = Ret 0 p' /\ fcntl_getfl fd p' = Ret r p' /\ nonblock r = nonblock v /\
    nonblock (k_getfl (kern p') fd) = true.
Proof.
  intros Hi%pinv_reachable Hm. pose proof Hm as (Hk & _).
  destruct (known_ctx _ _ _ Hi Hk) as (Hfd & _).
  destruct (fcntl_setfl_spec p fd v Hi ltac:(lia)) as (r & p' & E & Hi' & Hm').
  destruct (Hm' a c Hm) as [-> Hm2]. destruct (fcntl_getfl_spec p' fd Hi' ltac:(lia)) as (r & E2 & Hr).
  exists p', r. split_and!; try done; [by apply (Hr _ _ Hm2)|].
  destruct Hm2 as (Hk2 & Hc2 & Hs2). destruct (known_ctx _ _ _ Hi' Hk2) as (_ & _ & c' & Hc' & (_ & _ & _ & H4)).
  simplify_eq. by destruct (H4 Hs2) as (_ & _ & ?).
Qed.

(** [ioctl(FIONBIO)] defeats the scheme: unlike [fcntl], the hook passes a
    request for blocking mode on, so on a managed socket it leaves the kernel's
    descriptor blocking while its context still says that it is non-blocking.
    The next hooked read then blocks the worker thread instead of the fiber. *)
Theorem ioctl_makes_socket_blocking k p fd a c :
  rtc hook_step (FdManager_new k) p -> managed p fd a c ->
  exists r p' c', ioctl_fionbio fd false p = Ret r p' /\ managed p' fd a c' /\ m_sysNonblock c' = true /\
    m_userNonblock c' = false /\ nonblock (k_getfl (kern p') fd) = false.
Proof.
  intros Hi%pinv_reachable Hm. pose proof Hm as (Hk & Hc & Hs).
  destruct (known_ctx _ _ _ Hi Hk) as (Hfd & _ & c2 & Hc2 & (_ & Hcl & _ & H4)). simplify_eq.
  destruct (H4 Hs) as (Hst & Hsys & _).
  destruct (managed_ctx_spec p fd Hi ltac:(lia)) as (r & E & Hr). destruct r as [[a' c']|]; [|by destruct (Hr a c)].
  destruct Hr as (Hk' & Hc' & _). simplify_eq.
  pose proof (fionbio_flags (kern p) fd false Hst) as Hf. destruct (k_fionbio (kern p) fd false) as [x k'] eqn:Ek.
  eexists x, _, (setUserNonblock false c). split; [|split].
  - unfold ioctl_fionbio. eapply bind_ret; [exact E|]. cbv beta iota. eapply bind_modify. unfold call. simpl.
    rewrite Ek. reflexivity.
  - split; [done|]. split; [simpl; by rewrite lookup_insert_eq|done].
  - done.
Qed.

End proofs.

(** ** A small kernel, for the witnesses *)

(** The flags of the open descriptors (all sockets) and the next number. *)
Record toy := Toy { toy_open : gmap Z Z; toy_next : Z }.

#[export] Instance toy_kernel : Kernel toy := {
  k_stat k fd := (fun _ => true) <$> toy_open k !! fd;
  k_getfl k fd := default 0 (toy_open k !! fd);
  k_setfl k fd v := if toy_open k !! fd is Some _ then (0, Toy (<[fd := v]> (toy_open k)) (toy_next k)) else (-1, k);
  k_fionbio k fd b :=
    if toy_open k !! fd is Some v
    then (0, Toy (<[fd := if b : bool then Z.lor v O_NONBLOCK else Z.land v (Z.lnot O_NONBLOCK)]> (toy_open k)) (toy_next k))
    else (-1, k);
  k_socket k :=
    let n := toy_next k in
    if (0 <=? n) && (n <? 2 ^ 30) && bool_decide (toy_open k !! n = None)
    then (n, Toy (<[n := 2]> (toy_open k)) (n + 1)) else (-1, k);
  k_close k fd := (0, Toy (delete fd (toy_open k)) (toy_next k)) }.

#[export] Instance toy_laws : KernelLaws toy.
Proof.
  split; simpl.
  - intros k fd v Hs. by destruct (toy_open k !! fd).
  - intros k fd v Hs. destruct (toy_open k !! fd); [|done]. simpl. by rewrite lookup_insert_eq.
  - intros k fd v fd' Hne. destruct (toy_open k !! fd); [|done]. simpl. by rewrite lookup_insert_ne.
  - intros k fd v fd'. destruct (toy_open k !! fd) eqn:E; [|done]. simpl.
    destruct (decide (fd' = fd)) as [->|Hne]; [by rewrite lookup_insert_eq, E|by rewrite lookup_insert_ne].
  - intros k fd b Hs. destruct (toy_open k !! fd); [|done]. simpl. rewrite lookup_insert_eq. simpl.
    destruct b; [apply nonblock_lor|apply nonblock_clear].
  - intros k fd k' Es Hne. destruct ((0 <=? toy_next k) && (toy_next k <? 2 ^ 30) &&
      bool_decide (toy_open k !! toy_next k = None)) eqn:E; simplify_eq. to_prop.
    apply bool_decide_eq_true in H0. rewrite H0. simpl. rewrite lookup_insert_eq. done.
  - intros k fd k' fd' Es Hne. destruct ((0 <=? toy_next k) && (toy_next k <? 2 ^ 30) &&
      bool_decide (toy_open k !! toy_next k = None)); simplify_eq; [|done]. simpl. by rewrite lookup_insert_ne.
  - intros k fd. by rewrite lookup_delete_eq.
  - intros k fd fd' Hne. by rewrite lookup_delete_ne.
Qed.

Definition toy_start : process toy := FdManager_new (Toy ∅ 3).
Definition toy_sock : process toy := match hook_socket toy_start with Ret _ p => p | _ => toy_start end.
Definition toy_ctx : FdCtx := MkFdCtx true true true false false 3 UINT64_MAX UINT64_MAX.

Lemma toy_run : rtc hook_step (FdManager_new (Toy ∅ 3)) toy_sock.
Proof. apply rtc_once. apply (hk_socket _ 3). vm_compute. reflexivity. Qed.

Lemma toy_managed : managed toy_sock 3 0 toy_ctx.
Proof. split; [vm_compute; reflexivity|]. split; vm_compute; reflexivity. Qed.

Lemma managed_sockets_stay_nonblocking_witness : nonblock (k_getfl (kern toy_sock) 3) = true.
Proof.
  destruct (managed_sockets_stay_nonblocking (Toy ∅ 3) toy_sock toy_run) as (H & _).
  by destruct (H 3 0 toy_ctx toy_managed) as (_ & Hn & _).
Defined.

Lemma fcntl_flags_roundtrip_witness : exists p' r, fcntl_setfl 3 0 toy_sock = Ret 0 p' /\
  fcntl_getfl 3 p' = Ret r p' /\ nonblock r = false.
Proof.
  destruct (fcntl_flags_roundtrip (Toy ∅ 3) toy_sock 3 0 toy_ctx 0 toy_run toy_managed) as (p' & r & H1 & H2 & H3 & _).
  exists p', r. split; [exact H1|]. split; [exact H2|exact H3].
Defined.

Lemma ioctl_makes_socket_blocking_witness : exists r p' c', ioctl_fionbio 3 false toy_sock = Ret r p' /\
  managed p' 3 0 c' /\ nonblock (k_getfl (kern p') 3) = false.
Proof.
  destruct (ioctl_makes_socket_blocking (Toy ∅ 3) toy_sock 3 0 toy_ctx toy_run toy_managed)
    as (r & p' & c' & H1 & H2 & _ & _ & H3).
  exists r, p', c'. split; [exact H1|]. split; [exact H2|exact H3].
Defined.
