(* ===== verification/Hook.v ===== *)
(** * Hooked I/O and sleeping (src/hook.cpp)

    [do_io], the loop behind every hooked read and write, with its timer and its
    event registration, and the conversions of the sleeping hooks.  What [do_io]
    needs of an I/O manager is the interface [EventService]; its laws are stated
    for the client here and proved for [IOManager] in [HookService]. *)

From S2P Require Import Prelude Scheduler IOManager FdManager.

Definition EINTR : Z := 4.
Definition EAGAIN : Z := 11.
Definition EBADF : Z := 9.
Definition ETIMEDOUT : Z := 110.

(** ** The interface to the I/O manager *)

(** [ok] is the answer of [epoll_ctl]. *)
Class EventService (S : Type) := {
  svc_inv : S -> Prop;
  armed : S -> Z -> Event -> option SchedulerTask;
  queued : S -> list SchedulerTask;
  svc_add : thread -> Z -> bool -> Z -> Event -> M S Z;
  svc_cancel : thread -> bool -> Z -> Event -> M S bool;
  svc_ready : thread -> bool -> Z -> Event -> M S unit }.

Definition valid_fd (fd : Z) : Prop := 0 <= fd < 2 ^ 31.

(** Everything but one event of one descriptor is as before. *)
Definition armed_frame {S} `{EventService S} (fd : Z) (e : Event) (s s' : S) : Prop :=
  forall fd' e', fd' <> fd \/ e' <> e -> armed s' fd' e' = armed s fd' e'.

(** An armed event goes off: its task is submitted, once. *)
Definition disarmed {S} `{EventService S} (fd : Z) (e : Event) (t : SchedulerTask) (s s' : S) : Prop :=
  svc_inv s' /\ armed s' fd e = None /\ queued s' ≡ₚ t :: queued s /\ armed_frame fd e s s'.

Class EventServiceLaws (S : Type) `{EventService S} := {
  add_law : forall (me : thread) (f : Z) (ok : bool) (fd : Z) (e : Event) (s : S),
    svc_inv s -> in_this me = true -> valid_fd fd -> e <> NONE -> armed s fd e = None ->
    exists s', svc_add me f ok fd e s = Ret (if ok then 0 else -1) s' /\ svc_inv s' /\
      armed s' fd e = (if ok then Some (Task (Some f) None (tid me)) else None) /\
      queued s' ≡ₚ queued s /\ armed_frame fd e s s';
  cancel_law : forall (me : thread) (ok : bool) (fd : Z) (e : Event) (s : S),
    svc_inv s -> 0 <= cur_worker_index me -> valid_fd fd ->
    match armed s fd e with
    | Some t => if ok then exists s', svc_cancel me ok fd e s = Ret true s' /\ disarmed fd e t s s'
                else svc_cancel me ok fd e s = Ret false s
    | None => svc_cancel me ok fd e s = Ret false s
    end;
  ready_law : forall (me : thread) (ok : bool) (fd : Z) (e : Event) (s : S),
    svc_inv s -> 0 <= cur_worker_index me -> valid_fd fd ->
    match armed s fd e with
    | Some t => if ok then exists s', svc_ready me ok fd e s = Ret tt s' /\ disarmed fd e t s s'
                else svc_ready me ok fd e s = Ret tt s
    | None => svc_ready me ok fd e s = Ret tt s
    end }.

(** ** Which way a call takes *)

Inductive route :=
| Direct                (* the original function, nothing else *)
| Closed                (* EBADF *)
| Managed (to : Z).     (* wait in the fiber, with this timeout *)

(** The head of [do_io]; [ctx] is what [FdManager::get] answered. *)
Definition do_io_route (t_hook_enable : bool) (ctx : option FdCtx) (timeout_so : Z) : route :=
  if negb t_hook_enable then Direct
  else match ctx with
       | None => Direct
       | Some c =>
           if m_isClosed c then Closed
           else if negb (m_isSocket c) || m_userNonblock c then Direct
           else Managed (getTimeout timeout_so c)
       end.

(** ** The waiting loop *)

Inductive iopc :=
| Trying                   (* at [retry:], about to call the original function *)
| Timing                   (* EAGAIN: about to start the timer *)
| Adding                   (* about to call addEvent *)
| Parked                   (* yielded *)
| Back                     (* resumed *)
| Checking                 (* connect only: about to read SO_ERROR *)
| Done (n errno : Z).

(** One call of [do_io].  [cnacelled] is the field of the shared [timer_info];
    [timer_on] whether the current timer is in the manager; [in_flight] counts
    callbacks of expired timers that have been handed to the scheduler and not
    run; [wakeups] the resumptions of this fiber that wait in the scheduler. *)
Record iocall (S : Type) := IOCall {
  svc : S;
  pc : iopc;
  cnacelled : Z;
  timer_on : bool;
  in_flight : nat;
  wakeups : nat }.
Arguments IOCall {S} svc pc cnacelled timer_on in_flight wakeups.
Arguments svc {S} i.
Arguments pc {S} i.
Arguments cnacelled {S} i.
Arguments timer_on {S} i.
Arguments in_flight {S} i.
Arguments wakeups {S} i.

Section do_io.
Context {S : Type} `{EventService S}.

(** The fiber [cur] on the worker [me] waits for [event] on [fd]; [to] is the
    timeout of the descriptor. *)
Context (me : thread) (cur fd : Z) (event : Event) (to : Z).

Definition at_ (x : iopc) (c : iocall S) : iocall S :=
  IOCall (svc c) x (cnacelled c) (timer_on c) (in_flight c) (wakeups c).

(** The original function answered [n] with [err]. *)
Definition attempt (n err : Z) (c : iocall S) : iocall S :=
  if (n =? -1) && (err =? EINTR) then c
  else if (n =? -1) && (err =? EAGAIN) then at_ Timing c
  else at_ (Done n err) c.

(** [addConditionTimer], unless the timeout is infinite *)
Definition start_timer (c : iocall S) : iocall S :=
  IOCall (svc c) Adding (cnacelled c) (negb (to =? UINT64_MAX)) (in_flight c) (wakeups c).

(** [timer->cancel()] *)
Definition stop_timer (c : iocall S) : iocall S :=
  IOCall (svc c) (pc c) (cnacelled c) false (in_flight c) (wakeups c).

(** [addEvent], and what follows a failure; [err] is the [errno] it leaves. *)
Definition register (ok : bool) (err : Z) (c : iocall S) : outcome (iocall S) unit :=
  match svc_add me cur ok fd event (svc c) with
  | Ret rt s' =>
      let c' := IOCall s' (pc c) (cnacelled c) (timer_on c) (in_flight c) (wakeups c) in
      Ret tt (if negb (rt =? 0) then at_ (Done (-1) err) (stop_timer c') else at_ Parked c')
  | Throw e s' => Throw e (IOCall s' (pc c) (cnacelled c) (timer_on c) (in_flight c) (wakeups c))
  | Crash w => Crash w
  end.

(** The scheduler runs the fiber again. *)
Definition resume (c : iocall S) : iocall S :=
  IOCall (svc c) Back (cnacelled c) (timer_on c) (in_flight c) (pred (wakeups c)).

(** After the yield *)
Definition come_back (c : iocall S) : iocall S :=
  let c := stop_timer c in
  if negb (cnacelled c =? 0) then at_ (Done (-1) (cnacelled c)) c else at_ Trying c.

(** The expiry pass takes the timer's callback. *)
Definition expire (c : iocall S) : iocall S :=
  IOCall (svc c) (pc c) (cnacelled c) false (Datatypes.S (in_flight c)) (wakeups c).

Definition returned (c : iocall S) : bool := if pc c is Done _ _ then true else false.

(** The callback, on the worker [w]; the weak pointer is dead once the call
    has returned. *)
Definition on_timeout (w : thread) (ok : bool) (c : iocall S) : outcome (iocall S) unit :=
  let c := IOCall (svc c) (pc c) (cnacelled c) (timer_on c) (pred (in_flight c)) (wakeups c) in
  if returned c || negb (cnacelled c =? 0) then Ret tt c
  else
    match svc_cancel w ok fd event (svc c) with
    | Ret b s' => Ret tt (IOCall s' (pc c) ETIMEDOUT (timer_on c) (in_flight c) (if b : bool then Datatypes.S (wakeups c) else wakeups c))
    | Throw e s' => Throw e (IOCall s' (pc c) ETIMEDOUT (timer_on c) (in_flight c) (wakeups c))
    | Crash why => Crash why
    end.

(** epoll reports the event on the worker [w]. *)
Definition on_ready (w : thread) (ok : bool) (c : iocall S) : outcome (iocall S) unit :=
  match svc_ready w ok fd event (svc c) with
  | Ret _ s' =>
      Ret tt (IOCall s' (pc c) (cnacelled c) (timer_on c) (in_flight c)
                (if armed (svc c) fd event is Some _ then if ok then Datatypes.S (wakeups c) else wakeups c else wakeups c))
  | Throw e s' => Throw e c
  | Crash why => Crash why
  end.

(** The steps of a call and of its surroundings; [data]: whether epoll may
    report the event. *)
Inductive call_step (data : bool) : iocall S -> iocall S -> Prop :=
| cs_attempt c n err : pc c = Trying -> call_step data c (attempt n err c)
| cs_timer c : pc c = Timing -> call_step data c (start_timer c)
| cs_register c ok err c' : pc c = Adding -> register ok err c = Ret tt c' -> call_step data c c'
| cs_resume c : pc c = Parked -> (0 < wakeups c)%nat -> call_step data c (resume c)
| cs_back c : pc c = Back -> call_step data c (come_back c)
| cs_expire c : timer_on c = true -> call_step data c (expire c)
| cs_timeout c w ok c' : (0 < in_flight c)%nat -> 0 <= cur_worker_index w ->
    on_timeout w ok c = Ret tt c' -> call_step data c c'
| cs_ready c w ok c' : data = true -> 0 <= cur_worker_index w -> on_ready w ok c = Ret tt c' -> call_step data c c'
| cs_other c s' : svc_inv s' -> armed s' fd event = armed (svc c) fd event ->
    call_step data c (IOCall s' (pc c) (cnacelled c) (timer_on c) (in_flight c) (wakeups c)).

Definition call_start (s : S) : iocall S := IOCall s Trying 0 false 0 0.

End do_io.

(** ** Sleeping *)

(** The delay [sleep], [usleep] and [nanosleep] give to [addTimer]: products in
    [unsigned int], and an [int] that becomes a [uint64_t]. *)
Definition sleep_ms (seconds : Z) : Z := u32 (seconds * 1000).
Definition usleep_ms (usec : Z) : Z := usec / 1000.
Definition nanosleep_ms (tv_sec tv_nsec : Z) : Z :=
  u64 (i32 (tv_sec * 1000 + Z.quot (Z.quot tv_nsec 1000) 1000)).

(** ** Connecting *)

Definition EINPROGRESS : Z := 115.

(** The head of [connect_with_timeout]: a descriptor without a context is an
    error here. *)
Definition connect_route (t_hook_enable : bool) (ctx : option FdCtx) (timeout_ms : Z) : route :=
  if negb t_hook_enable then Direct
  else match ctx with
       | None => Closed
       | Some c =>
           if m_isClosed c then Closed
           else if negb (m_isSocket c) then Direct
           else if m_userNonblock c then Direct
           else Managed timeout_ms
       end.

(** The first [connect_f] answered [n] with [err]: the result of the call, or
    [None] when the connection is in progress. *)
Definition connect_first (n err : Z) : option (Z * Z) :=
  if n =? 0 then Some (0, err)
  else if negb (n =? -1) || negb (err =? EINPROGRESS) then Some (n, err)
  else None.

(** The end of the call; [so_error]: what [getsockopt(SO_ERROR)] found, [None]
    when it failed with [err]. *)
Definition connect_check (so_error : option Z) (err : Z) : Z * Z :=
  match so_error with
  | None => (-1, err)
  | Some e => if e =? 0 then (0, err) else (-1, e)
  end.

(** After the wait, or straight after a failed [addEvent] ([registered] false). *)
Definition connect_finish (registered : bool) (cancelled : Z) (so_error : option Z) (err : Z) : Z * Z :=
  if registered && negb (cancelled =? 0) then (-1, cancelled) else connect_check so_error err.
