(* ===== verification/HookProofs.v ===== *)
(** * Correctness of hooked I/O, against the event service interface *)

From S2P Require Import Prelude Scheduler IOManager FdManager Hook.

Section do_io.
Context {S : Type} {ES : EventService S} {L : EventServiceLaws S}.
Context (me : thread) (cur fd : Z) (event : Event) (to : Z).
Context (Hme : in_this me = true) (Hfd : valid_fd fd) (Hev : event <> NONE).

Definition my_task : SchedulerTask := Task (Some cur) None (tid me).

(** Suspended, the fiber is either registered or has one resumption on its way;
    at any other point it is neither. *)
Definition balanced (c : iocall S) : Prop :=
  match pc c with
  | Parked => (armed (svc c) fd event = Some my_task /\ wakeups c = 0%nat) \/
              (armed (svc c) fd event = None /\ wakeups c = 1%nat)
  | _ => armed (svc c) fd event = None /\ wakeups c = 0%nat
  end.

Definition cinv (c : iocall S) : Prop := svc_inv (svc c) /\ balanced c.

Lemma register_cinv ok err c c' : cinv c -> pc c = Adding -> register me cur fd event ok err c = Ret tt c' -> cinv c'.
Proof using L Hme Hfd Hev.
  intros [Hi Hb] Hp E. unfold balanced in Hb. rewrite Hp in Hb. destruct Hb as [Ha Hw].
  destruct (add_law me cur ok fd event (svc c) Hi Hme Hfd Hev Ha) as (s' & Ea & Hi' & Ha' & _).
  unfold register in E. rewrite Ea in E. simplify_eq. destruct ok; (split; [done|]); unfold balanced; simpl.
  - by left.
  - done.
Qed.

Lemma timeout_cinv w ok c c' :
  cinv c -> 0 <= cur_worker_index w -> on_timeout fd event w ok c = Ret tt c' -> cinv c'.
Proof using L Hfd.
  intros [Hi Hb] Hw E. unfold on_timeout in E. simpl in E.
  destruct (returned _ || negb (cnacelled c =? 0)); [simplify_eq; by split|].
  pose proof (cancel_law w ok fd event (svc c) Hi Hw Hfd) as Hc. unfold balanced in *.
  destruct (armed (svc c) fd event) as [t|] eqn:Ha.
  - destruct (pc c) eqn:Hp; try (by destruct Hb). destruct Hb as [[Ht Hwk]|[? _]]; [|done]. simplify_eq.
    destruct ok.
    + destruct Hc as (s' & Ec & Hi' & Ha' & _). rewrite Ec in E. simplify_eq. split; [done|].
      unfold balanced. simpl. rewrite ?Hp. right. by rewrite Hwk.
    + rewrite Hc in E. simplify_eq. split; [done|]. unfold balanced. simpl. rewrite ?Hp. by left.
  - rewrite Hc in E. simplify_eq. split; [done|]. unfold balanced. simpl. by rewrite Ha.
Qed.

Lemma ready_cinv w ok c c' :
  cinv c -> 0 <= cur_worker_index w -> on_ready fd event w ok c = Ret tt c' -> cinv c'.
Proof using L Hfd.
  intros [Hi Hb] Hw E. unfold on_ready in E.
  pose proof (ready_law w ok fd event (svc c) Hi Hw Hfd) as Hc. unfold balanced in *.
  destruct (armed (svc c) fd event) as [t|] eqn:Ha.
  - destruct (pc c) eqn:Hp; try (by destruct Hb). destruct Hb as [[Ht Hwk]|[? _]]; [|done]. simplify_eq.
    destruct ok.
    + destruct Hc as (s' & Ec & Hi' & Ha' & _). rewrite Ec in E. simplify_eq. split; [done|].
      unfold balanced. simpl. right. by rewrite Hwk.
    + rewrite Hc in E. simplify_eq. split; [done|]. unfold balanced. simpl. by left.
  - rewrite Hc in E. simplify_eq. split; [done|]. unfold balanced. simpl. by rewrite Ha.
Qed.

Lemma call_step_cinv data c c' : call_step me cur fd event to data c c' -> cinv c -> cinv c'.
Proof using L Hme Hfd Hev.
  intros Hs [Hi Hb]. pose proof Hb as Hb0. unfold balanced in Hb.
  destruct Hs as [c n err Hp|c Hp|c ok err c' Hp E|c Hp Hw|c Hp|c Ht|c w ok c' Hf Hw E|c w ok c' _ Hw E|c s' Hi' Ha'].
  - rewrite Hp in Hb. unfold attempt. destruct ((n =? -1) && (err =? EINTR)); [by split|].
    destruct ((n =? -1) && (err =? EAGAIN)); by split.
  - rewrite Hp in Hb. by split.
  - by eapply register_cinv.
  - rewrite Hp in Hb. destruct Hb as [[_ Hz]|[Ha Hz]]; [lia|]. split; [done|]. unfold balanced. simpl. by rewrite Hz.
  - rewrite Hp in Hb. unfold come_back. simpl. destruct (negb (cnacelled c =? 0)); by split.
  - by split.
  - by eapply timeout_cinv.
  - by eapply ready_cinv.
  - split; [done|]. unfold balanced in *. simpl. by rewrite Ha'.
Qed.

Lemma cinv_reachable data s c :
  svc_inv s -> armed s fd event = None -> rtc (call_step me cur fd event to data) (call_start s) c -> cinv c.
Proof using L Hme Hfd Hev.
  intros Hi Ha Hr. eapply (rtc_invariant (call_step me cur fd event to data) cinv); [|exact Hr|by split].
  intros x y. apply call_step_cinv.
Qed.

(** C7. A hooked call is resumed exactly once per wait and leaves nothing behind.
    Starting with no registration for its descriptor and event, through every
    interleaving of the fiber with the timers, the epoll workers and other users
    of the manager: while the fiber is suspended it is either registered with the
    manager or has exactly one resumption waiting in the scheduler, never both and
    never neither; at every other point, in particular after the call returned,
    its event is not registered and no resumption is outstanding. *)
Theorem do_io_resumed_exactly_once data s c :
  svc_inv s -> armed s fd event = None -> rtc (call_step me cur fd event to data) (call_start s) c ->
  match pc c with
  | Parked => (armed (svc c) fd event = Some my_task /\ wakeups c = 0%nat) \/
              (armed (svc c) fd event = None /\ wakeups c = 1%nat)
  | _ => armed (svc c) fd event = None /\ wakeups c = 0%nat
  end.
Proof using L Hme Hfd Hev. intros Hi Ha Hr. apply (cinv_reachable data s c Hi Ha Hr). Qed.

(** A timeout that runs while the fiber waits ends the call: when epoll_ctl
    succeeds, the callback takes the registration back and submits the fiber, and
    the call returns -1 with [ETIMEDOUT] and no timer left. *)
Theorem do_io_times_out s c w :
  svc_inv s -> armed s fd event = None -> rtc (call_step me cur fd event to true) (call_start s) c ->
  pc c = Parked -> armed (svc c) fd event = Some my_task -> cnacelled c = 0 -> (0 < in_flight c)%nat ->
  0 <= cur_worker_index w ->
  exists c1, on_timeout fd event w true c = Ret tt c1 /\ wakeups c1 = 1%nat /\
    queued (svc c1) ≡ₚ my_task :: queued (svc c) /\
    pc (come_back (resume c1)) = Done (-1) ETIMEDOUT /\ timer_on (come_back (resume c1)) = false /\
    armed (svc (come_back (resume c1))) fd event = None.
Proof using L Hme Hfd Hev.
  intros Hs0 Ha0 Hr Hp Ha Hc Hf Hw. destruct (cinv_reachable true s c Hs0 Ha0 Hr) as [Hi Hb].
  unfold balanced in Hb. rewrite Hp in Hb. destruct Hb as [[_ Hwk]|[? _]]; [|congruence].
  pose proof (cancel_law w true fd event (svc c) Hi Hw Hfd) as Hcl. rewrite Ha in Hcl.
  destruct Hcl as (s' & E & _ & Ha' & Hq & _). unfold on_timeout. simpl.
  unfold returned. simpl. rewrite Hp, Hc, E. simpl. rewrite Hwk. eexists. split; [reflexivity|].
  done.
Qed.

(** With the timeout already spent, nothing but the event itself ends the wait. *)
Definition stuck (c : iocall S) : Prop :=
  svc_inv (svc c) /\ pc c = Parked /\ armed (svc c) fd event = Some my_task /\ wakeups c = 0%nat /\ cnacelled c <> 0.

Lemma stuck_step c c' : call_step me cur fd event to false c c' -> stuck c -> stuck c'.
Proof using.
  intros Hs (Hi & Hp & Ha & Hw & Hc).
  destruct Hs as [c n err Hp'|c Hp'|c ok err c' Hp' E|c Hp' Hw'|c Hp'|c Ht|c w ok c' Hf Hw' E|c w ok c' Hd Hw' E|c s' Hi' Ha'];
    try congruence; try lia; try done.
  - unfold on_timeout in E. simpl in E. rewrite (proj2 (Z.eqb_neq _ _) Hc), orb_true_r in E. by simplify_eq.
  - unfold stuck. simpl. by rewrite Ha'.
Qed.

Lemma stuck_forever c c' : stuck c -> rtc (call_step me cur fd event to false) c c' -> stuck c'.
Proof using.
  intros Hc Hr. eapply (rtc_invariant (call_step me cur fd event to false) stuck); [|exact Hr|done].
  intros x y. apply stuck_step.
Qed.

End do_io.

(** Sleeping.  [sleep] is exact up to 4294967 seconds and wraps beyond (a
    sleep of 2^32/1000 seconds more is as long as none more); [usleep] rounds down
    to milliseconds, so it ends early by up to 999 microseconds; [nanosleep]
    rounds down and is right below 2^31 ms, while one of 2^31 to 2^32 ms sleeps
    for more than 500 million years. *)
Theorem hooked_sleep_durations :
  (forall s, 0 <= s <= 4294967 -> sleep_ms s = 1000 * s) /\
  (forall s, 4294967 < s < 2 ^ 32 -> sleep_ms s < 1000 * s) /\
  (forall us, 0 <= us -> 1000 * usleep_ms us <= us < 1000 * usleep_ms us + 1000) /\
  (forall s ns, 0 <= s -> 0 <= ns < 1000000000 -> s * 1000 + ns / 1000000 < 2 ^ 31 ->
     nanosleep_ms s ns = s * 1000 + ns / 1000000) /\
  (forall s ns, 0 <= s -> 0 <= ns < 1000000000 -> 2 ^ 31 <= s * 1000 + ns / 1000000 < 2 ^ 32 ->
     2 ^ 64 - 2 ^ 31 <= nanosleep_ms s ns).
Proof.
  assert (Hq : forall s ns, 0 <= ns -> s * 1000 + Z.quot (Z.quot ns 1000) 1000 = s * 1000 + ns / 1000000).
  { intros s ns Hn. rewrite Z.quot_quot by lia. rewrite Z.quot_div_nonneg by lia. done. }
  split_and!.
  - intros s Hs. unfold sleep_ms. rewrite u32_small; lia.
  - intros s Hs. unfold sleep_ms. pose proof (u32_range (s * 1000)). lia.
  - intros us Hu. unfold usleep_ms. pose proof (Z.div_mod us 1000 ltac:(lia)).
    pose proof (Z.mod_pos_bound us 1000 ltac:(lia)). lia.
  - intros s ns Hs Hn Hb. unfold nanosleep_ms. rewrite Hq by lia.
    assert (0 <= ns / 1000000) by (apply Z.div_pos; lia).
    rewrite i32_small by lia. apply u64_small. lia.
  - intros s ns Hs Hn Hb. unfold nanosleep_ms. rewrite Hq by lia. set (t := s * 1000 + ns / 1000000) in *.
    assert (Hi : i32 t = t - 2 ^ 32).
    { unfold i32, swrap. simpl Z.sub. rewrite <- (Z_mod_plus_full _ (-1)), Z.mod_small; lia. }
    rewrite Hi. unfold u64, wrap. rewrite <- (Z_mod_plus_full _ 1), Z.mod_small by lia. lia.
Qed.

Lemma hooked_sleep_durations_witness : sleep_ms 3 = 3000 /\ 2 ^ 64 - 2 ^ 31 <= nanosleep_ms 2147484 0.
Proof.
  destruct hooked_sleep_durations as (H1 & _ & _ & _ & H5).
  split; [rewrite H1; lia|]. apply H5; [lia|lia|]. change (0 / 1000000) with 0. lia.
Defined.

(** The outcome of a hooked [connect].  It answers 0 only when the first
    attempt succeeded or the socket has no error, and [ETIMEDOUT] from the timer
    only after a wait; but when the event cannot be registered it does not report
    that: the connection is in progress, the socket has no error yet, and the call
    answers success. *)
Theorem connect_outcomes n err registered cancelled so_error err' :
  (connect_first n err = None <-> n = -1 /\ err = EINPROGRESS) /\
  ((connect_finish registered cancelled so_error err').1 = 0 <->
     so_error = Some 0 /\ (registered = false \/ cancelled = 0)) /\
  (registered = true -> cancelled <> 0 -> connect_finish registered cancelled so_error err' = (-1, cancelled)) /\
  (connect_finish false cancelled (Some 0) err').1 = 0.
Proof.
  unfold connect_first, connect_finish, connect_check. split_and!.
  - destruct (n =? 0) eqn:E0; to_prop; [split; [done|lia]|].
    destruct (negb (n =? -1) || negb (err =? EINPROGRESS)) eqn:E; to_prop; [|done].
    split; [done|]. intros [-> ->]. done.
  - destruct registered; simpl; [destruct (cancelled =? 0) eqn:Ec; to_prop; simpl|];
      destruct so_error as [e|]; simpl; try (destruct (e =? 0) eqn:Ee; to_prop; simpl); subst; naive_solver lia.
  - intros -> Hc. simpl. by rewrite (proj2 (Z.eqb_neq _ _) Hc).
  - done.
Qed.

Lemma connect_outcomes_witness : connect_finish true ETIMEDOUT (Some 0) 0 = (-1, ETIMEDOUT).
Proof.
  destruct (connect_outcomes (-1) EINPROGRESS true ETIMEDOUT (Some 0) 0) as (_ & _ & H & _).
  apply H; [reflexivity|discriminate].
Defined.
