(* ===== verification/HookService.v ===== *)
(** * The I/O manager as the event service of the hooks

    [IOManager] satisfies the interface [do_io] is written against; with it, a
    run in which a hooked read loses its timeout. *)

From S2P Require Import Prelude Timer Scheduler SchedulerProofs IOManager IOManagerProofs IOManagerTheorems FdManager Hook HookProofs.

Definition ctx_at (m : IOManager) (fd : Z) : option (Z * FdContext) :=
  if fd <? 0 then None
  else match fdContexts_ m !! Z.to_nat fd with
       | Some (Some a) => (fun c => (a, c)) <$> heap m !! a
       | _ => None
       end.

Definition io_armed (m : IOManager) (fd : Z) (e : Event) : option SchedulerTask :=
  match ctx_at m fd with
  | Some (_, c) => if has (events c) e then Some (event_task (evctx e c)) else None
  | None => None
  end.

(** The event [e] of the descriptor's context is reported. *)
Definition io_ready (me : thread) (ok : bool) (fd : Z) (e : Event) : M IOManager unit :=
  r ← find_context fd;
  match r with
  | None => mret tt
  | Some a => handle_ready me ok (FdReady a (ev e))
  end.

#[export] Instance io_service : EventService IOManager := {
  svc_inv := iinv;
  armed := io_armed;
  queued m := all_tasks (base m);
  svc_add me f ok fd e := addEvent me f true ok fd e None;
  svc_cancel := cancelEvent;
  svc_ready := io_ready }.

Lemma ctx_at_spec m fd : iinv m -> 0 <= fd ->
  match ctx_at m fd with
  | Some (a, c) => find_context fd m = Ret (Some a) m /\ heap m !! a = Some c /\ IOManager.fd c = fd
  | None => find_context fd m = Ret None m /\ Z.of_nat (length (fdContexts_ m)) <= fd
  end.
Proof.
  intros Hi Hfd. unfold ctx_at, find_context. destruct (fd <? 0) eqn:E; to_prop; [lia|].
  destruct (Z.of_nat (length (fdContexts_ m)) >? fd) eqn:El; to_prop.
  - destruct (lookup_lt_is_Some_2 (fdContexts_ m) (Z.to_nat fd)) as [x Hx]; [lia|].
    destruct (ii_vector _ Hi _ _ Hx) as (a & c & -> & Ha & Hf). rewrite Hx, Ha. simpl.
    split_and!; try done. lia.
  - rewrite lookup_ge_None_2 by lia. done.
Qed.

(** Replacing the context of one descriptor. *)
Lemma ctx_at_update m m' fd a c c' :
  iinv m -> 0 <= fd -> ctx_at m fd = Some (a, c) -> framed m m' -> heap m' = <[a := c']> (heap m) ->
  ctx_at m' fd = Some (a, c') /\ forall fd', fd' <> fd -> ctx_at m' fd' = ctx_at m fd'.
Proof.
  intros Hi Hfd Hc [Fv _ _ _] Hh. pose proof (ctx_at_spec m fd Hi Hfd) as Hs. rewrite Hc in Hs.
  destruct Hs as (_ & Ha & Hf). unfold ctx_at in *. rewrite Fv, Hh.
  destruct (fd <? 0) eqn:E; [done|]. split.
  - destruct (fdContexts_ m !! Z.to_nat fd) as [[b|]|]; try done.
    destruct (heap m !! b) as [d|] eqn:Eb; simplify_eq/=. by rewrite lookup_insert_eq.
  - intros fd' Hne. destruct (fd' <? 0) eqn:E'; [done|].
    destruct (fdContexts_ m !! Z.to_nat fd') as [[b|]|] eqn:Ev; try done.
    destruct (decide (b = a)) as [->|]; [|by rewrite lookup_insert_ne].
    destruct (ii_vector _ Hi _ _ Ev) as (b & d & [= <-] & Hd & Hfd'). to_prop. exfalso. apply Hne.
    simplify_eq. lia.
Qed.

Lemma armed_update m m' fd a c e :
  iinv m -> 0 <= fd -> ctx_at m fd = Some (a, c) -> framed m m' -> heap m' = <[a := fired e c]> (heap m) ->
  io_armed m' fd e = None /\
  forall fd' e', fd' <> fd \/ e' <> e -> io_armed m' fd' e' = io_armed m fd' e'.
Proof.
  intros Hi Hfd Hc Hfr Hh. destruct (ctx_at_update m m' fd a c (fired e c) Hi Hfd Hc Hfr Hh) as [H1 H2].
  pose proof (ctx_at_spec m fd Hi Hfd) as Hs. rewrite Hc in Hs. destruct Hs as (_ & Ha & _).
  pose proof (ii_ctx _ Hi _ _ Ha) as Hok. unfold io_armed. rewrite H1. split.
  - destruct Hok as [Hm _ _]. assert (Hn : has (events (fired e c)) e = false).
    { masks c Hm; by destruct e. }
    by rewrite Hn.
  - intros fd' e' Hne. destruct (decide (fd' = fd)) as [->|]; [|by rewrite H2].
    rewrite H1, Hc. destruct Hne as [|Hne]; [done|]. rewrite fired_other by done.
    destruct (has (events c) e'); [|done]. by destruct e, e'.
Qed.

Lemma armed_registered m m' fd a c e x :
  iinv m -> 0 <= fd -> ctx_at m fd = Some (a, c) -> framed m m' -> heap m' = <[a := registered e x c]> (heap m) ->
  e <> NONE ->
  io_armed m' fd e = Some (event_task x) /\
  forall fd' e', fd' <> fd \/ e' <> e -> io_armed m' fd' e' = io_armed m fd' e'.
Proof.
  intros Hi Hfd Hc Hfr Hh Hn. destruct (ctx_at_update m m' fd a c _ Hi Hfd Hc Hfr Hh) as [H1 H2].
  pose proof (ctx_at_spec m fd Hi Hfd) as Hs. rewrite Hc in Hs. destruct Hs as (_ & Ha & _).
  destruct (ii_ctx _ Hi _ _ Ha) as [Hm _ _]. unfold io_armed. rewrite H1. split.
  - masks c Hm; by destruct e.
  - intros fd' e' Hne. destruct (decide (fd' = fd)) as [->|]; [|by rewrite H2].
    rewrite H1, Hc. destruct Hne as [|Hne]; [done|]. masks c Hm; by destruct e, e'.
Qed.

(** Growing the table changes no registration. *)
Lemma armed_grow m m' size :
  iinv m -> iinv m' -> Z.of_nat (length (fdContexts_ m)) <= size -> 32 <= size ->
  contextResize size m = Ret tt m' -> forall fd e, io_armed m' fd e = io_armed m fd e.
Proof.
  intros Hi Hi' Hlen Hsz E fd e.
  destruct (contextResize_spec size m (or_introl Hi) Hsz) as (m2 & E2 & _ & Hl & _ & _ & _ & Hold & _ & Hkeep & Hnew).
  rewrite E in E2. simplify_eq. unfold io_armed, ctx_at. destruct (fd <? 0) eqn:E0; [done|]. to_prop.
  destruct (fdContexts_ m !! Z.to_nat fd) as [x|] eqn:Ev.
  - destruct (ii_vector _ Hi _ _ Ev) as (a & c & -> & Ha & _).
    pose proof (lookup_lt_Some _ _ _ Ev) as Hlt.
    rewrite (Hkeep (Z.to_nat fd) a ltac:(lia) Ev), Ha. simpl. by rewrite (Hold _ _ Ha).
  - apply lookup_ge_None in Ev. destruct (decide (Z.to_nat fd < Z.to_nat size)%nat) as [Hlt|Hge].
    + destruct (Hnew (Z.to_nat fd) (conj Ev Hlt)) as (a & -> & _ & ->). simpl. unfold has. simpl. done.
    + rewrite lookup_ge_None_2 by lia. done.
Qed.

Lemma real_events_single e x : e <> NONE -> real_events (ev e) x = ev e.
Proof. by destruct e. Qed.

(** [addEvent] finds or makes the context. *)
Lemma find_or_grow m fd : iinv m -> valid_fd fd ->
  exists a m1 c, (r ← find_context fd; match r with Some a => mret a | None => grow_context fd end) m = Ret a m1 /\
    iinv m1 /\ ctx_at m1 fd = Some (a, c) /\ base m1 = base m /\ forall fd' e', io_armed m1 fd' e' = io_armed m fd' e'.
Proof.
  intros Hi [Hfd0 Hfd1]. pose proof (ctx_at_spec m fd Hi Hfd0) as Hs. destruct (ctx_at m fd) as [[a c]|] eqn:Ec.
  { destruct Hs as (Ef & _). exists a, m, c. split; [by eapply bind_ret; [exact Ef|]|done]. }
  destruct Hs as (Ef & Hlen). pose proof (ii_size _ Hi) as Hsz.
  destruct (grow_context_spec fd m Hi ltac:(lia)) as (a & m1 & Eg & Hi1 & Er & Hv).
  destruct (ii_vector _ Hi1 _ _ Hv) as (a' & c & [= <-] & Hc & _).
  pose proof (grow_size fd ltac:(lia)) as Hgs. exists a, m1, c. split; [by eapply bind_ret; [exact Ef|]|].
  split; [done|]. split; [unfold ctx_at; destruct (fd <? 0) eqn:E0; to_prop; [lia|]; by rewrite Hv, Hc|].
  split; [|apply (armed_grow m m1 (fd * 3 / 2)); try done; lia].
  destruct (contextResize_spec (fd * 3 / 2) m (or_introl Hi) ltac:(lia)) as (m2 & E2 & _ & _ & Hb & _).
  rewrite Er in E2. by simplify_eq.
Qed.

Lemma io_add_law me f ok fd e m :
  iinv m -> in_this me = true -> valid_fd fd -> e <> NONE -> io_armed m fd e = None ->
  exists m', addEvent me f true ok fd e None m = Ret (if ok then 0 else -1) m' /\ iinv m' /\
    io_armed m' fd e = (if ok then Some (Task (Some f) None (tid me)) else None) /\
    all_tasks (base m') ≡ₚ all_tasks (base m) /\ armed_frame fd e m m'.
Proof.
  intros Hi Hin Hv Hn Ha. pose proof Hv as [Hfd0 _].
  destruct (find_or_grow m fd Hi Hv) as (a & m1 & c & E1 & Hi1 & Hc1 & Hb1 & Har1).
  pose proof (ctx_at_spec m1 fd Hi1 Hfd0) as Hs. rewrite Hc1 in Hs. destruct Hs as (_ & Ha1 & _).
  assert (He : has (events c) e = false).
  { rewrite <- Har1 in Ha. unfold io_armed in Ha. rewrite Hc1 in Ha. by destruct (has (events c) e). }
  destruct (addEvent_ctx_spec me f fd a e None m1 c Hi1 Hin Ha1 He Hn) as [E0 (m2 & E2 & Hi2 & Hfr & Hh & Hb2 & _)].
  unfold addEvent. destruct ok.
  - destruct (armed_registered m1 m2 fd a c e _ Hi1 Hfd0 Hc1 Hfr Hh Hn) as [Hx Hy].
    exists m2. split; [by eapply bind_seq; [exact E1|]|]. split; [done|]. split; [done|].
    split; [by rewrite Hb2, Hb1|]. intros fd' e' Hne. simpl. rewrite Hy by done. apply Har1.
  - exists m1. split; [by eapply bind_seq; [exact E1|]|]. split; [done|]. split; [by rewrite Har1|].
    split; [by rewrite Hb1|]. intros fd' e' _. apply Har1.
Qed.

Lemma io_cancel_law (me : thread) (ok : bool) (fd : Z) (e : Event) (m : IOManager) :
  iinv m -> 0 <= cur_worker_index me -> valid_fd fd ->
  match io_armed m fd e with
  | Some t => if ok then exists m', cancelEvent me ok fd e m = Ret true m' /\ disarmed fd e t m m'
              else cancelEvent me ok fd e m = Ret false m
  | None => cancelEvent me ok fd e m = Ret false m
  end.
Proof.
  intros Hi Hme [Hfd0 Hfd1]. pose proof (ctx_at_spec m fd Hi Hfd0) as Hs.
  unfold cancelEvent, on_context. unfold io_armed at 1. destruct (ctx_at m fd) as [[a c]|] eqn:Ec.
  2: { destruct Hs as (Ef & _). by eapply bind_ret; [exact Ef|]. }
  destruct Hs as (Ef & Ha & _). destruct (cancelEvent_ctx_spec me ok fd a e m c Hi Hme Ha) as [E0 E1].
  destruct (has (events c) e) eqn:He; [|eapply bind_ret; [exact Ef|]; apply E0; by left].
  destruct ok; [|eapply bind_ret; [exact Ef|]; apply E0; by right].
  destruct (E1 eq_refl eq_refl) as (m' & E2 & Hi' & Hfr & Hh & _ & Hq & _).
  destruct (armed_update m m' fd a c e Hi Hfd0 Ec Hfr Hh) as [Hx Hy].
  exists m'. split; [by eapply bind_ret; [exact Ef|]|]. by split_and!.
Qed.

Lemma io_ready_law (me : thread) (ok : bool) (fd : Z) (e : Event) (m : IOManager) :
  iinv m -> 0 <= cur_worker_index me -> valid_fd fd ->
  match io_armed m fd e with
  | Some t => if ok then exists m', io_ready me ok fd e m = Ret tt m' /\ disarmed fd e t m m'
              else io_ready me ok fd e m = Ret tt m
  | None => io_ready me ok fd e m = Ret tt m
  end.
Proof.
  intros Hi Hme [Hfd0 Hfd1]. pose proof (ctx_at_spec m fd Hi Hfd0) as Hs.
  unfold io_ready. unfold io_armed at 1. destruct (ctx_at m fd) as [[a c]|] eqn:Ec.
  2: { destruct Hs as (Ef & _). by eapply bind_ret; [exact Ef|]. }
  destruct Hs as (Ef & Ha & Hf). destruct (decide (e = NONE)) as [->|Hn].
  { rewrite has_NONE. eapply bind_ret; [exact Ef|]. unfold handle_ready. eapply bind_ret; [by apply context_eq|].
    simpl ev. change (real_events 0 (events c)) with 0. by rewrite Z.land_0_r. }
  destruct (has (events c) e) eqn:He.
  - assert (Hrep : reported_ok (ev e) c).
    { intros e'. rewrite real_events_single by done. by intros ->%has_ev. }
    destruct (handle_ready_spec me ok a (ev e) m c Hi Hme Ha Hrep) as [E0 E1].
    rewrite real_events_single in E0, E1 by done.
    destruct ok; [|eapply bind_ret; [exact Ef|]; apply E0; by right].
    destruct (E1 ltac:(unfold has in He; to_prop; done) eq_refl) as (m' & E2 & Hi' & Hfr & Hh & _ & Hq & _).
    rewrite <- fired_as_set in Hh by done.
    destruct (armed_update m m' fd a c e Hi Hfd0 Ec Hfr Hh) as [Hx Hy].
    exists m'. split; [by eapply bind_ret; [exact Ef|]|]. split_and!; try done.
    rewrite Hq. by destruct e.
  - eapply bind_ret; [exact Ef|]. unfold handle_ready. eapply bind_ret; [by apply context_eq|].
    rewrite real_events_single by done. unfold has in He. apply negb_false_iff in He. by rewrite He.
Qed.

#[export] Instance io_service_laws : EventServiceLaws IOManager.
Proof. split; [exact io_add_law|exact io_cancel_law|exact io_ready_law]. Qed.

(** ** Runs of a hooked read *)

(** Fiber 7 of worker 11 reads from descriptor 5 with a timeout of 10 ms. *)
Abbreviation read_step := (call_step (S := IOManager) worker11 7 5 READ 10).

Definition call_after (o : outcome (iocall IOManager) unit) (c : iocall IOManager) : iocall IOManager :=
  if o is Ret _ c' then c' else c.

Definition would_block : iocall IOManager := start_timer 10 (attempt (-1) EAGAIN (call_start fresh_io)).

(** The timer goes off after the registration ... *)
Definition waiting_read : iocall IOManager := call_after (register worker11 7 5 READ true 0 would_block) would_block.
Definition timing_out : iocall IOManager := expire waiting_read.

(** ... or before it. *)
Definition expired_early : iocall IOManager := call_after (on_timeout 5 READ thread10 true (expire would_block)) would_block.
Definition lost : iocall IOManager := call_after (register worker11 7 5 READ true 0 expired_early) expired_early.

Lemma fresh_io_inv : iinv fresh_io.
Proof. apply (io_start_wf two_workers (init_manager [] 0) two_workers_wf eq_refl). Qed.

Lemma fresh_io_unarmed : armed fresh_io 5 READ = None.
Proof. vm_compute. reflexivity. Qed.

Lemma fd5_valid : valid_fd 5.
Proof. split; lia. Qed.

Lemma would_block_run data : rtc (read_step data) (call_start fresh_io) would_block.
Proof.
  eapply rtc_l; [apply (cs_attempt _ _ _ _ _ _ _ (-1) EAGAIN); reflexivity|].
  eapply rtc_once. apply cs_timer. reflexivity.
Qed.

Lemma timing_out_run data : rtc (read_step data) (call_start fresh_io) timing_out.
Proof.
  etrans; [apply would_block_run|]. eapply rtc_l.
  { apply (cs_register _ _ _ _ _ _ would_block true 0 waiting_read); [reflexivity|vm_compute; reflexivity]. }
  eapply rtc_once. apply cs_expire. vm_compute. reflexivity.
Qed.

Lemma lost_run data : rtc (read_step data) (call_start fresh_io) lost.
Proof.
  etrans; [apply would_block_run|].
  eapply rtc_l; [apply cs_expire; reflexivity|]. eapply rtc_l.
  { apply (cs_timeout _ _ _ _ _ _ (expire would_block) thread10 true expired_early);
      [vm_compute; lia|done|vm_compute; reflexivity]. }
  eapply rtc_once.
  apply (cs_register _ _ _ _ _ _ expired_early true 0 lost); [vm_compute; reflexivity|vm_compute; reflexivity].
Qed.

(** A timeout can be lost.  [do_io] starts its timer before it registers the
    event; when the timer's callback runs on another worker in between, it marks
    the call as timed out and cancels nothing, and the fiber then registers and
    yields.  In the state reached this way no timer is left, and unless data
    arrives the fiber stays suspended whatever else happens, although the
    descriptor has a receive timeout. *)
Theorem do_io_timeout_can_be_lost :
  rtc (read_step true) (call_start fresh_io) lost /\
  pc lost = Parked /\ cnacelled lost = ETIMEDOUT /\ timer_on lost = false /\ in_flight lost = 0%nat /\
  forall c, rtc (read_step false) lost c -> pc c = Parked.
Proof.
  split; [apply lost_run|]. do 4 (split; [vm_compute; reflexivity|]).
  intros c Hr. assert (Hs : stuck worker11 7 5 READ lost).
  { destruct (cinv_reachable worker11 7 5 READ 10 eq_refl fd5_valid ltac:(discriminate) true fresh_io lost
      fresh_io_inv fresh_io_unarmed (lost_run true)) as [Hi _].
    split; [exact Hi|]. do 3 (split; [vm_compute; reflexivity|]). vm_compute. discriminate. }
  by destruct (stuck_forever worker11 7 5 READ 10 lost c Hs Hr) as (_ & ? & _).
Qed.

(** ** Witnesses *)

Lemma do_io_resumed_exactly_once_witness :
  (armed (svc timing_out) 5 READ = Some (my_task worker11 7) /\ wakeups timing_out = 0%nat) \/
  (armed (svc timing_out) 5 READ = None /\ wakeups timing_out = 1%nat).
Proof.
  exact (do_io_resumed_exactly_once worker11 7 5 READ 10 eq_refl fd5_valid ltac:(discriminate)
    true fresh_io timing_out fresh_io_inv fresh_io_unarmed (timing_out_run true)).
Defined.

Lemma do_io_times_out_witness : exists c1, on_timeout 5 READ thread10 true timing_out = Ret tt c1 /\
  pc (come_back (resume c1)) = Done (-1) ETIMEDOUT.
Proof.
  destruct (do_io_times_out worker11 7 5 READ 10 eq_refl fd5_valid ltac:(discriminate)
    fresh_io timing_out thread10 fresh_io_inv fresh_io_unarmed (timing_out_run true)) as (c1 & H1 & _ & _ & H2 & _);
    [vm_compute; reflexivity|vm_compute; reflexivity|vm_compute; reflexivity|vm_compute; lia|vm_compute; discriminate|].
  exists c1. split; [exact H1|exact H2].
Defined.
