(* ===== verification/HookCalls.v ===== *)
(** * The hooked calls as a whole (src/hook.cpp)

    [connect_with_timeout] as a state machine over the same event service as
    [do_io]; the sleeping hooks with their timer and resumption; the table of
    the calls behind [do_io]; the full dispatch of [fcntl], [ioctl] and
    [setsockopt]; and [close] with the cancellation of the descriptor's events. *)

From S2P Require Import Prelude Scheduler IOManager FdManager Hook.

(** ** Connecting *)

Section connect.
Context {S : Type} `{EventService S}.

(** The fiber [cur] on the worker [me] connects [fd]. *)
Context (me : thread) (cur fd : Z) (timeout_ms : Z).

(** The first [connect_f]. *)
Definition connect_attempt (n err : Z) (c : iocall S) : iocall S :=
  match connect_first n err with
  | Some (r, e) => at_ (Done r e) c
  | None => at_ Timing c
  end.

(** [addEvent]; a failure goes on to the socket's error. *)
Definition connect_register (ok : bool) (c : iocall S) : outcome (iocall S) unit :=
  match svc_add me cur ok fd WRITE (svc c) with
  | Ret rt s' =>
      let c' := IOCall s' (pc c) (cnacelled c) (timer_on c) (in_flight c) (wakeups c) in
      Ret tt (if rt =? 0 then at_ Parked c' else at_ Checking (stop_timer c'))
  | Throw e s' => Throw e (IOCall s' (pc c) (cnacelled c) (timer_on c) (in_flight c) (wakeups c))
  | Crash w => Crash w
  end.

(** After the yield *)
Definition connect_back (c : iocall S) : iocall S :=
  let c := stop_timer c in
  if negb (cnacelled c =? 0) then at_ (Done (-1) (cnacelled c)) c else at_ Checking c.

(** [getsockopt(SO_ERROR)] answered. *)
Definition connect_result (so_error : option Z) (err : Z) (c : iocall S) : iocall S :=
  let '(n, e) := connect_check so_error err in at_ (Done n e) c.

(** A step of the fiber ([true]) or of its surroundings. *)
Inductive connect_step : bool -> iocall S -> iocall S -> Prop :=
| cn_attempt c n err : pc c = Trying -> connect_step true c (connect_attempt n err c)
| cn_timer c : pc c = Timing -> connect_step true c (start_timer timeout_ms c)
| cn_register c ok c' : pc c = Adding -> connect_register ok c = Ret tt c' -> connect_step true c c'
| cn_resume c : pc c = Parked -> (0 < wakeups c)%nat -> connect_step true c (resume c)
| cn_back c : pc c = Back -> connect_step true c (connect_back c)
| cn_check c so_error err : pc c = Checking -> connect_step true c (connect_result so_error err c)
| cn_expire c : timer_on c = true -> connect_step false c (expire c)
| cn_timeout c w ok c' : (0 < in_flight c)%nat -> 0 <= cur_worker_index w ->
    on_timeout fd WRITE w ok c = Ret tt c' -> connect_step false c c'
| cn_ready c w ok c' : 0 <= cur_worker_index w -> on_ready fd WRITE w ok c = Ret tt c' -> connect_step false c c'
| cn_other c s' : svc_inv s' -> armed s' fd WRITE = armed (svc c) fd WRITE ->
    connect_step false c (IOCall s' (pc c) (cnacelled c) (timer_on c) (in_flight c) (wakeups c)).

End connect.

(** [connect]: [s_connect_timeout] after the static initialisation. *)
Definition s_connect_timeout : Z := 5000.

(** ** Sleeping *)

Inductive sleep_fn : Type :=
| Sleep (seconds : Z)
| Usleep (usec : Z)
| Nanosleep (tv_sec tv_nsec : Z).

(** What a sleeping hook does first: the original function, nothing, or a timer
    with this delay. *)
Inductive sleep_plan : Type := SleepDirect | SleepNot | SleepTimer (delay : Z).

Definition sleep_hook (t_hook_enable : bool) (f : sleep_fn) : sleep_plan :=
  if negb t_hook_enable then SleepDirect
  else match f with
       | Sleep s => SleepTimer (sleep_ms s)
       | Usleep us => if us =? 0 then SleepNot else SleepTimer (usleep_ms us)
       | Nanosleep s ns => SleepTimer (nanosleep_ms s ns)
       end.

(** The value returned; [direct] is that of the original function. *)
Definition sleep_returns (plan : sleep_plan) (f : sleep_fn) (direct : Z) : Z :=
  match plan, f with
  | SleepDirect, Usleep _ => 0
  | SleepDirect, _ => direct
  | _, _ => 0
  end.

Inductive sleep_pc : Type := SAdd | SYield | SParked | SReturned.

(** A sleeping fiber: the clock, the timer's deadline while it is in the
    manager, callbacks handed to the scheduler and not run, and the threads on
    which [scheduler(fiber, thread)] has queued the fiber. *)
Record sleeper := Sleeper {
  clock : Z;
  sl_pc : sleep_pc;
  sl_timer : option Z;
  sl_flight : nat;
  sl_queued : list Z }.

(** [thread_id] is the sleeper's thread and [delay] what it gave to [addTimer]. *)
Inductive sleep_step (thread_id delay : Z) : sleeper -> sleeper -> Prop :=
| sl_add now : sleep_step thread_id delay (Sleeper now SAdd None 0 [])
    (Sleeper now SYield (Some (u64 (now + delay))) 0 [])
| sl_yield now t n q : sleep_step thread_id delay (Sleeper now SYield t n q) (Sleeper now SParked t n q)
| sl_expire now pc d n q : d <= now ->
    sleep_step thread_id delay (Sleeper now pc (Some d) n q) (Sleeper now pc None (S n) q)
| sl_callback now pc t n q :
    sleep_step thread_id delay (Sleeper now pc t (S n) q) (Sleeper now pc t n (q ++ [thread_id]))
| sl_resume now t n q :
    sleep_step thread_id delay (Sleeper now SParked t n (thread_id :: q)) (Sleeper now SReturned t n q)
| sl_time now now' pc t n q : now <= now' ->
    sleep_step thread_id delay (Sleeper now pc t n q) (Sleeper now' pc t n q).

(** ** The calls behind [do_io] *)

Inductive io_fn : Type :=
| Accept | Read | Readv | Recv | Recvfrom | Recvmsg | Write | Writev | Send | Sendto | Sendmsg.

(** The event and the timeout option each wrapper passes. *)
Definition io_args (f : io_fn) : Event * Z :=
  match f with
  | Accept | Read | Readv | Recv | Recvfrom | Recvmsg => (READ, SO_RCVTIMEO)
  | Write | Writev | Send | Sendto | Sendmsg => (WRITE, SO_SNDTIMEO)
  end.

(** ** Dispatch of the configuration calls *)

Definition F_DUPFD : Z := 0.
Definition F_GETFD : Z := 1.
Definition F_SETFD : Z := 2.
Definition F_GETLK : Z := 5.
Definition F_SETLK : Z := 6.
Definition F_SETLKW : Z := 7.
Definition F_SETOWN : Z := 8.
Definition F_GETOWN : Z := 9.
Definition F_SETSIG : Z := 10.
Definition F_GETSIG : Z := 11.
Definition F_SETOWN_EX : Z := 15.
Definition F_GETOWN_EX : Z := 16.
Definition F_OFD_GETLK : Z := 36.
Definition F_OFD_SETLK : Z := 37.
Definition F_OFD_SETLKW : Z := 38.
Definition F_SETLEASE : Z := 1024.
Definition F_GETLEASE : Z := 1025.
Definition F_NOTIFY : Z := 1026.
Definition F_DUPFD_CLOEXEC : Z := 1030.
Definition F_SETPIPE_SZ : Z := 1031.
Definition F_GETPIPE_SZ : Z := 1032.
Definition F_ADD_SEALS : Z := 1033.
Definition F_GET_SEALS : Z := 1034.
Definition FIONBIO : Z := 21537.
Definition SOL_SOCKET : Z := 1.

Definition int_commands : list Z :=
  [F_DUPFD; F_DUPFD_CLOEXEC; F_SETFD; F_SETOWN; F_SETSIG; F_SETLEASE; F_NOTIFY; F_SETPIPE_SZ].
Definition plain_commands : list Z := [F_GETFD; F_GETOWN; F_GETSIG; F_GETLEASE; F_GETPIPE_SZ].
Definition pointer_commands : list Z := [F_SETLK; F_SETLKW; F_GETLK; F_GETOWN_EX; F_SETOWN_EX].

(** The value a caller of [setsockopt] passes. *)
Inductive optval : Type := Timeval (tv_sec tv_usec : Z) | Bytes (b : list Z).

(** The remaining original functions; the third argument of [k_fcntl] is the
    one handed on, [None] when the hook passes none. *)
Class KernelCalls (K : Type) := {
  k_fcntl : K -> Z -> Z -> option Z -> Z * K;
  k_ioctl : K -> Z -> Z -> Z -> Z * K;
  k_getsockopt : K -> Z -> Z -> Z -> Z * list Z;
  k_setsockopt : K -> Z -> Z -> Z -> optval -> Z * K }.

Section dispatch.
Context {K : Type} `{Kernel K} `{KernelCalls K}.

(** [arg] is the third argument of the caller, 64 bits wide. *)
Definition fcntl (fd cmd arg : Z) : M (process K) Z :=
  if cmd =? F_SETFL then fcntl_setfl fd (i32 arg)
  else if cmd =? F_GETFL then fcntl_getfl fd
  else if bool_decide (cmd ∈ int_commands) then call (fun k => k_fcntl k fd cmd (Some (i32 arg)))
  else if bool_decide (cmd ∈ plain_commands) then call (fun k => k_fcntl k fd cmd None)
  else if bool_decide (cmd ∈ pointer_commands) then call (fun k => k_fcntl k fd cmd (Some arg))
  else call (fun k => k_fcntl k fd cmd None).

(** [ioctl]; [value] is the [int] that [arg] points to, read for FIONBIO only. *)
Definition ioctl (d request arg value : Z) : M (process K) Z :=
  if request =? FIONBIO then ioctl_fionbio d (negb (value =? 0))
  else call (fun k => k_ioctl k d request arg).

Definition getsockopt (sockfd level optname : Z) : M (process K) (Z * list Z) :=
  gets (fun p => k_getsockopt (kern p) sockfd level optname).

Definition setsockopt (t_hook_enable : bool) (sockfd level optname : Z) (v : optval) : M (process K) Z :=
  if negb t_hook_enable then call (fun k => k_setsockopt k sockfd level optname v)
  else
    (if level =? SOL_SOCKET then
       if (optname =? SO_RCVTIMEO) || (optname =? SO_SNDTIMEO) then
         match v with
         | Timeval s us => setsockopt_timeout sockfd optname s us
         | Bytes _ => r ← FdManager_get sockfd false; if r is Some _ then stop (Undefined "optval") else mret tt
         end
       else mret tt
     else mret tt);;
    call (fun k => k_setsockopt k sockfd level optname v).

(** [socket] and [close] with the switch of the thread. *)
Definition socket (t_hook_enable : bool) : M (process K) Z :=
  if negb t_hook_enable then call k_socket else hook_socket.

(** What a wrapper does with the descriptor first. *)
Definition io_route (t_hook_enable : bool) (f : io_fn) (fd : Z) : M (process K) route :=
  if negb t_hook_enable then mret Direct
  else
    r ← FdManager_get fd false;
    match r with
    | None => mret (do_io_route true None (io_args f).2)
    | Some a => c ← the_ctx a; mret (do_io_route true (Some c) (io_args f).2)
    end.

(** [accept], once [do_io] has answered [fd]. *)
Definition accept_done (fd : Z) : M (process K) Z :=
  (if fd >=? 0 then _ ← FdManager_get fd true; mret tt else mret tt);; mret fd.

(** [close]: [iom] is the calling worker when its thread has an I/O manager,
    [ok] the answer of [epoll_ctl]. *)
Definition close (t_hook_enable : bool) (iom : option thread) (ok : bool) (fd : Z) : M (IOManager * process K) Z :=
  let on_proc {A} (m : M (process K) A) := zoom (fun s => s.2) (fun p s => (s.1, p)) m in
  let on_iom {A} (m : M IOManager A) := zoom (fun s => s.1) (fun m s => (m, s.2)) m in
  if negb t_hook_enable then on_proc (call (fun k => k_close k fd))
  else
    ctx ← on_proc (FdManager_get fd false);
    (if ctx is Some _ then
       (if iom is Some me then _ ← on_iom (cancelAll me ok fd); mret tt else mret tt);;
       on_proc (FdManager_del fd)
     else mret tt);;
    on_proc (call (fun k => k_close k fd)).

End dispatch.
