(* ===== verification/HookCallsProofs.v ===== *)
(** * Properties of the hooked calls

    [connect] waits once and returns; a sleep ends once and not early; the
    configuration calls reach the kernel as the program made them, with the
    exceptions the theorems name; [close] wakes whoever waits for the
    descriptor. *)

From S2P Require Import Prelude Timer Scheduler SchedulerProofs IOManager IOManagerProofs IOManagerTheorems FdManager FdManagerProofs Hook HookProofs HookService HookCalls.

(** ** Connecting *)

Section connect.
Context {S : Type} {ES : EventService S} {L : EventServiceLaws S}.
Context (me : thread) (cur fd timeout_ms : Z).
Context (Hme : in_this me = true) (Hfd : valid_fd fd).

Abbreviation cn_inv := (cinv me cur fd WRITE).
Abbreviation cn_step := (connect_step me cur fd timeout_ms).

Lemma connect_register_cinv ok c c' :
  cn_inv c -> pc c = Adding -> connect_register me cur fd ok c = Ret tt c' -> cn_inv c'.
Proof using L Hme Hfd.
  intros [Hi Hb] Hp E. unfold balanced in Hb. rewrite Hp in Hb. destruct Hb as [Ha Hw].
  destruct (add_law me cur ok fd WRITE (svc c) Hi Hme Hfd ltac:(done) Ha) as (s' & Ea & Hi' & Ha' & _).
  unfold connect_register in E. rewrite Ea in E. simplify_eq. destruct ok; (split; [done|]); unfold balanced; simpl.
  - by left.
  - done.
Qed.

Lemma connect_step_cinv b c c' : cn_step b c c' -> cn_inv c -> cn_inv c'.
Proof using L Hme Hfd.
  intros Hs Hc. pose proof Hc as [Hi Hb]. unfold balanced in Hb.
  destruct Hs as [c n err Hp|c Hp|c ok c' Hp E|c Hp Hw|c Hp|c so err Hp|c Ht|c w ok c' Hf Hw E|c w ok c' Hw E|c s' Hi' Ha'].
  - rewrite Hp in Hb. unfold connect_attempt. destruct (connect_first n err) as [[r e]|]; by split.
  - rewrite Hp in Hb. by split.
  - by eapply connect_register_cinv.
  - rewrite Hp in Hb. destruct Hb as [[_ Hz]|[Ha Hz]]; [lia|]. split; [done|]. unfold balanced. simpl. by rewrite Hz.
  - rewrite Hp in Hb. unfold connect_back. simpl. destruct (negb (cnacelled c =? 0)); by split.
  - rewrite Hp in Hb. unfold connect_result. destruct (connect_check so err). by split.
  - by split.
  - by eapply timeout_cinv.
  - by eapply ready_cinv.
  - split; [done|]. unfold balanced in *. simpl. by rewrite Ha'.
Qed.

(** How far a call is from its end. *)
Definition rank (x : iopc) : nat :=
  match x with
  | Trying => 6 | Timing => 5 | Adding => 4 | Parked => 3 | Back => 2 | Checking => 1
  | Done _ _ => 0
  end.

(** A step of the fiber comes nearer to the end; the others leave it where it is. *)
Lemma connect_step_rank b c c' :
  cn_step b c c' -> if b then (rank (pc c') < rank (pc c))%nat else pc c' = pc c.
Proof using.
  intros Hs. destruct Hs as [c n err Hp|c Hp|c ok c' Hp E|c Hp Hw|c Hp|c so err Hp|c Ht|c w ok c' Hf Hw E|c w ok c' Hw E|c s' Hi' Ha'].
  - rewrite Hp. unfold connect_attempt. destruct (connect_first n err) as [[r e]|]; simpl; lia.
  - rewrite Hp. simpl. lia.
  - rewrite Hp. unfold connect_register in E. destruct (svc_add _ _ _ _ _ _) as [rt s'| |]; simplify_eq.
    destruct (rt =? 0); simpl; lia.
  - rewrite Hp. simpl. lia.
  - rewrite Hp. unfold connect_back. simpl. destruct (negb (cnacelled c =? 0)); simpl; lia.
  - rewrite Hp. unfold connect_result. destruct (connect_check so err). simpl. lia.
  - done.
  - unfold on_timeout in E. simpl in E. destruct (returned _ || _); [by simplify_eq|].
    destruct (svc_cancel _ _ _ _ _) as [b s'| |]; by simplify_eq.
  - unfold on_ready in E. destruct (svc_ready _ _ _ _ _) as [b s'| |]; by simplify_eq.
  - done.
Qed.

(** A run, with the number of steps the fiber itself makes. *)
Inductive connect_run : nat -> iocall S -> iocall S -> Prop :=
| cr_nil c : connect_run 0 c c
| cr_step b n c c' c'' : cn_step b c c' -> connect_run n c' c'' -> connect_run (if b then Datatypes.S n else n) c c''.

Lemma connect_run_inv n c c' : connect_run n c c' -> cn_inv c -> cn_inv c' /\ (n + rank (pc c') <= rank (pc c))%nat.
Proof using L Hme Hfd.
  induction 1 as [c|b n c c' c'' Hs Hr IH]; intros Hc; [split; [done|lia]|].
  destruct (IH (connect_step_cinv b c c' Hs Hc)) as [Hc' Hn]. split; [done|].
  pose proof (connect_step_rank b c c' Hs) as Hk. destruct b; [lia|]. rewrite <- Hk. done.
Qed.

(** While the call is not over the fiber can go on, or waits with its event
    registered. *)
Lemma connect_progress c :
  cn_inv c -> match pc c with
  | Done _ _ => True
  | Parked => armed (svc c) fd WRITE = Some (my_task me cur) \/ exists c', cn_step true c c'
  | _ => exists c', cn_step true c c'
  end.
Proof using L Hme Hfd.
  intros [Hi Hb]. unfold balanced in Hb. destruct (pc c) eqn:Hp.
  - exists (connect_attempt 0 0 c). by constructor.
  - eexists. by apply cn_timer.
  - destruct Hb as [Ha _].
    destruct (add_law me cur true fd WRITE (svc c) Hi Hme Hfd ltac:(done) Ha) as (s' & Ea & _).
    eexists. apply (cn_register _ _ _ _ c true); [done|]. unfold connect_register. by rewrite Ea.
  - destruct Hb as [[? _]|[_ Hw]]; [by left|]. right. eexists. apply cn_resume; [done|lia].
  - eexists. by apply cn_back.
  - eexists. by apply (cn_check _ _ _ _ c (Some 0) 0).
  - done.
Qed.

(** C33. A hooked [connect] waits at most once and ends.  Through every
    interleaving of the fiber with its timer, the epoll workers and other users
    of the manager: the fiber makes at most six steps of its own; while it is
    suspended it is either registered or has exactly one resumption on its way,
    and otherwise its event is not registered and no resumption is outstanding;
    as long as the call has not returned, the fiber can take a step or waits
    with its event registered. *)
Theorem connect_waits_once n s c :
  svc_inv s -> armed s fd WRITE = None -> connect_run n (call_start s) c ->
  (n <= 6)%nat /\
  match pc c with
  | Parked => (armed (svc c) fd WRITE = Some (my_task me cur) /\ wakeups c = 0%nat) \/
              (armed (svc c) fd WRITE = None /\ wakeups c = 1%nat /\ exists c', cn_step true c c')
  | Done _ _ => armed (svc c) fd WRITE = None /\ wakeups c = 0%nat
  | _ => armed (svc c) fd WRITE = None /\ wakeups c = 0%nat /\ exists c', cn_step true c c'
  end.
Proof using L Hme Hfd.
  intros Hi Ha Hr. assert (cn_inv (call_start s)) as H0 by by split.
  destruct (connect_run_inv n _ c Hr H0) as [Hc Hn]. simpl in Hn. split; [lia|].
  pose proof (connect_progress c Hc) as Hp. destruct Hc as [_ Hb]. unfold balanced in Hb.
  destruct (pc c); try (destruct Hb; by split_and!); try done.
  destruct Hb as [Hb|[Hb1 Hb2]]; [by left|right]. split_and!; [done|done|].
  destruct Hp as [Hp|Hp]; [congruence|done].
Qed.

End connect.

(** ** Sleeping *)

Definition sleep_started (now delay : Z) : sleeper := Sleeper now SYield (Some (u64 (now + delay))) 0 [].

(** The one thing that will wake the fiber: its timer, the timer's callback, or
    the queued resumption. *)
Definition one_waker (thread_id deadline : Z) (x : sleeper) : Prop :=
  (sl_timer x = Some deadline /\ sl_flight x = 0%nat /\ sl_queued x = []) \/
  (sl_timer x = None /\ sl_flight x = 1%nat /\ sl_queued x = [] /\ deadline <= clock x) \/
  (sl_timer x = None /\ sl_flight x = 0%nat /\ sl_queued x = [thread_id] /\ deadline <= clock x).

Definition sleep_inv (thread_id deadline : Z) (x : sleeper) : Prop :=
  match sl_pc x with
  | SAdd => False
  | SYield | SParked => one_waker thread_id deadline x
  | SReturned => sl_timer x = None /\ sl_flight x = 0%nat /\ sl_queued x = [] /\ deadline <= clock x
  end.

Lemma sleep_step_inv thread_id delay deadline x y :
  sleep_step thread_id delay x y -> sleep_inv thread_id deadline x -> sleep_inv thread_id deadline y.
Proof.
  unfold sleep_inv, one_waker. intros Hs. destruct Hs as [now|now t n q|now pc d n q Hd|now pc t n q|now t n q|now now' pc t n q Hn]; simpl.
  - done.
  - done.
  - destruct pc; naive_solver lia.
  - destruct pc; [done| | |naive_solver];
      (intros [(-> & [=] & _)|[(-> & [= ->] & -> & Hd)|(_ & [=] & _)]]; right; right; done).
  - naive_solver.
  - destruct pc; naive_solver lia.
Qed.

Lemma sleep_can_end thread_id delay deadline x :
  sleep_inv thread_id deadline x -> exists y, rtc (sleep_step thread_id delay) x y /\ sl_pc y = SReturned.
Proof.
  intros Hx. destruct x as [now pc t n q]. unfold sleep_inv in Hx. simpl in Hx.
  assert (forall now t n q, one_waker thread_id deadline (Sleeper now SParked t n q) ->
    exists y, rtc (sleep_step thread_id delay) (Sleeper now SParked t n q) y /\ sl_pc y = SReturned) as Hp.
  { clear now pc t n q Hx. intros now t n q Hx. unfold one_waker in Hx; simpl in Hx.
    assert (forall now, rtc (sleep_step thread_id delay) (Sleeper now SParked None 1 []) (Sleeper now SReturned None 0 [])) as Hf.
    { intros now'. eapply rtc_l; [apply sl_callback|]. simpl. apply rtc_once. apply sl_resume. }
    destruct Hx as [(-> & -> & ->)|[(-> & -> & -> & Hd)|(-> & -> & -> & Hd)]].
    - eexists. split; [|shelve]. eapply rtc_l; [apply (sl_time _ _ now (Z.max now deadline)); lia|].
      eapply rtc_l; [apply sl_expire; lia|]. apply Hf. Unshelve. done.
    - eexists. split; [apply Hf|done].
    - eexists. split; [apply rtc_once, sl_resume|done]. }
  destruct pc; [done| | |].
  - destruct (Hp now t n q Hx) as (y & Hr & Hy). exists y. split; [|done]. eapply rtc_l; [apply sl_yield|done].
  - by apply Hp.
  - eexists. split; [apply rtc_refl|done].
Qed.

(** A hooked sleep ends exactly once and not early.  After [addTimer] with
    the hook's delay, in every interleaving of the fiber, the clock, the expiry
    of the timer and the worker that runs its callback: until the fiber has
    returned there is exactly one thing that will wake it and it can still
    return; when it has returned, nothing is left to wake it again and the delay
    is over. *)
Theorem hooked_sleep_ends_once thread_id now delay x :
  0 <= now -> 0 <= delay -> now + delay < 2 ^ 64 ->
  rtc (sleep_step thread_id delay) (sleep_started now delay) x ->
  (sl_pc x <> SReturned -> one_waker thread_id (now + delay) x) /\
  (sl_pc x = SReturned -> sl_timer x = None /\ sl_flight x = 0%nat /\ sl_queued x = [] /\ now + delay <= clock x) /\
  (exists y, rtc (sleep_step thread_id delay) x y /\ sl_pc y = SReturned).
Proof.
  intros Hn Hd Hb Hr.
  assert (sleep_inv thread_id (now + delay) x) as Hx.
  { refine (rtc_invariant _ _ (sleep_step_inv thread_id delay (now + delay)) _ _ Hr _).
    left. simpl. rewrite u64_small by lia. done. }
  split_and!.
  - unfold sleep_inv in Hx. intros Hp. by destruct (sl_pc x).
  - unfold sleep_inv in Hx. intros Hp. by rewrite Hp in Hx.
  - by eapply sleep_can_end.
Qed.

(** ** Configuration *)

(** What [fcntl(2)] documents for a command: the third argument it takes. *)
Inductive arg_kind : Type := NoArg | IntArg | PtrArg.
#[export] Instance arg_kind_eq_dec : EqDecision arg_kind.
Proof. solve_decision. Defined.

Definition documented : list (Z * arg_kind) :=
  [(F_DUPFD, IntArg); (F_DUPFD_CLOEXEC, IntArg); (F_GETFD, NoArg); (F_SETFD, IntArg);
   (F_SETLK, PtrArg); (F_SETLKW, PtrArg); (F_GETLK, PtrArg);
   (F_OFD_SETLK, PtrArg); (F_OFD_SETLKW, PtrArg); (F_OFD_GETLK, PtrArg);
   (F_GETOWN, NoArg); (F_SETOWN, IntArg); (F_GETOWN_EX, PtrArg); (F_SETOWN_EX, PtrArg);
   (F_GETSIG, NoArg); (F_SETSIG, IntArg); (F_SETLEASE, IntArg); (F_GETLEASE, NoArg); (F_NOTIFY, IntArg);
   (F_SETPIPE_SZ, IntArg); (F_GETPIPE_SZ, NoArg); (F_ADD_SEALS, IntArg); (F_GET_SEALS, NoArg)].

Definition dropped_arg : list Z := [F_OFD_SETLK; F_OFD_SETLKW; F_OFD_GETLK; F_ADD_SEALS].

Section dispatch.
Context {K : Type} `{KernelLaws K} `{KernelCalls K}.
Implicit Types (p : process K).

(** The call without the hook. *)
Definition plain_fcntl (fd cmd : Z) (kd : arg_kind) (arg : Z) : M (process K) Z :=
  call (fun k => k_fcntl k fd cmd (match kd with
                                   | NoArg => None
                                   | IntArg => Some (i32 arg)
                                   | PtrArg => Some arg
                                   end)).

(** Every documented command of [fcntl] other than F_GETFL and F_SETFL
    passes the hook unchanged, except F_OFD_SETLK, F_OFD_SETLKW, F_OFD_GETLK and
    F_ADD_SEALS: they end in the default case, which hands the command on
    without the caller's argument. *)
Theorem fcntl_is_transparent fd cmd kd arg :
  (cmd, kd) ∈ documented ->
  fcntl fd cmd arg = plain_fcntl fd cmd (if decide (cmd ∈ dropped_arg) then NoArg else kd) arg.
Proof using.
  intros Hin. unfold documented in Hin.
  repeat (apply elem_of_cons in Hin as [[= -> ->]|Hin]; [reflexivity|]). by apply not_elem_of_nil in Hin.
Qed.

(** The route of a wrapper whose descriptor has a context. *)
Lemma io_route_spec p f fd a c :
  -1 <= fd -> known p fd = Some a -> contexts p !! a = Some c ->
  io_route true f fd p = Ret (do_io_route true (Some c) (io_args f).2) p.
Proof using.
  intros Hfd Hk Hc. unfold io_route. simpl. eapply bind_ret; [by apply get_lookup_spec|]. rewrite Hk.
  unfold the_ctx. run. by rewrite Hc.
Qed.

(** Socket timeouts reach the waits.  After [setsockopt] of SO_RCVTIMEO (or
    SO_SNDTIMEO) on a managed socket, every hooked call of that direction waits
    with the timeout that was set, rounded down to milliseconds, and the calls
    of the other direction keep theirs. *)
Theorem timeouts_reach_the_waits k p fd a c o s us f :
  rtc hook_step (FdManager_new k) p -> managed p fd a c -> m_userNonblock c = false ->
  o = SO_RCVTIMEO \/ o = SO_SNDTIMEO -> 0 <= s < 2 ^ 50 -> 0 <= us < 1000000 ->
  exists r p', setsockopt true fd SOL_SOCKET o (Timeval s us) p = Ret r p' /\
    io_route true f fd p' =
      Ret (Managed (if (io_args f).2 =? o then s * 1000 + us / 1000 else getTimeout (io_args f).2 c)) p'.
Proof using All.
  intros Hi%pinv_reachable (Hk & Hc & Hsock) Hub Ho Hs Hus.
  destruct (known_ctx _ _ _ Hi Hk) as (Hfd & _ & c2 & Hc2 & (_ & Hcl & _)). simplify_eq.
  destruct (setsockopt_spec p fd o s us Hi ltac:(lia)) as (p1 & E & Hi1 & Hnew).
  destruct (Hnew a c Hk Hc) as [Hk1 Hc1].
  destruct (k_setsockopt (kern p1) fd SOL_SOCKET o (Timeval s us)) as [r k'] eqn:Ek.
  exists r, (set_kern k' p1). split.
  - unfold setsockopt. simpl. assert ((o =? SO_RCVTIMEO) || (o =? SO_SNDTIMEO) = true) as -> by by destruct Ho as [-> | ->].
    eapply bind_ret; [exact E|]. unfold call. by rewrite Ek.
  - rewrite (io_route_spec _ f fd a (setTimeout o (u64 (s * 1000 + Z.quot us 1000)) c)); [|lia|done|done].
    rewrite Z.quot_div_nonneg by lia.
    assert (0 <= us / 1000 < 1000) by (split; [apply Z.div_pos; lia|apply Z.div_lt_upper_bound; lia]).
    rewrite u64_small by lia. f_equal.
    destruct Ho as [-> | ->]; unfold do_io_route, setTimeout; simpl; rewrite ?Hcl, ?Hsock, ?Hub; simpl; by destruct f.
Qed.

End dispatch.

(** dup(2), through F_DUPFD: the new descriptor was not open, is the same file
    with the same status flags, and the others are as before. *)
Class DupLaws (K : Type) `{Kernel K} `{KernelCalls K} := {
  dup_new : forall k fd n fd' k', k_fcntl k fd F_DUPFD (Some n) = (fd', k') -> fd' <> -1 ->
    0 <= fd' /\ k_stat k fd' = None /\ k_stat k' fd' = k_stat k fd /\ k_getfl k' fd' = k_getfl k fd }.

Section dup.
Context {K : Type} `{KernelLaws K} `{KernelCalls K} `{!DupLaws K}.
Implicit Types (p : process K).

(** A duplicate of a managed socket is not managed.  [fcntl(F_DUPFD)] gives
    the new descriptor no context, while it shares the O_NONBLOCK flag the hook
    set: every hooked call goes straight to the kernel and fails with EAGAIN
    where it would have to wait, although the program never asked for
    non-blocking mode. *)
Theorem duplicate_is_not_managed k p fd a c arg fd' p' f :
  rtc hook_step (FdManager_new k) p -> managed p fd a c ->
  fcntl fd F_DUPFD arg p = Ret fd' p' -> fd' <> -1 ->
  io_route true f fd' p' = Ret Direct p' /\
  k_stat (kern p') fd' = Some true /\ nonblock (k_getfl (kern p') fd') = true.
Proof using All.
  intros Hi%pinv_reachable (Hk & Hc & Hs) E Hne.
  destruct (known_ctx _ _ _ Hi Hk) as (Hfd & _ & c2 & Hc2 & (_ & _ & _ & H4)). simplify_eq.
  destruct (H4 Hs) as (Hst & _ & Hnb).
  unfold fcntl in E. simpl in E. unfold call in E.
  destruct (k_fcntl (kern p) fd F_DUPFD (Some (i32 arg))) as [r k'] eqn:Ek.
  change (Ret r (set_kern k' p) = Ret fd' p') in E. injection E as -> <-.
  destruct (dup_new _ _ _ _ _ Ek Hne) as (Hfd' & Hold & Hst' & Hfl). simpl. rewrite Hst', Hfl.
  split; [|done]. unfold io_route. simpl.
  assert (known (set_kern k' p) fd' = None) as Hnone.
  { change (known p fd' = None). destruct (known p fd') as [b|] eqn:Eb; [|done].
    destruct (known_ctx _ _ _ Hi Eb) as (_ & _ & c2 & _ & (_ & _ & Hst2 & _)). done. }
  eapply bind_ret; [apply get_lookup_spec; lia|]. by rewrite Hnone.
Qed.

End dup.

(** ** Closing *)

(** The tasks that wait for events of a descriptor. *)
Definition waiters (m : IOManager) (fd : Z) : list SchedulerTask :=
  option_list (armed m fd READ) ++ option_list (armed m fd WRITE).

Lemma waiters_ctx m fd a c : ctx_at m fd = Some (a, c) -> waiters m fd = ctx_tasks c.
Proof.
  intros E. unfold waiters, ctx_tasks. simpl. unfold io_armed. rewrite E.
  by destruct (has (events c) READ), (has (events c) WRITE).
Qed.

Lemma waiters_none m fd : ctx_at m fd = None -> waiters m fd = [].
Proof. intros E. unfold waiters. simpl. unfold io_armed. by rewrite E. Qed.

(** [cancelAll] submits every waiter of the descriptor, and only those. *)
Lemma cancelAll_spec me fd m :
  iinv m -> 0 <= cur_worker_index me -> valid_fd fd ->
  exists r m', cancelAll me true fd m = Ret r m' /\ iinv m' /\
    all_tasks (base m') ≡ₚ waiters m fd ++ all_tasks (base m) /\ waiters m' fd = [] /\
    (forall fd', fd' <> fd -> waiters m' fd' = waiters m fd').
Proof.
  intros Hi Hme [Hfd _]. pose proof (ctx_at_spec m fd Hi Hfd) as Hs. unfold cancelAll, on_context.
  destruct (ctx_at m fd) as [[a c]|] eqn:Ec.
  2: { destruct Hs as (Ef & _). exists false, m. rewrite (waiters_none m fd Ec).
       split; [by eapply bind_ret; [exact Ef|]|done]. }
  destruct Hs as (Ef & Ha & _). pose proof (ii_ctx _ Hi _ _ Ha) as Hok.
  destruct (cancelAll_ctx_spec me true fd a m c Hi Hme Ha) as [E0 E1]. rewrite (waiters_ctx m fd a c Ec).
  destruct (decide (events c = 0)) as [He|He].
  - exists false, m. split; [eapply bind_ret; [exact Ef|]; apply E0; by left|].
    assert (ctx_tasks c = []) as -> by (unfold ctx_tasks, has; by rewrite He).
    split_and!; [done|done| |done]. rewrite (waiters_ctx m fd a c Ec). unfold ctx_tasks, has. by rewrite He.
  - destruct (E1 He eq_refl) as (m' & E & Hi' & Hfr & Hh & _ & Hq & _). exists true, m'.
    destruct (ctx_at_update m m' fd a c _ Hi Hfd Ec Hfr Hh) as [H1 H2].
    split_and!; [by eapply bind_ret; [exact Ef|]|done|done| |].
    + rewrite (waiters_ctx m' fd a _ H1). unfold ctx_tasks, has. by rewrite fired_set_events.
    + intros fd' Hne. unfold waiters. simpl. unfold io_armed. by rewrite H2.
Qed.

Section close.
Context {K : Type} `{KernelLaws K} `{KernelCalls K}.

(** A hooked [close] leaves nobody waiting.  On a worker of the manager,
    closing a known descriptor submits every fiber and callback that waits for
    one of its events, exactly once, leaves the waiters of the other descriptors
    alone, and forgets the descriptor's context; both invariants hold again. *)
Theorem close_wakes_waiters me fd a (m : IOManager) (p : process K) :
  iinv m -> pinv p -> 0 <= cur_worker_index me -> valid_fd fd -> known p fd = Some a ->
  exists r m' p', close true (Some me) true fd (m, p) = Ret r (m', p') /\ iinv m' /\ pinv p' /\
    all_tasks (base m') ≡ₚ waiters m fd ++ all_tasks (base m) /\ waiters m' fd = [] /\
    (forall fd', fd' <> fd -> waiters m' fd' = waiters m fd') /\ known p' fd = None.
Proof using All.
  intros Hi Hp Hme Hv Hk. destruct Hv as [Hfd Hfd'].
  destruct (cancelAll_spec me fd m Hi Hme (conj Hfd Hfd')) as (r & m' & E & Hi' & Hq & Hw & Ho).
  destruct (hook_close_spec p fd Hp ltac:(lia)) as (rc & p' & Ec & Hp' & Hn).
  exists rc, m', p'. split; [|done].
  unfold hook_close in Ec. unfold mbind at 1, M_bind at 1 in Ec.
  rewrite (get_lookup_spec p fd ltac:(lia)), Hk in Ec.
  unfold close. simpl negb. cbv iota. unfold mbind, M_bind, zoom in *. simpl.
  rewrite (get_lookup_spec p fd ltac:(lia)), Hk. simpl. rewrite E. simpl.
  destruct (FdManager_del fd p) as [[] p1| |]; [|done|done]. simpl in *. by rewrite Ec.
Qed.

End close.

(** ** Witnesses *)

(** The small kernel with duplicates: a duplicate takes the next number. *)
#[export] Instance toy_calls : KernelCalls toy := {
  k_fcntl k fd cmd arg :=
    if (cmd =? F_DUPFD) && (0 <=? toy_next k) && bool_decide (toy_open k !! toy_next k = None)
    then match toy_open k !! fd with
         | Some v => (toy_next k, Toy (<[toy_next k := v]> (toy_open k)) (toy_next k + 1))
         | None => (-1, k)
         end
    else (-1, k);
  k_ioctl k _ _ _ := (0, k);
  k_getsockopt _ _ _ _ := (0, []);
  k_setsockopt k _ _ _ _ := (0, k) }.

#[export] Instance toy_dup : DupLaws toy.
Proof.
  split. intros k fd n fd' k' E Hne. simpl in *.
  destruct (0 <=? toy_next k) eqn:En; [|simpl in E; congruence]. to_prop. simpl in E.
  case_bool_decide as Hf; [|congruence].
  destruct (toy_open k !! fd) as [v|] eqn:Ev; [|congruence]. simplify_eq. rewrite Hf. simpl.
  by rewrite lookup_insert_eq.
Qed.

Definition toy_dupped : process toy :=
  match fcntl 3 F_DUPFD 0 toy_sock with Ret _ p => p | _ => toy_sock end.

Lemma duplicate_is_not_managed_witness :
  io_route true Read 4 toy_dupped = Ret Direct toy_dupped /\
  k_stat (kern toy_dupped) 4 = Some true /\ nonblock (k_getfl (kern toy_dupped) 4) = true.
Proof.
  apply (duplicate_is_not_managed (Toy ∅ 3) toy_sock 3 0 toy_ctx 0 4 toy_dupped Read toy_run toy_managed);
    [vm_compute; reflexivity|discriminate].
Defined.

Lemma fcntl_is_transparent_witness :
  fcntl (K := toy) 3 F_ADD_SEALS 1 = plain_fcntl 3 F_ADD_SEALS NoArg 1 /\
  fcntl (K := toy) 3 F_SETFD 1 = plain_fcntl 3 F_SETFD IntArg 1.
Proof.
  split; [apply (fcntl_is_transparent 3 F_ADD_SEALS IntArg 1)|apply (fcntl_is_transparent 3 F_SETFD IntArg 1)];
    by apply (bool_decide_unpack _); vm_compute.
Defined.

Lemma timeouts_reach_the_waits_witness :
  exists r p', setsockopt true 3 SOL_SOCKET SO_RCVTIMEO (Timeval 2 500000) toy_sock = Ret r p' /\
    io_route true Recv 3 p' = Ret (Managed 2500) p'.
Proof.
  apply (timeouts_reach_the_waits (Toy ∅ 3) toy_sock 3 0 toy_ctx SO_RCVTIMEO 2 500000 Recv toy_run toy_managed eq_refl);
    [by left|lia|lia].
Defined.

Lemma close_wakes_waiters_witness :
  exists r m' p', close true (Some worker11) true 3 (fresh_io, toy_sock) = Ret r (m', p') /\
    waiters m' 3 = [] /\ known p' 3 = None.
Proof.
  destruct (close_wakes_waiters worker11 3 0 fresh_io toy_sock fresh_io_inv (pinv_reachable _ _ toy_run))
    as (r & m' & p' & H1 & _ & _ & _ & H2 & _ & H3); [vm_compute; discriminate|split; lia|vm_compute; reflexivity|].
  exists r, m', p'. split; [exact H1|]. split; [exact H2|exact H3].
Defined.

(** A connection in progress whose timer has expired. *)
Definition connecting : iocall IOManager := expire (start_timer 5000 (connect_attempt (-1) EINPROGRESS (call_start fresh_io))).

Lemma connecting_run : connect_run worker11 7 5 5000 2 (call_start fresh_io) connecting.
Proof.
  eapply (cr_step _ _ _ _ true 1); [apply (cn_attempt _ _ _ _ _ (-1) EINPROGRESS); reflexivity|].
  eapply (cr_step _ _ _ _ true 0); [apply cn_timer; reflexivity|].
  eapply (cr_step _ _ _ _ false 0); [apply cn_expire; reflexivity|]. apply cr_nil.
Qed.

Lemma fresh_io_unarmed_write : armed fresh_io 5 WRITE = None.
Proof. vm_compute. reflexivity. Qed.

Lemma connect_waits_once_witness :
  (2 <= 6)%nat /\ armed (svc connecting) 5 WRITE = None /\ wakeups connecting = 0%nat.
Proof.
  destruct (connect_waits_once (ES := io_service) worker11 7 5 5000 eq_refl fd5_valid 2 fresh_io connecting
    fresh_io_inv fresh_io_unarmed_write connecting_run) as (H1 & H2 & H3 & _).
  split; [exact H1|]. split; [exact H2|exact H3].
Defined.

Lemma hooked_sleep_ends_once_witness :
  exists y, rtc (sleep_step 11 (sleep_ms 2)) (sleep_started 100 (sleep_ms 2)) y /\ sl_pc y = SReturned.
Proof.
  apply (hooked_sleep_ends_once 11 100 (sleep_ms 2) (sleep_started 100 (sleep_ms 2)));
    [lia|vm_compute; discriminate|vm_compute; reflexivity|apply rtc_refl].
Defined.
