(* ===== verification/Blocking.v ===== *)
(** * Blocking calls (BlockingThreadPool and asyncBlocking)

    src/iomanager.cpp, lines 10 to 70, and [IOManager::asyncBlocking] of
    include/pulsar/iomanager.hpp: a fiber hands a blocking function to a thread
    pool, yields, and is scheduled again on its worker when the result is there. *)

From S2P Require Import Prelude.

(** What the function did: a value with the [errno] it left, or an exception. *)
Inductive result :=
| Value (v savedErrno : Z)
| Exception (e : exn).

(** The closure given to the pool: the fiber, the thread to resume it on, and
    what its function will do when it is run. *)
Record job := Job {
  j_fiber : Z;
  j_thread : Z;
  j_result : result }.

(** ** The pool *)

Record pool := Pool {
  tasks_ : list job;
  stop_ : bool }.

(** [submit], under the mutex: [false] when the task is dropped. *)
Definition pool_submit (j : job) (p : pool) : bool * pool :=
  if stop_ p then (false, p) else (true, Pool (tasks_ p ++ [j]) (stop_ p)).

(** The locked part of a worker's round. *)
Inductive round := Sleep | Exit | Run (j : job) (p : pool).
Definition pool_take (p : pool) : round :=
  match tasks_ p with
  | [] => if stop_ p then Exit else Sleep
  | j :: l => Run j (Pool l (stop_ p))
  end.

(** [stop], up to the joins. *)
Definition pool_stop (p : pool) : pool := Pool (tasks_ p) true.

(** ** asyncBlocking *)

(** Where a fiber is: outside, about to submit, yielded, returned. *)
Inductive bpc := BOut | BSubmitting (j : job) | BWaiting (j : job) | BReturned (j : job) (r : result).

(** [running]: jobs a pool thread executes; [finishing]: those that have
    scheduled their fiber and not decremented the counter; [dropped]: those the
    stopped pool refused; [submitting] mirrors the fibers about to submit.
    [states] are the shared [State] objects, by fiber; [resumable] the calls
    [scheduler(cur, thread_id)]. *)
Record bworld := BWorld {
  bpool : pool;
  pendingBlocking : Z;
  submitting : list job;
  running : list job;
  finishing : list job;
  dropped : list job;
  states : gmap Z result;
  resumable : list (Z * Z);
  fibers : Z -> bpc }.

Definition set_bpc (f : Z) (x : bpc) (p : Z -> bpc) : Z -> bpc := fun g => if g =? f then x else p g.

Inductive blocking_step : bworld -> bworld -> Prop :=
| bs_begin p n su ru fi dr st re fs j :
    fs (j_fiber j) = BOut ->
    blocking_step (BWorld p n su ru fi dr st re fs)
      (BWorld p (u64 (n + 1)) (j :: su) ru fi dr st re (set_bpc (j_fiber j) (BSubmitting j) fs))
| bs_submit p n su1 su2 ru fi dr st re fs j b p' :
    fs (j_fiber j) = BSubmitting j -> pool_submit j p = (b, p') ->
    blocking_step (BWorld p n (su1 ++ j :: su2) ru fi dr st re fs)
      (BWorld p' n (su1 ++ su2) ru fi (if b : bool then dr else j :: dr) st re (set_bpc (j_fiber j) (BWaiting j) fs))
| bs_take p n su ru fi dr st re fs j p' :
    pool_take p = Run j p' ->
    blocking_step (BWorld p n su ru fi dr st re fs) (BWorld p' n su (j :: ru) fi dr st re fs)
| bs_run p n su ru1 ru2 fi dr st re fs j :
    blocking_step (BWorld p n su (ru1 ++ j :: ru2) fi dr st re fs)
      (BWorld p n su (ru1 ++ ru2) (j :: fi) dr (<[j_fiber j := j_result j]> st) (re ++ [(j_fiber j, j_thread j)]) fs)
| bs_count p n su ru fi1 fi2 dr st re fs j :
    blocking_step (BWorld p n su ru (fi1 ++ j :: fi2) dr st re fs)
      (BWorld p (u64 (n - 1)) su ru (fi1 ++ fi2) dr st re fs)
| bs_resume p n su ru fi dr st re1 re2 f th fs j r :
    fs f = BWaiting j -> st !! f = Some r ->
    blocking_step (BWorld p n su ru fi dr st (re1 ++ (f, th) :: re2) fs)
      (BWorld p n su ru fi dr st (re1 ++ re2) (set_bpc f (BReturned j r) fs))
| bs_stop p n su ru fi dr st re fs :
    blocking_step (BWorld p n su ru fi dr st re fs) (BWorld (pool_stop p) n su ru fi dr st re fs).

Definition blocking_start : bworld := BWorld (Pool [] false) 0 [] [] [] [] ∅ [] (fun _ => BOut).
