(* ===== verification/BlockingProofs.v ===== *)
(** * Correctness of blocking calls *)

From S2P Require Import Prelude Blocking.

(** The jobs that were submitted and whose fiber has not been scheduled. *)
Definition unserved (w : bworld) : list job := tasks_ (bpool w) ++ running w ++ dropped w.

(** Every fiber that waits has its job in one place or one resumption with its
    own result and thread; a fiber about to submit, one entry of [submitting]. *)
Record binv (w : bworld) : Prop := {
  bi_count : pendingBlocking w = u64 (Z.of_nat (length (submitting w ++ unserved w ++ finishing w)));
  bi_submitting : forall j, j ∈ submitting w <-> fibers w (j_fiber j) = BSubmitting j;
  bi_nodup_s : NoDup (submitting w);
  bi_nodup : NoDup (j_fiber <$> unserved w);
  bi_nodup_r : NoDup (resumable w).*1;
  bi_unserved : forall j, j ∈ unserved w -> fibers w (j_fiber j) = BWaiting j /\ j_fiber j ∉ (resumable w).*1;
  bi_resumable : forall f th, (f, th) ∈ resumable w ->
    exists j, fibers w f = BWaiting j /\ j_fiber j = f /\ j_thread j = th /\ states w !! f = Some (j_result j);
  bi_waiting : forall f j, fibers w f = BWaiting j ->
    j_fiber j = f /\ (j ∈ unserved w \/ (f, j_thread j) ∈ resumable w);
  bi_at : forall f j, fibers w f = BSubmitting j -> j_fiber j = f;
  bi_returned : forall f j r, fibers w f = BReturned j r -> r = j_result j;
  bi_stopped : dropped w <> [] -> stop_ (bpool w) = true }.

Lemma set_bpc_eq f x p : set_bpc f x p f = x.
Proof. unfold set_bpc. by rewrite Z.eqb_refl. Qed.

Lemma set_bpc_ne f x p g : g <> f -> set_bpc f x p g = p g.
Proof. intros Hne. unfold set_bpc. destruct (g =? f) eqn:E; to_prop; congruence. Qed.

(** [binv] only sees the lists up to permutation. *)
Lemma binv_perm w w' :
  binv w -> unserved w' ≡ₚ unserved w -> submitting w' ≡ₚ submitting w -> finishing w' = finishing w ->
  pendingBlocking w' = pendingBlocking w -> resumable w' = resumable w -> states w' = states w -> fibers w' = fibers w ->
  (dropped w' <> [] -> stop_ (bpool w') = true) -> binv w'.
Proof.
  intros [B1 B2 B3 B4 B5 B6 B7 B8 B9 B10 B11] Hu Hs Hf Hp Hr Hst Hfi Hd.
  split; rewrite ?Hf, ?Hp, ?Hr, ?Hst, ?Hfi; try done.
  - rewrite B1. f_equal. f_equal. by rewrite !length_app, Hu, Hs.
  - intros j. by rewrite Hs.
  - by rewrite Hs.
  - by rewrite Hu.
  - intros j. rewrite Hu. apply B6.
  - intros f j. rewrite Hu. apply B8.
Qed.

Lemma begin_binv p n su ru fi dr st re fs j :
  binv (BWorld p n su ru fi dr st re fs) -> fs (j_fiber j) = BOut ->
  binv (BWorld p (u64 (n + 1)) (j :: su) ru fi dr st re (set_bpc (j_fiber j) (BSubmitting j) fs)).
Proof.
  intros [B1 B2 B3 B4 B5 B6 B7 B8 B9 B10 B11] Hj. unfold unserved in *. simpl in *.
  assert (Hother : forall f x, fs f = x -> x <> BOut -> f <> j_fiber j) by (intros f x Hx Hn ->; congruence).
  split; unfold unserved; simpl; try done.
  - rewrite B1, u64_add_l. f_equal. lia.
  - intros i. rewrite elem_of_cons. destruct (decide (j_fiber i = j_fiber j)) as [E|E].
    + rewrite E, set_bpc_eq. split; [|intros [=]; by left]. intros [->|Hi]; [done|].
      apply B2 in Hi. rewrite E in Hi. congruence.
    + rewrite set_bpc_ne by done. rewrite <- B2. naive_solver.
  - constructor; [|done]. intros Hi%B2. congruence.
  - intros i Hi. destruct (B6 i Hi) as [H1 H2]. rewrite set_bpc_ne by (by eapply Hother). done.
  - intros f th Hf. destruct (B7 f th Hf) as (i & H1 & H2). exists i. by rewrite set_bpc_ne by (by eapply Hother).
  - intros f i. destruct (decide (f = j_fiber j)) as [->|E]; [by rewrite set_bpc_eq|]. rewrite set_bpc_ne by done. apply B8.
  - intros f i. destruct (decide (f = j_fiber j)) as [->|E]; [rewrite set_bpc_eq; congruence|].
    rewrite set_bpc_ne by done. apply B9.
  - intros f i r. destruct (decide (f = j_fiber j)) as [->|E]; [by rewrite set_bpc_eq|]. rewrite set_bpc_ne by done. apply B10.
Qed.

Lemma submit_unserved b j p p' (ru dr : list job) :
  pool_submit j p = (b, p') -> tasks_ p' ++ ru ++ (if b then dr else j :: dr) ≡ₚ j :: tasks_ p ++ ru ++ dr.
Proof.
  unfold pool_submit. destruct (stop_ p); intros [= <- <-]; simpl; solve_Permutation.
Qed.

Lemma submit_binv p n su1 su2 ru fi dr st re fs j b p' :
  binv (BWorld p n (su1 ++ j :: su2) ru fi dr st re fs) ->
  fs (j_fiber j) = BSubmitting j -> pool_submit j p = (b, p') ->
  binv (BWorld p' n (su1 ++ su2) ru fi (if b then dr else j :: dr) st re (set_bpc (j_fiber j) (BWaiting j) fs)).
Proof.
  intros [B1 B2 B3 B4 B5 B6 B7 B8 B9 B10 B11] Hj Hsub. pose proof (submit_unserved b j p p' ru dr Hsub) as Hperm.
  unfold unserved in *. simpl in *.
  assert (Hother : forall f i, fs f = BWaiting i -> f <> j_fiber j) by (intros f i Hx ->; congruence).
  pose proof B3 as B3'. rewrite <- Permutation_middle in B3'. apply NoDup_cons in B3' as [Hjn Hn].
  assert (Hnew : forall i, i ∈ tasks_ p' ++ ru ++ (if b then dr else j :: dr) <-> i = j \/ i ∈ tasks_ p ++ ru ++ dr).
  { intros i. by rewrite Hperm, elem_of_cons. }
  split; unfold unserved; simpl.
  - rewrite B1. f_equal. f_equal. rewrite !length_app. pose proof (Permutation_length Hperm) as Hl.
    rewrite !length_app in Hl. simpl in *. rewrite !length_app in Hl. lia.
  - intros i. destruct (decide (j_fiber i = j_fiber j)) as [E|E].
    + rewrite E, set_bpc_eq. split; [|done]. intros Hi. exfalso.
      assert (Hin : i ∈ su1 ++ j :: su2) by (rewrite <- Permutation_middle; by right).
      apply B2 in Hin. rewrite E in Hin. assert (i = j) as -> by congruence. done.
    + rewrite set_bpc_ne by done. rewrite <- B2, <- Permutation_middle, elem_of_cons. naive_solver.
  - done.
  - rewrite (fmap_Permutation _ _ _ Hperm). simpl. constructor; [|done].
    rewrite list_elem_of_fmap. intros (i & Hf & Hi). destruct (B6 i Hi) as [Hw _]. rewrite <- Hf in Hw. congruence.
  - done.
  - intros i [->|Hi]%Hnew; [rewrite set_bpc_eq; split; [done|]|].
    + rewrite list_elem_of_fmap. intros ([f th] & Hf & Hr). simpl in Hf. subst f.
      destruct (B7 _ _ Hr) as (i & Hw & _). congruence.
    + destruct (B6 i Hi) as [H1 H2]. rewrite set_bpc_ne by (by eapply Hother). done.
  - intros f th Hf. destruct (B7 f th Hf) as (i & H1 & H2). exists i. by rewrite set_bpc_ne by (by eapply Hother).
  - intros f i. destruct (decide (f = j_fiber j)) as [->|E].
    + rewrite set_bpc_eq. intros [= <-]. split; [done|]. left. apply Hnew. by left.
    + rewrite set_bpc_ne by done. intros Hw. destruct (B8 f i Hw) as [H1 H2]. split; [done|]. rewrite Hnew. tauto.
  - intros f i. destruct (decide (f = j_fiber j)) as [->|E]; [by rewrite set_bpc_eq|]. rewrite set_bpc_ne by done. apply B9.
  - intros f i r. destruct (decide (f = j_fiber j)) as [->|E]; [by rewrite set_bpc_eq|]. rewrite set_bpc_ne by done. apply B10.
  - unfold pool_submit in Hsub. destruct (stop_ p) eqn:Est; simplify_eq/=; [done|].
    intros Hd. apply B11 in Hd. congruence.
Qed.

Lemma run_binv p n su ru1 ru2 fi dr st re fs j :
  binv (BWorld p n su (ru1 ++ j :: ru2) fi dr st re fs) ->
  binv (BWorld p n su (ru1 ++ ru2) (j :: fi) dr (<[j_fiber j := j_result j]> st) (re ++ [(j_fiber j, j_thread j)]) fs).
Proof.
  intros [B1 B2 B3 B4 B5 B6 B7 B8 B9 B10 B11]. unfold unserved in *. simpl in *.
  assert (Hperm : tasks_ p ++ (ru1 ++ j :: ru2) ++ dr ≡ₚ j :: tasks_ p ++ (ru1 ++ ru2) ++ dr) by solve_Permutation.
  assert (Hj : fs (j_fiber j) = BWaiting j /\ j_fiber j ∉ re.*1) by (apply B6; rewrite Hperm; by left).
  destruct Hj as [Hw Hnr].
  rewrite (fmap_Permutation _ _ _ Hperm) in B4. apply NoDup_cons in B4 as [Hjn Hn].
  assert (Hsub : forall i, i ∈ tasks_ p ++ (ru1 ++ ru2) ++ dr -> i ∈ tasks_ p ++ (ru1 ++ j :: ru2) ++ dr /\ j_fiber i <> j_fiber j).
  { intros i Hi. split; [rewrite Hperm; by right|]. intros E. apply Hjn. rewrite <- E. by apply list_elem_of_fmap_2. }
  split; unfold unserved; simpl; try done.
  - rewrite B1. f_equal. f_equal. pose proof (Permutation_length Hperm) as Hl. simpl in Hl.
    rewrite !(length_app su). rewrite !(length_app _ (j :: fi)), !(length_app _ fi), Hl. simpl. lia.
  - rewrite fmap_app. apply NoDup_app. split; [done|]. split; [|apply NoDup_singleton].
    intros f Hf. simpl. rewrite list_elem_of_singleton. by intros ->.
  - intros i Hi. destruct (Hsub i Hi) as [Hi' Hne]. destruct (B6 i Hi') as [H1 H2]. split; [done|].
    rewrite fmap_app, elem_of_app. simpl. rewrite list_elem_of_singleton. naive_solver.
  - intros f th [Hf|[= -> ->]%list_elem_of_singleton]%elem_of_app.
    + destruct (B7 f th Hf) as (i & H1 & H2 & H3 & H4). exists i. split_and!; try done.
      rewrite lookup_insert_ne; [done|]. intros <-. apply Hnr. by apply (list_elem_of_fmap_2 fst _ _ Hf).
    + exists j. by rewrite lookup_insert_eq.
  - intros f i Hf. destruct (B8 f i Hf) as [H1 H2]. split; [done|].
    rewrite Hperm, elem_of_cons in H2. rewrite (elem_of_app re), list_elem_of_singleton.
    destruct H2 as [[->|H2]|H2]; [|tauto..]. right. right. by rewrite H1.
Qed.

Lemma resume_binv p n su ru fi dr st re1 re2 f th fs j r :
  binv (BWorld p n su ru fi dr st (re1 ++ (f, th) :: re2) fs) -> fs f = BWaiting j -> st !! f = Some r ->
  binv (BWorld p n su ru fi dr st (re1 ++ re2) (set_bpc f (BReturned j r) fs)) /\ r = j_result j /\ th = j_thread j.
Proof.
  intros [B1 B2 B3 B4 B5 B6 B7 B8 B9 B10 B11] Hf Hst. unfold unserved in *. simpl in *.
  assert (Hperm : re1 ++ (f, th) :: re2 ≡ₚ (f, th) :: re1 ++ re2) by solve_Permutation.
  destruct (B7 f th) as (i & Hi & Hfi & Hth & Hr); [rewrite Hperm; by left|].
  rewrite Hf in Hi. injection Hi as <-. rewrite Hst in Hr. injection Hr as ->. subst f th.
  rewrite (fmap_Permutation _ _ _ Hperm) in B5. apply NoDup_cons in B5 as [Hnr Hn].
  split; [|done]. split; unfold unserved; simpl; try done.
  - intros k. rewrite B2. destruct (decide (j_fiber k = j_fiber j)) as [E|E]; [rewrite E, set_bpc_eq, Hf; done|].
    by rewrite set_bpc_ne.
  - intros k Hk. destruct (B6 k Hk) as [H1 H2]. assert (Hne : j_fiber k <> j_fiber j).
    { intros E. apply H2. rewrite (fmap_Permutation _ _ _ Hperm), E. by left. }
    rewrite set_bpc_ne by done. split; [done|]. intros Hx. apply H2.
    rewrite (fmap_Permutation _ _ _ Hperm). by right.
  - intros g th' Hg. destruct (B7 g th') as (k & H1 & H2); [rewrite Hperm; by right|]. exists k.
    rewrite set_bpc_ne; [done|]. intros ->. apply Hnr. by apply (list_elem_of_fmap_2 fst _ _ Hg).
  - intros g k. destruct (decide (g = j_fiber j)) as [->|E]; [by rewrite set_bpc_eq|]. rewrite set_bpc_ne by done.
    intros Hg. destruct (B8 g k Hg) as [H1 H2]. split; [done|]. rewrite Hperm, elem_of_cons in H2. naive_solver.
  - intros g k. destruct (decide (g = j_fiber j)) as [->|E]; [by rewrite set_bpc_eq|]. rewrite set_bpc_ne by done. apply B9.
  - intros g k r'. destruct (decide (g = j_fiber j)) as [->|E]; [rewrite set_bpc_eq; congruence|].
    rewrite set_bpc_ne by done. apply B10.
Qed.

Lemma blocking_step_binv w w' : blocking_step w w' -> binv w -> binv w'.
Proof.
  intros Hs Hi. destruct Hs as [p n su ru fi dr st re fs j Hj|p n su1 su2 ru fi dr st re fs j b p' Hj Hsub
    |p n su ru fi dr st re fs j p' Ht|p n su ru1 ru2 fi dr st re fs j|p n su ru fi1 fi2 dr st re fs j
    |p n su ru fi dr st re1 re2 f th fs j r Hf Hst|p n su ru fi dr st re fs].
  - by apply begin_binv.
  - by eapply submit_binv.
  - unfold pool_take in Ht. destruct p as [ts stp]. simpl in Ht.
    destruct ts as [|t ts]; [by destruct stp|]. injection Ht as <- <-.
    eapply binv_perm; [exact Hi|..]; try done; [|apply Hi]. unfold unserved. simpl. solve_Permutation.
  - by apply run_binv.
  - destruct Hi as [B1 B2 B3 B4 B5 B6 B7 B8 B9 B10 B11]. split; try done. simpl in *. rewrite B1, u64_sub_l.
    f_equal. unfold unserved. simpl. rewrite !length_app. simpl. lia.
  - by eapply resume_binv.
  - eapply binv_perm; [exact Hi|..]; done.
Qed.

Lemma binv_start : binv blocking_start.
Proof.
  split; unfold unserved; simpl; try done; try constructor; try set_solver.
Qed.

(** C19. Blocking calls come back, once, with their own result.  In every
    interleaving of fibers calling [asyncBlocking], pool threads and the stopping
    of the pool: a fiber that yielded has its job queued, running or refused by a
    stopped pool, or otherwise one resumption in the scheduler, on the thread it
    came from and with the result of its own function stored; what a call returns
    or throws is what its function did; [pendingBlockingTasks_] counts the calls
    whose fiber is not scheduled yet (and those about to be uncounted), so the
    manager does not stop under them; jobs are refused only after [stop], and a
    pool thread exits only when nothing is queued. *)
Theorem blocking_calls_complete w :
  rtc blocking_step blocking_start w ->
  (forall f j, fibers w f = BWaiting j -> j_fiber j = f /\
     (j ∈ tasks_ (bpool w) \/ j ∈ running w \/ j ∈ dropped w \/
      ((f, j_thread j) ∈ resumable w /\ states w !! f = Some (j_result j)))) /\
  NoDup (resumable w).*1 /\
  (forall f j r, fibers w f = BReturned j r -> r = j_result j) /\
  pendingBlocking w = u64 (Z.of_nat (length (submitting w) + length (tasks_ (bpool w)) + length (running w) +
                                     length (dropped w) + length (finishing w))) /\
  (stop_ (bpool w) = false -> dropped w = []) /\
  (pool_take (bpool w) = Exit -> stop_ (bpool w) = true /\ tasks_ (bpool w) = []).
Proof.
  intros Hr. assert (Hi : binv w).
  { eapply (rtc_invariant blocking_step binv); [apply blocking_step_binv|exact Hr|apply binv_start]. }
  split_and!.
  - intros f j Hf. destruct (bi_waiting _ Hi f j Hf) as [H1 H2]. split; [done|].
    destruct H2 as [H2|H2]; [unfold unserved in H2; rewrite !elem_of_app in H2; tauto|].
    right. right. right. split; [done|]. destruct (bi_resumable _ Hi _ _ H2) as (i & Hw & _ & _ & Hs). congruence.
  - apply Hi.
  - intros f j r. apply (bi_returned _ Hi).
  - rewrite (bi_count _ Hi). f_equal. f_equal. unfold unserved. rewrite !length_app. lia.
  - intros Hs. destruct (dropped w) eqn:E; [done|]. pose proof (bi_stopped _ Hi). rewrite E, Hs in *. naive_solver.
  - unfold pool_take. destruct (tasks_ (bpool w)); [|done]. by destruct (stop_ (bpool w)).
Qed.

(** A call of fiber 3 on thread 11 whose function throws. *)
Definition demo_job : job := Job 3 11 (Exception (user_exception 5)).
Definition demo_done : bworld :=
  BWorld (Pool [] false) 1 [] [] [demo_job] [] {[3 := Exception (user_exception 5)]} [(3, 11)]
    (set_bpc 3 (BWaiting demo_job) (set_bpc 3 (BSubmitting demo_job) (fun _ => BOut))).

Lemma demo_done_run : rtc blocking_step blocking_start demo_done.
Proof.
  eapply rtc_l; [apply (bs_begin _ _ _ _ _ _ _ _ _ demo_job); reflexivity|].
  eapply rtc_l; [apply (bs_submit _ _ [] [] _ _ _ _ _ _ demo_job); reflexivity|].
  eapply rtc_l; [apply bs_take; reflexivity|].
  eapply rtc_l; [apply (bs_run _ _ _ [] [])|]. apply rtc_refl.
Qed.

Lemma blocking_calls_complete_witness :
  demo_job ∈ tasks_ (bpool demo_done) \/ demo_job ∈ running demo_done \/ demo_job ∈ dropped demo_done \/
  ((3, 11) ∈ resumable demo_done /\ states demo_done !! 3 = Some (j_result demo_job)).
Proof.
  destruct (blocking_calls_complete demo_done demo_done_run) as (H & _).
  exact (proj2 (H 3 demo_job eq_refl)).
Defined.
