(* ===== verification/IOLifecycle.v ===== *)
(** * Construction and destruction of the I/O manager and its pool

    From src/iomanager.cpp: the constructor and the destructor of
    [BlockingThreadPool] with its worker loop, [submitBlocking], and the
    constructor and destructor of [IOManager] with the descriptors and contexts
    they acquire and release. *)

From S2P Require Import Prelude Timer Scheduler SchedulerProofs IOManager IOManagerProofs IOManagerTheorems Blocking.

(** ** The pool's threads *)

(** A worker thread: waiting for the mutex or on the condition variable, in a
    task, or returned. *)
Inductive pool_worker : Type := Ready | Busy (j : job) | Gone.

Record pool_world := PoolWorld {
  the_pool : pool;
  workers_ : list pool_worker;
  accepted : list job;
  ran : list job }.

(** The constructor. *)
Definition pool_ctor (threads : nat) : pool_world :=
  PoolWorld (Pool [] false) (replicate (if decide (threads = 0%nat) then 1%nat else threads) Ready) [] [].

(** A round of worker [i] under the mutex: it goes on waiting, returns, or takes
    the front task. *)
Definition worker_round (i : nat) (x : pool_world) : option pool_world :=
  match workers_ x !! i with
  | Some Ready =>
      match pool_take (the_pool x) with
      | Sleep => Some x
      | Exit => Some (PoolWorld (the_pool x) (<[i := Gone]> (workers_ x)) (accepted x) (ran x))
      | Run j p => Some (PoolWorld p (<[i := Busy j]> (workers_ x)) (accepted x) (ran x))
      end
  | _ => None
  end.

(** The end of [task()]. *)
Definition worker_done (i : nat) (x : pool_world) : option pool_world :=
  match workers_ x !! i with
  | Some (Busy j) => Some (PoolWorld (the_pool x) (<[i := Ready]> (workers_ x)) (accepted x) (j :: ran x))
  | _ => None
  end.

(** [submitBlocking] with a pool, and [submit]. *)
Definition submitBlocking (j : job) (x : pool_world) : pool_world :=
  let '(b, p) := pool_submit j (the_pool x) in
  PoolWorld p (workers_ x) (if b : bool then j :: accepted x else accepted x) (ran x).

(** [stop] up to the joins; they return when [stopped] holds. *)
Definition request_stop (x : pool_world) : pool_world :=
  if stop_ (the_pool x) then x else PoolWorld (pool_stop (the_pool x)) (workers_ x) (accepted x) (ran x).
Definition stopped (x : pool_world) : Prop := Forall (fun w => w = Gone) (workers_ x).

Inductive pool_life : pool_world -> pool_world -> Prop :=
| pl_round i x y : worker_round i x = Some y -> pool_life x y
| pl_done i x y : worker_done i x = Some y -> pool_life x y
| pl_submit j x : pool_life x (submitBlocking j x)
| pl_stop x : pool_life x (request_stop x).

(** ** The manager *)

(** What the system calls of the constructor answer: the descriptor of
    [epoll_create], the result and the two ends of [pipe], the results of
    [fcntl] and [epoll_ctl]. *)
Record boot := Boot {
  b_epfd : Z;
  b_pipe : Z;
  b_read_end : Z;
  b_write_end : Z;
  b_fcntl : Z;
  b_ctl : Z }.

(** The manager with its descriptors; [open] are those of this process. *)
Record managed_io := MkIO {
  iom : IOManager;
  epfd_ : Z;
  tickleFds_ : Z * Z;
  open : list Z }.

Definition opened (r : boot) : list Z :=
  (if b_epfd r >=? 0 then [b_epfd r] else []) ++ (if b_pipe r =? 0 then [b_read_end r; b_write_end r] else []).

(** The constructor on the scheduler [b]: the result of [epoll_create] is not
    looked at. *)
Definition IOManager_ctor (b : Scheduler) (t : Timer.manager) (r : boot) (already : list Z) : outcome managed_io unit :=
  (_ ← CondPanic (b_pipe r =? 0) "pipe error";
   _ ← CondPanic (b_fcntl r =? 0) "set fd nonblock error";
   _ ← CondPanic (b_ctl r =? 0) "epoll_ctl error";
   _ ← zoom iom (fun m x => MkIO m (epfd_ x) (tickleFds_ x) (open x)) (contextResize 32);
   zoom (fun x => base (iom x))
     (fun s x => MkIO (set_base s (iom x)) (epfd_ x) (tickleFds_ x) (open x)) start)
  (MkIO (IOM b t [] ∅ 0 0 0 0 []) (b_epfd r) (b_read_end r, b_write_end r) (opened r ++ already)).

(** [close] of a descriptor: nothing happens to one that is not open. *)
Fixpoint close_fd (fd : Z) (l : list Z) : list Z :=
  match l with
  | [] => []
  | x :: l' => if x =? fd then l' else x :: close_fd fd l'
  end.

(** The loop of the destructor over [fdContexts_]: [delete] of an object that
    is not alive is undefined. *)
Fixpoint delete_contexts (v : list (option Z)) (h : gmap Z FdContext) : outcome (gmap Z FdContext) unit :=
  match v with
  | [] => Ret tt h
  | None :: v' => delete_contexts v' h
  | Some a :: v' =>
      match h !! a with
      | Some _ => delete_contexts v' (delete a h)
      | None => Crash (Undefined "double delete of a FdContext")
      end
  end.

(** The destructor after [stop] of the scheduler and of the pool. *)
Definition IOManager_dtor (x : managed_io) : outcome managed_io unit :=
  let o := close_fd (tickleFds_ x).2 (close_fd (tickleFds_ x).1 (close_fd (epfd_ x) (open x))) in
  match delete_contexts (fdContexts_ (iom x)) (heap (iom x)) with
  | Ret _ h => Ret tt (MkIO (set_heap h (iom x)) (epfd_ x) (tickleFds_ x) o)
  | Throw e h => Throw e x
  | Crash w => Crash w
  end.

(** ** The pool drains *)

Definition busy (w : pool_worker) : option job := if w is Busy j then Some j else None.

Record pool_inv (x : pool_world) : Prop := {
  pv_some : workers_ x <> [];
  pv_jobs : accepted x ≡ₚ tasks_ (the_pool x) ++ omap busy (workers_ x) ++ ran x;
  pv_gone : Gone ∈ workers_ x -> stop_ (the_pool x) = true /\ tasks_ (the_pool x) = [] }.

Lemma insert_elem {A} (l : list A) i (x y : A) : x ∈ <[i := y]> l -> x = y \/ x ∈ l.
Proof.
  intros [j Hj]%list_elem_of_lookup_1. apply list_lookup_insert_Some in Hj as [(_ & <- & _)|[_ Hj]]; [by left|].
  right. by eapply list_elem_of_lookup_2.
Qed.

Lemma omap_busy_insert (l : list pool_worker) i w w' :
  l !! i = Some w -> option_list (busy w) ++ omap busy (<[i := w']> l) ≡ₚ option_list (busy w') ++ omap busy l.
Proof.
  revert i. induction l as [|v l IH]; intros [|i] Hw; simplify_eq/=.
  - destruct w, w'; simpl; (reflexivity || apply Permutation_swap).
  - specialize (IH i Hw). destruct v; simpl; [exact IH| |exact IH].
    rewrite <- !Permutation_middle. by f_equiv.
Qed.

Lemma pool_life_inv x y : pool_life x y -> pool_inv x -> pool_inv y.
Proof.
  intros Hs [H1 H2 H3]. destruct Hs as [i x y E|i x y E|j x|x].
  - unfold worker_round in E. destruct (workers_ x !! i) as [[| |]|] eqn:Hw; try done.
    assert (forall w, <[i := w]> (workers_ x) <> []) as Hne.
    { intros w He. apply (f_equal length) in He. rewrite length_insert in He. simpl in He.
      by apply nil_length_inv in He. }
    unfold pool_take in E. destruct (tasks_ (the_pool x)) as [|j l] eqn:Ht.
    + destruct (stop_ (the_pool x)) eqn:Es; injection E as <-; [|by split; rewrite ?Ht, ?Es].
      pose proof (omap_busy_insert _ i _ Gone Hw) as Hp. simpl in Hp.
      split; simpl; [apply Hne|by rewrite Ht, Hp|done].
    + injection E as <-. pose proof (omap_busy_insert _ i _ (Busy j) Hw) as Hp. simpl in Hp.
      split; simpl; [apply Hne|rewrite H2, Hp; solve_Permutation|].
      intros Hg. apply insert_elem in Hg as [?|Hg]; [done|]. by destruct (H3 Hg).
  - unfold worker_done in E. destruct (workers_ x !! i) as [[|j|]|] eqn:Hw; try done. injection E as <-.
    pose proof (omap_busy_insert _ i _ Ready Hw) as Hp. simpl in Hp.
    split; simpl; [| |].
    + intros He. apply (f_equal length) in He. rewrite length_insert in He. by apply nil_length_inv in He.
    + rewrite H2, <- Hp. simpl. solve_Permutation.
    + intros Hg. apply insert_elem in Hg as [?|Hg]; [done|]. by apply H3.
  - unfold submitBlocking, pool_submit. destruct (stop_ (the_pool x)) eqn:Es; [by split; simpl; rewrite ?Es|].
    split; simpl; [done|rewrite H2; solve_Permutation|]. intros Hg. destruct (H3 Hg). congruence.
  - unfold request_stop. destruct (stop_ (the_pool x)) eqn:Es; [by split; simpl; rewrite ?Es|].
    split; simpl; [done|done|]. intros Hg. destruct (H3 Hg). congruence.
Qed.

Lemma pool_life_reachable threads x : rtc pool_life (pool_ctor threads) x -> pool_inv x.
Proof.
  intros Hr. refine (rtc_invariant _ _ pool_life_inv _ _ Hr _). unfold pool_ctor.
  assert (exists n, (if decide (threads = 0%nat) then 1%nat else threads) = S n) as [n ->].
  { destruct (decide (threads = 0%nat)); [by exists 0%nat|]. exists (pred threads). lia. }
  split; simpl; [done| |].
  - induction n as [|n IH]; [done|exact IH].
  - intros [?|Hg]%elem_of_cons; [done|]. apply elem_of_replicate in Hg as [? _]. done.
Qed.

(** [stop] of the blocking pool drains it.  Whatever the number of threads
    asked for, through every interleaving of submissions, worker rounds and
    [stop]: each accepted task is queued, being run, or has been run exactly
    once; a worker returns only after [stop] and when no task is queued; and once
    every worker has returned, so that the joins of [stop] are over, all accepted
    tasks have been run and later submissions are refused. *)
Theorem pool_stop_drains threads x :
  rtc pool_life (pool_ctor threads) x ->
  accepted x ≡ₚ tasks_ (the_pool x) ++ omap busy (workers_ x) ++ ran x /\
  (Gone ∈ workers_ x -> stop_ (the_pool x) = true /\ tasks_ (the_pool x) = []) /\
  (stopped x -> accepted x ≡ₚ ran x /\ forall j, submitBlocking j x = x).
Proof.
  intros [H1 H2 H3]%pool_life_reachable. split; [done|]. split; [done|]. intros Hs. unfold stopped in Hs.
  destruct (workers_ x) as [|w l] eqn:Hw; [done|].
  assert (omap busy (w :: l) = []) as Hb.
  { clear -Hs. induction (w :: l) as [|v l' IH]; [done|]. apply Forall_cons in Hs as [-> Hs]. simpl. by apply IH. }
  apply Forall_cons in Hs as [-> Hs]. destruct (H3 ltac:(by left)) as [Hst Ht].
  rewrite Ht, Hb in H2. split; [done|]. intros j. unfold submitBlocking, pool_submit. rewrite Hst.
  by destruct x.
Qed.

(** ** The manager gives everything back *)

Lemma delete_contexts_spec v : forall h,
  (forall i x, v !! i = Some x -> exists a, x = Some a /\ is_Some (h !! a)) ->
  (forall i j a, v !! i = Some (Some a) -> v !! j = Some (Some a) -> i = j) ->
  exists h', delete_contexts v h = Ret tt h' /\
    forall a, h' !! a = if decide (Some a ∈ v) then None else h !! a.
Proof.
  induction v as [|x v IH]; intros h Hlive Hinj; simpl; [by exists h|].
  destruct (Hlive 0%nat x eq_refl) as (a & -> & [c Hc]). rewrite Hc.
  assert (Some a ∉ v) as Hn.
  { intros [j Hj]%list_elem_of_lookup_1. by specialize (Hinj 0%nat (S j) a eq_refl Hj). }
  destruct (IH (delete a h)) as (h' & E & Hh').
  - intros i y Hy. destruct (Hlive (S i) y Hy) as (b & -> & Hb). exists b. split; [done|].
    rewrite lookup_delete_ne; [done|]. intros ->. apply Hn. by eapply list_elem_of_lookup_2.
  - intros i j b Hi Hj. by injection (Hinj (S i) (S j) b Hi Hj).
  - exists h'. split; [done|]. intros b. rewrite Hh'. destruct (decide (Some b ∈ v)) as [Hb|Hb].
    + rewrite decide_True; [done|]. by right.
    + destruct (decide (b = a)) as [->|Hne].
      * rewrite lookup_delete_eq, decide_True; [done|]. by left.
      * rewrite lookup_delete_ne by done. rewrite decide_False; [done|].
        intros [[= ->]|?]%elem_of_cons; done.
Qed.

Lemma close_fd_perm fd l : fd ∈ l -> l ≡ₚ fd :: close_fd fd l.
Proof.
  induction l as [|x l IH]; intros Hin; [by apply not_elem_of_nil in Hin|]. simpl.
  destruct (x =? fd) eqn:E; to_prop; [by subst|].
  apply elem_of_cons in Hin as [->|Hin]; [done|]. rewrite (IH Hin) at 1. apply Permutation_swap.
Qed.

Lemma close_fd_cancel fd l l' : l ≡ₚ fd :: l' -> close_fd fd l ≡ₚ l'.
Proof.
  intros Hp. pose proof (close_fd_perm fd l ltac:(rewrite Hp; by left)) as H.
  apply (Permutation_cons_inv (a := fd)). by rewrite <- H.
Qed.

(** What is open beside the manager's own descriptors. *)
Definition owns_fds (x : managed_io) (already : list Z) : Prop :=
  open x ≡ₚ epfd_ x :: (tickleFds_ x).1 :: (tickleFds_ x).2 :: already.

(** The destructor gives back what the manager acquired.  For a manager whose
    system calls succeeded and whose context table never shrank, in any later
    state: the destructor closes exactly its three descriptors and deletes every
    context exactly once, without touching one twice. *)
Theorem manager_gives_everything_back x already :
  iinv (iom x) -> owns_fds x already ->
  (forall a c, heap (iom x) !! a = Some c -> Some a ∈ fdContexts_ (iom x)) ->
  exists y, IOManager_dtor x = Ret tt y /\ open y ≡ₚ already /\ heap (iom y) = ∅.
Proof.
  intros Hi Ho Hcov. unfold IOManager_dtor.
  destruct (delete_contexts_spec (fdContexts_ (iom x)) (heap (iom x))) as (h' & E & Hh').
  - intros i y Hy. destruct (ii_vector _ Hi _ _ Hy) as (a & c & -> & Ha & _). eauto.
  - intros i j a Hai Haj. destruct (ii_vector _ Hi _ _ Hai) as (b & c & [= <-] & Hb & Hf).
    destruct (ii_vector _ Hi _ _ Haj) as (b & c' & [= <-] & Hb' & Hf'). simplify_eq. lia.
  - rewrite E. eexists. split; [done|]. simpl. split.
    + unfold owns_fds in Ho. set (e := epfd_ x) in *. destruct (tickleFds_ x) as [r w]. simpl in *.
      by apply close_fd_cancel, close_fd_cancel, close_fd_cancel.
    + apply map_eq. intros a. rewrite Hh', lookup_empty. case_decide as Hd; [done|].
      destruct (heap (iom x) !! a) as [c|] eqn:Ea; [|done]. by destruct Hd; eapply Hcov.
Qed.

(** The constructor.  It returns exactly when [pipe], [fcntl] and [epoll_ctl]
    succeed on a scheduler that can start, and ends the process with a panic
    otherwise; then the manager's invariant holds, every context is in the table,
    and the descriptors it opened are its own three. *)
Theorem constructor_sets_up b t r already :
  SchedulerProofs.wf b -> isStopped_ b = false -> threadPool_ b = [] -> 0 <= b_epfd r ->
  (b_pipe r = 0 /\ b_fcntl r = 0 /\ b_ctl r = 0 ->
   exists x, IOManager_ctor b t r already = Ret tt x /\ iinv (iom x) /\ owns_fds x already /\
     (forall a c, heap (iom x) !! a = Some c -> Some a ∈ fdContexts_ (iom x))) /\
  (~ (b_pipe r = 0 /\ b_fcntl r = 0 /\ b_ctl r = 0) ->
   exists msg, IOManager_ctor b t r already = Crash (Panic msg)).
Proof.
  intros Hwf Hst Hpool He. split.
  - intros (H1 & H2 & H3).
    destruct (contextResize_spec 32 (IOM b t [] ∅ 0 0 0 0 [])) as (m & E & Hi & Hlen & Hb & _ & _ & _ & Hnew & _);
      [by right|done|].
    set (s' := set_pool ((fun i => Z.of_nat i + (if isUseCaller_ b then 1 else 0)) <$> seq 0 (Z.to_nat (threadCnt_ b))) b).
    exists (MkIO (set_base s' m) (b_epfd r) (b_read_end r, b_write_end r) (opened r ++ already)). split_and!.
    + unfold IOManager_ctor. eapply bind_panic; [by rewrite H1|]. eapply bind_panic; [by rewrite H2|].
      eapply bind_panic; [by rewrite H3|]. eapply bind_ret; [unfold zoom; cbn [iom]; rewrite E; reflexivity|].
      unfold zoom. cbn [iom]. rewrite Hb. simpl base. unfold start. run. rewrite Hst. simpl. by rewrite Hpool.
    + destruct Hi as [I1 I2 I3 I4 I5 I6]. split; simpl; try done. rewrite Hb in I1. by destruct I1.
    + unfold owns_fds, opened. simpl. destruct (b_epfd r >=? 0) eqn:Ee; to_prop; [|lia]. rewrite H1. done.
    + simpl. intros a c Ha. destruct (Hnew a c Ha) as [Hno|(j & _ & _ & Hj)].
      * simpl in Hno. by rewrite lookup_empty in Hno.
      * by eapply list_elem_of_lookup_2.
  - intros Hn. unfold IOManager_ctor. unfold mbind, M_bind, CondPanic.
    destruct (b_pipe r =? 0) eqn:E1; [|by eexists]. destruct (b_fcntl r =? 0) eqn:E2; [|by eexists].
    destruct (b_ctl r =? 0) eqn:E3; [|by eexists]. to_prop. by destruct Hn.
Qed.

(** ** Witnesses *)

Definition job_a : job := Job 1 10 (Value 0 0).

Definition drained_pool : pool_world := PoolWorld (Pool [] true) [Gone] [job_a] [job_a].

Lemma drained_run : rtc pool_life (pool_ctor 0) drained_pool.
Proof.
  eapply rtc_l; [apply (pl_submit job_a)|]. eapply rtc_l; [apply pl_stop|].
  eapply rtc_l; [apply (pl_round 0); reflexivity|]. eapply rtc_l; [apply (pl_done 0); reflexivity|].
  apply rtc_once. apply (pl_round 0). reflexivity.
Qed.

Lemma pool_stop_drains_witness : accepted drained_pool ≡ₚ ran drained_pool.
Proof.
  destruct (pool_stop_drains 0 drained_pool drained_run) as (_ & _ & H).
  destruct H as [H _]; [by repeat constructor|exact H].
Defined.

Definition good_boot : boot := Boot 3 0 4 5 0 0.

Lemma constructor_sets_up_witness :
  exists x, IOManager_ctor two_workers (init_manager [] 0) good_boot [] = Ret tt x /\ owns_fds x [].
Proof.
  destruct (constructor_sets_up two_workers (init_manager [] 0) good_boot [] two_workers_wf eq_refl eq_refl) as [H _];
    [vm_compute; discriminate|].
  destruct H as (x & H1 & _ & H2 & _); [done|]. exists x. split; [exact H1|exact H2].
Defined.

Definition booted : managed_io := MkIO fresh_io 3 (4, 5) [3; 4; 5].

Lemma fresh_io_iinv : iinv fresh_io.
Proof. apply (io_start_wf two_workers (init_manager [] 0) two_workers_wf eq_refl). Qed.

Lemma booted_covers a c : heap (iom booted) !! a = Some c -> Some a ∈ fdContexts_ (iom booted).
Proof.
  destruct (contextResize_spec 32 (IOM two_workers (init_manager [] 0) [] ∅ 0 0 0 0 []))
    as (m & E & _ & _ & _ & _ & _ & _ & Hnew & _); [right; exact (conj eq_refl (conj eq_refl (conj eq_refl (conj eq_refl two_workers_wf))))|lia|].
  assert (fresh_io = m) as Em by (unfold fresh_io, IOManager_new; rewrite E; exact eq_refl). unfold booted, iom. rewrite Em.
  intros Ha. destruct (Hnew a c Ha) as [Hno|(j & _ & _ & Hj)]; [simpl in Hno; by rewrite lookup_empty in Hno|].
  by eapply list_elem_of_lookup_2.
Qed.

Lemma manager_gives_everything_back_witness :
  exists y, IOManager_dtor booted = Ret tt y /\ open y ≡ₚ [] /\ heap (iom y) = ∅.
Proof.
  apply (manager_gives_everything_back booted [] fresh_io_iinv); [apply Permutation_refl|exact booted_covers].
Defined.
