(* ===== verification/File.v ===== *)
(** * Asynchronous files

    include/pulsar/file.hpp: the wrappers [file::open] ... [file::fdatasync],
    each a system call run through [IOManager::AsyncBlocking]
    (include/pulsar/iomanager.hpp), and the owning handle [File].

    The system calls are an interface, [FileOS]; what the handle relies on is
    [FileOSLaws].  A member is a program that suspends at its blocking call: in a
    fiber under an I/O manager the call is queued in the pool, executed there, and
    the rest of the member runs when the fiber is resumed, so that several members
    are in progress at a time; a stopped pool refuses the call and the fiber is
    never resumed. *)

From S2P Require Import Prelude.

(** ** System calls *)

Inductive fcall : Type :=
| SysOpen (path : string) (flags mode : Z)
| SysClose (fd : Z)
| SysRead (fd count : Z)
| SysWrite (fd : Z) (buf : list Z)
| SysPread (fd count offset : Z)
| SysPwrite (fd : Z) (buf : list Z) (offset : Z)
| SysLseek (fd offset whence : Z)
| SysFsync (fd : Z)
| SysFdatasync (fd : Z).

(** What a call returns: its value, the bytes it stored into the caller's
    buffer, and the [errno] it set, if it set it. *)
Record sysret := SysRet { rt : Z; filled : list Z; set_errno : option Z }.

Class FileOS (K : Type) := {
  os : fcall -> K -> sysret * K;
  open_fds : K -> gset Z }.

(** open(2) and close(2): a new descriptor is not open before, a failed call
    returns -1, [close] of an open descriptor closes it and no other (also when
    it reports an error), [close] of anything else does nothing, and the other
    calls leave the open descriptors as they are. *)
Class FileOSLaws (K : Type) `{FileOS K} := {
  open_result : forall path flags mode k r k', os (SysOpen path flags mode) k = (r, k') ->
    (rt r = -1 /\ open_fds k' = open_fds k) \/
    (0 <= rt r /\ (rt r ∉ open_fds k) /\ open_fds k' = {[rt r]} ∪ open_fds k);
  close_result : forall fd k r k', os (SysClose fd) k = (r, k') -> open_fds k' = open_fds k ∖ {[fd]};
  other_result : forall c k r k', os c k = (r, k') ->
    match c with SysOpen _ _ _ | SysClose _ => True | _ => open_fds k' = open_fds k end }.

(** ** Programs that make blocking calls *)

(** A member up to its end: [Block] is a call of [AsyncBlocking], the others are the
    accesses to the objects; [fd_] is read, written, and goes away with its object. *)
Inductive act (A : Type) : Type :=
| Done (a : A)
| Block (c : fcall) (k : sysret -> act A)
| GetFd (o : nat) (k : Z -> act A)
| SetFd (o : nat) (fd : Z) (k : act A)
| EndFile (o : nat) (k : act A).
Arguments Done {A} a.
Arguments Block {A} c k.
Arguments GetFd {A} o k.
Arguments SetFd {A} o fd k.
Arguments EndFile {A} o k.

Fixpoint act_bind_ {A B} (f : A -> act B) (p : act A) : act B :=
  match p with
  | Done a => f a
  | Block c k => Block c (fun r => act_bind_ f (k r))
  | GetFd o k => GetFd o (fun fd => act_bind_ f (k fd))
  | SetFd o fd k => SetFd o fd (act_bind_ f k)
  | EndFile o k => EndFile o (act_bind_ f k)
  end.
#[export] Instance act_ret : MRet act := @Done.
#[export] Instance act_bind : MBind act := @act_bind_.

(** ** The wrappers *)

Definition AsyncBlocking (c : fcall) : act sysret := Block c Done.

(** A null [pathname] is opened as the empty path. *)
Definition file_open (pathname : option string) (flags mode : Z) : act sysret :=
  let path := default EmptyString pathname in AsyncBlocking (SysOpen path flags mode).
Definition file_close (fd : Z) : act sysret := AsyncBlocking (SysClose fd).
Definition file_read (fd count : Z) : act sysret := AsyncBlocking (SysRead fd count).
Definition file_write (fd : Z) (buf : list Z) : act sysret := AsyncBlocking (SysWrite fd buf).
Definition file_pread (fd count offset : Z) : act sysret := AsyncBlocking (SysPread fd count offset).
Definition file_pwrite (fd : Z) (buf : list Z) (offset : Z) : act sysret := AsyncBlocking (SysPwrite fd buf offset).
Definition file_lseek (fd offset whence : Z) : act sysret := AsyncBlocking (SysLseek fd offset whence).
Definition file_fsync (fd : Z) : act sysret := AsyncBlocking (SysFsync fd).
Definition file_fdatasync (fd : Z) : act sysret := AsyncBlocking (SysFdatasync fd).

(** ** [File] *)

Definition fd_ (o : nat) : act Z := GetFd o Done.
Definition set_fd_ (o : nat) (fd : Z) : act unit := SetFd o fd (Done tt).

(** The constructors put a new object at [o]. *)
Definition File_default (o : nat) : act unit := set_fd_ o (-1).

Definition File_close (o : nat) : act unit :=
  fd ← fd_ o;
  if fd >=? 0 then (_ ← file_close fd; set_fd_ o (-1)) else mret tt.

Definition File_dtor (o : nat) : act unit := _ ← File_close o; EndFile o (Done tt).

Definition File_move_ctor (o other : nat) : act unit :=
  fd ← fd_ other;
  _ ← set_fd_ o fd;
  set_fd_ other (-1).

Definition File_move_assign (o other : nat) : act unit :=
  if negb (bool_decide (o = other)) then
    _ ← File_close o;
    fd ← fd_ other;
    _ ← set_fd_ o fd;
    set_fd_ other (-1)
  else mret tt.

(** [Open]; the returned object is constructed at [o]. *)
Definition File_Open (path : string) (flags mode : Z) (o : nat) : act unit :=
  fd ← file_open (Some path) flags mode;
  set_fd_ o (rt fd).

Definition File_isOpen (o : nat) : act bool := fd ← fd_ o; mret (fd >=? 0).
Definition File_getFd (o : nat) : act Z := fd_ o.

Definition File_read (o : nat) (count : Z) : act sysret := fd ← fd_ o; file_read fd count.
Definition File_write (o : nat) (buf : list Z) : act sysret := fd ← fd_ o; file_write fd buf.
Definition File_pread (o : nat) (count offset : Z) : act sysret := fd ← fd_ o; file_pread fd count offset.
Definition File_pwrite (o : nat) (buf : list Z) (offset : Z) : act sysret := fd ← fd_ o; file_pwrite fd buf offset.
Definition File_lseek (o : nat) (offset whence : Z) : act sysret := fd ← fd_ o; file_lseek fd offset whence.
Definition File_fsync (o : nat) : act sysret := fd ← fd_ o; file_fsync fd.
Definition File_fdatasync (o : nat) : act sysret := fd ← fd_ o; file_fdatasync fd.

(** The seven members that only pass [fd_] on. *)
Inductive io_member : Type :=
| IORead (count : Z)
| IOWrite (buf : list Z)
| IOPread (count offset : Z)
| IOPwrite (buf : list Z) (offset : Z)
| IOLseek (offset whence : Z)
| IOFsync
| IOFdatasync.

Definition File_io (o : nat) (i : io_member) : act sysret :=
  match i with
  | IORead count => File_read o count
  | IOWrite buf => File_write o buf
  | IOPread count offset => File_pread o count offset
  | IOPwrite buf offset => File_pwrite o buf offset
  | IOLseek offset whence => File_lseek o offset whence
  | IOFsync => File_fsync o
  | IOFdatasync => File_fdatasync o
  end.

(** One member call. *)
Inductive fop : Type :=
| OpDefault (o : nat)
| OpOpen (path : string) (flags mode : Z) (o : nat)
| OpMoveCtor (o other : nat)
| OpMoveAssign (o other : nat)
| OpClose (o : nat)
| OpDtor (o : nat)
| OpIO (o : nat) (i : io_member).

Definition member (op : fop) : act unit :=
  match op with
  | OpDefault o => File_default o
  | OpOpen path flags mode o => File_Open path flags mode o
  | OpMoveCtor o other => File_move_ctor o other
  | OpMoveAssign o other => File_move_assign o other
  | OpClose o => File_close o
  | OpDtor o => File_dtor o
  | OpIO o i => _ ← File_io o i; mret tt
  end.

(** ** Running a member *)

(** The caller: whether its thread has an [IOManager], the identifier of its
    fiber ([None] without one), and its thread.  Without an I/O manager, without a
    fiber and on the main fiber [AsyncBlocking] runs the function at once. *)
Record caller := Caller { has_iom : bool; fiber_id : option Z; own_thread : Z }.
Definition runs_inline (w : caller) : bool :=
  negb (has_iom w) || match fiber_id w with None => true | Some id => id =? 0 end.

(** The state: the kernel, the [errno] of each thread, and the [File] objects by
    address (their [fd_]). *)
Record fstate (K : Type) := FState { kernel : K; errno : Z -> Z; files : gmap nat Z }.
Arguments FState {K} _ _ _.
Arguments kernel {K} _.
Arguments errno {K} _.
Arguments files {K} _.

Definition upd_errno (t v : Z) (e : Z -> Z) : Z -> Z := fun t' => if t' =? t then v else e t'.

(** A member runs on to its end or to a blocking call; [Broken] is an access to an
    object that does not exist. *)
Inductive progress (A : Type) : Type :=
| Ended (a : A) (m : gmap nat Z)
| Suspends (c : fcall) (k : sysret -> act A) (m : gmap nat Z)
| Broken.
Arguments Ended {A} a m.
Arguments Suspends {A} c k m.
Arguments Broken {A}.

Fixpoint run_to_block {A} (p : act A) (m : gmap nat Z) : progress A :=
  match p with
  | Done a => Ended a m
  | Block c k => Suspends c k m
  | GetFd o k => match m !! o with Some fd => run_to_block (k fd) m | None => Broken end
  | SetFd o fd k => run_to_block k (<[o := fd]> m)
  | EndFile o k => run_to_block k (delete o m)
  end.

(** A member call in a fiber that waits for the pool: its call is in the queue, was
    executed there with this result and [savedErrno], or was refused. *)
Inductive stage : Type :=
| Queued (c : fcall) (k : sysret -> act unit)
| Executed (r : sysret) (savedErrno : Z) (k : sysret -> act unit)
| Refused.
Record running := Running { r_caller : caller; r_op : fop; r_stage : stage }.

Record fworld (K : Type) := FWorld {
  fst_ : fstate K;
  ops : gmap nat running;      (* members in progress, by number *)
  accepting : bool;            (* the pool has not been stopped *)
  foreign : gset Z }.          (* open descriptors that other code owns *)
Arguments FWorld {K} _ _ _ _.
Arguments fst_ {K} _.
Arguments ops {K} _.
Arguments accepting {K} _.
Arguments foreign {K} _.

Section file.
Context {K : Type} `{FileOS K}.

(** The closure [f] run on thread [t]. *)
Definition run_on (t : Z) (c : fcall) (s : fstate K) : sysret * fstate K :=
  let '(r, k) := os c (kernel s) in
  (r, FState k (match set_errno r with
                | Some e => upd_errno t e (errno s)
                | None => errno s
                end) (files s)).

(** The pool thread [t] runs the closure of [asyncBlocking]: the result and its own
    [errno] go into the shared state; the fiber, resumed, copies the [errno] out. *)
Definition pool_execute (t : Z) (c : fcall) (s : fstate K) : (sysret * Z) * fstate K :=
  let '(r, s') := run_on t c s in ((r, errno s' t), s').
Definition copy_out (t savedErrno : Z) (s : fstate K) : fstate K :=
  FState (kernel s) (upd_errno t savedErrno (errno s)) (files s).

(** A member whose blocking calls run at once. *)
Fixpoint run_inline {A} (t : Z) (p : act A) (s : fstate K) : outcome (fstate K) A :=
  match p with
  | Done a => Ret a s
  | Block c k => let '(r, s') := run_on t c s in run_inline t (k r) s'
  | GetFd o k => match files s !! o with Some fd => run_inline t (k fd) s | None => Crash (Undefined "File") end
  | SetFd o fd k => run_inline t k (FState (kernel s) (errno s) (<[o := fd]> (files s)))
  | EndFile o k => run_inline t k (FState (kernel s) (errno s) (delete o (files s)))
  end.

Definition set_files (m : gmap nat Z) (s : fstate K) : fstate K := FState (kernel s) (errno s) m.

(** The member [id] of caller [w] goes on with [p]. *)
Definition go_on (id : nat) (w : caller) (op : fop) (p : act unit) (x : fworld K) : option (fworld K) :=
  match run_to_block p (files (fst_ x)) with
  | Ended _ m => Some (FWorld (set_files m (fst_ x)) (delete id (ops x)) (accepting x) (foreign x))
  | Suspends c k m =>
      Some (FWorld (set_files m (fst_ x)) (<[id := Running w op (if accepting x then Queued c k else Refused)]> (ops x))
              (accepting x) (foreign x))
  | Broken => None
  end.

(** ** Members in any order *)

Definition objects (op : fop) : list nat :=
  match op with
  | OpDefault o | OpOpen _ _ _ o | OpClose o | OpDtor o | OpIO o _ => [o]
  | OpMoveCtor o other | OpMoveAssign o other => [o; other]
  end.

(** A member is called on live objects, or constructs one at a free address, and none
    of its objects is used by a member in progress: a [File] is not shared. *)
Definition op_live (op : fop) (m : gmap nat Z) : Prop :=
  match op with
  | OpDefault o | OpOpen _ _ _ o => m !! o = None
  | OpMoveCtor o other => m !! o = None /\ is_Some (m !! other)
  | OpMoveAssign o other => is_Some (m !! o) /\ is_Some (m !! other)
  | OpClose o | OpDtor o | OpIO o _ => is_Some (m !! o)
  end.
Definition unused (op : fop) (l : gmap nat running) : Prop :=
  forall id x o, l !! id = Some x -> o ∈ objects (r_op x) -> o ∉ objects op.
Definition op_valid (op : fop) (x : fworld K) : Prop := op_live op (files (fst_ x)) /\ unused op (ops x).

Inductive file_step : fworld K -> fworld K -> Prop :=
| fs_inline w op x s' :
    runs_inline w = true -> op_valid op x -> run_inline (own_thread w) (member op) (fst_ x) = Ret tt s' ->
    file_step x (FWorld s' (ops x) (accepting x) (foreign x))
| fs_start w op id x x' :
    runs_inline w = false -> op_valid op x -> ops x !! id = None -> go_on id w op (member op) x = Some x' ->
    file_step x x'
| fs_execute id w op c k t r e s' x :
    ops x !! id = Some (Running w op (Queued c k)) -> pool_execute t c (fst_ x) = ((r, e), s') ->
    file_step x (FWorld s' (<[id := Running w op (Executed r e k)]> (ops x)) (accepting x) (foreign x))
| fs_resume id w op r e k x x' :
    ops x !! id = Some (Running w op (Executed r e k)) ->
    go_on id w op (k r) (FWorld (copy_out (own_thread w) e (fst_ x)) (ops x) (accepting x) (foreign x)) = Some x' ->
    file_step x x'
| fs_stop x : file_step x (FWorld (fst_ x) (ops x) false (foreign x))
| fs_foreign k e F x :
    F ## open_fds (kernel (fst_ x)) ∖ foreign x -> open_fds k = (open_fds (kernel (fst_ x)) ∖ foreign x) ∪ F ->
    file_step x (FWorld (FState k e (files (fst_ x))) (ops x) (accepting x) F).

Definition file_start (k : K) (e : Z -> Z) : fworld K := FWorld (FState k e ∅) ∅ true (open_fds k).

End file.
