(* ===== verification/FileProofs.v ===== *)
(** * Properties of asynchronous files

    A blocking call returns what the system call did, whichever thread ran it; and
    however members of different [File]s interleave with each other, with the pool
    and with other code, a descriptor that a [File] holds is held by no other one
    and is closed exactly once. *)

From S2P Require Import Prelude File.

(** ** Ownership *)

(** Who can hold a descriptor: an object, or a member in progress that has opened it
    and not stored it yet.  [S]: the objects whose descriptor has been closed while
    [fd_] still names it; [E]: the descriptors of members in progress. *)
Definition holder : Type := nat + nat.
Definition holds (m : gmap nat Z) (S : nat -> Prop) (E : nat -> Z -> Prop) (h : holder) (fd : Z) : Prop :=
  match h with
  | inl o => 0 <= fd /\ m !! o = Some fd /\ ~ S o
  | inr id => 0 <= fd /\ E id fd
  end.

(** What is open is what somebody holds and what belongs to other code, and every
    descriptor has one owner. *)
Record finv (fds F : gset Z) (H : holder -> Z -> Prop) : Prop := {
  fi_open : forall fd, fd ∈ fds <-> (exists h, H h fd) \/ fd ∈ F;
  fi_foreign : forall h fd, H h fd -> fd ∉ F;
  fi_one : forall h h' fd, H h fd -> H h' fd -> h = h';
  fi_fun : forall h a b, H h a -> H h b -> a = b }.

Lemma finv_ext fds F (H H' : holder -> Z -> Prop) : (forall h fd, H' h fd <-> H h fd) -> finv fds F H -> finv fds F H'.
Proof. intros E [H1 H2 H3 H4]. split; setoid_rewrite E; done. Qed.

Lemma finv_drop fds F (H H' : holder -> Z -> Prop) h fd :
  finv fds F H -> H h fd -> (forall x y, H' x y <-> H x y /\ x <> h) -> finv (fds ∖ {[fd]}) F H'.
Proof.
  intros [H1 H2 H3 H4] Hh E. split.
  - intros x. rewrite elem_of_difference, elem_of_singleton, H1. setoid_rewrite E. split.
    + intros [[[g Hg]|?] Hne]; [left|by right]. exists g. split; [done|]. intros ->. by apply Hne, (H4 h).
    + intros [(g & Hg & Hne)|HF]; (split; [eauto|]); intros ->; [by apply Hne, (H3 g h fd)|by apply (H2 h fd)].
  - intros g x [Hg _]%E. by apply (H2 g).
  - intros g g' x [Hg _]%E [Hg' _]%E. by apply (H3 g g' x).
  - intros g a b [Ha _]%E [Hb _]%E. by apply (H4 g).
Qed.

Lemma finv_take fds F (H H' : holder -> Z -> Prop) h fd :
  finv fds F H -> (forall x, ~ H h x) -> fd ∉ fds -> (forall x y, H' x y <-> H x y \/ (x = h /\ y = fd)) ->
  finv ({[fd]} ∪ fds) F H'.
Proof.
  intros [H1 H2 H3 H4] Hh Hn E.
  assert (forall g, ~ H g fd) as Hfree by (intros g Hg; apply Hn, H1; eauto).
  split.
  - intros x. rewrite elem_of_union, elem_of_singleton, H1. setoid_rewrite E. naive_solver.
  - intros g x [Hg|[-> ->]]%E; [by apply (H2 g)|]. intros HF. apply Hn, H1. by right.
  - intros g g' x [Hg|[-> ->]]%E [Hg'|[-> ?]]%E; [by apply (H3 g g' x)|subst; by destruct (Hfree g)|by destruct (Hfree g')|done].
  - intros g a b [Ha|[-> ->]]%E [Hb|[? ->]]%E; [by apply (H4 g)|subst; by destruct (Hh a)|by destruct (Hh b)|done].
Qed.

(** What [h1] holds, if anything, goes to [h2], which holds nothing. *)
Lemma finv_move fds F (H H' : holder -> Z -> Prop) h1 h2 :
  finv fds F H -> h1 <> h2 -> (forall x, ~ H h2 x) ->
  (forall x y, H' x y <-> (x = h2 /\ H h1 y) \/ (x <> h1 /\ H x y)) -> finv fds F H'.
Proof.
  intros [H1 H2 H3 H4] Hne Hh E. split.
  - intros x. rewrite H1. setoid_rewrite E. split; (intros [[g Hg]|?]; [left|by right]).
    + destruct (decide (g = h1)) as [->|]; eauto.
    + destruct Hg as [[-> Hg]|[_ Hg]]; eauto.
  - intros g x [[-> Hg]|[_ Hg]]%E; by eapply H2.
  - intros g g' x [[-> Hg]|[Hn Hg]]%E [[-> Hg']|[Hn' Hg']]%E; [done| | |by apply (H3 g g' x)].
    + by destruct Hn'; apply (H3 g' h1 x).
    + by destruct Hn; apply (H3 g h1 x).
  - intros g a b [[-> Ha]|[Hn Ha]]%E [[Eg Hb]|[Hn' Hb]]%E; [by apply (H4 h1)|by destruct (Hh b)|subst g; by destruct (Hh a)|by apply (H4 g)].
Qed.

(** *** The changes of the objects *)

Section objects.
Variables (fds F : gset Z) (E : nat -> Z -> Prop).
Implicit Types (m : gmap nat Z) (S : nat -> Prop).

Lemma hold_insert m S o v x y :
  holds (<[o := v]> m) S E x y <->
  (x = inl o /\ y = v /\ 0 <= v /\ ~ S o) \/ (x <> inl o /\ holds m S E x y).
Proof.
  destruct x as [a|id]; simpl; [|naive_solver]. rewrite lookup_insert_Some.
  split; [intros (? & [[<- <-]|[Hne ?]] & ?); [by left|right; naive_solver]|]. naive_solver.
Qed.

(** The object at [o] holds nothing: it comes, goes or changes without effect. *)
Definition empty_handed m S o : Prop := forall fd, m !! o = Some fd -> fd < 0 \/ S o.

Lemma empty_handed_spec m S o : empty_handed m S o -> forall y, ~ holds m S E (inl o) y.
Proof. intros He y (Hy & Hm & Hs). destruct (He y Hm); [lia|done]. Qed.

Lemma finv_set_empty m S S' o v :
  finv fds F (holds m S E) -> empty_handed m S o -> v < 0 -> (forall a, a <> o -> S' a <-> S a) ->
  finv fds F (holds (<[o := v]> m) S' E).
Proof.
  intros Hi He Hv HS. eapply finv_ext; [|exact Hi]. intros x y. rewrite hold_insert. split.
  - intros [(_ & _ & ? & _)|[Hne Hh]]; [lia|]. destruct x as [a|id]; [|done]. simpl in *.
    assert (a <> o) by congruence. by rewrite <- HS.
  - intros Hh. right. destruct x as [a|id]; [|done]. assert (a <> o) as Hne.
    { intros ->. by apply (empty_handed_spec m S o He y). }
    split; [congruence|]. simpl in *. by rewrite HS.
Qed.

Lemma finv_end_file m S S' o :
  finv fds F (holds m S E) -> empty_handed m S o -> (forall a, a <> o -> S' a <-> S a) ->
  finv fds F (holds (delete o m) S' E).
Proof.
  intros Hi He HS. eapply finv_ext; [|exact Hi]. intros x y. destruct x as [a|id]; [|done]. simpl.
  rewrite lookup_delete_Some. split.
  - intros (? & [Hne ?] & ?). by rewrite <- HS.
  - intros (? & ? & ?). assert (a <> o) as Hne by (intros ->; by apply (empty_handed_spec m S o He y)).
    by rewrite HS.
Qed.

Lemma finv_move_file m S S' o other fd :
  finv fds F (holds m S E) -> empty_handed m S o -> m !! other = Some fd -> o <> other -> ~ S other -> ~ S' o -> ~ S' other ->
  (forall a, a <> o -> S' a <-> S a) ->
  finv fds F (holds (<[other := -1]> (<[o := fd]> m)) S' E).
Proof.
  intros Hi He Hm Hne HSo HS'o HS'r HS.
  eapply (finv_move fds F (holds m S E) _ (inl other) (inl o)); [done|congruence|by apply empty_handed_spec|].
  intros x y. rewrite !hold_insert. split.
  - intros [(_ & _ & ? & _)|[Hx [(-> & -> & ? & _)|[Hx' Hh]]]]; [lia|left; done|right; split; [done|]].
    destruct x as [a|id]; [|done]. simpl in *. rewrite <- HS by congruence. done.
  - intros [(-> & Hy & Hmo & _)|[Hx Hh]].
    + right. split; [congruence|]. left. rewrite Hm in Hmo. by injection Hmo as ->.
    + right. split; [done|]. right. assert (x <> inl o) as Hxo by (intros ->; by apply (empty_handed_spec m S o He y)).
      split; [done|]. destruct x as [a|id]; [|done]. simpl in *. rewrite HS by congruence. done.
Qed.
End objects.

(** ** What a member does *)

(** The object whose descriptor a member closes. *)
Definition closed_object (op : fop) : option nat :=
  match op with
  | OpClose o | OpDtor o => Some o
  | OpMoveAssign o other => if decide (o = other) then None else Some o
  | _ => None
  end.

(** The objects when a member that closed [v], or had nothing to close, is over. *)
Definition settled (op : fop) (v : Z) (m : gmap nat Z) : gmap nat Z :=
  match op with
  | OpDefault o => <[o := -1]> m
  | OpMoveCtor o other => <[other := -1]> (<[o := default (-1) (m !! other)]> m)
  | OpMoveAssign o other => if decide (o = other) then m else <[other := -1]> (<[o := default (-1) (m !! other)]> m)
  | OpClose o => <[o := v]> m
  | OpDtor o => delete o m
  | _ => m
  end.
Definition final (op : fop) (r : sysret) (m : gmap nat Z) : gmap nat Z :=
  match op with OpOpen _ _ _ o => <[o := rt r]> m | _ => settled op (-1) m end.

(** The call a member suspends at. *)
Definition neutral (c : fcall) : Prop := match c with SysOpen _ _ _ | SysClose _ => False | _ => True end.
Definition call_of (op : fop) (c : fcall) (m : gmap nat Z) : Prop :=
  match op with
  | OpOpen path flags mode _ => c = SysOpen path flags mode
  | OpIO _ _ => neutral c
  | _ => exists o fd, closed_object op = Some o /\ m !! o = Some fd /\ 0 <= fd /\ c = SysClose fd
  end.
Definition continues (op : fop) (k : sysret -> act unit) : Prop :=
  forall r m, op_live op m -> run_to_block (k r) m = Ended tt (final op r m).

Lemma member_runs op m :
  op_live op m ->
  (exists c k, run_to_block (member op) m = Suspends c k m /\ call_of op c m /\ continues op k) \/
  ((forall o fd, closed_object op = Some o -> m !! o = Some fd -> fd < 0) /\
   (match op with OpOpen _ _ _ _ | OpIO _ _ => False | _ => True end) /\
   exists v, v < 0 /\ run_to_block (member op) m = Ended tt (settled op v m)).
Proof.
  intros Hl. unfold continues. destruct op as [o|path flags mode o|o other|o other|o|o|o i]; simpl in Hl.
  - right. split_and!; [done|done|]. by exists (-1).
  - left. eexists _, _. split; [reflexivity|]. done.
  - right. split_and!; [done|done|]. exists (-1). split; [done|]. destruct Hl as [_ [fd E]]. simpl. by rewrite E.
  - destruct Hl as [[fd Eo] [fd' Er]]. simpl. unfold File_move_assign. case_bool_decide as Heq; simpl.
    { right. rewrite decide_True by done. split_and!; [done|done|]. exists (-1). split; [done|]. simpl. by rewrite decide_True. }
    rewrite (decide_False (P := o = other)) by done. rewrite Eo. destruct (fd >=? 0) eqn:Efd; to_prop.
    + left. eexists _, _. split; [reflexivity|]. split; [exists o, fd; split_and!; [done|done|lia|done]|].
      intros r m' [_ [x Ex]]. simpl. rewrite (decide_False (P := o = other)) by done. rewrite lookup_insert_ne, Ex by done. simpl. by rewrite insert_insert_eq.
    + right. split_and!; [|done|].
      * intros a x [= <-]. rewrite Eo. intros [= <-]. lia.
      * exists (-1). split; [done|]. simpl. rewrite (decide_False (P := o = other)) by done. by rewrite Er.
  - destruct Hl as [fd Eo]. simpl. rewrite Eo. destruct (fd >=? 0) eqn:Efd; to_prop.
    + left. eexists _, _. split; [reflexivity|]. split; [exists o, fd; split_and!; [done|done|lia|done]|]. done.
    + right. split_and!; [|done|].
      * intros a x [= <-]. rewrite Eo. intros [= <-]. lia.
      * exists fd. split; [lia|]. simpl. by rewrite insert_id.
  - destruct Hl as [fd Eo]. simpl. rewrite Eo. destruct (fd >=? 0) eqn:Efd; to_prop.
    + left. eexists _, _. split; [reflexivity|]. split; [exists o, fd; split_and!; [done|done|lia|done]|].
      intros r m' _. simpl. by rewrite delete_insert_eq.
    + right. split_and!; [|done|].
      * intros a x [= <-]. rewrite Eo. intros [= <-]. lia.
      * by exists (-1).
  - destruct Hl as [fd Eo]. left. simpl. destruct i; simpl; rewrite Eo; simpl;
      (eexists _, _; split; [reflexivity|]; split; [done|]; done).
Qed.

(** A member that runs inline does in one go what it does in the pool in two. *)
Lemma run_inline_block {K} `{FileOS K} {A} t (p : act A) (s : fstate K) :
  run_inline t p s =
  match run_to_block p (files s) with
  | Ended a m => Ret a (set_files m s)
  | Suspends c k m => let '(r, s') := run_on t c (set_files m s) in run_inline t (k r) s'
  | Broken => Crash (Undefined "File")
  end.
Proof.
  revert s. induction p as [a|c k IH|o k IH|o fd p IH|o p IH]; intros [kn e m]; simpl; try done.
  - destruct (m !! o) as [fd|]; [|done]. by rewrite IH.
  - rewrite IH. simpl. done.
  - rewrite IH. simpl. done.
Qed.

Lemma final_frame op r m o : o ∉ objects op -> final op r m !! o = m !! o.
Proof.
  intros Ho. destruct op; simpl in *; try case_decide;
    repeat (rewrite lookup_insert_ne by set_solver); rewrite ?lookup_delete_ne by set_solver; done.
Qed.

Lemma settled_frame op v m o : o ∉ objects op -> settled op v m !! o = m !! o.
Proof.
  intros Ho. destruct op; simpl in *; try case_decide;
    repeat (rewrite lookup_insert_ne by set_solver); rewrite ?lookup_delete_ne by set_solver; done.
Qed.

Lemma op_live_frame op m m' : (forall o, o ∈ objects op -> m' !! o = m !! o) -> op_live op m -> op_live op m'.
Proof. intros Hm. destruct op; simpl in *; rewrite !Hm by set_solver; done. Qed.

Lemma call_of_frame op c m m' : (forall o, o ∈ objects op -> m' !! o = m !! o) -> call_of op c m -> call_of op c m'.
Proof.
  intros Hm. destruct op; simpl; try done; intros (a & fd & E & Ho & Hfd & ->); exists a, fd; split_and!; try done.
  - case_decide; [done|]. injection E as <-. rewrite Hm; [done|]. simpl. set_solver.
  - injection E as <-. rewrite Hm; [done|]. simpl. set_solver.
  - injection E as <-. rewrite Hm; [done|]. simpl. set_solver.
Qed.

(** The object a member changes holds nothing when it does so. *)
Definition target (op : fop) : nat :=
  match op with OpDefault o | OpOpen _ _ _ o | OpMoveCtor o _ | OpMoveAssign o _ | OpClose o | OpDtor o | OpIO o _ => o end.

Lemma settled_finv fds F E op v m (S S' : nat -> Prop) :
  match op with OpOpen _ _ _ _ | OpIO _ _ => False | _ => True end ->
  op_live op m -> finv fds F (holds m S E) -> (closed_object op <> None \/ m !! target op = None -> empty_handed m S (target op)) ->
  v < 0 -> (forall a, a <> target op -> S' a <-> S a) -> ~ S' (target op) -> (closed_object op = None -> ~ S (target op)) ->
  (forall o, o ∈ objects op -> o <> target op -> ~ S o) ->
  finv fds F (holds (settled op v m) S' E).
Proof.
  intros Hop Hl Hi He Hv HS HS' HSn Hob. destruct op as [o|path flags mode o|o other|o other|o|o|o i]; simpl in *; try done.
  - eapply finv_set_empty; [exact Hi|auto|done|done].
  - destruct Hl as [Hn [fd Er]]. rewrite Er. simpl. assert (o <> other) by congruence.
    assert (~ S other) by (apply Hob; [set_solver|done]).
    eapply finv_move_file; [exact Hi|auto|done|done|done|done|by rewrite HS by done|done].
  - destruct Hl as [Ho [fd Er]]. case_decide as Heq.
    + eapply finv_ext; [|exact Hi]. intros [a|id] y; [|done]. simpl. destruct (decide (a = o)) as [->|Hne]; [|by rewrite HS].
      specialize (HSn eq_refl). tauto.
    + rewrite Er. simpl. assert (~ S other) by (apply Hob; [set_solver|done]).
      eapply finv_move_file; [exact Hi|apply He; by left|done|done|done|done|by rewrite HS by done|done].
  - eapply finv_set_empty; [exact Hi|apply He; by left|done|done].
  - eapply finv_end_file; [exact Hi|apply He; by left|done].
Qed.

(** ** Members in progress *)

Definition stales (x : running) : option nat := match r_stage x with Executed _ _ _ => closed_object (r_op x) | _ => None end.
Definition opened (x : running) : option Z :=
  match r_op x, r_stage x with OpOpen _ _ _ _, Executed r _ _ => Some (rt r) | _, _ => None end.
Definition stale (l : gmap nat running) (o : nat) : Prop := exists id x, l !! id = Some x /\ stales x = Some o.
Definition in_transit (l : gmap nat running) (id : nat) (fd : Z) : Prop := exists x, l !! id = Some x /\ opened x = Some fd.

Definition stage_ok (m : gmap nat Z) (x : running) : Prop :=
  op_live (r_op x) m /\
  match r_stage x with
  | Queued c k => call_of (r_op x) c m /\ continues (r_op x) k
  | Executed r _ k => match r_op x with OpDefault _ | OpMoveCtor _ _ => False | op => continues op k end
  | Refused => True
  end.

Lemma closed_in_objects op o : closed_object op = Some o -> o ∈ objects op /\ o = target op.
Proof. destruct op; simpl; intros E; try case_decide; simplify_eq; split; try done; set_solver. Qed.

Lemma stale_in_objects (l : gmap nat running) id x o : l !! id = Some x -> stales x = Some o -> o ∈ objects (r_op x).
Proof. unfold stales. destruct (r_stage x); try done. intros _ E. by apply closed_in_objects. Qed.

Section members.
Context {K : Type} `{FileOSLaws K}.

Definition holding (x : fworld K) : holder -> Z -> Prop := holds (files (fst_ x)) (stale (ops x)) (in_transit (ops x)).

Record winv (x : fworld K) : Prop := {
  wi_own : finv (open_fds (kernel (fst_ x))) (foreign x) (holding x);
  wi_stage : forall id y, ops x !! id = Some y -> stage_ok (files (fst_ x)) y;
  wi_excl : forall id id' y y' o, ops x !! id = Some y -> ops x !! id' = Some y' ->
    o ∈ objects (r_op y) -> o ∈ objects (r_op y') -> id = id';
  wi_refused : forall id y, ops x !! id = Some y -> r_stage y = Refused -> accepting x = false }.

(** A member in progress keeps its objects from others. *)
Lemma unused_not_stale op (l : gmap nat running) o : unused op l -> o ∈ objects op -> ~ stale l o.
Proof. intros Hu Ho (id & y & Hy & Hs). eapply Hu; [exact Hy| |exact Ho]. by eapply stale_in_objects. Qed.

(** Objects that no member in progress uses change. *)
Lemma stage_ok_frame m m' (y : running) : (forall o, o ∈ objects (r_op y) -> m' !! o = m !! o) -> stage_ok m y -> stage_ok m' y.
Proof.
  intros Hm [Hl Hs]. split; [by eapply op_live_frame|]. destruct (r_stage y); [|done|done].
  destruct Hs as [Hc Hk]. split; [by eapply call_of_frame|done].
Qed.

(** *** A system call and the descriptors *)

Lemma close_finv fds F m S E o fd :
  finv fds F (holds m S E) -> m !! o = Some fd -> 0 <= fd -> ~ S o ->
  finv (fds ∖ {[fd]}) F (holds m (fun a => S a \/ a = o) E).
Proof.
  intros Hi Ho Hfd HS. eapply (finv_drop _ _ _ _ (inl o)); [exact Hi|done|]. intros [a|id] y; simpl; [|naive_solver].
  split; [intros (? & ? & Hn); split_and!; [done|done|tauto|]; intros [= ->]; tauto|].
  intros [(? & ? & ?) Hne]. split_and!; [done|done|]. intros [?| ->]; [done|congruence].
Qed.

(** The effect of the call of a member: its object becomes stale, or its number has
    a descriptor in transit. *)
Lemma call_finv op c m S E id F k r k' :
  call_of op c m -> os c k = (r, k') -> finv (open_fds k) F (holds m S E) ->
  (forall o, closed_object op = Some o -> ~ S o) -> (forall fd, ~ E id fd) ->
  finv (open_fds k') F (holds m (fun a => S a \/ closed_object op = Some a)
    (fun j fd => E j fd \/ (j = id /\ match op with OpOpen _ _ _ _ => fd = rt r | _ => False end))).
Proof.
  intros Hc Eos Hi HS HE.
  assert (forall op', (exists o fd, closed_object op' = Some o /\ m !! o = Some fd /\ 0 <= fd /\ c = SysClose fd) ->
    (forall o, closed_object op' = Some o -> ~ S o) ->
    finv (open_fds k') F (holds m (fun a => S a \/ closed_object op' = Some a) (fun j fd => E j fd \/ (j = id /\ False)))) as Hclose.
  { intros op' (o & fd & Eo & Hm & Hfd & ->) HS'. rewrite (close_result _ _ _ _ Eos).
    eapply finv_ext; [|by apply (close_finv _ _ m S E o fd); auto].
    intros [a|j] y; simpl; [|naive_solver]. rewrite Eo. naive_solver. }
  destruct op as [o|path flags mode o|o other|o other|o|o|o i]; try (by apply (Hclose _ Hc HS)).
  - simpl in *. subst c. destruct (open_result _ _ _ _ _ _ Eos) as [[Hr ->]|(Hr & Hn & ->)].
    + eapply finv_ext; [|exact Hi]. intros [a|j] y; simpl; [naive_solver|]. split; [|naive_solver].
      intros [Hy [?|[_ ->]]]; [done|lia].
    + eapply (finv_take _ _ _ _ (inr id) (rt r)); [exact Hi| |done|].
      * intros x [_ Hx]. by apply (HE x).
      * intros [a|j] y; simpl; naive_solver.
  - simpl in *. pose proof (other_result _ _ _ _ Eos) as Ho. destruct c; try done; rewrite Ho;
      (eapply finv_ext; [|exact Hi]; intros [a|j] y; simpl; naive_solver).
Qed.

(** A member that is over: what was in transit is in its object, nothing is stale. *)
Lemma final_finv fds F op r m (S S' : nat -> Prop) (E E' : nat -> Z -> Prop) id :
  match op with OpDefault _ | OpMoveCtor _ _ => False | _ => True end ->
  op_live op m -> finv fds F (holds m S E) ->
  (forall a, S a <-> S' a \/ closed_object op = Some a) -> (forall a, a ∈ objects op -> ~ S' a) ->
  (forall j fd, E j fd <-> E' j fd \/ (j = id /\ match op with OpOpen _ _ _ _ => fd = rt r | _ => False end)) ->
  (forall fd, ~ E' id fd) ->
  finv fds F (holds (final op r m) S' E').
Proof.
  intros Hop Hl Hi HS Hob HE HEid.
  destruct (match op with OpOpen _ _ _ _ => true | _ => false end) eqn:Eo.
  - destruct op as [o|path flags mode o|o other|o other|o|o|o i]; try done. simpl in *.
    eapply (finv_move _ _ (holds m S E) _ (inr id) (inl o)); [exact Hi|done| |].
    + intros y (_ & Hy & _). congruence.
    + intros x y. rewrite hold_insert. assert (~ S o) by (rewrite HS; intros [?|?]; [by apply (Hob o); [left|]|done]).
      assert (~ S' o) by (apply Hob; left). split.
      * intros [(-> & -> & ? & _)|[Hne Hh]]; [left; split; [done|]; simpl; split; [done|]; apply HE; auto|].
        right. destruct x as [a|j]; simpl in *.
        -- split; [done|]. rewrite HS. split_and!; [tauto|tauto|]. intros [?|?]; [tauto|done].
        -- destruct Hh as [Hy Hj]. split; [intros [= ->]; by apply (HEid y)|]. split; [done|]. apply HE. auto.
      * intros [[-> [Hy Hj]]|[Hne Hh]].
        -- left. apply HE in Hj as [Hj|[_ ->]]; [by destruct (HEid y)|done].
        -- right. destruct x as [a|j]; simpl in *.
           ++ split; [intros [= ->]; destruct Hh as (_ & ? & _); congruence|]. rewrite HS in Hh. tauto.
           ++ split; [done|]. destruct Hh as [Hy Hj]. split; [done|]. apply HE in Hj as [Hj|[-> _]]; [done|done].
  - assert (forall x y, holds m S E x y <-> holds m S E' x y) as HEx.
    { intros [a|j] y; [done|]. simpl. rewrite HE. destruct op; try done; naive_solver. }
    assert (finv fds F (holds m S E')) as Hi' by (eapply finv_ext; [|exact Hi]; intros x y; by rewrite HEx).
    destruct (match op with OpIO _ _ => true | _ => false end) eqn:Eio.
    + destruct op; try done. eapply finv_ext; [|exact Hi']. intros [a|j] y; [|done]. simpl. rewrite HS. simpl. naive_solver.
    + assert (final op r m = settled op (-1) m) as -> by (by destruct op).
      eapply (settled_finv fds F E' op (-1) m S S'); [by destruct op|done|done|..].
      * intros Hc fd Hfd. destruct (closed_object op) as [o|] eqn:Ec.
        -- right. rewrite HS. right. destruct (closed_in_objects _ _ Ec) as [_ ->]. done.
        -- destruct Hc as [?|?]; [done|congruence].
      * done.
      * intros a Ha. rewrite HS. split; [tauto|]. intros [?|Hc]; [done|]. by destruct (closed_in_objects _ _ Hc) as [_ ->].
      * apply Hob. destruct op; set_solver.
      * intros Hc. rewrite HS, Hc. intros [?|?]; [|done]. apply (Hob (target op)); [destruct op; set_solver|done].
      * intros o Ho Hne. rewrite HS. intros [?|Hc]; [by apply (Hob o)|]. by destruct (closed_in_objects _ _ Hc) as [_ ->].
Qed.

(** *** The steps *)

Lemma stale_insert (l : gmap nat running) id y o :
  (forall z, l !! id = Some z -> stales z = None) -> stale (<[id := y]> l) o <-> stale l o \/ stales y = Some o.
Proof.
  intros Hn. unfold stale. split.
  - intros (j & z & [[<- <-]|[_ Hz]]%lookup_insert_Some & Hs); eauto.
  - intros [(j & z & Hz & Hs)|Hs].
    + exists j, z. rewrite lookup_insert_ne; [done|]. intros <-. rewrite (Hn z Hz) in Hs. done.
    + exists id, y. by rewrite lookup_insert_eq.
Qed.

Lemma transit_insert (l : gmap nat running) id y j fd :
  (forall z, l !! id = Some z -> opened z = None) ->
  in_transit (<[id := y]> l) j fd <-> in_transit l j fd \/ (j = id /\ opened y = Some fd).
Proof.
  intros Hn. unfold in_transit. split.
  - intros (z & [[<- <-]|[_ Hz]]%lookup_insert_Some & Hs); eauto.
  - intros [(z & Hz & Hs)|[-> Hs]].
    + exists z. rewrite lookup_insert_ne; [done|]. intros <-. rewrite (Hn z Hz) in Hs. done.
    + exists y. by rewrite lookup_insert_eq.
Qed.

Lemma stale_delete (l : gmap nat running) id y o :
  l !! id = Some y -> stale l o <-> stale (delete id l) o \/ stales y = Some o.
Proof.
  intros Hy. rewrite <- (insert_delete_id l id y Hy) at 1. apply stale_insert. intros z Hz. by rewrite lookup_delete_eq in Hz.
Qed.

Lemma transit_delete (l : gmap nat running) id y j fd :
  l !! id = Some y -> in_transit l j fd <-> in_transit (delete id l) j fd \/ (j = id /\ opened y = Some fd).
Proof.
  intros Hy. rewrite <- (insert_delete_id l id y Hy) at 1. apply transit_insert. intros z Hz. by rewrite lookup_delete_eq in Hz.
Qed.

(** A member on objects that nobody uses runs to its end without a blocking call. *)
Lemma ended_winv op v x m :
  winv x -> op_valid op x -> (forall o fd, closed_object op = Some o -> files (fst_ x) !! o = Some fd -> fd < 0) ->
  match op with OpOpen _ _ _ _ | OpIO _ _ => False | _ => True end -> v < 0 -> m = settled op v (files (fst_ x)) ->
  winv (FWorld (set_files m (fst_ x)) (ops x) (accepting x) (foreign x)).
Proof.
  intros [H1 H2 H3 H4] [Hl Hu] Hneg Hop Hv ->. split; simpl; [| |done|done].
  - assert (forall o, o ∈ objects op -> ~ stale (ops x) o) as Hns by (intros o; by apply unused_not_stale).
    assert (target op ∈ objects op) as Ht by (destruct op; set_solver).
    eapply settled_finv; [done|done|exact H1| |done|done|by apply Hns|by intros _; apply Hns|by intros o Ho _; apply Hns].
    intros Hc fd Hfd. left. destruct (closed_object op) as [o|] eqn:Ec.
    + destruct (closed_in_objects _ _ Ec) as [_ ->]. eauto.
    + destruct Hc as [?|?]; [done|congruence].
  - intros id y Hy. eapply stage_ok_frame; [|by apply (H2 id)]. intros o Ho. apply settled_frame. by eapply Hu.
Qed.

Lemma start_winv w op id x x' :
  winv x -> op_valid op x -> ops x !! id = None -> go_on id w op (member op) x = Some x' -> winv x'.
Proof.
  intros Hi Hv Hid E. unfold go_on in E.
  destruct (member_runs op (files (fst_ x)) (proj1 Hv)) as [(c & k & Er & Hc & Hk)|(Hneg & Hop & v & Hlt & Er)]; rewrite Er in E; injection E as <-.
  - destruct Hi as [H1 H2 H3 H4]. set (y := Running w op (if accepting x then Queued c k else Refused)).
    assert (stales y = None /\ opened y = None) as [Es Eo] by (unfold stales, opened, y; simpl; by destruct (accepting x), op).
    split; simpl.
    + eapply finv_ext; [|exact H1]. intros [a|j] fd; unfold holding; simpl.
      * rewrite stale_insert by (intros z Hz; congruence). rewrite Es. naive_solver.
      * rewrite transit_insert by (intros z Hz; congruence). rewrite Eo. naive_solver.
    + intros j z [[<- <-]|[_ Hz]]%lookup_insert_Some; [|by apply (H2 j)].
      split; [apply Hv|]. unfold y. simpl. by destruct (accepting x).
    + intros i j a b o [[<- <-]|[_ Ha]]%lookup_insert_Some [[<- <-]|[_ Hb]]%lookup_insert_Some Hoa Hob; [done| | |by eapply H3].
      * exfalso. by apply (proj2 Hv _ _ _ Hb Hob).
      * exfalso. by apply (proj2 Hv _ _ _ Ha Hoa).
    + intros j z [[<- <-]|[_ Hz]]%lookup_insert_Some Hst; [|by eapply H4]. unfold y in Hst. simpl in Hst. by destruct (accepting x).
  - rewrite (delete_id _ _ Hid). by eapply ended_winv.
Qed.

Lemma execute_winv id w op c k t r e s' x :
  winv x -> ops x !! id = Some (Running w op (Queued c k)) -> pool_execute t c (fst_ x) = ((r, e), s') ->
  winv (FWorld s' (<[id := Running w op (Executed r e k)]> (ops x)) (accepting x) (foreign x)).
Proof.
  intros [H1 H2 H3 H4] Hid E. destruct (H2 id _ Hid) as [Hl [Hc Hk]]. simpl in Hl, Hc, Hk.
  unfold pool_execute, run_on in E. destruct (os c (kernel (fst_ x))) as [r0 k0] eqn:Eos. injection E as <- <- <-.
  assert (forall o, closed_object op = Some o -> ~ stale (ops x) o) as Hns.
  { intros o Ho (j & z & Hz & Hs). assert (id = j) as <-.
    { eapply (H3 id j _ z o Hid Hz); [by apply closed_in_objects|by eapply stale_in_objects]. }
    rewrite Hid in Hz. injection Hz as <-. done. }
  assert (forall fd, ~ in_transit (ops x) id fd) as Hnt.
  { intros fd (z & Hz & Hs). rewrite Hid in Hz. injection Hz as <-. by destruct op. }
  split; simpl.
  - eapply finv_ext; [|exact (call_finv op c _ _ _ id _ _ _ _ Hc Eos H1 Hns Hnt)]. intros [a|j] fd; unfold holding; simpl.
    + rewrite stale_insert by (intros z Hz; rewrite Hid in Hz; by injection Hz as <-). done.
    + rewrite transit_insert by (intros z Hz; rewrite Hid in Hz; injection Hz as <-; by destruct op).
      unfold opened. simpl. destruct op; naive_solver.
  - intros j z [[<- <-]|[_ Hz]]%lookup_insert_Some; [|by apply (H2 j)]. split; [done|]. simpl.
    destruct op; try done; by destruct Hc as (? & ? & ? & _).
  - assert (forall j z, <[id := Running w op (Executed r0 (match set_errno r0 with Some n => upd_errno t n (errno (fst_ x))
        | None => errno (fst_ x) end t) k)]> (ops x) !! j = Some z -> exists y, ops x !! j = Some y /\ r_op y = r_op z) as Hsame.
    { intros j z [[<- <-]|[_ Hz]]%lookup_insert_Some; eauto. }
    intros i j a b o (a' & Ha & <-)%Hsame (b' & Hb & <-)%Hsame. by apply (H3 i j a' b' o).
  - intros j z [[<- <-]|[_ Hz]]%lookup_insert_Some Hst; [done|by eapply H4].
Qed.

Lemma resume_winv id w op r e k x x' :
  winv x -> ops x !! id = Some (Running w op (Executed r e k)) ->
  go_on id w op (k r) (FWorld (copy_out (own_thread w) e (fst_ x)) (ops x) (accepting x) (foreign x)) = Some x' -> winv x'.
Proof.
  intros [H1 H2 H3 H4] Hid E. destruct (H2 id _ Hid) as [Hl Hk]. simpl in Hl, Hk.
  assert (match op with OpDefault _ | OpMoveCtor _ _ => False | _ => True end /\ continues op k) as [Hop Hk'] by (by destruct op).
  unfold go_on in E. simpl in E. rewrite (Hk' r _ Hl) in E. injection E as <-.
  assert (forall j z o, delete id (ops x) !! j = Some z -> o ∈ objects (r_op z) -> o ∉ objects op) as Hu.
  { intros j z o [Hne Hz]%lookup_delete_Some Ho Ho'. apply Hne. by apply (H3 id j _ z o Hid Hz). }
  split; simpl.
  - eapply (final_finv _ _ op r _ (stale (ops x)) _ (in_transit (ops x)) _ id); [done|done|exact H1|..].
    + intros a. by rewrite (stale_delete _ _ _ a Hid).
    + intros a Ha (j & z & Hz & Hs). eapply (Hu j z a Hz); [by eapply stale_in_objects|done].
    + intros j fd. rewrite (transit_delete _ _ _ j fd Hid). unfold opened. simpl. destruct op; naive_solver.
    + intros fd (z & Hz & _). simpl in Hz. by rewrite lookup_delete_eq in Hz.
  - intros j z Hz. pose proof Hz as [_ Hz']%lookup_delete_Some. eapply stage_ok_frame; [|by apply (H2 j)].
    intros o Ho. apply final_frame. by eapply Hu.
  - intros i j a b o [_ Ha]%lookup_delete_Some [_ Hb]%lookup_delete_Some. by apply H3.
  - intros j z [_ Hz]%lookup_delete_Some. by apply (H4 j).
Qed.

Lemma inline_winv w op x s' :
  winv x -> op_valid op x -> run_inline (own_thread w) (member op) (fst_ x) = Ret tt s' ->
  winv (FWorld s' (ops x) (accepting x) (foreign x)).
Proof.
  intros Hi Hv E. rewrite run_inline_block in E.
  destruct (member_runs op (files (fst_ x)) (proj1 Hv)) as [(c & k & Er & Hc & Hk)|(Hneg & Hop & v & Hlt & Er)]; rewrite Er in E;
    [|injection E as <-; by eapply ended_winv].
  destruct Hi as [H1 H2 H3 H4]. unfold run_on in E. simpl in E. destruct (os c (kernel (fst_ x))) as [r k0] eqn:Eos.
  rewrite run_inline_block in E. simpl in E. rewrite (Hk r _ (proj1 Hv)) in E. injection E as <-.
  set (id := fresh (dom (ops x))). assert (ops x !! id = None) as Hid by (apply not_elem_of_dom, is_fresh).
  split; simpl; [| |done|done].
  - assert (match op with OpDefault _ | OpMoveCtor _ _ => False | _ => True end) as Hop
      by (destruct op; try done; by destruct Hc as (? & ? & ? & _)).
    eapply (final_finv _ _ op r _ _ _ _ _ id); [done|apply Hv| | |intros a Ha; by eapply unused_not_stale; [apply Hv|]| |].
    + eapply (call_finv op c _ _ _ id); [exact Hc|exact Eos|exact H1| |].
      * intros o Ho. eapply unused_not_stale; [apply Hv|by apply closed_in_objects].
      * intros fd (z & Hz & _). congruence.
    + done.
    + done.
    + intros fd (z & Hz & _). simpl in Hz. congruence.
  - intros j z Hz. eapply stage_ok_frame; [|by apply (H2 j)]. intros o Ho. apply final_frame. by eapply (proj2 Hv).
Qed.

Lemma file_step_winv x x' : file_step x x' -> winv x -> winv x'.
Proof.
  intros Hs Hi. destruct Hs as [w op x s' _ Hv E|w op id x x' _ Hv Hid E|id w op c k t r e s' x Hid E|id w op r e k x x' Hid E|x|k e F x Hd Hk].
  - by eapply inline_winv.
  - by eapply start_winv.
  - by eapply execute_winv.
  - by eapply resume_winv.
  - destruct Hi as [H1 H2 H3 H4]. by split.
  - destruct Hi as [[F1 F2 F3 F4] H2 H3 H4]. split; simpl; [|done..].
    assert (forall fd, fd ∈ open_fds (kernel (fst_ x)) ∖ foreign x <-> exists h, holding x h fd) as Ho.
    { intros fd. rewrite elem_of_difference, F1. specialize (fun h => F2 h fd). naive_solver. }
    split; [|intros h fd Hh; specialize (proj2 (Ho fd) (ex_intro _ h Hh)); set_solver|done|done].
    intros fd. rewrite Hk, elem_of_union, Ho. done.
Qed.

Lemma file_reachable k e x : rtc file_step (file_start k e) x -> winv x.
Proof.
  intros Hr. eapply (rtc_invariant file_step winv); [apply file_step_winv|exact Hr|]. split; simpl; [|done..]. split.
  - intros fd. split; [by right|]. intros [[[o|id] Hh]|?]; [destruct Hh as (_ & Hh & _)|destruct Hh as (_ & z & Hh & _)|done]; done.
  - intros [o|id] fd Hh; [destruct Hh as (_ & Hh & _)|destruct Hh as (_ & z & Hh & _)]; done.
  - intros [o|id] h fd Hh; [destruct Hh as (_ & Hh & _)|destruct Hh as (_ & z & Hh & _)]; done.
  - intros [o|id] a b Hh; [destruct Hh as (_ & Hh & _)|destruct Hh as (_ & z & Hh & _)]; done.
Qed.

End members.

(** ** Theorems *)

Section theorems.
Context {K : Type} `{FileOSLaws K}.

Lemma resume_ends (x : fworld K) id w op r e k :
  winv x -> ops x !! id = Some (Running w op (Executed r e k)) ->
  exists x', file_step x x' /\ ops x' = delete id (ops x).
Proof.
  intros Hi Hid. destruct (wi_stage _ Hi id _ Hid) as [Hl Hk]. simpl in Hl, Hk.
  assert (continues op k) as Hk' by (by destruct op). eexists. split.
  - eapply fs_resume; [exact Hid|]. unfold go_on. simpl. by rewrite (Hk' r _ Hl).
  - done.
Qed.

Lemma queued_ends (x : fworld K) id w op c k :
  winv x -> ops x !! id = Some (Running w op (Queued c k)) ->
  exists x1 x2, file_step x x1 /\ file_step x1 x2 /\ ops x2 = delete id (ops x).
Proof.
  intros Hi Hid. destruct (pool_execute 0 c (fst_ x)) as [[r e] s'] eqn:E.
  pose proof (fs_execute id w op c k 0 r e s' x Hid E) as Hs1. pose proof (file_step_winv _ _ Hs1 Hi) as Hi1.
  destruct (resume_ends _ id w op r e k Hi1) as (x2 & Hs2 & Ho); [apply lookup_insert_eq|].
  eexists _, x2. split_and!; [exact Hs1|exact Hs2|]. rewrite Ho. simpl. by rewrite delete_insert_eq.
Qed.

(** C31. Files own their descriptors.  In every state that constructions, moves,
    assignments, closes, destructions and I/O calls of any callers reach, inline or
    through the pool, in any order and interleaved with each other at their blocking
    calls (no object being used by two members at a time), with other code that opens
    and closes descriptors of its own, and with the pool being stopped: what is open is exactly
    what the objects hold, what members in progress have opened and not stored yet,
    and what belongs to the other code, each with one owner; an object whose close was
    executed and not stored yet holds nothing, although [fd_] still names the number;
    a close that waits in the pool names a descriptor that its object holds, so none
    is closed twice or after its number is reused.  A member called on free objects
    starts, one whose call the pool accepted ends with the execution of the call and
    the resumption of its fiber, and only a stopped pool refuses one; when no object and no member
    is left, none of their descriptors is open. *)
Theorem file_descriptors_owned_once k e (x : fworld K) :
  rtc file_step (file_start k e) x ->
  finv (open_fds (kernel (fst_ x))) (foreign x) (holding x) /\
  (forall id w op fd c, ops x !! id = Some (Running w op (Queued (SysClose fd) c)) ->
     exists o, o ∈ objects op /\ holding x (inl o) fd) /\
  (forall id y, ops x !! id = Some y ->
     match r_stage y with
     | Queued _ _ => exists x1 x2, file_step x x1 /\ file_step x1 x2 /\ ops x2 = delete id (ops x)
     | Executed _ _ _ => exists x1, file_step x x1 /\ ops x1 = delete id (ops x)
     | Refused => accepting x = false
     end) /\
  (forall w op id, op_valid op x -> ops x !! id = None ->
     (exists s', run_inline (own_thread w) (member op) (fst_ x) = Ret tt s') /\ exists x', go_on id w op (member op) x = Some x') /\
  (files (fst_ x) = ∅ -> ops x = ∅ -> open_fds (kernel (fst_ x)) = foreign x).
Proof.
  intros Hi%file_reachable. split_and!; [apply Hi| | | |].
  - intros id w op fd c Hid. destruct (wi_stage _ Hi id _ Hid) as [_ [Hc _]]. simpl in Hc.
    assert (exists o, closed_object op = Some o /\ files (fst_ x) !! o = Some fd /\ 0 <= fd) as (o & Ho & Hm & Hfd).
    { destruct op; simpl in *; try done; destruct Hc as (a & n & Hc & ? & ? & [= ->]); eauto. }
    exists o. destruct (closed_in_objects _ _ Ho) as [Hin _]. split; [done|]. split_and!; [done|done|].
    intros (j & z & Hz & Hs). assert (id = j) as <-.
    { eapply (wi_excl _ Hi id j _ z o Hid Hz); [done|by eapply stale_in_objects]. }
    rewrite Hid in Hz. injection Hz as <-. done.
  - intros id [w op [c k0|r e0 k0|]] Hid; simpl; [by eapply queued_ends|by eapply resume_ends|by eapply (wi_refused _ Hi)].
  - intros w op id [Hl _] _. unfold go_on. rewrite run_inline_block.
    destruct (member_runs op _ Hl) as [(c & k0 & -> & _ & Hk)|(_ & _ & v & _ & ->)]; [|eauto]. split; [|eauto].
    unfold run_on. simpl. destruct (os c (kernel (fst_ x))) as [r k1]. rewrite run_inline_block. simpl. rewrite (Hk r _ Hl). eauto.
  - intros Ef Eo. apply set_eq. intros fd. rewrite (fi_open _ _ _ (wi_own _ Hi)). split; [|by right].
    unfold holding. rewrite Ef, Eo. intros [[[o|id] Hh]|?]; [by destruct Hh as (_ & ? & _)|by destruct Hh as (_ & z & ? & _)|done].
Qed.

(** C32. Through the pool or inline.  When the pool accepts the call of a fiber and a
    pool thread executes it, the caller gets the value and the bytes, and the kernel
    the effect, that the same call run inline would have given; the caller's [errno]
    is in both cases the one the call set, and if the call set none it is left alone
    inline but overwritten with the pool thread's through the pool. *)
Theorem blocking_path_is_transparent w t c (s : fstate K) r savedErrno s1 ri si :
  pool_execute t c s = ((r, savedErrno), s1) -> run_on (own_thread w) c s = (ri, si) ->
  let sp := copy_out (own_thread w) savedErrno s1 in
  r = ri /\ kernel sp = kernel si /\ files sp = files si /\
  errno sp (own_thread w) = default (errno s t) (set_errno r) /\
  errno si (own_thread w) = default (errno s (own_thread w)) (set_errno r).
Proof.
  unfold pool_execute, run_on. destruct (os c (kernel s)) as [r0 k0]. intros [= <- <- <-] [= <- <-]. simpl.
  unfold upd_errno. destruct (set_errno r0); simpl; by rewrite ?Z.eqb_refl.
Qed.

End theorems.

(** ** A kernel that satisfies the laws *)

Record toy_os := ToyOS { toy_fds : gset Z }.

(** The new descriptor is one above every open one. *)
Definition toy_fresh (k : toy_os) : Z := Z.of_nat (fresh (set_map Z.to_nat (toy_fds k) : gset nat)).

Definition toy_call (c : fcall) (k : toy_os) : sysret * toy_os :=
  match c with
  | SysOpen _ _ _ => (SysRet (toy_fresh k) [] None, ToyOS ({[toy_fresh k]} ∪ toy_fds k))
  | SysClose fd =>
      (if decide (fd ∈ toy_fds k) then SysRet 0 [] None else SysRet (-1) [] (Some 9),
       ToyOS (toy_fds k ∖ {[fd]}))
  | _ => (SysRet 0 [] None, k)
  end.

#[export] Instance toy_fileos : FileOS toy_os := {| os := toy_call; open_fds := toy_fds |}.

Lemma toy_fresh_spec k : 0 <= toy_fresh k /\ toy_fresh k ∉ toy_fds k.
Proof.
  unfold toy_fresh. split; [lia|]. intros Hin.
  apply (is_fresh (set_map Z.to_nat (toy_fds k) : gset nat)).
  apply elem_of_map. exists (Z.of_nat (fresh (set_map Z.to_nat (toy_fds k) : gset nat))).
  split; [|done]. by rewrite Nat2Z.id.
Qed.

#[export] Instance toy_fileos_laws : FileOSLaws toy_os.
Proof.
  split.
  - intros path flags mode k r k' [= <- <-]. right. simpl.
    destruct (toy_fresh_spec k). done.
  - by intros fd k r k' [= _ <-].
  - intros c k r k' E. destruct c; simpl in E; by simplify_eq.
Qed.

(** A fiber opens a file through the pool; before it is resumed the descriptor is in
    transit, and the member ends with the resumption. *)
Definition on_fiber : caller := Caller true (Some 5) 1.
Definition open0 : fop := OpOpen EmptyString 0 0 0.
Definition opening : fworld toy_os :=
  FWorld (FState (ToyOS {[0]}) (fun _ => 0) ∅)
    {[7%nat := Running on_fiber open0 (Executed (SysRet 0 [] None) 0 (fun r => SetFd 0 (rt r) (Done tt)))]} true ∅.

Lemma opening_reachable : rtc file_step (file_start (ToyOS ∅) (fun _ => 0)) opening.
Proof.
  set (x1 := FWorld (FState (ToyOS ∅) (fun _ => 0) ∅)
    {[7%nat := Running on_fiber open0 (Queued (SysOpen EmptyString 0 0) (fun r => SetFd 0 (rt r) (Done tt)))]} true ∅).
  apply (rtc_l _ _ x1).
  - eapply (fs_start on_fiber open0 7); [done| |done|reflexivity]. split; [done|]. intros id y o Hy. done.
  - apply rtc_once. apply (fs_execute 7 on_fiber open0 (SysOpen EmptyString 0 0) _ 2 _ _ _ x1); [done|]. vm_compute. reflexivity.
Qed.

Lemma file_descriptors_owned_once_witness :
  open_fds (kernel (fst_ opening)) = {[0]} /\ files (fst_ opening) = ∅ /\ holding opening (inr 7%nat) 0 /\
  exists x1, file_step opening x1 /\ ops x1 = ∅.
Proof.
  destruct (file_descriptors_owned_once (ToyOS ∅) (fun _ => 0) opening opening_reachable) as (Hf & _ & Ho & _).
  split; [reflexivity|]. split; [reflexivity|]. split.
  - assert (Hin : 0 ∈ open_fds (kernel (fst_ opening))) by (simpl; set_solver).
    apply (fi_open _ _ _ Hf) in Hin as [[[o|id] Hh]|Hh]; [by destruct Hh as (_ & ? & _)| |set_solver].
    destruct Hh as (_ & z & Hz & _). simpl in Hz. apply lookup_singleton_Some in Hz as [<- <-]. split; [lia|]. by eexists.
  - destruct (Ho 7%nat _ eq_refl) as (x1 & Hs & E). exists x1. split; [exact Hs|]. rewrite E. reflexivity.
Defined.

(** A successful [close] through the pool leaves the pool thread's [errno]. *)
Definition closing0 : fstate toy_os := FState (ToyOS {[0]}) (fun t => t) ∅.

Lemma blocking_path_is_transparent_witness :
  exists r e s1 ri si, pool_execute 2 (SysClose 0) closing0 = ((r, e), s1) /\
    run_on (own_thread on_fiber) (SysClose 0) closing0 = (ri, si) /\ rt r = 0 /\ r = ri /\
    errno (copy_out 1 e s1) 1 = 2 /\ errno si 1 = 1.
Proof.
  destruct (pool_execute 2 (SysClose 0) closing0) as [[r e] s1] eqn:E1.
  destruct (run_on (own_thread on_fiber) (SysClose 0) closing0) as [ri si] eqn:E2.
  exists r, e, s1, ri, si. split; [reflexivity|]. split; [reflexivity|].
  destruct (blocking_path_is_transparent on_fiber 2 (SysClose 0) closing0 r e s1 ri si E1 E2) as (Hr & _ & _ & H1 & H2).
  assert (rt r = 0 /\ set_errno r = None) as [Hrt Hs] by (vm_compute in E1; injection E1 as <- _ _; by split).
  rewrite Hs in H1, H2. split; [exact Hrt|]. split; [exact Hr|]. split; [exact H1|exact H2].
Defined.
