(* ===== verification/Net.v ===== *)
(** * TCP connections (src/net.cpp, include/pulsar/net.hpp)

    Reading and writing whole buffers over a socket that returns what it likes,
    and the wait for readiness with its deadline. *)

From S2P Require Import Prelude.

Definition EINTR : Z := 4.
Definition EBADF : Z := 9.
Definition EAGAIN : Z := 11.
Definition EBUSY : Z := 16.
Definition EPIPE : Z := 32.
Definition ECONNRESET : Z := 104.
Definition ETIMEDOUT : Z := 110.

(** ** Reading and writing

    The surroundings of a call are a script: what [recv] or [send] and [Wait]
    answer, one after the other.  [Ready n]: the kernel moves up to [n] more
    bytes than one; [Eof]: 0 bytes; [SysErr e]: -1 with [errno] [e];
    [WaitOk]/[WaitErr e]: the answer of [Wait]; [Closing]: another fiber closes
    the connection.  A call whose script is used up is still in progress. *)
Inductive answer :=
| Ready (n : nat)
| Eof
| SysErr (e : Z)
| WaitOk
| WaitErr (e : Z)
| Closing.

(** The peer's bytes on their way in, and what was put on the wire. *)
Record Connection := Conn {
  closed_ : bool;
  reading_ : bool;
  writing_ : bool;
  incoming : list Z;
  wire : list Z;
  script : list answer }.

Definition set_closed (b : bool) (c : Connection) : Connection := Conn b (reading_ c) (writing_ c) (incoming c) (wire c) (script c).
Definition set_reading (b : bool) (c : Connection) : Connection := Conn (closed_ c) b (writing_ c) (incoming c) (wire c) (script c).
Definition set_writing (b : bool) (c : Connection) : Connection := Conn (closed_ c) (reading_ c) b (incoming c) (wire c) (script c).
Definition set_script (l : list answer) (c : Connection) : Connection := Conn (closed_ c) (reading_ c) (writing_ c) (incoming c) (wire c) l.

(** The result of a call: finished, or waiting. *)
Inductive progress (A : Type) : Type :=
| Finished (a : A) (c : Connection)
| InProgress.
Arguments Finished {A} a c.
Arguments InProgress {A}.

(** [recv] with room for [capacity] bytes: at least one and at most what is
    there. *)
Definition recv_count (n capacity : nat) (available : list Z) : nat := Nat.min (S n) (Nat.min capacity (length available)).

(** [Connection::DoRead]: the bytes read, or [errno].  One round per answer. *)
Fixpoint DoRead_loop (l : list answer) (capacity : nat) (c : Connection) : progress (list Z + Z) :=
  if closed_ c then Finished (inr EBADF) (set_script l c)
  else
    match l with
    | [] => InProgress
    | Ready n :: l' =>
        let k := recv_count n capacity (incoming c) in
        if (k =? 0)%nat then InProgress   (* the script promises bytes the peer has not sent *)
        else Finished (inl (take k (incoming c)))
               (Conn (closed_ c) (reading_ c) (writing_ c) (drop k (incoming c)) (wire c) l')
    | Eof :: l' => Finished (inl []) (set_script l' c)
    | SysErr e :: l' =>
        if e =? EINTR then DoRead_loop l' capacity c
        else if negb (e =? EAGAIN) then Finished (inr e) (set_script l' c)
        else
          match l' with
          | WaitOk :: l'' => DoRead_loop l'' capacity c
          | WaitErr w :: l'' => Finished (inr w) (set_script l'' c)
          | _ => InProgress
          end
    | Closing :: l' => DoRead_loop l' capacity (set_closed true c)
    | _ => InProgress
    end.

Definition DoRead (capacity : nat) (c : Connection) : progress (list Z + Z) :=
  if (capacity =? 0)%nat then Finished (inl []) c else DoRead_loop (script c) capacity c.

(** The loop of [Connection::ReadExact], with at most [fuel] rounds (each one
    that goes on has received a byte). *)
Fixpoint ReadExact_loop (fuel : nat) (size : nat) (received : list Z) (c : Connection) : progress (list Z * Z) :=
  if (length received <? size)%nat then
    match fuel with
    | O => InProgress
    | S fuel' =>
        match DoRead (size - length received) c with
        | InProgress => InProgress
        | Finished (inr e) c' => Finished (received, e) c'
        | Finished (inl bytes) c' =>
            if (length bytes =? 0)%nat then Finished (received, ECONNRESET) c'
            else ReadExact_loop fuel' size (received ++ bytes) c'
        end
    end
  else Finished (received, 0) c.

(** [Connection::ReadSome]: one read, [inl []] at the end of the stream. *)
Definition ReadSome (capacity : nat) (c : Connection) : progress (list Z + Z) :=
  if reading_ c then Finished (inr EBUSY) c
  else
    match DoRead capacity (set_reading true c) with
    | InProgress => InProgress
    | Finished r c' => Finished r (set_reading false c')
    end.

(** [Connection::ReadExact]: the buffer when it is full, else [errno]. *)
Definition ReadExact (size : nat) (c : Connection) : progress (list Z + Z) :=
  if reading_ c then Finished (inr EBUSY) c
  else
    match ReadExact_loop size size [] (set_reading true c) with
    | InProgress => InProgress
    | Finished (received, e) c' =>
        Finished (if (length received =? size)%nat then inl received else inr e) (set_reading false c')
    end.

(** The loop of [Connection::WriteAll]: how much of [buffer] was sent. *)
Fixpoint WriteAll_loop (l : list answer) (sent : nat) (buffer : list Z) (c : Connection) : progress (nat * Z) :=
  if (sent <? length buffer)%nat then
    if closed_ c then Finished (sent, EBADF) (set_script l c)
    else
      match l with
      | [] => InProgress
      | Ready n :: l' =>
          let k := Nat.min (S n) (length buffer - sent) in
          WriteAll_loop l' (sent + k) buffer
            (Conn (closed_ c) (reading_ c) (writing_ c) (incoming c) (wire c ++ take k (drop sent buffer)) (script c))
      | Eof :: l' => Finished (sent, EPIPE) (set_script l' c)
      | SysErr e :: l' =>
          if e =? EINTR then WriteAll_loop l' sent buffer c
          else if negb (e =? EAGAIN) then Finished (sent, e) (set_script l' c)
          else
            match l' with
            | WaitOk :: l'' => WriteAll_loop l'' sent buffer c
            | WaitErr w :: l'' => Finished (sent, w) (set_script l'' c)
            | _ => InProgress
            end
      | Closing :: l' => WriteAll_loop l' sent buffer (set_closed true c)
      | _ => InProgress
      end
  else Finished (sent, 0) (set_script l c).

(** [Connection::WriteAll]: [None] for true, else [errno]. *)
Definition WriteAll (buffer : list Z) (c : Connection) : progress (option Z) :=
  if writing_ c then Finished (Some EBUSY) c
  else
    match WriteAll_loop (script c) 0 buffer (set_writing true c) with
    | InProgress => InProgress
    | Finished (sent, e) c' => Finished (if (sent =? length buffer)%nat then None else Some e) (set_writing false c')
    end.

(** ** Waiting for readiness

    [Connection::Wait]: the event is registered first, then the timer started;
    the event's callback and the timer's race for [WaitState::outcome]. *)
Inductive wpc := WAdding | WTiming | WParked | WBack | WDone (ok : bool) (errno : Z).

(** [callbacks] counts event callbacks handed to the scheduler and not run,
    [w_in_flight] timer callbacks; [deciding]: the timer callback has won the race
    and not yet scheduled the fiber; [w_wakeups]: resumptions of the fiber in the
    scheduler. *)
Record waitcall := WC {
  w_pc : wpc;
  w_registered : bool;
  outcome_ : Z;
  w_timer_on : bool;
  w_in_flight : nat;
  callbacks : nat;
  deciding : bool;
  w_wakeups : nat;
  conn_closed : bool }.

(** [WaitState::Finish] *)
Definition Finish (value : Z) (w : waitcall) : waitcall :=
  if outcome_ w =? 0
  then WC (w_pc w) (w_registered w) value (w_timer_on w) (w_in_flight w) (callbacks w) (deciding w) (S (w_wakeups w)) (conn_closed w)
  else w.

(** [addEvent] under the connection's mutex; [err] is what a failure leaves. *)
Definition wait_register (ok : bool) (err : Z) (w : waitcall) : waitcall :=
  if conn_closed w
  then WC (WDone false EBADF) (w_registered w) (outcome_ w) (w_timer_on w) (w_in_flight w) (callbacks w) (deciding w) (w_wakeups w) (conn_closed w)
  else if ok
  then WC WTiming true (outcome_ w) (w_timer_on w) (w_in_flight w) (callbacks w) (deciding w) (w_wakeups w) (conn_closed w)
  else WC (WDone false err) (w_registered w) (outcome_ w) (w_timer_on w) (w_in_flight w) (callbacks w) (deciding w) (w_wakeups w) (conn_closed w).

(** The timer, when there is a deadline, and the yield. *)
Definition wait_yield (has_deadline : bool) (w : waitcall) : waitcall :=
  WC WParked (w_registered w) (outcome_ w) has_deadline (w_in_flight w) (callbacks w) (deciding w) (w_wakeups w) (conn_closed w).

(** The event goes off: its callback is scheduled. *)
Definition wait_unregister (w : waitcall) : waitcall :=
  if w_registered w
  then WC (w_pc w) false (outcome_ w) (w_timer_on w) (w_in_flight w) (S (callbacks w)) (deciding w) (w_wakeups w) (conn_closed w)
  else w.

(** [Connection::Close]: cancels the connection's events. *)
Definition wait_close (w : waitcall) : waitcall :=
  if conn_closed w then w
  else
    let w := wait_unregister w in
    WC (w_pc w) (w_registered w) (outcome_ w) (w_timer_on w) (w_in_flight w) (callbacks w) (deciding w) (w_wakeups w) true.

Definition run_event_callback (w : waitcall) : waitcall :=
  Finish 1 (WC (w_pc w) (w_registered w) (outcome_ w) (w_timer_on w) (w_in_flight w) (pred (callbacks w)) (deciding w) (w_wakeups w) (conn_closed w)).

Definition wait_expire (w : waitcall) : waitcall :=
  WC (w_pc w) (w_registered w) (outcome_ w) false (S (w_in_flight w)) (callbacks w) (deciding w) (w_wakeups w) (conn_closed w).

(** The timer callback: first the exchange, then the cancellation and the
    scheduling. *)
Definition timeout_decide (w : waitcall) : waitcall :=
  let won := outcome_ w =? 0 in
  WC (w_pc w) (w_registered w) (if won then 2 else outcome_ w) (w_timer_on w) (pred (w_in_flight w)) (callbacks w)
    (if won then true else deciding w) (w_wakeups w) (conn_closed w).
Definition timeout_finish (w : waitcall) : waitcall :=
  let w := if conn_closed w then w else wait_unregister w in
  WC (w_pc w) (w_registered w) (outcome_ w) (w_timer_on w) (w_in_flight w) (callbacks w) false (S (w_wakeups w)) (conn_closed w).

Definition wait_resume (w : waitcall) : waitcall :=
  WC WBack (w_registered w) (outcome_ w) (w_timer_on w) (w_in_flight w) (callbacks w) (deciding w) (pred (w_wakeups w)) (conn_closed w).

Definition wait_back (w : waitcall) : waitcall :=
  WC (if outcome_ w =? 2 then WDone false ETIMEDOUT else if conn_closed w then WDone false EBADF else WDone true 0)
    (w_registered w) (outcome_ w) false (w_in_flight w) (callbacks w) (deciding w) (w_wakeups w) (conn_closed w).

Inductive wait_step (has_deadline : bool) : waitcall -> waitcall -> Prop :=
| wt_register w ok err : w_pc w = WAdding -> wait_step has_deadline w (wait_register ok err w)
| wt_yield w : w_pc w = WTiming -> wait_step has_deadline w (wait_yield has_deadline w)
| wt_ready w : wait_step has_deadline w (wait_unregister w)
| wt_close w : wait_step has_deadline w (wait_close w)
| wt_callback w : (0 < callbacks w)%nat -> wait_step has_deadline w (run_event_callback w)
| wt_expire w : w_timer_on w = true -> wait_step has_deadline w (wait_expire w)
| wt_decide w : (0 < w_in_flight w)%nat -> wait_step has_deadline w (timeout_decide w)
| wt_timeout w : deciding w = true -> wait_step has_deadline w (timeout_finish w)
| wt_resume w : w_pc w = WParked -> (0 < w_wakeups w)%nat -> wait_step has_deadline w (wait_resume w)
| wt_back w : w_pc w = WBack -> wait_step has_deadline w (wait_back w).

Definition wait_start (closed : bool) : waitcall := WC WAdding false 0 false 0 0 false 0 closed.
