(* ===== verification/NetProofs.v ===== *)
(** * Correctness of connections *)

From S2P Require Import Prelude Net.

#[local] Arguments Nat.min : simpl never.

(** ** Reading *)

(** What reading changes: the incoming bytes shrink from the front. *)
Definition consumed (k : nat) (c c' : Connection) : Prop :=
  incoming c' = drop k (incoming c) /\ wire c' = wire c /\ reading_ c' = reading_ c /\ writing_ c' = writing_ c.

Lemma consumed_refl c c' :
  incoming c' = incoming c -> wire c' = wire c -> reading_ c' = reading_ c -> writing_ c' = writing_ c -> consumed 0 c c'.
Proof. intros. unfold consumed. by rewrite drop_0. Qed.

Lemma consumed_trans j k c1 c2 c3 : consumed j c1 c2 -> consumed k c2 c3 -> consumed (j + k) c1 c3.
Proof.
  intros (H1 & H2 & H3 & H4) (G1 & G2 & G3 & G4). unfold consumed.
  rewrite G1, H1, G2, G3, G4, drop_drop. done.
Qed.

Lemma DoRead_loop_spec l : forall capacity c r c',
  DoRead_loop l capacity c = Finished r c' ->
  match r with
  | inl bytes => bytes = take (length bytes) (incoming c) /\ (length bytes <= capacity)%nat /\ consumed (length bytes) c c'
  | inr _ => consumed 0 c c'
  end.
Proof.
  induction l as [l IH] using (induction_ltof1 _ (@length answer)). unfold ltof in IH.
  intros capacity c r c' E.
  destruct l as [|x l]; simpl in E; destruct (closed_ c) eqn:Ec; simplify_eq; try by apply consumed_refl.
  destruct x as [n| |e| |e|]; simplify_eq.
  - set (k := recv_count n capacity (incoming c)) in *. destruct (k =? 0)%nat eqn:Ek; simplify_eq.
    assert (Hk : (k <= length (incoming c))%nat /\ (k <= capacity)%nat) by (unfold k, recv_count; lia).
    rewrite length_take, Nat.min_l by lia. split_and!; try done. lia.
  - simpl. split; [done|]. split; [lia|]. by apply consumed_refl.
  - destruct (e =? EINTR); [by eapply (IH l); [simpl; lia|]|].
    destruct (negb (e =? EAGAIN)); [simplify_eq; by apply consumed_refl|].
    destruct l as [|[n| |e'| |e'|] l]; simplify_eq; [by eapply (IH l); [simpl; lia|]|by apply consumed_refl].
  - apply (IH l) in E; [|simpl; lia]. destruct r as [bytes|e]; simpl in *; [|done].
    destruct E as (H1 & H2 & H3). done.
Qed.

Lemma DoRead_spec capacity c r c' :
  DoRead capacity c = Finished r c' ->
  match r with
  | inl bytes => bytes = take (length bytes) (incoming c) /\ (length bytes <= capacity)%nat /\ consumed (length bytes) c c'
  | inr _ => consumed 0 c c'
  end.
Proof.
  unfold DoRead. destruct (capacity =? 0)%nat eqn:E; [|apply DoRead_loop_spec].
  intros [= <- <-]. simpl. split; [done|]. split; [lia|]. by apply consumed_refl.
Qed.

Lemma ReadExact_loop_spec size fuel : forall received c r e c',
  (length received <= size)%nat ->
  ReadExact_loop fuel size received c = Finished (r, e) c' ->
  (length r <= size)%nat /\ exists bytes, r = received ++ bytes /\ bytes = take (length bytes) (incoming c) /\
    consumed (length bytes) c c'.
Proof.
  induction fuel as [|fuel IH]; intros received c r e c' Hlen E; simpl in E;
    destruct (length received <? size)%nat eqn:El; simplify_eq.
  1,3: (split; [done|]); exists []; rewrite app_nil_r; split_and!; try done; by apply consumed_refl.
  apply Nat.ltb_lt in El. destruct (DoRead (size - length received) c) as [[bytes|x] c1|] eqn:Ed; try done.
  - pose proof (DoRead_spec _ _ _ _ Ed) as (H1 & H2 & H3).
    destruct (length bytes =? 0)%nat eqn:Eb; simplify_eq.
    + apply Nat.eqb_eq in Eb. apply nil_length_inv in Eb as ->. split; [done|]. exists []. rewrite app_nil_r. done.
    + apply IH in E; [|rewrite length_app; lia]. destruct E as (Hr & b2 & -> & Hb2 & Hc2). split; [done|].
      exists (bytes ++ b2). rewrite app_assoc. split; [done|]. rewrite length_app. split.
      * destruct H3 as (Hi & _). rewrite Hi in Hb2. rewrite H1 at 1. rewrite Hb2 at 1. by rewrite take_take_drop.
      * by eapply consumed_trans.
  - pose proof (DoRead_spec _ _ _ _ Ed) as H1. simplify_eq. split; [done|]. exists []. by rewrite app_nil_r.
Qed.

Lemma ReadExact_spec size c r c' :
  reading_ c = false -> ReadExact size c = Finished r c' ->
  reading_ c' = false /\ wire c' = wire c /\ writing_ c' = writing_ c /\
  match r with
  | inl bytes => bytes = take size (incoming c) /\ length bytes = size /\ incoming c' = drop size (incoming c)
  | inr _ => exists k, (k <= size)%nat /\ incoming c' = drop k (incoming c)
  end.
Proof.
  intros Hr E. unfold ReadExact in E. rewrite Hr in E.
  destruct (ReadExact_loop size size [] (set_reading true c)) as [[rec e] c1|] eqn:El; [|done].
  simplify_eq. apply ReadExact_loop_spec in El; [|simpl; lia]. simpl in El.
  destruct El as (Hlen & bytes & -> & Hb & (Hi & Hw & _ & Hwr)). simpl in *.
  destruct (Nat.eqb_spec (length bytes) size) as [Es|Es]; simpl; (split; [done|]); (split; [done|]); (split; [done|]).
  - subst size. done.
  - exists (length bytes). done.
Qed.

(** Exact reads.  While no other fiber reads, [ReadExact] of [size] bytes that
    succeeds has put exactly the next [size] bytes of the stream into the buffer, in
    order, however the kernel cut them up, whatever interruptions and waits came in
    between; what follows them stays unread.  When it fails, some prefix of them was
    consumed.  Either way the connection can be read again afterwards and nothing
    else of it changed. *)
Theorem ReadExact_reads_exactly size c r c' :
  reading_ c = false -> ReadExact size c = Finished r c' ->
  reading_ c' = false /\ wire c' = wire c /\ writing_ c' = writing_ c /\
  match r with
  | inl bytes => bytes = take size (incoming c) /\ length bytes = size /\ incoming c' = drop size (incoming c)
  | inr _ => exists k, (k <= size)%nat /\ incoming c' = drop k (incoming c)
  end.
Proof. apply ReadExact_spec. Qed.

(** Surroundings in which a call makes progress: at least [k] transfers, with
    interruptions and successful waits in between. *)
Inductive friendly : nat -> list answer -> Prop :=
| fr_done l : friendly 0 l
| fr_ready n k l : friendly k l -> friendly (S k) (Ready n :: l)
| fr_intr k l : friendly k l -> friendly k (SysErr EINTR :: l)
| fr_again k l : friendly k l -> friendly k (SysErr EAGAIN :: WaitOk :: l).

Lemma DoRead_friendly k l capacity c :
  friendly (S k) l -> closed_ c = false -> (0 < capacity)%nat -> incoming c <> [] ->
  exists bytes c', DoRead_loop l capacity c = Finished (inl bytes) c' /\ bytes <> [] /\ friendly k (script c') /\
    closed_ c' = false.
Proof.
  intros Hf. remember (S k) as sk eqn:Esk. revert k Esk.
  induction Hf as [l|n k' l Hf _|k' l Hf IH|k' l Hf IH]; intros k Esk Hc Hcap Hin; simplify_eq; simpl; rewrite Hc.
  - set (j := recv_count n capacity (incoming c)). destruct (incoming c) as [|b bs] eqn:Ei; [done|].
    assert (Hj : (0 < j)%nat) by (unfold j, recv_count; rewrite length_cons; lia).
    destruct (j =? 0)%nat eqn:Ej; [apply Nat.eqb_eq in Ej; lia|]. eexists _, _. split; [reflexivity|].
    split; [|done]. destruct j; [lia|done].
  - by apply IH.
  - by apply IH.
Qed.

Lemma friendly_mono j k l : (j <= k)%nat -> friendly k l -> friendly j l.
Proof.
  intros Hjk Hf. revert j Hjk. induction Hf as [l|n k l Hf IH|k l Hf IH|k l Hf IH]; intros j Hjk.
  - replace j with 0%nat by lia. constructor.
  - destruct j; constructor. apply IH. lia.
  - constructor. by apply IH.
  - constructor. by apply IH.
Qed.

Lemma ReadExact_loop_friendly size k fuel : forall received c,
  (size - length received <= fuel)%nat -> (size - length received <= length (incoming c))%nat ->
  friendly (fuel + k) (script c) -> closed_ c = false ->
  exists r c', ReadExact_loop fuel size received c = Finished (r, 0) c' /\ (size <= length r)%nat /\
    friendly k (script c') /\ closed_ c' = false.
Proof.
  induction fuel as [|fuel IH]; intros received c Hfuel Hin Hf Hc; simpl;
    destruct (Nat.ltb_spec (length received) size) as [Hlt|Hge].
  - lia.
  - eexists _, _. split; [reflexivity|]. done.
  - unfold DoRead. destruct (Nat.eqb_spec (size - length received) 0) as [|_]; [lia|].
    destruct (DoRead_friendly (fuel + k) (script c) (size - length received) c Hf Hc) as (bytes & c1 & E & Hne & Hf1 & Hc1); [lia| |].
    { intros Hnil. rewrite Hnil in Hin. simpl in Hin. lia. }
    rewrite E. pose proof (DoRead_loop_spec _ _ _ _ _ E) as (Hb & Hl & (Hi & _)).
    destruct (Nat.eqb_spec (length bytes) 0) as [Hz|Hz]; [by apply nil_length_inv in Hz|].
    apply IH; try done.
    + rewrite length_app. lia.
    + rewrite Hi, length_drop, length_app. lia.
  - eexists _, _. split; [reflexivity|]. split; [done|]. split; [|done]. eapply friendly_mono; [|exact Hf]. lia.
Qed.

(** A connection between calls, with [n] transfers to come. *)
Definition at_rest (n : nat) (c : Connection) : Prop :=
  reading_ c = false /\ closed_ c = false /\ friendly n (script c).

Lemma ReadExact_take size k c :
  at_rest (size + k) c -> (size <= length (incoming c))%nat ->
  exists c', ReadExact size c = Finished (inl (take size (incoming c))) c' /\
    at_rest k c' /\ incoming c' = drop size (incoming c).
Proof.
  intros (Hr & Hc & Hf) Hin.
  destruct (ReadExact_loop_friendly size k size [] (set_reading true c)) as (r & c1 & E & Hlen & Hf1 & Hc1); simpl; try done; try lia.
  pose proof E as E'. apply ReadExact_loop_spec in E' as (Hle & bytes & -> & Hb & (Hi & _)); [|simpl; lia].
  simpl in *. exists (set_reading false c1). unfold ReadExact. rewrite Hr, E.
  assert (Hs : length bytes = size) by lia. rewrite Hs, Nat.eqb_refl. rewrite Hs in Hb, Hi. by rewrite <- Hb.
Qed.

Lemma ReadExact_app bytes rest k c :
  at_rest (length bytes + k) c -> incoming c = bytes ++ rest ->
  exists c', ReadExact (length bytes) c = Finished (inl bytes) c' /\ at_rest k c' /\ incoming c' = rest.
Proof.
  intros Hc Hin. destruct (ReadExact_take (length bytes) k c Hc) as (c' & E & Hc' & Hi').
  { rewrite Hin, length_app. lia. }
  exists c'. rewrite Hin, take_app_length in E. rewrite Hin, drop_app_length in Hi'. done.
Qed.

(** Reads complete.  When the peer has sent enough and the connection stays
    open, [ReadExact] returns with the bytes after at most one transfer per byte,
    through any number of interruptions and waits. *)
Theorem ReadExact_completes size c :
  reading_ c = false -> closed_ c = false -> (size <= length (incoming c))%nat -> friendly size (script c) ->
  exists c', ReadExact size c = Finished (inl (take size (incoming c))) c' /\ reading_ c' = false.
Proof.
  intros Hr Hc Hin Hf. destruct (ReadExact_take size 0 c) as (c' & E & (Hr' & _) & _); [|done|eauto].
  split_and!; try done. by rewrite Nat.add_0_r.
Qed.

(** ** Writing *)

Definition appended (out : list Z) (c c' : Connection) : Prop :=
  wire c' = wire c ++ out /\ incoming c' = incoming c /\ reading_ c' = reading_ c /\ writing_ c' = writing_ c.

Lemma WriteAll_loop_spec buffer l : forall sent c n e c',
  (sent <= length buffer)%nat -> WriteAll_loop l sent buffer c = Finished (n, e) c' ->
  (sent <= n <= length buffer)%nat /\ appended (take (n - sent) (drop sent buffer)) c c'.
Proof.
  assert (Hnone : forall sent c c', wire c' = wire c -> incoming c' = incoming c -> reading_ c' = reading_ c ->
    writing_ c' = writing_ c -> appended (take (sent - sent) (drop sent buffer)) c c').
  { intros sent c c' ? ? ? ?. rewrite Nat.sub_diag. unfold appended. simpl. by rewrite app_nil_r. }
  induction l as [l IH] using (induction_ltof1 _ (@length answer)). unfold ltof in IH.
  intros sent c n e c' Hs E.
  destruct l as [|x l]; simpl in E; destruct (Nat.ltb_spec sent (length buffer)) as [Hlt|Hge];
    [destruct (closed_ c); simplify_eq; (split; [lia|]); by apply Hnone
    |simplify_eq; (split; [lia|]); by apply Hnone| |simplify_eq; (split; [lia|]); by apply Hnone].
  destruct (closed_ c); [simplify_eq; (split; [lia|]); by apply Hnone|].
  destruct x as [m| |e'| |e'|]; simplify_eq.
  - set (k := Nat.min (S m) (length buffer - sent)) in *.
    apply (IH l) in E; [|simpl; lia|unfold k; lia]. destruct E as (Hn & Hw & Hi & Hr & Hwr). simpl in *.
    split; [lia|]. unfold appended. split_and!; try done. rewrite Hw, <- app_assoc. f_equal.
    rewrite <- drop_drop. rewrite take_take_drop. f_equal. lia.
  - split; [lia|]. by apply Hnone.
  - destruct (e' =? EINTR); [by apply (IH l) in E; [|simpl; lia|]|].
    destruct (negb (e' =? EAGAIN)); [simplify_eq; (split; [lia|]); by apply Hnone|].
    destruct l as [|[m| |e2| |e2|] l]; simplify_eq; [by apply (IH l) in E; [|simpl; lia|]|].
    split; [lia|]. by apply Hnone.
  - apply (IH l) in E; [|simpl; lia|done]. destruct E as (Hn & Hw). by split.
Qed.

Lemma WriteAll_spec buffer c r c' :
  writing_ c = false -> WriteAll buffer c = Finished r c' ->
  writing_ c' = false /\ incoming c' = incoming c /\ reading_ c' = reading_ c /\
  exists n, (n <= length buffer)%nat /\ wire c' = wire c ++ take n buffer /\ (r = None <-> n = length buffer).
Proof.
  intros Hw E. unfold WriteAll in E. rewrite Hw in E.
  destruct (WriteAll_loop (script c) 0 buffer (set_writing true c)) as [[n e] c1|] eqn:El; [|done].
  simplify_eq. apply WriteAll_loop_spec in El as (Hn & Hwi & Hi & Hr & _); [|lia]. simpl in *.
  rewrite Nat.sub_0_r, drop_0 in Hwi. split_and!; try done. exists n. split_and!; try done; [lia|].
  by destruct (Nat.eqb_spec n (length buffer)).
Qed.

Lemma WriteAll_loop_friendly buffer k n l : friendly n l -> forall sent c,
  (sent <= length buffer)%nat -> (length buffer - sent + k <= n)%nat -> closed_ c = false ->
  exists c', WriteAll_loop l sent buffer c = Finished (length buffer, 0) c' /\ friendly k (script c') /\ closed_ c' = false.
Proof.
  assert (forall l c, friendly k l -> closed_ c = false ->
    exists c', WriteAll_loop l (length buffer) buffer c = Finished (length buffer, 0) c' /\ friendly k (script c') /\ closed_ c' = false) as Hend.
  { intros l0 c Hf Hc. exists (set_script l0 c). destruct l0; simpl; by rewrite Nat.ltb_irrefl. }
  intros Hf. assert (forall j, (j <= n)%nat -> friendly j l) as Hm by (intros; by eapply friendly_mono). revert Hm.
  induction Hf as [l|x n l Hf IH|n l Hf IH|n l Hf IH]; intros Hm sent c Hs Hn Hc;
    (destruct (decide (sent = length buffer)) as [->|Hne]; [apply Hend; [apply Hm; lia|done]|]); [lia|..];
    cbn [WriteAll_loop]; rewrite (proj2 (Nat.ltb_lt sent (length buffer))) by lia; rewrite Hc.
  - apply IH; [intros; by eapply friendly_mono|lia|lia|done].
  - apply IH; [intros; by eapply friendly_mono|lia|lia|done].
  - apply IH; [intros; by eapply friendly_mono|lia|lia|done].
Qed.

Lemma WriteAll_friendly buffer k c :
  at_rest (length buffer + k) c -> writing_ c = false ->
  exists c', WriteAll buffer c = Finished None c' /\ at_rest k c' /\ writing_ c' = false /\
    incoming c' = incoming c /\ wire c' = wire c ++ buffer.
Proof.
  intros (Hr & Hc & Hf) Hw.
  destruct (WriteAll_loop_friendly buffer k _ _ Hf 0 (set_writing true c)) as (c1 & E1 & Hf1 & Hc1); [lia|lia|done|].
  assert (WriteAll buffer c = Finished None (set_writing false c1)) as E
    by (unfold WriteAll; rewrite Hw, E1; by rewrite Nat.eqb_refl).
  pose proof (WriteAll_spec _ _ _ _ Hw E) as (Hw' & Hi & Hr' & n & Hn & Hwire & Hfull).
  exists (set_writing false c1). split_and!; try done.
  - unfold at_rest. split_and!; [|done|done]. congruence.
  - by rewrite Hwire, (proj1 Hfull eq_refl), take_ge by lia.
Qed.

(** C22. Whole writes.  While no other fiber writes, [WriteAll] that succeeds has put
    exactly the buffer on the wire, every byte once and in order, however the kernel
    took it; when it fails the wire carries a proper prefix of it.  Either way the
    connection can be written again afterwards.  On an open connection where the
    kernel goes on taking bytes, whatever interruptions and waits come between, it
    does succeed. *)
Theorem WriteAll_writes_exactly buffer c :
  writing_ c = false ->
  (forall r c', WriteAll buffer c = Finished r c' ->
     writing_ c' = false /\ incoming c' = incoming c /\ reading_ c' = reading_ c /\
     exists n, (n <= length buffer)%nat /\ wire c' = wire c ++ take n buffer /\ (r = None <-> n = length buffer)) /\
  (at_rest (length buffer) c -> exists c', WriteAll buffer c = Finished None c' /\ wire c' = wire c ++ buffer).
Proof.
  intros Hw. split; [intros r c'; by apply WriteAll_spec|]. intros Hc. rewrite <- (Nat.add_0_r (length buffer)) in Hc.
  destruct (WriteAll_friendly buffer 0 c Hc Hw) as (c' & E & _ & _ & _ & Hwire). eauto.
Qed.

(** ** Waiting *)

(** The race between the event's callback and the timer's. *)
Definition winv (w : waitcall) : Prop :=
  let 'WC p r o t f c d n cl := w in
  (cl = true -> r = false) /\
  match p with
  | WAdding => r = false /\ o = 0 /\ t = false /\ f = 0%nat /\ c = 0%nat /\ d = false /\ n = 0%nat
  | WTiming | WParked =>
      (o = 0 /\ d = false /\ n = 0%nat /\ ((r = true /\ c = 0%nat) \/ (r = false /\ c = 1%nat))) \/
      (o = 1 /\ d = false /\ n = 1%nat /\ r = false /\ c = 0%nat) \/
      (o = 2 /\ d = true /\ n = 0%nat /\ ((r = true /\ c = 0%nat) \/ (r = false /\ (c <= 1)%nat))) \/
      (o = 2 /\ d = false /\ n = 1%nat /\ r = false /\ (c <= 1)%nat)
  | WBack => n = 0%nat /\ d = false /\ r = false /\ ((o = 1 /\ c = 0%nat) \/ (o = 2 /\ (c <= 1)%nat))
  | WDone ok e => n = 0%nat /\ d = false /\ r = false /\
      ((o = 0 /\ ok = false /\ c = 0%nat /\ t = false /\ f = 0%nat) \/
       (o = 1 /\ c = 0%nat /\ (ok = true \/ (ok = false /\ e = EBADF))) \/
       (o = 2 /\ (c <= 1)%nat /\ ok = false /\ e = ETIMEDOUT))
  end.

(** Split every disjunction of the invariant and compute. *)
Ltac winv_cases :=
  repeat match goal with
  | H : _ /\ _ |- _ => destruct H
  | H : _ \/ _ |- _ => destruct H
  end; subst; simpl in *; try lia; try done.

Lemma wait_step_winv d w w' : wait_step d w w' -> winv w -> winv w'.
Proof.
  intros Hs Hi. destruct Hs as [w ok err Hp|w Hp|w|w|w Hc|w Ht|w Hf|w Hd|w Hp Hw|w Hp];
    destruct w as [p r o t f c dc n cl]; simpl in *.
  - subst p. destruct cl, ok; winv_cases; naive_solver.
  - subst p. winv_cases; naive_solver.
  - destruct p, r, cl; winv_cases; naive_solver.
  - destruct p, r, cl; winv_cases; naive_solver.
  - destruct p; winv_cases; naive_solver lia.
  - destruct p; winv_cases; naive_solver.
  - destruct p; winv_cases; naive_solver lia.
  - destruct p, r, cl; winv_cases; naive_solver lia.
  - subst p. winv_cases; naive_solver.
  - subst p. destruct cl; winv_cases; naive_solver.
Qed.

(** The step that ends the wait. *)
Lemma wait_step_done d w w' ok e :
  winv w -> wait_step d w w' -> w_pc w' = WDone ok e -> w_pc w <> WDone ok e ->
  (w_pc w = WAdding /\ ok = false /\ (conn_closed w = true -> e = EBADF)) \/
  (w_pc w = WBack /\
    ((outcome_ w = 2 /\ ok = false /\ e = ETIMEDOUT) \/
     (outcome_ w = 1 /\ conn_closed w = true /\ ok = false /\ e = EBADF) \/
     (outcome_ w = 1 /\ conn_closed w = false /\ ok = true))).
Proof.
  intros Hi Hs E Hne. destruct Hs as [w okr err Hp|w Hp|w|w|w Hc|w Ht|w Hf|w Hd|w Hp Hw|w Hp];
    destruct w as [p r o t f c dc n cl];
    try (exfalso; apply Hne; rewrite <- E; unfold run_event_callback, Finish; simpl; destruct r, cl, (o =? 0); done);
    simpl in *; subst p; try done.
  - left. unfold wait_register in E. destruct cl, okr; simpl in E; naive_solver.
  - right. split; [done|]. winv_cases; destruct cl; naive_solver.
Qed.

(** C28. A connection's wait ends exactly once.  Whatever the order of readiness, the
    deadline and the closing of the connection, the fiber is resumed at most once,
    and while it is suspended it has a resumption in the scheduler, or a callback
    that will submit one is in the scheduler or on its way, or the event is still
    registered; after the wait nothing is registered and no resumption is left.
    (Nobody else schedules the waiting fiber here.)  The wait answers [ETIMEDOUT] when
    the timer won the race, and otherwise, the event's callback having won it, [EBADF]
    when the connection is closed by then and true when it is not; it fails before
    it has suspended only when the event cannot be registered, with [EBADF] on a
    closed connection. *)
Theorem wait_ends_exactly_once d closed w :
  rtc (wait_step d) (wait_start closed) w ->
  (w_wakeups w <= 1)%nat /\
  (w_pc w = WParked -> w_wakeups w = 1%nat \/ deciding w = true \/ (0 < callbacks w)%nat \/ w_registered w = true) /\
  (forall ok e, w_pc w = WDone ok e -> w_wakeups w = 0%nat /\ w_registered w = false /\ deciding w = false /\
     (ok = true -> outcome_ w = 1) /\ (outcome_ w = 2 -> ok = false /\ e = ETIMEDOUT)) /\
  (forall w' ok e, wait_step d w w' -> w_pc w' = WDone ok e -> w_pc w <> WDone ok e ->
     (w_pc w = WAdding /\ ok = false /\ (conn_closed w = true -> e = EBADF)) \/
     (w_pc w = WBack /\
       ((outcome_ w = 2 /\ ok = false /\ e = ETIMEDOUT) \/
        (outcome_ w = 1 /\ conn_closed w = true /\ ok = false /\ e = EBADF) \/
        (outcome_ w = 1 /\ conn_closed w = false /\ ok = true)))).
Proof.
  intros Hr. assert (Hi : winv w).
  { eapply (rtc_invariant (wait_step d) winv); [apply wait_step_winv|exact Hr|]. by destruct closed. }
  destruct w as [p r o t f c dc n cl]. simpl in *. split_and!.
  - destruct p; winv_cases.
  - intros ->. winv_cases; naive_solver lia.
  - intros ok e ->. winv_cases; naive_solver lia.
  - intros w' ok e Hs E Hne. exact (wait_step_done d (WC p r o t f c dc n cl) w' ok e Hi Hs E Hne).
Qed.

(** ** Witnesses *)

Definition demo_conn : Connection :=
  Conn false false false [1; 2; 3; 4; 5] [] [SysErr EAGAIN; WaitOk; Ready 0; SysErr EINTR; Ready 7; Ready 0].

Lemma demo_friendly : friendly 3 (script demo_conn).
Proof. apply fr_again, fr_ready, fr_intr, fr_ready, fr_ready, fr_done. Qed.

Lemma ReadExact_reads_exactly_witness : exists c', ReadExact 3 demo_conn = Finished (inl [1; 2; 3]) c' /\ incoming c' = [4; 5].
Proof.
  eexists. split; [reflexivity|].
  destruct (ReadExact_reads_exactly 3 demo_conn (inl [1; 2; 3]) _ eq_refl eq_refl) as (_ & _ & _ & _ & _ & H). exact H.
Defined.

Lemma ReadExact_completes_witness : exists c', ReadExact 3 demo_conn = Finished (inl [1; 2; 3]) c' /\ reading_ c' = false.
Proof. apply (ReadExact_completes 3 demo_conn eq_refl eq_refl ltac:(simpl; lia) demo_friendly). Defined.

Lemma WriteAll_writes_exactly_witness : exists c' n, WriteAll [7; 8; 9] demo_conn = Finished None c' /\
  wire c' = [] ++ take n [7; 8; 9] /\ n = 3%nat.
Proof.
  assert (E : exists c', WriteAll [7; 8; 9] demo_conn = Finished None c') by (eexists; reflexivity).
  destruct E as [c' E].
  destruct (proj1 (WriteAll_writes_exactly [7; 8; 9] demo_conn eq_refl) None c' E) as (_ & _ & _ & n & _ & Hw & Hn).
  exists c', n. split; [exact E|]. split; [exact Hw|]. by apply Hn.
Defined.

Lemma wait_ends_exactly_once_witness : w_pc (wait_yield true (wait_register true 0 (wait_start false))) = WParked /\
  (w_wakeups (wait_yield true (wait_register true 0 (wait_start false))) <= 1)%nat.
Proof.
  split; [reflexivity|].
  refine (proj1 (wait_ends_exactly_once true false _ _)).
  eapply rtc_l; [apply (wt_register _ _ true 0); reflexivity|]. eapply rtc_once. by apply wt_yield.
Defined.
