(* ===== verification/NetServer.v ===== *)
(** * The TCP server (src/net.cpp, [Server])

    The accept loop with its connection limit, the handlers it starts and
    [Server::Stop], interleaved at the granularity of the source's atomic
    operations and lock regions. *)

From S2P Require Import Prelude.

(** Where the accept loop stands: about to accept, with an accepted descriptor,
    past the admission of that descriptor, or ended. *)
Inductive accept_pc := ALoop | AGot | AAdmitted | AEnded.

(** Where [Stop] stands: not called, past the exchange of [running], with the
    connections it collected, or done. *)
Inductive stop_pc := SNone | SFlagged | SCollected (connections : list nat) | SDone.

(** [Server::State].  Connections are numbered in the order of their creation;
    [tracked] are the weak pointers of [connections], [handlers] the tasks that
    hold a connection, [open_] the connections not closed yet, and [lost] counts
    handlers that ended with an exception that is no [std::exception]. *)
Record Server := Srv {
  max_connections : Z;
  running : bool;
  listener_open : bool;
  active : Z;
  tracked : list nat;
  next_conn : nat;
  handlers : list nat;
  open_ : list nat;
  lost : nat;
  loop : accept_pc;
  stop : stop_pc }.

Definition Server_new (limit : Z) : Server := Srv limit false false 0 [] 0 [] [] 0 AEnded SNone.

Definition set_loop (p : accept_pc) (s : Server) : Server :=
  Srv (max_connections s) (running s) (listener_open s) (active s) (tracked s) (next_conn s) (handlers s) (open_ s) (lost s) p (stop s).
Definition set_stop (p : stop_pc) (s : Server) : Server :=
  Srv (max_connections s) (running s) (listener_open s) (active s) (tracked s) (next_conn s) (handlers s) (open_ s) (lost s) (loop s) p.

(** [Server::Start]; [socket_ok]: the address and every system call succeed. *)
Definition Start (has_handler socket_ok : bool) (s : Server) : bool * Server :=
  if running s || negb has_handler || (max_connections s =? 0) then (false, s)
  else if negb socket_ok then (false, s)
  else (true, Srv (max_connections s) true true (active s) (tracked s) (next_conn s) (handlers s) (open_ s) (lost s) ALoop SNone).

(** The answers of [accept4], with those of [Wait] after EAGAIN. *)
Inductive accepted := Client | Interrupted | WouldBlock (wait_ok : bool) | AcceptError.

(** One round of the loop up to the accepted descriptor. *)
Definition accept_round (a : accepted) (s : Server) : Server :=
  if negb (running s) || negb (listener_open s) then set_loop AEnded s
  else
    match a with
    | Client => set_loop AGot s
    | Interrupted | WouldBlock true => s
    | WouldBlock false | AcceptError => set_loop AEnded s
    end.

(** The admission: compare and exchange until it succeeds or the limit is reached;
    a refused client is closed at once. *)
Definition admit_client (s : Server) : Server :=
  if active s <? max_connections s
  then Srv (max_connections s) (running s) (listener_open s) (active s + 1) (tracked s) (next_conn s) (handlers s) (open_ s) (lost s) AAdmitted (stop s)
  else set_loop ALoop s.

(** Recording the connection, expired ones dropped, and starting its handler. *)
Definition start_handler (s : Server) : Server :=
  Srv (max_connections s) (running s) (listener_open s) (active s)
    (filter (fun n => n ∈ handlers s) (tracked s) ++ [next_conn s]) (S (next_conn s))
    (handlers s ++ [next_conn s]) (open_ s ++ [next_conn s]) (lost s) ALoop (stop s).

(** The end of a handler: its connection is closed, and its slot given back unless
    an exception other than a [std::exception] left it. *)
Definition handler_end (n : nat) (caught : bool) (s : Server) : Server :=
  Srv (max_connections s) (running s) (listener_open s) (if caught then active s - 1 else active s)
    (tracked s) (next_conn s) (filter (.≠ n) (handlers s)) (filter (.≠ n) (open_ s))
    (if caught then lost s else S (lost s)) (loop s) (stop s).

(** A handler closes its connection early. *)
Definition close_conn (n : nat) (s : Server) : Server :=
  Srv (max_connections s) (running s) (listener_open s) (active s) (tracked s) (next_conn s) (handlers s)
    (filter (.≠ n) (open_ s)) (lost s) (loop s) (stop s).

(** [Server::Stop]: the exchange, the lock region that collects, the closing. *)
Definition stop_flag (s : Server) : Server :=
  if running s
  then Srv (max_connections s) false (listener_open s) (active s) (tracked s) (next_conn s) (handlers s) (open_ s) (lost s) (loop s) SFlagged
  else s.
Definition stop_collect (s : Server) : Server :=
  Srv (max_connections s) (running s) (listener_open s) (active s) [] (next_conn s) (handlers s) (open_ s) (lost s) (loop s)
    (SCollected (filter (fun n => n ∈ handlers s) (tracked s))).
Definition stop_close (connections : list nat) (s : Server) : Server :=
  Srv (max_connections s) (running s) false (active s) (tracked s) (next_conn s) (handlers s)
    (filter (fun n => n ∉ connections) (open_ s)) (lost s) (loop s) SDone.

(** A server is started again only after its last accept loop has ended. *)
Inductive server_step : Server -> Server -> Prop :=
| sv_start s : loop s = AEnded -> stop s = SNone \/ stop s = SDone -> server_step s (snd (Start true true s))
| sv_round s a : loop s = ALoop -> server_step s (accept_round a s)
| sv_admit s : loop s = AGot -> server_step s (admit_client s)
| sv_handler s : loop s = AAdmitted -> server_step s (start_handler s)
| sv_end s n caught : n ∈ handlers s -> server_step s (handler_end n caught s)
| sv_close s n : n ∈ handlers s -> server_step s (close_conn n s)
| sv_flag s : stop s = SNone -> server_step s (stop_flag s)
| sv_collect s : stop s = SFlagged -> server_step s (stop_collect s)
| sv_closing s l : stop s = SCollected l -> server_step s (stop_close l s).

(** ** The invariant *)

(** Admitted and not started yet. *)
Definition between (s : Server) : nat := match loop s with AAdmitted => 1 | _ => 0 end.
Definition collected (s : Server) : list nat := match stop s with SCollected l => l | _ => [] end.

Definition server_ok (s : Server) : Prop :=
  active s = Z.of_nat (length (handlers s) + lost s + between s) /\ active s <= max_connections s /\
  NoDup (handlers s) /\ (forall n, n ∈ handlers s -> (n < next_conn s)%nat) /\
  (forall n, n ∈ open_ s -> n ∈ handlers s) /\
  (forall n, n ∈ open_ s -> n ∈ tracked s \/ n ∈ collected s).

Lemma filter_ne_id (n : nat) (l : list nat) : n ∉ l -> filter (.≠ n) l = l.
Proof.
  induction l as [|m l IH]; intros Hn; [done|]. apply not_elem_of_cons in Hn as [Hm Hn].
  by rewrite filter_cons_True, IH by done.
Qed.

Lemma filter_ne_length (n : nat) (l : list nat) : NoDup l -> n ∈ l -> length l = S (length (filter (.≠ n) l)).
Proof.
  induction l as [|m l IH]; intros Hnd Hin; [by apply elem_of_nil in Hin|]. apply NoDup_cons in Hnd as [Hm Hnd].
  apply elem_of_cons in Hin as [<-|Hin].
  - rewrite filter_cons_False by naive_solver. by rewrite filter_ne_id.
  - rewrite filter_cons_True by (by intros ->). simpl. f_equal. by apply IH.
Qed.

Lemma server_step_ok s s' : server_step s s' -> server_ok s -> server_ok s'.
Proof.
  intros Hs (H1 & H2 & H3 & H4 & H5 & H6).
  destruct Hs as [s Hl Hst|s a Hl|s Hl|s Hl|s n caught Hn|s n Hn|s Hst|s Hst|s l Hst]; unfold server_ok, between, collected in *.
  - rewrite Hl in H1. unfold Start. destruct (running s || negb true || (max_connections s =? 0)); simpl; rewrite ?Hl; [by split_and!|].
    split_and!; try done. intros n Hn. destruct (H6 n Hn) as [Ht|Hc]; [by left|]. destruct Hst as [Hst|Hst]; unfold collected in Hc; rewrite Hst in Hc; by apply elem_of_nil in Hc.
  - rewrite Hl in H1. unfold accept_round. destruct (negb (running s) || negb (listener_open s)); [by split_and!|].
    destruct a as [| |[]|]; simpl; rewrite ?Hl; by split_and!.
  - rewrite Hl in H1. unfold admit_client. destruct (active s <? max_connections s) eqn:E; to_prop; simpl in *; split_and!; auto; lia.
  - rewrite Hl in H1. unfold start_handler. simpl in *. rewrite length_app. simpl. split_and!; auto; [lia|..].
    + apply NoDup_app. split_and!; [done| |apply NoDup_singleton].
      intros x Hx ->%list_elem_of_singleton. apply H4 in Hx. lia.
    + intros n [Hn| ->%list_elem_of_singleton]%elem_of_app; [apply H4 in Hn|]; lia.
    + set_solver.
    + intros n [Hn| ->%list_elem_of_singleton]%elem_of_app; [|set_solver].
      destruct (H6 n Hn) as [Ht|Hc]; [left|by right]. apply elem_of_app. left. apply list_elem_of_filter. auto.
  - unfold handler_end. simpl. pose proof (filter_ne_length n _ H3 Hn). split_and!; try by destruct caught; simpl; lia.
    + by apply NoDup_filter.
    + intros m Hm. apply list_elem_of_filter in Hm as [_ Hm]. auto.
    + intros m Hm. apply list_elem_of_filter in Hm as [? Hm]. apply list_elem_of_filter. auto.
    + intros m Hm. apply list_elem_of_filter in Hm as [_ Hm]. auto.
  - unfold close_conn. simpl. split_and!; auto.
    + intros m Hm. apply list_elem_of_filter in Hm as [_ Hm]. auto.
    + intros m Hm. apply list_elem_of_filter in Hm as [_ Hm]. auto.
  - unfold stop_flag. rewrite Hst in *. destruct (running s); simpl; rewrite ?Hst; split_and!; auto; set_solver.
  - unfold stop_collect. rewrite Hst in *. simpl. split_and!; auto. intros n Hn. right. apply list_elem_of_filter.
    split; [by apply H5|]. destruct (H6 n Hn) as [Ht|Hc]; [done|by apply elem_of_nil in Hc].
  - unfold stop_close. rewrite Hst in H6. simpl. split_and!; auto.
    + intros m Hm. apply list_elem_of_filter in Hm as [_ Hm]. auto.
    + intros m Hm. apply list_elem_of_filter in Hm as [Hout Hm]. destruct (H6 m Hm); [by left|done].
Qed.

Lemma server_reachable_ok limit s : 0 <= limit -> rtc server_step (Server_new limit) s -> server_ok s.
Proof.
  intros Hl Hr. eapply (rtc_invariant server_step server_ok); [exact server_step_ok|exact Hr|].
  unfold server_ok. simpl. split_and!; try done; [constructor|intros n Hn; by apply elem_of_nil in Hn..].
Qed.

Lemma max_connections_kept s s' : server_step s s' -> max_connections s' = max_connections s.
Proof.
  intros []; simpl; try done; unfold Start, accept_round, admit_client, stop_flag; repeat (case_match; simpl; try done).
Qed.

Lemma reachable_limit limit s : rtc server_step (Server_new limit) s -> max_connections s = limit.
Proof.
  intros Hr. eapply (rtc_invariant server_step (fun s => max_connections s = limit)); [|exact Hr|done].
  intros x y Hs <-. by apply max_connections_kept.
Qed.

(** C35. The connection limit.  However accepting, handling and stopping interleave,
    at most [limit] handlers run at any time; the counter is the number of running
    handlers, of slots lost to exceptions that are no [std::exception] and of the
    admission in progress; every open connection has a handler that will close it, and
    is on the list that [Stop] collects or among those it is closing. *)
Theorem server_connection_limit limit s :
  0 <= limit -> rtc server_step (Server_new limit) s ->
  Z.of_nat (length (handlers s)) <= limit /\
  active s = Z.of_nat (length (handlers s) + lost s + between s) /\
  (forall n, n ∈ open_ s -> n ∈ handlers s) /\
  (forall n, n ∈ open_ s -> n ∈ tracked s \/ n ∈ collected s).
Proof.
  intros Hl Hr. pose proof (reachable_limit _ _ Hr) as Hm.
  destruct (server_reachable_ok _ _ Hl Hr) as (H1 & H2 & _ & _ & H5 & H6). split_and!; try done. lia.
Qed.

(** The run of [stop_misses_connection]: the client is accepted and admitted before
    [Stop] collects, and its connection recorded after. *)
Definition late_client (limit : Z) : Server :=
  start_handler (stop_close [] (stop_collect (stop_flag (admit_client (accept_round Client (snd (Start true true (Server_new limit)))))))).

(** A connection can outlive [Stop].  With any limit of at least one, a client
    accepted while [Stop] runs can be recorded after [Stop] has collected the
    connections: [Stop] ends, the listener is closed, and the client's handler runs on
    an open connection that nothing closes any more. *)
Theorem stop_misses_connection limit : 1 <= limit ->
  exists s, rtc server_step (Server_new limit) s /\ stop s = SDone /\ running s = false /\
    listener_open s = false /\ 0%nat ∈ handlers s /\ 0%nat ∈ open_ s.
Proof.
  intros Hl. exists (late_client limit).
  assert (Ez : (limit =? 0) = false) by (apply Z.eqb_neq; lia).
  assert (El : (0 <? limit) = true) by (apply Z.ltb_lt; lia).
  unfold late_client, Start, admit_client. simpl. rewrite Ez. simpl. rewrite El. simpl. split_and!; try done; try set_solver.
  eapply rtc_l; [apply sv_start; by auto|]. unfold Start. simpl. rewrite Ez. simpl.
  eapply rtc_l; [by apply (sv_round _ Client)|]. simpl.
  eapply rtc_l; [by apply sv_admit|]. unfold admit_client. simpl. rewrite El.
  eapply rtc_l; [by apply sv_flag|]. eapply rtc_l; [by apply sv_collect|].
  eapply rtc_l; [by eapply sv_closing|]. eapply rtc_once. by apply sv_handler.
Qed.

(** An accept error ends the server.  Any error of [accept4] other than EINTR
    and EAGAIN, such as running out of descriptors or a client that hung up, ends the
    accept loop: until somebody stops the server no connection is accepted any more,
    while it counts as running and [Start] refuses to start it again. *)
Theorem accept_error_ends_server s :
  running s = true -> loop s = ALoop ->
  let s1 := accept_round AcceptError s in
  running s1 = true /\ loop s1 = AEnded /\ Start true true s1 = (false, s1) /\
  forall s', rtc (fun x y => server_step x y /\ running y = true) s1 s' -> next_conn s' = next_conn s1 /\ loop s' = AEnded.
Proof.
  intros Hrun Hl s1. assert (H1 : running s1 = true /\ loop s1 = AEnded).
  { unfold s1, accept_round. rewrite Hrun. destruct (listener_open s); done. }
  destruct H1 as [H1 H2]. split_and!; try done.
  - unfold Start. by rewrite H1.
  - intros s' Hr.
    assert (Hi : next_conn s' = next_conn s1 /\ loop s' = AEnded /\ running s' = true); [|naive_solver].
    eapply (rtc_invariant _ (fun s' => next_conn s' = next_conn s1 /\ loop s' = AEnded /\ running s' = true)); [|exact Hr|done].
    intros x y [Hs Hy] (E1 & E2 & E3). destruct Hs as [x Hlx Hst|x a Hlx|x Hlx|x Hlx|x n caught Hn|x n Hn|x Hst|x Hst|x l Hst];
      try congruence; try done.
    + unfold Start. by rewrite E3.
    + unfold stop_flag in Hy. by rewrite E3 in Hy.
Qed.

(** ** Witnesses *)

Definition demo_server : Server := start_handler (admit_client (accept_round Client (snd (Start true true (Server_new 1))))).

Lemma demo_server_reachable : rtc server_step (Server_new 1) demo_server.
Proof.
  eapply rtc_l; [apply sv_start; by auto|]. eapply rtc_l; [by apply (sv_round _ Client)|].
  eapply rtc_l; [by apply sv_admit|]. eapply rtc_once. by apply sv_handler.
Qed.

Lemma server_connection_limit_witness : handlers demo_server = [0%nat] /\ Z.of_nat (length (handlers demo_server)) <= 1.
Proof. split; [reflexivity|]. exact (proj1 (server_connection_limit 1 demo_server ltac:(lia) demo_server_reachable)). Defined.

Lemma stop_misses_connection_witness : exists s, rtc server_step (Server_new 1) s /\ stop s = SDone /\ 0%nat ∈ open_ s.
Proof. destruct (stop_misses_connection 1 ltac:(lia)) as (s & Hr & Hs & _ & _ & _ & Ho). by exists s. Defined.

Lemma accept_error_ends_server_witness : loop (accept_round AcceptError demo_server) = AEnded.
Proof. exact (proj1 (proj2 (accept_error_ends_server demo_server eq_refl eq_refl))). Defined.
