(* ===== verification/NetConnect.v ===== *)
(** * Opening sockets (src/net.cpp)

    [Connection::Connect] and the socket set-up of [Server::Start] with every
    failing path, and what [Close] does to a connection's descriptor.  The
    answers of the system calls are arguments; the state is the list of open
    descriptors and the caller's [errno]. *)

From S2P Require Import Prelude Hook Net NetServer.

Definition EINVAL : Z := 22.
Definition ENOTCONN : Z := 107.

(** A system call: its value, and the [errno] it sets when it fails (returns a
    negative value). *)
Record sys := Sys { value : Z; failed : Z }.

Record sockets := Sockets { fds : list Z; errno : Z }.

Definition answer_of (r : sys) (s : sockets) : Z * sockets :=
  (value r, if value r <? 0 then Sockets (fds s) (failed r) else s).

Definition set_errno (e : Z) (s : sockets) : sockets := Sockets (fds s) e.

(** [socket], and [close] (which succeeds on an open descriptor). *)
Definition open_socket (r : sys) (s : sockets) : Z * sockets :=
  let '(fd, s) := answer_of r s in (fd, if fd <? 0 then s else Sockets (fd :: fds s) (errno s)).
Fixpoint remove_fd (fd : Z) (l : list Z) : list Z :=
  match l with
  | [] => []
  | x :: l' => if x =? fd then l' else x :: remove_fd fd l'
  end.
Definition close_socket (fd : Z) (s : sockets) : sockets := Sockets (remove_fd fd (fds s)) (errno s).

(** ** Helpers of the source *)

(** [Deadline]: [None] is [time_point::max()]. *)
Definition Deadline (now timeout : Z) : option Z := if timeout <? 0 then None else Some (now + timeout).

Definition htons (p : Z) : Z := Z.lor (Z.shiftl (Z.land p 255) 8) (Z.shiftr p 8).

Record sockaddr_in := SockAddr { sin_port : Z; sin_addr : Z }.

Section net.
(** inet_pton for AF_INET: the address, [None] when the text is none. *)
Context (inet_pton : string -> option Z).

Definition Address (ip : string) (port : Z) (s : sockets) : option sockaddr_in * sockets :=
  match inet_pton ip with
  | None => (None, set_errno EINVAL s)
  | Some a => (Some (SockAddr (htons port) a), s)
  end.

(** [Nonblocking]: the answers of the two [fcntl] calls. *)
Definition Nonblocking (getfl setfl : sys) (s : sockets) : bool * sockets :=
  let '(flags, s) := answer_of getfl s in
  if flags <? 0 then (false, s)
  else let '(r, s) := answer_of setfl s in (r =? 0, s).

(** [Close] of a connection that is not closed: [shut] is the answer of
    [shutdown]. *)
Definition Connection_close (fd : Z) (shut : sys) (s : sockets) : sockets :=
  if fd >=? 0 then close_socket fd (snd (answer_of shut s)) else s.

(** ** [Connection::Connect] *)

Record connect_env := ConnectEnv {
  e_owner : bool;             (* called on the owner's threads *)
  e_socket : sys;
  e_getfl : sys;
  e_setfl : sys;
  e_connect : sys;
  e_wait : bool * Z;          (* the answer of [Wait], and the [errno] it leaves *)
  e_getsockopt : sys;
  e_so_error : Z;
  e_shutdown : sys }.

(** The connection's descriptor.  On every failure after the object exists its
    destructor closes it, after the return value was formed. *)
Definition Connect (ip : string) (port : Z) (e : connect_env) (s : sockets) : option Z * sockets :=
  if negb (e_owner e) then (None, set_errno EINVAL s)
  else
    let '(addr, s) := Address ip port s in
    match addr with
    | None => (None, s)
    | Some _ =>
        let '(fd, s) := open_socket (e_socket e) s in
        if fd <? 0 then (None, s)
        else
          let '(ok, s) := Nonblocking (e_getfl e) (e_setfl e) s in
          if negb ok then (None, close_socket fd s)
          else
            let fail (s : sockets) := (None, Connection_close fd (e_shutdown e) s) in
            let '(r, s) := answer_of (e_connect e) s in
            if r =? 0 then (Some fd, s)
            else if negb (errno s =? EINPROGRESS) then fail s
            else
              let s := if (e_wait e).1 then s else set_errno (e_wait e).2 s in
              if negb (e_wait e).1 then fail s
              else
                let '(g, s) := answer_of (e_getsockopt e) s in
                if g <? 0 then fail s
                else if negb (e_so_error e =? 0) then fail (set_errno (e_so_error e) s)
                else (Some fd, s)
    end.

(** ** The socket set-up of [Server::Start] *)

Record start_env := StartEnv {
  t_socket : sys;
  t_getfl : sys;
  t_setfl : sys;
  t_setsockopt : sys;
  t_bind : sys;
  t_listen : sys;
  t_getsockname : sys }.

Definition Start_socket (ip : string) (port : Z) (has_handler : bool) (e : start_env) (srv : Server) (s : sockets) :
    option Z * Server * sockets :=
  let '(addr, s) := Address ip port s in
  match addr with
  | None => (None, srv, s)
  | Some _ =>
      if running srv || negb has_handler || (max_connections srv =? 0) then (None, srv, set_errno EINVAL s)
      else
        let '(fd, s) := open_socket (t_socket e) s in
        if fd <? 0 then (None, srv, s)
        else
          let fail (s : sockets) := (None, srv, close_socket fd s) in
          let '(ok, s) := Nonblocking (t_getfl e) (t_setfl e) s in
          if negb ok then fail s
          else let '(r, s) := answer_of (t_setsockopt e) s in
          if negb (r =? 0) then fail s
          else let '(r, s) := answer_of (t_bind e) s in
          if negb (r =? 0) then fail s
          else let '(r, s) := answer_of (t_listen e) s in
          if negb (r =? 0) then fail s
          else let '(r, s) := answer_of (t_getsockname e) s in
          if negb (r =? 0) then fail s
          else (Some fd, snd (Start has_handler true srv), s)
  end.

(** ** Properties *)

Lemma answer_fds r s : fds (answer_of r s).2 = fds s.
Proof. unfold answer_of. cbn. by destruct (value r <? 0). Qed.

Lemma answer_value r s : (answer_of r s).1 = value r.
Proof. done. Qed.

Lemma answer_failed r s : value r < 0 -> errno (answer_of r s).2 = failed r.
Proof. intros Hr. unfold answer_of. cbn. by rewrite (proj2 (Z.ltb_lt _ _) Hr). Qed.

Lemma remove_fd_cons fd l : remove_fd fd (fd :: l) = l.
Proof. simpl. by rewrite Z.eqb_refl. Qed.

Lemma Nonblocking_fds g f s : fds (Nonblocking g f s).2 = fds s.
Proof.
  unfold Nonblocking. destruct (answer_of g s) as [v s1] eqn:E. pose proof (answer_fds g s) as H1. rewrite E in H1.
  destruct (v <? 0); [done|]. destruct (answer_of f s1) as [w s2] eqn:E2.
  pose proof (answer_fds f s1) as H2. rewrite E2 in H2. simpl in *. congruence.
Qed.

(** The socket is made non-blocking. *)
Definition nonblocking_ok (g f : sys) : Prop := 0 <= value g /\ value f = 0.

Lemma Nonblocking_ok g f s : (Nonblocking g f s).1 = true <-> nonblocking_ok g f.
Proof.
  unfold Nonblocking, answer_of, nonblocking_ok. destruct (value g <? 0) eqn:E; to_prop; simpl; [split; [done|lia]|].
  rewrite Z.eqb_eq. split; [done|]. by intros [_ ?].
Qed.

(** When [Connect] succeeds. *)
Definition connects (ip : string) (e : connect_env) : Prop :=
  e_owner e = true /\ is_Some (inet_pton ip) /\ 0 <= value (e_socket e) /\
  nonblocking_ok (e_getfl e) (e_setfl e) /\
  (value (e_connect e) = 0 \/
   (value (e_connect e) = -1 /\ failed (e_connect e) = EINPROGRESS /\ (e_wait e).1 = true /\
    0 <= value (e_getsockopt e) /\ e_so_error e = 0)).

(** Split the result of a system call into its value and the state after it. *)
Ltac answer r s H He :=
  let v := fresh "v" in let s' := fresh "s" in let Hv := fresh "Hv" in
  pose proof (answer_fds r s) as H; pose proof (answer_failed r s) as He; pose proof (answer_value r s) as Hv;
  destruct (answer_of r s) as [v s']; cbn [fst snd] in H, He, Hv; subst v.

#[local] Opaque answer_of.

(** [Connect] leaks no descriptor.  It returns a connection exactly when
    every step succeeds; then the connection's socket is the one descriptor more
    that is open, and on every other path the open descriptors are those from
    before the call. *)
Theorem connect_leaks_nothing ip port e s :
  (value (e_connect e) = 0 \/ value (e_connect e) = -1) ->
  match Connect ip port e s with
  | (Some fd, s') => connects ip e /\ fd = value (e_socket e) /\ fds s' = fd :: fds s
  | (None, s') => ~ connects ip e /\ fds s' = fds s
  end.
Proof.
  intros Hconn. unfold Connect, connects. destruct (e_owner e); simpl; [|split; [naive_solver|done]].
  unfold Address. destruct (inet_pton ip) as [a|]; [|split; [intros (_ & [? ?] & _); done|done]].
  unfold open_socket. answer (e_socket e) s H0 He0.
  destruct (value (e_socket e) <? 0) eqn:Efd; to_prop; [split; [naive_solver lia|done]|].
  set (fd := value (e_socket e)) in *. set (s1 := Sockets _ _).
  pose proof (Nonblocking_fds (e_getfl e) (e_setfl e) s1) as H1.
  pose proof (Nonblocking_ok (e_getfl e) (e_setfl e) s1) as H2.
  destruct (Nonblocking _ _ s1) as [ok s2]. simpl in H1, H2.
  destruct ok; simpl; [|split; [naive_solver|rewrite H1; simpl; by rewrite Z.eqb_refl, ?H0]].
  assert (forall r, fds (Connection_close fd (e_shutdown e) r) = remove_fd fd (fds r)) as Hclose.
  { intros r. unfold Connection_close. destruct (fd >=? 0) eqn:E; to_prop; [|lia]. simpl. by rewrite answer_fds. }
  assert (remove_fd fd (fds s2) = fds s) as Hback by (rewrite H1; simpl; by rewrite Z.eqb_refl, ?H0).
  answer (e_connect e) s2 H3 He3.
  destruct (value (e_connect e) =? 0) eqn:E0; to_prop.
  { split_and!; [done|by eexists|lia|by apply H2|by left|done|]. simpl in *. congruence. }
  destruct Hconn as [?|Hm1]; [done|].
  rewrite He3 by lia. destruct (failed (e_connect e) =? EINPROGRESS) eqn:E1; to_prop; simpl.
  2: { split; [intros (_ & _ & _ & _ & [?|(_ & ? & _)]); congruence|]. rewrite Hclose. simpl in *. congruence. }
  destruct (e_wait e) as [wok werr]. simpl. destruct wok; simpl.
  2: { split; [intros (_ & _ & _ & _ & [?|(_ & _ & ? & _)]); congruence|]. rewrite Hclose. simpl in *. congruence. }
  answer (e_getsockopt e) s3 H4 He4.
  destruct (value (e_getsockopt e) <? 0) eqn:E3; to_prop.
  { split; [intros (_ & _ & _ & _ & [?|(_ & _ & _ & ? & _)]); [congruence|lia]|]. rewrite Hclose. simpl in *. congruence. }
  destruct (e_so_error e =? 0) eqn:E4; to_prop; simpl.
  - split_and!; [done|by eexists|lia|by apply H2|by right|done|]. simpl in *. congruence.
  - split; [intros (_ & _ & _ & _ & [?|(_ & _ & _ & _ & ?)]); congruence|]. rewrite Hclose. simpl in *. congruence.
Qed.

(** [Connect] loses the reason of a failure: it stores the error of the
    socket in [errno] and returns, and the destructor of the connection then
    calls [shutdown], which fails on a socket that was never connected and
    overwrites it. *)
Theorem failed_connect_overwrites_errno ip port e s :
  e_owner e = true -> is_Some (inet_pton ip) -> 0 <= value (e_socket e) -> nonblocking_ok (e_getfl e) (e_setfl e) ->
  value (e_connect e) = -1 -> failed (e_connect e) = EINPROGRESS -> (e_wait e).1 = true ->
  0 <= value (e_getsockopt e) -> e_so_error e <> 0 -> value (e_shutdown e) = -1 ->
  (Connect ip port e s).1 = None /\ errno (Connect ip port e s).2 = failed (e_shutdown e).
Proof.
  intros Ho [a Ha] Hs Hn Hc Hf Hw Hg He Hsh. unfold Connect. rewrite Ho. simpl. unfold Address. rewrite Ha.
  unfold open_socket. answer (e_socket e) s H0 He0.
  destruct (value (e_socket e) <? 0) eqn:E; to_prop; [lia|]. set (s1 := Sockets _ _).
  pose proof (proj2 (Nonblocking_ok (e_getfl e) (e_setfl e) s1) Hn) as H2.
  destruct (Nonblocking _ _ s1) as [ok s2]. simpl in H2. subst ok. simpl.
  answer (e_connect e) s2 H3 He3. rewrite Hc. simpl. rewrite He3 by lia. rewrite Hf. simpl. rewrite Hw. simpl.
  answer (e_getsockopt e) s3 H4 He4. destruct (value (e_getsockopt e) <? 0) eqn:E1; to_prop; [lia|].
  apply Z.eqb_neq in He as ->. simpl. split; [done|]. unfold Connection_close.
  destruct (value (e_socket e) >=? 0) eqn:E2; to_prop; [|lia]. simpl. by rewrite answer_failed by lia.
Qed.

(** [Start] opens one listening socket or none.  When it returns a socket the
    server's state is the one [Start] describes and the socket is the one
    descriptor more that is open; otherwise the state is unchanged and every
    socket it opened on the way is closed again. *)
Theorem start_leaks_nothing ip port has_handler e srv s :
  match Start_socket ip port has_handler e srv s with
  | (Some fd, srv', s') => Start has_handler true srv = (true, srv') /\ fds s' = fd :: fds s
  | (None, srv', s') => srv' = srv /\ fds s' = fds s
  end.
Proof.
  unfold Start_socket, Address. destruct (inet_pton ip) as [a|]; [|done].
  destruct (running srv || negb has_handler || (max_connections srv =? 0)) eqn:Eok; [done|].
  unfold open_socket. answer (t_socket e) s H0 He0.
  destruct (value (t_socket e) <? 0); [done|].
  set (fd := value (t_socket e)) in *. set (s1 := Sockets _ _).
  pose proof (Nonblocking_fds (t_getfl e) (t_setfl e) s1) as H1.
  destruct (Nonblocking _ _ s1) as [ok s2]. simpl in H1.
  assert (forall r, fds r = fd :: fds s -> fds (close_socket fd r) = fds s) as Hclose.
  { intros r Hr. unfold close_socket. simpl. by rewrite Hr, remove_fd_cons. }
  assert (fds s2 = fd :: fds s) as Hs2 by congruence.
  destruct ok; simpl negb; cbv iota; [|split; [done|by apply Hclose]].
  answer (t_setsockopt e) s2 H3 He3. destruct (value (t_setsockopt e) =? 0); simpl negb; cbv iota; [|split; [done|apply Hclose; congruence]].
  answer (t_bind e) s3 H4 He4. destruct (value (t_bind e) =? 0); simpl negb; cbv iota; [|split; [done|apply Hclose; congruence]].
  answer (t_listen e) s4 H5 He5. destruct (value (t_listen e) =? 0); simpl negb; cbv iota; [|split; [done|apply Hclose; congruence]].
  answer (t_getsockname e) s5 H6 He6. destruct (value (t_getsockname e) =? 0); simpl negb; cbv iota; [|split; [done|apply Hclose; congruence]].
  split; [|congruence]. unfold Start. by rewrite Eok.
Qed.

End net.

(** ** Witnesses *)

Definition only_localhost (ip : string) : option Z := if bool_decide (ip = "127.0.0.1") then Some 16777343 else None.

Definition refused : connect_env :=
  ConnectEnv true (Sys 7 0) (Sys 2 0) (Sys 0 0) (Sys (-1) EINPROGRESS) (true, 0) (Sys 0 0) 111 (Sys (-1) ENOTCONN).

Lemma connect_leaks_nothing_witness :
  ~ connects only_localhost "127.0.0.1" refused /\
  fds (Connect only_localhost "127.0.0.1" 80 refused (Sockets [3; 4] 0)).2 = [3; 4].
Proof.
  pose proof (connect_leaks_nothing only_localhost "127.0.0.1" 80 refused (Sockets [3; 4] 0) (or_intror eq_refl)) as H.
  vm_compute in H |- *. exact H.
Defined.

Lemma failed_connect_overwrites_errno_witness :
  errno (Connect only_localhost "127.0.0.1" 80 refused (Sockets [3; 4] 0)).2 = ENOTCONN.
Proof.
  apply (failed_connect_overwrites_errno only_localhost "127.0.0.1" 80 refused (Sockets [3; 4] 0)).
  - reflexivity.
  - vm_compute. by eexists.
  - vm_compute. discriminate.
  - split; [vm_compute; discriminate|reflexivity].
  - reflexivity.
  - reflexivity.
  - reflexivity.
  - vm_compute. discriminate.
  - discriminate.
  - reflexivity.
Defined.
