(* ===== verification/Codec.v ===== *)
(** * The RPC wire format (src/rpc.cpp)

    Variable-length integers, frames with their size limits, and the accounting
    of buffered bytes.  Bytes are integers from 0 to 255; reading goes through
    [Net.ReadExact].  The protobuf message [RpcHeader] is generated code: its
    serialisation is an interface. *)

From Stdlib Require Import Ascii String.
From S2P Require Import Prelude Net.
Open Scope Z_scope.

Definition EPROTO : Z := 71.
Definition kMaxHeader : Z := 64 * 1024.
Definition kMaxMessage : Z := 64 * 1024 * 1024.

(** [EncodeVarint32]; a 32-bit value takes at most 5 rounds. *)
Fixpoint EncodeVarint32_loop (fuel : nat) (value : Z) : list Z :=
  match fuel with
  | O => []
  | S fuel' =>
      if value >=? 128
      then Z.lor (Z.land value 127) 128 :: EncodeVarint32_loop fuel' (Z.shiftr value 7)
      else [value]
  end.
Definition EncodeVarint32 (value : Z) : list Z := EncodeVarint32_loop 5 value.

(** [ReadVarint32]: the value or [errno].  [todo] are the indices left. *)
Fixpoint ReadVarint32_loop (todo : list Z) (value : Z) (c : Connection) : progress (Z + Z) :=
  match todo with
  | [] => Finished (inr EPROTO) c
  | i :: todo' =>
      match ReadExact 1 c with
      | InProgress => InProgress
      | Finished (inr e) c' => Finished (inr e) c'
      | Finished (inl l) c' =>
          let byte := default 0 (head l) in
          if (i =? 4) && negb (Z.land byte 240 =? 0) then Finished (inr EPROTO) c'
          else
            let value := Z.lor value (u32 (Z.shiftl (Z.land byte 127) (i * 7))) in
            if Z.land byte 128 =? 0 then Finished (inl value) c'
            else ReadVarint32_loop todo' value c'
      end
  end.
Definition ReadVarint32 (c : Connection) : progress (Z + Z) := ReadVarint32_loop [0; 1; 2; 3; 4] 0 c.

(** ** Frames *)

Definition len {A} (l : list A) : Z := Z.of_nat (length l).

(** The message [RPC::RpcHeader] (proto/pulsar_rpc_header.proto). *)
Record RpcHeader := Header {
  service_name : list Z;
  method_name : list Z;
  args_size : Z;
  request_id : Z;
  error : list Z }.

(** Its generated [SerializeToString] and [ParseFromArray]. *)
Class HeaderFormat := {
  ser : RpcHeader -> option (list Z);
  parse : list Z -> option RpcHeader }.

(** Protocol buffers: what was serialised parses back; a uint32 field is a 32-bit
    value. *)
Class HeaderLaws `{HeaderFormat} := {
  parse_ser : forall h l, ser h = Some l -> parse l = Some h;
  parse_args_size : forall l h, parse l = Some h -> 0 <= args_size h < 2 ^ 32 }.

(** What a failed call tells the controller. *)
Inductive call_error :=
| WrongThread          (* "Pulsar RPC must run in its IOManager Fiber" *)
| RequestFailure       (* "RPC request serialization or size failure" *)
| HeaderFailure        (* "RPC header serialization or size failure" *)
| ConnectFailed (errno : Z)
| SendFailed (errno : Z)
| Overloaded           (* "Pulsar RPC connection pool overloaded" *)
| LengthReadFailed (errno : Z)
| ResponseTooLarge     (* "RPC response exceeds 64 MiB" *)
| BodyReadFailed (errno : Z)
| ParseFailed          (* "RPC response parse failed" *)
| ConnectionClosed     (* "RPC connection closed" *)
| RequestTimeout       (* "RPC request timeout" *)
| PeerError (text : list Z).

(** The accounting of [Provider::State]: [Reservation::Add] with the limit, and
    its destructor.  [held] is the reservation's [bytes]. *)
Record budget := Budget {
  max_buffered_bytes : Z;
  buffered_bytes : Z }.

Definition reserve (amount held : Z) (b : budget) : option (Z * budget) :=
  if (amount >? max_buffered_bytes b) || (buffered_bytes b >? max_buffered_bytes b - amount) then None
  else Some (held + amount, Budget (max_buffered_bytes b) (buffered_bytes b + amount)).

Definition release (held : Z) (b : budget) : budget := Budget (max_buffered_bytes b) (buffered_bytes b - held).

(** How a round of [Channel::State::ReaderLoop] ends: a frame, another round after
    a timeout, or the end of the loop. *)
Inductive response_read := Frame (h : RpcHeader) (payload : list Z) | Again | Leave.

Section frames.
Context `{HeaderFormat}.

(** The frame both modes of [Channel::CallMethod] build; [args] is what the
    request's [SerializeToString] leaves, [id] is 0 for a version 1 call. *)
Definition frame_of (encoded body : list Z) : list Z := EncodeVarint32 (u32 (len encoded)) ++ encoded ++ body.

Definition encode_request (service method : list Z) (args : option (list Z)) (id : Z) : call_error + list Z :=
  match args with
  | None => inl RequestFailure
  | Some args =>
      if len args >? kMaxMessage then inl RequestFailure
      else
        match ser (Header service method (u32 (len args)) id []) with
        | None => inl HeaderFailure
        | Some encoded =>
            if bool_decide (encoded = []) || (len encoded >? kMaxHeader) || (len args >? kMaxMessage - len encoded - 5)
            then inl HeaderFailure
            else inr (frame_of encoded args)
        end
  end.

(** The answer [MultiplexDoneClosure::Run] sends: [outcome] 2 marks a handler that
    threw, [response] is what [SerializeToString] leaves.  [exec_error] and
    [serialize_error] are the two error texts. *)
Definition bytes_of (s : String.string) : list Z := (fun a => Z.of_N (N_of_ascii a)) <$> String.list_ascii_of_string s.
Definition exec_error : list Z := bytes_of "RPC handler execution error or timeout"%string.
Definition serialize_error : list Z := bytes_of "RPC response serialization failure"%string.

Definition response_error (outcome : Z) (response : option (list Z)) : list Z :=
  if outcome =? 2 then exec_error
  else match response with
       | Some payload => if len payload >? kMaxMessage then serialize_error else []
       | None => serialize_error
       end.

Definition response_header (outcome : Z) (response : option (list Z)) (id : Z) : RpcHeader :=
  let error_msg := response_error outcome response in
  Header [] [] (if bool_decide (error_msg = []) then u32 (len (default [] response)) else 0) id error_msg.

Definition encode_response (outcome : Z) (response : option (list Z)) (id : Z) : list Z :=
  frame_of (default [] (ser (response_header outcome response id)))
    (if bool_decide (response_error outcome response = []) then default [] response else []).

(** Reading one request in [Provider::State::Handle]: the frame with the bytes
    reserved for it, or [None] when the loop is left. *)
Definition read_request (b : budget) (c : Connection) : progress (option (RpcHeader * list Z) * (Z * budget)) :=
  match ReadVarint32 c with
  | InProgress => InProgress
  | Finished (inr _) c => Finished (None, (0, b)) c
  | Finished (inl header_size) c =>
      if (header_size =? 0) || (header_size >? kMaxHeader) then Finished (None, (0, b)) c
      else
        match reserve header_size 0 b with
        | None => Finished (None, (0, b)) c
        | Some (held, b) =>
            match ReadExact (Z.to_nat header_size) c with
            | InProgress => InProgress
            | Finished (inr _) c => Finished (None, (held, b)) c
            | Finished (inl header_data) c =>
                match parse header_data with
                | None => Finished (None, (held, b)) c
                | Some h =>
                    if args_size h >? kMaxMessage - header_size - 5 then Finished (None, (held, b)) c
                    else
                      match reserve (args_size h) held b with
                      | None => Finished (None, (held, b)) c
                      | Some (held, b) =>
                          if args_size h =? 0 then Finished (Some (h, []), (held, b)) c
                          else
                            match ReadExact (Z.to_nat (args_size h)) c with
                            | InProgress => InProgress
                            | Finished (inr _) c => Finished (None, (held, b)) c
                            | Finished (inl args) c => Finished (Some (h, args), (held, b)) c
                            end
                      end
                end
            end
        end
  end.

(** Reading one response in [Channel::State::ReaderLoop].  The size of the payload
    is taken from the header as it is. *)
Definition read_response (c : Connection) : progress response_read :=
  match ReadVarint32 c with
  | InProgress => InProgress
  | Finished (inr e) c => Finished (if e =? ETIMEDOUT then Again else Leave) c
  | Finished (inl header_size) c =>
      if (header_size =? 0) || (header_size >? kMaxHeader) then Finished Leave c
      else
        match ReadExact (Z.to_nat header_size) c with
        | InProgress => InProgress
        | Finished (inr _) c => Finished Leave c
        | Finished (inl header_data) c =>
            match parse header_data with
            | None => Finished Leave c
            | Some h =>
                if args_size h =? 0 then Finished (Frame h []) c
                else
                  match ReadExact (Z.to_nat (args_size h)) c with
                  | InProgress => InProgress
                  | Finished (inr _) c => Finished Leave c
                  | Finished (inl payload) c => Finished (Frame h payload) c
                  end
            end
        end
  end.
End frames.

(** ** The length prefix of a version 1 response: [htonl] in memory. *)
Definition htonl_bytes (n : Z) : list Z :=
  [Z.land (Z.shiftr n 24) 255; Z.land (Z.shiftr n 16) 255; Z.land (Z.shiftr n 8) 255; Z.land n 255].
Definition ntohl_bytes (l : list Z) : Z :=
  match l with
  | [a; b; c; d] => Z.lor (Z.shiftl a 24) (Z.lor (Z.shiftl b 16) (Z.lor (Z.shiftl c 8) d))
  | _ => 0
  end.

(** The provider's answer, and how [CallMethod] reads it. *)
Definition encode_response_v1 (payload : list Z) : option (list Z) :=
  if len payload >? kMaxMessage then None else Some (htonl_bytes (len payload) ++ payload).

Definition read_response_v1 (c : Connection) : progress (call_error + list Z) :=
  match ReadExact 4 c with
  | InProgress => InProgress
  | Finished (inr e) c => Finished (inl (LengthReadFailed e)) c
  | Finished (inl network_length) c =>
      let length := ntohl_bytes network_length in
      if length >? kMaxMessage then Finished (inl ResponseTooLarge) c
      else if length =? 0 then Finished (inr []) c
      else
        match ReadExact (Z.to_nat length) c with
        | InProgress => InProgress
        | Finished (inr e) c => Finished (inl (BodyReadFailed e)) c
        | Finished (inl payload) c => Finished (inr payload) c
        end
  end.
