(* ===== verification/CodecProofs.v ===== *)
(** * Correctness of the wire format *)

From S2P Require Import Prelude Net NetProofs Codec.

(** ** Bits *)

Lemma lor_shift_add a b n : 0 <= n -> 0 <= a < 2 ^ n -> Z.lor a (Z.shiftl b n) = a + b * 2 ^ n.
Proof.
  intros Hn Ha. rewrite <- Z.shiftl_mul_pow2 by done. rewrite <- Z.add_lor_land.
  assert (E : Z.land a (Z.shiftl b n) = 0); [|lia].
  rewrite <- (Z.mod_small a (2 ^ n)) by done. rewrite <- Z.land_ones, <- Z.land_assoc by done.
  rewrite (Z.land_comm (Z.ones n)), Z.land_ones, Z.shiftl_mul_pow2, Z_mod_mult by done. apply Z.land_0_r.
Qed.

Lemma land_127 v : Z.land v 127 = v mod 128.
Proof. change 127 with (Z.ones 7). by rewrite Z.land_ones. Qed.

Lemma lor_128 x : 0 <= x < 128 -> Z.lor x 128 = x + 128.
Proof. intros Hx. change 128 with (Z.shiftl 1 7) at 1. rewrite lor_shift_add by (simpl; lia). lia. Qed.

Lemma land_128_small x : 0 <= x < 128 -> Z.land x 128 = 0.
Proof.
  intros Hx. pose proof (Z.add_lor_land x 128) as H. rewrite lor_128 in H by done. lia.
Qed.

Lemma land_128_set x : 0 <= x < 128 -> Z.land (Z.lor x 128) 128 = 128.
Proof. intros Hx. by rewrite Z.land_lor_distr_l, land_128_small, Z.lor_0_l. Qed.

Lemma land_127_set x : 0 <= x < 128 -> Z.land (Z.lor x 128) 127 = x.
Proof.
  intros Hx. rewrite lor_128, land_127 by done. rewrite <- (Z_mod_plus_full _ (-1)). rewrite Z.mod_small; lia.
Qed.

Lemma land_240_small x : 0 <= x < 16 -> Z.land x 240 = 0.
Proof.
  intros Hx. change 240 with (Z.shiftl 15 4). pose proof (Z.add_lor_land x (Z.shiftl 15 4)) as H.
  rewrite lor_shift_add in H by (simpl; lia). change (Z.shiftl 15 4) with (15 * 2 ^ 4) in *. lia.
Qed.

(** ** Integers *)

(** The indices [5 - n], ..., 4 of [ReadVarint32]'s loop. *)
Definition indices (n : nat) : list Z := Z.of_nat <$> seq (5 - n) n.

Lemma indices_S n : (S n <= 5)%nat -> indices (S n) = 5 - Z.of_nat (S n) :: indices n.
Proof.
  intros Hn. unfold indices. replace (seq (5 - S n) (S n)) with ((5 - S n)%nat :: seq (5 - n) n).
  - simpl. f_equal. lia.
  - simpl. f_equal. f_equal. lia.
Qed.

Lemma varint_loop n : forall v acc k c rest,
  (n <= 5)%nat -> 0 <= v < 2 ^ (32 - 7 * (5 - Z.of_nat n)) -> (0 < n)%nat ->
  0 <= acc < 2 ^ (7 * (5 - Z.of_nat n)) ->
  at_rest (length (EncodeVarint32_loop n v) + k) c -> incoming c = EncodeVarint32_loop n v ++ rest ->
  exists c', ReadVarint32_loop (indices n) acc c = Finished (inl (acc + v * 2 ^ (7 * (5 - Z.of_nat n)))) c' /\
    at_rest k c' /\ incoming c' = rest.
Proof.
  induction n as [|n IH]; intros v acc k c rest Hn Hv Hpos Hacc Hc Hin; [lia|].
  set (i := 5 - Z.of_nat (S n)) in *. assert (Hi : 0 <= i <= 4) by lia.
  assert (Hidx := indices_S n Hn). fold i in Hidx.
  rewrite Hidx. cbn [ReadVarint32_loop EncodeVarint32_loop] in *.
  assert (Hread : forall b bs, incoming c = b :: bs ++ rest -> at_rest (S (length bs) + k) c ->
    exists c1, ReadExact 1 c = Finished (inl [b]) c1 /\ at_rest (length bs + k) c1 /\ incoming c1 = bs ++ rest).
  { intros b bs Hb Hr. by apply (ReadExact_app [b] (bs ++ rest) (length bs + k) c). }
  destruct (v >=? 128) eqn:E; to_prop.
  - assert (Hn0 : (0 < n)%nat).
    { destruct n; [|lia]. unfold i in Hv. simpl in Hv. change (2 ^ 4) with 16 in Hv. lia. }
    destruct (Hread _ _ Hin Hc) as (c1 & E1 & Hc1 & Hin1). rewrite E1. simpl default.
    assert (Hm : 0 <= v mod 128 < 128) by (apply Z.mod_pos_bound; lia).
    rewrite land_127, land_128_set, land_127_set by done.
    destruct (i =? 4) eqn:E4; to_prop; [lia|]. simpl andb. cbv iota. change (128 =? 0) with false. cbv iota.
    assert (Hp : 2 ^ (7 * (5 - Z.of_nat n)) = 2 ^ (7 * i) * 128).
    { change 128 with (2 ^ 7). rewrite <- Z.pow_add_r by lia. f_equal. lia. }
    assert (Hsmall : Z.shiftl (v mod 128) (i * 7) < 2 ^ 32 /\ 0 <= Z.shiftl (v mod 128) (i * 7)).
    { rewrite Z.shiftl_mul_pow2 by lia. assert (2 ^ (i * 7) <= 2 ^ 21) by (apply Z.pow_le_mono_r; lia).
      pose proof (Z.pow_pos_nonneg 2 (i * 7)). change (2 ^ 21) with 2097152 in *. nia. }
    rewrite u32_small by lia. rewrite (Z.mul_comm i 7), lor_shift_add by lia.
    destruct (IH (Z.shiftr v 7) (acc + v mod 128 * 2 ^ (7 * i)) k c1 rest) as (c' & E2 & Hc' & Hin'); try done; try lia.
    + rewrite Z.shiftr_div_pow2 by lia. split; [apply Z.div_pos; lia|]. apply Z.div_lt_upper_bound; [lia|].
      rewrite <- Z.pow_add_r by lia. replace (7 + (32 - 7 * (5 - Z.of_nat n))) with (32 - 7 * i) by lia. lia.
    + rewrite Hp. nia.
    + exists c'. split; [|done]. rewrite E2. f_equal. f_equal. rewrite Hp, Z.shiftr_div_pow2 by lia.
      pose proof (Z.div_mod v 128 ltac:(lia)). change (2 ^ 7) with 128. nia.
  - destruct (Hread v [] Hin Hc) as (c1 & E1 & Hc1 & Hin1). rewrite E1. simpl default.
    assert (Hg : (i =? 4) && negb (Z.land v 240 =? 0) = false).
    { destruct (i =? 4) eqn:E4; to_prop; [|done]. rewrite land_240_small; [done|].
      rewrite E4 in Hv. change (2 ^ (32 - 7 * 4)) with 16 in Hv. lia. }
    rewrite Hg, land_128_small, land_127 by lia. rewrite Z.mod_small by lia. change (0 =? 0) with true. cbv iota.
    assert (Hsmall : 0 <= v * 2 ^ (i * 7) < 2 ^ 32).
    { pose proof (Z.pow_pos_nonneg 2 (i * 7)). split; [nia|].
      assert (2 ^ 32 = 2 ^ (32 - 7 * i) * 2 ^ (i * 7)) as -> by (rewrite <- Z.pow_add_r by lia; f_equal; lia). nia. }
    rewrite u32_small by (rewrite Z.shiftl_mul_pow2 by lia; lia).
    rewrite (Z.mul_comm i 7), lor_shift_add by lia. exists c1. done.
Qed.

(** Varint round trip.  Every 32-bit value that [EncodeVarint32] puts on a
    connection is read back by [ReadVarint32], which stops right behind it. *)
Theorem varint_roundtrip v k c rest :
  0 <= v < 2 ^ 32 -> at_rest (length (EncodeVarint32 v) + k) c -> incoming c = EncodeVarint32 v ++ rest ->
  exists c', ReadVarint32 c = Finished (inl v) c' /\ at_rest k c' /\ incoming c' = rest.
Proof.
  intros Hv Hc Hin.
  destruct (varint_loop 5 v 0 k c rest ltac:(lia) Hv ltac:(lia) ltac:(vm_compute; done) Hc Hin) as (c' & E & H).
  exists c'. split; [|done]. change (ReadVarint32 c) with (ReadVarint32_loop (indices 5) 0 c). rewrite E.
  f_equal. f_equal. change (7 * (5 - Z.of_nat 5)) with 0. lia.
Qed.

(** What is written are bytes, at least one and at most five. *)
Lemma EncodeVarint32_bytes n v : 0 <= v ->
  Forall (fun b => 0 <= b < 256) (EncodeVarint32_loop (S n) v) \/ 2 ^ (7 * Z.of_nat (S n)) <= v.
Proof.
  revert v. induction n as [|n IH]; intros v Hv; cbn [EncodeVarint32_loop];
    destruct (v >=? 128) eqn:E; to_prop; try (left; repeat constructor; lia).
  - right. change (2 ^ (7 * Z.of_nat 1)) with 128. lia.
  - assert (Hm : 0 <= v mod 128 < 128) by (apply Z.mod_pos_bound; lia).
    destruct (IH (Z.shiftr v 7)) as [H|H].
    + by apply Z.shiftr_nonneg.
    + left. constructor; [|done]. rewrite land_127, lor_128 by done. lia.
    + right. rewrite Z.shiftr_div_pow2 in H by lia.
      replace (7 * Z.of_nat (S (S n))) with (7 * Z.of_nat (S n) + 7) by lia.
      rewrite Z.pow_add_r by lia. change (2 ^ 7) with 128 in *. pose proof (Z.mul_div_le v 128). nia.
Qed.

Definition are_bytes (l : list Z) : Prop := Forall (fun b => 0 <= b < 256) l.

Lemma EncodeVarint32_are_bytes v : 0 <= v < 2 ^ 32 -> are_bytes (EncodeVarint32 v).
Proof.
  intros Hv. destruct (EncodeVarint32_bytes 4 v) as [H|H]; [lia|done|].
  change (2 ^ (7 * Z.of_nat 5)) with 34359738368 in H. lia.
Qed.

Lemma EncodeVarint32_loop_length n : forall v, (1 <= length (EncodeVarint32_loop (S n) v) <= S n)%nat.
Proof.
  induction n as [|n IH]; intros v.
  - simpl. destruct (v >=? 128); simpl; lia.
  - specialize (IH (Z.shiftr v 7)). remember (S n) as m. simpl. destruct (v >=? 128); simpl; lia.
Qed.

Lemma EncodeVarint32_length v : (1 <= length (EncodeVarint32 v) <= 5)%nat.
Proof. apply EncodeVarint32_loop_length. Qed.

(** ** What the reader accepts *)

Lemma land_240_zero b : 0 <= b < 256 -> Z.land b 240 = 0 -> b < 16.
Proof.
  intros Hb E. destruct (decide (b < 16)) as [|Hge]; [done|exfalso].
  assert (H : Z.shiftr (Z.land b 240) 4 = 0) by (by rewrite E).
  rewrite Z.shiftr_land in H. change (Z.shiftr 240 4) with (Z.ones 4) in H.
  rewrite Z.land_ones, Z.shiftr_div_pow2 in H by lia. change (2 ^ 4) with 16 in H.
  assert (1 <= b / 16 < 16).
  { split; [apply Z.div_le_lower_bound; lia|apply Z.div_lt_upper_bound; lia]. }
  rewrite Z.mod_small in H; lia.
Qed.

Lemma ReadExact_one c l c' :
  reading_ c = false -> are_bytes (incoming c) -> ReadExact 1 c = Finished (inl l) c' ->
  exists b, l = [b] /\ 0 <= b < 256 /\ reading_ c' = false /\ incoming c = b :: incoming c'.
Proof.
  intros Hr Hb E. apply ReadExact_spec in E as (Hr' & _ & _ & -> & Hl & Hi); [|done].
  destruct (incoming c) as [|b bs] eqn:Ei; [done|]. apply Forall_cons_1 in Hb as [Hb _].
  exists b. split; [done|]. split; [done|]. split; [done|]. by rewrite Hi.
Qed.

Lemma ReadVarint32_loop_range n : forall acc c v c',
  (n <= 5)%nat -> 0 <= acc < 2 ^ (7 * (5 - Z.of_nat n)) -> reading_ c = false -> are_bytes (incoming c) ->
  ReadVarint32_loop (indices n) acc c = Finished (inl v) c' ->
  0 <= v < 2 ^ 32 /\ reading_ c' = false /\
  exists used, incoming c = used ++ incoming c' /\ (1 <= length used <= n)%nat.
Proof.
  induction n as [|n IH]; intros acc c v c' Hn Hacc Hr Hb E; [done|].
  set (i := 5 - Z.of_nat (S n)) in *.
  assert (Hidx := indices_S n Hn). fold i in Hidx.
  rewrite Hidx in E. cbn [ReadVarint32_loop] in E.
  destruct (ReadExact 1 c) as [[l|e] c1|] eqn:E1; try done.
  apply ReadExact_one in E1 as (b & -> & Hbb & Hr1 & Hi); [|done..]. change (default 0 (head [b])) with b in E. cbv zeta in E.
  destruct ((i =? 4) && negb (Z.land b 240 =? 0)) eqn:Eg; [done|].
  rewrite land_127 in E. set (m := b mod 128) in *. assert (Hm : 0 <= m < 128) by (apply Z.mod_pos_bound; lia).
  assert (Hs : 0 <= m * 2 ^ (7 * i) < 2 ^ 32 /\ (i = 4 -> m < 16)).
  { assert (H4 : i = 4 -> m < 16).
    { intros Hi4. rewrite Hi4 in Eg. simpl in Eg. destruct (Z.eqb_spec (Z.land b 240) 0) as [Ez|]; [|done].
      pose proof (land_240_zero b Hbb Ez). unfold m. rewrite Z.mod_small; lia. }
    split; [|done]. pose proof (Z.pow_pos_nonneg 2 (7 * i)) as Hp.
    destruct (decide (i = 4)) as [Hi4|Hi4].
    - specialize (H4 Hi4). rewrite Hi4 in *. change (2 ^ (7 * 4)) with 268435456. change (2 ^ 32) with 4294967296. lia.
    - assert (2 ^ (7 * i) <= 2 ^ 21) by (apply Z.pow_le_mono_r; lia). change (2 ^ 21) with 2097152 in *.
      change (2 ^ 32) with 4294967296. nia. }
  destruct Hs as [Hs Hs4]. rewrite u32_small in E by (rewrite Z.shiftl_mul_pow2 by lia; by rewrite (Z.mul_comm i 7)).
  rewrite (Z.mul_comm i 7), lor_shift_add in E by lia.
  assert (Hnext : 0 <= acc + m * 2 ^ (7 * i) < 2 ^ (7 * (5 - Z.of_nat n))).
  { assert (2 ^ (7 * (5 - Z.of_nat n)) = 2 ^ (7 * i) * 128) as ->.
    { change 128 with (2 ^ 7). rewrite <- Z.pow_add_r by lia. f_equal. lia. }
    nia. }
  destruct (Z.land b 128 =? 0).
  - simplify_eq. split; [|split; [done|exists [b]; simpl; split; [done|lia]]]. split; [lia|].
    destruct (decide (i = 4)) as [Hi4|Hi4].
    + specialize (Hs4 Hi4). rewrite Hi4 in *. change (2 ^ (7 * 4)) with 268435456 in *. change (2 ^ 32) with 4294967296. lia.
    + assert (2 ^ (7 * (5 - Z.of_nat n)) <= 2 ^ 28) by (apply Z.pow_le_mono_r; lia).
      change (2 ^ 28) with 268435456 in *. change (2 ^ 32) with 4294967296. lia.
  - apply IH in E as (Hv & Hr' & used & Hu & Hl); try done; try lia.
    + split; [done|]. split; [done|]. exists (b :: used). rewrite Hi, Hu. simpl. split; [done|lia].
    + rewrite Hi in Hb. by inversion Hb.
Qed.

Lemma ReadVarint32_range c v c' :
  reading_ c = false -> are_bytes (incoming c) -> ReadVarint32 c = Finished (inl v) c' ->
  0 <= v < 2 ^ 32 /\ reading_ c' = false /\
  exists used, incoming c = used ++ incoming c' /\ (1 <= length used <= 5)%nat.
Proof. intros Hr Hb E. by apply (ReadVarint32_loop_range 5 0 c v c' ltac:(lia) ltac:(vm_compute; done) Hr Hb). Qed.

(** ** Frames *)

Lemma len_nonneg {A} (l : list A) : 0 <= len l.
Proof. unfold len. lia. Qed.
#[export] Hint Resolve len_nonneg : pulsar.

Lemma len_app {A} (l1 l2 : list A) : len (l1 ++ l2) = len l1 + len l2.
Proof. unfold len. rewrite length_app. lia. Qed.

Lemma to_nat_len {A} (l : list A) : Z.to_nat (len l) = length l.
Proof. unfold len. lia. Qed.

Lemma ReadExact_len bytes rest k c :
  at_rest (length bytes + k) c -> incoming c = bytes ++ rest ->
  exists c', ReadExact (Z.to_nat (len bytes)) c = Finished (inl bytes) c' /\ at_rest k c' /\ incoming c' = rest.
Proof. rewrite to_nat_len. apply ReadExact_app. Qed.

(** The reading side of a frame, with the header and the body still to read. *)
Lemma read_prefix encoded body rest k c :
  0 < len encoded <= kMaxHeader ->
  at_rest (length (frame_of encoded body) + k) c -> incoming c = frame_of encoded body ++ rest ->
  exists c1 c2, ReadVarint32 c = Finished (inl (len encoded)) c1 /\
    ReadExact (Z.to_nat (len encoded)) c1 = Finished (inl encoded) c2 /\
    at_rest (length body + k) c2 /\ incoming c2 = body ++ rest.
Proof.
  intros Hl Hc Hin. unfold frame_of in *.
  assert (Hr : 0 <= len encoded < 2 ^ 32) by (unfold kMaxHeader in Hl; lia).
  rewrite u32_small in Hc, Hin by done. rewrite !length_app, <- !Nat.add_assoc in Hc. rewrite <- !app_assoc in Hin.
  destruct (varint_loop 5 (len encoded) 0 (length encoded + (length body + k)) c (encoded ++ body ++ rest)
    ltac:(lia) Hr ltac:(lia) ltac:(vm_compute; done) Hc Hin) as (c1 & E1 & Hc1 & Hin1).
  destruct (ReadExact_len encoded (body ++ rest) (length body + k) c1 Hc1 Hin1) as (c2 & E2 & Hc2 & Hin2).
  exists c1, c2. split; [|done]. change (ReadVarint32 c) with (ReadVarint32_loop (indices 5) 0 c). rewrite E1.
  f_equal. f_equal. change (7 * (5 - Z.of_nat 5)) with 0. lia.
Qed.

Lemma reserve_ok amount held b :
  0 <= amount -> buffered_bytes b + amount <= max_buffered_bytes b -> 0 <= buffered_bytes b ->
  reserve amount held b = Some (held + amount, Budget (max_buffered_bytes b) (buffered_bytes b + amount)).
Proof.
  intros Ha Hb Hp. unfold reserve. destruct (amount >? max_buffered_bytes b) eqn:E1; to_prop; [lia|].
  simpl. destruct (buffered_bytes b >? max_buffered_bytes b - amount) eqn:E2; to_prop; [lia|done].
Qed.

Lemma reserve_spec amount held b held' b' :
  reserve amount held b = Some (held', b') -> 0 <= amount ->
  held' = held + amount /\ max_buffered_bytes b' = max_buffered_bytes b /\
  buffered_bytes b' = buffered_bytes b + amount /\ buffered_bytes b' <= max_buffered_bytes b.
Proof.
  unfold reserve. intros E Ha.
  destruct (amount >? max_buffered_bytes b) eqn:E1; [done|]. simpl in E.
  destruct (buffered_bytes b >? max_buffered_bytes b - amount) eqn:E2; [done|]. simplify_eq. simpl. to_prop. lia.
Qed.

Lemma release_spec held b b' :
  max_buffered_bytes b' = max_buffered_bytes b -> buffered_bytes b' = buffered_bytes b + held -> release held b' = b.
Proof. intros E1 E2. unfold release. rewrite E1, E2. destruct b. simpl. f_equal. lia. Qed.

Section frames.
Context `{HL : HeaderLaws}.

Lemma encode_request_inv service method args id frame :
  encode_request service method args id = inr frame ->
  exists a encoded, args = Some a /\ ser (Header service method (len a) id []) = Some encoded /\
    0 < len encoded <= kMaxHeader /\ len a <= kMaxMessage - len encoded - 5 /\ frame = frame_of encoded a.
Proof.
  unfold encode_request. intros E. destruct args as [a|]; [|done].
  destruct (len a >? kMaxMessage) eqn:Ea; [done|]. to_prop.
  pose proof (len_nonneg a). rewrite u32_small in E by (unfold kMaxMessage in Ea; lia).
  destruct (ser _) as [encoded|] eqn:Es; [|done].
  destruct (bool_decide (encoded = []) || (len encoded >? kMaxHeader) || (len a >? kMaxMessage - len encoded - 5)) eqn:Eg; [done|].
  apply orb_false_iff in Eg as [Eg E3]. apply orb_false_iff in Eg as [E1 E2]. to_prop.
  exists a, encoded. simplify_eq. split_and!; try done.
  unfold len. destruct encoded; [done|simpl; lia].
Qed.

Lemma read_request_frame service method args id frame k rest b c :
  encode_request service method args id = inr frame ->
  at_rest (length frame + k) c -> incoming c = frame ++ rest ->
  0 <= buffered_bytes b -> buffered_bytes b + len frame <= max_buffered_bytes b ->
  exists a held b' c', args = Some a /\
    read_request b c = Finished (Some (Header service method (len a) id [], a), (held, b')) c' /\
    at_rest k c' /\ incoming c' = rest /\ len a < held < len frame /\ buffered_bytes b' = buffered_bytes b + held.
Proof.
  intros E Hc Hin Hb0 Hb. apply encode_request_inv in E as (a & encoded & -> & Es & He & Ha & ->).
  destruct (read_prefix encoded a rest k c He Hc Hin) as (c1 & c2 & E1 & E2 & Hc2 & Hin2).
  pose proof (len_nonneg a) as Hla. pose proof (EncodeVarint32_length (u32 (len encoded))) as Hvl.
  assert (Hf : len (frame_of encoded a) = len (EncodeVarint32 (u32 (len encoded))) + len encoded + len a).
  { unfold frame_of. rewrite !len_app. lia. }
  assert (Hv : 1 <= len (EncodeVarint32 (u32 (len encoded)))) by (unfold len at 1; lia).
  exists a. unfold read_request. rewrite E1.
  destruct (Z.eqb_spec (len encoded) 0) as [|_]; [lia|]. destruct (len encoded >? kMaxHeader) eqn:Eh; to_prop; [lia|].
  cbn [orb]. rewrite reserve_ok by lia. rewrite E2, (parse_ser _ _ Es). cbn [args_size].
  destruct (len a >? kMaxMessage - len encoded - 5) eqn:Em; to_prop; [lia|].
  rewrite reserve_ok by (simpl; lia). cbn [max_buffered_bytes buffered_bytes].
  destruct (ReadExact_len a rest k c2 Hc2 Hin2) as (c3 & E3 & Hc3 & Hin3).
  destruct (Z.eqb_spec (len a) 0) as [Hz|Hz].
  - assert (a = []) as -> by (destruct a; [done|unfold len in Hz; simpl in Hz; lia]).
    eexists _, _, c2. split; [done|]. split; [reflexivity|].
    split; [done|]. split; [done|]. cbn [buffered_bytes]. lia.
  - rewrite E3. eexists _, _, c3. split; [done|]. split; [reflexivity|].
    split; [done|]. split; [done|]. cbn [buffered_bytes]. lia.
Qed.

(** Request round trip.  The frame a channel builds for a call is read by the
    provider as that call: service, method, request id and argument bytes, with
    nothing of what follows consumed, and the header's and arguments' bytes are
    reserved, provided the reservation fits. *)
Theorem request_roundtrip service method args id frame k rest b c :
  encode_request service method args id = inr frame ->
  at_rest (length frame + k) c -> incoming c = frame ++ rest ->
  0 <= buffered_bytes b -> buffered_bytes b + len frame <= max_buffered_bytes b ->
  exists a held b' c', args = Some a /\
    read_request b c = Finished (Some (Header service method (len a) id [], a), (held, b')) c' /\
    at_rest k c' /\ incoming c' = rest /\ len a < held < len frame /\ buffered_bytes b' = buffered_bytes b + held.
Proof. apply read_request_frame. Qed.

Lemma read_response_exactly h encoded body rest k c :
  ser h = Some encoded -> 0 < len encoded <= kMaxHeader -> args_size h = len body ->
  at_rest (length (frame_of encoded body) + k) c -> incoming c = frame_of encoded body ++ rest ->
  exists c', read_response c = Finished (Frame h body) c' /\ at_rest k c' /\ incoming c' = rest.
Proof.
  intros Es He Ha Hc Hin. destruct (read_prefix encoded body rest k c He Hc Hin) as (c1 & c2 & E1 & E2 & Hc2 & Hin2).
  unfold read_response. rewrite E1.
  destruct (Z.eqb_spec (len encoded) 0) as [|_]; [lia|]. destruct (len encoded >? kMaxHeader) eqn:Eh; to_prop; [lia|].
  cbn [orb]. rewrite E2, (parse_ser _ _ Es), Ha.
  destruct (ReadExact_len body rest k c2 Hc2 Hin2) as (c3 & E3 & Hc3 & Hin3).
  destruct (Z.eqb_spec (len body) 0) as [Hz|Hz].
  - assert (body = []) as -> by (destruct body; [done|unfold len in Hz; simpl in Hz; lia]). by exists c2.
  - rewrite E3. by exists c3.
Qed.

(** Response round trip.  The frame the provider sends for a finished call is
    read by the channel's reader as one frame with the call's request id: with the
    payload and no error when the handler succeeded and its answer fits the message
    limit, and otherwise with an error text and an empty payload. *)
Theorem response_roundtrip outcome response id encoded k rest c :
  ser (response_header outcome response id) = Some encoded -> 0 < len encoded <= kMaxHeader ->
  at_rest (length (encode_response outcome response id) + k) c ->
  incoming c = encode_response outcome response id ++ rest ->
  exists h payload c', read_response c = Finished (Frame h payload) c' /\ at_rest k c' /\ incoming c' = rest /\
    request_id h = id /\
    match response with
    | Some p => if (outcome =? 2) || (len p >? kMaxMessage) then error h <> [] /\ payload = []
                else error h = [] /\ payload = p
    | None => error h <> [] /\ payload = []
    end.
Proof.
  intros Es He Hc Hin. unfold encode_response in Hc, Hin. rewrite Es in Hc, Hin. cbn [from_option Datatypes.id] in Hc, Hin.
  set (body := if bool_decide (response_error outcome response = []) then default [] response else []) in *.
  assert (Hsize : args_size (response_header outcome response id) = len body).
  { unfold response_header, body. cbn [args_size]. case_bool_decide as Er; [|done].
    unfold response_error in Er. destruct (outcome =? 2); [done|]. destruct response as [p|]; [|done].
    destruct (len p >? kMaxMessage) eqn:Ep; [done|]. to_prop. cbn [from_option Datatypes.id]. pose proof (len_nonneg p).
    apply u32_small. unfold kMaxMessage in Ep. lia. }
  destruct (read_response_exactly _ _ body rest k c Es He Hsize Hc Hin) as (c' & E & Hc' & Hin').
  eexists _, _, c'. split; [exact E|]. split; [done|]. split; [done|]. split; [done|].
  unfold body, response_header, response_error. cbn [error].
  destruct (outcome =? 2), response as [p|]; cbn [orb]; try done. by destruct (len p >? kMaxMessage).
Qed.

(** A path that leaves the round. *)
Ltac left_round := match goal with E : Finished (None, _) _ = Finished _ _ |- _ => injection E as <- <- <- <- end; split_and!; [done|lia..|done].

Lemma read_request_spec b c r held b' c' :
  reading_ c = false -> are_bytes (incoming c) -> 0 <= buffered_bytes b <= max_buffered_bytes b ->
  read_request b c = Finished (r, (held, b')) c' ->
  release held b' = b /\ 0 <= held /\ buffered_bytes b' <= max_buffered_bytes b /\
  match r with
  | Some (h, args) => len args = args_size h /\
      exists header_size, 0 < header_size <= kMaxHeader /\ 5 + header_size + len args <= kMaxMessage /\
        held = header_size + len args
  | None => True
  end.
Proof.
  intros Hr Hb Hbud E. unfold read_request in E.
  assert (H0 : release 0 b = b) by (by apply release_spec; [|lia]).
  destruct (ReadVarint32 c) as [[hs|e] c1|] eqn:E1; [|left_round|done].
  apply ReadVarint32_range in E1 as (Hhs & Hr1 & _); [|done..].
  destruct ((hs =? 0) || (hs >? kMaxHeader)) eqn:Eg; [left_round|].
  apply orb_false_iff in Eg as [Eg1 Eg2]. to_prop.
  destruct (reserve hs 0 b) as [[held1 b1]|] eqn:Er1; [|left_round].
  apply reserve_spec in Er1 as (-> & Hm1 & Hb1 & Hl1); [|lia].
  assert (H1 : release (0 + hs) b1 = b) by (apply release_spec; [done|lia]).
  destruct (ReadExact (Z.to_nat hs) c1) as [[hd|e] c2|] eqn:E2; [|left_round|done].
  apply ReadExact_spec in E2 as (Hr2 & _ & _ & _ & _ & Hi2); [|done].
  destruct (parse hd) as [h|] eqn:Ep; [|left_round].
  apply parse_args_size in Ep.
  destruct (args_size h >? kMaxMessage - hs - 5) eqn:Ea; [left_round|]. to_prop.
  destruct (reserve (args_size h) (0 + hs) b1) as [[held2 b2]|] eqn:Er2; [|left_round].
  apply reserve_spec in Er2 as (-> & Hm2 & Hb2 & Hl2); [|lia].
  assert (H2 : release (0 + hs + args_size h) b2 = b) by (apply release_spec; [congruence|lia]).
  destruct (Z.eqb_spec (args_size h) 0) as [Hz|Hz].
  - injection E as <- <- <- <-. split_and!; [done|lia|lia|by rewrite Hz|]. exists hs. change (len []) with 0. lia.
  - destruct (ReadExact (Z.to_nat (args_size h)) c2) as [[args|e] c3|] eqn:E3; [|left_round|done].
    apply ReadExact_spec in E3 as (_ & _ & _ & _ & Hl & _); [|done]. injection E as <- <- <- <-.
    assert (Hla : len args = args_size h) by (unfold len; lia).
    split_and!; [done|lia|lia|done|]. exists hs. lia.
Qed.

(** C37. Bounded requests.  Whatever bytes a peer sends, reading a request reserves
    at most the provider's budget of buffered bytes; a request is accepted only with
    a header of at most 64 KiB and, prefix and header included, at most 64 MiB in
    total, all of it reserved; and leaving the round gives back exactly what was
    reserved, on every path. *)
Theorem accepted_requests_are_bounded b c r held b' c' :
  reading_ c = false -> are_bytes (incoming c) -> 0 <= buffered_bytes b <= max_buffered_bytes b ->
  read_request b c = Finished (r, (held, b')) c' ->
  release held b' = b /\ 0 <= held /\ buffered_bytes b' <= max_buffered_bytes b /\
  match r with
  | Some (h, args) => len args = args_size h /\
      exists header_size, 0 < header_size <= kMaxHeader /\ 5 + header_size + len args <= kMaxMessage /\
        held = header_size + len args
  | None => True
  end.
Proof. apply read_request_spec. Qed.
End frames.

(** ** Version 1 responses *)

Lemma land_255 v : Z.land v 255 = v mod 256.
Proof. change 255 with (Z.ones 8). by rewrite Z.land_ones. Qed.

Lemma ntohl_htonl n : 0 <= n < 2 ^ 32 -> ntohl_bytes (htonl_bytes n) = n.
Proof.
  intros Hn. unfold ntohl_bytes, htonl_bytes. rewrite !land_255, !Z.shiftr_div_pow2 by lia.
  change (2 ^ 8) with 256. change (2 ^ 16) with (256 * 256). change (2 ^ 24) with (256 * 256 * 256).
  change (2 ^ 32) with (256 * 256 * 256 * 256) in Hn. rewrite <- !Z.div_div by lia.
  set (q1 := n / 256). set (q2 := q1 / 256). set (q3 := q2 / 256).
  assert (E0 := Z.div_mod n 256 ltac:(lia)). fold q1 in E0. assert (E1 := Z.div_mod q1 256 ltac:(lia)). fold q2 in E1.
  assert (E2 := Z.div_mod q2 256 ltac:(lia)). fold q3 in E2.
  assert (0 <= n mod 256 < 256) by (apply Z.mod_pos_bound; lia).
  assert (0 <= q1 mod 256 < 256) by (apply Z.mod_pos_bound; lia).
  assert (0 <= q2 mod 256 < 256) by (apply Z.mod_pos_bound; lia).
  assert (H3 : q3 mod 256 = q3) by (apply Z.mod_small; lia). rewrite H3.
  rewrite (Z.lor_comm (Z.shiftl (q1 mod 256) 8)), lor_shift_add by (simpl; lia).
  change (2 ^ 8) with 256.
  rewrite (Z.lor_comm (Z.shiftl (q2 mod 256) 16)), lor_shift_add by (change (2 ^ 16) with 65536; lia).
  change (2 ^ 16) with 65536.
  rewrite Z.lor_comm, lor_shift_add by (change (2 ^ 24) with 16777216; lia).
  change (2 ^ 24) with 16777216. lia.
Qed.

(** Version 1 round trip.  A response the provider sends with its four-byte
    length in network order is read back by the channel, payload and all; one over
    64 MiB is never sent. *)
Theorem response_v1_roundtrip payload bytes k rest c :
  encode_response_v1 payload = Some bytes -> at_rest (length bytes + k) c -> incoming c = bytes ++ rest ->
  len payload <= kMaxMessage /\
  exists c', read_response_v1 c = Finished (inr payload) c' /\ at_rest k c' /\ incoming c' = rest.
Proof.
  unfold encode_response_v1. intros E Hc Hin. destruct (len payload >? kMaxMessage) eqn:Em; [done|]. to_prop.
  assert (bytes = htonl_bytes (len payload) ++ payload) as -> by congruence.
  split; [done|]. rewrite length_app, <- Nat.add_assoc in Hc. rewrite <- app_assoc in Hin.
  destruct (ReadExact_app (htonl_bytes (len payload)) (payload ++ rest) (length payload + k) c Hc Hin) as (c1 & E1 & Hc1 & Hin1).
  change (length (htonl_bytes (len payload))) with 4%nat in E1.
  destruct (ReadExact_len payload rest k c1 Hc1 Hin1) as (c2 & E2 & Hc2 & Hin2).
  pose proof (len_nonneg payload). unfold read_response_v1. rewrite E1, ntohl_htonl by (unfold kMaxMessage in Em; lia).
  destruct (len payload >? kMaxMessage) eqn:Em'; [to_prop; lia|].
  destruct (Z.eqb_spec (len payload) 0) as [Hz|Hz].
  - assert (payload = []) as -> by (destruct payload; [done|unfold len in Hz; simpl in Hz; lia]). by exists c1.
  - rewrite E2. by exists c2.
Qed.

(** ** Witnesses *)

(** A header format for evaluation: the sizes in front of the fields. *)
Definition demo_ser (h : RpcHeader) : option (list Z) :=
  if (0 <=? args_size h) && (args_size h <? 2 ^ 32)
  then Some ([args_size h; request_id h; len (service_name h); len (error h)] ++ service_name h ++ error h ++ method_name h)
  else None.
Definition demo_parse (l : list Z) : option RpcHeader :=
  match l with
  | a :: i :: ls :: le :: l =>
      if (0 <=? a) && (a <? 2 ^ 32)
      then Some (Header (take (Z.to_nat ls) l) (drop (Z.to_nat le) (drop (Z.to_nat ls) l)) a i (take (Z.to_nat le) (drop (Z.to_nat ls) l)))
      else None
  | _ => None
  end.
#[local] Instance demo_format : HeaderFormat := {| ser := demo_ser; parse := demo_parse |}.

Lemma demo_parse_ser h l : demo_ser h = Some l -> demo_parse l = Some h.
Proof.
  unfold demo_ser, demo_parse. intros E. destruct ((0 <=? args_size h) && (args_size h <? 2 ^ 32)) eqn:Eg; [|done].
  injection E as <-. cbn [app]. rewrite Eg, !to_nat_len, take_app_length, drop_app_length, take_app_length, drop_app_length.
  by destruct h.
Qed.

Lemma demo_parse_range l h : demo_parse l = Some h -> 0 <= args_size h < 2 ^ 32.
Proof.
  unfold demo_parse. intros E. do 4 (destruct l as [|? l]; [done|]).
  destruct ((0 <=? _) && _) eqn:Eg; [|done]. injection E as <-. cbn [args_size]. to_prop. lia.
Qed.
#[local] Instance demo_laws : HeaderLaws := {| parse_ser := demo_parse_ser; parse_args_size := demo_parse_range |}.

Lemma ready_friendly n : friendly n (repeat (Ready 0) n).
Proof. induction n; simpl; by constructor. Qed.

(** A connection with [bytes] on their way in, one at a time, and [rest] behind
    them. *)
Definition rest_conn (bytes rest : list Z) : Connection :=
  Conn false false false (bytes ++ rest) [] (repeat (Ready 0) (length bytes + 0)).
Lemma rest_conn_at_rest bytes rest : at_rest (length bytes + 0) (rest_conn bytes rest).
Proof. split_and!; [done|done|]. apply ready_friendly. Qed.
Lemma rest_conn_incoming bytes rest : incoming (rest_conn bytes rest) = bytes ++ rest.
Proof. done. Qed.

Lemma varint_roundtrip_witness :
  exists c', ReadVarint32 (rest_conn (EncodeVarint32 4294967295) [9]) = Finished (inl 4294967295) c' /\ incoming c' = [9].
Proof.
  destruct (varint_roundtrip 4294967295 0 _ _ ltac:(lia) (rest_conn_at_rest _ [9]) (rest_conn_incoming _ _)) as (c' & E & _ & H).
  exists c'. by split.
Defined.

Definition demo_frame : list Z := frame_of [3; 7; 1; 0; 65; 66] [10; 11; 12].

Lemma demo_frame_ok : encode_request [65] [66] (Some [10; 11; 12]) 7 = inr demo_frame.
Proof. vm_compute. reflexivity. Qed.
Lemma demo_frame_fits : buffered_bytes (Budget 100 0) + len demo_frame <= max_buffered_bytes (Budget 100 0).
Proof. vm_compute. discriminate. Qed.

Lemma request_roundtrip_witness : exists a held b' c',
  read_request (Budget 100 0) (rest_conn demo_frame [1]) = Finished (Some (Header [65] [66] (len a) 7 [], a), (held, b')) c' /\
  incoming c' = [1].
Proof.
  destruct (request_roundtrip _ _ _ _ _ 0 _ (Budget 100 0) _ demo_frame_ok (rest_conn_at_rest _ _) (rest_conn_incoming _ [1])
    (Z.le_refl 0) demo_frame_fits)
    as (a & held & b' & c' & _ & E & _ & H & _).
  exists a, held, b', c'. by split.
Defined.

Lemma demo_response_ok : ser (response_header 1 (Some [5; 6]) 7) = Some [2; 7; 0; 0] /\ 0 < len [2; 7; 0; 0] <= kMaxHeader.
Proof. vm_compute. by split_and!. Qed.

Lemma response_roundtrip_witness : exists h payload c',
  read_response (rest_conn (encode_response 1 (Some [5; 6]) 7) []) = Finished (Frame h payload) c' /\
  request_id h = 7 /\ error h = [] /\ payload = [5; 6].
Proof.
  destruct (response_roundtrip 1 (Some [5; 6]) 7 _ 0 [] _
    (proj1 demo_response_ok) (proj2 demo_response_ok) (rest_conn_at_rest _ _) (rest_conn_incoming _ _))
    as (h & p & c' & E & _ & _ & Hid & He & Hp).
  exists h, p, c'. by split_and!.
Defined.

Lemma accepted_requests_are_bounded_witness : exists r held b' c',
  read_request (Budget 100 40) (rest_conn demo_frame []) = Finished (r, (held, b')) c' /\ release held b' = Budget 100 40.
Proof.
  eexists _, _, _, _. split; [vm_compute; reflexivity|].
  eapply (accepted_requests_are_bounded (Budget 100 40) (rest_conn demo_frame [])); [reflexivity| |simpl; lia|vm_compute; reflexivity].
  apply Forall_forall. intros b Hb. repeat (apply elem_of_cons in Hb as [->|Hb]; [vm_compute; split; [discriminate|reflexivity]|]).
  by apply elem_of_nil in Hb.
Defined.

Lemma response_v1_roundtrip_witness : len [5; 6] <= kMaxMessage /\
  exists c', read_response_v1 (rest_conn [0; 0; 0; 2; 5; 6] []) = Finished (inr [5; 6]) c' /\ at_rest 0 c' /\ incoming c' = [].
Proof.
  apply (response_v1_roundtrip [5; 6] [0; 0; 0; 2; 5; 6]); [vm_compute; reflexivity|apply rest_conn_at_rest|apply rest_conn_incoming].
Defined.
