(* ===== verification/RpcClient.v ===== *)
(** * The RPC client (src/rpc.cpp, [Controller] and [Channel])

    The controller, the bounded pool of connections of a version 1 channel with the
    whole exchange of a call, and the bookkeeping of calls that share one connection.
    What a call says to the controller is its result: [inl e] for
    [SetFailed], [inr payload] for a parsed response. *)

From S2P Require Import Prelude Net Codec.

(** ** Controller *)

(** Callbacks are numbers; [ran] are the callbacks run so far. *)
Record Controller := Ctrl {
  error_ : list Z;
  canceled_ : bool;
  cancel_callbacks_ : list nat;
  ran : list nat }.

Definition Controller_new : Controller := Ctrl [] false [] [].
Definition Reset (c : Controller) : Controller := Ctrl [] false [] (ran c).
Definition Failed (c : Controller) : bool := bool_decide (error_ c <> []).
Definition ErrorText (c : Controller) : list Z := error_ c.
Definition StartCancel (c : Controller) : Controller :=
  if canceled_ c then c else Ctrl (error_ c) true [] (ran c ++ cancel_callbacks_ c).
Definition SetFailed (reason : list Z) (c : Controller) : Controller := Ctrl reason (canceled_ c) (cancel_callbacks_ c) (ran c).
Definition IsCanceled (c : Controller) : bool := canceled_ c.
Definition NotifyOnCancel (callback : nat) (c : Controller) : Controller :=
  if canceled_ c then Ctrl (error_ c) (canceled_ c) (cancel_callbacks_ c) (ran c ++ [callback])
  else Ctrl (error_ c) (canceled_ c) (cancel_callbacks_ c ++ [callback]) (ran c).

Inductive controller_op := OpCancel | OpFail (reason : list Z) | OpNotify (callback : nat).
Definition controller_run (op : controller_op) (c : Controller) : Controller :=
  match op with
  | OpCancel => StartCancel c
  | OpFail reason => SetFailed reason c
  | OpNotify callback => NotifyOnCancel callback c
  end.
Definition controller_runs (ops : list controller_op) (c : Controller) : Controller := fold_left (fun c op => controller_run op c) ops c.

(** ** Version 1: one call per connection *)

Record Slot := MkSlot {
  busy : bool;
  conn : option Connection }.

(** The first free slot, marked busy. *)
Fixpoint acquire_slot (slots : list Slot) : option nat * list Slot :=
  match slots with
  | [] => (None, [])
  | candidate :: slots' =>
      if busy candidate
      then let '(r, l) := acquire_slot slots' in (S <$> r, candidate :: l)
      else (Some 0%nat, MkSlot true (conn candidate) :: slots')
  end.

Section v1.
Context `{HeaderFormat}.

(** The body of a call on the connection of its slot.  [connect] is what
    [Connection::Connect] would give, [parse_response] the response's
    [ParseFromArray]; [None]: the call is still waiting. *)
Definition exchange (on_owner : bool) (service method : list Z) (args : option (list Z))
    (connect : Z + Connection) (parse_response : list Z -> bool) (slot_conn : option Connection)
    : option ((call_error + list Z) * option Connection) :=
  if negb on_owner then Some (inl WrongThread, slot_conn)
  else
    match encode_request service method args 0 with
    | inl e => Some (inl e, slot_conn)
    | inr frame =>
        let usable := match slot_conn with Some c => negb (closed_ c) | None => false end in
        match (if usable then slot_conn else match connect with inr c => Some c | inl _ => None end) with
        | None => Some (inl (ConnectFailed (match connect with inl e => e | inr _ => 0 end)), None)
        | Some c =>
            match WriteAll frame c with
            | InProgress => None
            | Finished (Some e) c => Some (inl (SendFailed e), Some c)
            | Finished None c =>
                match read_response_v1 c with
                | InProgress => None
                | Finished (inl e) c => Some (inl e, Some c)
                | Finished (inr payload) c =>
                    if parse_response payload then Some (inr payload, Some c) else Some (inl ParseFailed, Some c)
                end
            end
        end
    end.

(** The end of a call: a connection on which something failed is closed and
    dropped, and the slot is free. *)
Definition release_slot (result : call_error + list Z) (slot_conn : option Connection) : Slot :=
  match result with
  | inr _ => MkSlot false slot_conn
  | inl _ => MkSlot false None
  end.
End v1.

(** The pool: [users] are the slots of the calls under way. *)
Record slot_pool := SP {
  slots : list Slot;
  users : list nat }.

Definition pool_new (limit : nat) : slot_pool := SP (repeat (MkSlot false None) limit) [].

(** Entering a call: a slot, or the answer [Overloaded]. *)
Definition call_enter (s : slot_pool) : option call_error * slot_pool :=
  match acquire_slot (slots s) with
  | (Some i, l) => (None, SP l (i :: users s))
  | (None, l) => (Some Overloaded, SP l (users s))
  end.
Definition call_leave (i : nat) (result : call_error + list Z) (slot_conn : option Connection) (s : slot_pool) : slot_pool :=
  SP (<[i := release_slot result slot_conn]> (slots s)) (filter (.≠ i) (users s)).

Inductive pool_call_step : slot_pool -> slot_pool -> Prop :=
| pc_enter s : pool_call_step s (snd (call_enter s))
| pc_leave s i result slot_conn : i ∈ users s -> pool_call_step s (call_leave i result slot_conn s).

(** ** Many calls on one connection *)

(** The fiber of a call: sending its frame, suspended in [WriteAll]'s [Wait], sent,
    yielded in [CallMethod], running again, returned. *)
Inductive mpc := MSending | MWriteWait | MSent | MParked | MBack | MReturned (result : call_error + list Z).

(** [State::PendingCall] with the caller's control point, its timer, the timer
    callbacks that have left the timer manager, the resumptions of the fiber that
    are in the scheduler, whoever scheduled them, and the [WaitState]s of its
    [WriteAll] whose [outcome] is still 0.  [failed] and [error] are [Some e] together. *)
Record PendingCall := PC {
  m_pc : mpc;
  m_payload : list Z;
  m_error : option call_error;
  m_done : bool;
  m_timer : bool;
  m_expired : nat;
  m_wakeups : nat;
  m_waits : nat }.

(** [Channel::State].  [calls] are the call objects by request id; [pending_calls]
    the ids in the map of that name; [remaining] those a reader has taken out of it
    and not handled yet; [received] records the frames read, as id, error text and
    payload. *)
Record Mux := MX {
  next_request_id : Z;
  calls : gmap Z PendingCall;
  pending_calls : gset Z;
  remaining : gset Z;
  received : list (Z * (list Z * list Z)) }.

Definition Mux_new : Mux := MX 1 ∅ ∅ ∅ [].

Definition set_pc (p : mpc) (c : PendingCall) : PendingCall :=
  PC p (m_payload c) (m_error c) (m_done c) (m_timer c) (m_expired c) (m_wakeups c) (m_waits c).
Definition set_call (id : Z) (c : PendingCall) (s : Mux) : Mux :=
  MX (next_request_id s) (<[id := c]> (calls s)) (pending_calls s) (remaining s) (received s).
Definition erase_pending (id : Z) (s : Mux) : Mux :=
  MX (next_request_id s) (calls s) (pending_calls s ∖ {[id]}) (remaining s) (received s).

(** The two [fetch_add]s of [CallMethod]. *)
Definition issue_id (s : Mux) : Z * Mux :=
  let bump s := MX (u64 (next_request_id s + 1)) (calls s) (pending_calls s) (remaining s) (received s) in
  if next_request_id s =? 0 then (next_request_id (bump s), bump (bump s)) else (next_request_id s, bump s).

(** A call enters the map. *)
Definition mux_start (s : Mux) : Mux :=
  let '(id, s) := issue_id s in
  let s := set_call id (PC MSending [] None false false 0 0 0) s in
  MX (next_request_id s) (calls s) (pending_calls s ∪ {[id]}) (remaining s) (received s).

(** [WriteAll] suspends in [Wait], whose [WaitState] holds the event and the timer;
    the one that comes first schedules the fiber; the fiber runs again, with
    whichever of its resumptions comes first, and writes on. *)
Definition mux_wait (id : Z) (c : PendingCall) (s : Mux) : Mux :=
  set_call id (PC MWriteWait (m_payload c) (m_error c) (m_done c) (m_timer c) (m_expired c) (m_wakeups c) (S (m_waits c))) s.
Definition mux_wait_ends (id : Z) (c : PendingCall) (s : Mux) : Mux :=
  set_call id (PC (m_pc c) (m_payload c) (m_error c) (m_done c) (m_timer c) (m_expired c) (S (m_wakeups c)) (pred (m_waits c))) s.
Definition mux_write_on (id : Z) (c : PendingCall) (s : Mux) : Mux :=
  set_call id (PC MSending (m_payload c) (m_error c) (m_done c) (m_timer c) (m_expired c) (pred (m_wakeups c)) (m_waits c)) s.

(** [WriteAll] has returned. *)
Definition mux_sent (id : Z) (c : PendingCall) (s : Mux) : Mux := set_call id (set_pc MSent c) s.
Definition mux_send_failed (id : Z) (e : Z) (c : PendingCall) (s : Mux) : Mux :=
  set_call id (set_pc (MReturned (inl (SendFailed e))) c) (erase_pending id s).

(** The timer, when there is a timeout, and the yield. *)
Definition mux_yield (id : Z) (has_timeout : bool) (c : PendingCall) (s : Mux) : Mux :=
  set_call id (PC MParked (m_payload c) (m_error c) (m_done c) has_timeout (m_expired c) (m_wakeups c) (m_waits c)) s.

(** The write itself, with the shared connection as it is left for the next call:
    [None] when it succeeded, else [errno]. *)
Definition mux_write (frame : list Z) (c : Connection) : progress (option Z) :=
  if closed_ c then Finished (Some EBADF) c else WriteAll frame c.

(** How a call is answered: the result is stored, [done] set, the waiter scheduled. *)
Definition fail_call (e : call_error) (c : PendingCall) : PendingCall :=
  PC (m_pc c) (m_payload c) (Some e) true (m_timer c) (m_expired c) (S (m_wakeups c)) (m_waits c).
Definition answer_call (err payload : list Z) (c : PendingCall) : PendingCall :=
  if bool_decide (err = [])
  then PC (m_pc c) payload (m_error c) true (m_timer c) (m_expired c) (S (m_wakeups c)) (m_waits c)
  else fail_call (PeerError err) c.

(** [ReaderLoop] has read a frame. *)
Definition reader_frame (id : Z) (err payload : list Z) (s : Mux) : Mux :=
  let s := MX (next_request_id s) (calls s) (pending_calls s) (remaining s) ((id, (err, payload)) :: received s) in
  if bool_decide (id ∈ pending_calls s) then
    match calls s !! id with
    | Some c => set_call id (answer_call err payload c) (erase_pending id s)
    | None => s
    end
  else s.

(** The end of [ReaderLoop]: the map is taken, then its calls fail one by one. *)
Definition reader_swap (s : Mux) : Mux :=
  MX (next_request_id s) (calls s) ∅ (remaining s ∪ pending_calls s) (received s).
Definition reader_teardown (id : Z) (c : PendingCall) (s : Mux) : Mux :=
  let s := MX (next_request_id s) (calls s) (pending_calls s) (remaining s ∖ {[id]}) (received s) in
  if m_done c then s else set_call id (fail_call ConnectionClosed c) s.

(** The timer goes off; its callback runs. *)
Definition mux_expire (id : Z) (c : PendingCall) (s : Mux) : Mux :=
  set_call id (PC (m_pc c) (m_payload c) (m_error c) (m_done c) false (S (m_expired c)) (m_wakeups c) (m_waits c)) s.
Definition mux_timeout (id : Z) (c : PendingCall) (s : Mux) : Mux :=
  let c := PC (m_pc c) (m_payload c) (m_error c) (m_done c) (m_timer c) (pred (m_expired c)) (m_wakeups c) (m_waits c) in
  if bool_decide (id ∈ pending_calls s)
  then set_call id (fail_call RequestTimeout c) (erase_pending id s)
  else set_call id c s.

(** The waiter runs again, cancels its timer and returns. *)
Definition mux_resume (id : Z) (c : PendingCall) (s : Mux) : Mux :=
  set_call id (PC MBack (m_payload c) (m_error c) (m_done c) (m_timer c) (m_expired c) (pred (m_wakeups c)) (m_waits c)) s.

Definition call_result (parse_response : list Z -> bool) (c : PendingCall) : call_error + list Z :=
  match m_error c with
  | Some e => inl e
  | None => if parse_response (m_payload c) then inr (m_payload c) else inl ParseFailed
  end.
Definition mux_return (parse_response : list Z -> bool) (id : Z) (c : PendingCall) (s : Mux) : Mux :=
  set_call id (PC (MReturned (call_result parse_response c)) (m_payload c) (m_error c) (m_done c) false (m_expired c) (m_wakeups c) (m_waits c)) s.

(** The interleavings, for fewer than 2^64 - 1 calls: request ids do not repeat.
    Every call is made by a fiber of its own that starts without resumptions.
    [addEvent] panics when the write event is registered already, so a call has at
    most one unfinished wait. *)
Inductive mux_step (parse_response : list Z -> bool) : Mux -> Mux -> Prop :=
| mx_start s : next_request_id s < 2 ^ 64 - 1 -> mux_step parse_response s (mux_start s)
| mx_connect_failed s : next_request_id s < 2 ^ 64 - 1 -> mux_step parse_response s (snd (issue_id s))
| mx_sent s id c : calls s !! id = Some c -> m_pc c = MSending -> mux_step parse_response s (mux_sent id c s)
| mx_send_failed s id c e : calls s !! id = Some c -> m_pc c = MSending -> mux_step parse_response s (mux_send_failed id e c s)
| mx_wait s id c : calls s !! id = Some c -> m_pc c = MSending -> m_waits c = 0%nat -> mux_step parse_response s (mux_wait id c s)
| mx_wait_ends s id c : calls s !! id = Some c -> (0 < m_waits c)%nat -> mux_step parse_response s (mux_wait_ends id c s)
| mx_write_on s id c : calls s !! id = Some c -> m_pc c = MWriteWait -> (0 < m_wakeups c)%nat -> mux_step parse_response s (mux_write_on id c s)
| mx_yield s id c has_timeout : calls s !! id = Some c -> m_pc c = MSent -> mux_step parse_response s (mux_yield id has_timeout c s)
| mx_frame s id err payload : mux_step parse_response s (reader_frame id err payload s)
| mx_swap s : mux_step parse_response s (reader_swap s)
| mx_teardown s id c : calls s !! id = Some c -> id ∈ remaining s -> mux_step parse_response s (reader_teardown id c s)
| mx_expire s id c : calls s !! id = Some c -> m_timer c = true -> mux_step parse_response s (mux_expire id c s)
| mx_timeout s id c : calls s !! id = Some c -> (0 < m_expired c)%nat -> mux_step parse_response s (mux_timeout id c s)
| mx_resume s id c : calls s !! id = Some c -> m_pc c = MParked -> (0 < m_wakeups c)%nat -> mux_step parse_response s (mux_resume id c s)
| mx_return s id c : calls s !! id = Some c -> m_pc c = MBack -> mux_step parse_response s (mux_return parse_response id c s).
