(* ===== verification/RpcClientProofs.v ===== *)
(** * Correctness of the RPC client *)

From S2P Require Import Prelude Net NetProofs Codec CodecProofs RpcClient.

(** ** Controller *)

(** The callbacks registered by a sequence of calls. *)
Definition notified (ops : list controller_op) : list nat :=
  omap (fun op => match op with OpNotify n => Some n | _ => None end) ops.

Definition controller_ok (registered : list nat) (c : Controller) : Prop :=
  registered = ran c ++ cancel_callbacks_ c /\ (canceled_ c = true -> cancel_callbacks_ c = []).

Lemma controller_run_ok op l c : controller_ok l c -> controller_ok (l ++ notified [op]) (controller_run op c).
Proof.
  intros [-> Hc]. unfold controller_ok. destruct op as [|reason|n]; simpl; unfold StartCancel, NotifyOnCancel;
    rewrite ?app_nil_r; try done; destruct (canceled_ c) eqn:E; simpl; rewrite ?app_nil_r; auto.
  - rewrite Hc by done. by rewrite !app_nil_r.
  - by rewrite app_assoc.
Qed.

Lemma controller_runs_ok ops : forall l c, controller_ok l c -> controller_ok (l ++ notified ops) (controller_runs ops c).
Proof.
  induction ops as [|op ops IH]; intros l c Hc; [by rewrite app_nil_r|].
  assert (E : notified (op :: ops) = notified [op] ++ notified ops) by (by destruct op).
  rewrite E, app_assoc. by apply IH, controller_run_ok.
Qed.

(** Cancellation callbacks: whatever the order of registrations, failures and
    cancellations, every callback registered has run exactly once, in the order of
    registration, when the call is cancelled, and waits for it otherwise. *)
Theorem cancel_callbacks_run_once ops :
  let c := controller_runs ops Controller_new in
  notified ops = ran c ++ cancel_callbacks_ c /\ (IsCanceled c = true -> ran c = notified ops) /\
  (IsCanceled c = false -> ran c = []).
Proof.
  intros c. destruct (controller_runs_ok ops [] Controller_new) as [H1 H2]; [done|]. fold c in H1, H2.
  split_and!; [done| |].
  - intros Hc. rewrite H2 in H1 by done. by rewrite app_nil_r in H1.
  - assert (Hi : forall ops c, (canceled_ c = false -> ran c = []) -> canceled_ (controller_runs ops c) = false -> ran (controller_runs ops c) = []).
    { clear. induction ops as [|op ops IH]; intros c Hc; [done|]. apply IH. destruct op; simpl;
        unfold StartCancel, NotifyOnCancel; [|done|]; destruct (canceled_ c) eqn:E; simpl; auto; congruence. }
    intros E. by apply Hi.
Qed.

(** ** The slots of a version 1 channel *)

Lemma acquire_slot_spec l :
  match acquire_slot l with
  | (Some i, l') => exists c, l !! i = Some (MkSlot false c) /\ l' = <[i := MkSlot true c]> l
  | (None, l') => l' = l /\ Forall (fun s => busy s = true) l
  end.
Proof.
  induction l as [|[[] c] l IH]; simpl; [done| |by eexists].
  destruct (acquire_slot l) as [[i|] l']; simpl.
  - destruct IH as (c' & E & ->). by exists c'.
  - destruct IH as [-> IH]. split; [done|]. by constructor.
Qed.

(** A slot is busy exactly while a call has it, and no two calls have the same. *)
Definition pool_ok (s : slot_pool) : Prop :=
  NoDup (users s) /\ forall i slot, slots s !! i = Some slot -> (busy slot = true <-> i ∈ users s).

Definition users_in_range (s : slot_pool) : Prop := forall i, i ∈ users s -> (i < length (slots s))%nat.

Lemma pool_call_step_ok s s' :
  pool_call_step s s' -> pool_ok s -> users_in_range s ->
  pool_ok s' /\ users_in_range s' /\ length (slots s') = length (slots s).
Proof.
  intros Hs [Hnd Hb] Hr. destruct Hs as [s|s i result slot_conn Hi].
  - unfold call_enter. pose proof (acquire_slot_spec (slots s)) as Ha.
    destruct (acquire_slot (slots s)) as [[i|] l']; simpl.
    + destruct Ha as (c & E & ->). pose proof (Hb i _ E) as Hbi. simpl in Hbi.
      assert (Hni : i ∉ users s) by (intros Hin; by apply Hbi in Hin).
      assert (Hlt : (i < length (slots s))%nat) by (by eapply lookup_lt_Some).
      split_and!.
      * split; simpl; [by constructor|]. intros j slot Hj. simpl in *. rewrite elem_of_cons. destruct (decide (j = i)) as [->|Hne].
        -- rewrite list_lookup_insert_eq in Hj by done. simplify_eq. naive_solver.
        -- rewrite list_lookup_insert_ne in Hj by done. rewrite (Hb j slot Hj). naive_solver.
      * intros j [->|Hj]%elem_of_cons; simpl; rewrite length_insert; auto.
      * by rewrite length_insert.
    + destruct Ha as [-> _]. done.
  - unfold call_leave. simpl. split_and!; simpl.
    + split; [by apply NoDup_filter|]. intros j slot Hj. simpl in *. rewrite list_elem_of_filter. destruct (decide (j = i)) as [->|Hne].
      * rewrite list_lookup_insert_eq in Hj by auto. simplify_eq. destruct result; simpl; naive_solver.
      * rewrite list_lookup_insert_ne in Hj by done. rewrite (Hb j slot Hj). naive_solver.
    + intros j Hj. simpl in *. rewrite length_insert. apply list_elem_of_filter in Hj as [_ Hj]. auto.
    + by rewrite length_insert.
Qed.

Lemma pool_reachable limit s : rtc pool_call_step (pool_new limit) s ->
  (pool_ok s /\ users_in_range s) /\ length (slots s) = limit.
Proof.
  intros Hr. eapply (rtc_invariant pool_call_step (fun s => (pool_ok s /\ users_in_range s) /\ length (slots s) = limit)); [|exact Hr|].
  - intros x y Hs [[H1 H2] <-]. destruct (pool_call_step_ok x y Hs H1 H2) as (? & ? & ?). done.
  - split_and!; simpl; [|intros i H%elem_of_nil; done|by apply repeat_length].
    split; [constructor|]. intros i slot Hi. apply list_elem_of_lookup_2, list_elem_of_In, repeat_spec in Hi. subst.
    simpl. split; [done|]. intros H%elem_of_nil. done.
Qed.

(** The bounded pool of connections.  However calls come and go, no two calls
    under way use the same slot, and there are at most [limit] of them; a call is
    refused as overloaded exactly when that many are under way. *)
Theorem channel_slots_exclusive limit s :
  rtc pool_call_step (pool_new limit) s ->
  NoDup (users s) /\ (length (users s) <= limit)%nat /\
  (fst (call_enter s) = Some Overloaded <-> length (users s) = limit).
Proof.
  intros Hr. destruct (pool_reachable limit s Hr) as [[[Hnd Hb] Hrg] Hlen].
  assert (Hsub : users s ⊆ seq 0 limit).
  { intros i Hi. apply elem_of_seq. specialize (Hrg i Hi). lia. }
  assert (Hle : (length (users s) <= limit)%nat).
  { rewrite <- (length_seq limit 0). apply submseteq_length, NoDup_submseteq; auto. }
  split_and!; try done. unfold call_enter. pose proof (acquire_slot_spec (slots s)) as Ha.
  destruct (acquire_slot (slots s)) as [[i|] l'] eqn:E; simpl.
  - destruct Ha as (c & Ei & _). split; [done|]. intros Hf. exfalso.
    assert (Hni : i ∉ users s) by (intros Hin; apply (Hb i _ Ei) in Hin; done).
    assert (Hlt : (i < length (slots s))%nat) by (by eapply lookup_lt_Some).
    assert (Hc : (length (i :: users s) <= limit)%nat); [|simpl in Hc; lia].
    rewrite <- (length_seq limit 0). apply submseteq_length, NoDup_submseteq; [by constructor|].
    intros j [->|Hj]%elem_of_cons; [apply elem_of_seq; lia|auto].
  - destruct Ha as [_ Ha]. split; [intros _|done]. apply Nat.le_antisymm; [done|].
    rewrite <- (length_seq limit 0) at 1. apply submseteq_length, NoDup_submseteq; [apply NoDup_seq|].
    intros j Hj. apply elem_of_seq in Hj. destruct (lookup_lt_is_Some_2 (slots s) j ltac:(lia)) as [slot Hs].
    apply (Hb j slot Hs). by apply (Forall_lookup_1 _ _ _ _ Ha Hs).
Qed.

(** ** The exchange of a version 1 call *)

Lemma read_response_v1_spec c r c' :
  reading_ c = false -> read_response_v1 c = Finished (inr r) c' ->
  reading_ c' = false /\ wire c' = wire c /\ writing_ c' = writing_ c /\
  exists prefix, length prefix = 4%nat /\ incoming c = prefix ++ r ++ incoming c' /\ length r = Z.to_nat (ntohl_bytes prefix).
Proof.
  intros Hr E. unfold read_response_v1 in E.
  destruct (ReadExact 4 c) as [[p|e] c1|] eqn:E1; try done.
  apply ReadExact_spec in E1 as (Hr1 & Hw1 & Hwr1 & Hp & Hlp & Hi1); [|done].
  destruct (ntohl_bytes p >? kMaxMessage) eqn:Em; [done|].
  assert (Hin : incoming c = p ++ incoming c1) by (rewrite Hi1, Hp; symmetry; apply take_drop).
  destruct (Z.eqb_spec (ntohl_bytes p) 0) as [Hz|Hz].
  - injection E as <- <-. split_and!; try done. exists p. by rewrite Hz.
  - destruct (ReadExact (Z.to_nat (ntohl_bytes p)) c1) as [[l|e] c2|] eqn:E2; try done.
    apply ReadExact_spec in E2 as (Hr2 & Hw2 & Hwr2 & Hl & Hll & Hi2); [|done]. injection E as <- <-.
    split_and!; try congruence. exists p. split_and!; [done| |done].
    rewrite Hin, Hi2, Hl at 1. by rewrite take_drop.
Qed.

Section exchange.
Context `{HeaderFormat}.
Variables (service method : list Z) (parse_response : list Z -> bool).

(** The connection a call works on: the slot's, unless it is gone, else a new one. *)
Definition working_conn (connect : Z + Connection) (slot_conn : option Connection) (c : Connection) : Prop :=
  (slot_conn = Some c /\ closed_ c = false) \/ connect = inr c.

(** C27. Clean reuse of connections.  After a version 1 call, the slot keeps a
    connection only when the call succeeded; on that connection exactly the call's
    frame was sent, exactly one response, length prefix and payload, was consumed,
    and neither a read nor a write is under way, so the next call starts at a frame
    boundary.  After any failure the connection is dropped. *)
Theorem call_leaves_clean_connection on_owner args connect slot_conn result conn' c' :
  (forall c, working_conn connect slot_conn c -> reading_ c = false /\ writing_ c = false) ->
  exchange on_owner service method args connect parse_response slot_conn = Some (result, conn') ->
  conn (release_slot result conn') = Some c' ->
  exists c frame payload prefix, working_conn connect slot_conn c /\
    encode_request service method args 0 = inr frame /\ result = inr payload /\ parse_response payload = true /\
    wire c' = wire c ++ frame /\ incoming c = prefix ++ payload ++ incoming c' /\
    length prefix = 4%nat /\ length payload = Z.to_nat (ntohl_bytes prefix) /\
    reading_ c' = false /\ writing_ c' = false.
Proof.
  intros Hidle E Hrel. unfold exchange in E.
  destruct on_owner; simpl in E; [|by simplify_eq].
  destruct (encode_request service method args 0) as [e|frame] eqn:Ef; [by simplify_eq|].
  set (used := if match slot_conn with Some c => negb (closed_ c) | None => false end then slot_conn
    else match connect with inr c => Some c | inl _ => None end) in E.
  destruct used as [c|] eqn:Eu; [|by simplify_eq].
  assert (Hw : working_conn connect slot_conn c).
  { unfold used in Eu. unfold working_conn. destruct slot_conn as [c0|]; [destruct (closed_ c0) eqn:Ec|]; simpl in Eu;
      [right|left|right]; destruct connect; naive_solver. }
  destruct (Hidle c Hw) as [Hr Hwr].
  destruct (WriteAll frame c) as [[e|] c1|] eqn:E1; [by simplify_eq| |done].
  apply WriteAll_spec in E1 as (Hwr1 & Hi1 & Hr1 & n & Hn & Hwire & Hfull); [|done].
  rewrite (proj1 Hfull eq_refl), take_ge in Hwire by lia.
  destruct (read_response_v1 c1) as [[e|payload] c2|] eqn:E2; [by simplify_eq| |done].
  apply read_response_v1_spec in E2 as (Hr2 & Hw2 & Hwr2 & prefix & Hp & Hi2 & Hl2); [|congruence].
  destruct (parse_response payload) eqn:Ep; [|by simplify_eq].
  injection E as <- <-. simpl in Hrel. injection Hrel as <-.
  exists c, frame, payload, prefix. split_and!; try done; congruence.
Qed.
End exchange.

(** ** Calls that share a connection *)

Definition waiting (p : mpc) : Prop := match p with MSending | MWriteWait | MSent | MParked => True | _ => False end.
Definition send_failed (p : mpc) : Prop := match p with MReturned (inl (SendFailed _)) => True | _ => False end.

(** The resumptions a fiber still needs to get through its call: one for its answer
    and one for a write it waits for. *)
Definition owed (p : mpc) : nat := match p with MWriteWait => 2 | MSending | MSent | MParked => 1 | _ => 0 end.

(** Those that are on their way to it, apart from the one its answer will bring. *)
Definition coming (c : PendingCall) : nat := (m_wakeups c + m_waits c)%nat.

(** What holds of a call: [pend] and [rem] say whether its id is in the two sets,
    [got] which answers were read for it. *)
Record call_ok (pend rem : Prop) (got : list Z -> list Z -> Prop) (parse_response : list Z -> bool) (c : PendingCall) : Prop := {
  co_one_set : pend -> rem -> False;
  co_unanswered : pend \/ rem -> m_done c = false /\ coming c = pred (owed (m_pc c)) /\ m_error c = None;
  co_pending : pend -> waiting (m_pc c);
  co_waiting : waiting (m_pc c) -> pend \/ rem \/ (m_done c = true /\ coming c = owed (m_pc c));
  co_back : m_pc c = MBack -> m_done c = true /\ coming c = 0%nat;
  co_fiber : rem -> waiting (m_pc c) \/ send_failed (m_pc c);
  co_failed : send_failed (m_pc c) -> (coming c <= 1)%nat /\ (coming c = 1%nat -> m_done c = true);
  co_answer : m_done c = true -> m_error c = None -> got [] (m_payload c);
  co_peer : forall t, m_error c = Some (PeerError t) -> t <> [] /\ exists p, got t p;
  co_error_done : m_error c <> None -> m_done c = true;
  co_own : forall e, m_error c <> Some (SendFailed e);
  co_returned : forall r, m_pc c = MReturned r -> ~ send_failed (m_pc c) ->
    m_done c = true /\ coming c = 0%nat /\ r = call_result parse_response c }.

Definition got (s : Mux) (id : Z) (err payload : list Z) : Prop := (id, (err, payload)) ∈ received s.

Record mux_ok (parse_response : list Z -> bool) (s : Mux) : Prop := {
  mo_next : 0 < next_request_id s;
  mo_ids : forall id, id ∈ dom (calls s) -> 0 < id < next_request_id s;
  mo_sets : forall id, id ∈ pending_calls s \/ id ∈ remaining s -> id ∈ dom (calls s);
  mo_calls : forall id c, calls s !! id = Some c -> call_ok (id ∈ pending_calls s) (id ∈ remaining s) (got s id) parse_response c }.

(** [call_ok] sees the sets and the answers only through these propositions. *)
Lemma call_ok_mono pr (pend rem pend' rem' : Prop) (g g' : list Z -> list Z -> Prop) c :
  (pend <-> pend') -> (rem <-> rem') -> (forall e p, g e p -> g' e p) -> call_ok pend rem g pr c -> call_ok pend' rem' g' pr c.
Proof. intros Hp Hr Hg []. split; naive_solver. Qed.

(** A step that changes one call and, of the sets, only that call's membership. *)
Lemma mux_ok_update pr s s' id c c' :
  mux_ok pr s -> calls s !! id = Some c -> calls s' = <[id := c']> (calls s) ->
  next_request_id s' = next_request_id s ->
  (forall j, j <> id -> (j ∈ pending_calls s' <-> j ∈ pending_calls s) /\ (j ∈ remaining s' <-> j ∈ remaining s)) ->
  received s ⊆ received s' ->
  call_ok (id ∈ pending_calls s') (id ∈ remaining s') (got s' id) pr c' -> mux_ok pr s'.
Proof.
  intros [Hn Hi Hs Hc] Hl Ec En Hsets Hrec Hok.
  assert (Hdom : dom (calls s') = dom (calls s)).
  { rewrite Ec, dom_insert_L. apply elem_of_dom_2 in Hl. set_solver. }
  split.
  - by rewrite En.
  - intros j. rewrite Hdom, En. apply Hi.
  - intros j Hj. rewrite Hdom. destruct (decide (j = id)) as [->|Hne]; [by eapply elem_of_dom_2|].
    apply Hs. destruct (Hsets j Hne) as [H1 H2]. by rewrite <- H1, <- H2.
  - intros j cj Hj. rewrite Ec in Hj. destruct (decide (j = id)) as [->|Hne].
    + rewrite lookup_insert_eq in Hj. by simplify_eq.
    + rewrite lookup_insert_ne in Hj by done. destruct (Hsets j Hne) as [H1 H2].
      apply (call_ok_mono pr (j ∈ pending_calls s) (j ∈ remaining s) _ _ (got s j) _ cj); [done|done| |by apply Hc].
      intros e p. apply Hrec.
Qed.

Lemma waiting_owed p : waiting p -> (1 <= owed p)%nat.
Proof. destruct p; simpl; [lia..|done|done]. Qed.

(** The invariant of the one call that a step changes. *)
Lemma call_answered pr (pend rem : Prop) (g g' : list Z -> list Z -> Prop) c c' :
  pend \/ rem -> call_ok pend rem g pr c ->
  m_pc c' = m_pc c -> m_done c' = true -> coming c' = S (coming c) ->
  (m_error c' = None -> g' [] (m_payload c')) ->
  (forall t, m_error c' = Some (PeerError t) -> t <> [] /\ exists p, g' t p) ->
  (forall e, m_error c' <> Some (SendFailed e)) -> call_ok False False g' pr c'.
Proof.
  intros Hs Hc Ep Ed Ew Ha Hpe He. destruct (co_unanswered _ _ _ _ _ Hc Hs) as (Hd & Hw & _).
  assert (Hpc : waiting (m_pc c) \/ send_failed (m_pc c)).
  { destruct Hs as [H|H]; [left; by apply Hc|by apply Hc]. }
  split; rewrite ?Ep, ?Ed, ?Ew; try done; try (by intros [[]|[]]); try (by auto).
  - intros H. right. right. split; [done|]. pose proof (waiting_owed _ H). lia.
  - intros E. rewrite E in Hpc. by destruct Hpc.
  - intros H. rewrite Hw. destruct (m_pc c); try done.
  - intros r E Hn. destruct Hpc as [Hpc|Hpc]; [by rewrite E in Hpc|done].
Qed.

Lemma call_answer pr (pend rem : Prop) (g g' : list Z -> list Z -> Prop) err payload c :
  pend -> call_ok pend rem g pr c -> g' err payload -> call_ok False rem g' pr (answer_call err payload c).
Proof.
  intros Hp Hc Hnew. pose proof (co_one_set _ _ _ _ _ Hc Hp) as Hrem.
  destruct (co_unanswered _ _ _ _ _ Hc (or_introl Hp)) as (_ & _ & He).
  eapply (call_ok_mono pr False False); [done|naive_solver|exact (fun _ _ Hg => Hg)|].
  unfold answer_call, fail_call. case_bool_decide as Herr;
    (eapply call_answered; [left; exact Hp|exact Hc|done|done|done|..]; simpl); rewrite ?He; try done.
  - intros _. by rewrite <- Herr.
  - intros t [= <-]. split; [done|]. by exists payload.
Qed.

Lemma call_fail pr (pend rem pend' rem' : Prop) g e c :
  pend \/ rem -> call_ok pend rem g pr c -> ~ pend' -> ~ rem' ->
  (forall t, e <> PeerError t) -> (forall n, e <> SendFailed n) ->
  call_ok pend' rem' g pr (fail_call e c).
Proof.
  intros Hs Hc Hp' Hr' He1 He2. eapply (call_ok_mono pr False False); [naive_solver|naive_solver|exact (fun _ _ Hg => Hg)|].
  eapply call_answered; [exact Hs|exact Hc|done|done|done|..]; simpl; [done| |].
  - intros t [= ->]. by destruct (He1 t).
  - intros n [= ->]. by destruct (He2 n).
Qed.

(** Steps of a fiber before its result, of its waits and of its timer: what is on
    its way changes as much as what it needs. *)
Lemma call_move pr (pend rem : Prop) g c p timer expired wakeups waits :
  (p = m_pc c /\ (wakeups + waits = coming c)%nat \/
   waiting (m_pc c) /\ waiting p /\ (wakeups + waits + owed (m_pc c) = coming c + owed p)%nat) ->
  call_ok pend rem g pr c -> call_ok pend rem g pr (PC p (m_payload c) (m_error c) (m_done c) timer expired wakeups waits).
Proof.
  intros [[-> Hk]|(Hw & Hp & Hk)] Hc; destruct Hc.
  - split; unfold coming in *; simpl; rewrite ?Hk; auto.
  - pose proof (waiting_owed _ Hw). pose proof (waiting_owed _ Hp). split; unfold coming in *; simpl; auto.
    + intros H1. destruct (co_unanswered0 H1) as (? & ? & ?). split_and!; [done|lia|done].
    + intros _. destruct (co_waiting0 Hw) as [?|[?|[? ?]]]; [by left|by right; left|right; right]. split; [done|lia].
    + intros E. by rewrite E in Hp.
    + intros H1. destruct p; done.
    + intros r E. by rewrite E in Hp.
Qed.

Lemma call_send_failed pr (pend rem : Prop) g e c :
  m_pc c = MSending -> call_ok pend rem g pr c -> call_ok False rem g pr (set_pc (MReturned (inl (SendFailed e))) c).
Proof.
  intros E Hc. destruct Hc. rewrite E in *. simpl in *. split; unfold coming in *; simpl in *; auto; try done; try (by intros []).
  - intros [[]|H]. destruct (co_unanswered0 (or_intror H)) as (? & ? & ?). split_and!; [done|lia|done].
  - intros _. destruct (co_waiting0 I) as [H|[H|[? ?]]]; [destruct (co_unanswered0 (or_introl H)) as (? & ? & ?); lia
      |destruct (co_unanswered0 (or_intror H)) as (? & ? & ?); lia|]. split; [lia|done].
Qed.

(** A parked call with a resumption under way is in neither set, and has its answer. *)
Lemma call_woken pr (pend rem : Prop) g c : m_pc c = MParked -> (0 < coming c)%nat -> call_ok pend rem g pr c ->
  ~ pend /\ ~ rem /\ m_done c = true /\ coming c = 1%nat.
Proof.
  intros E Hw []. rewrite E in *. simpl in *.
  assert (Hp : ~ (pend \/ rem)) by (intros H; destruct (co_unanswered0 H) as (_ & ? & _); lia).
  destruct (co_waiting0 I) as [H|[H|[? ?]]]; [tauto|tauto|]. split_and!; tauto.
Qed.

Lemma call_resume pr (pend rem : Prop) g c :
  m_pc c = MParked -> (0 < m_wakeups c)%nat -> call_ok pend rem g pr c ->
  call_ok pend rem g pr (PC MBack (m_payload c) (m_error c) (m_done c) (m_timer c) (m_expired c) (pred (m_wakeups c)) (m_waits c)).
Proof.
  intros E Hw Hc. destruct (call_woken _ _ _ _ _ E ltac:(unfold coming; lia) Hc) as (Hp & Hr & Hd & Hk). destruct Hc.
  unfold coming in Hk. split; unfold coming; simpl; auto; try done; try (by intros []). intros _. split; [done|lia].
Qed.

Lemma call_return pr (pend rem : Prop) g c :
  m_pc c = MBack -> call_ok pend rem g pr c ->
  call_ok pend rem g pr (PC (MReturned (call_result pr c)) (m_payload c) (m_error c) (m_done c) false (m_expired c) (m_wakeups c) (m_waits c)).
Proof.
  intros E Hc. destruct Hc. destruct (co_back0 E) as [Hd Hw].
  assert (Hp : ~ pend) by (intros H; destruct (co_unanswered0 (or_introl H)) as [H1 _]; congruence).
  assert (Hr : ~ rem) by (intros H; destruct (co_unanswered0 (or_intror H)) as [H1 _]; congruence).
  assert (Hsf : ~ send_failed (MReturned (call_result pr c))).
  { unfold call_result. destruct (m_error c) as [[]|] eqn:Ee; simpl; try tauto; [by destruct (co_own0 errno)|].
    destruct (pr (m_payload c)); simpl; tauto. }
  split; simpl; auto; try done; try (by intros []). intros r [= <-] _. done.
Qed.

Lemma call_swapped pr (pend rem pend' rem' : Prop) g c :
  ~ pend' -> (rem' <-> rem \/ pend) -> call_ok pend rem g pr c -> call_ok pend' rem' g pr c.
Proof.
  intros Hp Hr Hc. destruct Hc. split; auto; try (by intros H; destruct Hp).
  - intros [H|H]; [by destruct Hp|]. apply Hr in H. tauto.
  - intros H. destruct (co_waiting0 H) as [?|[?|?]]; tauto.
  - intros H. apply Hr in H as [H|H]; auto.
Qed.

Lemma call_new pr (pend rem : Prop) g : pend -> ~ rem -> call_ok pend rem g pr (PC MSending [] None false false 0 0 0).
Proof. intros Hp Hr. split; simpl; auto; done. Qed.

Ltac mux_update := eapply mux_ok_update; [eassumption|eassumption|reflexivity|reflexivity|set_solver|set_solver|].

Lemma issue_id_spec s : 0 < next_request_id s < 2 ^ 64 - 1 ->
  issue_id s = (next_request_id s, MX (next_request_id s + 1) (calls s) (pending_calls s) (remaining s) (received s)).
Proof.
  intros Hn. unfold issue_id. destruct (Z.eqb_spec (next_request_id s) 0) as [|_]; [lia|]. f_equal. f_equal.
  apply u64_small. lia.
Qed.

Lemma mux_start_ok pr s : next_request_id s < 2 ^ 64 - 1 -> mux_ok pr s -> mux_ok pr (mux_start s).
Proof.
  intros Hlt [Hn Hi Hs Hc]. unfold mux_start. rewrite issue_id_spec by done. simpl. set (id := next_request_id s) in *.
  assert (Hfresh : id ∉ dom (calls s)) by (intros H; apply Hi in H; lia).
  assert (Hpend : id ∉ pending_calls s) by (intros H; apply Hfresh, Hs; auto).
  assert (Hrem : id ∉ remaining s) by (intros H; apply Hfresh, Hs; auto).
  split; simpl.
  - lia.
  - intros j. rewrite dom_insert_L. intros [->%elem_of_singleton|Hj]%elem_of_union; [lia|]. apply Hi in Hj. lia.
  - intros j. rewrite dom_insert_L. set_solver.
  - intros j cj Hj. destruct (decide (j = id)) as [->|Hne].
    + rewrite lookup_insert_eq in Hj. injection Hj as <-. apply call_new; [set_solver|done].
    + rewrite lookup_insert_ne in Hj by done.
      eapply call_ok_mono; [..|by apply Hc]; [set_solver|done|done].
Qed.

Lemma reader_frame_ok pr s id err payload : mux_ok pr s -> mux_ok pr (reader_frame id err payload s).
Proof.
  intros Hok. unfold reader_frame. set (s1 := MX _ _ _ _ _).
  assert (Hok1 : mux_ok pr s1).
  { destruct Hok as [Hn Hi Hs Hc]. split; simpl; auto. intros j cj Hj.
    eapply call_ok_mono; [done|done| |by apply Hc]. intros e p H. by right. }
  case_bool_decide as Hp; [|done]. destruct (calls s1 !! id) as [c|] eqn:Hl; [|done].
  mux_update. pose proof (mo_calls _ _ Hok1 id c Hl) as Hcok. simpl in *.
  assert (Ha : call_ok False (id ∈ remaining s) (got s1 id) pr (answer_call err payload c)).
  { eapply call_answer; [exact Hp|exact Hcok|]. apply list_elem_of_here. }
  eapply call_ok_mono; [..|exact Ha]; [set_solver|done|done].
Qed.

Lemma mux_step_ok pr s s' : mux_step pr s s' -> mux_ok pr s -> mux_ok pr s'.
Proof.
  intros Hs Hok. destruct Hs as [s Hn|s Hn|s id c Hl Hp|s id c e Hl Hp|s id c Hl Hp Hw|s id c Hl Hw|s id c Hl Hp Hw
    |s id c ht Hl Hp|s id err payload|s|s id c Hl Hr|s id c Hl Ht|s id c Hl He|s id c Hl Hp Hw|s id c Hl Hp];
    try (pose proof (mo_calls _ _ Hok id c Hl) as Hc).
  - by apply mux_start_ok.
  - destruct Hok as [H1 H2 H3 H4]. rewrite issue_id_spec by done. split; simpl; auto; [lia|]. intros id Hid%H2. lia.
  - mux_update. apply call_move; [right; by rewrite Hp|done].
  - mux_update. simpl. eapply (call_ok_mono pr False); [..|eapply call_send_failed; [done|exact Hc]]; [set_solver|done|done].
  - mux_update. apply call_move; [right; rewrite Hp; unfold coming; simpl; split_and!; [done|done|lia]|done].
  - mux_update. apply call_move; [left; unfold coming; split; [done|lia]|done].
  - mux_update. apply call_move; [right; rewrite Hp; unfold coming; simpl; split_and!; [done|done|lia]|done].
  - mux_update. apply call_move; [right; by rewrite Hp|done].
  - by apply reader_frame_ok.
  - destruct Hok as [H1 H2 H3 H4]. split; simpl; auto; [set_solver|]. intros id c Hl.
    eapply call_swapped; [..|by apply H4]; set_solver.
  - unfold reader_teardown. destruct (co_unanswered _ _ _ _ _ Hc (or_intror Hr)) as (Hd & _). rewrite Hd.
    mux_update. simpl. eapply call_fail; [right; exact Hr|exact Hc| |set_solver|done|done].
    intros H. by apply (co_one_set _ _ _ _ _ Hc).
  - mux_update. apply call_move; [by left|done].
  - unfold mux_timeout. case_bool_decide as Hin.
    + mux_update. simpl. eapply call_fail; [left; exact Hin| |set_solver| |done|done].
      * apply (call_move pr _ _ _ c); [by left|exact Hc].
      * intros H. by apply (co_one_set _ _ _ _ _ Hc).
    + mux_update. apply call_move; [by left|done].
  - mux_update. by apply call_resume.
  - mux_update. by apply call_return.
Qed.

Lemma mux_reachable pr s : rtc (mux_step pr) Mux_new s -> mux_ok pr s.
Proof.
  intros Hr. eapply (rtc_invariant (mux_step pr) (mux_ok pr)); [apply mux_step_ok|exact Hr|].
  split; simpl; [lia|set_solver|set_solver|]. intros id c Hl. by rewrite lookup_empty in Hl.
Qed.

(** C6. Multiplexed calls, each made by a fiber that starts it with no resumption
    of its own under way.  Under any interleaving of callers, the waits of their
    writes, the reader, timers and the teardown of connections: a yielded call is
    still awaited (in the map, or taken by a reader that ends) and nothing else will
    resume it, or its result is stored and exactly one resumption is on its way,
    from the scheduler or, when its own was taken while it was sending, from the
    unfinished wait of its write; so it is neither resumed before its result nor
    twice.  A call that was resumed has its result, and one that returned is in no
    map and has left no resumption behind, unless its send failed. *)
Theorem multiplexed_calls_resumed_once pr s id c :
  rtc (mux_step pr) Mux_new s -> calls s !! id = Some c ->
  (m_pc c = MParked ->
    (id ∈ pending_calls s \/ id ∈ remaining s) /\ m_done c = false /\ (m_wakeups c + m_waits c = 0)%nat \/
    (id ∉ pending_calls s) /\ (id ∉ remaining s) /\ m_done c = true /\ (m_wakeups c + m_waits c = 1)%nat) /\
  (m_pc c = MBack -> m_done c = true /\ (m_wakeups c + m_waits c = 0)%nat) /\
  (forall r, m_pc c = MReturned r -> (id ∉ pending_calls s) /\ (m_wakeups c + m_waits c <= 1)%nat /\
    ((forall e, r <> inl (SendFailed e)) -> (id ∉ remaining s) /\ m_done c = true /\ (m_wakeups c + m_waits c = 0)%nat)).
Proof.
  intros Hr Hl. pose proof (mo_calls _ _ (mux_reachable _ _ Hr) id c Hl) as Hc. split_and!; [|apply Hc|].
  - intros E. destruct (co_waiting _ _ _ _ _ Hc) as [H|[H|[Hd Hw]]]; [by rewrite E|left|left|right].
    + destruct (co_unanswered _ _ _ _ _ Hc (or_introl H)) as (? & Hk & _). rewrite E in Hk. split_and!; auto.
    + destruct (co_unanswered _ _ _ _ _ Hc (or_intror H)) as (? & Hk & _). rewrite E in Hk. split_and!; auto.
    + rewrite E in Hw. destruct (call_woken _ _ _ _ _ E ltac:(rewrite Hw; simpl; lia) Hc) as (? & ? & ? & ?). done.
  - intros r E. pose proof (co_returned _ _ _ _ _ Hc r E) as Hret. pose proof (co_failed _ _ _ _ _ Hc) as Hf.
    split_and!; [intros H; apply (co_pending _ _ _ _ _ Hc) in H; by rewrite E in H| |].
    + rewrite E in Hret, Hf. destruct r as [[]|]; simpl in *; try (destruct Hret as (_ & Hk & _); [tauto|unfold coming in Hk; lia]).
      by apply Hf.
    + intros Hr'. assert (Hn : ~ send_failed (m_pc c)).
      { rewrite E. intros H. destruct r as [[]|]; try done. by eapply Hr'. }
      destruct (Hret Hn) as (? & ? & _). split_and!; [|done|done].
      intros Hm. apply (co_fiber _ _ _ _ _ Hc) in Hm as [Hm|Hm]; [by rewrite E in Hm|done].
Qed.

(** Answers reach their callers.  A multiplexed call that returns a response
    returns the payload of a frame that carried its own request id and no error text;
    one that reports an error of the peer reports the text of such a frame. *)
Theorem multiplexed_answers_match pr s id c :
  rtc (mux_step pr) Mux_new s -> calls s !! id = Some c ->
  match m_pc c with
  | MReturned (inr payload) => (id, ([], payload)) ∈ received s /\ pr payload = true
  | MReturned (inl (PeerError t)) => t <> [] /\ exists payload, (id, (t, payload)) ∈ received s
  | _ => True
  end.
Proof.
  intros Hr Hl. pose proof (mo_calls _ _ (mux_reachable _ _ Hr) id c Hl) as Hc.
  destruct (m_pc c) as [| | | | |r] eqn:E; try done.
  pose proof (co_returned _ _ _ _ _ Hc r E) as Hret. rewrite E in Hret.
  destruct r as [[]|payload]; try done; destruct Hret as (Hd & _ & Hres); try (intros []); unfold call_result in Hres.
  - apply (co_peer _ _ _ _ _ Hc). destruct (m_error c); [by injection Hres as <-|]. by destruct (pr _).
  - destruct (m_error c) eqn:He; [done|]. destruct (pr (m_payload c)) eqn:Ep; [|done]. injection Hres as ->.
    split; [|done]. by apply (co_answer _ _ _ _ _ Hc).
Qed.

(** The run of the next theorem: the connection breaks while a call sends; the reader
    ends and fails the call before the write returns. *)
Definition broken_send (e : Z) : Mux :=
  let s1 := mux_start Mux_new in
  let s2 := reader_teardown 1 (PC MSending [] None false false 0 0 0) (reader_swap s1) in
  mux_send_failed 1 e (fail_call ConnectionClosed (PC MSending [] None false false 0 0 0)) s2.

(** A failed send leaves a stray resumption.  When the connection breaks while a
    call is sending, the reader may fail the call and schedule its waiter before
    [WriteAll] reports the error; the call then returns its own error at once, and the
    resumption stays in the scheduler and hits whatever the fiber does next. *)
Theorem failed_send_leaves_resumption pr e :
  exists s c, rtc (mux_step pr) Mux_new s /\ calls s !! 1 = Some c /\
    m_pc c = MReturned (inl (SendFailed e)) /\ m_wakeups c = 1%nat.
Proof.
  exists (broken_send e). eexists. split; [|by split_and!].
  eapply rtc_l; [by apply mx_start|]. eapply rtc_l; [by apply mx_swap|].
  eapply rtc_l; [by apply (mx_teardown pr _ 1 (PC MSending [] None false false 0 0 0)); [|set_solver]|].
  eapply rtc_once. by apply (mx_send_failed pr _ 1 (fail_call ConnectionClosed (PC MSending [] None false false 0 0 0)) e).
Qed.

(** The run of the next theorem: a call waits to write on; a reader that ends fails
    it and schedules it; [Wait] takes that resumption and the rest is written. *)
Definition early_resumed : Mux :=
  let c0 := PC MSending [] None false false 0 0 0 in
  let s1 := mux_wait 1 c0 (mux_start Mux_new) in
  let c1 := PC MWriteWait [] None false false 0 0 1 in
  let s2 := mux_write_on 1 (fail_call ConnectionClosed c1) (reader_teardown 1 c1 (reader_swap s1)) in
  let c2 := PC MSending [] (Some ConnectionClosed) true false 0 0 1 in
  mux_yield 1 false (set_pc MSent c2) (mux_sent 1 c2 s2).

(** A resumption can be taken by the wrong suspension.  A call that is ended while
    its fiber waits to write on is resumed inside [Wait], which returns although its
    event is still registered; when the frame has been written the call yields without
    looking whether it is over, and is resumed only when that event happens. *)
Theorem early_resumption_parks_ended_call pr :
  exists s c, rtc (mux_step pr) Mux_new s /\ calls s !! 1 = Some c /\ m_pc c = MParked /\ m_done c = true /\
    (1 ∉ pending_calls s) /\ (1 ∉ remaining s) /\ m_timer c = false /\ m_wakeups c = 0%nat /\ m_waits c = 1%nat.
Proof.
  exists early_resumed. eexists. split; [|split_and!; try done; set_solver].
  eapply rtc_l; [by apply mx_start|].
  eapply rtc_l; [by apply (mx_wait pr _ 1 (PC MSending [] None false false 0 0 0))|]. eapply rtc_l; [by apply mx_swap|].
  eapply rtc_l; [by apply (mx_teardown pr _ 1 (PC MWriteWait [] None false false 0 0 1)); [|set_solver]|].
  eapply rtc_l; [by apply (mx_write_on pr _ 1 (fail_call ConnectionClosed (PC MWriteWait [] None false false 0 0 1))); [| |simpl; lia]|].
  eapply rtc_l; [by apply (mx_sent pr _ 1 (PC MSending [] (Some ConnectionClosed) true false 0 0 1))|].
  eapply rtc_once. by apply (mx_yield pr _ 1 (PC MSent [] (Some ConnectionClosed) true false 0 0 1) false).
Qed.

Lemma WriteAll_loop_ready n l sent buffer c : (sent < length buffer)%nat -> closed_ c = false ->
  WriteAll_loop (Ready n :: l) sent buffer c =
  WriteAll_loop l (sent + Nat.min (S n) (length buffer - sent)) buffer
    (Conn (closed_ c) (reading_ c) (writing_ c) (incoming c)
       (wire c ++ take (Nat.min (S n) (length buffer - sent)) (drop sent buffer)) (script c)).
Proof. intros H Hc. cbn [WriteAll_loop]. by rewrite (proj2 (Nat.ltb_lt _ _) H), Hc. Qed.

Lemma WriteAll_loop_blocked w l sent buffer c : (sent < length buffer)%nat -> closed_ c = false ->
  WriteAll_loop (SysErr EAGAIN :: WaitErr w :: l) sent buffer c = Finished (sent, w) (set_script l c).
Proof. intros H Hc. cbn [WriteAll_loop]. by rewrite (proj2 (Nat.ltb_lt _ _) H), Hc. Qed.

(** A partial send corrupts the shared connection.  A multiplexed call whose
    write times out after [k] bytes of its frame leaves the connection open, and the
    next call's frame goes out behind that fragment: the provider receives a stream
    that is not a sequence of frames.  (A version 1 call drops the connection.) *)
Theorem partial_send_corrupts_stream frame1 frame2 k :
  (0 < k < length frame1)%nat -> frame2 <> [] ->
  exists c c1 c2, wire c = [] /\ mux_write frame1 c = Finished (Some ETIMEDOUT) c1 /\ closed_ c1 = false /\
    mux_write frame2 c1 = Finished None c2 /\ wire c2 = take k frame1 ++ frame2.
Proof.
  intros Hk Hne. set (c := Conn false false false [] [] [Ready (k - 1); SysErr EAGAIN; WaitErr ETIMEDOUT; Ready (length frame2)]).
  assert (Hlen : (0 < length frame2)%nat) by (destruct frame2; [done|simpl; lia]).
  assert (E1 : mux_write frame1 c = Finished (Some ETIMEDOUT) (Conn false false false [] (take k frame1) [Ready (length frame2)])).
  { unfold mux_write, WriteAll. cbn [closed_ writing_ script set_writing c].
    rewrite WriteAll_loop_ready by (simpl; try done; lia). replace (Nat.min (S (k - 1)) (length frame1 - 0)) with k by lia.
    rewrite WriteAll_loop_blocked by (simpl; try done; lia). rewrite Nat.add_0_l, drop_0.
    by rewrite (proj2 (Nat.eqb_neq k (length frame1))) by lia. }
  exists c. eexists _, _. split; [done|]. split; [exact E1|]. split; [done|].
  unfold mux_write, WriteAll. cbn [closed_ writing_ script set_writing].
  rewrite WriteAll_loop_ready by (simpl; try done; lia).
  replace (Nat.min (S (length frame2)) (length frame2 - 0)) with (length frame2) by lia.
  cbn [WriteAll_loop]. rewrite Nat.add_0_l, Nat.ltb_irrefl, Nat.eqb_refl, drop_0, firstn_all. done.
Qed.

(** ** Witnesses *)

Lemma channel_slots_exclusive_witness :
  users (snd (call_enter (pool_new 1))) = [0%nat] /\ fst (call_enter (snd (call_enter (pool_new 1)))) = Some Overloaded.
Proof.
  split; [reflexivity|].
  apply (channel_slots_exclusive 1 (snd (call_enter (pool_new 1)))); [|reflexivity].
  apply rtc_once, pc_enter.
Defined.

Definition demo_client : Connection := Conn false false false [0; 0; 0; 2; 5; 6; 1] [] [Ready 40; Ready 3; Ready 1].
#[local] Existing Instance demo_format.

Lemma demo_client_idle c0 c : working_conn (inr c0) None c -> reading_ c0 = false -> writing_ c0 = false ->
  reading_ c = false /\ writing_ c = false.
Proof. intros [[H _]|H]; [done|]. by injection H as ->. Qed.

Lemma call_leaves_clean_connection_witness : exists c', wire c' = [] ++ frame_of [3; 0; 1; 0; 65; 66] [10; 11; 12] /\ incoming c' = [1].
Proof.
  assert (E : exists c', exchange true [65] [66] (Some [10; 11; 12]) (inr demo_client) (fun _ => true) None = Some (inr [5; 6], Some c') /\ incoming c' = [1]).
  { eexists. split; vm_compute; reflexivity. }
  destruct E as (c' & E & Hi).
  destruct (call_leaves_clean_connection [65] [66] (fun _ => true) true (Some [10; 11; 12]) (inr demo_client) None (inr [5; 6]) (Some c') c'
    (fun c Hc => demo_client_idle demo_client c Hc eq_refl eq_refl) E eq_refl)
    as (c & frame & payload & prefix & [[Hn _]|Hc] & Hf & _ & _ & Hw & _); [discriminate|].
  exists c'. injection Hc as <-. split; [|exact Hi]. rewrite Hw.
  assert (Hf' : encode_request [65] [66] (Some [10; 11; 12]) 0 = inr (frame_of [3; 0; 1; 0; 65; 66] [10; 11; 12])) by (vm_compute; reflexivity).
  rewrite Hf' in Hf. by injection Hf as <-.
Defined.

(** A call that is answered. *)
Definition answered : Mux := reader_frame 1 [] [9] (mux_start Mux_new).
Definition answered_call : PendingCall := PC MSending [9] None true false 0 1 0.
Definition parked : Mux := mux_yield 1 true (set_pc MSent answered_call) (mux_sent 1 answered_call answered).

Lemma parked_reachable pr : rtc (mux_step pr) Mux_new parked.
Proof.
  eapply rtc_l; [by apply mx_start|]. eapply rtc_l; [by apply mx_frame|].
  eapply rtc_l; [apply (mx_sent pr answered 1 answered_call); [vm_compute; reflexivity|reflexivity]|].
  eapply rtc_once. apply (mx_yield pr _ 1 (set_pc MSent answered_call)); [vm_compute; reflexivity|reflexivity].
Qed.

Lemma multiplexed_calls_resumed_once_witness : exists c, calls parked !! 1 = Some c /\ m_pc c = MParked /\ m_done c = true /\
  (m_wakeups c + m_waits c = 1)%nat.
Proof.
  exists (PC MParked [9] None true true 0 1 0). split; [vm_compute; reflexivity|]. split; [reflexivity|].
  destruct (multiplexed_calls_resumed_once (fun _ => true) parked 1 (PC MParked [9] None true true 0 1 0) (parked_reachable _)) as [H _];
    [vm_compute; reflexivity|].
  destruct (H eq_refl) as [(_ & Hd & _)|(_ & _ & Hd & Hk)]; [discriminate Hd|]. split; [exact Hd|exact Hk].
Defined.

Definition parked_call : PendingCall := PC MParked [9] None true true 0 1 0.
Definition back_call : PendingCall := PC MBack [9] None true true 0 0 0.
Definition returned : Mux := mux_return (fun _ => true) 1 back_call (mux_resume 1 parked_call parked).

Lemma multiplexed_answers_match_witness : exists c, calls returned !! 1 = Some c /\ m_pc c = MReturned (inr [9]) /\
  (1, ([], [9])) ∈ received returned.
Proof.
  eexists. split; [vm_compute; reflexivity|]. split; [reflexivity|].
  refine (proj1 (multiplexed_answers_match (fun _ => true) returned 1 (PC (MReturned (inr [9])) [9] None true false 0 0 0) _ _));
    [|vm_compute; reflexivity].
  eapply rtc_r; [eapply rtc_r; [apply parked_reachable|]|].
  - apply (mx_resume _ _ 1 parked_call); [vm_compute; reflexivity|reflexivity|simpl; lia].
  - apply (mx_return _ _ 1 back_call); [vm_compute; reflexivity|reflexivity].
Defined.

Lemma partial_send_corrupts_stream_witness : exists c c1 c2, wire c = [] /\
  mux_write [1; 2; 3] c = Finished (Some ETIMEDOUT) c1 /\ closed_ c1 = false /\
  mux_write [7] c1 = Finished None c2 /\ wire c2 = take 2 [1; 2; 3] ++ [7].
Proof. apply (partial_send_corrupts_stream [1; 2; 3] [7] 2); [simpl; lia|done]. Defined.
