(* ===== verification/RpcReader.v ===== *)
(** * Connections and readers of a multiplexed channel (src/rpc.cpp)

    [Channel::CallMethod] connects when there is no open connection and starts a
    reader when none is running; [ReaderLoop] ends by clearing [reader_running],
    closing the connection that the channel then has, and failing every pending
    call.  The write mutex admits one sender at a time; readers, the senders, the
    request timers and the destructor of the channel are interleaved at the
    accesses to the shared fields. *)

From S2P Require Import Prelude.

(** Where a reader is: scheduled or reading, past [reader_running = false], past
    the close, past the sweep of [pending_calls]. *)
Inductive reader_pc : Type := RReading | RFlagged | RClosed | REnded.

(** Where the holder of the write mutex is in [CallMethod]. *)
Inductive sender_pc : Type :=
| SCheck                (* looks at [conn] *)
| SConnecting           (* in [Connect] *)
| SStart                (* looks at [reader_running] *)
| SRegister             (* puts the call into [pending_calls] *)
| SSend                 (* looks at [conn] again *)
| SWriting.             (* in [WriteAll] *)

(** Connections are numbered.  A pending call is [None] until it is written, then
    the connection it is written to.  [outcomes] records how calls ended. *)
Inductive ending : Type := Answered | TimedOut | SendFailed | ConnectFailed | ConnectionClosed (sent_on : option nat).
#[global] Instance ending_eq_dec : EqDecision ending.
Proof. solve_decision. Defined.

Record channel := Channel {
  conn : option (nat * bool);          (* number, and whether it is open *)
  reader_running : bool;
  closed : bool;
  readers : list reader_pc;
  pending : gmap Z (option nat);
  sender : option (Z * sender_pc);
  next_conn : nat;
  outcomes : list (Z * ending) }.

Definition Channel_new : channel := Channel None false false [] ∅ None 0 [].

Definition open_conn (c : channel) : option nat :=
  match conn c with
  | Some (g, true) => Some g
  | _ => None
  end.

Definition set_sender (x : option (Z * sender_pc)) (c : channel) : channel :=
  Channel (conn c) (reader_running c) (closed c) (readers c) (pending c) x (next_conn c) (outcomes c).
Definition set_conn (x : option (nat * bool)) (c : channel) : channel :=
  Channel x (reader_running c) (closed c) (readers c) (pending c) (sender c) (next_conn c) (outcomes c).
Definition set_pending (x : gmap Z (option nat)) (c : channel) : channel :=
  Channel (conn c) (reader_running c) (closed c) (readers c) x (sender c) (next_conn c) (outcomes c).
Definition set_reader (i : nat) (x : reader_pc) (c : channel) : channel :=
  Channel (conn c) (reader_running c) (closed c) (<[i := x]> (readers c)) (pending c) (sender c) (next_conn c) (outcomes c).
Definition set_running (b : bool) (c : channel) : channel :=
  Channel (conn c) b (closed c) (readers c) (pending c) (sender c) (next_conn c) (outcomes c).
Definition end_call (id : Z) (e : ending) (c : channel) : channel :=
  Channel (conn c) (reader_running c) (closed c) (readers c) (pending c) (sender c) (next_conn c) (outcomes c ++ [(id, e)]).

(** [conn->Close()] *)
Definition close_conn (c : channel) : channel :=
  match conn c with
  | Some (g, true) => set_conn (Some (g, false)) c
  | _ => c
  end.

(** ** The sender *)

(** [ok]: whether [Connect], or [WriteAll], succeeds. *)
Definition sender_step (ok : bool) (c : channel) : option channel :=
  match sender c with
  | None => None
  | Some (id, pc) =>
      let go (pc' : sender_pc) := set_sender (Some (id, pc')) in
      match pc with
      | SCheck => Some (go (if open_conn c is Some _ then SRegister else SConnecting) c)
      | SConnecting =>
          if ok then
            Some (go SStart (Channel (Some (next_conn c, true)) (reader_running c) (closed c) (readers c) (pending c)
                               (sender c) (S (next_conn c)) (outcomes c)))
          else Some (end_call id ConnectFailed (set_sender None (set_conn None c)))
      | SStart =>
          if reader_running c then Some (go SRegister c)
          else Some (go SRegister (Channel (conn c) true (closed c) (readers c ++ [RReading]) (pending c)
                                     (sender c) (next_conn c) (outcomes c)))
      | SRegister => Some (go SSend (set_pending (<[id := None]> (pending c)) c))
      | SSend =>
          match open_conn c with
          | Some g =>
              Some (go SWriting (if pending c !! id is Some _ then set_pending (<[id := Some g]> (pending c)) c else c))
          | None => Some (end_call id SendFailed (set_sender None c))
          end
      | SWriting =>
          if ok then Some (set_sender None c) else Some (end_call id SendFailed (set_sender None c))
      end
  end.

(** [if (!send_ok)], after the mutex has been given back: the call is erased. *)
Definition erase_failed (id : Z) (c : channel) : option channel :=
  if decide ((id, SendFailed) ∈ outcomes c) then Some (set_pending (delete id (pending c)) c) else None.

(** A call takes the write mutex; its identifier is new. *)
Definition take_mutex (id : Z) (c : channel) : option channel :=
  match sender c, pending c !! id with
  | None, None => Some (set_sender (Some (id, SCheck)) c)
  | _, _ => None
  end.

(** ** The readers *)

(** A response for [id] has been read. *)
Definition reader_answers (i : nat) (id : Z) (c : channel) : option channel :=
  match readers c !! i with
  | Some RReading =>
      match pending c !! id with
      | Some _ => Some (end_call id Answered (set_pending (delete id (pending c)) c))
      | None => Some c
      end
  | _ => None
  end.

(** How a round of the loop ends that reads no frame: with [ETIMEDOUT] from the
    length prefix, or with any other failure. *)
Inductive read_end : Type := ReadTimedOut | ReadFailed.
#[global] Instance read_end_eq_dec : EqDecision read_end.
Proof. solve_decision. Defined.

(** The other rounds of [ReaderLoop], and what follows the loop.  The loop goes on
    after a time-out unless the channel or the connection is closed, when its
    condition fails or the read reports [EBADF]. *)
Definition reader_step (i : nat) (e : read_end) (c : channel) : option channel :=
  match readers c !! i with
  | Some RReading =>
      if negb (closed c) && bool_decide (open_conn c <> None) && bool_decide (e = ReadTimedOut) then Some c
      else Some (set_running false (set_reader i RFlagged c))
  | Some RFlagged => Some (set_reader i RClosed (close_conn c))
  | Some RClosed =>
      let ended := (fun p => (p.1, ConnectionClosed p.2)) <$> map_to_list (pending c) in
      let c' := set_reader i REnded (set_pending ∅ c) in
      Some (Channel (conn c') (reader_running c') (closed c') (readers c') (pending c') (sender c') (next_conn c')
              (outcomes c' ++ ended))
  | _ => None
  end.

(** The request timer. *)
Definition timeout_call (id : Z) (c : channel) : option channel :=
  match pending c !! id with
  | Some _ => Some (end_call id TimedOut (set_pending (delete id (pending c)) c))
  | None => Some c
  end.

(** [~Channel]: the flag, then the close. *)
Definition Channel_delete (c : channel) : channel :=
  Channel (conn c) (reader_running c) true (readers c) (pending c) (sender c) (next_conn c) (outcomes c).
Definition Channel_delete_close (c : channel) : channel := if closed c then close_conn c else c.

Inductive channel_act : Type :=
| TakeMutex (id : Z)
| Sender (ok : bool)
| EraseFailed (id : Z)
| Answers (i : nat) (id : Z)
| Reader (i : nat) (e : read_end)
| Timeout (id : Z)
| Delete
| DeleteClose.

Definition channel_do (a : channel_act) (c : channel) : option channel :=
  match a with
  | TakeMutex id => take_mutex id c
  | Sender ok => sender_step ok c
  | EraseFailed id => erase_failed id c
  | Answers i id => reader_answers i id c
  | Reader i e => reader_step i e c
  | Timeout id => timeout_call id c
  | Delete => Some (Channel_delete c)
  | DeleteClose => Some (Channel_delete_close c)
  end.

Fixpoint channel_run (l : list channel_act) (c : channel) : option channel :=
  match l with
  | [] => Some c
  | a :: l' => c' ← channel_do a c; channel_run l' c'
  end.

Definition channel_step (c c' : channel) : Prop := exists a, channel_do a c = Some c'.

(** ** The invariant *)

(** A reader that has not swept yet, and one that has not closed yet. *)
Definition before_sweep (r : reader_pc) : bool := match r with REnded => false | _ => true end.
Definition before_close (r : reader_pc) : bool := match r with RReading | RFlagged => true | _ => false end.

Definition some_reader (p : reader_pc -> bool) (c : channel) : Prop := exists i r, readers c !! i = Some r /\ p r = true.

Record chinv (c : channel) : Prop := {
  ch_one : forall i j, readers c !! i = Some RReading -> readers c !! j = Some RReading -> i = j;
  ch_run : reader_running c = true <-> exists i, readers c !! i = Some RReading;
  ch_open : open_conn c <> None -> some_reader before_close c \/ exists id, sender c = Some (id, SStart);
  ch_sent : forall id g, pending c !! id = Some (Some g) -> some_reader before_sweep c }.

(** The channel after a step that leaves the readers and the connection alone:
    only the calls marked as sent matter. *)
Lemma chinv_calls c c' :
  chinv c -> conn c' = conn c -> reader_running c' = reader_running c -> readers c' = readers c ->
  (forall id g, pending c' !! id = Some (Some g) -> pending c !! id = Some (Some g) \/ open_conn c <> None) ->
  (forall id, sender c <> Some (id, SStart)) -> chinv c'.
Proof.
  intros [H1 H2 H3 H4] Ec Er Ers Hp Hs.
  assert (open_conn c' = open_conn c) as Eo by (unfold open_conn; by rewrite Ec).
  assert (forall p, some_reader p c' <-> some_reader p c) as Esr by (intros p; unfold some_reader; by rewrite Ers).
  split; rewrite ?Ers, ?Er, ?Eo; [done|done| |].
  - intros Ho. left. apply Esr. destruct (H3 Ho) as [?|[id E]]; [done|]. by destruct (Hs id).
  - intros id g Hid. apply Esr. destruct (Hp id g Hid) as [Hold|Ho]; [by eapply H4|].
    destruct (H3 Ho) as [(i & r & Hr & Hb)|[id' E]]; [|by destruct (Hs id')].
    exists i, r. split; [done|]. by destruct r.
Qed.

(** A step that keeps everything but how the sender stands. *)
Lemma chinv_sender c x :
  chinv c -> ((exists id, sender c = Some (id, SStart)) -> exists id, x = Some (id, SStart)) -> chinv (set_sender x c).
Proof.
  intros [H1 H2 H3 H4] Hs. split; simpl; [done|done| |done].
  intros Ho. destruct (H3 Ho) as [?|E]; [by left|right]. auto.
Qed.

Lemma close_conn_readers c : readers (close_conn c) = readers c /\ reader_running (close_conn c) = reader_running c /\
  pending (close_conn c) = pending c /\ open_conn (close_conn c) = None.
Proof. unfold close_conn, open_conn. destruct (conn c) as [[g []]|] eqn:E; simpl; rewrite ?E; done. Qed.

Lemma insert_reader (l : list reader_pc) i r r' :
  l !! i = Some r -> forall j x, <[i := r']> l !! j = Some x <-> (j = i /\ x = r') \/ (j <> i /\ l !! j = Some x).
Proof.
  intros Hi j x. rewrite list_lookup_insert_Some. pose proof (lookup_lt_Some _ _ _ Hi). naive_solver.
Qed.

Lemma sender_step_inv ok c c' : sender_step ok c = Some c' -> chinv c -> chinv c'.
Proof.
  intros E Hi. unfold sender_step in E. destruct (sender c) as [[id pc]|] eqn:Es; [|done].
  assert (forall x, pc <> SStart -> sender c <> Some (x, SStart)) as Hns by (intros x Hne; rewrite Es; congruence).
  destruct pc.
  - injection E as <-. apply chinv_sender; [done|]. intros [x Ex]. congruence.
  - destruct ok; injection E as <-.
    + destruct Hi as [H1 H2 H3 H4]. split; simpl; [done|done| |done]. intros _. right. by eexists.
    + destruct Hi as [H1 H2 H3 H4]. split; [done|done|by intros []|done].
  - destruct (reader_running c) eqn:Er; injection E as <-.
    + destruct Hi as [H1 H2 H3 H4]. split; simpl; [done|done| |done].
      intros _. left. apply H2 in Er as [i Hr]. by exists i, RReading.
    + destruct Hi as [H1 H2 H3 H4].
      assert (forall i, readers c !! i <> Some RReading) as Hno.
      { intros i Hr. assert (reader_running c = true) by (apply H2; eauto). congruence. }
      assert ((readers c ++ [RReading]) !! length (readers c) = Some RReading) as Hnew.
      { rewrite lookup_app_r by lia. by rewrite Nat.sub_diag. }
      split; simpl.
      * intros i j Hri Hrj. apply lookup_app_Some in Hri as [Hri|[Hli Hri]]; [by destruct (Hno i)|].
        apply lookup_app_Some in Hrj as [Hrj|[Hlj Hrj]]; [by destruct (Hno j)|].
        apply list_lookup_singleton_Some in Hri as [Hri _]. apply list_lookup_singleton_Some in Hrj as [Hrj _]. lia.
      * split; [|done]. intros _. eauto.
      * intros _. left. by exists (length (readers c)), RReading.
      * intros x g Hx. by exists (length (readers c)), RReading.
  - injection E as <-. eapply (chinv_calls c); simpl; try done; [|by intros x; apply Hns].
    intros x g Hx. left. apply lookup_insert_Some in Hx as [[_ ?]|[_ ?]]; done.
  - destruct (open_conn c) as [g|] eqn:Eo; injection E as <-.
    + eapply (chinv_calls c); simpl; try done; [by destruct (pending c !! id)..| |by intros x; apply Hns].
      intros x g' _. right. congruence.
    + eapply (chinv_calls c); simpl; try done; [by left|by intros x; apply Hns].
  - destruct ok; injection E as <-; (eapply (chinv_calls c); simpl; try done; [by left|by intros x; apply Hns]).
Qed.

(** Calls that end without the sender. *)
Lemma chinv_erase c id : chinv c -> chinv (set_pending (delete id (pending c)) c).
Proof.
  intros [H1 H2 H3 H4]. split; simpl; [done|done|done|].
  intros x g Hx. apply lookup_delete_Some in Hx as [_ Hx]. by eapply H4.
Qed.

Lemma chinv_end_call c id e : chinv c -> chinv (end_call id e c).
Proof. by intros []. Qed.

Lemma chinv_close c : chinv c -> chinv (close_conn c).
Proof.
  intros [H1 H2 H3 H4]. destruct (close_conn_readers c) as (Er & Eg & Ep & Eo).
  split; unfold some_reader; rewrite ?Er, ?Eg, ?Ep, ?Eo; [done|done|done|exact H4].
Qed.

Lemma reader_step_inv i e c c' : reader_step i e c = Some c' -> chinv c -> chinv c'.
Proof.
  intros E Hi. unfold reader_step in E. destruct (readers c !! i) as [[]|] eqn:Hr; try done.
  - destruct (_ && _); [by injection E as <-|]. injection E as <-. destruct Hi as [H1 H2 H3 H4].
    assert (forall j x, <[i := RFlagged]> (readers c) !! j = Some x <-> (j = i /\ x = RFlagged) \/ (j <> i /\ readers c !! j = Some x)) as Hins
      by (by eapply insert_reader).
    assert (some_reader before_close (set_reader i RFlagged c)) as Hb
      by (exists i, RFlagged; split; [by apply Hins; left|done]).
    split; simpl.
    + intros a b. rewrite !Hins. intros [[_ ?]|[_ Ha]] [[_ ?]|[_ Hb']]; try done. by apply H1.
    + split; [done|]. intros [j Hj]. rewrite Hins in Hj. destruct Hj as [[_ ?]|[Hne Hj]]; [done|].
      exfalso. by apply Hne, H1.
    + intros _. by left.
    + intros id g Hid. exists i, RFlagged. split; [by apply Hins; left|done].
  - injection E as <-. apply chinv_close in Hi. destruct (close_conn_readers c) as (Er & Eg & Ep & Eo).
    rewrite <- Er in Hr. destruct Hi as [H1 H2 H3 H4].
    assert (forall j x, <[i := RClosed]> (readers (close_conn c)) !! j = Some x <-> (j = i /\ x = RClosed) \/ (j <> i /\ readers (close_conn c) !! j = Some x)) as Hins
      by (by eapply insert_reader).
    split; simpl.
    + intros a b. rewrite !Hins. intros [[_ ?]|[_ Ha]] [[_ ?]|[_ Hb']]; try done. by apply H1.
    + rewrite H2. split; intros [j Hj]; exists j; rewrite Hins in *; [right|naive_solver].
      split; [|done]. intros ->. congruence.
    + change (open_conn (close_conn c) <> None -> some_reader before_close (set_reader i RClosed (close_conn c)) \/
        exists id, sender (close_conn c) = Some (id, SStart)). by rewrite Eo.
    + intros id g Hid. exists i, RClosed. split; [by apply Hins; left|done].
  - injection E as <-. destruct Hi as [H1 H2 H3 H4].
    assert (forall j x, <[i := REnded]> (readers c) !! j = Some x <-> (j = i /\ x = REnded) \/ (j <> i /\ readers c !! j = Some x)) as Hins
      by (by eapply insert_reader).
    split; simpl.
    + intros a b. rewrite !Hins. intros [[_ ?]|[_ Ha]] [[_ ?]|[_ Hb']]; try done. by apply H1.
    + rewrite H2. split; intros [j Hj]; exists j; rewrite Hins in *; [right|naive_solver].
      split; [|done]. intros ->. congruence.
    + intros Ho. destruct (H3 Ho) as [(j & r & Hj & Hb)|?]; [left|by right]. exists j, r. split; [|done].
      apply Hins. right. split; [|done]. intros ->. rewrite Hr in Hj. by injection Hj as <-.
    + intros id g Hid. done.
Qed.

Lemma channel_step_inv c c' : channel_step c c' -> chinv c -> chinv c'.
Proof.
  intros [a E] Hi. destruct a as [id|ok|id|i id|i e|id| |]; simpl in E.
  - unfold take_mutex in E. destruct (sender c) eqn:Es; [done|]. destruct (pending c !! id); [done|]. injection E as <-.
    apply chinv_sender; [done|]. intros [x Ex]. congruence.
  - by eapply sender_step_inv.
  - unfold erase_failed in E. destruct (decide _); [injection E as <-; by apply chinv_erase|done].
  - unfold reader_answers in E. destruct (readers c !! i) as [[]|]; try done.
    destruct (pending c !! id); injection E as <-; [by apply chinv_end_call, chinv_erase|done].
  - by eapply reader_step_inv.
  - unfold timeout_call in E. destruct (pending c !! id); injection E as <-; [by apply chinv_end_call, chinv_erase|done].
  - injection E as <-. by destruct Hi.
  - injection E as <-. unfold Channel_delete_close. destruct (closed c); [by apply chinv_close|done].
Qed.

Lemma chinv_new : chinv Channel_new.
Proof. split; simpl; try done. split; [done|]. by intros [i Hi]. Qed.

Lemma chinv_reachable c : rtc channel_step Channel_new c -> chinv c.
Proof. intros Hr. exact (rtc_invariant _ _ channel_step_inv _ _ Hr chinv_new). Qed.

(** What a reader still has to do. *)
Definition reader_left (r : reader_pc) : nat := match r with RReading => 3 | RFlagged => 2 | RClosed => 1 | REnded => 0 end.

Lemma set_reader_lookup i r r' c : readers c !! i = Some r -> readers (set_reader i r' c) !! i = Some r'.
Proof. intros Hi. apply list_lookup_insert_eq. by eapply lookup_lt_Some. Qed.

Lemma reader_leaves i e c : readers c !! i = Some RReading ->
  closed c = true \/ open_conn c = None \/ e = ReadFailed ->
  reader_step i e c = Some (set_running false (set_reader i RFlagged c)).
Proof.
  intros Hr Hl. unfold reader_step. rewrite Hr. destruct (closed c), (open_conn c), e; try done; by destruct Hl as [?|[?|?]].
Qed.

(** The steps of one reader to its end are never blocked, and leave no call behind. *)
Lemma reader_sweeps i r e es c :
  readers c !! i = Some r -> (r = RReading -> closed c = true \/ open_conn c = None \/ e = ReadFailed) ->
  length (e :: es) = reader_left r ->
  exists c', channel_run (Reader i <$> e :: es) c = Some c' /\ pending c' = ∅ /\ readers c' !! i = Some REnded.
Proof.
  assert (forall e c, readers c !! i = Some RClosed ->
    exists c', channel_run [Reader i e] c = Some c' /\ pending c' = ∅ /\ readers c' !! i = Some REnded) as H1.
  { intros e0 c0 H0. simpl. unfold reader_step. rewrite H0. simpl. eexists. split_and!; [done|done|].
    by eapply (set_reader_lookup i RClosed REnded c0). }
  assert (forall e1 e2 c, readers c !! i = Some RFlagged ->
    exists c', channel_run [Reader i e1; Reader i e2] c = Some c' /\ pending c' = ∅ /\ readers c' !! i = Some REnded) as H2.
  { intros e1 e2 c0 H0. cbn [channel_run channel_do].
    assert (reader_step i e1 c0 = Some (set_reader i RClosed (close_conn c0))) as -> by (unfold reader_step; by rewrite H0).
    apply (H1 e2 (set_reader i RClosed (close_conn c0))). eapply (set_reader_lookup _ RFlagged).
    by destruct (close_conn_readers c0) as [-> _]. }
  intros Hr Hl Hlen. destruct r; simpl in Hlen; [| | |done].
  - destruct es as [|e1 [|e2 []]]; try discriminate Hlen. cbn [fmap list_fmap channel_run channel_do].
    rewrite reader_leaves by auto. apply (H2 e1 e2 (set_running false (set_reader i RFlagged c))). by eapply (set_reader_lookup _ RReading).
  - destruct es as [|e1 []]; try discriminate Hlen. by apply H2.
  - destruct es; try discriminate Hlen. by apply H1.
Qed.

(** Nobody but the reader itself moves it. *)
Lemma reader_kept i r a c c' :
  readers c !! i = Some r -> channel_do a c = Some c' -> (forall e, a <> Reader i e) -> readers c' !! i = Some r.
Proof.
  intros Hr E Ha.
  assert (readers c' = readers c \/ readers c' = readers c ++ [RReading] \/ exists j x, j <> i /\ readers c' = <[j := x]> (readers c)) as H.
  { destruct a as [id|ok|id|j id|j e|id| |]; simpl in E.
    - unfold take_mutex in E. repeat case_match; simplify_eq. by left.
    - unfold sender_step in E. repeat case_match; simplify_eq; simpl; auto.
    - unfold erase_failed in E. case_match; simplify_eq. by left.
    - unfold reader_answers in E. repeat case_match; simplify_eq; by left.
    - assert (j <> i) as Hne by (intros ->; by destruct (Ha e)). unfold reader_step in E.
      destruct (close_conn_readers c) as [Ec _]. repeat case_match; simplify_eq; simpl; rewrite ?Ec; try (by left); right; right; by eexists _, _.
    - unfold timeout_call in E. case_match; simplify_eq; by left.
    - simplify_eq. by left.
    - simplify_eq. left. unfold Channel_delete_close. case_match; [|done]. by apply close_conn_readers. }
  destruct H as [->|[->|(j & x & Hne & ->)]]; [done|by apply lookup_app_l_Some|by rewrite list_lookup_insert_ne].
Qed.

(** ** Theorems *)

(** C26. Whatever the order in which senders, readers, timers and the destructor of a
    multiplexed channel take their steps: at most one reader is reading, and
    [reader_running] says whether there is one; an open connection has a reader
    that has yet to close it, or a sender about to look whether to start one.  Every
    call that was written and is still pending has a reader that has not swept the
    map yet and that nobody else moves; once that reader has left its loop, or its
    read fails, or the channel or the connection is closed, its own next steps, at
    most three, end with no call pending.  (On an open connection without failures it
    goes on reading, and the call waits for its answer or its timer.) *)
Theorem sent_calls_have_a_reader c :
  rtc channel_step Channel_new c ->
  (forall i j, readers c !! i = Some RReading -> readers c !! j = Some RReading -> i = j) /\
  (reader_running c = true <-> exists i, readers c !! i = Some RReading) /\
  (open_conn c <> None -> (exists i r, readers c !! i = Some r /\ before_close r = true) \/ exists id, sender c = Some (id, SStart)) /\
  (forall id g, pending c !! id = Some (Some g) ->
     exists i r, readers c !! i = Some r /\ (1 <= reader_left r <= 3)%nat /\
       (forall a c', channel_do a c = Some c' -> (forall e, a <> Reader i e) -> readers c' !! i = Some r) /\
       (forall e es, (r = RReading -> closed c = true \/ open_conn c = None \/ e = ReadFailed) ->
          length (e :: es) = reader_left r ->
          exists c', channel_run (Reader i <$> e :: es) c = Some c' /\ pending c' = ∅)).
Proof.
  intros [H1 H2 H3 H4]%chinv_reachable. split_and!; [exact H1|exact H2|exact H3|].
  intros id g Hid. destruct (H4 id g Hid) as (i & r & Hr & Hb). exists i, r.
  split_and!; [done|destruct r; simpl; [lia..|done]|destruct r; simpl; lia| |].
  - intros a c'. by apply reader_kept.
  - intros e es Hl Hlen. destruct (reader_sweeps i r e es c Hr Hl Hlen) as (c' & Hc & Hp & _). eauto.
Qed.

Lemma channel_run_rtc l c c' : channel_run l c = Some c' -> rtc channel_step c c'.
Proof.
  revert c. induction l as [|a l IH]; intros c; simpl.
  - by intros [= <-].
  - destruct (channel_do a c) as [c1|] eqn:E; simpl; [|done]. intros H. eapply rtc_l; [by exists a|by apply IH].
Qed.

(** The first call, with the six steps of its sender. *)
Definition send_call (id : Z) : list channel_act := TakeMutex id :: replicate 6 (Sender true).

Lemma sent_calls_have_a_reader_witness :
  exists c, channel_run (send_call 1) Channel_new = Some c /\ pending c !! 1 = Some (Some 0%nat) /\ open_conn c = Some 0%nat /\
    exists i c', channel_run (Reader i <$> [ReadFailed; ReadTimedOut; ReadTimedOut]) c = Some c' /\ pending c' = ∅.
Proof.
  destruct (channel_run (send_call 1) Channel_new) as [c|] eqn:E; [|vm_compute in E; discriminate E].
  assert (pending c !! 1 = Some (Some 0%nat)) as Hp by (vm_compute in E; injection E as <-; reflexivity).
  assert (readers c = [RReading]) as Hrs by (vm_compute in E; injection E as <-; reflexivity).
  exists c. split; [reflexivity|]. split; [exact Hp|]. split; [vm_compute in E; injection E as <-; reflexivity|].
  destruct (sent_calls_have_a_reader c (channel_run_rtc _ _ _ E)) as (_ & _ & _ & H).
  destruct (H 1 0%nat Hp) as (i & r & Hr & _ & _ & Hs). exists i.
  rewrite Hrs in Hr. apply list_lookup_singleton_Some in Hr as [_ <-].
  apply (Hs ReadFailed [ReadTimedOut; ReadTimedOut]); [by intros _; right; right|reflexivity].
Defined.

(** The last steps of an old reader reach the calls of a new connection: after
    the first connection is lost and its reader has closed it, a second call
    connects again, starts a reader of its own and is sent; the sweep of the old
    reader then ends it with "RPC connection closed", although its connection is
    open and its reader is reading. *)
Theorem old_reader_fails_new_calls :
  exists c, rtc channel_step Channel_new c /\
    open_conn c = Some 1%nat /\ readers c !! 1%nat = Some RReading /\ pending c = ∅ /\
    (2, ConnectionClosed (Some 1%nat)) ∈ outcomes c.
Proof.
  destruct (channel_run (send_call 1 ++ [Reader 0 ReadFailed; Reader 0 ReadFailed] ++ send_call 2 ++ [Reader 0 ReadFailed]) Channel_new) as [c|] eqn:E;
    [|by vm_compute in E].
  exists c. split; [by eapply channel_run_rtc|]. vm_compute in E. injection E as <-.
  split_and!; try reflexivity. simpl. apply list_elem_of_In. simpl. tauto.
Qed.
