(* ===== verification/RpcServer.v ===== *)
(** * The RPC server (src/rpc.cpp, [Executor] and [Provider])

    The bounded executor with its worker threads, the registry of services, a round
    of [Handle] from the bytes to the method, and the counters and completions of
    calls under way. *)

From S2P Require Import Prelude Net Codec.

(** ** Executor *)

(** A worker thread: waiting for a task, running one, or gone. *)
Inductive eworker := EWaiting | ERunning (task : nat) | EExited.

(** [started] and [completed] are the tasks taken and finished so far, [accepted]
    those [Submit] took. *)
Record Executor := Exec {
  capacity_ : nat;
  queue_ : list nat;
  stopped_ : bool;
  workers_ : list eworker;
  accepted : list nat;
  started_tasks : list nat;
  completed : list nat }.

Definition Executor_new (threads capacity : nat) : Executor := Exec capacity [] false (repeat EWaiting threads) [] [] [].

Definition Submit (task : nat) (e : Executor) : bool * Executor :=
  if stopped_ e || (capacity_ e <=? length (queue_ e))%nat then (false, e)
  else (true, Exec (capacity_ e) (queue_ e ++ [task]) (stopped_ e) (workers_ e) (accepted e ++ [task]) (started_tasks e) (completed e)).

(** One pass of a worker through its lock region, when the wait ends. *)
Definition worker_take (i : nat) (e : Executor) : Executor :=
  match queue_ e with
  | [] => if stopped_ e
          then Exec (capacity_ e) [] (stopped_ e) (<[i := EExited]> (workers_ e)) (accepted e) (started_tasks e) (completed e)
          else e
  | task :: queue =>
      Exec (capacity_ e) queue (stopped_ e) (<[i := ERunning task]> (workers_ e)) (accepted e) (started_tasks e ++ [task]) (completed e)
  end.

(** [task()] has returned. *)
Definition worker_finish (i task : nat) (e : Executor) : Executor :=
  Exec (capacity_ e) (queue_ e) (stopped_ e) (<[i := EWaiting]> (workers_ e)) (accepted e) (started_tasks e) (completed e ++ [task]).

(** The destructor before it joins. *)
Definition executor_stop (e : Executor) : Executor :=
  Exec (capacity_ e) (queue_ e) true (workers_ e) (accepted e) (started_tasks e) (completed e).

Inductive executor_step : Executor -> Executor -> Prop :=
| ex_submit e task : executor_step e (snd (Submit task e))
| ex_take e i : workers_ e !! i = Some EWaiting -> executor_step e (worker_take i e)
| ex_finish e i task : workers_ e !! i = Some (ERunning task) -> executor_step e (worker_finish i task e)
| ex_stop e : executor_step e (executor_stop e).

(** ** Services and requests *)

(** [ServiceInfo]: the methods by name; a service and a method are numbers. *)
Record ServiceInfo := Info {
  service : nat;
  methods : list (list Z * nat) }.

(** A [std::map] keyed by name, as an association list with distinct names. *)
Fixpoint find_name {A} (name : list Z) (l : list (list Z * A)) : option A :=
  match l with
  | [] => None
  | (n, a) :: l => if bool_decide (n = name) then Some a else find_name name l
  end.

(** [emplace]: an entry that exists is kept. *)
Definition emplace {A} (name : list Z) (a : A) (l : list (list Z * A)) : list (list Z * A) :=
  match find_name name l with Some _ => l | None => l ++ [(name, a)] end.

Record Registry := Reg {
  services : list (list Z * ServiceInfo);
  started : bool;
  accepting : bool }.

(** [Provider::Register]: [descriptor] is the service's name and methods. *)
Definition Register (s : option (nat * option (list Z * list (list Z * nat)))) (r : Registry) : bool * Registry :=
  match s with
  | None => (false, r)
  | Some (svc, descriptor) =>
      if started r then (false, r)
      else
        match descriptor with
        | None => (false, r)
        | Some (name, ms) =>
            match find_name name (services r) with
            | Some _ => (false, r)
            | None =>
                let info := Info svc (fold_left (fun l '(n, m) => emplace n m l) ms []) in
                (true, Reg (emplace name info (services r)) (started r) (accepting r))
            end
        end
  end.

(** [Provider::Start]; [server_ok] is what [net::Server::Start] answers. *)
Definition Provider_Start (server_ok : bool) (r : Registry) : bool * Registry :=
  if started r || bool_decide (services r = []) then (false, r)
  else if server_ok then (true, Reg (services r) true true) else (false, r).

Definition Provider_Stop (r : Registry) : Registry := Reg (services r) (started r) false.

(** The method a header names. *)
Definition find_method (r : Registry) (h : RpcHeader) : option (nat * nat) :=
  match find_name (service_name h) (services r) with
  | None => None
  | Some info => match find_name (method_name h) (methods info) with
                 | None => None
                 | Some m => Some (service info, m)
                 end
  end.

(** A round of [Provider::State::Handle] up to the admission of the call: the end of
    the connection, or a call of a method with its argument bytes, in version 1 or
    multiplexed under its request id.  [parse_args] is the request's
    [ParseFromArray]. *)
Inductive round_result :=
| Break
| CallV1 (svc method : nat) (args : list Z)
| CallMultiplexed (svc method : nat) (args : list Z) (id : Z).

Definition handle_round `{HeaderFormat} (parse_args : nat -> list Z -> bool) (r : Registry) (b : budget) (c : Connection)
    : progress (round_result * (Z * budget)) :=
  if negb (accepting r) || closed_ c then Finished (Break, (0, b)) c
  else
    match read_request b c with
    | InProgress => InProgress
    | Finished (None, hb) c => Finished (Break, hb) c
    | Finished (Some (h, args), hb) c =>
        match find_method r h with
        | None => Finished (Break, hb) c
        | Some (svc, m) =>
            if negb (parse_args m args) then Finished (Break, hb) c
            else if request_id h =? 0 then Finished (CallV1 svc m args, hb) c
            else Finished (CallMultiplexed svc m args (request_id h), hb) c
        end
    end.

(** ** Calls under way *)

(** The handler: queued in the executor, running, or past [CallMethod] with the
    closure still to run; and whether the executor refused it. *)
Inductive hstate := HQueued | HRunning | HOver | HRefused.
(** The connection's fiber in a version 1 call; a multiplexed call has none. *)
Inductive wstate := WComing | WParkedFor | WResumed | WGone.

(** [CallContext] with what its closure and waiter have done: [runs] counts runs of
    the closure, [answers] the answer tasks in the scheduler; [timer] and [fired] are the request's timer and its callbacks
    under way; [cwakeups] the resumptions of the waiter in the scheduler. *)
Record CallContext := CC {
  multiplexed : bool;
  handler : hstate;
  waiter : wstate;
  outcome : Z;
  runs : nat;
  answers : nat;
  timer : bool;
  fired : nat;
  cwakeups : nat }.

(** [Provider::State]; the two counters are [size_t].  [pending_list] is the vector of
    weak pointers to version 1 calls, as indices of [contexts]; [collected] holds the
    calls that a [Stop] has taken from it and not finished yet.  Pointers to calls that
    no longer exist, which admission and [Stop] skip, stay in the list here: such a
    call has its outcome, and [Finish] does nothing to it. *)
Record Provider := PV {
  max_calls : Z;
  outstanding : Z;
  pending_count : Z;
  open_for_calls : bool;
  contexts : list CallContext;
  pending_list : list nat;
  collected : list nat }.

Definition Provider_new (limit : Z) : Provider := PV limit 0 0 true [] [] [].

Definition set_ctx (i : nat) (c : CallContext) (p : Provider) : Provider :=
  PV (max_calls p) (outstanding p) (pending_count p) (open_for_calls p) (<[i := c]> (contexts p)) (pending_list p) (collected p).
Definition add_outstanding (d : Z) (p : Provider) : Provider :=
  PV (max_calls p) (u64 (outstanding p + d)) (pending_count p) (open_for_calls p) (contexts p) (pending_list p) (collected p).
Definition add_pending (d : Z) (p : Provider) : Provider :=
  PV (max_calls p) (outstanding p) (u64 (pending_count p + d)) (open_for_calls p) (contexts p) (pending_list p) (collected p).

(** [CallContext::Finish] *)
Definition ctx_Finish (value : Z) (c : CallContext) : CallContext :=
  if outcome c =? 0
  then CC (multiplexed c) (handler c) (waiter c) value (runs c) (answers c) (timer c) (fired c) (S (cwakeups c))
  else c.

(** Admission, and the executor's answer.  [None]: the connection is given up. *)
Definition admit_v1 (queued : bool) (p : Provider) : option Provider :=
  if negb (open_for_calls p) || (outstanding p >=? max_calls p) then None
  else
    let p := add_pending 1 (add_outstanding 1 p) in
    let c := CC false HQueued WComing 0 0 0 false 0 0 in
    Some (if queued
          then PV (max_calls p) (outstanding p) (pending_count p) (open_for_calls p) (contexts p ++ [c])
                 (pending_list p ++ [length (contexts p)]) (collected p)
          else
            let p := add_outstanding (-1) p in
            PV (max_calls p) (outstanding p) (pending_count p) (open_for_calls p)
              (contexts p ++ [ctx_Finish 2 (CC false HRefused WComing 0 0 0 false 0 0)])
              (pending_list p ++ [length (contexts p)]) (collected p)).

Definition admit_multiplexed (queued : bool) (p : Provider) : option Provider :=
  if negb (open_for_calls p) || (outstanding p >=? u64 (max_calls p * 64)) then None
  else
    let p := add_pending 1 (add_outstanding 1 p) in
    if queued
    then Some (PV (max_calls p) (outstanding p) (pending_count p) (open_for_calls p)
                (contexts p ++ [CC true HQueued WGone 0 0 0 false 0 0]) (pending_list p) (collected p))
    else Some (add_pending (-1) (add_outstanding (-1) p)).

(** The waiter: its timer and the yield, its resumption, its return. *)
Definition v1_yield (i : nat) (has_timeout : bool) (c : CallContext) (p : Provider) : Provider :=
  set_ctx i (CC (multiplexed c) (handler c) WParkedFor (outcome c) (runs c) (answers c) has_timeout (fired c) (cwakeups c)) p.
Definition v1_resume (i : nat) (c : CallContext) (p : Provider) : Provider :=
  set_ctx i (CC (multiplexed c) (handler c) WResumed (outcome c) (runs c) (answers c) (timer c) (fired c) (pred (cwakeups c))) p.
Definition v1_leave (i : nat) (c : CallContext) (p : Provider) : Provider :=
  add_pending (-1) (set_ctx i (CC (multiplexed c) (handler c) WGone (outcome c) (runs c) (answers c) false (fired c) (cwakeups c)) p).

(** The timer goes off; its callback runs. *)
Definition ctx_expire (i : nat) (c : CallContext) (p : Provider) : Provider :=
  set_ctx i (CC (multiplexed c) (handler c) (waiter c) (outcome c) (runs c) (answers c) false (S (fired c)) (cwakeups c)) p.
Definition ctx_timeout (i : nat) (c : CallContext) (p : Provider) : Provider :=
  set_ctx i (ctx_Finish 2 (CC (multiplexed c) (handler c) (waiter c) (outcome c) (runs c) (answers c) (timer c) (pred (fired c)) (cwakeups c))) p.

Definition ctx_handler (h : hstate) (c : CallContext) : CallContext :=
  CC (multiplexed c) h (waiter c) (outcome c) (runs c) (answers c) (timer c) (fired c) (cwakeups c).

(** [DoneClosure::Run] and [MultiplexDoneClosure::Run] *)
Definition DoneClosure_Run (i : nat) (c : CallContext) (p : Provider) : Provider :=
  set_ctx i (ctx_Finish 1 (CC false (handler c) (waiter c) (outcome c) (S (runs c)) (answers c) (timer c) (fired c) (cwakeups c)))
    (add_outstanding (-1) p).
Definition MultiplexDoneClosure_Run (i : nat) (c : CallContext) (p : Provider) : Provider :=
  set_ctx i (CC true (handler c) (waiter c) (outcome c) (S (runs c)) (S (answers c)) (timer c) (fired c) (cwakeups c)) p.
Definition run_closure (i : nat) (c : CallContext) (p : Provider) : Provider :=
  if multiplexed c then MultiplexDoneClosure_Run i c p else DoneClosure_Run i c p.

(** The task that sends a multiplexed answer. *)
Definition run_answer (i : nat) (c : CallContext) (p : Provider) : Provider :=
  add_pending (-1) (add_outstanding (-1)
    (set_ctx i (CC (multiplexed c) (handler c) (waiter c) (outcome c) (runs c) (pred (answers c)) (timer c) (fired c) (cwakeups c)) p)).

(** [CallMethod] throws: the catch blocks of the two handler tasks. *)
Definition catch_v1 (i : nat) (c : CallContext) (p : Provider) : Provider := set_ctx i (ctx_Finish 2 (ctx_handler HOver c)) p.
Definition catch_multiplexed (i : nat) (c : CallContext) (p : Provider) : Provider :=
  MultiplexDoneClosure_Run i (CC true HOver (waiter c) 2 (runs c) (answers c) (timer c) (fired c) (cwakeups c)) p.
Definition handler_throws (i : nat) (c : CallContext) (p : Provider) : Provider :=
  if multiplexed c then catch_multiplexed i c p else catch_v1 i c p.

(** [Provider::Stop]: the lock region, then [Finish] of each collected call, once. *)
Definition stop_calls (p : Provider) : Provider :=
  PV (max_calls p) (outstanding p) (pending_count p) false (contexts p) [] (collected p ++ pending_list p).
Definition stop_finish (i : nat) (c : CallContext) (p : Provider) : Provider :=
  set_ctx i (ctx_Finish 2 c)
    (PV (max_calls p) (outstanding p) (pending_count p) (open_for_calls p) (contexts p) (pending_list p) (filter (.≠ i) (collected p))).
(** The condition [Stop] waits for. *)
Definition drained (p : Provider) : bool := (pending_count p =? 0) && (outstanding p =? 0).

(** A step of a call under way.  Under Protocol Buffers' contract a service runs its
    closure at most once.  A service that throws may have run it before; [strict]
    excludes that. *)
Inductive work_step (strict : bool) : Provider -> Provider -> Prop :=
| pv_yield p i c t : contexts p !! i = Some c -> waiter c = WComing -> work_step strict p (v1_yield i t c p)
| pv_resume p i c : contexts p !! i = Some c -> waiter c = WParkedFor -> (0 < cwakeups c)%nat -> work_step strict p (v1_resume i c p)
| pv_leave p i c : contexts p !! i = Some c -> waiter c = WResumed -> work_step strict p (v1_leave i c p)
| pv_expire p i c : contexts p !! i = Some c -> timer c = true -> work_step strict p (ctx_expire i c p)
| pv_timeout p i c : contexts p !! i = Some c -> (0 < fired c)%nat -> work_step strict p (ctx_timeout i c p)
| pv_run p i c : contexts p !! i = Some c -> handler c = HQueued -> work_step strict p (set_ctx i (ctx_handler HRunning c) p)
| pv_return p i c : contexts p !! i = Some c -> handler c = HRunning -> work_step strict p (set_ctx i (ctx_handler HOver c) p)
| pv_closure p i c : contexts p !! i = Some c -> (handler c = HRunning \/ handler c = HOver) -> runs c = 0%nat ->
    work_step strict p (run_closure i c p)
| pv_throw p i c : contexts p !! i = Some c -> handler c = HRunning -> (strict = true -> runs c = 0%nat) ->
    work_step strict p (handler_throws i c p)
| pv_answer p i c : contexts p !! i = Some c -> (0 < answers c)%nat -> work_step strict p (run_answer i c p)
| pv_stop_finish p i c : contexts p !! i = Some c -> i ∈ collected p -> work_step strict p (stop_finish i c p).

(** The interleavings of requests, calls under way and [Stop]. *)
Inductive provider_step (strict : bool) : Provider -> Provider -> Prop :=
| pv_admit_v1 p p' queued : admit_v1 queued p = Some p' -> provider_step strict p p'
| pv_admit_mux p p' queued : admit_multiplexed queued p = Some p' -> provider_step strict p p'
| pv_stop p : provider_step strict p (stop_calls p)
| pv_work p p' : work_step strict p p' -> provider_step strict p p'.
