(* ===== verification/RpcServerProofs.v ===== *)
(** * Correctness of the RPC server *)

From S2P Require Import Prelude Net NetProofs Codec CodecProofs RpcServer.

(** ** Executor *)

Definition running_of (w : eworker) : list nat := match w with ERunning t => [t] | _ => [] end.

Record executor_ok (e : Executor) : Prop := {
  eo_order : accepted e = started_tasks e ++ queue_ e;
  eo_work : started_tasks e ≡ₚ completed e ++ concat (running_of <$> workers_ e);
  eo_bound : (length (queue_ e) <= capacity_ e)%nat;
  eo_exit : EExited ∈ workers_ e -> stopped_ e = true /\ queue_ e = [] }.

Lemma running_insert (l : list eworker) i w w' : l !! i = Some w ->
  running_of w ++ concat (running_of <$> <[i := w']> l) ≡ₚ running_of w' ++ concat (running_of <$> l).
Proof.
  revert i. induction l as [|x l IH]; intros i H; [done|]. destruct i as [|i]; simpl in *.
  - simplify_eq. by rewrite !app_assoc, (Permutation_app_comm (running_of w)).
  - rewrite !app_assoc, !(Permutation_app_comm _ (running_of x)), <- !app_assoc. by rewrite IH.
Qed.

Lemma elem_of_insert_other {A} (l : list A) i x y : x ∈ <[i := y]> l -> x <> y -> x ∈ l.
Proof.
  intros [j Hj]%list_elem_of_lookup Hne. apply list_lookup_insert_Some in Hj as [(? & <- & _)|[_ Hj]]; [done|].
  by eapply list_elem_of_lookup_2.
Qed.

Lemma executor_step_ok e e' : executor_step e e' -> executor_ok e -> executor_ok e'.
Proof.
  intros Hs Hok. destruct Hs as [e task|e i Hi|e i task Hi|e]; pose proof Hok as [H1 H2 H3 H4].
  - unfold Submit. destruct (stopped_ e || _) eqn:E; [done|]. apply orb_false_iff in E as [Es El].
    apply Nat.leb_gt in El. split; simpl; auto.
    + by rewrite H1, app_assoc.
    + rewrite length_app. simpl. lia.
    + intros Hx. apply H4 in Hx as [Hx _]. congruence.
  - unfold worker_take. destruct (queue_ e) as [|t q] eqn:Eq; [destruct (stopped_ e) eqn:Est|]; [|exact Hok|]; split; simpl; auto; simpl in *.
    + pose proof (running_insert _ _ _ EExited Hi) as Hp. simpl in Hp. by rewrite Hp.
    + by rewrite H1, <- app_assoc.
    + pose proof (running_insert _ _ _ (ERunning t) Hi) as Hp. simpl in Hp. rewrite Hp, H2.
      rewrite <- app_assoc. f_equiv. by rewrite Permutation_app_comm.
    + lia.
    + intros Hx. apply elem_of_insert_other in Hx; [|done]. apply H4 in Hx as [_ Hx]. done.
  - unfold worker_finish. split; simpl; auto.
    + pose proof (running_insert _ _ _ EWaiting Hi) as Hp. simpl in Hp. rewrite H2, <- Hp.
      by rewrite <- app_assoc.
    + intros Hx. apply elem_of_insert_other in Hx; auto.
  - split; simpl; auto. intros Hx. by apply H4 in Hx as [_ Hx].
Qed.

Lemma executor_reachable threads capacity e : rtc executor_step (Executor_new threads capacity) e -> executor_ok e.
Proof.
  intros Hr. eapply (rtc_invariant executor_step executor_ok); [exact executor_step_ok|exact Hr|].
  split; simpl; try done; [|lia|].
  - clear. induction threads as [|n IH]; [done|]. exact IH.
  - intros Hx%list_elem_of_In%repeat_spec. done.
Qed.

(** C29. The executor.  However submissions, workers and the destructor interleave,
    the queue never holds more than its capacity, tasks start in the order they were
    accepted, and each accepted task is waiting, running or completed, exactly once;
    when the workers have ended, every accepted task was completed. *)
Theorem executor_runs_each_task_once threads capacity e :
  (0 < threads)%nat -> rtc executor_step (Executor_new threads capacity) e ->
  (length (queue_ e) <= capacity_ e)%nat /\ accepted e = started_tasks e ++ queue_ e /\
  started_tasks e ≡ₚ completed e ++ concat (running_of <$> workers_ e) /\
  (Forall (.= EExited) (workers_ e) -> accepted e ≡ₚ completed e).
Proof.
  intros Ht Hr. destruct (executor_reachable _ _ _ Hr) as [H1 H2 H3 H4]. split_and!; try done.
  intros Hall. assert (Hlen : length (workers_ e) = threads).
  { eapply (rtc_invariant executor_step (fun e => length (workers_ e) = threads)); [|exact Hr|apply repeat_length].
    intros x y Hs <-. destruct Hs; unfold Submit, worker_take; repeat case_match; simpl; rewrite ?length_insert; done. }
  assert (Hq : queue_ e = []).
  { apply H4. destruct (workers_ e) as [|w l] eqn:E; [simpl in Hlen; lia|]. apply Forall_cons_1 in Hall as [-> _].
    apply list_elem_of_here. }
  rewrite H1, Hq, app_nil_r, H2.
  assert (Hc : concat (running_of <$> workers_ e) = []).
  { clear -Hall. induction Hall as [|w l -> _ IH]; [done|]. exact IH. }
  by rewrite Hc, app_nil_r.
Qed.

(** ** Services and requests *)

Lemma find_emplace {A} name name' (a : A) l :
  find_name name' (emplace name a l) =
  match find_name name' l with Some x => Some x | None => if bool_decide (name = name') then Some a else None end.
Proof.
  assert (Happ : find_name name' (l ++ [(name, a)]) =
    match find_name name' l with Some x => Some x | None => if bool_decide (name = name') then Some a else None end).
  { induction l as [|[n x] l IH]; simpl; [done|]. by destruct (bool_decide (n = name')). }
  unfold emplace. destruct (find_name name l) eqn:E; [|done]. destruct (find_name name' l) eqn:E'; [done|].
  case_bool_decide; [congruence|done].
Qed.

Lemma find_methods ms : forall l name,
  find_name name (fold_left (fun l '(n, m) => emplace n m l) ms l) =
  match find_name name l with Some x => Some x | None => find_name (A := nat) name ms end.
Proof.
  induction ms as [|[n m] ms IH]; intros l name; simpl; [by destruct (find_name name l)|].
  rewrite IH, find_emplace. destruct (find_name name l); [done|]. by case_bool_decide.
Qed.

(** A registered service is found with its own methods. *)
Lemma Register_finds svc name ms r r' h :
  Register (Some (svc, Some (name, ms))) r = (true, r') -> service_name h = name ->
  find_method r' h = (pair svc) <$> find_name (method_name h) ms.
Proof.
  unfold Register. intros E Hn. destruct (started r); [done|]. destruct (find_name name (services r)) eqn:Ef; [done|].
  injection E as <-. unfold find_method. cbn [services]. rewrite Hn, find_emplace, Ef, bool_decide_eq_true_2 by done.
  cbn [methods service]. rewrite find_methods. simpl. by destruct (find_name (method_name h) ms).
Qed.

(** Registering another service leaves what was registered. *)
Lemma Register_keeps s r ok r' h x :
  Register s r = (ok, r') -> find_method r h = Some x -> find_method r' h = Some x.
Proof.
  unfold Register. intros E Hf. destruct s as [[svc [[name ms]|]]|]; [|by destruct (started r); simplify_eq|by simplify_eq].
  destruct (started r); [by simplify_eq|]. destruct (find_name name (services r)) eqn:Ef; [by simplify_eq|].
  injection E as <- <-. unfold find_method in *. cbn [services]. rewrite find_emplace.
  destruct (find_name (service_name h) (services r)); done.
Qed.

(** A registration after the start, of a name that is taken, or of nothing is
    refused; a start without services, or a second one, too; a provider that was
    stopped is never started again. *)
Theorem registration_rules r svc name ms server_ok :
  (started r = true -> Register (Some (svc, Some (name, ms))) r = (false, r) /\ Provider_Start server_ok r = (false, r)) /\
  (find_name name (services r) <> None -> Register (Some (svc, Some (name, ms))) r = (false, r)) /\
  (services r = [] -> Provider_Start server_ok r = (false, r)) /\
  (started r = true -> Provider_Start server_ok (Provider_Stop r) = (false, Provider_Stop r)).
Proof.
  unfold Register, Provider_Start, Provider_Stop. cbn [started]. split_and!.
  - intros ->. done.
  - intros H. destruct (started r); [done|]. by destruct (find_name name (services r)).
  - intros ->. by rewrite orb_true_r.
  - intros ->. done.
Qed.

Section requests.
Context `{HL : HeaderLaws}.

(** A round of [Handle] on the frame of a request: it is dispatched to the method
    the registry finds, with the bytes of the frame reserved. *)
Lemma handle_round_frame r name method svc m parse_args a id frame k rest b c :
  accepting r = true -> find_method r (Header name method (len a) id []) = Some (svc, m) -> parse_args m a = true ->
  encode_request name method (Some a) id = inr frame ->
  at_rest (length frame + k) c -> incoming c = frame ++ rest ->
  0 <= buffered_bytes b -> buffered_bytes b + len frame <= max_buffered_bytes b ->
  exists held b' c', handle_round parse_args r b c =
      Finished (if id =? 0 then CallV1 svc m a else CallMultiplexed svc m a id, (held, b')) c' /\
    at_rest k c' /\ incoming c' = rest /\ held < len frame /\ buffered_bytes b' = buffered_bytes b + held.
Proof.
  intros Hacc Hf Hp He Hc Hin Hb0 Hb.
  destruct (read_request_frame name method (Some a) id frame k rest b c He Hc Hin Hb0 Hb)
    as (a' & held & b' & c' & [= <-] & E & Hc' & Hin' & Hh & Hb').
  exists held, b', c'. split; [|split_and!; [done|done|lia|done]]. unfold handle_round. destruct Hc as (_ & Hcl & _).
  rewrite Hacc, Hcl. cbn [negb orb]. rewrite E, Hf, Hp. cbn [negb request_id]. by destruct (id =? 0).
Qed.

(** From the stub to the method.  A provider that registered a service and was
    started takes the frame a channel builds for a call of one of its methods, in
    version 1 or multiplexed, as a call of exactly that method with exactly those
    argument bytes, and is then at the next frame of the connection. *)
Theorem request_reaches_method svc name ms method m r0 r1 r2 parse_args a id frame k rest b c :
  Register (Some (svc, Some (name, ms))) r0 = (true, r1) -> Provider_Start true r1 = (true, r2) ->
  find_name method ms = Some m -> parse_args m a = true ->
  encode_request name method (Some a) id = inr frame ->
  at_rest (length frame + k) c -> incoming c = frame ++ rest ->
  0 <= buffered_bytes b -> buffered_bytes b + len frame <= max_buffered_bytes b ->
  exists hb c', handle_round parse_args r2 b c =
      Finished (if id =? 0 then CallV1 svc m a else CallMultiplexed svc m a id, hb) c' /\
    at_rest k c' /\ incoming c' = rest.
Proof.
  intros Hreg Hst Hm Hp He Hc Hin Hb0 Hb. unfold Provider_Start in Hst. destruct (started r1 || _); [done|]. injection Hst as <-.
  destruct (handle_round_frame (Reg (services r1) true true) name method svc m parse_args a id frame k rest b c)
    as (held & b' & c' & E & Hc' & Hin' & _); try done.
  { etrans; [exact (Register_finds svc name ms r0 r1 (Header name method (len a) id []) Hreg eq_refl)|]. simpl. by rewrite Hm. }
  by exists (held, b'), c'.
Qed.
End requests.

(** ** Calls under way *)

Definition b2n (b : bool) : nat := if b then 1 else 0.

(** What a call counts for in [outstanding] and in [pending_count]. *)
Definition held_by (c : CallContext) : nat :=
  match handler c with
  | HRefused => 0
  | _ => if (runs c =? 0)%nat then 1 else if multiplexed c then answers c else 0
  end.
Definition awaited_by (c : CallContext) : nat :=
  if multiplexed c then held_by c else match waiter c with WGone => 0 | _ => 1 end.

Definition total (f : CallContext -> nat) (l : list CallContext) : nat := sum_list_with f l.

Lemma total_insert f l i c c' : l !! i = Some c -> (total f (<[i := c']> l) + f c = total f l + f c')%nat.
Proof.
  revert i. induction l as [|x l IH]; intros i H; [done|]. destruct i as [|i]; simpl in *; [simplify_eq; lia|].
  specialize (IH i H). unfold total in *. lia.
Qed.

Lemma total_app f l c : total f (l ++ [c]) = (total f l + f c)%nat.
Proof. unfold total. rewrite sum_list_with_app. simpl. lia. Qed.

(** What holds of each call when services keep their contract. *)
Record ctx_ok (c : CallContext) : Prop := {
  xo_runs : (runs c <= 1)%nat /\ (answers c <= runs c)%nat;
  xo_queued : handler c = HQueued \/ handler c = HRefused -> runs c = 0%nat;
  xo_v1_answers : multiplexed c = false -> answers c = 0%nat;
  xo_mux : multiplexed c = true -> waiter c = WGone /\ cwakeups c = 0%nat /\ timer c = false /\ fired c = 0%nat /\ handler c <> HRefused;
  xo_before : multiplexed c = false -> (waiter c = WComing \/ waiter c = WParkedFor) ->
    (outcome c = 0 /\ cwakeups c = 0%nat) \/ (outcome c <> 0 /\ cwakeups c = 1%nat);
  xo_after : multiplexed c = false -> (waiter c = WResumed \/ waiter c = WGone) -> outcome c <> 0 /\ cwakeups c = 0%nat;
  xo_done : multiplexed c = false -> outcome c = 1 -> runs c = 1%nat;
  xo_ran : multiplexed c = false -> runs c = 1%nat -> outcome c <> 0;
  xo_refused : handler c = HRefused -> outcome c <> 0 }.

Record provider_ok (p : Provider) : Prop := {
  po_outstanding : outstanding p = u64 (Z.of_nat (total held_by (contexts p)));
  po_pending : pending_count p = u64 (Z.of_nat (total awaited_by (contexts p)));
  po_ctx : Forall ctx_ok (contexts p);
  po_lists : forall i, i ∈ pending_list p ++ collected p -> exists c, contexts p !! i = Some c /\ multiplexed c = false }.

Lemma u64_step x y d : x = u64 y -> u64 (x + d) = u64 (y + d).
Proof. intros ->. unfold u64, wrap. by rewrite Zplus_mod_idemp_l. Qed.

Lemma po_at p i c : provider_ok p -> contexts p !! i = Some c -> ctx_ok c.
Proof. intros H Hi. by eapply Forall_lookup_1; [apply po_ctx|]. Qed.

(** A step on one call that moves the counters by what that call's share changes. *)
Lemma provider_ok_update p i c c' p' :
  provider_ok p -> contexts p !! i = Some c -> ctx_ok c' -> multiplexed c' = multiplexed c -> contexts p' = <[i := c']> (contexts p) ->
  pending_list p' = pending_list p -> collected p' ⊆ collected p ->
  outstanding p' = u64 (outstanding p + (Z.of_nat (held_by c') - Z.of_nat (held_by c))) ->
  pending_count p' = u64 (pending_count p + (Z.of_nat (awaited_by c') - Z.of_nat (awaited_by c))) ->
  provider_ok p'.
Proof.
  intros [H1 H2 H3 H4] Hi Hc Em Ec El Ecl Eo Ep. split.
  - rewrite Eo, (u64_step _ _ _ H1), Ec. f_equal. pose proof (total_insert held_by _ _ _ c' Hi). lia.
  - rewrite Ep, (u64_step _ _ _ H2), Ec. f_equal. pose proof (total_insert awaited_by _ _ _ c' Hi). lia.
  - rewrite Ec. by apply Forall_insert.
  - intros j Hj. rewrite Ec. rewrite El in Hj. destruct (H4 j) as (d & Hd & Hm).
    { apply elem_of_app. apply elem_of_app in Hj as [?|Hj]; [by left|right]. by apply Ecl. }
    destruct (decide (j = i)) as [->|Hne]; [|exists d; by rewrite list_lookup_insert_ne].
    exists c'. rewrite list_lookup_insert_eq by (by eapply lookup_lt_Some). split; [done|]. rewrite Hi in Hd. injection Hd as <-. congruence.
Qed.

Lemma counter_same x y : x = u64 y -> x = u64 (x + 0).
Proof. intros ->. unfold u64, wrap. by rewrite Z.add_0_r, Zmod_mod. Qed.

(** The common case: the call's shares stay. *)
Lemma provider_ok_same p i c c' :
  provider_ok p -> contexts p !! i = Some c -> ctx_ok c' -> multiplexed c' = multiplexed c -> held_by c' = held_by c -> awaited_by c' = awaited_by c ->
  provider_ok (set_ctx i c' p).
Proof.
  intros Hp Hi Hc Em Eh Ea. eapply provider_ok_update; [exact Hp|exact Hi|exact Hc|exact Em|done|done|done|..]; simpl; rewrite ?Eh, ?Ea, Z.sub_diag;
    eapply counter_same; apply Hp.
Qed.

Ltac ctx_solve := split; simpl in *; intros; simplify_eq; try done; try lia; intuition (try congruence; try lia).

Lemma Finish_ok v c : v = 2 -> multiplexed c = false -> ctx_ok c -> ctx_ok (ctx_Finish v c).
Proof.
  intros -> Hm Hc. unfold ctx_Finish. destruct (Z.eqb_spec (outcome c) 0) as [Ho|Ho]; [|done].
  destruct c as [mx h w o r a t f n], Hc. simpl in *. subst. destruct w; ctx_solve.
Qed.

Lemma Finish_multiplexed v c : multiplexed (ctx_Finish v c) = multiplexed c.
Proof. unfold ctx_Finish. by destruct (outcome c =? 0). Qed.

Lemma Finish_share v c : held_by (ctx_Finish v c) = held_by c /\ awaited_by (ctx_Finish v c) = awaited_by c.
Proof. unfold ctx_Finish. by destruct (outcome c =? 0). Qed.

Lemma closure_ok c : ctx_ok c -> multiplexed c = false -> handler c = HRunning \/ handler c = HOver -> runs c = 0%nat ->
  ctx_ok (ctx_Finish 1 (CC false (handler c) (waiter c) (outcome c) (S (runs c)) (answers c) (timer c) (fired c) (cwakeups c))).
Proof.
  intros Hc Hm Hh Hr. unfold ctx_Finish. simpl. destruct c as [mx h w o r a t f n], Hc. simpl in *. subst.
  destruct (Z.eqb_spec o 0) as [->|Ho]; destruct w; ctx_solve.
Qed.

Lemma provider_ok_new p c :
  provider_ok p -> ctx_ok c ->
  provider_ok (PV (max_calls p) (u64 (outstanding p + Z.of_nat (held_by c))) (u64 (pending_count p + Z.of_nat (awaited_by c)))
    (open_for_calls p) (contexts p ++ [c]) (if multiplexed c then pending_list p else pending_list p ++ [length (contexts p)]) (collected p)).
Proof.
  intros [H1 H2 H3 H4] Hc. split; simpl.
  - rewrite (u64_step _ _ _ H1), total_app. f_equal. lia.
  - rewrite (u64_step _ _ _ H2), total_app. f_equal. lia.
  - apply Forall_app. split; [done|]. by apply Forall_singleton.
  - intros i Hi. assert (i ∈ pending_list p ++ collected p \/ i = length (contexts p) /\ multiplexed c = false) as [Hold|[-> Hm]].
    { destruct (multiplexed c); [by left|]. apply elem_of_app in Hi as [Hi|Hi]; [|left; apply elem_of_app; by right].
      apply elem_of_app in Hi as [Hi|Hi%list_elem_of_singleton]; [left; apply elem_of_app; by left|by right]. }
    + destruct (H4 i Hold) as (d & Hd & Hm). exists d. split; [by apply lookup_app_l_Some|done].
    + exists c. split; [|done]. by rewrite lookup_app_r, Nat.sub_diag.
Qed.

Lemma u64_back x y : x = u64 y -> u64 (u64 (x + 1) + -1) = x.
Proof. intros ->. rewrite !u64_add_l, <- Z.add_assoc, u64_add_l. f_equal. lia. Qed.

Lemma admit_v1_ok queued p p' : provider_ok p -> admit_v1 queued p = Some p' -> provider_ok p'.
Proof.
  intros Hp. unfold admit_v1. destruct (negb _ || _); [done|]. destruct queued; intros [= <-]; simpl.
  - apply (provider_ok_new p (CC false HQueued WComing 0 0 0 false 0 0) Hp). ctx_solve.
  - rewrite (u64_back _ _ (po_outstanding _ Hp)). rewrite (counter_same _ _ (po_outstanding _ Hp)).
    apply (provider_ok_new p (ctx_Finish 2 (CC false HRefused WComing 0 0 0 false 0 0)) Hp). ctx_solve.
Qed.

Lemma admit_multiplexed_ok queued p p' : provider_ok p -> admit_multiplexed queued p = Some p' -> provider_ok p'.
Proof.
  intros Hp. unfold admit_multiplexed. destruct (negb _ || _); [done|]. destruct queued; intros [= <-]; simpl.
  - apply (provider_ok_new p (CC true HQueued WGone 0 0 0 false 0 0) Hp). ctx_solve.
  - unfold add_pending, add_outstanding. simpl.
    rewrite (u64_back _ _ (po_outstanding _ Hp)), (u64_back _ _ (po_pending _ Hp)). destruct Hp. by split.
Qed.

Lemma run_closure_ok p i c : provider_ok p -> contexts p !! i = Some c -> ctx_ok c ->
  handler c = HRunning \/ handler c = HOver -> runs c = 0%nat -> provider_ok (run_closure i c p).
Proof.
  intros Hp Hi Hc Hh Hr. unfold run_closure, DoneClosure_Run, MultiplexDoneClosure_Run. destruct (multiplexed c) eqn:Em.
  - eapply provider_ok_same; [done|exact Hi| |done|..].
    + destruct c as [mx h w o r a t f n], Hc. simpl in *. subst. ctx_solve.
    + destruct Hc, c as [mx h w o r a t f n]. unfold held_by. simpl in *. subst. destruct Hh; subst; simpl; lia.
    + destruct Hc, c as [mx h w o r a t f n]. unfold awaited_by, held_by. simpl in *. subst. destruct Hh; subst; simpl; lia.
  - set (c1 := CC false _ _ _ _ _ _ _ _). destruct (Finish_share 1 c1) as [Eh Ea].
    assert (H1 : held_by c = 1%nat) by (unfold held_by; rewrite Hr; by destruct Hh as [->| ->]).
    assert (H2 : held_by c1 = 0%nat) by (unfold held_by, c1; simpl; by destruct Hh as [->| ->]).
    assert (H3 : awaited_by c1 = awaited_by c) by (unfold awaited_by, c1; simpl; by rewrite Em).
    eapply (provider_ok_update p i c (ctx_Finish 1 c1)); [done|done|by apply closure_ok| |done|done|done|..]; simpl.
    + by rewrite Finish_multiplexed.
    + by rewrite Eh, H1, H2.
    + rewrite Ea, H3, Z.sub_diag. eapply counter_same, Hp.
Qed.

Lemma handler_state_ok c h : ctx_ok c -> (h = HRunning \/ h = HOver) -> ctx_ok (ctx_handler h c).
Proof. intros Hc Hh. destruct c as [mx h' w o r a t f n], Hc. unfold ctx_handler. simpl in *. destruct Hh; subst; ctx_solve. Qed.

Lemma handler_state_share c h : handler c <> HRefused -> (h = HRunning \/ h = HOver) ->
  held_by (ctx_handler h c) = held_by c /\ awaited_by (ctx_handler h c) = awaited_by c.
Proof. intros Hn Hh. unfold awaited_by, held_by. simpl. by destruct Hh as [->| ->]; destruct (handler c). Qed.

Lemma handler_throws_ok p i c : provider_ok p -> contexts p !! i = Some c -> handler c = HRunning -> runs c = 0%nat ->
  provider_ok (handler_throws i c p).
Proof.
  intros Hp Hi Hh Hr. pose proof (po_at _ _ _ Hp Hi) as Hc. unfold handler_throws, catch_v1, catch_multiplexed, MultiplexDoneClosure_Run. destruct (multiplexed c) eqn:Em.
  - cbn [handler waiter outcome runs answers timer fired cwakeups]. eapply provider_ok_same; [done|exact Hi| |done|..].
    + destruct c as [mx h w o r a t f n], Hc. simpl in *. subst. ctx_solve.
    + destruct Hc, c as [mx h w o r a t f n]. unfold held_by. simpl in *. subst. simpl. lia.
    + destruct Hc, c as [mx h w o r a t f n]. unfold awaited_by, held_by. simpl in *. subst. simpl. lia.
  - destruct (handler_state_share c HOver) as [E1 E2]; [by rewrite Hh|by right|].
    destruct (Finish_share 2 (ctx_handler HOver c)) as [E3 E4].
    eapply provider_ok_same; [done|exact Hi| |by rewrite Finish_multiplexed|congruence..]. apply Finish_ok; [done|done|]. apply handler_state_ok; auto.
Qed.

Lemma run_answer_ok p i c : provider_ok p -> contexts p !! i = Some c -> (0 < answers c)%nat -> provider_ok (run_answer i c p).
Proof.
  intros Hp Hi Ha. pose proof (po_at _ _ _ Hp Hi) as Hc. destruct c as [mx h w o r a t f n]. destruct Hc. simpl in *.
  assert (a = 1%nat /\ r = 1%nat) as [-> ->] by lia. assert (mx = true) as -> by (destruct mx; [done|]; by specialize (xo_v1_answers0 eq_refl)).
  assert (Hh : h = HRunning \/ h = HOver) by (destruct h; auto; specialize (xo_queued0 ltac:(auto)); lia).
  eapply (provider_ok_update p i _ (CC true h w o 1 0 t f n)); [done|exact Hi| |done|done|done|done|..]; simpl.
  - ctx_solve.
  - unfold held_by. simpl. by destruct Hh as [->| ->].
  - unfold awaited_by, held_by. simpl. by destruct Hh as [->| ->].
Qed.

Lemma v1_leave_ok p i c : provider_ok p -> contexts p !! i = Some c -> waiter c = WResumed -> provider_ok (v1_leave i c p).
Proof.
  intros Hp Hi Hw. pose proof (po_at _ _ _ Hp Hi) as Hc. destruct c as [mx h w o r a t f n]. destruct Hc. simpl in *. subst w.
  assert (mx = false) as -> by (destruct mx; [by destruct (xo_mux0 eq_refl)|done]).
  eapply (provider_ok_update p i _ (CC false h WGone o r a false f n)); [done|exact Hi| |done|done|done|done|..]; simpl.
  - ctx_solve.
  - unfold held_by. simpl. rewrite Z.sub_diag. eapply counter_same, Hp.
  - done.
Qed.

(** Steps that touch only the waiter's side of a call. *)
Lemma waiter_steps_ok p i c c' : provider_ok p -> contexts p !! i = Some c -> ctx_ok c' ->
  multiplexed c' = multiplexed c -> handler c' = handler c -> runs c' = runs c -> answers c' = answers c ->
  (waiter c' = WGone <-> waiter c = WGone) -> provider_ok (set_ctx i c' p).
Proof.
  intros Hp Hi Hc Em Eh Er Ea Ew. assert (E : held_by c' = held_by c) by (unfold held_by; by rewrite Eh, Er, Em, Ea).
  eapply provider_ok_same; [done|done|done|done|done|]. unfold awaited_by. rewrite Em, E. destruct (multiplexed c); [done|].
  destruct (waiter c') eqn:E1, (waiter c) eqn:E2; naive_solver.
Qed.

Lemma work_step_ok p p' : work_step true p p' -> provider_ok p -> provider_ok p'.
Proof.
  intros Hs Hp. destruct Hs as [p i c t Hi Hw|p i c Hi Hw Hn|p i c Hi Hw|p i c Hi Ht|p i c Hi Hf|p i c Hi Hh|p i c Hi Hh
    |p i c Hi Hh Hr|p i c Hi Hh Hr|p i c Hi Ha|p i c Hi Ho]; pose proof (po_at _ _ _ Hp Hi) as Hc.
  - eapply waiter_steps_ok; [done|done| |done..|by rewrite Hw].
    destruct c as [mx h w o r a t' f n], Hc. simpl in *. subst. ctx_solve.
  - eapply waiter_steps_ok; [done|done| |done..|by rewrite Hw].
    destruct c as [mx h w o r a t' f n], Hc. simpl in *. subst. ctx_solve.
  - by eapply v1_leave_ok.
  - eapply waiter_steps_ok; [done|done| |done..]. destruct c as [mx h w o r a t' f n], Hc. simpl in *. ctx_solve.
  - assert (Hm : multiplexed c = false) by (destruct (multiplexed c) eqn:Em; [|done]; destruct (xo_mux _ Hc Em) as (_ & _ & _ & ? & _); lia).
    unfold ctx_timeout. eapply provider_ok_same; [done|exact Hi| |by rewrite Finish_multiplexed|by rewrite (proj1 (Finish_share _ _))|by rewrite (proj2 (Finish_share _ _))].
    apply Finish_ok; [done|done|]. destruct c as [mx h w o r a t' f n], Hc. simpl in *. ctx_solve.
  - destruct (handler_state_share c HRunning) as [E1 E2]; [by rewrite Hh|by left|].
    eapply provider_ok_same; [done|exact Hi|apply handler_state_ok; auto|done|done|done].
  - destruct (handler_state_share c HOver) as [E1 E2]; [by rewrite Hh|by right|].
    eapply provider_ok_same; [done|exact Hi|apply handler_state_ok; auto|done|done|done].
  - by apply run_closure_ok.
  - apply handler_throws_ok; auto.
  - by apply run_answer_ok.
  - destruct (po_lists _ Hp i) as (d & Hd & Hm); [apply elem_of_app; by right|]. rewrite Hi in Hd. simplify_eq.
    eapply (provider_ok_update p i d (ctx_Finish 2 d)); [done|done|by apply Finish_ok|by apply Finish_multiplexed|done|done|..].
    + intros j Hj. simpl in Hj. by apply list_elem_of_filter in Hj as [_ ?].
    + rewrite (proj1 (Finish_share _ _)), Z.sub_diag. eapply counter_same, Hp.
    + rewrite (proj2 (Finish_share _ _)), Z.sub_diag. eapply counter_same, Hp.
Qed.

Lemma provider_step_ok p p' : provider_step true p p' -> provider_ok p -> provider_ok p'.
Proof.
  intros Hs Hp. destruct Hs as [p p' q E|p p' q E|p|p p' Hw].
  - by eapply admit_v1_ok.
  - by eapply admit_multiplexed_ok.
  - destruct Hp as [H1 H2 H3 H4]. split; simpl; [done..|]. intros i Hi. apply H4, elem_of_app. apply elem_of_app in Hi as [Hi|Hi]; auto.
  - by eapply work_step_ok.
Qed.

Lemma provider_reachable limit p : rtc (provider_step true) (Provider_new limit) p -> provider_ok p.
Proof.
  intros Hr. eapply (rtc_invariant (provider_step true) provider_ok); [exact provider_step_ok|exact Hr|]. split; try done. intros i Hi. by apply not_elem_of_nil in Hi.
Qed.

(** C11. The provider's counters.  While every service runs its closure at most once
    and none throws after running it, under any interleaving of requests, handlers, timeouts, answers and [Stop]:
    [outstanding] counts the calls whose closure has not run or whose multiplexed
    answer is not sent, [pending_count] the version 1 waiters that have not returned
    and those answers; a version 1 waiter that is suspended has no result and no
    resumption, or a result and exactly one resumption; and it reports a response
    only when the closure has run. *)
Theorem provider_counts_calls limit p :
  rtc (provider_step true) (Provider_new limit) p ->
  outstanding p = u64 (Z.of_nat (total held_by (contexts p))) /\
  pending_count p = u64 (Z.of_nat (total awaited_by (contexts p))) /\
  (forall i c, contexts p !! i = Some c -> waiter c = WParkedFor ->
     (outcome c = 0 /\ cwakeups c = 0%nat) \/ (outcome c <> 0 /\ cwakeups c = 1%nat)) /\
  (forall i c, contexts p !! i = Some c -> multiplexed c = false -> outcome c = 1 -> runs c = 1%nat).
Proof.
  intros Hr. pose proof (provider_reachable _ _ Hr) as Hp. split_and!; [apply Hp|apply Hp|..].
  - intros i c Hi Hw. pose proof (po_at _ _ _ Hp Hi) as Hc. apply (xo_before _ Hc); [|by right].
    destruct (multiplexed c) eqn:Em; [|done]. destruct (xo_mux _ Hc Em) as [? _]. congruence.
  - intros i c Hi. apply (po_at _ _ _ Hp Hi).
Qed.

Lemma total_zero f l : total f l = 0%nat <-> forall i c, l !! i = Some c -> f c = 0%nat.
Proof.
  induction l as [|x l IH]; unfold total in *; simpl; [done|]. split.
  - intros H [|i] c Hc; simpl in Hc; [simplify_eq; lia|]. apply (proj1 IH ltac:(lia) i c Hc).
  - intros H. specialize (H 0%nat x eq_refl) as H0. assert (H1 : sum_list_with f l = 0%nat); [|lia].
    apply IH. intros i c Hc. apply (H (S i) c Hc).
Qed.

Lemma total_bound f l : (forall i c, l !! i = Some c -> (f c <= 1)%nat) -> (total f l <= length l)%nat.
Proof.
  induction l as [|x l IH]; intros H; unfold total in *; simpl; [done|].
  specialize (H 0%nat x eq_refl) as H0. specialize (IH (fun i c Hc => H (S i) c Hc)). lia.
Qed.

Lemma share_bound c : ctx_ok c -> (held_by c <= 1)%nat /\ (awaited_by c <= 1)%nat.
Proof.
  intros [[H1 H2] _ _ _ _ _ _ _ _]. assert (H : (held_by c <= 1)%nat).
  { unfold held_by. destruct (handler c); [..|lia]; destruct (Nat.eqb_spec (runs c) 0); try lia; destruct (multiplexed c); lia. }
  split; [done|]. unfold awaited_by. destruct (multiplexed c); [done|]. destruct (waiter c); lia.
Qed.

(** Draining.  While services keep to the closure contract, the condition on
    which [Stop] reports success holds exactly when every call is over: each handler
    that was queued has run its closure, each multiplexed answer was sent, and each
    version 1 waiter has returned. *)
Theorem drained_means_quiet limit p :
  rtc (provider_step true) (Provider_new limit) p -> Z.of_nat (length (contexts p)) < 2 ^ 64 ->
  drained p = true <->
  forall i c, contexts p !! i = Some c ->
    (handler c <> HRefused -> runs c = 1%nat) /\ answers c = 0%nat /\ waiter c = WGone.
Proof.
  intros Hr Hlen. pose proof (provider_reachable _ _ Hr) as Hp.
  assert (Hb1 : (total held_by (contexts p) <= length (contexts p))%nat).
  { apply total_bound. intros i c Hi. apply share_bound, (po_at _ _ _ Hp Hi). }
  assert (Hb2 : (total awaited_by (contexts p) <= length (contexts p))%nat).
  { apply total_bound. intros i c Hi. apply share_bound, (po_at _ _ _ Hp Hi). }
  assert (Hd : drained p = true <-> total held_by (contexts p) = 0%nat /\ total awaited_by (contexts p) = 0%nat).
  { unfold drained. rewrite (po_outstanding _ Hp), (po_pending _ Hp), !u64_small by lia.
    rewrite andb_true_iff, !Z.eqb_eq. lia. }
  rewrite Hd, !total_zero. split.
  - intros [H1 H2] i c Hi. specialize (H1 i c Hi). specialize (H2 i c Hi). pose proof (po_at _ _ _ Hp Hi) as Hc.
    destruct c as [mx h w o r a t f n], Hc. unfold awaited_by, held_by in *. simpl in *.
    destruct mx; [destruct (xo_mux0 eq_refl) as (-> & _ & _ & _ & Hn)|rewrite (xo_v1_answers0 eq_refl); destruct w; try done];
      destruct h; try done; destruct (Nat.eqb_spec r 0); try done; split_and!; try done; lia.
  - intros H. split; intros i c Hi; destruct (H i c Hi) as (H1 & H2 & H3); unfold awaited_by, held_by; rewrite ?H2, ?H3;
      destruct (handler c) eqn:Eh; try (rewrite (H1 ltac:(done))); by destruct (multiplexed c).
Qed.

(** ** Handlers that throw *)

(** The contexts of the two runs below. *)
Definition threw_v1 : CallContext := CC false HOver WGone 2 0 0 false 0 0.
Definition ran_and_threw : CallContext := CC true HOver WGone 2 2 0 false 0 0.

Lemma run_steps strict p q : provider_step strict p q -> forall r, rtc (provider_step strict) q r -> rtc (provider_step strict) p r.
Proof. intros H r Hr. by eapply rtc_l. Qed.

Lemma reached strict p q : p = q -> rtc (provider_step strict) p q.
Proof. by intros ->. Qed.

(** A version 1 handler that throws without running its closure keeps its slot:
    the waiter is told and returns, but the call stays in [outstanding], so [Stop]
    never reports success, and with a limit of one call the provider
    refuses every request. *)
Theorem throwing_handler_keeps_slot :
  exists p, rtc (provider_step true) (Provider_new 1) p /\ contexts p = [threw_v1] /\
    outstanding p = 1 /\ pending_count p = 0 /\ drained p = false /\ forall queued, admit_v1 queued p = None.
Proof.
  exists (PV 1 1 0 true [threw_v1] [0%nat] []). split; [|split_and!; done].
  eapply run_steps; [by apply (pv_admit_v1 _ _ (PV 1 1 1 true [CC false HQueued WComing 0 0 0 false 0 0] [0%nat] []) true)|].
  eapply run_steps; [by apply pv_work, (pv_yield _ _ 0 (CC false HQueued WComing 0 0 0 false 0 0) false)|].
  eapply run_steps; [by apply pv_work, (pv_run _ _ 0 (CC false HQueued WParkedFor 0 0 0 false 0 0))|].
  eapply run_steps; [by apply pv_work, (pv_throw _ _ 0 (CC false HRunning WParkedFor 0 0 0 false 0 0))|].
  eapply run_steps; [apply pv_work, (pv_resume _ _ 0 (CC false HOver WParkedFor 2 0 0 false 0 1)); [done|done|simpl; lia]|].
  eapply run_steps; [by apply pv_work, (pv_leave _ _ 0 (CC false HOver WResumed 2 0 0 false 0 0))|]. by apply reached.
Qed.

(** A multiplexed handler that throws after running its closure is answered
    twice: the catch block runs the closure again (which has deleted itself), and the
    two answers take [outstanding] below zero.  The counter then stands at
    2^64 - 1, and the provider refuses every further request, of either kind. *)
Theorem throw_after_done_wraps_counter limit : 1 <= limit < 2 ^ 58 ->
  exists p, rtc (provider_step false) (Provider_new limit) p /\ contexts p = [ran_and_threw] /\
    outstanding p = 2 ^ 64 - 1 /\ drained p = false /\
    forall queued, admit_v1 queued p = None /\ admit_multiplexed queued p = None.
Proof.
  intros Hl. exists (PV limit (2 ^ 64 - 1) (2 ^ 64 - 1) true [ran_and_threw] [] []).
  assert (Hm : u64 (limit * 64) = limit * 64) by (apply u64_small; lia).
  split; [|split_and!; try done; intros queued; unfold admit_v1, admit_multiplexed; cbn [open_for_calls negb orb outstanding max_calls];
    split; [|rewrite Hm]; match goal with |- context [?a >=? ?b] => destruct (a >=? b) eqn:E end; try done; to_prop; lia].
  eapply run_steps; [apply (pv_admit_mux _ _ (PV limit 1 1 true [CC true HQueued WGone 0 0 0 false 0 0] [] []) true)|].
  { unfold admit_multiplexed. cbn [open_for_calls negb orb outstanding max_calls Provider_new]. rewrite Hm.
    destruct (0 >=? limit * 64) eqn:E; [to_prop; lia|]. done. }
  eapply run_steps; [by apply pv_work, (pv_run _ _ 0 (CC true HQueued WGone 0 0 0 false 0 0))|].
  eapply run_steps; [by apply pv_work, (pv_closure _ _ 0 (CC true HRunning WGone 0 0 0 false 0 0)); [|left|]|].
  eapply run_steps; [by apply pv_work, (pv_throw _ _ 0 (CC true HRunning WGone 0 1 1 false 0 0))|].
  eapply run_steps; [apply pv_work, (pv_answer _ _ 0 (CC true HOver WGone 2 2 2 false 0 0)); [done|simpl; lia]|].
  eapply run_steps; [apply pv_work, (pv_answer _ _ 0 (CC true HOver WGone 2 2 1 false 0 0)); [done|simpl; lia]|]. by apply reached.
Qed.

(** ** Witnesses *)

Lemma executor_runs_each_task_once_witness :
  accepted (snd (Submit 7 (Executor_new 1 1))) = [7%nat] /\ (length (queue_ (snd (Submit 7 (Executor_new 1 1)))) <= 1)%nat.
Proof.
  split; [reflexivity|].
  refine (proj1 (executor_runs_each_task_once 1 1 (snd (Submit 7 (Executor_new 1 1))) ltac:(lia) _)). apply rtc_once, ex_submit.
Defined.

#[local] Existing Instance demo_format.
#[local] Existing Instance demo_laws.

Definition demo_registry : Registry := Reg [([65], Info 4 [([66], 2%nat)])] true true.

Lemma request_reaches_method_witness : exists hb c',
  handle_round (fun _ _ => true) demo_registry (Budget 100 0) (rest_conn demo_frame [1]) =
    Finished (CallMultiplexed 4 2 [10; 11; 12] 7, hb) c' /\ incoming c' = [1].
Proof.
  destruct (request_reaches_method 4 [65] [([66], 2%nat)] [66] 2 (Reg [] false false) (Reg [([65], Info 4 [([66], 2%nat)])] false false)
    demo_registry (fun _ _ => true) [10; 11; 12] 7 demo_frame 0 [1] (Budget 100 0) (rest_conn demo_frame [1])
    eq_refl eq_refl eq_refl eq_refl demo_frame_ok (rest_conn_at_rest _ _) (rest_conn_incoming _ _) (Z.le_refl 0) demo_frame_fits)
    as (hb & c' & E & _ & H).
  exists hb, c'. by split.
Defined.

Definition demo_provider : Provider := PV 1 1 1 true [CC false HQueued WComing 0 0 0 false 0 0] [0%nat] [].
Lemma demo_provider_reachable : rtc (provider_step true) (Provider_new 1) demo_provider.
Proof. apply rtc_once. by apply (pv_admit_v1 _ _ _ true). Qed.

Lemma provider_counts_calls_witness : outstanding demo_provider = u64 (Z.of_nat (total held_by (contexts demo_provider))).
Proof. exact (proj1 (provider_counts_calls 1 demo_provider demo_provider_reachable)). Defined.

Lemma drained_means_quiet_witness : drained demo_provider = false /\ ~ (forall i c, contexts demo_provider !! i = Some c ->
  (handler c <> HRefused -> runs c = 1%nat) /\ answers c = 0%nat /\ waiter c = WGone).
Proof.
  split; [reflexivity|]. intros H. apply (drained_means_quiet 1 demo_provider demo_provider_reachable) in H; [discriminate H|simpl; lia].
Defined.

Lemma throw_after_done_wraps_counter_witness : exists p, rtc (provider_step false) (Provider_new 1) p /\ outstanding p = 2 ^ 64 - 1.
Proof. destruct (throw_after_done_wraps_counter 1 ltac:(lia)) as (p & Hr & _ & Ho & _). by exists p. Defined.
