(* ===== verification/RpcCalls.v ===== *)
(** * Whole calls (src/rpc.cpp)

    The preparation of a call in [Channel::CallMethod], the loop of
    [Provider::State::Handle] over the requests of one connection, and the two
    ends put together: what the caller gets is what the service answered. *)

From S2P Require Import Prelude Net NetProofs Codec CodecProofs RpcClient RpcClientProofs RpcServer RpcServerProofs.

(** ** [Provider::State::Handle] *)

(** What happens to a call outside the connection's fiber: whether the provider
    and the executor take it ([admitted]; for a version 1 call a full executor
    shows as [completed = false]), whether it ends with outcome 1, whether the
    connection was closed and the provider still accepts when the fiber goes on,
    whether it accepts when the next round begins, and the response's
    [ByteSizeLong] and [SerializeToString]. *)
Record call_answer := CallAnswer {
  admitted : bool;
  completed : bool;
  closed_meanwhile : bool;
  still_accepting : bool;
  accepting_next : bool;
  byte_size : nat;
  response : option (list Z) }.

(** The end of a version 1 round after the yield: the response is reserved and
    written under the write mutex, first the length, then the payload.  [true]:
    the loop goes on. *)
Definition answer_v1 (ans : call_answer) (held : Z) (b : budget) (c : Connection) : progress (bool * (Z * budget)) :=
  if negb (completed ans) || closed_ c || negb (still_accepting ans) then Finished (false, (held, b)) c
  else if Z.of_nat (byte_size ans) >? kMaxMessage then Finished (false, (held, b)) c
  else
    match reserve (Z.of_nat (byte_size ans)) held b with
    | None => Finished (false, (held, b)) c
    | Some (held, b) =>
        match response ans with
        | None => Finished (false, (held, b)) c
        | Some payload =>
            if len payload >? kMaxMessage then Finished (false, (held, b)) c
            else
              match WriteAll (htonl_bytes (u32 (len payload))) c with
              | InProgress => InProgress
              | Finished (Some _) c => Finished (false, (held, b)) c
              | Finished None c =>
                  match WriteAll payload c with
                  | InProgress => InProgress
                  | Finished (Some _) c => Finished (false, (held, b)) c
                  | Finished None c => Finished (true, (held, b)) c
                  end
              end
        end
    end.

Section calls.
Context `{HL : HeaderLaws}.

Definition next_registry (ans : call_answer) (r : Registry) : Registry := if accepting_next ans then r else Provider_Stop r.

(** The loop, one [call_answer] per call; a call whose answer is not there yet is
    in progress.  The reservation of a round ends with it, whichever way it is
    left.  The answer of a multiplexed call is sent by another fiber. *)
Fixpoint Handle (parse_args : nat -> list Z -> bool) (answers : list call_answer) (r : Registry) (b : budget) (c : Connection)
    : progress budget :=
  match handle_round parse_args r b c with
  | InProgress => InProgress
  | Finished (Break, (held, b)) c => Finished (release held b) c
  | Finished (CallV1 _ _ _, (held, b)) c =>
      match answers with
      | [] => InProgress
      | ans :: answers =>
          if negb (admitted ans) then Finished (release held b) c
          else
            match answer_v1 ans held b (if closed_meanwhile ans then set_closed true c else c) with
            | InProgress => InProgress
            | Finished (false, (held, b)) c => Finished (release held b) c
            | Finished (true, (held, b)) c => Handle parse_args answers (next_registry ans r) (release held b) c
            end
      end
  | Finished (CallMultiplexed _ _ _ _, (held, b)) c =>
      match answers with
      | [] => InProgress
      | ans :: answers =>
          if negb (admitted ans) then Finished (release held b) c
          else Handle parse_args answers (next_registry ans r) (release held b)
                 (if closed_meanwhile ans then set_closed true c else c)
      end
  end.

(** *** What the loop reserves it gives back *)

(** A connection after reads: its flags and its wire are the same, and bytes are
    gone from the front of what came in. *)
Definition reads (c c' : Connection) : Prop :=
  reading_ c' = false /\ writing_ c' = writing_ c /\ wire c' = wire c /\ exists k, incoming c' = drop k (incoming c).

Lemma reads_trans c1 c2 c3 : reads c1 c2 -> reads c2 c3 -> reads c1 c3.
Proof.
  intros (_ & H2 & H3 & k & H4) (G1 & G2 & G3 & j & G4). split_and!; [done|congruence|congruence|].
  exists (k + j)%nat. by rewrite G4, H4, drop_drop.
Qed.

Lemma reads_refl c : reading_ c = false -> reads c c.
Proof. intros Hr. split_and!; [done|done|done|]. by exists 0%nat. Qed.

Lemma ReadExact_reads size c r c' : reading_ c = false -> ReadExact size c = Finished r c' -> reads c c'.
Proof.
  intros Hr (Hr' & Hw & Hwr & Hx)%ReadExact_spec; [|done]. split_and!; [done|done|done|].
  destruct r as [bytes|e]; [exists size; naive_solver|]. destruct Hx as (k & _ & Hx). by exists k.
Qed.

Lemma ReadVarint32_loop_reads todo : forall v c r c', reading_ c = false -> ReadVarint32_loop todo v c = Finished r c' -> reads c c'.
Proof.
  induction todo as [|i todo IH]; intros v c r c' Hr E; cbn [ReadVarint32_loop] in E.
  - injection E as _ <-. by apply reads_refl.
  - destruct (ReadExact 1 c) as [[l|e] c1|] eqn:E1; [|by injection E as _ <-; eapply ReadExact_reads|done].
    apply ReadExact_reads in E1; [|done]. destruct (_ && _); [by injection E as _ <-|].
    destruct (_ =? 0); [by injection E as _ <-|]. eapply reads_trans; [exact E1|]. eapply IH; [apply E1|done].
Qed.

Lemma read_request_reads b c r c' : reading_ c = false -> read_request b c = Finished r c' -> reads c c'.
Proof.
  intros Hr E. unfold read_request in E.
  destruct (ReadVarint32 c) as [[hs|e] c1|] eqn:E1; [| |done]; apply ReadVarint32_loop_reads in E1; try done;
    [|by injection E as _ <-].
  destruct (_ || _); [by injection E as _ <-|]. destruct (reserve hs 0 b) as [[held b1]|]; [|by injection E as _ <-].
  destruct (ReadExact _ c1) as [[hd|e] c2|] eqn:E2; [| |done];
    (apply ReadExact_reads in E2; [|apply E1]); pose proof (reads_trans _ _ _ E1 E2) as E12; [|by injection E as _ <-].
  destruct (parse hd) as [h|]; [|by injection E as _ <-]. destruct (_ >? _); [by injection E as _ <-|].
  destruct (reserve _ held b1) as [[held2 b2]|]; [|by injection E as _ <-]. destruct (_ =? 0); [by injection E as _ <-|].
  destruct (ReadExact _ c2) as [[args|e] c3|] eqn:E3; [| |done];
    (apply ReadExact_reads in E3; [|apply E2]); pose proof (reads_trans _ _ _ E12 E3); by injection E as _ <-.
Qed.

Lemma handle_round_spec parse_args r b c res held b' c' :
  reading_ c = false -> are_bytes (incoming c) -> 0 <= buffered_bytes b <= max_buffered_bytes b ->
  handle_round parse_args r b c = Finished (res, (held, b')) c' ->
  release held b' = b /\ 0 <= held /\ buffered_bytes b' <= max_buffered_bytes b /\ reads c c'.
Proof.
  intros Hr Hb Hbud E. unfold handle_round in E. destruct (_ || _).
  - injection E as _ <- <- <-. split_and!; [by apply release_spec; [|lia]|lia|lia|by apply reads_refl].
  - destruct (read_request b c) as [[q [h1 b1]] c1|] eqn:E1; [|done].
    pose proof (read_request_reads _ _ _ _ Hr E1) as Hrd.
    apply read_request_spec in E1 as (H1 & H2 & H3 & _); [|done..].
    assert (held = h1 /\ b' = b1 /\ c' = c1) as (-> & -> & ->); [|done].
    destruct q as [[h args]|]; [|naive_solver]. destruct (find_method r h) as [[svc m]|]; [|naive_solver].
    destruct (negb _); [naive_solver|]. destruct (request_id h =? 0); naive_solver.
Qed.

(** A connection after a write. *)
Definition writes (c c' : Connection) : Prop :=
  reading_ c' = reading_ c /\ writing_ c' = false /\ incoming c' = incoming c.

Lemma WriteAll_writes buffer c r c' : writing_ c = false -> WriteAll buffer c = Finished r c' -> writes c c'.
Proof. intros Hw (H1 & H2 & H3 & _)%WriteAll_spec; [|done]. by split_and!. Qed.

Lemma answer_v1_spec ans held b c ok held' b' c' :
  writing_ c = false -> answer_v1 ans held b c = Finished (ok, (held', b')) c' ->
  release held' b' = release held b /\ writes c c'.
Proof.
  intros Hw E. unfold answer_v1 in E. assert (writes c c) as Hc by done.
  destruct (_ || _ || _); [by injection E as <- <- <- <-|]. destruct (_ >? _); [by injection E as <- <- <- <-|].
  destruct (reserve _ held b) as [[held1 b1]|] eqn:Er; [|by injection E as <- <- <- <-].
  apply reserve_spec in Er as (-> & Hm & Hb & _); [|lia].
  assert (release (held + Z.of_nat (byte_size ans)) b1 = release held b) as Hrel
    by (unfold release; rewrite Hm, Hb; f_equal; lia).
  destruct (response ans) as [payload|]; [|by injection E as <- <- <- <-]. destruct (_ >? _); [by injection E as <- <- <- <-|].
  destruct (WriteAll _ c) as [[e|] c1|] eqn:E1; [| |done]; (apply WriteAll_writes in E1; [|done]); [by injection E as <- <- <- <-|].
  destruct (WriteAll payload c1) as [[e|] c2|] eqn:E2; [| |done]; (apply WriteAll_writes in E2; [|apply E1]);
    injection E as <- <- <- <-; (split; [done|]); destruct E1 as (? & ? & ?), E2 as (? & ? & ?); split_and!; congruence.
Qed.

(** The buffered bytes of a connection.  However a connection's peer, its
    calls and the end of its service turn out, when [Handle] returns the
    provider's count of buffered bytes is what it was before the connection was
    served, in both modes and on every path out of the loop. *)
Theorem handled_connection_returns_bytes parse_args answers r b c b' c' :
  reading_ c = false -> writing_ c = false -> are_bytes (incoming c) -> 0 <= buffered_bytes b <= max_buffered_bytes b ->
  Handle parse_args answers r b c = Finished b' c' -> b' = b.
Proof.
  revert r b c. induction answers as [|ans answers IH]; intros r b c Hr Hw Hb Hbud E; cbn [Handle] in E;
    destruct (handle_round parse_args r b c) as [[res [held b1]] c1|] eqn:E1; try done;
    apply handle_round_spec in E1 as (Hrel & _ & _ & Hr1 & Hw1 & _ & k & Hi1); try done;
    (destruct res; [injection E as <- <-; done|..]); try done.
  - destruct (negb _); [by injection E as <- <-|].
    set (c2 := if closed_meanwhile ans then set_closed true c1 else c1) in E.
    assert (reading_ c2 = false /\ writing_ c2 = false /\ incoming c2 = drop k (incoming c)) as (Hr2 & Hw2 & Hi2)
      by (unfold c2; destruct (closed_meanwhile ans); simpl; split_and!; congruence).
    destruct (answer_v1 ans held b1 c2) as [[ok [held2 b2]] c3|] eqn:E2; [|done].
    apply answer_v1_spec in E2 as (Hrel2 & Hr3 & Hw3 & Hi3); [|done]. rewrite Hrel in Hrel2. rewrite Hrel2 in E.
    destruct ok; [|by injection E as <- <-].
    eapply IH in E; [done|congruence|done| |done]. rewrite Hi3, Hi2. by apply Forall_drop.
  - destruct (negb _); [by injection E as <- <-|]. rewrite Hrel in E.
    eapply IH in E; [done|..|done]; destruct (closed_meanwhile ans); simpl; try done; try congruence;
      rewrite Hi1; by apply Forall_drop.
Qed.

(** *** Requests are answered in order *)

(** A version 1 request to a registered method and the response of its service. *)
Record served_call := Served {
  s_service : list Z;
  s_method : list Z;
  s_args : list Z;
  s_frame : list Z;
  s_payload : list Z }.

Definition response_bytes (q : served_call) : list Z := htonl_bytes (len (s_payload q)) ++ s_payload q.

(** [more]: whether the provider still accepts requests afterwards. *)
Definition answer_of_call (more : bool) (q : served_call) : call_answer :=
  CallAnswer true true false true more (length (s_payload q)) (Some (s_payload q)).

(** The frame is the one [CallMethod] builds, the registry has the method, the
    service can parse the arguments, and both messages fit. *)
Definition servable (parse_args : nat -> list Z -> bool) (r : Registry) (b : budget) (q : served_call) : Prop :=
  encode_request (s_service q) (s_method q) (Some (s_args q)) 0 = inr (s_frame q) /\
  (exists svc m, find_method r (Header (s_service q) (s_method q) (len (s_args q)) 0 []) = Some (svc, m) /\ parse_args m (s_args q) = true) /\
  len (s_payload q) <= kMaxMessage /\
  buffered_bytes b + len (s_frame q) + len (s_payload q) <= max_buffered_bytes b.

Definition transfers (q : served_call) : nat := length (s_frame q) + length (response_bytes q).

Lemma answer_v1_sends more q held b c k :
  at_rest (length (response_bytes q) + k) c -> writing_ c = false -> len (s_payload q) <= kMaxMessage ->
  0 <= buffered_bytes b -> buffered_bytes b + len (s_payload q) <= max_buffered_bytes b ->
  exists held' b' c', answer_v1 (answer_of_call more q) held b c = Finished (true, (held', b')) c' /\
    release held' b' = release held b /\ at_rest k c' /\ writing_ c' = false /\
    incoming c' = incoming c /\ wire c' = wire c ++ response_bytes q.
Proof.
  intros Hc Hw Hp Hb0 Hb. pose proof (len_nonneg (s_payload q)) as Hlen. unfold response_bytes in *. rewrite length_app in Hc.
  unfold answer_v1. cbn [completed still_accepting byte_size response answer_of_call negb orb].
  destruct Hc as (Hr & Hcl & Hf). rewrite Hcl. cbn [orb]. fold (len (s_payload q)).
  destruct (len (s_payload q) >? kMaxMessage) eqn:Em; to_prop; [lia|].
  rewrite (reserve_ok (len (s_payload q)) held b) by lia.
  assert (u32 (len (s_payload q)) = len (s_payload q)) as -> by (apply wrap_small; unfold kMaxMessage in Hp; lia).
  destruct (WriteAll_friendly (htonl_bytes (len (s_payload q))) (length (s_payload q) + k) c) as (c1 & E1 & Hc1 & Hw1 & Hi1 & Hwire1);
    [by rewrite Nat.add_assoc|done|].
  destruct (WriteAll_friendly (s_payload q) k c1 Hc1 Hw1) as (c2 & E2 & Hc2 & Hw2 & Hi2 & Hwire2).
  rewrite E1, E2. eexists _, _, _. split; [done|]. split_and!; [|done|done|congruence|].
  - unfold release. simpl. f_equal. lia.
  - by rewrite Hwire2, Hwire1, <- app_assoc.
Qed.

Lemma Handle_round_v1 parse_args more answers r b q k rest c :
  accepting r = true -> servable parse_args r b q -> 0 <= buffered_bytes b ->
  at_rest (transfers q + k) c -> writing_ c = false -> are_bytes (incoming c) -> incoming c = s_frame q ++ rest ->
  exists c', Handle parse_args (answer_of_call more q :: answers) r b c =
      Handle parse_args answers (if more then r else Provider_Stop r) b c' /\
    wire c' = wire c ++ response_bytes q /\ incoming c' = rest /\ at_rest k c' /\ writing_ c' = false.
Proof.
  intros Hacc (He & (svc & m & Hf & Hp) & Hlen & Hbud) Hb0 Hc Hw Hbytes Hin. pose proof (len_nonneg (s_payload q)). pose proof (len_nonneg (s_frame q)).
  unfold transfers in Hc. rewrite <- Nat.add_assoc in Hc. pose proof (proj1 Hc) as Hr.
  destruct (handle_round_frame r _ _ svc m parse_args _ 0 _ _ rest b c Hacc Hf Hp He Hc Hin Hb0 ltac:(lia))
    as (held & b1 & c1 & E1 & Hc1 & Hi1 & Hheld & Hb1).
  pose proof E1 as (Hrel & Hh0 & _ & _ & Hw1 & Hwire1 & _)%handle_round_spec; [|done|done|lia].
  assert (max_buffered_bytes b1 = max_buffered_bytes b) as Hm by (rewrite <- Hrel; done).
  destruct (answer_v1_sends more q held b1 c1 k Hc1 ltac:(congruence) Hlen ltac:(lia) ltac:(lia))
    as (held' & b2 & c2 & E2 & Hrel2 & Hc2 & Hw2 & Hi2 & Hwire2).
  exists c2. cbn [Handle]. rewrite E1. cbn [Z.eqb negb admitted closed_meanwhile answer_of_call]. fold (answer_of_call more q).
  rewrite E2, Hrel2, Hrel. split_and!; [done| |congruence|done|done]. congruence.
Qed.

Lemma Handle_rounds_v1 parse_args qs : forall answers r b k rest c,
  accepting r = true -> Forall (servable parse_args r b) qs -> 0 <= buffered_bytes b ->
  at_rest (sum_list_with transfers qs + k) c -> writing_ c = false -> are_bytes (incoming c) ->
  incoming c = mjoin (s_frame <$> qs) ++ rest ->
  exists c', Handle parse_args ((answer_of_call true <$> qs) ++ answers) r b c = Handle parse_args answers r b c' /\
    wire c' = wire c ++ mjoin (response_bytes <$> qs) /\ incoming c' = rest /\ at_rest k c' /\ writing_ c' = false.
Proof.
  induction qs as [|q qs IH]; intros answers r b k rest c Hacc Hqs Hb Hc Hw Hbytes Hin.
  - exists c. simpl. by rewrite app_nil_r.
  - apply Forall_cons_1 in Hqs as [Hq Hqs]. simpl in Hc, Hin. rewrite <- Nat.add_assoc in Hc. rewrite <- app_assoc in Hin.
    destruct (Handle_round_v1 parse_args true ((answer_of_call true <$> qs) ++ answers) r b q _ _ c Hacc Hq Hb Hc Hw Hbytes Hin)
      as (c1 & E1 & Hwire1 & Hi1 & Hc1 & Hw1).
    rewrite Hin in Hbytes. apply Forall_app in Hbytes as [_ Hbytes].
    destruct (IH answers r b k rest c1) as (c2 & E2 & Hwire2 & Hi2 & Hc2 & Hw2); [done..|by rewrite Hi1|done|].
    exists c2. split_and!; [|by rewrite Hwire2, Hwire1, <- app_assoc|done..].
    etrans; [exact E1|exact E2].
Qed.

(** A provider that was stopped leaves the loop at once. *)
Lemma Handle_stopped parse_args answers r b c : Handle parse_args answers (Provider_Stop r) b c = Finished b c.
Proof. destruct answers; simpl; unfold release; rewrite Z.sub_0_r; by destruct b. Qed.

(** C24. Pipelined calls.  A provider answers the version 1 requests of a connection
    one after the other, until it is stopped: whatever the sizes in which the
    bytes come in and go out, [Handle] returns after the requests [qs] and [q]
    with exactly the responses to them, in their order, added to the wire, the
    count of buffered bytes as it was, and what follows them not read. *)
Theorem pipelined_calls_answered_in_order parse_args qs q answers r b rest c :
  accepting r = true -> Forall (servable parse_args r b) (qs ++ [q]) -> 0 <= buffered_bytes b ->
  at_rest (sum_list_with transfers (qs ++ [q])) c -> writing_ c = false -> are_bytes (incoming c) ->
  incoming c = mjoin (s_frame <$> (qs ++ [q])) ++ rest ->
  exists c', Handle parse_args ((answer_of_call true <$> qs) ++ answer_of_call false q :: answers) r b c = Finished b c' /\
    wire c' = wire c ++ mjoin (response_bytes <$> (qs ++ [q])) /\ incoming c' = rest.
Proof.
  intros Hacc Hqs Hb Hc Hw Hbytes Hin. apply Forall_app in Hqs as [Hqs Hq]. apply Forall_cons_1 in Hq as [Hq _].
  rewrite sum_list_with_app in Hc. rewrite fmap_app, join_app in Hin. simpl in Hin. rewrite app_nil_r, <- app_assoc in Hin.
  destruct (Handle_rounds_v1 parse_args qs (answer_of_call false q :: answers) r b _ _ c Hacc Hqs Hb Hc Hw Hbytes Hin)
    as (c1 & E1 & Hwire1 & Hi1 & Hc1 & Hw1).
  rewrite Hin in Hbytes. apply Forall_app in Hbytes as [_ Hbytes]. rewrite <- Hi1 in Hbytes.
  destruct (Handle_round_v1 parse_args false answers r b q 0 rest c1 Hacc Hq Hb Hc1 Hw1 Hbytes Hi1) as (c2 & E2 & Hwire2 & Hi2 & _).
  exists c2. split_and!; [|by rewrite Hwire2, Hwire1, <- app_assoc, fmap_app, join_app; simpl; rewrite app_nil_r|done].
  rewrite E1, E2. apply Handle_stopped.
Qed.

(** C12. A remote call is a call of the service.  The frame a version 1 [CallMethod]
    writes makes the provider's loop put [response_bytes] on the wire and return,
    when it is stopped then; and the caller that receives those bytes returns the
    service's response.  Both connections are then at the next frame. *)
Theorem version1_call_returns_response parse_args parse_response answers r b q rest rest' server client connect :
  accepting r = true -> servable parse_args r b q -> 0 <= buffered_bytes b ->
  at_rest (transfers q) server -> writing_ server = false -> are_bytes (incoming server) -> incoming server = s_frame q ++ rest ->
  at_rest (transfers q) client -> writing_ client = false -> incoming client = response_bytes q ++ rest' ->
  parse_response (s_payload q) = true ->
  exists server' client',
    Handle parse_args (answer_of_call false q :: answers) r b server = Finished b server' /\
    wire server' = wire server ++ response_bytes q /\ incoming server' = rest /\
    exchange true (s_service q) (s_method q) (Some (s_args q)) connect parse_response (Some client) =
      Some (inr (s_payload q), Some client') /\
    wire client' = wire client ++ s_frame q /\ incoming client' = rest'.
Proof.
  intros Hacc Hq Hb Hs Hws Hbytes Hin Hc Hwc Hinc Hpr. rewrite <- (Nat.add_0_r (transfers q)) in Hs, Hc.
  destruct (Handle_round_v1 parse_args false answers r b q 0 rest server Hacc Hq Hb Hs Hws Hbytes Hin) as (s' & E & Hwire & Hi & _).
  destruct Hq as (He & _ & Hlen & _).
  unfold transfers in Hc. rewrite <- Nat.add_assoc in Hc.
  destruct (WriteAll_friendly (s_frame q) _ client Hc Hwc) as (c1 & E1 & Hc1 & Hw1 & Hi1 & Hwire1).
  destruct (response_v1_roundtrip (s_payload q) (response_bytes q) 0 rest' c1) as (_ & c2 & E2 & Hc2 & Hi2); [|done|congruence|].
  { unfold encode_response_v1. destruct (len (s_payload q) >? kMaxMessage) eqn:Em; to_prop; [lia|done]. }
  assert (wire c2 = wire c1) as Hwire2.
  { apply read_response_v1_spec in E2; [|apply Hc1]. naive_solver. }
  exists s', c2. split_and!; [by rewrite E, Handle_stopped|done|done| |congruence|done].
  unfold exchange. cbn [negb]. rewrite He. destruct Hc as (_ & Hcl & _). rewrite Hcl. cbn [negb]. by rewrite E1, E2, Hpr.
Qed.

(** ** Multiplexed calls *)

(** The beginning of a multiplexed [CallMethod], up to the frame: the request is
    serialised before the id is drawn, the header after it. *)
Definition prepare_multiplexed (on_owner : bool) (service method : list Z) (args : option (list Z)) (s : Mux)
    : (call_error + Z * list Z) * Mux :=
  if negb on_owner then (inl WrongThread, s)
  else
    match args with
    | None => (inl RequestFailure, s)
    | Some a =>
        if len a >? kMaxMessage then (inl RequestFailure, s)
        else
          let '(id, s) := issue_id s in
          match encode_request service method args id with
          | inl e => (inl e, s)
          | inr frame => (inr (id, frame), s)
          end
    end.

(** C25. A multiplexed call comes back to its caller.  The frame of a prepared call
    carries an id that is not 0 and that no later call gets; the provider
    dispatches it, under that id, to the method it names with its argument bytes;
    and what the provider sends back for the service's response is read by the
    channel as one frame with that id, no error text and that payload. *)
Theorem multiplexed_call_returns_response parse_args service method a s id frame s' r svc m b k rest server
    payload encoded k' rest' reader :
  0 < next_request_id s < 2 ^ 64 - 1 ->
  prepare_multiplexed true service method (Some a) s = (inr (id, frame), s') ->
  accepting r = true -> find_method r (Header service method (len a) id []) = Some (svc, m) -> parse_args m a = true ->
  at_rest (length frame + k) server -> incoming server = frame ++ rest ->
  0 <= buffered_bytes b -> buffered_bytes b + len frame <= max_buffered_bytes b ->
  len payload <= kMaxMessage -> ser (response_header 1 (Some payload) id) = Some encoded -> 0 < len encoded <= kMaxHeader ->
  at_rest (length (encode_response 1 (Some payload) id) + k') reader ->
  incoming reader = encode_response 1 (Some payload) id ++ rest' ->
  (id <> 0 /\ id < next_request_id s') /\
  (exists hb server', handle_round parse_args r b server = Finished (CallMultiplexed svc m a id, hb) server' /\ incoming server' = rest) /\
  (exists h reader', read_response reader = Finished (Frame h payload) reader' /\ request_id h = id /\ error h = [] /\ incoming reader' = rest').
Proof.
  intros Hs Hprep Hacc Hf Hp Hc Hin Hb0 Hb Hlen Hser Henc Hrd Hrin. unfold prepare_multiplexed in Hprep. cbn [negb] in Hprep.
  destruct (len a >? kMaxMessage); [done|]. rewrite issue_id_spec in Hprep by done.
  destruct (encode_request service method (Some a) (next_request_id s)) as [e|f] eqn:He; [done|].
  injection Hprep as <- <- <-. set (id := next_request_id s) in *.
  assert (response_error 1 (Some payload) = []) as Herr
    by (unfold response_error; simpl; destruct (len payload >? kMaxMessage) eqn:E; to_prop; [lia|done]).
  split; [simpl; lia|]. split.
  - destruct (handle_round_frame r service method svc m parse_args a id f k rest b server) as (held & b' & c' & E & _ & Hi & _); try done.
    destruct (Z.eqb_spec id 0); [lia|]. by exists (held, b'), c'.
  - unfold encode_response in Hrd, Hrin. rewrite Hser, Herr in Hrd, Hrin. simpl in Hrd, Hrin.
    destruct (read_response_exactly (response_header 1 (Some payload) id) encoded payload rest' k' reader) as (c' & E & _ & Hi); try done.
    { unfold response_header. rewrite Herr. simpl. apply wrap_small. unfold kMaxMessage in Hlen. unfold len in *. lia. }
    exists (response_header 1 (Some payload) id), c'. split_and!; [done|done| |done]. unfold response_header. by rewrite Herr.
Qed.

(** ** Only bytes are sent *)

Lemma frame_of_bytes encoded body : len encoded < 2 ^ 32 -> are_bytes encoded -> are_bytes body -> are_bytes (frame_of encoded body).
Proof.
  intros Hl He Hb. unfold frame_of. apply Forall_app. split; [|by apply Forall_app].
  apply EncodeVarint32_are_bytes, wrap_range. lia.
Qed.

Lemma htonl_are_bytes n : are_bytes (htonl_bytes n).
Proof. unfold htonl_bytes. repeat constructor; rewrite land_255; apply Z.mod_pos_bound; lia. Qed.

(** C38. What goes on the wire are bytes.  When the generated serialiser leaves
    bytes, every element of a request's frame, of a multiplexed response's frame
    and of a version 1 response is a byte, and a request's frame, prefix
    included, has at most 64 MiB. *)
Theorem frames_are_bytes service method a id frame outcome payload :
  (forall h l, ser h = Some l -> are_bytes l) -> are_bytes a -> are_bytes payload ->
  encode_request service method (Some a) id = inr frame ->
  len (default [] (ser (response_header outcome (Some payload) id))) < 2 ^ 32 ->
  (are_bytes frame /\ 1 < len frame <= kMaxMessage) /\
  are_bytes (encode_response outcome (Some payload) id) /\
  (forall bytes, encode_response_v1 payload = Some bytes -> are_bytes bytes).
Proof.
  intros Hser Ha Hp He Hlen. split_and!.
  - apply encode_request_inv in He as (a' & encoded & [= <-] & Es & He & Hl & ->).
    apply frame_of_bytes; [unfold kMaxHeader in He; lia|by eapply Hser|done].
  - apply encode_request_inv in He as (a' & encoded & [= <-] & Es & He & Hl & ->). unfold frame_of. rewrite !len_app.
    pose proof (EncodeVarint32_length (u32 (len encoded))). pose proof (len_nonneg a). unfold len at 1. lia.
  - apply encode_request_inv in He as (a' & encoded & [= <-] & Es & He & Hl & ->). unfold frame_of. rewrite !len_app.
    pose proof (EncodeVarint32_length (u32 (len encoded))). pose proof (len_nonneg a). unfold len at 1. lia.
  - unfold encode_response. apply frame_of_bytes; [done| |].
    + destruct (ser _) as [l|] eqn:E; [by eapply Hser|by constructor].
    + case_bool_decide; [done|by constructor].
  - intros bytes. unfold encode_response_v1. destruct (_ >? _); [done|]. intros E. assert (bytes = htonl_bytes (len payload) ++ payload) as -> by congruence.
    apply Forall_app. split; [apply htonl_are_bytes|done].
Qed.
End calls.

(** ** Witnesses *)

#[local] Existing Instance demo_format.
#[local] Existing Instance demo_laws.

Definition demo_call : served_call :=
  Served [65] [66] [10; 11; 12]
    (match encode_request [65] [66] (Some [10; 11; 12]) 0 with inr frame => frame | inl _ => [] end) [5; 6].

Lemma demo_call_servable : servable (fun _ _ => true) demo_registry (Budget 100 0) demo_call.
Proof.
  split_and!; [vm_compute; reflexivity|by exists 4%nat, 2%nat|vm_compute; discriminate|vm_compute; discriminate].
Qed.

(** A connection on which [bytes] come in and [n] transfers take place. *)
Definition ready_conn (bytes : list Z) (n : nat) (more : list answer) : Connection :=
  Conn false false false bytes [] (repeat (Ready 0) n ++ more).

Lemma ready_conn_at_rest bytes n more : at_rest n (ready_conn bytes n more).
Proof. split_and!; [done|done|]. simpl. induction n; simpl; by constructor. Qed.

Lemma demo_bytes : are_bytes (s_frame demo_call).
Proof. vm_compute. repeat constructor; done. Qed.

Lemma handled_connection_returns_bytes_witness : exists b' c',
  Handle (fun _ _ => true) [answer_of_call true demo_call] demo_registry (Budget 100 0)
    (ready_conn (s_frame demo_call) (transfers demo_call) [Eof]) = Finished b' c' /\ b' = Budget 100 0.
Proof.
  destruct (Handle _ _ _ _ _) as [b' c'|] eqn:E; [|vm_compute in E; discriminate E].
  exists b', c'. split; [reflexivity|].
  apply (handled_connection_returns_bytes _ _ _ (Budget 100 0) (ready_conn (s_frame demo_call) (transfers demo_call) [Eof]) _ _ eq_refl eq_refl demo_bytes (conj (Z.le_refl 0) (proj1 (Z.leb_le 0 100) eq_refl)) E).
Defined.

Lemma pipelined_calls_answered_in_order_witness : exists c',
  Handle (fun _ _ => true) [answer_of_call true demo_call; answer_of_call false demo_call] demo_registry (Budget 100 0)
    (ready_conn (s_frame demo_call ++ s_frame demo_call) (transfers demo_call + transfers demo_call) []) =
  Finished (Budget 100 0) c' /\ wire c' = [0; 0; 0; 2; 5; 6; 0; 0; 0; 2; 5; 6].
Proof.
  destruct (pipelined_calls_answered_in_order (fun _ _ => true) [demo_call] demo_call [] demo_registry (Budget 100 0) []
    (ready_conn (s_frame demo_call ++ s_frame demo_call) (transfers demo_call + transfers demo_call) [])) as (c' & E & Hw & _).
  - reflexivity.
  - repeat constructor; apply demo_call_servable.
  - apply Z.le_refl.
  - exact (ready_conn_at_rest _ (transfers demo_call + transfers demo_call) _).
  - reflexivity.
  - apply Forall_app. split; apply demo_bytes.
  - reflexivity.
  - exists c'. split; [exact E|]. rewrite Hw. vm_compute. reflexivity.
Defined.

Lemma version1_call_returns_response_witness : exists client',
  exchange true [65] [66] (Some [10; 11; 12]) (inl 0) (fun _ => true) (Some (ready_conn [0; 0; 0; 2; 5; 6] (transfers demo_call) [])) =
    Some (inr [5; 6], Some client') /\ wire client' = s_frame demo_call.
Proof.
  destruct (version1_call_returns_response (fun _ _ => true) (fun _ => true) [] demo_registry (Budget 100 0) demo_call [] []
    (ready_conn (s_frame demo_call) (transfers demo_call) []) (ready_conn [0; 0; 0; 2; 5; 6] (transfers demo_call) []) (inl 0))
    as (server' & client' & _ & _ & _ & E & Hw & _).
  - reflexivity.
  - apply demo_call_servable.
  - apply Z.le_refl.
  - apply ready_conn_at_rest.
  - reflexivity.
  - apply demo_bytes.
  - reflexivity.
  - apply ready_conn_at_rest.
  - reflexivity.
  - reflexivity.
  - reflexivity.
  - exists client'. split; [exact E|exact Hw].
Defined.

Definition demo_mux : Mux := MX 7 ∅ ∅ ∅ [].

Lemma multiplexed_call_returns_response_witness : exists h reader',
  read_response (rest_conn (encode_response 1 (Some [5; 6]) 7) []) = Finished (Frame h [5; 6]) reader' /\ request_id h = 7.
Proof.
  destruct (multiplexed_call_returns_response (fun _ _ => true) [65] [66] [10; 11; 12] demo_mux 7 demo_frame (MX 8 ∅ ∅ ∅ [])
    demo_registry 4 2 (Budget 100 0) 0 [1] (rest_conn demo_frame [1]) [5; 6] [2; 7; 0; 0] 0 []
    (rest_conn (encode_response 1 (Some [5; 6]) 7) [])) as (_ & _ & h & c' & E & Hid & _).
  - split; reflexivity.
  - vm_compute. reflexivity.
  - reflexivity.
  - reflexivity.
  - reflexivity.
  - apply rest_conn_at_rest.
  - reflexivity.
  - apply Z.le_refl.
  - exact demo_frame_fits.
  - vm_compute. discriminate.
  - exact (proj1 demo_response_ok).
  - exact (proj2 demo_response_ok).
  - apply rest_conn_at_rest.
  - apply rest_conn_incoming.
  - exists h, c'. split; [exact E|exact Hid].
Defined.

(** The same header format, refused unless its numbers fit into bytes. *)
Definition byte_ser (h : RpcHeader) : option (list Z) :=
  l ← demo_ser h; if bool_decide (are_bytes l) then Some l else None.
Definition byte_format : HeaderFormat := {| ser := byte_ser; parse := demo_parse |}.

Lemma byte_ser_spec h l : byte_ser h = Some l -> demo_ser h = Some l /\ are_bytes l.
Proof.
  unfold byte_ser. destruct (demo_ser h) as [l'|]; [|done]. simpl. case_bool_decide; [|done]. by intros [= <-].
Qed.

Lemma frames_are_bytes_witness : are_bytes (s_frame demo_call) /\ are_bytes (@encode_response byte_format 1 (Some [5; 6]) 0).
Proof.
  destruct (@frames_are_bytes byte_format [65] [66] [10; 11; 12] 0 (s_frame demo_call) 1 [5; 6]) as ((H1 & _) & H2 & _).
  - intros h l [_ Hl]%byte_ser_spec. exact Hl.
  - repeat constructor; done.
  - repeat constructor; done.
  - vm_compute. reflexivity.
  - vm_compute. reflexivity.
  - split; [exact H1|exact H2].
Defined.
