(* ===== verification/RpcStop.v ===== *)
(** * Stopping a provider (src/rpc.cpp, [Provider::Stop])

    The whole of [Stop] on the calls under way, and that a provider that was
    stopped drains: it takes no further calls, the work that is left is bounded,
    and when none is left, the services having run their closures, the condition
    that [Stop] waits for holds. *)

From S2P Require Import Prelude RpcServer RpcServerProofs.

(** [Stop] up to the wait: the lock region that ends admission and takes the list
    of version 1 calls, then [Finish(2)] of each call of the list. *)
Definition finish_collected (p : Provider) (i : nat) : Provider :=
  match contexts p !! i with
  | Some c => stop_finish i c p
  | None => p
  end.
Definition Stop_regions (p : Provider) : Provider := fold_left finish_collected (pending_list p) (stop_calls p).

(** [drained.wait_for]: [Stop] answers what the condition is when the wait ends,
    at the latest at the deadline; [looks] are the states it looks at. *)
Fixpoint wait_for (looks : list Provider) : bool :=
  match looks with
  | [] => false
  | p :: looks' => drained p || wait_for looks'
  end.

(** ** A stopped provider takes no calls *)

Lemma work_step_kept strict p p' :
  work_step strict p p' -> open_for_calls p' = open_for_calls p /\ pending_list p' = pending_list p /\
  length (contexts p') = length (contexts p).
Proof.
  intros Hs. destruct Hs; simpl; rewrite ?length_insert; try done.
  - unfold run_closure, DoneClosure_Run, MultiplexDoneClosure_Run. destruct (multiplexed c); simpl; by rewrite length_insert.
  - unfold handler_throws, catch_v1, catch_multiplexed, MultiplexDoneClosure_Run. destruct (multiplexed c); simpl; by rewrite length_insert.
Qed.

Lemma stopped_step strict p p' :
  provider_step strict p p' -> open_for_calls p = false ->
  open_for_calls p' = false /\ length (contexts p') = length (contexts p).
Proof.
  intros Hs Ho. destruct Hs as [p p' q E|p p' q E|p|p p' Hw]; [..|done|].
  - unfold admit_v1 in E. by rewrite Ho in E.
  - unfold admit_multiplexed in E. by rewrite Ho in E.
  - destruct (work_step_kept _ _ _ Hw) as (-> & _ & ->). done.
Qed.

Lemma stopped_run strict p p' :
  rtc (provider_step strict) p p' -> open_for_calls p = false ->
  open_for_calls p' = false /\ length (contexts p') = length (contexts p).
Proof.
  induction 1 as [p|p p1 p' Hs _ IH]; intros Ho; [done|].
  destruct (stopped_step _ _ _ Hs Ho) as [Ho1 Hl1]. destruct (IH Ho1) as [Ho2 Hl2]. split; [done|lia].
Qed.

Lemma finish_all_run strict l p :
  NoDup l -> l ⊆ collected p -> (forall i, i ∈ l -> is_Some (contexts p !! i)) ->
  rtc (provider_step strict) p (fold_left finish_collected l p).
Proof.
  revert p. induction l as [|i l IH]; intros p Hnd Hl Hc; [done|]. simpl. apply NoDup_cons in Hnd as [Hni Hnd].
  destruct (Hc i ltac:(left)) as [c Hi]. unfold finish_collected at 2. rewrite Hi.
  eapply rtc_l; [apply pv_work, (pv_stop_finish strict p i c Hi); apply Hl; left|].
  apply IH; [done| |].
  - intros j Hj. simpl. apply list_elem_of_filter. split; [by intros ->|]. apply Hl. by right.
  - intros j Hj. simpl. destruct (decide (j = i)) as [->|Hne]; [done|]. rewrite list_lookup_insert_ne by done. apply Hc. by right.
Qed.

(** Each call is in the list once. *)
Definition listed_once (p : Provider) : Prop :=
  NoDup (pending_list p) /\ forall i, i ∈ pending_list p -> (i < length (contexts p))%nat.

Lemma listed_once_step strict p p' : provider_step strict p p' -> listed_once p -> listed_once p'.
Proof.
  intros Hs [H1 H2]. unfold listed_once.
  assert (forall n, n = length (contexts p) -> NoDup (pending_list p ++ [n]) /\
    forall i, i ∈ pending_list p ++ [n] -> (i < length (contexts p) + 1)%nat) as Hnew.
  { intros n ->. split.
    - apply NoDup_app. split_and!; [done| |apply NoDup_singleton]. intros i Hi%H2 Hj%list_elem_of_singleton. lia.
    - intros i [Hi|Hi]%elem_of_app; [apply H2 in Hi; lia|]. apply list_elem_of_singleton in Hi. lia. }
  destruct Hs as [p p' q E|p p' q E|p|p p' Hw].
  - unfold admit_v1 in E. destruct (negb _ || _); [done|]. destruct q; injection E as <-; simpl; rewrite length_app; by apply Hnew.
  - unfold admit_multiplexed in E. destruct (negb _ || _); [done|]. destruct q; injection E as <-; simpl; [|done].
    rewrite length_app. split; [done|]. intros i Hi%H2. lia.
  - split; [constructor|]. intros i Hi. by apply not_elem_of_nil in Hi.
  - by destruct (work_step_kept _ _ _ Hw) as (_ & -> & ->).
Qed.

Lemma listed_once_reachable strict limit p : rtc (provider_step strict) (Provider_new limit) p -> listed_once p.
Proof.
  intros Hr. eapply (rtc_invariant _ listed_once); [apply listed_once_step|exact Hr|].
  split; [constructor|]. intros i Hi. by apply not_elem_of_nil in Hi.
Qed.

Lemma Stop_regions_run strict p : listed_once p -> rtc (provider_step strict) p (Stop_regions p).
Proof.
  intros [Hnd Hlt]. unfold Stop_regions. eapply rtc_l; [apply pv_stop|]. apply finish_all_run; [done| |].
  - intros i Hi. simpl. apply elem_of_app. by right.
  - intros i Hi. apply lookup_lt_is_Some. simpl. auto.
Qed.

(** Every collected call has a result, and one that has a result keeps it. *)
Lemma finish_collected_keeps p i j c :
  contexts p !! j = Some c -> exists d, contexts (finish_collected p i) !! j = Some d /\ (outcome c <> 0 \/ i = j -> outcome d <> 0).
Proof.
  intros Hj. unfold finish_collected. destruct (contexts p !! i) as [x|] eqn:Hi.
  - unfold stop_finish, set_ctx. simpl. destruct (decide (i = j)) as [->|Hne].
    + rewrite list_lookup_insert_eq by (by eapply lookup_lt_Some). eexists. split; [done|]. intros _.
      unfold ctx_Finish. by destruct (Z.eqb_spec (outcome x) 0).
    + rewrite list_lookup_insert_ne by done. exists c. split; [done|]. by intros [?|?].
  - exists c. split; [done|]. intros [?|<-]; [done|congruence].
Qed.

Lemma Stop_regions_decides p i c :
  contexts p !! i = Some c -> exists d, contexts (Stop_regions p) !! i = Some d /\ (i ∈ pending_list p -> outcome d <> 0).
Proof.
  intros Hi. unfold Stop_regions. assert (contexts (stop_calls p) !! i = Some c) as H by done.
  assert (exists d, contexts (fold_left finish_collected (pending_list p) (stop_calls p)) !! i = Some d /\
    (outcome c <> 0 \/ i ∈ pending_list p -> outcome d <> 0)) as (d & Hd & Ho); [|eauto].
  revert H. generalize (stop_calls p) as q. generalize (pending_list p) as l. clear p Hi. intros l. revert c.
  induction l as [|j l IH]; intros c p Hi; simpl.
  { exists c. split; [done|]. intros [?|H]; [done|]. by apply not_elem_of_nil in H. }
  destruct (finish_collected_keeps p j i c Hi) as (d & Hd & Ho). destruct (IH d _ Hd) as (e & He & Hoe).
  exists e. split; [done|]. intros [?|[->|Hin]%elem_of_cons]; apply Hoe; auto.
Qed.

(** ** The work that is left *)

Definition handler_left (h : hstate) : nat := match h with HQueued => 2 | HRunning => 1 | _ => 0 end.
Definition waiter_left (w : wstate) : nat := match w with WComing => 6 | WParkedFor => 3 | WResumed => 1 | WGone => 0 end.

(** A bound on the steps of one call; a run of the closure counts three, a result
    that is still to come two. *)
Definition call_left (c : CallContext) : nat :=
  handler_left (handler c) + (if (runs c =? 0)%nat then 3 else 0) + answers c + waiter_left (waiter c) +
  (if timer c then 2 else 0) + fired c + (if outcome c =? 0 then 2 else 0) + cwakeups c.
Definition work_left (p : Provider) : nat := (total call_left (contexts p) + length (collected p))%nat.

Lemma Finish_left c : (call_left (ctx_Finish 2 c) <= call_left c)%nat /\ (call_left (ctx_Finish 1 c) <= call_left c)%nat.
Proof. unfold ctx_Finish, call_left. destruct (outcome c =? 0) eqn:E; simpl; rewrite ?E; lia. Qed.

(** A step that takes work from one call. *)
Lemma work_left_call p p' i c c' :
  contexts p !! i = Some c -> contexts p' = <[i := c']> (contexts p) -> collected p' = collected p ->
  (call_left c' < call_left c)%nat -> (work_left p' < work_left p)%nat.
Proof.
  intros Hi E El Hlt. unfold work_left. rewrite E, El. pose proof (total_insert call_left _ _ _ c' Hi). lia.
Qed.

Lemma filter_shorter (l : list nat) i : i ∈ l -> (length (filter (.≠ i) l) < length l)%nat.
Proof.
  induction l as [|j l IH]; intros Hi; [by apply not_elem_of_nil in Hi|]. rewrite filter_cons.
  destruct (decide (j ≠ i)) as [Hne|Hne]; simpl.
  - apply elem_of_cons in Hi as [->|Hi]; [done|]. specialize (IH Hi). lia.
  - pose proof (length_filter (.≠ i) l). lia.
Qed.

Lemma work_step_works p p' : work_step true p p' -> (work_left p' < work_left p)%nat.
Proof.
  intros Hs. destruct Hs as [p i c t Hi Hw|p i c Hi Hw Hn|p i c Hi Hw|p i c Hi Ht|p i c Hi Hf|p i c Hi Hh|p i c Hi Hh
    |p i c Hi Hh Hr|p i c Hi Hh Hr|p i c Hi Ha|p i c Hi Ho]; try (eapply work_left_call; [exact Hi|reflexivity|reflexivity|]).
  - unfold call_left. simpl. rewrite Hw. simpl. destruct t, (timer c); lia.
  - unfold call_left. simpl. rewrite Hw. simpl. lia.
  - unfold call_left. simpl. rewrite Hw. simpl. destruct (timer c); lia.
  - unfold call_left. simpl. rewrite Ht. lia.
  - set (c1 := CC _ _ _ _ _ _ _ _ _). destruct (Finish_left c1) as [H _].
    assert (call_left c1 < call_left c)%nat by (unfold call_left, c1; simpl; lia). lia.
  - unfold call_left. simpl. rewrite Hh. simpl. lia.
  - unfold call_left. simpl. rewrite Hh. simpl. lia.
  - unfold run_closure, DoneClosure_Run, MultiplexDoneClosure_Run. destruct (multiplexed c);
      (eapply work_left_call; [exact Hi|reflexivity|reflexivity|]).
    + unfold call_left. simpl. rewrite Hr. simpl. lia.
    + set (c1 := CC _ _ _ _ _ _ _ _ _). destruct (Finish_left c1) as [_ H].
      assert (call_left c1 < call_left c)%nat by (unfold call_left, c1; simpl; rewrite Hr; simpl; lia). lia.
  - unfold handler_throws, catch_v1, catch_multiplexed, MultiplexDoneClosure_Run. destruct (multiplexed c);
      (eapply work_left_call; [exact Hi|reflexivity|reflexivity|]).
    + unfold call_left. simpl. rewrite Hh, Hr by done. simpl. destruct (outcome c =? 0); lia.
    + destruct (Finish_left (ctx_handler HOver c)) as [H _].
      assert (call_left (ctx_handler HOver c) < call_left c)%nat by (unfold call_left; simpl; rewrite Hh; simpl; lia). lia.
  - unfold call_left. simpl. lia.
  - unfold work_left. simpl. pose proof (total_insert call_left _ _ _ (ctx_Finish 2 c) Hi). destruct (Finish_left c) as [H1 _].
    pose proof (filter_shorter _ _ Ho). lia.
Qed.

Lemma work_bounded n p p' : nsteps (work_step true) n p p' -> (n + work_left p' <= work_left p)%nat.
Proof. induction 1 as [|n p p1 p' Hs _ IH]; [lia|]. apply work_step_works in Hs. lia. Qed.

(** ** No work left *)

Definition idle (p : Provider) : Prop := forall p', ~ work_step true p p'.

Lemma idle_call p i c : provider_ok p -> idle p -> contexts p !! i = Some c -> held_by c = 0%nat /\ awaited_by c = 0%nat.
Proof.
  intros Hp Hn Hi. pose proof (po_at _ _ _ Hp Hi) as Hc.
  assert (Hr : handler c = HRefused \/ runs c = 1%nat).
  { destruct (handler c) eqn:Eh; [by destruct (Hn _ (pv_run _ _ _ _ Hi Eh))|by destruct (Hn _ (pv_return _ _ _ _ Hi Eh))| |by left].
    right. destruct (runs c) as [|[|n]] eqn:Er; [|done|pose proof (xo_runs _ Hc); lia].
    by destruct (Hn _ (pv_closure true _ _ _ Hi (or_intror Eh) Er)). }
  assert (Ha : answers c = 0%nat).
  { destruct (answers c) eqn:Ea; [done|]. destruct (Hn _ (pv_answer true _ _ _ Hi ltac:(lia))). }
  assert (Hh : held_by c = 0%nat).
  { unfold held_by. destruct (handler c); try done; destruct Hr as [?| ->]; try done; simpl; by destruct (multiplexed c). }
  split; [done|]. unfold awaited_by. destruct (multiplexed c) eqn:Em; [done|].
  assert (Ho : outcome c <> 0) by (destruct Hr as [Hr|Hr]; [by apply (xo_refused _ Hc)|by apply (xo_ran _ Hc)]).
  destruct (waiter c) eqn:Ew; [by destruct (Hn _ (pv_yield _ _ _ _ false Hi Ew))| |by destruct (Hn _ (pv_leave _ _ _ _ Hi Ew))|done].
  destruct (xo_before _ Hc Em) as [[? _]|[_ Hk]]; [by right|done|]. destruct (Hn _ (pv_resume true _ _ _ Hi Ew ltac:(lia))).
Qed.

Lemma idle_drained p : provider_ok p -> idle p -> drained p = true.
Proof.
  intros Hp Hn. unfold drained. rewrite (po_pending _ Hp), (po_outstanding _ Hp).
  by rewrite (proj2 (total_zero awaited_by _)), (proj2 (total_zero held_by _)) by (intros i c Hi; by apply (idle_call p i c)).
Qed.

Lemma wait_for_last looks p : drained p = true -> wait_for (looks ++ [p]) = true.
Proof. intros Hd. induction looks as [|q looks IH]; simpl; [by rewrite Hd|]. by rewrite IH, orb_true_r. Qed.

Lemma Stop_regions_closed p : open_for_calls (Stop_regions p) = false.
Proof.
  unfold Stop_regions. assert (open_for_calls (stop_calls p) = false) as E by done. revert E.
  generalize (stop_calls p) as q. induction (pending_list p) as [|i l IH]; intros q E; [done|]. simpl. apply IH.
  unfold finish_collected. by destruct (contexts q !! i).
Qed.

(** ** Theorem *)

(** C36. A provider that stops drains, while every service runs its closure at most
    once and none throws after running it.  From every state that requests, handlers,
    timers, answers and closures can lead to, [Stop] leaves a provider in which every
    version 1 call of its list has a result, and in every state reached after it: no
    call has been admitted; the handlers, closures, answers, waiters and timers can
    take only a bounded number of steps more; and when no such step is left, which
    includes that every service has run the closure of each call it was given, the
    condition holds that [Stop] waits for.  So every run that goes on as long as
    there is work ends with success.  (A service that throws and never runs its
    closure keeps its call under way.) *)
Theorem stopped_provider_drains limit p :
  rtc (provider_step true) (Provider_new limit) p ->
  rtc (provider_step true) p (Stop_regions p) /\
  (forall i, i ∈ pending_list p -> exists c, contexts (Stop_regions p) !! i = Some c /\ outcome c <> 0) /\
  forall p1, rtc (provider_step true) (Stop_regions p) p1 ->
    length (contexts p1) = length (contexts p) /\
    (forall n p2, nsteps (work_step true) n p1 p2 -> (n <= work_left p1)%nat) /\
    ((forall p2, ~ work_step true p1 p2) -> drained p1 = true /\ forall looks, wait_for (looks ++ [p1]) = true).
Proof.
  intros Hr. pose proof (listed_once_reachable _ _ _ Hr) as Hl. pose proof (Stop_regions_run true p Hl) as Hs. split_and!; [done| |].
  { intros i Hi. destruct (lookup_lt_is_Some_2 (contexts p) i) as [c Hc]; [by apply Hl|].
    destruct (Stop_regions_decides p i c Hc) as (d & Hd & Ho). eauto. }
  intros p1 Hr1. assert (length (contexts (Stop_regions p)) = length (contexts p)) as El.
  { assert (rtc (provider_step true) (stop_calls p) (Stop_regions p)) as Hf.
    { apply finish_all_run; [apply Hl|intros i Hi; apply elem_of_app; by right|].
      intros i Hi. apply lookup_lt_is_Some. by apply Hl. }
    by destruct (stopped_run _ _ _ Hf eq_refl). }
  destruct (stopped_run _ _ _ Hr1 (Stop_regions_closed p)) as [_ El1]. split_and!; [congruence| |].
  - intros n p2 Hn. apply work_bounded in Hn. lia.
  - intros Hn. assert (drained p1 = true) as Hd; [|split; [done|]; intros looks; by apply wait_for_last].
    apply idle_drained; [|done]. eapply provider_reachable. etrans; [exact Hr|]. by etrans.
Qed.

(** One version 1 call is queued when the provider is stopped: at most twelve steps
    of work are left, and its waiter has a result. *)
Lemma stopped_provider_drains_witness :
  open_for_calls (Stop_regions demo_provider) = false /\
  (forall n p2, nsteps (work_step true) n (Stop_regions demo_provider) p2 -> (n <= 12)%nat) /\
  exists c, contexts (Stop_regions demo_provider) !! 0%nat = Some c /\ outcome c <> 0.
Proof.
  destruct (stopped_provider_drains 1 demo_provider demo_provider_reachable) as (_ & Ho & H).
  split; [reflexivity|]. split.
  - destruct (H _ (rtc_refl _ _)) as (_ & Hb & _). exact Hb.
  - apply Ho. left.
Defined.
