(* ===== verification/RpcStub.v ===== *)
(** * What a stub sees of a call (src/rpc.cpp, [Channel::CallMethod])

    The whole of [CallMethod] in both modes around the exchange: the slot, the
    controller that [Fail] fills and the closure that ends the call. *)

From stdpp Require Import pretty.
From S2P Require Import Prelude Net NetProofs Codec CodecProofs RpcClient RpcClientProofs RpcServer RpcServerProofs RpcCalls.

(** The texts handed to [Fail]; the two modes word a failed send differently. *)
Definition errno_text (what : string) (e : Z) : list Z := Codec.bytes_of (what +:+ pretty e).
Definition error_text (multiplex : bool) (e : call_error) : list Z :=
  match e with
  | WrongThread => Codec.bytes_of "Pulsar RPC must run in its IOManager Fiber"
  | RequestFailure => Codec.bytes_of "RPC request serialization or size failure"
  | HeaderFailure => Codec.bytes_of "RPC header serialization or size failure"
  | ConnectFailed e => errno_text "RPC connect failed: " e
  | SendFailed e => errno_text (if multiplex then "RPC send failed: " else "RPC send failed; outcome unknown after partial send: ") e
  | Overloaded => Codec.bytes_of "Pulsar RPC connection pool overloaded"
  | LengthReadFailed e => errno_text "RPC response length read failed: " e
  | ResponseTooLarge => Codec.bytes_of "RPC response exceeds 64 MiB"
  | BodyReadFailed e => errno_text "RPC response body read failed: " e
  | ParseFailed => Codec.bytes_of "RPC response parse failed"
  | ConnectionClosed => Codec.bytes_of "RPC connection closed"
  | RequestTimeout => Codec.bytes_of "RPC request timeout"
  | PeerError text => text
  end.

(** [Fail]; the controller may be null. *)
Definition Fail (controller : option Controller) (error : list Z) : option Controller := SetFailed error <$> controller.

(** [if (done) done->Run()]; closures are numbers, [ran] those run so far. *)
Definition run_done (done : option nat) (ran : list nat) : list nat :=
  match done with Some d => ran ++ [d] | None => ran end.

Definition report (multiplex : bool) (result : call_error + list Z) (controller : option Controller) : option Controller :=
  match result with
  | inl e => Fail controller (error_text multiplex e)
  | inr _ => controller
  end.

(** [~Channel] closes the connections of the slots. *)
Definition Channel_delete_slots (slots : list Slot) : list Slot :=
  (fun s => MkSlot (busy s) (set_closed true <$> conn s)) <$> slots.

Section stub.
Context `{HeaderFormat}.

(** Version 1: the slots afterwards, the result, the controller and the closures
    run; [None] while the exchange waits. *)
Definition CallMethod_v1 (on_owner : bool) (service method : list Z) (args : option (list Z)) (connect : Z + Connection)
    (parse_response : list Z -> bool) (slots : list Slot) (controller : option Controller) (done : option nat) (ran : list nat)
    : option (list Slot * (call_error + list Z) * option Controller * list nat) :=
  match acquire_slot slots with
  | (None, l) => Some (l, inl Overloaded, Fail controller (error_text false Overloaded), run_done done ran)
  | (Some i, l) =>
      slot ← l !! i;
      '(result, c) ← exchange on_owner service method args connect parse_response (conn slot);
      Some (<[i := release_slot result c]> l, result, report false result controller, run_done done ran)
  end.

(** Multiplexed: how the call goes on after its frame is built: the connection
    could not be made, the frame not be sent, or the call comes back from its
    yield with what the reader, the timer or the teardown stored in it. *)
Inductive mux_fate := FateConnect (errno : Z) | FateSend (errno : Z) | FateBack (call : PendingCall).

Definition fate_result (parse_response : list Z -> bool) (f : mux_fate) : call_error + list Z :=
  match f with
  | FateConnect e => inl (ConnectFailed e)
  | FateSend e => inl (SendFailed e)
  | FateBack c => call_result parse_response c
  end.

Definition CallMethod_multiplexed (on_owner : bool) (service method : list Z) (args : option (list Z))
    (parse_response : list Z -> bool) (fate : mux_fate) (s : Mux) (controller : option Controller) (done : option nat) (ran : list nat)
    : (call_error + list Z) * option Controller * list nat :=
  match prepare_multiplexed on_owner service method args s with
  | (inl e, _) => (inl e, Fail controller (error_text true e), run_done done ran)
  | (inr _, _) =>
      let result := fate_result parse_response fate in
      (result, report true result controller, run_done done ran)
  end.

(** ** Errors have a text *)

Lemma bytes_of_cons a s : Codec.bytes_of (String a s) <> [].
Proof. done. Qed.

Lemma errno_text_nonempty what e : what <> "" -> errno_text what e <> [].
Proof. intros Hw. unfold errno_text. by destruct what. Qed.

Lemma error_text_nonempty multiplex e : (forall t, e = PeerError t -> t <> []) -> error_text multiplex e <> [].
Proof.
  intros Hp. destruct e; simpl; try (by apply bytes_of_cons); try (by apply errno_text_nonempty); [|by apply Hp].
  apply errno_text_nonempty. by destruct multiplex.
Qed.

(** What the caller learns from a controller without an error: that the call
    failed, with its text, or nothing. *)
Definition reported (multiplex : bool) (result : call_error + list Z) (before after : option Controller) : Prop :=
  match before, after with
  | None, None => True
  | Some b, Some a =>
      error_ b = [] ->
      match result with
      | inl e => Failed a = true /\ ErrorText a = error_text multiplex e
      | inr _ => a = b /\ Failed a = false
      end
  | _, _ => False
  end.

Lemma report_reported multiplex result controller :
  (forall t, result = inl (PeerError t) -> t <> []) -> reported multiplex result controller (report multiplex result controller).
Proof.
  intros Hp. unfold report, reported, Fail. destruct result as [e|payload], controller as [c|]; simpl; try done; intros Hc.
  - split; [|done]. unfold Failed. apply bool_decide_eq_true. simpl. apply error_text_nonempty. intros t ->. by apply Hp.
  - split; [done|]. unfold Failed. apply bool_decide_eq_false. naive_solver.
Qed.

(** The errors an exchange can end with. *)
Definition exchange_error (e : call_error) : bool := match e with PeerError _ | Overloaded => false | _ => true end.

Lemma encode_request_error service method args id e : encode_request service method args id = inl e -> exchange_error e = true.
Proof.
  unfold encode_request. destruct args as [a|]; [|naive_solver]. destruct (len a >? kMaxMessage); [naive_solver|].
  destruct (ser _); [|naive_solver]. destruct (_ || _); naive_solver.
Qed.

Lemma read_response_v1_error c e c' : read_response_v1 c = Finished (inl e) c' -> exchange_error e = true.
Proof.
  unfold read_response_v1. destruct (ReadExact 4 c) as [[l|x] c1|]; [|naive_solver|done].
  destruct (_ >? _); [naive_solver|]. destruct (_ =? 0); [naive_solver|]. destruct (ReadExact _ c1) as [[p|x] c2|]; naive_solver.
Qed.

Lemma exchange_own_error on_owner service method args connect parse_response slot_conn e c :
  exchange on_owner service method args connect parse_response slot_conn = Some (inl e, c) -> exchange_error e = true.
Proof.
  intros E. unfold exchange in E. destruct (negb on_owner); [naive_solver|].
  destruct (encode_request service method args 0) as [x|frame] eqn:He.
  { injection E as <- _. by eapply encode_request_error. }
  destruct (if match slot_conn with Some c => _ | None => false end then _ else _) as [c0|]; [|naive_solver].
  destruct (WriteAll frame c0) as [[x|] c1|]; [naive_solver| |done].
  destruct (read_response_v1 c1) as [[x|p] c2|] eqn:Er; [|by destruct (parse_response p); naive_solver|done].
  injection E as <- _. by eapply read_response_v1_error.
Qed.

(** A call that finds the connection of its slot closed does not use it. *)
Lemma exchange_after_delete on_owner service method args connect parse_response slot_conn :
  exchange on_owner service method args connect parse_response (set_closed true <$> slot_conn) =
  match exchange on_owner service method args connect parse_response None with
  | Some (r, None) => Some (r, if negb on_owner then set_closed true <$> slot_conn
                               else match encode_request service method args 0 with
                                    | inl _ => set_closed true <$> slot_conn
                                    | inr _ => None
                                    end)
  | x => x
  end.
Proof.
  unfold exchange. destruct on_owner; simpl; [|done]. destruct (encode_request service method args 0); [done|].
  destruct slot_conn as [c|]; simpl; destruct connect as [e|c0]; try done;
    (destruct (WriteAll l c0) as [[?|] c1|]; [done| |done]; destruct (read_response_v1 c1) as [[?|p] c2|]; [done| |done]; by destruct (parse_response p)).
Qed.

(** ** Theorems *)

(** C40. A version 1 call ends the way its stub expects.  When [CallMethod] returns,
    the closure has been run exactly once, and nothing else; a controller that had
    no error before says that the call failed exactly when it did, with the text of
    the error.  Either every slot was busy, the call was refused as overloaded and
    the slots are unchanged; or the exchange took place on one free slot, which is
    free again with the connection that its release leaves, and every other slot, busy or idle, is as before. *)
Theorem v1_call_completes on_owner service method args connect parse_response slots controller done ran slots' result controller' ran' :
  CallMethod_v1 on_owner service method args connect parse_response slots controller done ran = Some (slots', result, controller', ran') ->
  ran' = ran ++ option_list done /\ reported false result controller controller' /\
  ((result = inl Overloaded /\ slots' = slots /\ Forall (fun s => busy s = true) slots) \/
   (result <> inl Overloaded /\ exists i c c', slots !! i = Some (MkSlot false c) /\
      exchange on_owner service method args connect parse_response c = Some (result, c') /\
      slots' !! i = Some (release_slot result c') /\ busy (release_slot result c') = false /\
      length slots' = length slots /\ forall j, j <> i -> slots' !! j = slots !! j)).
Proof.
  intros E. unfold CallMethod_v1 in E. assert (run_done done ran = ran ++ option_list done) as Hdone
    by (destruct done; simpl; by rewrite ?app_nil_r).
  pose proof (acquire_slot_spec slots) as Ha. destruct (acquire_slot slots) as [[i|] l].
  - destruct Ha as (c0 & Hs & ->). pose proof (lookup_lt_Some _ _ _ Hs) as Hlt.
    rewrite list_lookup_insert_eq in E by done. simpl in E.
    destruct (exchange _ _ _ _ _ _ _) as [[r c]|] eqn:Ex; [|done]. simpl in E. injection E as <- <- <- <-.
    rewrite list_insert_insert_eq. split_and!; [done| |].
    + apply report_reported. intros t ->. by apply exchange_own_error in Ex.
    + right. split; [intros ->; by apply exchange_own_error in Ex|]. exists i, c0, c.
      split_and!; [done|done|by apply list_lookup_insert_eq|by destruct r|by rewrite length_insert|].
      intros j Hj. by apply list_lookup_insert_ne.
  - destruct Ha as [-> Hf]. injection E as <- <- <- <-. split_and!; [done| |by left].
    by apply (report_reported false (inl Overloaded)).
Qed.

(** A multiplexed call ends the way its stub expects, however the reader, the
    timers, the teardown of connections and other calls interleave with it: the
    closure has been run exactly once, the controller says that the call failed
    exactly when it did, with the text of the error, and an answer from the peer
    is a failure only if the peer sent an error text. *)
Theorem multiplexed_call_completes on_owner service method args parse_response fate s controller done ran result controller' ran' world id :
  rtc (mux_step parse_response) Mux_new world ->
  (forall c, fate = FateBack c -> calls world !! id = Some c) ->
  CallMethod_multiplexed on_owner service method args parse_response fate s controller done ran = (result, controller', ran') ->
  ran' = ran ++ option_list done /\ reported true result controller controller' /\
  (forall text, result = inl (PeerError text) -> text <> [] /\ exists payload, (id, (text, payload)) ∈ received world).
Proof.
  intros Hr Hf E. unfold CallMethod_multiplexed in E. assert (run_done done ran = ran ++ option_list done) as Hdone
    by (destruct done; simpl; by rewrite ?app_nil_r).
  destruct (prepare_multiplexed on_owner service method args s) as [[e|[i frame]] s'] eqn:Ep.
  - assert (exchange_error e = true) as He.
    { unfold prepare_multiplexed in Ep. destruct (negb on_owner); [naive_solver|]. destruct args as [a|]; [|naive_solver].
      destruct (len a >? kMaxMessage); [naive_solver|]. destruct (issue_id s) as [i s1].
      destruct (encode_request service method (Some a) i) as [x|fr] eqn:Ee; [|done]. injection Ep as <- _.
      by eapply encode_request_error. }
    injection E as <- <- <-. split_and!; [done| |by intros text [= ->]].
    apply (report_reported true (inl e)). by intros t [= ->].
  - assert (forall text, fate_result parse_response fate = inl (PeerError text) ->
      text <> [] /\ exists payload, (id, (text, payload)) ∈ received world) as Hpeer.
    { intros text Ht. destruct fate as [e|e|c]; [done|done|]. specialize (Hf c eq_refl). simpl in Ht. unfold call_result in Ht.
      destruct (m_error c) as [e|] eqn:Em; [|by destruct (parse_response _)]. injection Ht as ->.
      apply (co_peer _ _ _ _ _ (mo_calls _ _ (mux_reachable _ _ Hr) id c Hf) text Em). }
    injection E as <- <- <-. split_and!; [done| |exact Hpeer]. apply report_reported. intros t Ht. by apply (Hpeer t).
Qed.
End stub.

(** ** Witnesses *)

#[local] Existing Instance demo_format.

Lemma v1_call_completes_witness : exists controller',
  CallMethod_v1 true [65] [66] (Some [10; 11; 12]) (inl 111) (fun _ => true) [MkSlot true None; MkSlot false None]
    (Some Controller_new) (Some 3%nat) [] =
    Some ([MkSlot true None; MkSlot false None], inl (ConnectFailed 111), Some controller', [3%nat]) /\
  Failed controller' = true /\ ErrorText controller' = Codec.bytes_of "RPC connect failed: 111".
Proof.
  eexists. split; [vm_compute; reflexivity|].
  destruct (v1_call_completes true [65] [66] (Some [10; 11; 12]) (inl 111) (fun _ => true) [MkSlot true None; MkSlot false None]
    (Some Controller_new) (Some 3%nat) [] [MkSlot true None; MkSlot false None] (inl (ConnectFailed 111))
    (Some (SetFailed (error_text false (ConnectFailed 111)) Controller_new)) [3%nat]) as (_ & Hr & _).
  - vm_compute. reflexivity.
  - destruct (Hr eq_refl) as [H1 H2]. split; [exact H1|vm_compute; reflexivity].
Defined.

Lemma multiplexed_call_completes_witness :
  snd (CallMethod_multiplexed true [65] [66] (Some [10; 11; 12]) (fun _ => true) (FateSend 32) demo_mux (Some Controller_new) (Some 3%nat) []) = [3%nat] /\
  reported true (inl (SendFailed 32)) (Some Controller_new) (Some (SetFailed (error_text true (SendFailed 32)) Controller_new)).
Proof.
  destruct (multiplexed_call_completes true [65] [66] (Some [10; 11; 12]) (fun _ => true) (FateSend 32) demo_mux (Some Controller_new)
    (Some 3%nat) [] (inl (SendFailed 32)) (Some (SetFailed (error_text true (SendFailed 32)) Controller_new)) [3%nat] Mux_new 1)
    as (_ & Hr & _).
  - apply rtc_refl.
  - intros c [=].
  - vm_compute. reflexivity.
  - split; [vm_compute; reflexivity|exact Hr].
Defined.
